(* ===== verification/_CoqProject ===== *)
-Q . S2P
Prelude.v
Sorting.v
IpfsSite.v
Core.v
SitePage.v
Envelope.v
Store.v
Projector.v
EventLog.v
Scenario.v
Frame.v
Chain.v
Replay.v
Service.v
Presence.v
FloatFacts.v
Float32.v
Float64.v
Gravity.v
Trust.v
Bytes.v
FloatBits.v
Tensor.v
Sync.v
Graph.v
Rebuild.v
Versioning.v
Typing.v
Ledger.v
Queries.v
GraphFacts.v
SyncFacts.v
TensorFacts.v
Catchup.v
Durability.v
Gossip.v
Provenance.v
History.v
Search.v
Reads.v
RateLimit.v
Petname.v
Embeddings.v
Corroboration.v
Authority.v
Roadmap.v
Rest.v
RestFacts.v
Pages.v
Mcp.v
Framing.v
Ntp.v
Signed.v
Gateway.v
Transfer.v
Ssrf.v
Robots.v
Fetch.v
Extract.v
Crawl.v
CrawlApi.v
Reticulum.v
GatewayFacts.v
