(* ===== verification/Prelude.v ===== *)
(** * Open Agent Graph: a verification library

    Open Agent Graph is a replicated graph of signed statements.  Agents make
    assertions about web resources through a peer; a peer records each one as
    an event of its own append-only log, signed and hash-chained, and derives
    the graph tables from the events with a projector.  Peers pull each
    other's logs, over HTTP or over Reticulum links, check every event, and
    project it in the same way, so that copies of a log give copies of the
    graph.  Around this core there are statements signed outside the log
    (presence, clusters, gateway answers, transfer receipts), rankings computed
    over the graph (corroboration, authority, similarity of embeddings), a REST
    API, rate limits, an internet gateway, a crawler, and a browser module that
    shows a static site pinned on IPFS.  The program lives under [src/crates]; the browser module
    is JavaScript, the rest Rust.

    ** The parts and their files

    The browser module ([oag-api/assets/ipfs-site-bundle.src.js]):
    - [IpfsSite]: the whole module, function by function.  The page (root
      element, document, log of what was started, dialled and fetched) is
      explicit state that an exception does not undo;
    - [SitePage] ([ipfs_site.rs]): the page the server answers with, read as a
      browser reads it and handed to the module.

    Identifiers, events, and the log ([oag-core], [oag-crypto], [oag-events],
    [oag-storage]):
    - [Core]: 32-byte identifiers and the prefixes they are hashed under,
      vocabularies and their texts, peer ids, signatures;
    - [Envelope]: payloads and the signed envelope (payload.rs, envelope.rs,
      builder.rs, validate.rs);
    - [Store]: the SQLite tables as a record of finite maps, the event log as
      a list in [rowid] order, one definition per repository function that
      the modelled code calls;
    - [Projector], [EventLog]: [project] with its [project_*] functions;
      [commit_event] and [ingest_remote_event], each one transaction;
    - [Frame], [Chain]: what projecting leaves alone; one chain per origin,
      with the abstract decision [offer] that ingesting refines;
    - [Replay], [Rebuild]: the graph tables as a fold of the projector over
      the log; redaction, suppression, [rebuild_from_events], and [reachable],
      the databases a peer can get to by any sequence of operations;
    - [Typing]: every row of a reachable database parses back and refers to
      rows that exist;
    - [Ledger]: a declarative reading of the log, key by key, without the
      projector, and the tables compared with it.

    The graph service ([oag-graph]):
    - [Service]: a running process, its database and its clock readings;
    - [Graph], [GraphFacts]: actors, API keys, permissions, [assert],
      evidence, verification, dispute, retraction, identifiers; then what they
      guarantee;
    - [Queries]: [get_subgraph]; [Provenance]: [get_event_provenance] and
      [get_history]; [History]: the index of events behind [get_history], and
      what a history contains; [Search]: full-text search, resolution of identifiers,
      the sources behind a node;
    - [Versioning]: rows of older schema versions, and [convert perm];
    - [Corroboration], [Roadmap]: the five signals of an edge, by independent
      controllers of its sources; the proposals ranked by them;
    - [Authority]: PageRank over the edges, and its table;
    - [Embeddings] ([oag-embeddings]): vectors of nodes, semantic search.

    Numbers and sorting, shared by the rankings and by trust: [FloatFacts]
    (IEEE binary arithmetic of [Stdlib.Floats.SpecFloat] at any width),
    [Float32], [Float64], [FloatBits] (a float as its 32 bits, [total_cmp]),
    [Sorting] (the stable sort of the standard library).

    Replication ([oag-sync], [oag-reticulum]):
    - [Presence], [Trust]: heartbeats, cluster declarations, the trust score
      in [f32] arithmetic;
    - [Sync], [SyncFacts], [Catchup]: the sync server's handlers and
      [sync_with_peer]; what holds against any remote; what holds with an
      honest one;
    - [Gossip], [Durability], [Gravity]: the two loops that pull from every
      known peer; the replication status shown to the operator; the delay
      before a new node answers;
    - [Tensor] ([oag-tensor]): the pad that a sync round moves;
    - [RateLimit]: the two rate limiters;
    - [Bytes], [Framing], [Reticulum]: byte strings, message framing, and
      replication over links.

    At the edge ([oag-api], [oag-crawler], [oag-petname], [oag-cli]):
    - [Rest], [RestFacts]: every handler that takes a bearer key, behind the
      rate limiter; what a request can make of the database;
    - [Pages] ([human.rs]): the pages for people without a key, as the values
      the templates are filled with;
    - [Mcp] ([oag-mcp]): the tools, compared with their REST routes;
    - [Petname]: words that name a peer, and the DNS label made of them;
    - [Ntp]: NTP packets and the query of an upstream server;
    - [Signed]: the checks shared by the signed requests and answers;
    - [Gateway], [GatewayFacts]: the gateway's resolution engine (cache,
      quorum, origin, relay) and what its answers are worth;
    - [Transfer]: fetching pinned content with signed receipts;
    - [Ssrf], [Robots], [Fetch]: the addresses the crawler refuses, robots.txt,
      and the fetch loop that the gateway shares;
    - [Extract], [Crawl]: what is read out of a page and the documents beside
      it, and a crawl with everything it writes; [CrawlApi]: crawling on request.

    [Scenario] holds a small history that the witnesses evaluate; this file
    holds the notations, tactics, hint databases and generic lemmas the others
    share.

    ** What is proved

    - The log.  Committing appends exactly the next event of the own chain;
      ingesting implements the abstract decision on chains, accepts authentic
      events only, and an error changes nothing.  Every reachable database
      holds one well linked chain per origin ([reachable_chained]).
    - The graph.  The tables tell the log: every row is what the events of the
      log, read in order, say about its key ([tables_tell_the_log]).  Rebuilding a reachable database from its log is the identity
      ([rebuild_is_identity]); redactions survive everything; the tables are
      well typed; the history of an entity is every event that touched it, in
      order and in full, redacted text included; the answers of the queries are the mathematical
      neighbourhood of a node, the recorded author of an event, and the nodes
      that match a text as the index is asked.
    - The service.  The life of an API key, ownership of retractions, and what
      [assert] leaves behind when it fails half-way.
    - Replication.  Against any remote, only authentic events of admitted
      origins are appended; a round with an honest remote makes progress to
      the end of its log or stops at an event the projector refuses.
      Databases stay reachable, so every invariant holds of replicas as well,
      after any sequence of gossip ticks too.  The replication target is the
      rounded-up square root it claims to be.
    - The rankings, in floating point as the code computes it.  Trust scores
      and corroboration signals lie between zero and one, for every rounding;
      corroboration counts controllers and not voices; authority ends, without
      a panic, and gives every node on an edge a finite score; the roadmap and
      semantic search are sorted as announced, and stale vectors are gone.
    - The REST API.  Nothing is read or written without a key that has the
      permission of the route, reading writes nothing, and what is written
      names the caller as its author and keeps the database reachable.  The
      MCP tools do what the routes do; a crawl needs a permission of its own.
      The pages for people write nothing, and announce a superseded assertion
      by what the log says replaced it.
    - Transport.  Framing is a round trip and loses nothing; a request over a
      link is answered however its bytes are cut and interleaved.
    - The edge.  Bounds for the time a quorum of NTP answers settles on; where
      gateway answers come from; termination of relay chains; receipts bind
      both sides; every connection of a fetch goes to a checked address; a
      crawl writes attributed statements with evidence, or nothing.
    - The bundle.  The pinned site is shown, or an error is; no HTTP layer;
      and the server's page starts it on the CID asked for.

    Statements hold as the code behaves, which is not always what its comments
    say; where they part, the theorem states both the guarantee and its limit.

    ** Modelling choices

    - Third-party code is a class or a record whose fields are its functions: [Platform]
      (hashes, signatures, text codecs, Unicode tables), [Unicode], [Codec],
      [StatementCodec], [RnCodec], [GatewayCodec], [TransferCodec] (serde and
      JCS), [CanonicalJson] and [SupersessionJson] (laws of [serde_json] on the
      columns that a history or a page reads back), [GraphPlatform], [UrlPorts] (the [url] crate), [FullText] (SQLite's
      FTS5), [Documents] (the HTML and JSON parsers), [World] (helia, libp2p,
      the browser), [Web] (DNS, HTTP), [Outside] and [TransferOutside] (other
      peers, upstream servers, clocks, randomness), [PinningProvider],
      [LlmExtractor], [EmbeddingProvider] (remote services), [Corroborating],
      [EdgeOrder] (the order of a [HashMap], [powf]), [Logarithm] ([ln]),
      [Words] (a dictionary and a generator), [JsonText] (the JSON text of a
      string).  Reading an RFC 3339 time is an
      argument of the REST API.  Where a theorem relies on
      documented behaviour, it is a law of a second class ([PlatformLaws],
      [CodecLaws], ...).  [Core] and [Envelope] give toy instances that
      satisfy the laws; the witnesses run on them.  Collision freedom is never
      assumed of the hash as a whole: a theorem that needs it assumes it of
      the inputs that occur.
    - Integers are [Z] at their width: 64-bit arithmetic wraps as a release
      build does, casts truncate, saturating operations saturate.  Lengths of
      lists in memory are [nat].  [f32] and [f64] are [spec_float] with the
      rounding of IEEE 754, to nearest and ties to even.
    - A database is one value; a transaction is a function that returns the
      new one or an error and the old one.  Statements run outside a
      transaction commit one by one.  The statements of one query read one
      state.  Foreign keys are on, as the pool sets them.
    - Fallible code returns [result], shared state is passed explicitly.
      Texts of error messages are shortened to what tells them apart.
    - Identifiers of evidence are taken as the code computes them; the
      metadata column of evidence is uninterpreted text.

    ** Bounds and fuel

    Recursion is structural wherever the data allows it.  Where it is not:
    the bundle's directory walk takes the depth of the tree, and returns the
    same for every larger number; [chunks] takes the length of its input, and
    each step shortens it; [traverse] counts the rounds, of which the code
    itself fixes the number, and [power_iteration] as well; [follow] counts the redirects left, at most five;
    a relay chain counts the hops of the request.  [small] bounds the number
    of rows of the log below 2^63 - 1, where SQLite's [rowid] would end, and
    [roomy] says the same of a log about to grow by a known amount.  Counts
    that are converted to a float are bounded where it matters: by 2^24 where
    [f32] must hold them exactly, by 2^50 for the replication target, by 2^64
    where they need only be finite.

    ** Not modelled

    - Code whose work is another program's: the text of the templates of
      the pages for humans and the printing of their numbers, the Prometheus
      exposition, logging, sockets and timers, the HTTP
      clients of IPFS providers, the SQLite pool, backups and key files.
    - The command line and its configuration.
    - Counts over tables, for metrics.
    - The order in which SQLite returns rows where the code does not ask for
      one: the model uses that of the map.  Where the code's result depends on
      it, the theorems do not.
    - Tests, and the minified copy of the browser bundle, which is generated
      from the source that [IpfsSite] models.

    What is left out is configuration, whose values are arguments of the
    model, counting queries whose meaning is one SQL statement each, and calls
    into other programs, which are parameters of it. *)

From Stdlib Require Export Ascii ZArith Lia.
From stdpp Require Export base option list strings gmap sorting.


(** ** Results: Rust's [Result<A, E>] and JavaScript's "value or exception" *)

Inductive result (E A : Type) : Type :=
  | Ok (a : A)
  | Err (e : E).
Arguments Ok {E A} a.
Arguments Err {E A} e.

#[export] Instance result_ret E : MRet (result E) := λ A a, Ok a.
#[export] Instance result_bind E : MBind (result E) := λ A B f m,
  match m with Ok a => f a | Err e => Err e end.
#[export] Instance result_fmap E : FMap (result E) := λ A B f m,
  match m with Ok a => Ok (f a) | Err e => Err e end.
#[export] Instance result_eq_dec `{EqDecision E, EqDecision A} : EqDecision (result E A).
Proof. solve_decision. Defined.

(** [Result::map_err], [Option::ok_or] and [Result::ok]. *)
Definition map_err {E F A} (f : E → F) (m : result E A) : result F A :=
  match m with Ok a => Ok a | Err e => Err (f e) end.
Definition ok_or {E A} (o : option A) (e : E) : result E A :=
  match o with Some a => Ok a | None => Err e end.
#[export] Instance Ok_inj {E A} : Inj (=) (=) (@Ok E A).
Proof. by intros ?? [= ->]. Qed.
Definition to_option {E A} (m : result E A) : option A :=
  match m with Ok a => Some a | Err _ => None end.
(** [Option<Result<A, E>>::transpose]. *)
Definition transpose {E A} (o : option (result E A)) : result E (option A) :=
  match o with
  | None => Ok None
  | Some (Ok a) => Ok (Some a)
  | Some (Err e) => Err e
  end.
Definition is_ok {E A} (m : result E A) : bool :=
  match m with Ok _ => true | Err _ => false end.

(** ** Transaction bodies: state passing in which an error loses the state *)

Definition stm (S E A : Type) : Type := S → result E (A * S).

#[export] Instance stm_ret S E : MRet (stm S E) := λ A a s, Ok (a, s).
#[export] Instance stm_bind S E : MBind (stm S E) := λ A B f m s,
  match m s with Ok (a, s') => f a s' | Err e => Err e end.

Definition get {S E} : stm S E S := λ s, Ok (s, s).
Definition gets {S E A} (f : S → A) : stm S E A := λ s, Ok (f s, s).
Definition modify {S E} (f : S → S) : stm S E () := λ s, Ok ((), f s).
Definition throw {S E A} (e : E) : stm S E A := λ _, Err e.
Definition lift {S E A} (r : result E A) : stm S E A := λ s,
  match r with Ok a => Ok (a, s) | Err e => Err e end.
Definition assert_or {S E} (b : bool) (e : E) : stm S E () := λ s,
  if b then Ok ((), s) else Err e.

(** [for x in l { f(x)?; }]. *)
Fixpoint for_each {S E A} (f : A → stm S E ()) (l : list A) : stm S E () :=
  match l with
  | [] => mret ()
  | x :: l => f x ≫= λ _, for_each f l
  end.

(** A transaction: commit the body's state, or roll everything back. *)
Definition atomically {S E A} (m : stm S E A) (s : S) : result E A * S :=
  match m s with Ok (a, s') => (Ok a, s') | Err e => (Err e, s) end.

(** ** Code whose side effects survive an exception *)

Definition ste (S E A : Type) : Type := S → result E A * S.

#[export] Instance ste_ret S E : MRet (ste S E) := λ A a s, (Ok a, s).
#[export] Instance ste_bind S E : MBind (ste S E) := λ A B f m s,
  match m s with (Ok a, s') => f a s' | (Err e, s') => (Err e, s') end.

Definition effect {S E} (f : S → S) : ste S E () := λ s, (Ok (), f s).
Definition observe {S E A} (f : S → A) : ste S E A := λ s, (Ok (f s), s).
Definition raise {S E A} (e : E) : ste S E A := λ s, (Err e, s).
Definition of_result {S E A} (r : result E A) : ste S E A := λ s, (r, s).
Definition try_catch {S E A} (m : ste S E A) (h : E → ste S E A) : ste S E A := λ s,
  match m s with (Ok a, s') => (Ok a, s') | (Err e, s') => h e s' end.

(** ** Inversion lemmas and the tactic that applies them *)

Section monad_lemmas.
Context {S E : Type}.

Lemma stm_bind_ok {A B} (m : stm S E A) (f : A → stm S E B) s b s'' :
  (m ≫= f) s = Ok (b, s'') → ∃ a s', m s = Ok (a, s') ∧ f a s' = Ok (b, s'').
Proof. cbv [mbind stm_bind]. destruct (m s) as [[a s']|e]; naive_solver. Qed.

Lemma stm_bind_run {A B} (m : stm S E A) (f : A → stm S E B) s a s' :
  m s = Ok (a, s') → (m ≫= f) s = f a s'.
Proof. intros H. cbv [mbind stm_bind]. by rewrite H. Qed.

Lemma stm_bind_fail {A B} (m : stm S E A) (f : A → stm S E B) s e :
  m s = Err e → (m ≫= f) s = Err e.
Proof. intros H. cbv [mbind stm_bind]. by rewrite H. Qed.

Lemma ste_bind_ok {A B} (m : ste S E A) (f : A → ste S E B) s b s'' :
  (m ≫= f) s = (Ok b, s'') → ∃ a s', m s = (Ok a, s') ∧ f a s' = (Ok b, s'').
Proof. cbv [mbind ste_bind]. destruct (m s) as [[a|e] s']; naive_solver. Qed.
Lemma ste_bind_run {A B} (m : ste S E A) (f : A → ste S E B) s a s' :
  m s = (Ok a, s') → (m ≫= f) s = f a s'.
Proof. intros H. cbv [mbind ste_bind]. by rewrite H. Qed.
Lemma ste_bind_fail {A B} (m : ste S E A) (f : A → ste S E B) s e s' :
  m s = (Err e, s') → (m ≫= f) s = (Err e, s').
Proof. intros H. cbv [mbind ste_bind]. by rewrite H. Qed.

Lemma result_bind_ok {A B} (m : result E A) (f : A → result E B) b :
  (m ≫= f) = Ok b → ∃ a, m = Ok a ∧ f a = Ok b.
Proof. destruct m; cbn; naive_solver. Qed.

Lemma map_err_ok {E' A} (f : E → E') (m : result E A) a : map_err f m = Ok a → m = Ok a.
Proof. destruct m; naive_solver. Qed.
Lemma ok_or_ok {A} (o : option A) (e : E) a : ok_or o e = Ok a → o = Some a.
Proof. destruct o; naive_solver. Qed.

Lemma atomically_err {A} (m : stm S E A) s e s' :
  atomically m s = (Err e, s') → s' = s.
Proof. unfold atomically. destruct (m s) as [[??]|?]; naive_solver. Qed.

Lemma atomically_ok {A} (m : stm S E A) s a s' :
  atomically m s = (Ok a, s') → m s = Ok (a, s').
Proof. unfold atomically. destruct (m s) as [[??]|?]; naive_solver. Qed.

(** A property of the state that every iteration preserves. *)
Lemma for_each_preserves {A} (P : S → Prop) (f : A → stm S E ()) l s u s' :
  (∀ x s u s', x ∈ l → P s → f x s = Ok (u, s') → P s') →
  P s → for_each f l s = Ok (u, s') → P s'.
Proof.
  revert s. induction l as [|x l IH]; intros s Hf Hs Hrun; cbn in Hrun.
  - by injection Hrun as _ <-.
  - apply stm_bind_ok in Hrun as (? & s1 & H1 & H2).
    eapply IH; [|eapply Hf; [left|exact Hs|exact H1]|exact H2].
    intros. eapply Hf; [by right|done..].
Qed.

Lemma for_each_app {A} (f : A → stm S E ()) l1 l2 s :
  for_each f (l1 ++ l2) s = (for_each f l1 ≫= λ _, for_each f l2) s.
Proof.
  revert s. induction l1 as [|x l1 IH]; intros s; cbn; [done|].
  cbv [mbind stm_bind] in *. destruct (f x s) as [[??]|?]; [apply IH|done].
Qed.
End monad_lemmas.

(** A part of the state that no successful run changes. *)
Definition keeps {S E A B} (f : S → B) (m : stm S E A) : Prop :=
  ∀ s a s', m s = Ok (a, s') → f s' = f s.

Section keeps_lemmas.
Context {S E B : Type} (f : S → B).

Lemma keeps_bind {A A'} (m : stm S E A) (k : A → stm S E A') :
  keeps f m → (∀ a, keeps f (k a)) → keeps f (m ≫= k).
Proof.
  intros Hm Hk s b s'' H. apply stm_bind_ok in H as (a & s' & H1 & H2).
  rewrite (Hk _ _ _ _ H2). by eapply Hm.
Qed.
Lemma keeps_ret {A} (a : A) : keeps f (mret a : stm S E A).
Proof. by intros s ? ? [= <- <-]. Qed.
Lemma keeps_get : keeps f (get : stm S E S).
Proof. by intros s ? ? [= <- <-]. Qed.
Lemma keeps_gets {A} (g : S → A) : keeps f (gets g : stm S E A).
Proof. by intros s ? ? [= <- <-]. Qed.
Lemma keeps_throw {A} (e : E) : keeps f (throw e : stm S E A).
Proof. by intros s ? ?. Qed.
Lemma keeps_lift {A} (r : result E A) : keeps f (lift r : stm S E A).
Proof. intros s a s' H. unfold lift in H. destruct r; naive_solver. Qed.
Lemma keeps_modify (g : S → S) : (∀ s, f (g s) = f s) → keeps f (modify g : stm S E ()).
Proof. intros Hg s ? ? [= _ <-]. apply Hg. Qed.
Lemma keeps_for_each {A} (k : A → stm S E ()) l : (∀ x, keeps f (k x)) → keeps f (for_each k l).
Proof.
  intros Hk. induction l as [|x l IH]; cbn; [apply keeps_ret|].
  by apply keeps_bind.
Qed.
End keeps_lemmas.
Create HintDb keeps.
#[export] Hint Resolve keeps_bind keeps_ret keeps_get keeps_gets keeps_throw keeps_lift
  keeps_for_each : keeps.

(** Two runs of one program from related states: both fail, or both succeed
    with the same result in related states. *)
Definition respects {S E A} (R : S → S → Prop) (m : stm S E A) : Prop :=
  ∀ s1 s2, R s1 s2 →
    match m s1, m s2 with
    | Ok (a1, s1'), Ok (a2, s2') => a1 = a2 ∧ R s1' s2'
    | Err _, Err _ => True
    | _, _ => False
    end.

Section respects_lemmas.
Context {S E : Type} (R : S → S → Prop).

Lemma respects_bind {A B} (m : stm S E A) (k : A → stm S E B) :
  respects R m → (∀ a, respects R (k a)) → respects R (m ≫= k).
Proof.
  intros Hm Hk s1 s2 Hs. cbv [mbind stm_bind]. specialize (Hm s1 s2 Hs).
  destruct (m s1) as [[a1 s1']|], (m s2) as [[a2 s2']|]; try done.
  destruct Hm as [-> Hs']. by apply Hk.
Qed.
Lemma respects_ret {A} (a : A) : respects R (mret a : stm S E A).
Proof. by intros s1 s2 Hs. Qed.
Lemma respects_throw {A} (e : E) : respects R (throw e : stm S E A).
Proof. by intros s1 s2 Hs. Qed.
Lemma respects_lift {A} (r : result E A) : respects R (lift r : stm S E A).
Proof. intros s1 s2 Hs. unfold lift. by destruct r. Qed.
Lemma respects_run {A} (m : stm S E A) s1 s2 a s1' :
  respects R m → R s1 s2 → m s1 = Ok (a, s1') → ∃ s2', m s2 = Ok (a, s2') ∧ R s1' s2'.
Proof.
  intros Hm Hs Hr. specialize (Hm s1 s2 Hs). rewrite Hr in Hm.
  destruct (m s2) as [[? s2']|]; [|done]. destruct Hm as [-> ?]. by exists s2'.
Qed.
Lemma respects_run_back {A} (m : stm S E A) s1 s2 a s2' :
  respects R m → R s1 s2 → m s2 = Ok (a, s2') → ∃ s1', m s1 = Ok (a, s1') ∧ R s1' s2'.
Proof.
  intros Hm Hs Hr. specialize (Hm s1 s2 Hs). rewrite Hr in Hm.
  destruct (m s1) as [[? s1']|]; [|done]. destruct Hm as [-> ?]. by exists s1'.
Qed.
End respects_lemmas.
Create HintDb respects.
#[export] Hint Resolve respects_bind respects_ret respects_throw respects_lift : respects.

(** [minv]: take a successful monadic run in the context apart. *)
Ltac minv1 :=
  match goal with
  | H : (_ ≫= _) _ = Ok (_, _) |- _ =>
      apply stm_bind_ok in H as (? & ? & ? & ?)
  | H : (_ ≫= _) = Ok _ |- _ => apply result_bind_ok in H as (? & ? & ?)
  | H : Ok _ = Ok _ |- _ => injection H as H; subst
  | H : Err _ = Ok _ |- _ => discriminate H
  | H : Ok _ = Err _ |- _ => discriminate H
  | H : (_, _) = (_, _) |- _ => injection H as ? ?; subst
  | H : mret _ _ = Ok _ |- _ => unfold mret, stm_ret in H
  | H : modify _ _ = Ok _ |- _ => unfold modify in H
  | H : gets _ _ = Ok _ |- _ => unfold gets in H
  | H : get _ = Ok _ |- _ => unfold get in H
  | H : throw _ _ = Ok _ |- _ => discriminate H
  | H : lift ?r _ = Ok _ |- _ =>
      unfold lift in H; let E := fresh "Hr" in destruct r eqn:E
  | H : assert_or ?b _ _ = Ok _ |- _ =>
      unfold assert_or in H; let E := fresh "Hb" in destruct b eqn:E
  end.
Ltac minv := repeat (minv1; simpl in *).

(** [minv_all]: also split the conditionals a run went through. *)
Ltac minv_all :=
  repeat first
    [ minv1; simpl in *
    | case_match; simplify_eq/= ].

(** ** Machine integers: the wrap-around of Rust's [as] casts *)

Definition u32_max : Z := 2 ^ 32 - 1.
Definition wrap_u32 (z : Z) : Z := z `mod` 2 ^ 32.
Definition wrap_u64 (z : Z) : Z := z `mod` 2 ^ 64.
Definition wrap_i64 (z : Z) : Z := (z + 2 ^ 63) `mod` 2 ^ 64 - 2 ^ 63.
Definition is_u64 (z : Z) : Prop := (0 ≤ z < 2 ^ 64)%Z.
Definition is_i64 (z : Z) : Prop := (- 2 ^ 63 ≤ z < 2 ^ 63)%Z.

Lemma wrap_i64_small z : is_i64 z → wrap_i64 z = z.
Proof. unfold is_i64, wrap_i64. intros. rewrite Z.mod_small; lia. Qed.
Lemma wrap_u64_small z : is_u64 z → wrap_u64 z = z.
Proof. unfold is_u64, wrap_u64. intros. by rewrite Z.mod_small. Qed.
Lemma wrap_u32_small z : (0 ≤ z < 2 ^ 32)%Z → wrap_u32 z = z.
Proof. intros. unfold wrap_u32. by rewrite Z.mod_small. Qed.
Lemma wrap_i64_range z : is_i64 (wrap_i64 z).
Proof.
  unfold is_i64, wrap_i64.
  pose proof (Z.mod_pos_bound (z + 2 ^ 63) (2 ^ 64) ltac:(lia)). lia.
Qed.
Lemma wrap_u64_i64 z : is_u64 z → wrap_u64 (wrap_i64 z) = z.
Proof.
  unfold is_u64, wrap_u64, wrap_i64. intros Hz.
  destruct (decide (z < 2 ^ 63)%Z).
  - rewrite (Z.mod_small (z + 2 ^ 63)) by lia. rewrite Z.mod_small; lia.
  - replace ((z + 2 ^ 63) `mod` 2 ^ 64)%Z with (z - 2 ^ 63)%Z.
    + symmetry. apply (Z.mod_unique_pos _ _ (-1)); lia.
    + apply (Z.mod_unique_pos _ _ 1); lia.
Qed.

(** ** Related lists *)

Lemma Forall2_left {A B} (R : A → B → Prop) l k x : Forall2 R l k → x ∈ l → ∃ y, y ∈ k ∧ R x y.
Proof. intros H (i & Hx)%list_elem_of_lookup. by destruct (Forall2_lookup_l _ _ _ _ _ H Hx) as (y & Hy%list_elem_of_lookup_2 & ?); exists y. Qed.
Lemma Forall2_right {A B} (R : A → B → Prop) l k y : Forall2 R l k → y ∈ k → ∃ x, x ∈ l ∧ R x y.
Proof. intros H (i & Hy)%list_elem_of_lookup. by destruct (Forall2_lookup_r _ _ _ _ _ H Hy) as (x & Hx%list_elem_of_lookup_2 & ?); exists x. Qed.

(** ** Strings: Rust's [String]/[Vec<u8>] and the browser's strings, as bytes *)

Lemma string_app_cons a s1 s2 : String a s1 +:+ s2 = String a (s1 +:+ s2).
Proof. reflexivity. Qed.
Lemma string_app_nil_r s : s +:+ "" = s.
Proof. induction s as [|a s IH]; [done|]. by rewrite string_app_cons, IH. Qed.
Lemma string_app_assoc s1 s2 s3 : (s1 +:+ s2) +:+ s3 = s1 +:+ (s2 +:+ s3).
Proof.
  induction s1 as [|a s IH]; [done|]. by rewrite !string_app_cons, IH.
Qed.
Lemma string_length_app s1 s2 :
  String.length (s1 +:+ s2) = String.length s1 + String.length s2.
Proof.
  induction s1 as [|a s IH]; [done|]. rewrite string_app_cons. cbn. by rewrite IH.
Qed.

Lemma string_app_inj s1 s2 t1 t2 :
  String.length s1 = String.length s2 → s1 +:+ t1 = s2 +:+ t2 → s1 = s2 ∧ t1 = t2.
Proof.
  revert s2. induction s1 as [|a s1 IH]; intros [|b s2] Hl; try discriminate Hl; [done|].
  rewrite !string_app_cons. intros [= -> Ht].
  destruct (IH s2 ltac:(injection Hl as Hl; done) Ht) as [-> ->]. done.
Qed.
Lemma string_app_inj_r s t1 t2 : s +:+ t1 = s +:+ t2 → t1 = t2.
Proof. intros H. by apply (string_app_inj s s) in H as [_ ?]. Qed.

(** Neither string is a prefix of the other: they differ within both. *)
Fixpoint diverge (s1 s2 : string) : bool :=
  match s1, s2 with
  | String a s1, String b s2 => if decide (a = b) then diverge s1 s2 else true
  | _, _ => false
  end.
Lemma diverge_app s1 s2 t1 t2 : diverge s1 s2 = true → s1 +:+ t1 ≠ s2 +:+ t2.
Proof.
  revert s2. induction s1 as [|a s1 IH]; intros [|b s2]; try done.
  cbn [diverge]. rewrite !string_app_cons. case_decide; intros Hd [= ? Ht]; [|done].
  by eapply IH.
Qed.
