(* ===== verification/Sorting.v ===== *)
(** * A stable sort

    What the standard library promises of [slice::sort_by]: a permutation, in
    order, in which elements that compare equal keep the order they had.
    These three determine the result, so the insertion sort below stands for
    any algorithm that keeps the promise.  The comparison has to be a total
    preorder on the elements that occur; of others the library promises
    nothing. *)

From S2P Require Import Prelude.

Section sort.
Context {A : Type} (leb : A → A → bool).

(** Before the first element that does not have to come earlier. *)
Fixpoint insert_ordered (x : A) (l : list A) : list A :=
  match l with
  | [] => [x]
  | y :: l' => if leb x y then x :: l else y :: insert_ordered x l'
  end.
Definition stable_sort (l : list A) : list A := foldr insert_ordered [] l.

(** [x] and [y] compare equal. *)
Definition tied (x y : A) : bool := leb x y && leb y x.

Lemma insert_ordered_perm x l : insert_ordered x l ≡ₚ x :: l.
Proof.
  induction l as [|y l IH]; [done|]. cbn. destruct (leb x y); [done|]. rewrite IH. by apply perm_swap.
Qed.
Lemma stable_sort_perm l : stable_sort l ≡ₚ l.
Proof. induction l as [|x l IH]; [done|]. cbn. by rewrite insert_ordered_perm, IH. Qed.

(** ** On elements that the comparison orders *)

Context (ordered : A → Prop).
Context (leb_total : ∀ x y, ordered x → ordered y → leb x y = true ∨ leb y x = true).
Context (leb_trans : ∀ x y z, ordered x → ordered y → ordered z → leb x y = true → leb y z = true → leb x z = true).

Abbreviation sorted := (StronglySorted (λ x y, leb x y = true)).

Lemma insert_ordered_sorted x l : ordered x → Forall ordered l → sorted l → sorted (insert_ordered x l).
Proof.
  intros Hx Hl Hs. induction Hs as [|y l Hs IH Hy]; [by repeat constructor|].
  apply Forall_cons in Hl as [Hoy Hl]. cbn. destruct (leb x y) eqn:Hxy.
  - constructor; [by constructor|]. constructor; [done|].
    rewrite Forall_forall in Hl, Hy |- *. intros z Hz. by apply (leb_trans x y z); auto.
  - constructor; [by apply IH|]. rewrite insert_ordered_perm. constructor; [|done].
    destruct (leb_total x y); [done|done|congruence|done].
Qed.
Lemma stable_sort_sorted l : Forall ordered l → sorted (stable_sort l).
Proof.
  induction 1 as [|x l Hx Hl IH]; [constructor|]. cbn. apply insert_ordered_sorted; [done| |done].
  by rewrite stable_sort_perm.
Qed.
Lemma insert_ordered_stable x l z : ordered x → ordered z → Forall ordered l →
  List.filter (tied z) (insert_ordered x l) = List.filter (tied z) (x :: l).
Proof.
  intros Hx Hz. induction 1 as [|y l Hy Hl IH]; [done|]. cbn. destruct (leb x y) eqn:Hxy; [done|].
  cbn. rewrite IH. cbn. destruct (tied z x) eqn:Hzx, (tied z y) eqn:Hzy; try done.
  apply andb_true_iff in Hzx as [_ Hxz], Hzy as [Hzy _].
  by rewrite (leb_trans x z y) in Hxy.
Qed.
Lemma stable_sort_stable l z : ordered z → Forall ordered l →
  List.filter (tied z) (stable_sort l) = List.filter (tied z) l.
Proof.
  intros Hz. induction 1 as [|x l Hx Hl IH]; [done|]. change (stable_sort (x :: l)) with (insert_ordered x (stable_sort l)).
  rewrite insert_ordered_stable; [|done|done|by rewrite stable_sort_perm].
  cbn [List.filter]. by rewrite IH.
Qed.

(** A sorted list begins with the elements tied with its head, so two that
    agree on every class of tied elements are equal. *)
Lemma sorted_stable_unique l1 l2 : Forall ordered l1 → l1 ≡ₚ l2 → sorted l1 → sorted l2 →
  (∀ z, ordered z → List.filter (tied z) l1 = List.filter (tied z) l2) → l1 = l2.
Proof.
  intros Ho Hp Hs1. revert l2 Hp. induction Hs1 as [|x l1 Hs1 IH Hx]; intros l2 Hp Hs2 Hst.
  { by apply Permutation_nil in Hp as ->. }
  destruct l2 as [|y l2]; [by apply Permutation_sym, Permutation_nil in Hp|].
  assert (Forall ordered (y :: l2)) as Ho2 by (by rewrite <-Hp).
  apply Forall_cons in Ho as [Hox Ho], Ho2 as [Hoy Ho2]. inversion Hs2 as [|? ? Hs2' Hy]; subst.
  assert (∀ z, ordered z → leb z z = true) as Hrefl by (intros z Hz; by destruct (leb_total z z)).
  assert (leb y x = true) as Hyx.
  { assert (x ∈ y :: l2) as Hin by (rewrite <-Hp; by left).
    apply elem_of_cons in Hin as [-> |Hin]; [by apply Hrefl|]. rewrite Forall_forall in Hy. by apply Hy. }
  assert (leb x y = true) as Hxy.
  { assert (y ∈ x :: l1) as Hin by (rewrite Hp; by left).
    apply elem_of_cons in Hin as [-> |Hin]; [by apply Hrefl|]. rewrite Forall_forall in Hx. by apply Hx. }
  assert (tied x x = true ∧ tied x y = true) as [Htx Hty] by (unfold tied; by rewrite Hxy, Hyx, Hrefl).
  pose proof (Hst x Hox) as Hf. cbn [List.filter] in Hf. rewrite Htx, Hty in Hf. injection Hf as <- Hf. f_equal.
  apply IH; [done|by apply Permutation_cons_inv in Hp|done|].
  intros z Hz. specialize (Hst z Hz). cbn in Hst. destruct (tied z x); [by injection Hst|done].
Qed.
Lemma stable_sort_unique l l' : Forall ordered l → l' ≡ₚ l → sorted l' →
  (∀ z, ordered z → List.filter (tied z) l' = List.filter (tied z) l) → l' = stable_sort l.
Proof.
  intros Hl Hp Hs Hst. apply sorted_stable_unique; [by rewrite Hp|by rewrite Hp, stable_sort_perm|done|by apply stable_sort_sorted|].
  intros z Hz. by rewrite Hst, stable_sort_stable.
Qed.
End sort.

(** A sorted list is sorted by whatever the order implies on its elements. *)
Lemma StronglySorted_weaken {A} (R R' : A → A → Prop) l :
  (∀ x y, x ∈ l → y ∈ l → R x y → R' x y) → StronglySorted R l → StronglySorted R' l.
Proof.
  intros Himp Hs. induction Hs as [|x l Hs IH Hx]; constructor.
  - apply IH. intros y z Hy Hz. apply Himp; by right.
  - rewrite Forall_forall in Hx |- *. intros y Hy. apply Himp; [by left|by right|by apply Hx].
Qed.
