(* ===== verification/IpfsSite.v ===== *)
(** * The static-site-over-IPFS browser bundle

    [crates/oag-api/assets/ipfs-site-bundle.src.js], function by function.
    The libraries the module imports (helia, unixfs, libp2p, multiformats)
    and the browser's HTML parser, serialiser and UTF-8 decoder are the
    fields of the class [World]; everything the module itself computes is
    defined here.  The page is explicit state: side effects made before an
    exception stay made. *)

From S2P Require Import Prelude.

#[local] Set Warnings "-register-all".

(** ** Data *)

(** What an [await] or a call can end with instead of a value: a thrown
    [Error] (its [message]), or the model's own fuel running out. *)
Inductive stop : Type :=
  | Throw (message : string)
  | OutOfFuel.

#[export] Instance stop_eq_dec : EqDecision stop.
Proof. solve_decision. Defined.

(** An async iterable: the items it yields, then normal completion or an
    exception thrown at the next request. *)
Record stream (A : Type) := Stream {
  items : list A;
  stream_fails : option string }.
Arguments Stream {A} _ _.
Arguments items {A} _.
Arguments stream_fails {A} _.

(** The libp2p options object and the layers helia can be composed of.  The
    constructors the bundle never uses are the ones its header comment rules
    out (an HTTP gateway broker, libp2p's default HTTP-touching services). *)
Inductive transport : Type := WebSockets | WebRTC | CircuitRelay.
Inductive service : Type :=
  | Identify | KadDHT | Ping
  | DelegatedPeerRouting | DelegatedContentRouting | AutoTLS | HttpProtocol
  | Upnp | RelayServer | Dcutr.
Record libp2p_options := Libp2pOptions {
  opt_listen : list string;
  opt_transports : list transport;
  opt_denyDialMultiaddr : string → bool;
  opt_services : list (string * service) }.
Inductive helia_layer : Type :=
  | Libp2pLayer (o : libp2p_options)
  | BitswapLayer
  | HttpGatewayLayer.
Definition helia_node : Type := list helia_layer.

Definition service_touches_http (s : service) : bool :=
  match s with
  | DelegatedPeerRouting | DelegatedContentRouting | AutoTLS | HttpProtocol => true
  | _ => false
  end.
Definition layer_touches_http (l : helia_layer) : bool :=
  match l with
  | HttpGatewayLayer => true
  | BitswapLayer => false
  | Libp2pLayer o => existsb (λ s, service_touches_http s.2) (opt_services o)
  end.

(** A [Blob]: the parts it was built from and its [type]. *)
Record blob := Blob {
  blob_parts : list string;
  blob_type : string }.
Definition blob_bytes (b : blob) : string :=
  foldr String.app "" (blob_parts b).

(** An element of a parsed document, as far as the module looks at it. *)
Abbreviation attributes := (gmap string string).

(** The page: the [#oag-ipfs-root] element if present (its [textContent] and
    [style.cssText]), the blobs object URLs were created for (in order), the
    document written over the page, and the node operations performed. *)
Inductive net_action : Type :=
  | Started (n : helia_node)
  | Dialed (n : helia_node) (addr : string).
Record page := Page {
  root : option (string * string);
  object_urls : list blob;
  written : option string;
  net_log : list net_action }.

Definition set_root r p := Page r (object_urls p) (written p) (net_log p).
Definition add_url b p := Page (root p) (object_urls p ++ [b]) (written p) (net_log p).
Definition log_net a p := Page (root p) (object_urls p) (written p) (net_log p ++ [a]).

Abbreviation js := (ste page stop).

(** ** The imported libraries and the browser *)

Class World := {
  CID : Type;
  Doc : Type;
  (** [CID.parse] *)
  cid_parse : string → result string CID;
  (** helia: creation, [start], [toMultiaddr] and [libp2p.dial]; every one
      may reject *)
  createHeliaLight : result string ();
  helia_start : helia_node → result string ();
  toMultiaddr : string → result string string;
  libp2p_dial : helia_node → string → result string ();
  (** [@helia/unixfs]: [(await fs.stat(cid)).type], [fs.ls], [fs.cat] *)
  fs_stat_type : CID → result string string;
  fs_ls : CID → stream (string * CID);
  fs_cat : CID → stream string;
  (** the browser: the [n]-th object URL, [Blob.text], [DOMParser], the
      elements of a document in tree order, [outerHTML] *)
  objectURL : nat → string;
  utf8_decode : string → string;
  parse_html : string → list attributes * Doc;
  outerHTML : list attributes → Doc → string
}.

(** [Object.prototype] members that a plain-object lookup finds for keys that
    [toLowerCase] leaves alone. *)
Inductive mime_value : Type :=
  | MimeString (s : string)
  | MimeInherited (coerced : string).

(** ** Strings *)

Definition ascii_lower (a : ascii) : ascii :=
  let n := nat_of_ascii a in
  if (65 <=? n) && (n <=? 90) then ascii_of_nat (n + 32) else a.
Fixpoint toLowerCase (s : string) : string :=
  match s with "" => "" | String a s => String (ascii_lower a) (toLowerCase s) end.

(** [s.split('.').pop()]: what follows the last dot, or all of [s]. *)
Fixpoint after_last_dot (acc s : string) : string :=
  match s with
  | "" => acc
  | String a s =>
      if decide (a = "."%char) then after_last_dot s s else after_last_dot acc s
  end.
Definition split_dot_pop (s : string) : string := after_last_dot s s.

Fixpoint drop_slashes (s : string) : string :=
  match s with
  | String a s' => if decide (a = "/"%char) then drop_slashes s' else s
  | "" => ""
  end.
(** [value.replace(/^\.?\/+/, '')] *)
Definition strip_relative (value : string) : string :=
  match value with
  | String "/" _ => drop_slashes value
  | String "." (String "/" _ as rest) => drop_slashes rest
  | _ => value
  end.

(** ** [MIME_TYPES] and [guessMimeType] *)

Definition MIME_TYPES : list (string * string) :=
  [("html", "text/html"); ("css", "text/css");
   ("js", "application/javascript"); ("json", "application/json");
   ("png", "image/png"); ("jpg", "image/jpeg"); ("jpeg", "image/jpeg");
   ("svg", "image/svg+xml"); ("gif", "image/gif")].

(** What [MIME_TYPES[ext]] inherits from [Object.prototype] for a key without
    upper-case letters, as the [Blob] constructor's string coercion shows it. *)
Definition object_prototype (key : string) : option string :=
  if decide (key = "constructor") then Some "function Object() { [native code] }"
  else if decide (key = "__proto__") then Some "[object Object]"
  else None.

Fixpoint own_property (key : string) (o : list (string * string)) : option string :=
  match o with
  | [] => None
  | (k, v) :: o => if decide (k = key) then Some v else own_property key o
  end.

Definition guessMimeType (path : string) : mime_value :=
  let ext := toLowerCase (split_dot_pop path) in
  match own_property ext MIME_TYPES with
  | Some t => MimeString t
  | None =>
      match object_prototype ext with
      | Some v => MimeInherited v
      | None => MimeString "application/octet-stream"
      end
  end.

(** [new Blob(chunks, { type })]: the type is coerced to a string and
    lower-cased. *)
Definition new_blob (chunks : list string) (type : mime_value) : blob :=
  Blob chunks (toLowerCase (match type with MimeString s | MimeInherited s => s end)).

(** ** [renderError] *)

Definition renderError (message : string) : js () := λ p,
  match root p with
  | None => (Err (Throw "Cannot set properties of null (setting 'textContent')"), p)
  | Some _ =>
      (Ok (), set_root (Some ("oag ipfs site: " +:+ message,
         "font-family: monospace; color: #b00020; padding: 1rem;")) p)
  end.

(** [catch (err) { h(err.message) }]; running out of fuel is not a JavaScript
    exception and is never caught. *)
Definition catch {A} (m : js A) (h : string → js A) : js A :=
  try_catch m (λ e, match e with Throw msg => h msg | OutOfFuel => raise OutOfFuel end).

Definition thrown {A} (r : result string A) : result stop A := map_err Throw r.

(** ** The Helia node *)

Section bundle.
Context `{W : World}.

(** [withBitswap(withLibp2p(light, options))] *)
Definition composeHelia : helia_node :=
  let withLp2p := [Libp2pLayer {|
    opt_listen := [];
    opt_transports := [WebSockets];
    opt_denyDialMultiaddr := λ _, false;
    opt_services := [("identify", Identify); ("dht", KadDHT); ("ping", Ping)] |}] in
  BitswapLayer :: withLp2p.

Definition buildGatewayFreeHelia (directDialMultiaddr : option string) : js helia_node :=
  _ ← of_result (thrown createHeliaLight);
  let helia := composeHelia in
  _ ← effect (log_net (Started helia));
  _ ← of_result (thrown (helia_start helia));
  _ ← (match directDialMultiaddr with
       | None => mret ()
       | Some addr =>
           catch (m ← of_result (thrown (toMultiaddr addr));
                  _ ← effect (log_net (Dialed helia m));
                  of_result (thrown (libp2p_dial helia m)))
             (λ msg, renderError ("could not dial the configured local IPFS node ("
                       +:+ addr +:+ "): " +:+ msg))
       end);
  mret helia.

(** ** Walking and reading the UnixFS tree *)

(** [for await (const x of s) acc = await body(x, acc)]. *)
Fixpoint for_await {A S} (body : A → S → result stop S)
    (l : list A) (fails : option string) (acc : S) : result stop S :=
  match l with
  | [] => match fails with None => Ok acc | Some msg => Err (Throw msg) end
  | x :: l => acc ← body x acc; for_await body l fails acc
  end.
Definition for_await_of {A S} (s : stream A) (body : A → S → result stop S)
    (acc : S) : result stop S :=
  for_await body (items s) (stream_fails s) acc.

Definition catToBlob (cid : CID) (mimeType : mime_value) : result stop blob :=
  chunks ← for_await_of (fs_cat cid) (λ chunk chunks, Ok (chunks ++ [chunk])) [];
  Ok (new_blob chunks mimeType).

Fixpoint collectEntries (fuel : nat) (entry : string * CID) (prefix : string)
    (out : list (string * CID)) : result stop (list (string * CID)) :=
  match fuel with
  | O => Err OutOfFuel
  | S fuel =>
      let relative := if decide (prefix = "") then entry.1
                      else prefix +:+ "/" +:+ entry.1 in
      type ← thrown (fs_stat_type entry.2);
      if decide (type = "directory") then
        for_await_of (fs_ls entry.2)
          (λ child out, collectEntries fuel child relative out) out
      else Ok (out ++ [(relative, entry.2)])
  end.

(** ** [loadSite] *)

(** The body of the loop over [entries]: [indexBlob] and [blobUrls]. *)
Definition load_entry (entry : string * CID)
    (acc : option blob * gmap string string) : js (option blob * gmap string string) :=
  blob ← of_result (catToBlob entry.2 (guessMimeType entry.1));
  if decide (entry.1 = "index.html") then mret (Some blob, acc.2)
  else
    n ← observe (λ p, length (object_urls p));
    _ ← effect (add_url blob);
    mret (acc.1, <[entry.1 := objectURL n]> acc.2).

Fixpoint load_entries (entries : list (string * CID))
    (acc : option blob * gmap string string) : js (option blob * gmap string string) :=
  match entries with
  | [] => mret acc
  | e :: entries => acc ← load_entry e acc; load_entries entries acc
  end.

(** The body of the loop over [doc.querySelectorAll('[src], [href]')]. *)
Definition rewrite_element (blobUrls : gmap string string) (el : attributes) : attributes :=
  let attr := match el !! "src" with Some _ => "src" | None => "href" end in
  match el !! attr with
  | None => el (* the element does not match the selector *)
  | Some value =>
      match blobUrls !! strip_relative value with
      | Some url => <[attr := url]> el
      | None => el
      end
  end.

Definition loadSite (fuel : nat) (rootCid : string)
    (directDialMultiaddr : option string) : js () :=
  _ ← buildGatewayFreeHelia directDialMultiaddr;
  cid ← of_result (thrown (cid_parse rootCid));
  entries ← of_result (for_await_of (fs_ls cid)
              (λ entry entries, collectEntries fuel entry "" entries) []);
  '(indexBlob, blobUrls) ← load_entries entries (None, ∅);
  match indexBlob with
  | None => renderError ("index.html not found under " +:+ rootCid)
  | Some blob =>
      let '(els, doc) := parse_html (utf8_decode (blob_bytes blob)) in
      let html := outerHTML (rewrite_element blobUrls <$> els) doc in
      (* document.open(); document.write(html); document.close() *)
      effect (λ p, Page None (object_urls p) (Some html) (net_log p))
  end.

(** ** The module's top level: [window.__OAG_IPFS_CID__] (undefined or empty
    is falsy) and [window.__OAG_IPFS_MULTIADDR__ || null] *)

Definition truthy (s : option string) : option string :=
  match s with Some "" | None => None | Some s => Some s end.

Definition main (fuel : nat) (window_cid window_multiaddr : option string) : js () :=
  match truthy window_cid with
  | None => renderError "no CID configured on this page"
  | Some cid => catch (loadSite fuel cid (truthy window_multiaddr)) renderError
  end.
End bundle.

(** ** A reference description of a pinned site *)

Section reference.
Context `{W : World}.

(** A UnixFS tree: files with their chunks, directories with named links. *)
Inductive tree : Type :=
  | File (chunks : list string)
  | Dir (kids : list (string * CID * tree)).

Definition kid_entry (k : string * CID * tree) : string * CID := k.1.

(** The world holds [t] under [c]: [stat], [ls] and [cat] answer for it. *)
Inductive stores : CID → tree → Prop :=
  | stores_file c chunks type :
      fs_stat_type c = Ok type → type ≠ "directory" →
      fs_cat c = Stream chunks None → stores c (File chunks)
  | stores_dir c kids :
      fs_stat_type c = Ok "directory" →
      fs_ls c = Stream (kid_entry <$> kids) None →
      Forall (λ k, stores k.1.2 k.2) kids → stores c (Dir kids).

Fixpoint depth (t : tree) : nat :=
  match t with
  | File _ => 0
  | Dir kids => S (foldr max 0 ((λ k : string * CID * tree, depth k.2) <$> kids))
  end.

(** Every link has a name (UnixFS links are named). *)
Fixpoint named (t : tree) : Prop :=
  match t with
  | File _ => True
  | Dir kids => foldr and True
      ((λ k : string * CID * tree, k.1.1 ≠ "" ∧ named k.2) <$> kids)
  end.

(** The files of a tree, depth first: path components, CID and chunks. *)
Record site_file := SiteFile {
  sf_path : list string;
  sf_cid : CID;
  sf_chunks : list string }.

Fixpoint tree_files (path : list string) (c : CID) (t : tree) : list site_file :=
  match t with
  | File chunks => [SiteFile path c chunks]
  | Dir kids => concat
      ((λ k : string * CID * tree, tree_files (path ++ [k.1.1]) k.1.2 k.2) <$> kids)
  end.

(** Path components separated by slashes. *)
Fixpoint join_path (path : list string) : string :=
  match path with
  | [] => ""
  | [n] => n
  | n :: path => n +:+ "/" +:+ join_path path
  end.

Definition sf_name (f : site_file) : string := join_path (sf_path f).
Definition sf_entry (f : site_file) : string * CID := (sf_name f, sf_cid f).
Definition sf_blob (f : site_file) : blob :=
  new_blob (sf_chunks f) (guessMimeType (sf_name f)).
Definition is_index (f : site_file) : Prop := sf_name f = "index.html".
#[global] Instance is_index_dec f : Decision (is_index f) := _.

(** The object URL of the pinned file called [ref]: files other than
    [index.html] get one each, in order. *)
Definition asset_url (assets : list site_file) (ref : string) : option string :=
  (λ x, objectURL x.1) <$> list_find (λ f, sf_name f = ref) assets.

(** An element of the page that is shown: the first of [src], [href] that it
    has points to the asset it names, if the site has that asset. *)
Definition shown_element (assets : list site_file) (el : attributes) : attributes :=
  let attr := match el !! "src" with Some _ => "src" | None => "href" end in
  match el !! attr ≫= λ v, asset_url assets (strip_relative v) with
  | Some url => <[attr := url]> el
  | None => el
  end.
End reference.

(** ** The walk *)

Section walk.
Context `{W : World}.

Lemma join_path_snoc path n :
  Forall (λ m, m ≠ "") path →
  join_path (path ++ [n]) =
    if decide (join_path path = "") then n else join_path path +:+ "/" +:+ n.
Proof.
  intros Hne. destruct path as [|m path]; [done|].
  assert (∀ m path, m ≠ "" → join_path (m :: path) ≠ "") as Hj.
  { intros m' path' ?. destruct path'; cbn; [done|].
    by destruct m'. }
  rewrite decide_False by (apply Hj; by apply Forall_cons in Hne as [? _]).
  clear Hj Hne. revert m. induction path as [|m' path IH]; intros m; [done|].
  change (m +:+ "/" +:+ join_path ((m' :: path) ++ [n]) =
          (m +:+ "/" +:+ join_path (m' :: path)) +:+ "/" +:+ n).
  by rewrite IH, !string_app_assoc.
Qed.

Lemma depth_kid kids k : k ∈ kids → depth k.2 < depth (Dir kids).
Proof.
  intros Hk. cbn. apply Nat.lt_succ_r. revert Hk.
  induction kids as [|k' kids IH]; [by intros ?%not_elem_of_nil|].
  intros [->|?]%elem_of_cons; cbn; [lia|]. specialize (IH H). lia.
Qed.

Lemma named_kid kids k : k ∈ kids → named (Dir kids) → k.1.1 ≠ "" ∧ named k.2.
Proof.
  induction kids as [|k' kids IH]; [by intros ?%not_elem_of_nil|].
  cbn. intros [->|?]%elem_of_cons; naive_solver.
Qed.

(** The loop over a list of links, given that every link is walked right. *)
Lemma for_await_collect (walk : string * CID → list (string * CID) →
      result stop (list (string * CID)))
    (out_of : string * CID * tree → list (string * CID)) kids out :
  (∀ k out, k ∈ kids → walk (kid_entry k) out = Ok (out ++ out_of k)) →
  for_await walk (kid_entry <$> kids) None out = Ok (out ++ concat (out_of <$> kids)).
Proof.
  revert out. induction kids as [|k kids IH]; intros out Hw; cbn.
  { by rewrite app_nil_r. }
  rewrite Hw by left. cbn. rewrite IH; [by rewrite <-app_assoc|].
  intros. apply Hw. by right.
Qed.

Lemma tree_files_entries path c kids :
  (sf_entry <$> tree_files path c (Dir kids)) =
  concat ((λ k : string * CID * tree,
    sf_entry <$> tree_files (path ++ [k.1.1]) k.1.2 k.2) <$> kids).
Proof.
  cbn. induction kids as [|k kids IH]; cbn; [done|]. by rewrite fmap_app, IH.
Qed.

Lemma collectEntries_tree t : ∀ fuel n c path out,
  stores c t → named t → n ≠ "" → Forall (λ m, m ≠ "") path →
  depth t < fuel →
  collectEntries fuel (n, c) (join_path path) out =
    Ok (out ++ (sf_entry <$> tree_files (path ++ [n]) c t)).
Proof.
  intros fuel. revert t. induction fuel as [|fuel IH]; [lia|].
  intros t n c path out Hst Hnm Hn Hpath Hdepth. cbn.
  rewrite <-join_path_snoc by done.
  destruct Hst as [c chunks type Hty Hnd Hcat|c kids Hty Hls Hkids]; rewrite Hty; cbn.
  { by rewrite decide_False. }
  unfold for_await_of. rewrite Hls. cbn [items stream_fails].
  change (sf_entry <$> concat _) with (sf_entry <$> tree_files (path ++ [n]) c (Dir kids)).
  rewrite tree_files_entries. apply for_await_collect. intros [[m d] u] o Hk. cbn.
  pose proof (depth_kid _ _ Hk). destruct (named_kid _ _ Hk Hnm).
  rewrite Forall_forall in Hkids. specialize (Hkids _ Hk). cbn in *.
  apply IH; [done..| |lia]. apply Forall_app; eauto.
Qed.

(** The top-level loop of [loadSite]. *)
Lemma walk_root fuel c kids :
  stores c (Dir kids) → named (Dir kids) → depth (Dir kids) ≤ fuel →
  for_await_of (fs_ls c) (λ e out, collectEntries fuel e "" out) [] =
    Ok (sf_entry <$> tree_files [] c (Dir kids)).
Proof.
  intros Hst Hnm Hd. inversion Hst as [|? ? _ Hls Hkids]; subst.
  unfold for_await_of. rewrite Hls. cbn [items stream_fails].
  rewrite tree_files_entries.
  apply (for_await_collect _ _ kids []). intros [[m d] u] o Hk.
  pose proof (depth_kid _ _ Hk). destruct (named_kid _ _ Hk Hnm).
  rewrite Forall_forall in Hkids. specialize (Hkids _ Hk). cbn in *.
  apply (collectEntries_tree u fuel m d []); [done..|constructor|lia].
Qed.
End walk.

(** ** Loading the files *)

Section load.
Context `{W : World}.

(** [blobUrls] after the given assets, when [k] object URLs exist already. *)
Fixpoint url_map (k : nat) (m : gmap string string) (assets : list site_file) :
    gmap string string :=
  match assets with
  | [] => m
  | f :: assets => url_map (S k) (<[sf_name f := objectURL k]> m) assets
  end.

Definition add_urls (bs : list blob) (p : page) : page :=
  Page (root p) (object_urls p ++ bs) (written p) (net_log p).
Definition assets_of (fs : list site_file) : list site_file :=
  filter (λ f, ¬ is_index f) fs.
Definition last_index (fs : list site_file) (i : option blob) : option blob :=
  foldl (λ i f, if decide (is_index f) then Some (sf_blob f) else i) i fs.

Lemma for_await_push (chunks acc : list string) :
  for_await (λ ch chs, Ok (chs ++ [ch]) : result stop (list string)) chunks None acc
    = Ok (acc ++ chunks).
Proof.
  revert acc. induction chunks as [|ch chunks IH]; intros acc; cbn.
  { by rewrite app_nil_r. }
  by rewrite IH, <-app_assoc.
Qed.

Lemma catToBlob_ok c chunks mime :
  fs_cat c = Stream chunks None → catToBlob c mime = Ok (new_blob chunks mime).
Proof.
  intros Hc. unfold catToBlob, for_await_of. rewrite Hc. cbn [items stream_fails].
  by rewrite for_await_push.
Qed.

Lemma load_entries_files fs i m p :
  Forall (λ f, fs_cat (sf_cid f) = Stream (sf_chunks f) None) fs →
  load_entries (sf_entry <$> fs) (i, m) p =
    (Ok (last_index fs i, url_map (length (object_urls p)) m (assets_of fs)),
     add_urls (sf_blob <$> assets_of fs) p).
Proof.
  revert i m p. induction fs as [|f fs IH]; intros i m p Hfs.
  { cbn. unfold add_urls. rewrite app_nil_r. by destruct p. }
  apply Forall_cons in Hfs as [Hf Hfs]. cbn [load_entries fmap list_fmap].
  unfold load_entry, sf_entry at 1 2 3, assets_of. cbn [fst snd].
  rewrite (catToBlob_ok _ _ _ Hf). fold (sf_blob f).
  rewrite filter_cons. cbn [last_index foldl].
  destruct (decide (is_index f)) as [Hi|Hi].
  - rewrite (decide_False (P := ¬ is_index f)) by tauto.
    cbv [mbind ste_bind of_result]. rewrite decide_True by done. by apply IH.
  - rewrite (decide_True (P := ¬ is_index f)) by done.
    cbv [mbind ste_bind of_result observe effect mret ste_ret].
    rewrite decide_False by done. rewrite IH by done.
    unfold add_urls, add_url. cbn. rewrite length_app, Nat.add_1_r, <-app_assoc.
    reflexivity.
Qed.

(** With distinct names, [blobUrls] finds exactly the assets. *)
Lemma url_map_lookup k m assets ref :
  NoDup (sf_name <$> assets) →
  url_map k m assets !! ref =
    match list_find (λ f, sf_name f = ref) assets with
    | Some (n, _) => Some (objectURL (k + n))
    | None => m !! ref
    end.
Proof.
  revert k m. induction assets as [|f assets IH]; intros k m Hnd; [done|].
  cbn in Hnd. apply NoDup_cons in Hnd as [Hf Hnd]. cbn [url_map list_find].
  rewrite IH by done. destruct (decide (sf_name f = ref)) as [<-|Hne].
  - replace (list_find _ assets) with (@None (nat * site_file)).
    + by rewrite lookup_insert_eq, Nat.add_0_r.
    + symmetry. apply list_find_None, Forall_forall. intros g Hg Heq.
      apply Hf. rewrite <-Heq. apply list_elem_of_fmap. eauto.
  - destruct (list_find _ assets) as [[n g]|]; cbn.
    + by rewrite Nat.add_succ_r.
    + by rewrite lookup_insert_ne.
Qed.

Lemma last_index_find fs :
  NoDup (sf_name <$> fs) →
  last_index fs None = (λ x, sf_blob x.2) <$> list_find is_index fs.
Proof.
  enough (∀ i, NoDup (sf_name <$> fs) → last_index fs i =
    match list_find is_index fs with Some x => Some (sf_blob x.2) | None => i end) as H.
  { intros Hnd. rewrite H by done. by destruct (list_find _ _). }
  induction fs as [|f fs IH]; intros i Hnd; [done|].
  cbn in Hnd. apply NoDup_cons in Hnd as [Hf Hnd]. cbn [last_index foldl list_find].
  fold (last_index fs). destruct (decide (is_index f)) as [Hi|Hi].
  - unfold last_index in IH. rewrite IH by done.
    replace (list_find is_index fs) with (@None (nat * site_file)); [done|].
    symmetry. apply list_find_None, Forall_forall. intros g Hg Heq.
    apply Hf. rewrite Hi, <-Heq. apply list_elem_of_fmap. eauto.
  - unfold last_index in IH. rewrite IH by done.
    destruct (list_find is_index fs) as [[??]|]; done.
Qed.

Lemma rewrite_shown assets el :
  NoDup (sf_name <$> assets) →
  rewrite_element (url_map 0 ∅ assets) el = shown_element assets el.
Proof.
  intros Hnd. unfold rewrite_element, shown_element, asset_url.
  destruct (el !! (match el !! "src" with Some _ => "src" | None => "href" end));
    [cbn|done].
  rewrite url_map_lookup by done.
  by destruct (list_find _ _) as [[??]|].
Qed.

Lemma assets_nodup fs : NoDup (sf_name <$> fs) → NoDup (sf_name <$> assets_of fs).
Proof.
  unfold assets_of. intros Hnd. eapply sublist_NoDup; [exact Hnd|].
  apply fmap_sublist. apply sublist_filter.
Qed.

(** The files of a stored tree can be read. *)
Lemma stored_files_readable path c t :
  stores c t →
  Forall (λ f, fs_cat (sf_cid f) = Stream (sf_chunks f) None) (tree_files path c t).
Proof.
  remember (depth t) as d eqn:Hd. revert path c t Hd.
  induction d as [d IH] using lt_wf_ind; intros path c t -> Hst.
  destruct Hst as [c chunks type ?? Hcat|c kids ?? Hkids]; cbn; [by repeat constructor|].
  rewrite Forall_concat, Forall_fmap. rewrite Forall_forall in Hkids |- *.
  intros k Hk. cbn. eapply IH; [by apply depth_kid|done|by apply Hkids].
Qed.
End load.

(** ** Facts about whole runs *)

Section runs.
Context `{W : World}.

Definition error_css : string :=
  "font-family: monospace; color: #b00020; padding: 1rem;".
Definition shows (message : string) : option (string * string) :=
  Some ("oag ipfs site: " +:+ message, error_css).

(** The dials a run makes when the server configured [addr]. *)
Definition dials (addr : option string) : list net_action :=
  match addr with
  | None => []
  | Some a => match toMultiaddr a with
              | Ok m => [Dialed composeHelia m]
              | Err _ => []
              end
  end.

(** Building the node survives a failing dial: it only changes what
    [#oag-ipfs-root] shows. *)
Lemma build_ok addr r us w log :
  createHeliaLight = Ok () → helia_start composeHelia = Ok () →
  ∃ r', buildGatewayFreeHelia addr (Page (Some r) us w log) =
    (Ok composeHelia, Page (Some r') us w (log ++ [Started composeHelia] ++ dials addr)).
Proof.
  intros Hl Hs. unfold buildGatewayFreeHelia, dials.
  rewrite Hl. cbv [mbind ste_bind of_result effect thrown map_err]. rewrite Hs. cbn.
  destruct addr as [a|]; cbn; [|by eexists].
  unfold catch, try_catch. cbv [mbind ste_bind of_result effect].
  destruct (toMultiaddr a) as [m|e]; cbn; [|by eexists].
  destruct (libp2p_dial composeHelia m); unfold log_net; cbn;
    rewrite <-app_assoc; by eexists.
Qed.

Lemma renderError_shows message r us w log :
  renderError message (Page (Some r) us w log) =
    (Ok (), Page (shows message) us w log).
Proof. reflexivity. Qed.

(** What [loadSite] does to the page once the tree under the CID is known. *)
Definition site_page (root_cid : string) (log : list net_action)
    (site : list site_file) : page :=
  let assets := assets_of site in
  match list_find is_index site with
  | Some (_, index) =>
      let '(els, doc) := parse_html (utf8_decode (blob_bytes (sf_blob index))) in
      Page None (sf_blob <$> assets)
        (Some (outerHTML (shown_element assets <$> els) doc)) log
  | None =>
      Page (shows ("index.html not found under " +:+ root_cid))
        (sf_blob <$> assets) None log
  end.

Lemma loadSite_tree fuel root_cid c kids addr r :
  createHeliaLight = Ok () → helia_start composeHelia = Ok () →
  cid_parse root_cid = Ok c →
  stores c (Dir kids) → named (Dir kids) → depth (Dir kids) ≤ fuel →
  NoDup (sf_name <$> tree_files [] c (Dir kids)) →
  loadSite fuel root_cid addr (Page (Some r) [] None []) =
    (Ok (), site_page root_cid (Started composeHelia :: dials addr)
              (tree_files [] c (Dir kids))).
Proof.
  intros Hl Hs Hc Hst Hnm Hd Hnd. set (site := tree_files [] c (Dir kids)) in *.
  destruct (build_ok addr r [] None [] Hl Hs) as [r' Hb].
  unfold loadSite. cbv [mbind ste_bind]. rewrite Hb.
  cbv [of_result thrown]. rewrite Hc. cbn [map_err].
  rewrite (walk_root _ _ kids) by done.
  rewrite load_entries_files by (by apply stored_files_readable).
  fold site. rewrite last_index_find by done. unfold site_page, add_urls.
  destruct (list_find is_index site) as [[n index]|] eqn:Hf; cbn [fmap option_fmap option_map].
  - cbn [snd]. destruct (parse_html _) as [els doc]. unfold effect.
    cbn [root object_urls written net_log length app].
    rewrite (list_fmap_ext _ (shown_element (assets_of site)) els); [done|].
    intros ? el _. by apply rewrite_shown, assets_nodup.
  - reflexivity.
Qed.
End runs.

(** ** Every run, whatever the world answers *)

Section every_run.
Context `{W : World}.

(** Only [buildGatewayFreeHelia] touches the network log. *)
Definition site_dials (addr : option string) (l : list net_action) : Prop :=
  l = [] ∨ l = [Started composeHelia] ∨
  ∃ a m, addr = Some a ∧ toMultiaddr a = Ok m ∧
         l = [Started composeHelia; Dialed composeHelia m].

Lemma renderError_net message p : net_log (renderError message p).2 = net_log p.
Proof. unfold renderError. by destruct (root p). Qed.

Lemma renderError_root message p :
  is_Some (root p) →
  renderError message p = (Ok (), set_root (shows message) p).
Proof. intros [r Hr]. unfold renderError. by rewrite Hr. Qed.

Lemma build_net addr p :
  ∃ l, net_log (buildGatewayFreeHelia addr p).2 = net_log p ++ l ∧ site_dials addr l.
Proof.
  unfold buildGatewayFreeHelia, site_dials. cbv [mbind ste_bind of_result effect thrown].
  destruct createHeliaLight as [[]|?]; cbn; [|by exists []; rewrite app_nil_r; eauto].
  destruct (helia_start _) as [[]|?]; cbn; [|by eexists; eauto].
  destruct addr as [a|]; cbn; [|by eexists; eauto].
  unfold catch, try_catch. cbv [mbind ste_bind of_result effect].
  destruct (toMultiaddr a) as [m|e] eqn:Hm; cbn.
  - exists [Started composeHelia; Dialed composeHelia m]. split; [|naive_solver].
    destruct (libp2p_dial _ m) as [[]|]; cbn [map_err]; unfold renderError, log_net; cbn;
      [|destruct (root p); cbn]; by rewrite <-app_assoc.
  - exists [Started composeHelia]. split; [|naive_solver].
    unfold renderError. cbn. by destruct (root p).
Qed.

Lemma load_entries_net es acc p :
  net_log (load_entries es acc p).2 = net_log p ∧
  root (load_entries es acc p).2 = root p.
Proof.
  revert acc p. induction es as [|e es IH]; intros acc p; [done|].
  cbn [load_entries]. cbv [mbind ste_bind]. unfold load_entry.
  cbv [mbind ste_bind of_result].
  destruct (catToBlob _ _) as [b|?]; [|done].
  destruct (decide _); cbn; [apply IH|].
  specialize (IH (acc.1, <[e.1 := objectURL (length (object_urls p))]> acc.2)
    (add_url b p)) as [H1 H2].
  cbv [observe effect mret ste_ret]. by rewrite H1, H2.
Qed.

Lemma loadSite_net fuel cid addr p :
  ∃ l, net_log (loadSite fuel cid addr p).2 = net_log p ++ l ∧ site_dials addr l.
Proof.
  destruct (build_net addr p) as (l & Hl & Hd). exists l. split; [|done]. rewrite <-Hl.
  unfold loadSite. cbv [mbind ste_bind of_result].
  destruct (buildGatewayFreeHelia addr p) as [[h|?] p1]; [cbn [snd]|done].
  destruct (thrown (cid_parse cid)); [|done].
  destruct (for_await_of _ _ _) as [es|]; [|done].
  destruct (load_entries es (None, ∅) p1) as [[[[b|] m]|?] p2] eqn:He;
    pose proof (proj1 (load_entries_net es (None, ∅) p1)) as Hn;
    rewrite He in Hn; [..|done].
  - by destruct (parse_html _).
  - by rewrite renderError_net.
Qed.

(** A page that was not written over still has its root element. *)
Definition kept_root (p : page) : Prop := is_Some (root p) ∧ written p = None.

Lemma build_root addr p : kept_root p → kept_root (buildGatewayFreeHelia addr p).2.
Proof.
  intros [[r Hr] Hw]. unfold buildGatewayFreeHelia, kept_root.
  cbv [mbind ste_bind of_result effect thrown].
  destruct createHeliaLight as [[]|?]; cbn; [|by eauto].
  destruct (helia_start _) as [[]|?]; cbn; [|by eauto].
  destruct addr as [a|]; cbn; [|by eauto].
  unfold catch, try_catch. cbv [mbind ste_bind of_result effect].
  destruct (toMultiaddr a) as [m|e]; cbn.
  - destruct (libp2p_dial _ m); cbn [map_err]; [by eauto|].
    unfold renderError. cbn. rewrite Hr. cbn. eauto.
  - unfold renderError. cbn. rewrite Hr. cbn. eauto.
Qed.

Lemma load_entries_root es acc p : kept_root p → kept_root (load_entries es acc p).2.
Proof.
  revert acc p. induction es as [|e es IH]; intros acc p Hp; [done|].
  cbn [load_entries]. cbv [mbind ste_bind]. unfold load_entry.
  cbv [mbind ste_bind of_result].
  destruct (catToBlob _ _) as [b|?]; [|done].
  destruct (decide _); cbn; [by apply IH|].
  cbv [observe effect mret ste_ret]. by apply IH.
Qed.

(** How a run of [loadSite] can end. *)
Definition ended (r : result stop ()) (p : page) : Prop :=
  match r with
  | Ok _ => (root p = None ∧ is_Some (written p)) ∨
            (written p = None ∧ ∃ msg, root p = shows msg)
  | Err _ => kept_root p
  end.

Lemma loadSite_ended fuel cid addr p r p' :
  kept_root p → loadSite fuel cid addr p = (r, p') → ended r p'.
Proof.
  intros Hp. pose proof (build_root addr p Hp) as Hb.
  unfold loadSite. cbv [mbind ste_bind of_result].
  destruct (buildGatewayFreeHelia addr p) as [[h|?] p1]; cbn [snd] in Hb;
    [|by intros [= <- <-]].
  destruct (thrown (cid_parse cid)); [|by intros [= <- <-]].
  destruct (for_await_of _ _ _) as [es|]; [|by intros [= <- <-]].
  pose proof (load_entries_root es (None, ∅) p1 Hb) as He.
  destruct (load_entries es (None, ∅) p1) as [[[[b|] m]|?] p2]; cbn [snd] in He;
    [..|by intros [= <- <-]].
  - destruct (parse_html _). intros [= <- <-]. left. split; [done|by eexists].
  - rewrite renderError_root by apply He. intros [= <- <-]. right.
    split; [apply He|by eexists].
Qed.

(** The links of a directory lead down: a CID is the hash of what it names, so
    it cannot be listed, however deep, under itself.  [rank] is any bound on
    how far down a CID leads. *)
Definition links_descend (rank : CID → nat) : Prop := ∀ c e,
  fs_stat_type c = Ok "directory" → e ∈ items (fs_ls c) → rank e.2 < rank c.

Lemma for_await_fueled {A S} (body : A → S → result stop S) l fails : ∀ acc,
  (∀ x acc, x ∈ l → body x acc ≠ Err OutOfFuel) → for_await body l fails acc ≠ Err OutOfFuel.
Proof.
  induction l as [|x l IH]; intros acc Hb; cbn; [by destruct fails|].
  pose proof (Hb x acc ltac:(left)) as Hx. destruct (body x acc) as [acc'|e]; cbn; [|congruence].
  apply IH. intros y acc'' Hy. apply Hb. by right.
Qed.
Lemma collectEntries_fueled rank fuel : links_descend rank → ∀ e prefix out,
  rank e.2 < fuel → collectEntries fuel e prefix out ≠ Err OutOfFuel.
Proof.
  intros Hrank. induction fuel as [|fuel IH]; intros e prefix out Hlt; [lia|]. cbn.
  destruct (fs_stat_type e.2) as [type|] eqn:Ht; cbn; [|done]. case_decide as Hd; [subst type|done].
  apply for_await_fueled. intros child acc Hin. apply IH. pose proof (Hrank _ _ Ht Hin). lia.
Qed.
Lemma catToBlob_fueled c mime : catToBlob c mime ≠ Err OutOfFuel.
Proof.
  unfold catToBlob, for_await_of.
  pose proof (for_await_fueled (λ chunk chunks, Ok (chunks ++ [chunk]) : result stop (list string))
    (items (fs_cat c)) (stream_fails (fs_cat c)) [] ltac:(done)) as H.
  destruct (for_await _ _ _ _); cbn; congruence.
Qed.
Lemma load_entries_fueled es acc p : (load_entries es acc p).1 ≠ Err OutOfFuel.
Proof.
  revert acc p. induction es as [|e es IH]; intros acc p; [done|].
  cbn [load_entries]. cbv [mbind ste_bind]. unfold load_entry. cbv [mbind ste_bind of_result].
  pose proof (catToBlob_fueled e.2 (guessMimeType e.1)) as Hc.
  destruct (catToBlob _ _) as [b|err]; [|cbn; congruence].
  destruct (decide _); cbn; apply IH.
Qed.
Lemma renderError_fueled message p : (renderError message p).1 ≠ Err OutOfFuel.
Proof. unfold renderError. by destruct (root p). Qed.
Lemma build_fueled addr p : (buildGatewayFreeHelia addr p).1 ≠ Err OutOfFuel.
Proof.
  unfold buildGatewayFreeHelia. cbv [mbind ste_bind of_result effect thrown].
  destruct createHeliaLight as [[]|?]; cbn; [|done]. destruct (helia_start _) as [[]|?]; cbn; [|done].
  destruct addr as [a|]; cbn; [|done]. unfold catch, try_catch. cbv [mbind ste_bind of_result effect].
  destruct (toMultiaddr a) as [m|e]; cbn; [destruct (libp2p_dial _ m); cbn [map_err]; [done|]|];
    match goal with |- context [renderError ?x ?y] => pose proof (renderError_fueled x y); by destruct (renderError x y) as [[|[]]] end.
Qed.
Lemma loadSite_fueled rank fuel root_cid addr p : links_descend rank →
  (∀ c e, cid_parse root_cid = Ok c → e ∈ items (fs_ls c) → rank e.2 < fuel) →
  (loadSite fuel root_cid addr p).1 ≠ Err OutOfFuel.
Proof.
  intros Hrank Hfuel. unfold loadSite. cbv [mbind ste_bind of_result].
  pose proof (build_fueled addr p) as Hb.
  destruct (buildGatewayFreeHelia addr p) as [[h|e] p1]; [|cbn in *; congruence].
  destruct (cid_parse root_cid) as [c|] eqn:Hc; cbn; [|done].
  pose proof (for_await_fueled (λ e out, collectEntries fuel e "" out) (items (fs_ls c)) (stream_fails (fs_ls c)) []
    (λ e out He, collectEntries_fueled rank fuel Hrank e "" out (Hfuel c e eq_refl He))) as Hw.
  unfold for_await_of. destruct (for_await _ _ _ _) as [es|]; [|cbn; congruence].
  pose proof (load_entries_fueled es (None, ∅) p1) as Hl.
  destruct (load_entries es _ p1) as [[[[b|] m]|err] p2]; [..|cbn in *; congruence].
  - by destruct (parse_html _).
  - apply renderError_fueled.
Qed.
End every_run.

(** ** References and extensions *)

Section references.
(** A reference to the file [name]: an optional dot, [n] slashes, the name. *)
Fixpoint slashes (n : nat) (name : string) : string :=
  match n with O => name | S n => String "/" (slashes n name) end.
Definition reference (dot : bool) (n : nat) (name : string) : string :=
  (if dot then "." else "") +:+ slashes n name.

Definition starts_with_slash (s : string) : bool :=
  match s with String "/" _ => true | _ => false end.
Definition starts_with_dot_slash (s : string) : bool :=
  match s with String "." (String "/" _) => true | _ => false end.

Lemma drop_slashes_slashes n name :
  starts_with_slash name = false → drop_slashes (slashes n name) = name.
Proof.
  intros Hn. induction n as [|n IH]; cbn; [|done].
  destruct name as [|a name]; [done|]. cbn. case_decide; [by subst|done].
Qed.

Lemma strip_relative_reference (dot : bool) n name :
  starts_with_slash name = false →
  (if dot then 0 < n else n = 0 → starts_with_dot_slash name = false) →
  strip_relative (reference dot n name) = name.
Proof.
  intros Hs Hd. unfold reference. destruct n as [|n].
  - destruct dot; [lia|]. change (strip_relative name = name).
    specialize (Hd eq_refl). destruct name as [|[[][][][][][][][]] name]; try done.
    destruct name as [|[[][][][][][][][]] name]; done.
  - destruct dot; apply (drop_slashes_slashes (S n)); done.
Qed.

Fixpoint has_dot (s : string) : bool :=
  match s with
  | "" => false
  | String a s => if decide (a = "."%char) then true else has_dot s
  end.

Lemma after_last_dot_none acc s : has_dot s = false → after_last_dot acc s = acc.
Proof. induction s as [|a s IH]; cbn; [done|]. by case_decide. Qed.

Lemma split_dot_pop_ext stem ext :
  has_dot ext = false → split_dot_pop (stem +:+ "." +:+ ext) = ext.
Proof.
  intros He. unfold split_dot_pop.
  enough (∀ acc, after_last_dot acc (stem +:+ "." +:+ ext) = ext) as H by apply H.
  induction stem as [|a stem IH]; intros acc.
  - change (after_last_dot ext ext = ext). by apply after_last_dot_none.
  - rewrite string_app_cons. cbn. case_decide; apply IH.
Qed.

(** Lower-casing neither makes nor removes a dot. *)
Lemma toLowerCase_dot s : has_dot (toLowerCase s) = has_dot s.
Proof.
  induction s as [|a s IH]; cbn; [done|]. rewrite IH.
  destruct a as [[][][][][][][][]]; reflexivity.
Qed.
End references.

(** ** Properties *)

Section properties.
Context `{W : World}.

(** C1: when the helia node starts and the pinned directory under the CID
    can be listed and read, the module ends with the page the reference
    description says: the whole tree is walked (every nested file, depth
    first, once), every file but [index.html] gets an object URL with its
    content type, and the written document is the pinned [index.html] in
    which the references that name a pinned file point to its object URL;
    without an [index.html] nothing is written and the page says so.  A
    configured address that cannot be parsed or dialed does not change
    this.  Fuel of the depth of the tree is enough. *)
Theorem main_loads_site fuel root_cid c kids addr r :
  createHeliaLight = Ok () → helia_start composeHelia = Ok () →
  root_cid ≠ "" → cid_parse root_cid = Ok c →
  stores c (Dir kids) → named (Dir kids) → depth (Dir kids) ≤ fuel →
  NoDup (sf_name <$> tree_files [] c (Dir kids)) →
  main fuel (Some root_cid) addr (Page (Some r) [] None []) =
    (Ok (), site_page root_cid (Started composeHelia :: dials (truthy addr))
              (tree_files [] c (Dir kids))).
Proof.
  intros Hl Hs Hne Hc Hst Hnm Hd Hnd. unfold main, catch, try_catch.
  replace (truthy (Some root_cid)) with (Some root_cid) by (by destruct root_cid).
  by erewrite loadSite_tree.
Qed.

(** C2: no run goes on for ever or ends silently.  Let the links of the pinned
    directories lead down ([links_descend]: CIDs are hashes, so no directory is
    below itself).  Then from a page with its [#oag-ipfs-root], and whatever
    the network answers, the configured identifier and address and the pinned
    bytes are, fuel above the rank of the entries of the root is enough: the
    module ends normally (every exception of every awaited call is caught),
    and then either the site's document was written over the page, or nothing
    was and the root element shows an [oag ipfs site] message.  (Every awaited
    call is taken to settle and every async iterable to end.) *)
Theorem main_never_silent rank fuel cid addr r us :
  links_descend rank →
  (∀ root_cid c e, cid = Some root_cid → cid_parse root_cid = Ok c → e ∈ items (fs_ls c) → rank e.2 < fuel) →
  ∃ p', main fuel cid addr (Page (Some r) us None []) = (Ok (), p') ∧
    ((root p' = None ∧ is_Some (written p')) ∨
     (written p' = None ∧ ∃ msg, root p' = shows msg)).
Proof.
  intros Hrank Hfuel. unfold main. destruct (truthy cid) as [c|] eqn:Hcid; cbn.
  2: { eexists. split; [reflexivity|]. right. split; [done|by eexists]. }
  assert (cid = Some c) as -> by (destruct cid as [[]|]; cbn in Hcid; congruence).
  unfold catch, try_catch. set (p := Page (Some r) us None []).
  pose proof (loadSite_fueled rank fuel c (truthy addr) p Hrank (λ d e, Hfuel c d e eq_refl)) as Hf.
  destruct (loadSite fuel c (truthy addr) p) as [res p1] eqn:Hrun.
  apply loadSite_ended in Hrun; [|split; [by eexists|done]].
  destruct res as [[]|[msg|]]; [by eexists| |done].
  destruct Hrun as [Hr Hw]. rewrite renderError_root by done.
  eexists. split; [reflexivity|]. right. split; [done|by eexists].
Qed.

(** C3: the node is gateway-free by construction, and the module only ever
    dials the one address the server handed it: whatever the run, it starts
    at most one node and makes at most one dial, to the configured address;
    and no layer of the node it starts is an HTTP gateway broker or carries
    an HTTP-touching libp2p service. *)
Theorem main_gateway_free fuel cid addr p :
  ∃ l, net_log (main fuel cid addr p).2 = net_log p ++ l ∧
       site_dials (truthy addr) l ∧
       existsb layer_touches_http composeHelia = false.
Proof.
  unfold main. destruct (truthy cid) as [c|].
  - destruct (loadSite_net fuel c (truthy addr) p) as (l & Hl & Hd).
    exists l. split; [|done]. rewrite <-Hl. unfold catch, try_catch.
    destruct (loadSite fuel c (truthy addr) p) as [[?|[?|]] ?]; cbn; [done| |done].
    by rewrite renderError_net.
  - exists []. rewrite renderError_net, app_nil_r. split_and!; [done|by left|done].
Qed.

(** C4: in the document that is shown, a reference to a pinned asset - its
    path, or its path after an optional dot and any number of slashes - is
    replaced by that asset's own object URL, in [src] if the element has
    one and in [href] otherwise.  With two slashes this includes
    references that are protocol-relative URLs of another host. *)
Theorem pinned_reference_rewritten assets i f (dot : bool) n el attr :
  NoDup (sf_name <$> assets) → assets !! i = Some f →
  starts_with_slash (sf_name f) = false →
  (if dot then 0 < n else n = 0 → starts_with_dot_slash (sf_name f) = false) →
  attr = (match el !! "src" with Some _ => "src" | None => "href" end) →
  el !! attr = Some (reference dot n (sf_name f)) →
  rewrite_element (url_map 0 ∅ assets) el = <[attr := objectURL i]> el.
Proof.
  intros Hnd Hi Hs Hd -> Hel. rewrite rewrite_shown by done.
  unfold shown_element, asset_url. rewrite Hel. cbn.
  rewrite strip_relative_reference by done.
  destruct (list_find _ assets) as [[j g]|] eqn:Hf; cbn.
  - apply list_find_Some in Hf as (Hj & Hg & _).
    assert (j = i) as ->; [|done]. apply (NoDup_lookup _ _ _ (sf_name f) Hnd);
      rewrite list_lookup_fmap, ?Hj, ?Hi; cbn; by rewrite ?Hg.
  - apply list_find_None in Hf. rewrite Forall_forall in Hf.
    by destruct (Hf f (list_elem_of_lookup_2 _ _ _ Hi)).
Qed.

(** a file's content type goes by its extension, whatever the case of
    its letters, for every extension the table lists. *)
Theorem content_type_by_extension stem ext type :
  (toLowerCase ext, type) ∈ MIME_TYPES →
  guessMimeType (stem +:+ "." +:+ ext) = MimeString type.
Proof.
  intros Hin.
  assert (has_dot (toLowerCase ext) = false ∧
          own_property (toLowerCase ext) MIME_TYPES = Some type) as [Hdot Hown].
  { unfold MIME_TYPES in Hin. rewrite !elem_of_cons, elem_of_nil in Hin.
    repeat destruct Hin as [[= -> ->]|Hin]; [by split..|done]. }
  unfold guessMimeType. rewrite split_dot_pop_ext by by rewrite <-toLowerCase_dot.
  by rewrite Hown.
Qed.
End properties.

(** ** A concrete world *)

Module Demo.
(** Content identifiers are paths here; [root/] holds an [index.html], a
    stylesheet and a directory with a script of two chunks. *)
Definition root_links : list (string * string) := [("index.html", "i"); ("a.CSS", "s"); ("lib", "d")].
Definition ls (c : string) : stream (string * string) :=
  if decide (c = "root") then Stream root_links None
  else if decide (c = "d") then Stream [("x.js", "x")] None
  else Stream [] (Some "not a directory").
Definition cat (c : string) : stream string :=
  if decide (c = "i") then Stream ["<html>"] None
  else if decide (c = "s") then Stream ["p{}"] None
  else Stream ["let "; "x"] None.

Definition world : World := {|
  CID := string;
  Doc := unit;
  cid_parse := λ s, if decide (s = "bad") then Err "Invalid CID" else Ok s;
  createHeliaLight := Ok ();
  helia_start := λ _, Ok ();
  toMultiaddr := λ s, Ok s;
  libp2p_dial := λ _ _, Err "refused";
  fs_stat_type := λ c,
    Ok (if decide (c = "root" ∨ c = "d") then "directory" else "file");
  fs_ls := ls;
  fs_cat := cat;
  objectURL := λ n, String (ascii_of_nat (48 + n)) "";
  utf8_decode := id;
  parse_html := λ _, ([{["href" := "./a.CSS"]}; {["src" := "//lib/x.js"]};
                       {["src" := "https://cdn/x.js"]}], ());
  outerHTML := λ els _,
    foldr (λ el acc, default "" (el !! "src") +:+ default "" (el !! "href")
                       +:+ ";" +:+ acc) "" els |}.

Definition start : page := Page (Some ("", "")) [] None [].

Definition file (chunks : list string) : @tree world := @File world chunks.
Definition lib : @tree world := @Dir world [("x.js", "x", file ["let "; "x"])].
Definition kids : list (string * @CID world * @tree world) :=
  [("index.html", "i", file ["<html>"]); ("a.CSS", "s", file ["p{}"]); ("lib", "d", lib)].

Lemma stored : @stores world "root" (Dir kids).
Proof.
  assert (∀ c chunks, cat c = Stream chunks None → c ≠ "root" → c ≠ "d" →
            @stores world c (file chunks)) as Hfile.
  { intros c chunks Hc ??. apply (@stores_file world c chunks "file"); [|done|exact Hc].
    cbn. rewrite decide_False; [done|tauto]. }
  assert (@stores world "d" lib).
  { apply (@stores_dir world); [done..|]. apply Forall_cons; split; [by apply Hfile|done]. }
  apply (@stores_dir world); [done..|]. unfold kids.
  do 2 (apply Forall_cons; split; [by apply Hfile|]).
  apply Forall_cons; by split.
Qed.
End Demo.

(** The whole site is shown although the configured address refuses the dial:
    the stylesheet and the nested script point to their object URLs, the
    absolute reference stays. *)
Lemma main_loads_site_witness :
  @main Demo.world 2 (Some "root") (Some "/ip4/127.0.0.1/ws") Demo.start =
    (Ok (), Page None
       [Blob ["p{}"] "text/css"; Blob ["let "; "x"] "application/javascript"]
       (Some "0;1;https://cdn/x.js;")
       [Started composeHelia; Dialed composeHelia "/ip4/127.0.0.1/ws"]).
Proof.
  etrans.
  - apply (@main_loads_site Demo.world 2 "root" "root" Demo.kids
             (Some "/ip4/127.0.0.1/ws") ("", "")).
    1-4: done.
    + apply Demo.stored.
    + cbn. repeat split; done.
    + cbn. lia.
    + apply (bool_decide_unpack _). vm_compute. exact I.
  - vm_compute. reflexivity.
Defined.

(** Two directories below the root; and an identifier that does not parse. *)
Definition demo_rank (c : string) : nat :=
  if decide (c = "root") then 2 else if decide (c = "d") then 1 else 0.
Lemma main_never_silent_witness :
  (∃ p', @main Demo.world 2 (Some "root") None Demo.start = (Ok (), p') ∧
    written p' = Some "0;1;https://cdn/x.js;") ∧
  (∃ p', @main Demo.world 0 (Some "bad") None Demo.start = (Ok (), p') ∧ root p' = shows "Invalid CID").
Proof.
  assert (@links_descend Demo.world demo_rank) as Hrank.
  { intros c e Hd He. cbn in Hd. unfold demo_rank. case_decide as Hc; [|done].
    destruct Hc as [->| ->]; [change (e ∈ Demo.root_links) in He|change (e ∈ [("x.js", "x")]) in He];
      unfold Demo.root_links in He; rewrite !elem_of_cons, elem_of_nil in He; intuition subst; vm_compute; lia. }
  split.
  - destruct (@main_never_silent Demo.world demo_rank 2 (Some "root") None ("", "") [] Hrank) as (p' & Hp & _).
    { intros ? c e [= <-] [= <-] He. change (e ∈ Demo.root_links) in He. unfold Demo.root_links in He. rewrite !elem_of_cons, elem_of_nil in He. intuition subst; vm_compute; lia. }
    exists p'. split; [exact Hp|]. by injection Hp as <-.
  - destruct (@main_never_silent Demo.world demo_rank 0 (Some "bad") None ("", "") [] Hrank) as (p' & Hp & _).
    { by intros ? c e [= <-]. }
    exists p'. split; [exact Hp|]. by injection Hp as <-.
Defined.

(** A script of the host [cdn] is replaced by a pinned file of that path. *)
Lemma pinned_reference_rewritten_witness :
  @rewrite_element (url_map 0 ∅ [SiteFile ["cdn"; "x.js"] ("c" : @CID Demo.world) []])
      {["src" := "//cdn/x.js"]} = {["src" := "0"]} :> attributes.
Proof.
  etrans.
  - apply (@pinned_reference_rewritten Demo.world
      [SiteFile ["cdn"; "x.js"] ("c" : @CID Demo.world) []] 0
      (SiteFile ["cdn"; "x.js"] ("c" : @CID Demo.world) []) false 2 {["src" := "//cdn/x.js"]} "src");
      try done. apply NoDup_singleton.
  - reflexivity.
Defined.

Lemma content_type_by_extension_witness :
  guessMimeType ("img/logo" +:+ "." +:+ "JPeG") = MimeString "image/jpeg".
Proof.
  apply content_type_by_extension. unfold MIME_TYPES. rewrite !elem_of_cons.
  right; right; right; right; right; right; left. reflexivity.
Defined.

(** A file whose extension is a property name of [Object.prototype] gets the
    inherited property as its content type instead of the default. *)
Lemma inherited_content_type :
  new_blob [] (guessMimeType "notes.constructor") =
    Blob [] "function object() { [native code] }".
Proof. reflexivity. Qed.
