(* ===== verification/Core.v ===== *)
(** * Identifiers, vocabulary and cryptographic primitives

    The crates [oag-core] and [oag-crypto]: 32-byte identifiers and the
    domain prefixes they are derived under, nodes, edges and predicates, the
    closed vocabularies with their text forms, peer identifiers and
    domain-separated signatures.  BLAKE3, Ed25519, hexadecimal and Base32
    codecs are third-party crates and the case and white-space tables are
    Unicode's: they are the fields of the class [Platform], and what the code
    relies on is the class [PlatformLaws]. *)

From S2P Require Import Prelude.

(** ** Fixed-length byte arrays: Rust's [[u8; n]] *)

Record bytes (n : nat) := Bytes {
  raw : string;
  raw_length : bool_decide (String.length raw = n) }.
Arguments raw {n} _.
Arguments Bytes {n} _ _.

Lemma bytes_eq {n} (a b : bytes n) : raw a = raw b → a = b.
Proof.
  destruct a as [a Ha], b as [b Hb]. cbn. intros ->. f_equal. apply proof_irrel.
Qed.

#[export] Instance bytes_eq_dec n : EqDecision (bytes n).
Proof.
  intros a b. destruct (decide (raw a = raw b)) as [H|H].
  - left. by apply bytes_eq.
  - right. by intros ->.
Defined.

(** Proofs of a computed fact all reduce to the same proof. *)
Definition canon (b : bool) : Is_true b → Is_true b :=
  if b return Is_true b → Is_true b then λ _, I else λ H, H.

(** [Vec<u8>::try_into::<[u8; n]>()]. *)
Definition to_array (n : nat) (s : string) : option (bytes n) :=
  match decide (String.length s = n) with
  | left H => Some (Bytes s (canon _ (bool_decide_pack _ H)))
  | right _ => None
  end.

Lemma to_array_raw {n} (b : bytes n) : to_array n (raw b) = Some b.
Proof.
  unfold to_array. destruct (decide _) as [H|H].
  - f_equal. by apply bytes_eq.
  - destruct H. exact (bool_decide_unpack _ (raw_length _ b)).
Qed.

Lemma to_array_Some n s b : to_array n s = Some b → raw b = s.
Proof. unfold to_array. case_decide; naive_solver. Qed.

#[export] Program Instance bytes_countable n : Countable (bytes n) :=
  inj_countable raw (to_array n) _.
Next Obligation. intros n b. apply to_array_raw. Qed.

Abbreviation hash32 := (bytes 32).

(** ** The platform *)

Class Platform := {
  blake3 : string → hash32;
  SigningKey : Type;
  VerifyingKey : Type;
  vk_bytes : VerifyingKey → bytes 32;
  vk_from_bytes : bytes 32 → result string VerifyingKey;
  verifying_key : SigningKey → VerifyingKey;
  ed25519_sign : SigningKey → string → bytes 64;
  ed25519_verify : VerifyingKey → string → bytes 64 → result string ();
  hex_encode : string → string;
  hex_decode : string → result string string;
  base32_encode : string → string;
  base32_decode : string → result string string;
  (** [str::trim], [to_lowercase], [to_uppercase], [split_whitespace] *)
  trim : string → string;
  to_lowercase : string → string;
  to_uppercase : string → string;
  split_whitespace : string → list string
}.

Class PlatformLaws `(P : Platform) : Prop := {
  (** an honest signature verifies under the signer's own key *)
  verify_sign sk m : ed25519_verify (verifying_key sk) m (ed25519_sign sk m) = Ok ();
  vk_from_to vk : vk_from_bytes (vk_bytes vk) = Ok vk;
  (** a key keeps the bytes it was read from *)
  vk_to_from b vk : vk_from_bytes b = Ok vk → vk_bytes vk = b;
  (** hexadecimal: two characters of [0-9a-f] per byte, and back *)
  hex_decode_encode s : hex_decode (hex_encode s) = Ok s;
  hex_encode_length s : String.length (hex_encode s) = 2 * String.length s;
  (** Base32 without padding decodes what it encodes, and the encoding's
      letters survive being lower-cased and upper-cased again *)
  base32_roundtrip s : base32_decode (to_uppercase (to_lowercase (base32_encode s))) = Ok s
}.

(** ** Text forms of closed vocabularies *)

(** [match s { "..." => V, ... }]. *)
Fixpoint match_str {A} (s : string) (arms : list (string * A)) : option A :=
  match arms with
  | [] => None
  | (t, a) :: arms => if decide (s = t) then Some a else match_str s arms
  end.

(** An enum stored in a TEXT column: what every reader relies on is that the
    text written for a value is read back as that value. *)
Class TextEnum (A : Type) := {
  as_str : A → string;
  parse : string → option A;
  parse_as_str a : parse (as_str a) = Some a }.
Create Rewrite HintDb text.
#[export] Hint Rewrite @parse_as_str : text.

Lemma as_str_inj `{TextEnum A} (a b : A) : as_str a = as_str b → a = b.
Proof. intros Hab. apply (f_equal parse) in Hab. rewrite !parse_as_str in Hab. congruence. Qed.

Lemma omap_parse_as_str `{TextEnum A} (l : list A) : omap parse (as_str <$> l) = l.
Proof. induction l as [|a l IH]; cbn; [done|]. by rewrite parse_as_str, IH. Qed.

Inductive AliasType := AliasName | AliasUrl | AliasUrn | AliasPackage | ExternalId | Acronym.
Definition AliasType_as_str (t : AliasType) : string :=
  match t with
  | AliasName => "name" | AliasUrl => "url" | AliasUrn => "urn"
  | AliasPackage => "package" | ExternalId => "external_id" | Acronym => "acronym"
  end.
Definition AliasType_parse (s : string) : option AliasType :=
  match_str s [("name", AliasName); ("url", AliasUrl); ("urn", AliasUrn);
    ("package", AliasPackage); ("external_id", ExternalId); ("acronym", Acronym)].

Inductive ExtractionMethod := Direct | StructuredExtraction | LlmExtraction | Verification.
Definition ExtractionMethod_as_str (t : ExtractionMethod) : string :=
  match t with
  | Direct => "direct" | StructuredExtraction => "structured_extraction"
  | LlmExtraction => "llm_extraction" | Verification => "verification"
  end.
Definition ExtractionMethod_parse (s : string) : option ExtractionMethod :=
  match_str s [("direct", Direct); ("structured_extraction", StructuredExtraction);
    ("llm_extraction", LlmExtraction); ("verification", Verification)].

Inductive AssertionStatus := Active | Disputed | Retracted | Superseded.
Definition AssertionStatus_as_str (t : AssertionStatus) : string :=
  match t with
  | Active => "active" | Disputed => "disputed"
  | Retracted => "retracted" | Superseded => "superseded"
  end.
Definition AssertionStatus_parse (s : string) : option AssertionStatus :=
  match_str s [("active", Active); ("disputed", Disputed);
    ("retracted", Retracted); ("superseded", Superseded)].

Inductive VerifyResult :=
  | Confirmed | NotConfirmed | Changed | Contradicted | Unreachable | Unknown.
Definition VerifyResult_as_str (t : VerifyResult) : string :=
  match t with
  | Confirmed => "confirmed" | NotConfirmed => "not_confirmed" | Changed => "changed"
  | Contradicted => "contradicted" | Unreachable => "unreachable" | Unknown => "unknown"
  end.
Definition VerifyResult_parse (s : string) : option VerifyResult :=
  match_str s [("confirmed", Confirmed); ("not_confirmed", NotConfirmed);
    ("changed", Changed); ("contradicted", Contradicted);
    ("unreachable", Unreachable); ("unknown", Unknown)].

Inductive EvidenceType :=
  | WebPage | Documentation | SourceCode | Repository | ApiResponse | Dataset | EvFile
  | Manual | Specification | UserObservation | AgentObservation | ServiceReceipt | EvOther.
Definition EvidenceType_as_str (t : EvidenceType) : string :=
  match t with
  | WebPage => "web_page" | Documentation => "documentation"
  | SourceCode => "source_code" | Repository => "repository"
  | ApiResponse => "api_response" | Dataset => "dataset" | EvFile => "file"
  | Manual => "manual" | Specification => "specification"
  | UserObservation => "user_observation" | AgentObservation => "agent_observation"
  | ServiceReceipt => "service_receipt" | EvOther => "other"
  end.
Definition EvidenceType_parse (s : string) : option EvidenceType :=
  match_str s [("web_page", WebPage); ("documentation", Documentation);
    ("source_code", SourceCode); ("repository", Repository);
    ("api_response", ApiResponse); ("dataset", Dataset); ("file", EvFile);
    ("manual", Manual); ("specification", Specification);
    ("user_observation", UserObservation); ("agent_observation", AgentObservation);
    ("service_receipt", ServiceReceipt); ("other", EvOther)].

Inductive ActorType :=
  | Human | Agent | Model | Crawler | Organization | DomainActor | Service | PeerActor | Anonymous.
Definition ActorType_as_str (t : ActorType) : string :=
  match t with
  | Human => "human" | Agent => "agent" | Model => "model" | Crawler => "crawler"
  | Organization => "organization" | DomainActor => "domain" | Service => "service"
  | PeerActor => "peer" | Anonymous => "anonymous"
  end.
Definition ActorType_parse (s : string) : option ActorType :=
  match_str s [("human", Human); ("agent", Agent); ("model", Model); ("crawler", Crawler);
    ("organization", Organization); ("domain", DomainActor); ("service", Service);
    ("peer", PeerActor); ("anonymous", Anonymous)].

Inductive Permission :=
  | GraphRead | GraphAssert | GraphVerify | GraphRetractOwn | GraphCrawl | Admin.
Definition Permission_as_str (t : Permission) : string :=
  match t with
  | GraphRead => "graph:read" | GraphAssert => "graph:assert"
  | GraphVerify => "graph:verify" | GraphRetractOwn => "graph:retract-own"
  | GraphCrawl => "graph:crawl" | Admin => "admin"
  end.
Definition Permission_parse (s : string) : option Permission :=
  match_str s [("graph:read", GraphRead); ("graph:assert", GraphAssert);
    ("graph:verify", GraphVerify); ("graph:retract-own", GraphRetractOwn);
    ("graph:crawl", GraphCrawl); ("admin", Admin)].

Ltac text_enum f g := refine {| as_str := f; parse := g |}; by intros [].
#[export] Instance AliasType_text : TextEnum AliasType.
Proof. text_enum AliasType_as_str AliasType_parse. Defined.
#[export] Instance ExtractionMethod_text : TextEnum ExtractionMethod.
Proof. text_enum ExtractionMethod_as_str ExtractionMethod_parse. Defined.
#[export] Instance AssertionStatus_text : TextEnum AssertionStatus.
Proof. text_enum AssertionStatus_as_str AssertionStatus_parse. Defined.
#[export] Instance VerifyResult_text : TextEnum VerifyResult.
Proof. text_enum VerifyResult_as_str VerifyResult_parse. Defined.
#[export] Instance EvidenceType_text : TextEnum EvidenceType.
Proof. text_enum EvidenceType_as_str EvidenceType_parse. Defined.
#[export] Instance ActorType_text : TextEnum ActorType.
Proof. text_enum ActorType_as_str ActorType_parse. Defined.
#[export] Instance Permission_text : TextEnum Permission.
Proof. text_enum Permission_as_str Permission_parse. Defined.

#[export] Instance AssertionStatus_eq_dec : EqDecision AssertionStatus.
Proof. solve_decision. Defined.
#[export] Instance Permission_eq_dec : EqDecision Permission.
Proof. solve_decision. Defined.
#[export] Instance VerifyResult_eq_dec : EqDecision VerifyResult.
Proof. solve_decision. Defined.
#[export] Instance ActorType_eq_dec : EqDecision ActorType.
Proof. solve_decision. Defined.

(** ** Identifiers *)

Inductive Hash32ParseError :=
  | HashHex (e : string)
  | HashWrongLength (n : nat).
Inductive PeerIdParseError :=
  | MissingPrefix
  | PeerBase32 (e : string)
  | PeerWrongLength (n : nat).

(** The prefixes under which the program hashes and signs. *)
Definition NODE_DOMAIN : string := "OAG:NODE:v1:".
Definition EDGE_DOMAIN : string := "OAG:EDGE:v1:".
Definition EVENT_DOMAIN : string := "OAG:EVENT:v1:".
Definition ACTOR_DOMAIN : string := "OAG:ACTOR:v1:".
Definition RECEIPT_DOMAIN : string := "OAG:RECEIPT:v1:".
Definition ACTOR_KEY_PROOF_DOMAIN : string := "OAG:ACTOR_KEY_PROOF:v1:".
Definition CLUSTER_DOMAIN : string := "OAG:CLUSTER:v1:".
Definition PRESENCE_DOMAIN : string := "OAG:PRESENCE:v1:".
Definition GATEWAY_REQUEST_DOMAIN : string := "OAG:GATEWAY_REQUEST:v1:".
Definition GATEWAY_RESPONSE_DOMAIN : string := "OAG:GATEWAY_RESPONSE:v1:".
Definition TRANSFER_REQUEST_DOMAIN : string := "OAG:TRANSFER_REQUEST:v1:".
Definition TRANSFER_RECEIPT_DOMAIN : string := "OAG:TRANSFER_RECEIPT:v1:".

Section ids.
Context `{P : Platform}.

Definition Hash32_derive (domain_prefix input : string) : hash32 :=
  blake3 (domain_prefix +:+ input).
Definition to_hex (h : hash32) : string := hex_encode (raw h).
Definition Hash32_from_str (s : string) : result Hash32ParseError hash32 :=
  b ← map_err HashHex (hex_decode s);
  ok_or (to_array 32 b) (HashWrongLength (String.length b)).

(** [NodeId::from_canonical_identifier], [EdgeId::from_triple],
    [EventId::derive], [ActorId::derive]. *)
Definition NodeId_from_canonical_identifier (identifier : string) : hash32 :=
  Hash32_derive NODE_DOMAIN identifier.
Definition triple_bytes (subject : hash32) (predicate : string) (object : hash32) : string :=
  to_hex subject +:+ ":" +:+ predicate +:+ ":" +:+ to_hex object.
Definition EdgeId_from_triple (subject : hash32) (predicate : string) (object : hash32) : hash32 :=
  Hash32_derive EDGE_DOMAIN (triple_bytes subject predicate object).
Definition EventId_derive (input : string) : hash32 := Hash32_derive EVENT_DOMAIN input.
Definition ActorId_derive (input : string) : hash32 := Hash32_derive ACTOR_DOMAIN input.

(** ** Peer identifiers and signatures *)

Definition PeerId_from_public_key (key : VerifyingKey) : hash32 := blake3 (raw (vk_bytes key)).
Definition PeerId_to_string (p : hash32) : string :=
  "oagp_" +:+ to_lowercase (base32_encode (raw p)).

Fixpoint strip_prefix (pre s : string) : option string :=
  match pre, s with
  | "", _ => Some s
  | String a pre, String b s => if decide (a = b) then strip_prefix pre s else None
  | String _ _, "" => None
  end.

Definition PeerId_from_str (s : string) : result PeerIdParseError hash32 :=
  rest ← ok_or (strip_prefix "oagp_" s) MissingPrefix;
  b ← map_err PeerBase32 (base32_decode (to_uppercase rest));
  ok_or (to_array 32 b) (PeerWrongLength (String.length b)).

Definition sign_with_domain (key : SigningKey) (domain_prefix canonical : string) : bytes 64 :=
  ed25519_sign key (domain_prefix +:+ canonical).
Definition verify_with_domain (key : VerifyingKey) (domain_prefix canonical : string)
    (signature : bytes 64) : result string () :=
  ed25519_verify key (domain_prefix +:+ canonical) signature.

(** [blake3_content_hash] and [mutual_receipt_hash]. *)
Definition blake3_content_hash (b : string) : string := "blake3:" +:+ to_hex (blake3 b).
Definition receipt_bytes (client_nonce server_nonce : bytes 32) (content_hash : string) : string :=
  RECEIPT_DOMAIN +:+ raw client_nonce +:+ raw server_nonce +:+ content_hash.
Definition mutual_receipt_hash (client_nonce server_nonce : bytes 32) (content_hash : string) : string :=
  "blake3:" +:+ to_hex (blake3 (receipt_bytes client_nonce server_nonce content_hash)).

(** ** Nodes, predicates, edges *)

Fixpoint join (sep : string) (l : list string) : string :=
  match l with
  | [] => ""
  | [s] => s
  | s :: l => s +:+ sep +:+ join sep l
  end.

Definition NodeType_new (s : string) : string := to_lowercase (trim s).
Definition Predicate_new (s : string) : string :=
  join "_" (split_whitespace (to_lowercase (trim s))).
End ids.

(** ** Facts the clients use *)

Section facts.
Context `{L : PlatformLaws}.

Lemma Hash32_from_str_hex h : Hash32_from_str (to_hex h) = Ok h.
Proof. unfold Hash32_from_str, to_hex. rewrite hex_decode_encode. cbn. by rewrite to_array_raw. Qed.

Lemma to_hex_inj h1 h2 : to_hex h1 = to_hex h2 → h1 = h2.
Proof. intros H. pose proof (Hash32_from_str_hex h1). rewrite H, Hash32_from_str_hex in *. congruence. Qed.

Lemma bytes_length {n} (b : bytes n) : String.length (raw b) = n.
Proof. exact (bool_decide_unpack _ (raw_length _ b)). Qed.

Lemma to_hex_length h : String.length (to_hex h) = 64.
Proof. unfold to_hex. by rewrite hex_encode_length, bytes_length. Qed.

Lemma strip_prefix_app pre s : strip_prefix pre (pre +:+ s) = Some s.
Proof. induction pre as [|a pre IH]; [done|]. rewrite string_app_cons. cbn. by rewrite decide_True. Qed.

Lemma PeerId_from_to_string p : PeerId_from_str (PeerId_to_string p) = Ok p.
Proof.
  unfold PeerId_from_str, PeerId_to_string. rewrite strip_prefix_app. cbn.
  rewrite base32_roundtrip. cbn. by rewrite to_array_raw.
Qed.

(** The bytes an edge id is derived from determine the triple, whatever
    separators the predicate contains. *)
Lemma triple_bytes_inj s1 p1 o1 s2 p2 o2 :
  triple_bytes s1 p1 o1 = triple_bytes s2 p2 o2 → s1 = s2 ∧ p1 = p2 ∧ o1 = o2.
Proof.
  unfold triple_bytes. intros H.
  apply string_app_inj in H as [Hs%to_hex_inj H]; [|by rewrite !to_hex_length].
  apply string_app_inj_r in H.
  assert (String.length p1 = String.length p2) as Hp.
  { apply (f_equal String.length) in H. rewrite !string_length_app, !to_hex_length in H. lia. }
  apply string_app_inj in H as [-> H]; [|done].
  by apply string_app_inj_r, to_hex_inj in H as ->.
Qed.

Lemma receipt_bytes_inj c1 s1 h1 c2 s2 h2 :
  receipt_bytes c1 s1 h1 = receipt_bytes c2 s2 h2 → c1 = c2 ∧ s1 = s2 ∧ h1 = h2.
Proof.
  unfold receipt_bytes. intros H%string_app_inj_r.
  apply string_app_inj in H as [Hc%bytes_eq H]; [|by rewrite !bytes_length].
  by apply string_app_inj in H as [Hs%bytes_eq ->]; [|by rewrite !bytes_length].
Qed.
End facts.
#[export] Hint Rewrite @Hash32_from_str_hex @PeerId_from_to_string @hex_decode_encode
  @to_array_raw using typeclasses eauto : text.

(** What a text is hashed or signed for, and the prefix used for it. *)
Inductive purpose :=
  | ForNode | ForEdge | ForEvent | ForActor | ForReceipt | ForActorKeyProof | ForCluster | ForPresence
  | ForGatewayRequest | ForGatewayResponse | ForTransferRequest | ForTransferReceipt.
Definition domain_of (p : purpose) : string :=
  match p with
  | ForNode => NODE_DOMAIN | ForEdge => EDGE_DOMAIN | ForEvent => EVENT_DOMAIN | ForActor => ACTOR_DOMAIN
  | ForReceipt => RECEIPT_DOMAIN | ForActorKeyProof => ACTOR_KEY_PROOF_DOMAIN
  | ForCluster => CLUSTER_DOMAIN | ForPresence => PRESENCE_DOMAIN
  | ForGatewayRequest => GATEWAY_REQUEST_DOMAIN | ForGatewayResponse => GATEWAY_RESPONSE_DOMAIN
  | ForTransferRequest => TRANSFER_REQUEST_DOMAIN | ForTransferReceipt => TRANSFER_RECEIPT_DOMAIN
  end.

Lemma domains_diverge p1 p2 : p1 = p2 ∨ diverge (domain_of p1) (domain_of p2) = true.
Proof. destruct p1, p2; first [left; reflexivity|right; vm_compute; reflexivity]. Qed.
Lemma prefixed_inj p1 p2 m1 m2 : domain_of p1 +:+ m1 = domain_of p2 +:+ m2 → p1 = p2 ∧ m1 = m2.
Proof.
  destruct (domains_diverge p1 p2) as [->|Hd]; [by intros ->%string_app_inj_r|].
  intros H. by apply diverge_app in H.
Qed.

(** ** A toy platform, for the concrete examples

    Hexadecimal is the real one; the hash, the signature scheme and the Base32
    codec are small computable stand-ins that satisfy the laws. *)
Module Toy.
(** A nibble, most significant bit first. *)
Definition nibble : Type := bool * bool * bool * bool.
Definition digit (n : nibble) : ascii :=
  match n with
  | (false, false, false, false) => "0"
  | (false, false, false, true) => "1"
  | (false, false, true, false) => "2"
  | (false, false, true, true) => "3"
  | (false, true, false, false) => "4"
  | (false, true, false, true) => "5"
  | (false, true, true, false) => "6"
  | (false, true, true, true) => "7"
  | (true, false, false, false) => "8"
  | (true, false, false, true) => "9"
  | (true, false, true, false) => "a"
  | (true, false, true, true) => "b"
  | (true, true, false, false) => "c"
  | (true, true, false, true) => "d"
  | (true, true, true, false) => "e"
  | (true, true, true, true) => "f"
  end%char.
Definition undigit (a : ascii) : option nibble :=
  match a with
  | "0" => Some (false, false, false, false)
  | "1" => Some (false, false, false, true)
  | "2" => Some (false, false, true, false)
  | "3" => Some (false, false, true, true)
  | "4" => Some (false, true, false, false)
  | "5" => Some (false, true, false, true)
  | "6" => Some (false, true, true, false)
  | "7" => Some (false, true, true, true)
  | "8" => Some (true, false, false, false)
  | "9" => Some (true, false, false, true)
  | "a" | "A" => Some (true, false, true, false)
  | "b" | "B" => Some (true, false, true, true)
  | "c" | "C" => Some (true, true, false, false)
  | "d" | "D" => Some (true, true, false, true)
  | "e" | "E" => Some (true, true, true, false)
  | "f" | "F" => Some (true, true, true, true)
  | _ => None
  end%char.
Definition high (a : ascii) : nibble := let 'Ascii _ _ _ _ b4 b5 b6 b7 := a in (b7, b6, b5, b4).
Definition low (a : ascii) : nibble := let 'Ascii b0 b1 b2 b3 _ _ _ _ := a in (b3, b2, b1, b0).
Definition byte_of (h l : nibble) : ascii :=
  let '(b7, b6, b5, b4) := h in let '(b3, b2, b1, b0) := l in Ascii b0 b1 b2 b3 b4 b5 b6 b7.
Fixpoint hex_encode (s : string) : string :=
  match s with
  | "" => ""
  | String a s =>
      String (digit (high a)) (String (digit (low a)) (hex_encode s))
  end.
Fixpoint hex_decode (s : string) : result string string :=
  match s with
  | "" => Ok ""
  | String _ "" => Err "odd number of digits"
  | String a (String b s) =>
      match undigit a, undigit b with
      | Some h, Some l => r ← hex_decode s; Ok (String (byte_of h l) r)
      | _, _ => Err "invalid character"
      end
  end.
Fixpoint map_ascii (f : ascii → ascii) (s : string) : string :=
  match s with "" => "" | String a s => String (f a) (map_ascii f s) end.
Definition set_case (b : bool) (a : ascii) : ascii :=
  let 'Ascii b0 b1 b2 b3 b4 _ b6 b7 := a in Ascii b0 b1 b2 b3 b4 b b6 b7.
Definition lower (a : ascii) : ascii :=
  let n := N_of_ascii a in if N.leb 65 n && N.leb n 90 then set_case true a else a.
Definition upper (a : ascii) : ascii :=
  let n := N_of_ascii a in if N.leb 97 n && N.leb n 122 then set_case false a else a.

(** White space: the words of a string, ASCII blanks only. *)
Definition is_space (a : ascii) : bool :=
  let n := N_of_ascii a in N.eqb n 32 || N.leb 9 n && N.leb n 13.
Fixpoint words (cur s : string) : list string :=
  let flush := if decide (cur = "") then [] else [cur] in
  match s with
  | "" => flush
  | String a s => if is_space a then flush ++ words "" s else words (cur +:+ String a "") s
  end.
Fixpoint trim_start (s : string) : string :=
  match s with String a s' => if is_space a then trim_start s' else s | "" => "" end.
Fixpoint trim_end (s : string) : string :=
  match s with
  | "" => ""
  | String a s => match trim_end s with
                  | "" => if is_space a then "" else String a ""
                  | s' => String a s'
                  end
  end.

(** A four-byte shift register, padded with zero bytes. *)
Definition rotate (a : ascii) : ascii :=
  let 'Ascii b0 b1 b2 b3 b4 b5 b6 b7 := a in Ascii b7 b0 b1 b2 b3 b4 b5 b6.
Definition xor (a b : ascii) : ascii :=
  let 'Ascii a0 a1 a2 a3 a4 a5 a6 a7 := a in let 'Ascii b0 b1 b2 b3 b4 b5 b6 b7 := b in
  Ascii (xorb a0 b0) (xorb a1 b1) (xorb a2 b2) (xorb a3 b3)
        (xorb a4 b4) (xorb a5 b5) (xorb a6 b6) (xorb a7 b7).
Fixpoint checksum (w x y z : ascii) (s : string) : ascii * ascii * ascii * ascii :=
  match s with
  | "" => (w, x, y, z)
  | String a s => checksum x y z (xor (rotate (xor w y)) a) s
  end.
Fixpoint zeros (n : nat) : string :=
  match n with O => "" | S n => String "000" (zeros n) end.
Definition digest (n : nat) (s : string) : string :=
  let '(w, x, y, z) := checksum "a" "b" "c" "d" s in
  String w (String x (String y (String z (zeros n)))).
Lemma digest_length n s : bool_decide (String.length (digest n s) = 4 + n).
Proof.
  apply bool_decide_pack. unfold digest. destruct (checksum _ _ _ _ s) as [[[w x] y] z].
  cbn. do 4 f_equal. induction n as [|n IH]; cbn; congruence.
Qed.

Definition hash (s : string) : bytes 32 := Bytes (digest 28 s) (canon _ (digest_length 28 s)).
Definition sign (k : bytes 32) (m : string) : bytes 64 :=
  Bytes (digest 60 (raw k +:+ m)) (canon _ (digest_length 60 _)).

#[export] Instance platform : Platform := {|
  blake3 := hash;
  SigningKey := bytes 32;
  VerifyingKey := bytes 32;
  vk_bytes := id;
  vk_from_bytes := Ok;
  verifying_key := id;
  ed25519_sign := sign;
  ed25519_verify := λ k m s,
    if decide (raw s = raw (sign k m)) then Ok () else Err "signature error";
  Core.hex_encode := hex_encode;
  Core.hex_decode := hex_decode;
  base32_encode := hex_encode;
  base32_decode := hex_decode;
  trim := λ s, trim_start (trim_end s);
  to_lowercase := map_ascii lower;
  to_uppercase := map_ascii upper;
  split_whitespace := words "" |}.

Lemma hex_char a :
  ∃ h l, undigit (digit (high a)) = Some h ∧ undigit (digit (low a)) = Some l ∧
         undigit (upper (lower (digit (high a)))) = Some h ∧
         undigit (upper (lower (digit (low a)))) = Some l ∧ byte_of h l = a.
Proof. exists (high a), (low a). by destruct a as [[][][][][][][][]]. Qed.
Lemma hex_roundtrip s : hex_decode (hex_encode s) = Ok s.
Proof.
  induction s as [|a s IH]; [done|].
  destruct (hex_char a) as (h & l & Hh & Hl & _ & _ & Ha).
  cbn [hex_encode hex_decode]. rewrite Hh, Hl, IH. cbn [mbind result_bind]. by rewrite Ha.
Qed.
Lemma hex_case_roundtrip s :
  hex_decode (map_ascii upper (map_ascii lower (hex_encode s))) = Ok s.
Proof.
  induction s as [|a s IH]; [done|].
  destruct (hex_char a) as (h & l & _ & _ & Hh & Hl & Ha).
  cbn [hex_encode map_ascii hex_decode]. rewrite Hh, Hl, IH.
  cbn [mbind result_bind]. by rewrite Ha.
Qed.
Lemma hex_length s : String.length (hex_encode s) = 2 * String.length s.
Proof. induction s as [|a s IH]; cbn [hex_encode String.length]; lia. Qed.

#[export] Instance laws : PlatformLaws platform.
Proof.
  split.
  - intros sk m. cbn. by rewrite decide_True.
  - done.
  - by intros b vk [= ->].
  - apply hex_roundtrip.
  - apply hex_length.
  - apply hex_case_roundtrip.
Qed.
End Toy.

(** ** Properties *)

(** Two texts of the same hash; and a signature accepted for a text that is
    not the one signed. *)
Definition collision `{P : Platform} (x y : string) : Prop := x ≠ y ∧ blake3 x = blake3 y.
Definition forgery `{P : Platform} (key : SigningKey) (x y : string) : Prop :=
  x ≠ y ∧ ed25519_verify (verifying_key key) y (ed25519_sign key x) = Ok ().

Lemma derive_or_collision `{P : Platform} p1 m1 p2 m2 :
  Hash32_derive (domain_of p1) m1 = Hash32_derive (domain_of p2) m2 →
  (p1 = p2 ∧ m1 = m2) ∨ collision (domain_of p1 +:+ m1) (domain_of p2 +:+ m2).
Proof.
  intros H. destruct (decide (domain_of p1 +:+ m1 = domain_of p2 +:+ m2)) as [He|Hne]; [left|by right].
  by apply prefixed_inj.
Qed.

(** C9: Identifiers and signatures mean one thing each.  Unless two texts that
    are named here have the same BLAKE3 hash, identifiers derived for two
    purposes differ whatever their inputs, a node is determined by its
    identifier, an edge by subject, predicate and object (although they are
    concatenated without lengths), and a receipt hash by both nonces and the
    content hash; and unless Ed25519 accepts a signature for a text that was
    not signed, what a key signed for one purpose is accepted for that purpose
    and that text only. *)
Theorem preimages_unambiguous `{L : PlatformLaws} :
  (∀ p1 m1 p2 m2, Hash32_derive (domain_of p1) m1 = Hash32_derive (domain_of p2) m2 →
     (p1 = p2 ∧ m1 = m2) ∨ collision (domain_of p1 +:+ m1) (domain_of p2 +:+ m2)) ∧
  (∀ u1 u2, NodeId_from_canonical_identifier u1 = NodeId_from_canonical_identifier u2 →
     u1 = u2 ∨ collision (NODE_DOMAIN +:+ u1) (NODE_DOMAIN +:+ u2)) ∧
  (∀ s1 q1 o1 s2 q2 o2, EdgeId_from_triple s1 q1 o1 = EdgeId_from_triple s2 q2 o2 →
     (s1, q1, o1) = (s2, q2, o2) ∨
     collision (EDGE_DOMAIN +:+ triple_bytes s1 q1 o1) (EDGE_DOMAIN +:+ triple_bytes s2 q2 o2)) ∧
  (∀ c1 n1 h1 c2 n2 h2, mutual_receipt_hash c1 n1 h1 = mutual_receipt_hash c2 n2 h2 →
     (c1, n1, h1) = (c2, n2, h2) ∨ collision (receipt_bytes c1 n1 h1) (receipt_bytes c2 n2 h2)) ∧
  (∀ p c n h m, receipt_bytes c n h = domain_of p +:+ m → p = ForReceipt) ∧
  (∀ key p1 m1 p2 m2,
     verify_with_domain (verifying_key key) (domain_of p2) m2 (sign_with_domain key (domain_of p1) m1) = Ok () →
     (p1 = p2 ∧ m1 = m2) ∨ forgery key (domain_of p1 +:+ m1) (domain_of p2 +:+ m2)).
Proof.
  split_and!.
  - apply derive_or_collision.
  - intros u1 u2 [[_ ->]|H]%(derive_or_collision ForNode u1 ForNode u2); [by left|by right].
  - intros * [[_ H]|H]%(derive_or_collision ForEdge _ ForEdge); [left|by right].
    by apply triple_bytes_inj in H as (-> & -> & ->).
  - intros * H%string_app_inj_r%to_hex_inj.
    destruct (decide (receipt_bytes c1 n1 h1 = receipt_bytes c2 n2 h2)) as [He|Hne]; [left|by right].
    by apply receipt_bytes_inj in He as (-> & -> & ->).
  - intros p c n h m H. by apply (prefixed_inj ForReceipt p) in H as [<- _].
  - intros key p1 m1 p2 m2 H. destruct (decide (domain_of p1 +:+ m1 = domain_of p2 +:+ m2)) as [He|Hne]; [left|by right].
    by apply prefixed_inj.
Qed.

(** Identifiers survive their text forms: a hash its hexadecimal and a peer id
    its lower-cased [oagp_] Base32 form. *)
Theorem identifiers_roundtrip `{L : PlatformLaws} :
  (∀ h, Hash32_from_str (to_hex h) = Ok h) ∧
  (∀ p, PeerId_from_str (PeerId_to_string p) = Ok p).
Proof. split; intros; by autorewrite with text. Qed.

(** A heartbeat's signature is worth nothing as an event's, and an edge whose
    predicate holds a separator is not another edge. *)
Lemma preimages_unambiguous_witness :
  @verify_with_domain Toy.platform (Toy.hash "key") EVENT_DOMAIN "{}"
    (@sign_with_domain Toy.platform (Toy.hash "key") PRESENCE_DOMAIN "{}") ≠ Ok () ∧
  @EdgeId_from_triple Toy.platform (Toy.hash "s") "a:b" (Toy.hash "o") ≠
  @EdgeId_from_triple Toy.platform (Toy.hash "s") "a" (Toy.hash "o").
Proof.
  destruct (@preimages_unambiguous Toy.platform Toy.laws) as (_ & _ & Hedge & _ & _ & Hsign). split.
  - intros H. destruct (Hsign (Toy.hash "key") ForPresence "{}" ForEvent "{}" H) as [[[=] _]|[_ Hf]].
    revert Hf. vm_compute. discriminate.
  - intros H. destruct (Hedge (Toy.hash "s") "a:b" (Toy.hash "o") (Toy.hash "s") "a" (Toy.hash "o") H) as [[=]|[_ Hc]].
    apply (f_equal raw) in Hc. revert Hc. vm_compute. discriminate.
Defined.

Lemma identifiers_roundtrip_witness :
  @PeerId_from_str Toy.platform (@PeerId_to_string Toy.platform (Toy.hash "key"))
    = Ok (Toy.hash "key").
Proof. apply (@identifiers_roundtrip Toy.platform Toy.laws). Defined.
