(* ===== verification/SitePage.v ===== *)
(** * The page that starts the bundle

    [oag-api]: [ipfs_site.rs].  The server never fetches a site; it answers
    with a page that names a CID and an address to dial, and the browser runs
    the bundle of [IpfsSite] on it.  Here the page is made as the server makes
    it, read by a browser, and handed to the bundle's [main].  The browser's
    HTML parser and [serde_json]'s text of a string are parameters; the
    assignments of the script, which are JavaScript, are read here. *)

From S2P Require Import Prelude IpfsSite Core.

(** ** Text *)

Definition dquote : ascii := "034"%char.
Definition nl : string := String "010" "".
Definition in_quotes (s : string) : string := String dquote (s +:+ String dquote "").

Definition is_ascii_alphanumeric (a : ascii) : bool :=
  let n := nat_of_ascii a in
  ((48 <=? n) && (n <=? 57)) || ((65 <=? n) && (n <=? 90)) || ((97 <=? n) && (n <=? 122)).
Fixpoint all_chars (f : ascii → bool) (s : string) : bool :=
  match s with "" => true | String a s => f a && all_chars f s end.

(** [.replace("</", "<\\/")]. *)
Fixpoint replace_close (s : string) : string :=
  match s with
  | "" => ""
  | String "<" (String "/" s) => "<\/" +:+ replace_close s
  | String a s => String a (replace_close s)
  end.

(** ** The server *)

(** [serde_json::to_string] of a [&str]. *)
Class JsonText := { json_text : string → result string string }.

Section server.
Context {J : JsonText}.

Definition looks_like_a_cid (cid : string) : bool :=
  negb (bool_decide (cid = "")) && (String.length cid <=? 100) && all_chars is_ascii_alphanumeric cid.
Definition js_value (s : string) : string :=
  replace_close (match json_text s with Ok t => t | Err _ => "null" end).

Definition page_head : string :=
  "<!doctype html>" +:+ nl +:+ "<html>" +:+ nl +:+ "<head>" +:+ nl +:+ "<meta charset=" +:+ in_quotes "utf-8" +:+ ">" +:+ nl +:+
  "<title>oag ipfs site</title>" +:+ nl +:+ "<script>".
Definition page_script (cid_js multiaddr_js : string) : string :=
  nl +:+ "  window.__OAG_IPFS_CID__ = " +:+ cid_js +:+ ";" +:+ nl +:+
  "  window.__OAG_IPFS_MULTIADDR__ = " +:+ multiaddr_js +:+ ";" +:+ nl.
Definition loading (cid : string) : string := "loading " +:+ cid +:+ " over ipfs...".
Definition page_tail (cid : string) : string :=
  "</script>" +:+ nl +:+ "</head>" +:+ nl +:+ "<body>" +:+ nl +:+
  "<div id=" +:+ in_quotes "oag-ipfs-root" +:+ ">" +:+ loading cid +:+ "</div>" +:+ nl +:+
  "<script type=" +:+ in_quotes "module" +:+ " src=" +:+ in_quotes "/ipfs-site/_bundle.js" +:+ "></script>" +:+ nl +:+
  "</body>" +:+ nl +:+ "</html>" +:+ nl.

(** The status and the HTML; [multiaddr] is the address the operator has
    configured. *)
Definition bootstrap_page (multiaddr : option string) (cid : string) : Z * string :=
  if negb (looks_like_a_cid cid) then (400%Z, "<p>not a valid CID</p>")
  else
    let cid_js := js_value cid in
    let multiaddr_js := match multiaddr with Some m => js_value m | None => "null" end in
    (200%Z, page_head +:+ page_script cid_js multiaddr_js +:+ page_tail cid).
End server.

(** ** The browser *)

Definition hex_value (a : ascii) : option nat :=
  let n := nat_of_ascii a in
  if (48 <=? n) && (n <=? 57) then Some (n - 48)
  else if (97 <=? n) && (n <=? 102) then Some (n - 87)
  else if (65 <=? n) && (n <=? 70) then Some (n - 55) else None.
Definition simple_escape (a : ascii) : option ascii :=
  match a with
  | "034" => Some "034" | "\" => Some "\" | "/" => Some "/" | "b" => Some "008" | "f" => Some "012"
  | "n" => Some "010" | "r" => Some "013" | "t" => Some "009" | _ => None
  end%char.
(** The rest of a JavaScript string literal after its opening quote: the value
    and what follows the closing quote.  [None] for what is no literal, and
    for escapes that JSON does not have or that are not ASCII. *)
Fixpoint js_chars (s : string) : option (string * string) :=
  match s with
  | "" => None
  | String a s =>
      if Ascii.eqb a dquote then Some ("", s)
      else if Ascii.eqb a "\" then
        match s with
        | String "u" (String "0" (String "0" (String x (String y s)))) =>
            hi ← hex_value x; lo ← hex_value y;
            '(v, r) ← js_chars s;
            if hi <=? 7 then Some (String (ascii_of_nat (16 * hi + lo)) v, r) else None
        | String e s => c ← simple_escape e; '(v, r) ← js_chars s; Some (String c v, r)
        | "" => None
        end
      else if Ascii.eqb a "010" || Ascii.eqb a "013" then None
      else '(v, r) ← js_chars s; Some (String a v, r)
  end.
(** [null] or a string literal. *)
Definition js_literal (s : string) : option (option string * string) :=
  match strip_prefix "null" s with
  | Some rest => Some (None, rest)
  | None => match s with
            | String a s => if Ascii.eqb a dquote then '(v, r) ← js_chars s; Some (Some v, r) else None
            | "" => None
            end
  end.
Definition assignment (name s : string) : option (option string * string) :=
  rest ← strip_prefix ("  window." +:+ name +:+ " = ") s;
  '(v, rest) ← js_literal rest;
  rest ← strip_prefix (";" +:+ nl) rest;
  Some (v, rest).

(** The two variables that the statements of the page's script set. *)
Definition read_script (script : string) : option (option string * option string) :=
  script ← strip_prefix nl script;
  '(cid, script) ← assignment "__OAG_IPFS_CID__" script;
  '(multiaddr, script) ← assignment "__OAG_IPFS_MULTIADDR__" script;
  if bool_decide (script = "") then Some (cid, multiaddr) else None.

(** The browser's HTML parser, as far as the page needs it: the text of its
    first script and the text of [#oag-ipfs-root]. *)
Class Browser := { parse_page : string → option (string * string) }.
(** Loading the page and running the module it names. *)
Definition visit `{B : Browser} `{W : World} (fuel : nat) (html : string) : option (result stop () * page) :=
  '(script, text) ← parse_page html;
  '(cid, multiaddr) ← read_script script;
  Some (main fuel cid multiaddr (Page (Some (text, "")) [] None [])).

(** No [</], and no [<!--], occurs. *)
Fixpoint no_close (s : string) : bool :=
  match s with
  | "" => true
  | String "<" (String "/" _) => false
  | String _ s => no_close s
  end.
Fixpoint no_comment (s : string) : bool :=
  match s with
  | "" => true
  | String _ s' => bool_decide (strip_prefix "<!--" s = None) && no_comment s'
  end.
(** What the HTML standard says of the text of a script element: with neither
    an end tag nor [<!--] in it, it is the text up to its end tag, and the
    elements after it are those that are written.  (After [<!--] and
    [<script] an end tag would not end the element.) *)
Class BrowserLaws (B : Browser) : Prop := {
  parse_page_law script cid : no_close script = true → no_comment script = true →
    all_chars is_ascii_alphanumeric cid = true →
    parse_page (page_head +:+ script +:+ page_tail cid) = Some (script, loading cid) }.

(** JSON's text of a string is a JavaScript literal of the same string, in
    which only quotes, backslashes and control characters are escaped. *)
Class JsonTextLaws (J : JsonText) : Prop := {
  json_text_literal s : ∃ t, json_text s = Ok (String dquote t) ∧ js_chars t = Some (s, "");
  json_text_comment s t : json_text s = Ok t → no_comment s = true → no_comment t = true }.

(** ** Facts about texts *)

Definition first_char (s : string) : option ascii := match s with String a _ => Some a | "" => None end.
Definition string_ind2 (P : string → Prop) (H0 : P "") (H1 : ∀ a, P (String a ""))
    (H2 : ∀ a b s, P (String b s) → P s → P (String a (String b s))) : ∀ s, P s.
Proof.
  intros s. enough (P s ∧ ∀ a, P (String a s)) by tauto.
  induction s as [|b s [IH1 IH2]]; [by split|]. split; [apply IH2|]. intros a. by apply H2.
Defined.

Lemma no_close_cons a s :
  no_close (String a s) = negb (bool_decide (a = "<"%char ∧ first_char s = Some "/"%char)) && no_close s.
Proof.
  destruct (decide (a = "<"%char)) as [->|Ha].
  - destruct s as [|b s]; [done|]. cbn [first_char]. destruct (decide (b = "/"%char)) as [->|Hb]; [done|].
    rewrite bool_decide_false by (intros [_ [=]]; done). cbn [negb andb].
    destruct b as [[] [] [] [] [] [] [] []]; done.
  - rewrite bool_decide_false by (intros [? _]; done). cbn [negb andb].
    destruct a as [[] [] [] [] [] [] [] []]; done.
Qed.
Lemma no_close_app s t : no_close s = true → no_close t = true → first_char t ≠ Some "/"%char → no_close (s +:+ t) = true.
Proof.
  intros Hs Ht Hf. induction s as [|a s IH]; [done|]. rewrite string_app_cons, !no_close_cons in *.
  apply andb_true_iff in Hs as [Ha Hs]. rewrite (IH Hs), andb_true_r.
  apply negb_true_iff, bool_decide_eq_false in Ha. apply negb_true_iff, bool_decide_eq_false.
  intros [-> Hb]. destruct s as [|b s]; cbn in *; [done|]. by apply Ha.
Qed.
Lemma replace_close_first s : first_char (replace_close s) = first_char s.
Proof.
  destruct s as [|a [|b s]]; [done| |]; destruct a as [[] [] [] [] [] [] [] []]; try done;
    destruct b as [[] [] [] [] [] [] [] []]; done.
Qed.
Lemma replace_close_cons a s : ¬ (a = "<"%char ∧ first_char s = Some "/"%char) →
  replace_close (String a s) = String a (replace_close s).
Proof.
  intros Hn. destruct s as [|b s]; [by destruct a as [[] [] [] [] [] [] [] []]|].
  destruct (decide (a = "<"%char)) as [->|Ha]; [|destruct a as [[] [] [] [] [] [] [] []]; done].
  destruct (decide (b = "/"%char)) as [->|Hb]; [by destruct Hn|].
  destruct b as [[] [] [] [] [] [] [] []]; done.
Qed.
Lemma replace_close_no_close s : no_close (replace_close s) = true.
Proof.
  induction s as [|a|a b s IHb IH] using string_ind2; [done|by destruct a as [[] [] [] [] [] [] [] []]|].
  destruct (decide (a = "<"%char ∧ b = "/"%char)) as [[-> ->]|Hn]; [done|].
  rewrite replace_close_cons by (cbn; intros [-> [= ->]]; by apply Hn).
  rewrite no_close_cons, IHb, andb_true_r, replace_close_first. apply negb_true_iff, bool_decide_eq_false.
  cbn. intros [-> [= ->]]. by apply Hn.
Qed.

(** *** Comments *)

Definition breaks (t : string) : Prop := first_char t ≠ Some "!"%char ∧ first_char t ≠ Some "-"%char.
Lemma strip_dashes pre s t : all_chars (λ a, Ascii.eqb a "!" || Ascii.eqb a "-") pre = true → breaks t →
  strip_prefix pre s = None → strip_prefix pre (s +:+ t) = None.
Proof.
  revert s. induction pre as [|p pre IH]; intros s; cbn [all_chars]; [by destruct s|].
  intros [Hp Hpre]%andb_true_iff Ht. destruct s as [|b s].
  - intros _. change ("" +:+ t) with t. destruct t as [|c t]; [done|]. destruct Ht as [H1 H2]. cbn in H1, H2 |- *. rewrite decide_False; [done|].
    intros <-. apply orb_true_iff in Hp as [->%Ascii.eqb_eq| ->%Ascii.eqb_eq]; done.
  - rewrite string_app_cons. cbn. case_decide; [by apply IH|done].
Qed.
Lemma no_comment_app s t : no_comment s = true → no_comment t = true → breaks t → no_comment (s +:+ t) = true.
Proof.
  intros Hs Ht Hb. induction s as [|a s IH]; [done|]. cbn [no_comment] in Hs.
  apply andb_true_iff in Hs as [Ha%bool_decide_eq_true Hs]. rewrite string_app_cons.
  cbn [no_comment]. rewrite (IH Hs), andb_true_r. apply bool_decide_eq_true.
  cbn [strip_prefix] in *. case_decide; [|done]. by apply (strip_dashes "!--").
Qed.
Lemma replace_close_dashes pre s : all_chars (λ a, Ascii.eqb a "!" || Ascii.eqb a "-") pre = true →
  strip_prefix pre s = None → strip_prefix pre (replace_close s) = None.
Proof.
  revert s. induction pre as [|p pre IH]; intros s; cbn [all_chars]; [by destruct s|].
  intros [Hp Hpre]%andb_true_iff. destruct s as [|b s]; [done|].
  destruct (decide (b = "<"%char)) as [->|Hb].
  - intros _. pose proof (replace_close_first (String "<" s)) as Hf. destruct (replace_close _) as [|c u]; [done|].
    injection Hf as ->. cbn. rewrite decide_False; [done|]. by intros ->.
  - rewrite replace_close_cons by (by intros [? _]). cbn. case_decide; [by apply IH|done].
Qed.
Lemma replace_close_comment s : no_comment s = true → no_comment (replace_close s) = true.
Proof.
  induction s as [|a|a b s IHb IH] using string_ind2; [done|by destruct a as [[] [] [] [] [] [] [] []]|].
  intros [Ha%bool_decide_eq_true Hs]%andb_true_iff. specialize (IHb Hs).
  destruct (decide (a = "<"%char ∧ b = "/"%char)) as [[-> ->]|Hn].
  { apply andb_true_iff in Hs as [_ Hs]. change (no_comment (replace_close s) = true). by apply IH. }
  rewrite replace_close_cons by (cbn; intros [-> [= ->]]; by apply Hn).
  change (bool_decide (strip_prefix "<!--" (String a (replace_close (String b s))) = None) && no_comment (replace_close (String b s)) = true).
  rewrite IHb, andb_true_r. apply bool_decide_eq_true. cbn [strip_prefix] in Ha |- *. case_decide; [|done].
  by apply (replace_close_dashes "!--").
Qed.
Lemma alphanumeric_no_comment s : all_chars is_ascii_alphanumeric s = true → no_comment s = true.
Proof.
  induction s as [|a s IH]; [done|]. cbn [all_chars]. intros [Ha Hs]%andb_true_iff. cbn [no_comment].
  rewrite (IH Hs), andb_true_r. apply bool_decide_eq_true. cbn [strip_prefix]. rewrite decide_False; [done|]. by intros <-.
Qed.

(** *** Literals *)

Definition cons_value (c : ascii) (p : option (string * string)) : option (string * string) :=
  '(v, r) ← p; Some (String c v, r).
Lemma cons_value_inv c p v r : cons_value c p = Some (v, r) → ∃ v', p = Some (v', r) ∧ v = String c v'.
Proof. destruct p as [[v' r']|]; [|done]. intros [= <- <-]. by exists v'. Qed.
Lemma js_chars_quote s : js_chars (String dquote s) = Some ("", s).
Proof. done. Qed.
Definition plain (a : ascii) : bool :=
  negb (Ascii.eqb a dquote || Ascii.eqb a "\" || Ascii.eqb a "010" || Ascii.eqb a "013").
Lemma js_chars_plain a s : plain a = true → js_chars (String a s) = cons_value a (js_chars s).
Proof.
  unfold plain. rewrite negb_true_iff, !orb_false_iff. intros (((H1 & H2) & H3) & H4). cbn.
  by rewrite H1, H2, H3, H4.
Qed.
Lemma js_chars_escape e c s : simple_escape e = Some c →
  js_chars (String "\" (String e s)) = cons_value c (js_chars s).
Proof. destruct e as [[] [] [] [] [] [] [] []]; try done; by intros [= <-]. Qed.
Definition ascii_escape (x y : ascii) : option ascii :=
  hi ← hex_value x; lo ← hex_value y; if hi <=? 7 then Some (ascii_of_nat (16 * hi + lo)) else None.
Lemma js_chars_unicode x y c s : ascii_escape x y = Some c →
  js_chars (String "\" (String "u" (String "0" (String "0" (String x (String y s)))))) = cons_value c (js_chars s).
Proof.
  unfold ascii_escape. cbn -[Nat.leb]. destruct (hex_value x) as [hi|]; [cbn -[Nat.leb]|done].
  destruct (hex_value y) as [lo|]; [cbn -[Nat.leb]|done].
  destruct (hi <=? 7); [|done]. intros [= <-]. by destruct (js_chars s) as [[]|].
Qed.
(** What a literal begins with. *)
Inductive js_step : string → string → option ascii → Prop :=
  | js_end s : js_step (String dquote s) s None
  | js_plain a s : plain a = true → js_step (String a s) s (Some a)
  | js_escape e c s : simple_escape e = Some c → js_step (String "\" (String e s)) s (Some c)
  | js_unicode x y c s : ascii_escape x y = Some c →
      js_step (String "\" (String "u" (String "0" (String "0" (String x (String y s)))))) s (Some c).
Lemma js_step_sound t s c : js_step t s c →
  js_chars t = match c with None => Some ("", s) | Some c => cons_value c (js_chars s) end.
Proof. intros []; [done|by apply js_chars_plain|by apply js_chars_escape|by apply js_chars_unicode]. Qed.
Lemma js_step_complete t p : js_chars t = Some p → ∃ s c, js_step t s c.
Proof.
  destruct t as [|a t]; [done|]. destruct (Ascii.eqb_spec a dquote) as [->|Hq]; [eexists _, _; constructor|].
  destruct (Ascii.eqb_spec a "\") as [->|Hb].
  - destruct t as [|e t]; [done|]. destruct (simple_escape e) as [c|] eqn:He; [intros _; by eexists _, _; eapply js_escape|].
    destruct (decide (e = "u"%char)) as [->|Hu]; [|destruct e as [[] [] [] [] [] [] [] []]; done].
    destruct t as [|z1 [|z2 [|x [|y t]]]]; [done|by destruct z1 as [[] [] [] [] [] [] [] []]| | |];
      try (destruct z1 as [[] [] [] [] [] [] [] []]; try done; destruct z2 as [[] [] [] [] [] [] [] []]; done).
    destruct (decide (z1 = "0"%char)) as [->|]; [|destruct z1 as [[] [] [] [] [] [] [] []]; done].
    destruct (decide (z2 = "0"%char)) as [->|]; [|destruct z2 as [[] [] [] [] [] [] [] []]; done].
    intros H. destruct (ascii_escape x y) as [c|] eqn:Hc; [by eexists _, _; eapply js_unicode|].
    exfalso. revert H Hc. unfold ascii_escape. cbn -[Nat.leb]. destruct (hex_value x) as [hi|]; [cbn -[Nat.leb]|done].
    destruct (hex_value y) as [lo|]; [cbn -[Nat.leb]|done]. destruct (js_chars t) as [[v r]|]; [cbn -[Nat.leb]|done]. by destruct (hi <=? 7).
  - cbn. rewrite (proj2 (Ascii.eqb_neq _ _) Hq), (proj2 (Ascii.eqb_neq _ _) Hb).
    destruct (Ascii.eqb a "010" || Ascii.eqb a "013") eqn:Hn; [done|]. intros _. eexists _, _. apply js_plain.
    unfold plain. by rewrite (proj2 (Ascii.eqb_neq _ _) Hq), (proj2 (Ascii.eqb_neq _ _) Hb), negb_true_iff, <-orb_assoc.
Qed.
Lemma js_step_shorter t s c : js_step t s c → String.length s < String.length t.
Proof. intros []; cbn; lia. Qed.
(** Reading a literal goes from step to step. *)
Lemma js_chars_ind (Q : string → string → string → Prop) :
  (∀ s, Q (String dquote s) "" s) →
  (∀ t s c v r, js_step t s (Some c) → js_chars s = Some (v, r) → Q s v r → Q t (String c v) r) →
  ∀ t v r, js_chars t = Some (v, r) → Q t v r.
Proof.
  intros Hend Hstep t. remember (String.length t) as n eqn:Hn. revert t Hn.
  induction n as [n IH] using lt_wf_ind. intros t -> v r Ht.
  destruct (js_step_complete t _ Ht) as (s & c & Hs). pose proof (js_step_sound _ _ _ Hs) as Heq. rewrite Ht in Heq.
  destruct c as [c|].
  - symmetry in Heq. apply cons_value_inv in Heq as (v' & Hv & ->).
    eapply Hstep; [done..|]. eapply IH; [by eapply js_step_shorter|done..].
  - injection Heq as -> ->. inversion Hs. subst. apply Hend.
Qed.
Lemma js_step_app t s c u : js_step t s c → js_step (t +:+ u) (s +:+ u) c.
Proof. intros []; rewrite !string_app_cons; by constructor. Qed.
Lemma js_chars_app t v r u : js_chars t = Some (v, r) → js_chars (t +:+ u) = Some (v, r +:+ u).
Proof.
  revert t v r. apply js_chars_ind; [done|]. intros t s c v r Hs _ IH.
  rewrite (js_step_sound _ _ _ (js_step_app _ _ _ u Hs)). by rewrite IH.
Qed.
Lemma escape_not_lt e c : simple_escape e = Some c → e ≠ "<"%char.
Proof. by intros H ->. Qed.
(** Escaping [</] does not change the value of a literal. *)
Lemma js_chars_replace t v r : js_chars t = Some (v, r) → js_chars (replace_close t) = Some (v, replace_close r).
Proof.
  revert t v r. apply js_chars_ind.
  { intros s. by rewrite replace_close_cons by (intros [[=] _]). }
  intros t s c v r Hs _ IH. inversion Hs as [|a s' Ha|e c' s' He|x y c' s' Hxy]; subst.
  - destruct (decide (c = "<"%char ∧ first_char s = Some "/"%char)) as [[-> Hs']|Hn].
    + destruct s as [|b s]; [done|]. injection Hs' as ->. rewrite replace_close_cons in IH by (intros [[=] _]).
      change (js_chars (String "<" (String "\" (String "/" (replace_close s)))) = Some (String "<" v, replace_close r)).
      rewrite js_chars_plain, (js_chars_escape _ "/") by done. rewrite js_chars_plain in IH by done. by rewrite IH.
    + rewrite replace_close_cons, js_chars_plain by done. by rewrite IH.
  - rewrite !replace_close_cons by (intros [H _]; first [discriminate H|by eapply escape_not_lt]).
    rewrite (js_chars_escape _ _ _ He). by rewrite IH.
  - pose proof Hxy as Hc. unfold ascii_escape in Hc. destruct (hex_value x) eqn:Hx; [|done]. cbn -[Nat.leb] in Hc.
    destruct (hex_value y) eqn:Hy; [|done].
    rewrite !replace_close_cons by (intros [H _]; first [discriminate H|by rewrite H in Hx|by rewrite H in Hy]).
    rewrite (js_chars_unicode _ _ _ _ Hxy). by rewrite IH.
Qed.

(** ** Properties *)

Lemma alphanumeric_no_close s : all_chars is_ascii_alphanumeric s = true → no_close s = true.
Proof.
  induction s as [|a s IH]; [done|]. cbn [all_chars]. intros [Ha Hs]%andb_true_iff. rewrite no_close_cons, (IH Hs), andb_true_r.
  apply negb_true_iff, bool_decide_eq_false. by intros [-> _].
Qed.
Lemma bind_some {A B} (x : A) (f : A → option B) : Some x ≫= f = f x.
Proof. done. Qed.

Section properties.
Context {J : JsonText} {JL : JsonTextLaws J}.

Lemma js_value_no_close s : no_close (js_value s) = true.
Proof. apply replace_close_no_close. Qed.
Lemma js_value_first s u : first_char (js_value s +:+ u) ≠ Some "/"%char.
Proof.
  unfold js_value. destruct (json_text_literal s) as (t & -> & _). by rewrite replace_close_cons by (intros [[=] _]).
Qed.
Lemma js_literal_value s u : js_literal (js_value s +:+ u) = Some (Some s, u).
Proof.
  unfold js_value. destruct (json_text_literal s) as (t & -> & Ht). rewrite replace_close_cons by (intros [[=] _]).
  apply js_chars_replace in Ht. apply (js_chars_app _ _ _ u) in Ht. unfold js_literal. rewrite string_app_cons.
  cbn [strip_prefix]. rewrite decide_False by done. rewrite Ascii.eqb_refl, Ht. done.
Qed.
Lemma assignment_value name pre v value u : "  window." +:+ name +:+ " = " = pre →
  (∀ u, js_literal (value +:+ u) = Some (v, u)) →
  assignment name (pre +:+ value +:+ ";" +:+ nl +:+ u) = Some (v, u).
Proof.
  intros <- Hv. unfold assignment. rewrite strip_prefix_app, bind_some, Hv, bind_some.
  by rewrite <-(string_app_assoc ";" nl u), strip_prefix_app.
Qed.
Lemma assignment_last name pre v value : "  window." +:+ name +:+ " = " = pre →
  (∀ u, js_literal (value +:+ u) = Some (v, u)) → assignment name (pre +:+ value +:+ ";" +:+ nl) = Some (v, "").
Proof. intros Hp Hv. by rewrite <-(assignment_value name pre v value "" Hp Hv), string_app_nil_r. Qed.
Lemma js_literal_configured multiaddr u :
  js_literal (match multiaddr with Some m => js_value m | None => "null" end +:+ u) = Some (multiaddr, u).
Proof. destruct multiaddr; [apply js_literal_value|done]. Qed.
Lemma page_script_no_close cid multiaddr :
  no_close (page_script (js_value cid) (match multiaddr with Some m => js_value m | None => "null" end)) = true.
Proof.
  unfold page_script. apply no_close_app; [done| |done]. apply no_close_app; [done| |apply js_value_first].
  apply no_close_app; [apply js_value_no_close| |done]. do 2 (apply no_close_app; [done| |done]).
  apply no_close_app; [done| |destruct multiaddr; [apply js_value_first|done]].
  apply no_close_app; [|done..]. destruct multiaddr; [apply js_value_no_close|done].
Qed.
Lemma js_value_comment s u : no_comment s = true → no_comment (js_value s) = true ∧ breaks (js_value s +:+ u).
Proof.
  intros Hs. unfold js_value. destruct (json_text_literal s) as (t & Ht & _). rewrite Ht.
  pose proof (replace_close_comment _ (json_text_comment _ _ Ht Hs)). split; [done|].
  by rewrite replace_close_cons by (intros [[=] _]).
Qed.
Lemma page_script_comment cid multiaddr :
  no_comment cid = true → (∀ m, multiaddr = Some m → no_comment m = true) →
  no_comment (page_script (js_value cid) (match multiaddr with Some m => js_value m | None => "null" end)) = true.
Proof.
  intros Hc Hm. set (m := match multiaddr with Some _ => _ | None => _ end).
  assert (no_comment m = true ∧ ∀ u, breaks (m +:+ u)) as [Hm' Hb].
  { unfold m. destruct multiaddr as [a|]; [|by split].
    split; [|intros u]; by apply (js_value_comment a ""), Hm || apply js_value_comment, Hm. }
  unfold page_script. apply no_comment_app; [done| |done]. apply no_comment_app; [done| |by apply js_value_comment].
  apply no_comment_app; [by apply (js_value_comment cid "")| |done]. do 2 (apply no_comment_app; [done| |done]).
  apply no_comment_app; [done| |apply Hb]. by apply no_comment_app.
Qed.
(** The script's statements read back. *)
Lemma read_page_script multiaddr cid :
  read_script (page_script (js_value cid) (match multiaddr with Some m => js_value m | None => "null" end)) = Some (Some cid, multiaddr).
Proof.
  unfold read_script, page_script.
  rewrite strip_prefix_app, bind_some, (assignment_value _ _ (Some cid)) by (done || apply js_literal_value).
  rewrite bind_some. by rewrite (assignment_last _ _ multiaddr) by (done || apply js_literal_configured).
Qed.

(** C5: What the operator configures and the visitor asks for is what the
    bundle gets.  A path that is not one to a hundred ASCII letters and digits
    is answered 400 with a fixed text.  Any other is answered with a page
    whose script is one text, in which neither [</] nor, unless the
    configured address has one, [<!--] occurs; run as JavaScript it sets the
    two variables to exactly the CID of the path and the configured address.
    So if the address has no [<!--], a browser that keeps to the HTML standard
    runs the bundle on them, and if the node starts and the directory under
    the CID can be read, the visitor sees the site pinned there.  (The code
    escapes [</] only: the standard reads on after [<!--<script>].) *)
Theorem site_page_faithful multiaddr cid :
  (looks_like_a_cid cid = false → bootstrap_page multiaddr cid = (400%Z, "<p>not a valid CID</p>")) ∧
  (looks_like_a_cid cid = true → ∃ html script,
     bootstrap_page multiaddr cid = (200%Z, html) ∧
     html = page_head +:+ script +:+ page_tail cid ∧
     no_close script = true ∧
     read_script script = Some (Some cid, multiaddr) ∧
     ((∀ m, multiaddr = Some m → no_comment m = true) →
      ∀ (B : Browser) (W : World) fuel c kids, BrowserLaws B →
       createHeliaLight = Ok () → helia_start composeHelia = Ok () → cid_parse cid = Ok c →
       stores c (Dir kids) → named (Dir kids) → depth (Dir kids) ≤ fuel → NoDup (sf_name <$> tree_files [] c (Dir kids)) →
       visit fuel html =
         Some (Ok (), site_page cid (Started composeHelia :: dials (truthy multiaddr)) (tree_files [] c (Dir kids))))).
Proof.
  unfold bootstrap_page. split; intros Hc; rewrite Hc; [done|]. eexists _, _. split; [reflexivity|].
  unfold looks_like_a_cid in Hc. apply andb_true_iff in Hc as [[Hne _]%andb_true_iff Hc].
  apply negb_true_iff, bool_decide_eq_false in Hne.
  split_and!; [reflexivity|apply page_script_no_close|apply read_page_script|].
  intros Hm B W fuel c kids HB Hl Hs Hp Hst Hnm Hd Hnd. unfold visit.
  rewrite parse_page_law, bind_some, read_page_script, bind_some; [|apply page_script_no_close| |done].
  - f_equal. unfold main, catch, try_catch. replace (truthy (Some cid)) with (Some cid) by (by destruct cid).
    by erewrite loadSite_tree.
  - by apply page_script_comment, Hm; apply alphanumeric_no_comment.
Qed.
End properties.

(** ** Witness: a JSON printer that escapes quotes, backslashes and controls *)

Definition hex_digit (n : nat) : ascii := ascii_of_nat (if n <? 10 then 48 + n else 87 + n).
Definition escape_char (a : ascii) : string :=
  let n := nat_of_ascii a in
  if Ascii.eqb a dquote || Ascii.eqb a "\" then String "\" (String a "")
  else if n <? 32 then "\u00" +:+ String (hex_digit (n / 16)) (String (hex_digit (n mod 16)) "")
  else String a "".
Fixpoint escape (s : string) : string :=
  match s with "" => String dquote "" | String a s => escape_char a +:+ escape s end.
#[local] Instance plain_json : JsonText := {| json_text := λ s, Ok (String dquote (escape s)) |}.
Lemma js_chars_escaped a s : js_chars (escape_char a +:+ s) = cons_value a (js_chars s).
Proof. destruct a as [[] [] [] [] [] [] [] []]; reflexivity. Qed.
Lemma strip_escaped pre s : all_chars (λ a, Ascii.eqb a "!" || Ascii.eqb a "-") pre = true →
  strip_prefix pre s = None → strip_prefix pre (escape s) = None.
Proof.
  revert s. induction pre as [|p pre IH]; intros s; cbn [all_chars]; [by destruct s|].
  intros [Hp Hpre]%andb_true_iff. destruct s as [|b s]; [intros _; cbn [strip_prefix escape]; rewrite decide_False; [done|by intros ->]|].
  cbn [strip_prefix]. case_decide as Hb.
  - subst b. intros Hs. assert (escape_char p = String p "") as Hpe
      by (apply orb_true_iff in Hp as [->%Ascii.eqb_eq| ->%Ascii.eqb_eq]; reflexivity).
    change (escape (String p s)) with (escape_char p +:+ escape s). rewrite Hpe, string_app_cons.
    rewrite decide_True by done. by apply IH.
  - intros _. cbn [escape]. destruct (escape_char b) as [|c u] eqn:Hu; [by destruct b as [[] [] [] [] [] [] [] []]|].
    rewrite string_app_cons. cbn [strip_prefix]. rewrite decide_False; [done|]. intros <-.
    apply orb_true_iff in Hp as [->%Ascii.eqb_eq| ->%Ascii.eqb_eq]; destruct b as [[] [] [] [] [] [] [] []]; done.
Qed.
Lemma no_comment_escape s : no_comment s = true → no_comment (escape s) = true.
Proof.
  induction s as [|a s IH]; [done|]. cbn [no_comment]. intros [Ha%bool_decide_eq_true Hs]%andb_true_iff. specialize (IH Hs).
  destruct (decide (a = "<"%char)) as [->|Hlt].
  - change (bool_decide (strip_prefix "<!--" (String "<" (escape s)) = None) && no_comment (escape s) = true).
    rewrite IH, andb_true_r. apply bool_decide_eq_true. cbn [strip_prefix] in Ha |- *. rewrite decide_True in Ha |- * by done.
    by apply (strip_escaped "!--").
  - cbn [escape]. revert IH. generalize (escape s). intros u Hu.
    destruct a as [[] [] [] [] [] [] [] []]; try done; cbn; by rewrite Hu.
Qed.
#[local] Instance plain_json_laws : JsonTextLaws plain_json.
Proof.
  split.
  - intros s. exists (escape s). split; [done|]. induction s as [|a s IH]; [done|].
    cbn [escape]. by rewrite js_chars_escaped, IH.
  - intros s t [= <-] Hs. by apply (no_comment_escape s).
Qed.

(** What precedes and what follows the first occurrence. *)
Fixpoint split_once (sep s : string) : option (string * string) :=
  match strip_prefix sep s with
  | Some rest => Some ("", rest)
  | None => match s with "" => None | String a s => '(x, y) ← split_once sep s; Some (String a x, y) end
  end.
(** A browser that ends a script, and the root element, at the first [</]. *)
Definition toy_parse (html : string) : option (string * string) :=
  '(_, after) ← split_once "<script>" html;
  '(script, after) ← split_once "</" after;
  '(_, after) ← split_once ("<div id=" +:+ in_quotes "oag-ipfs-root" +:+ ">") after;
  '(text, _) ← split_once "</" after;
  Some (script, text).
#[local] Instance toy_browser : Browser := {| parse_page := toy_parse |}.
Lemma split_once_eq sep s : split_once sep s =
  match strip_prefix sep s with
  | Some rest => Some ("", rest)
  | None => match s with "" => None | String a s => '(x, y) ← split_once sep s; Some (String a x, y) end
  end.
Proof. by destruct s. Qed.
Lemma strip_close_none a s : a ≠ "<"%char ∨ first_char s ≠ Some "/"%char → strip_prefix "</" (String a s) = None.
Proof.
  intros H. cbn. case_decide as Ha; [|done]. destruct s as [|b s]; [done|]. case_decide as Hb; [|done].
  subst. by destruct H as [H|H].
Qed.
Lemma split_close s rest : no_close s = true → split_once "</" (s +:+ "</" +:+ rest) = Some (s, rest).
Proof.
  intros Hs. induction s as [|a s IH].
  { cbn. by rewrite split_once_eq. }
  rewrite no_close_cons in Hs. apply andb_true_iff in Hs as [Ha Hs].
  apply negb_true_iff, bool_decide_eq_false in Ha. rewrite string_app_cons, split_once_eq.
  rewrite strip_close_none, (IH Hs); [done|].
  destruct (decide (a = "<"%char)) as [->|]; [right|by left]. intros Hf. destruct s as [|b s]; [done|]. by apply Ha.
Qed.
Lemma head_split x : snd <$> split_once "<script>" (page_head +:+ x) = Some x.
Proof. reflexivity. Qed.
Definition before_root : string :=
  "script>" +:+ nl +:+ "</head>" +:+ nl +:+ "<body>" +:+ nl.
Definition after_root : string :=
  "div>" +:+ nl +:+ "<script type=" +:+ in_quotes "module" +:+ " src=" +:+ in_quotes "/ipfs-site/_bundle.js" +:+ "></script>" +:+ nl +:+
  "</body>" +:+ nl +:+ "</html>" +:+ nl.
Lemma root_split x :
  snd <$> split_once ("<div id=" +:+ in_quotes "oag-ipfs-root" +:+ ">")
    (before_root +:+ "<div id=" +:+ in_quotes "oag-ipfs-root" +:+ ">" +:+ x) = Some x.
Proof. reflexivity. Qed.
Lemma loading_no_close cid : all_chars is_ascii_alphanumeric cid = true → no_close (loading cid) = true.
Proof.
  intros Hc. unfold loading. apply no_close_app; [done| |by destruct cid as [|a cid]; [|cbn in Hc; intros [= ->]]].
  apply no_close_app; [by apply alphanumeric_no_close|done..].
Qed.
#[local] Instance toy_browser_laws : BrowserLaws toy_browser.
Proof.
  split. intros script cid Hscript _ Hc. change (toy_parse (page_head +:+ script +:+ page_tail cid) = Some (script, loading cid)).
  unfold toy_parse.
  destruct (split_once "<script>" _) as [[x y]|] eqn:Hh; pose proof (head_split (script +:+ page_tail cid)) as He; rewrite Hh in He; [|done].
  injection He as ->. rewrite bind_some.
  assert (page_tail cid = "</" +:+ (before_root +:+ "<div id=" +:+ in_quotes "oag-ipfs-root" +:+ ">" +:+
            loading cid +:+ "</" +:+ after_root)) as ->.
  { unfold page_tail, before_root. by rewrite !string_app_assoc. }
  rewrite split_close by done. rewrite bind_some.
  destruct (split_once ("<div id=" +:+ _ +:+ ">") _) as [[x' y']|] eqn:Hr;
    pose proof (root_split (loading cid +:+ "</" +:+ after_root)) as He; rewrite Hr in He; [|done].
  injection He as ->. rewrite bind_some.
  by rewrite split_close by (by apply loading_no_close).
Qed.

(** The demonstration site of the bundle, with an address that tries to end
    the script. *)
Lemma site_page_faithful_witness :
  snd <$> (@visit toy_browser Demo.world 2 (bootstrap_page (Some "</script>") "root").2) =
    Some (site_page (W:=Demo.world) "root" (Started composeHelia :: @dials Demo.world (Some "</script>")) (tree_files [] ("root" : @CID Demo.world) (Dir Demo.kids))).
Proof.
  destruct (@site_page_faithful plain_json plain_json_laws (Some "</script>") "root") as [_ H].
  destruct (H eq_refl) as (html & script & -> & _ & _ & _ & Hv). cbn [snd].
  rewrite (Hv ltac:(intros ? [= <-]; reflexivity) toy_browser Demo.world 2 "root" Demo.kids toy_browser_laws).
  - reflexivity.
  - done.
  - done.
  - done.
  - apply Demo.stored.
  - cbn. repeat split; done.
  - cbn. lia.
  - apply (bool_decide_unpack _). vm_compute. exact I.
Defined.
