(* ===== verification/Envelope.v ===== *)
(** * Event payloads and the signed envelope

    [oag-events]: [payload.rs], [envelope.rs], [builder.rs] and
    [validate.rs].  The JSON forms of an event are produced by derived serde
    code and [serde_jcs]; they are the fields of the class [Codec]. *)

From stdpp Require Import pretty.
From S2P Require Import Prelude Core.

#[local] Set Warnings "-register-all".

(** ** JSON values ([serde_json::Value]); objects keep their keys sorted *)

Inductive json : Type :=
  | Null
  | Bool (b : bool)
  | PosInt (n : Z)
  | NegInt (n : Z)
  | Float (bits : Z)
  | Str (s : string)
  | Array (l : list json)
  | Object (l : list (string * json)).

(** [Map::insert] on a [BTreeMap]. *)
Fixpoint map_insert {A} (k : string) (v : A) (m : list (string * A)) : list (string * A) :=
  match m with
  | [] => [(k, v)]
  | (k', v') :: m' =>
      match String.compare k k' with
      | Lt => (k, v) :: m
      | Eq => (k, v) :: m'
      | Gt => (k', v') :: map_insert k v m'
      end
  end.

(** ** Payloads *)

Record AssertRelationPayload := {
  ar_subject_identifier : string; ar_subject_type : string;
  ar_predicate : string;
  ar_object_identifier : string; ar_object_type : string;
  ar_actor_id : string;
  ar_actor_confidence : option Z;  (** the bits of the [f32] *)
  ar_observed_at : option Z;
  ar_extraction_method : string }.
Record AddEvidencePayload := {
  ae_assertion_id : string; ae_evidence_type : string;
  ae_uri : option string; ae_title : option string; ae_excerpt : option string;
  ae_content_hash : option string;
  ae_observed_at : option Z; ae_retrieved_at : option Z;
  ae_pinned_cid : option string;
  ae_metadata : option json }.
Record VerifyAssertionPayload := {
  va_assertion_id : string; va_observer_actor_id : string;
  va_result : string; va_observed_at : Z }.
Record DisputeAssertionPayload := {
  da_disputed_assertion_id : string; da_disputing_actor_id : string;
  da_reason : option string }.
Record RetractAssertionPayload := {
  ra_retracted_assertion_id : string; ra_actor_id : string; ra_reason : option string }.
Record SupersedeAssertionPayload := {
  sa_old_assertion_id : string; sa_new_assertion_id : string; sa_actor_id : string }.
Record ActorDeclarePayload := {
  ad_actor_type : string; ad_name : option string;
  ad_public_key : option string; ad_identity_uri : option string }.
Record ActorKeyAddPayload := {
  ka_actor_id : string; ka_key_hash : string; ka_permissions : list string }.
Record ActorKeyRevokePayload := { kr_actor_id : string; kr_key_hash : string }.
Record NodeAliasPayload := { na_node_id : string; na_alias : string; na_alias_type : string }.

Inductive EventPayload :=
  | AssertRelation (p : AssertRelationPayload)
  | AddEvidence (p : AddEvidencePayload)
  | VerifyAssertion (p : VerifyAssertionPayload)
  | DisputeAssertion (p : DisputeAssertionPayload)
  | RetractAssertion (p : RetractAssertionPayload)
  | SupersedeAssertion (p : SupersedeAssertionPayload)
  | ActorDeclare (p : ActorDeclarePayload)
  | ActorKeyAdd (p : ActorKeyAddPayload)
  | ActorKeyRevoke (p : ActorKeyRevokePayload)
  | NodeAlias (p : NodeAliasPayload).

Definition type_str (p : EventPayload) : string :=
  match p with
  | AssertRelation _ => "ASSERT_RELATION"
  | AddEvidence _ => "ADD_EVIDENCE"
  | VerifyAssertion _ => "VERIFY_ASSERTION"
  | DisputeAssertion _ => "DISPUTE_ASSERTION"
  | RetractAssertion _ => "RETRACT_ASSERTION"
  | SupersedeAssertion _ => "SUPERSEDE_ASSERTION"
  | ActorDeclare _ => "ACTOR_DECLARE"
  | ActorKeyAdd _ => "ACTOR_KEY_ADD"
  | ActorKeyRevoke _ => "ACTOR_KEY_REVOKE"
  | NodeAlias _ => "NODE_ALIAS"
  end.

(** ** The envelope *)

Definition CURRENT_VERSION : Z := 1.

Record UnsignedEvent := {
  version : Z;
  origin_peer : string;
  sequence : Z;  (** a [u64] *)
  previous_event : option string;
  created_at : Z;
  payload : EventPayload }.
Record SignedEvent := {
  unsigned : UnsignedEvent;
  signature : string }.

(** ** Errors *)

Inductive sql_error :=
  | UniqueViolation (table : string)
  | ForeignKeyViolation (table : string)
  | OtherSqlError (message : string).
Inductive StorageError :=
  | Sqlx (e : sql_error)
  | BadIdLength (n : nat)
  | BadMetadata (e : string)
  | UnknownEnumValue (column value : string)
  | StorageNotFound.
Inductive EventsError :=
  | Canonicalize (e : string)
  | InvalidSignature (e : string)
  | HexError (e : string)
  | IdError (e : Hash32ParseError)
  | SequenceGap (expected got : Z)
  | PreviousEventMismatch (expected declared : option string)
  | UnknownExtractionMethod (s : string)
  | BadSignatureLength (n : nat)
  | StorageErr (e : StorageError)
  | NotFound (what : string)
  | OriginPeerId (e : PeerIdParseError)
  | OriginKeyMismatch (claimed derived : string).

(** ** JSON codecs *)

Class Codec := {
  (** [canonical_json_bytes] of an unsigned and of a signed event *)
  canonical_unsigned : UnsignedEvent → result string string;
  canonical_signed : SignedEvent → result string string;
  (** [serde_json::from_slice::<SignedEvent>], [serde_json::to_string] *)
  signed_from_slice : string → result string SignedEvent;
  signed_to_string : SignedEvent → result string string;
  (** [serde_json::to_string] and [from_str] of a JSON value *)
  json_to_string : json → result string string;
  json_from_str : string → result string json;
  (** ... of a list of strings *)
  strings_to_string : list string → result string string;
  strings_from_str : string → result string (list string)
}.

(** What the code relies on: the empty object's text reads back (it is the
    metadata of every node and actor row), and so does a list of strings. *)
Class CodecLaws `(C : Codec) : Prop := {
  empty_object_text : ∃ t, json_to_string (Object []) = Ok t ∧ json_from_str t = Ok (Object []);
  strings_text l : ∃ t, strings_to_string l = Ok t ∧ strings_from_str t = Ok l
}.

(** An event that canonical JSON represents exactly: reading its canonical
    bytes gives the event again.  (Not every value is: RFC 8785 writes the
    number 1.0 as 1, which reads back as an integer.) *)
Definition faithful `{Codec} (e : SignedEvent) : Prop :=
  ∀ t, canonical_signed e = Ok t → signed_from_slice t = Ok e.

(** ** Building and checking signed events *)

Section envelope.
Context `{P : Platform} `{C : Codec}.

(** A peer identity is its signing key. *)
Definition identity_peer_id (sk : SigningKey) : hash32 :=
  PeerId_from_public_key (verifying_key sk).

Definition build_and_sign (identity : SigningKey) (seq : Z) (previous : option hash32)
    (created : Z) (p : EventPayload) : result EventsError (SignedEvent * hash32) :=
  let unsigned := {|
    version := CURRENT_VERSION;
    origin_peer := PeerId_to_string (identity_peer_id identity);
    sequence := seq;
    previous_event := to_hex <$> previous;
    created_at := created;
    payload := p |} in
  canonical ← map_err Canonicalize (canonical_unsigned unsigned);
  let sig := sign_with_domain identity EVENT_DOMAIN canonical in
  let signed := {| unsigned := unsigned; signature := hex_encode (raw sig) |} in
  canonical_s ← map_err Canonicalize (canonical_signed signed);
  Ok (signed, EventId_derive canonical_s).

Definition verify_and_derive_id (signed : SignedEvent) (key : VerifyingKey) :
    result EventsError hash32 :=
  canonical ← map_err Canonicalize (canonical_unsigned (unsigned signed));
  decoded ← map_err HexError (hex_decode (signature signed));
  sig ← ok_or (to_array 64 decoded) (BadSignatureLength (String.length decoded));
  _ ← map_err InvalidSignature (verify_with_domain key EVENT_DOMAIN canonical sig);
  canonical_s ← map_err Canonicalize (canonical_signed signed);
  Ok (EventId_derive canonical_s).

Definition validate_chain (expected_next : Z) (expected_head : option hash32)
    (seq : Z) (previous : option hash32) : result EventsError () :=
  if negb (Z.eqb seq expected_next) then Err (SequenceGap expected_next seq)
  else if bool_decide (previous = expected_head) then Ok ()
  else Err (PreviousEventMismatch (to_hex <$> expected_head) (to_hex <$> previous)).
End envelope.

(** ** A toy codec, for the concrete examples

    Canonical forms are the fields joined by bars (the real ones are JSON);
    reading back is by a table of the events of the example. *)
Module ToyCodec.
Definition opt (o : option string) : string := default "-" o.
Fixpoint bits (p : positive) : string :=
  match p with xH => "1" | xO p => String "0" (bits p) | xI p => String "1" (bits p) end.
Definition int (z : Z) : string :=
  match z with Z0 => "0" | Zpos p => bits p | Zneg p => String "-" (bits p) end.
Definition num (o : option Z) : string := opt (int <$> o).
Definition payload_fields (p : EventPayload) : list string :=
  match p with
  | AssertRelation p => [ar_subject_identifier p; ar_subject_type p; ar_predicate p;
      ar_object_identifier p; ar_object_type p; ar_actor_id p; num (ar_actor_confidence p);
      num (ar_observed_at p); ar_extraction_method p]
  | AddEvidence p => [ae_assertion_id p; ae_evidence_type p; opt (ae_uri p); opt (ae_title p);
      opt (ae_excerpt p); opt (ae_content_hash p); num (ae_observed_at p); num (ae_retrieved_at p);
      opt (ae_pinned_cid p)]
  | VerifyAssertion p => [va_assertion_id p; va_observer_actor_id p; va_result p;
      int (va_observed_at p)]
  | DisputeAssertion p => [da_disputed_assertion_id p; da_disputing_actor_id p; opt (da_reason p)]
  | RetractAssertion p => [ra_retracted_assertion_id p; ra_actor_id p; opt (ra_reason p)]
  | SupersedeAssertion p => [sa_old_assertion_id p; sa_new_assertion_id p; sa_actor_id p]
  | ActorDeclare p => [ad_actor_type p; opt (ad_name p); opt (ad_public_key p);
      opt (ad_identity_uri p)]
  | ActorKeyAdd p => ka_actor_id p :: ka_key_hash p :: ka_permissions p
  | ActorKeyRevoke p => [kr_actor_id p; kr_key_hash p]
  | NodeAlias p => [na_node_id p; na_alias p; na_alias_type p]
  end.
Definition unsigned_text (u : UnsignedEvent) : string :=
  join "|" (int (version u) :: origin_peer u :: int (sequence u) :: opt (previous_event u)
            :: int (created_at u) :: type_str (payload u) :: payload_fields (payload u)).
Definition signed_text (e : SignedEvent) : string :=
  unsigned_text (unsigned e) +:+ "|" +:+ signature e.
Fixpoint json_text (v : json) : string :=
  match v with
  | Object [] => "{}"
  | Object l => "{" +:+ join "," ((λ kv, kv.1 +:+ ":" +:+ json_text kv.2) <$> l) +:+ "}"
  | Array l => "[" +:+ join "," (json_text <$> l) +:+ "]"
  | Str s => s
  | PosInt n | NegInt n => int n
  | Float b => "f" +:+ int b
  | Bool b => if b then "true" else "false"
  | Null => "null"
  end.

(** A list of strings: each character after a mark, each string ended. *)
Fixpoint marked (s : string) : string :=
  match s with "" => "." | String a s => String "c" (String a (marked s)) end.
Fixpoint strings_text (l : list string) : string :=
  match l with [] => "" | s :: l => marked s +:+ strings_text l end.
Fixpoint unmark (s : string) : option (list string) :=
  match s with
  | "" => Some []
  | String "." s => cons "" <$> unmark s
  | String "c" (String a s) =>
      match unmark s with Some (w :: l) => Some (String a w :: l) | _ => None end
  | _ => None
  end.
Lemma unmark_text l : unmark (strings_text l) = Some l.
Proof.
  induction l as [|s l IH]; [done|]. cbn [strings_text].
  induction s as [|a s IHs]; cbn [marked].
  - change ("." +:+ strings_text l) with (String "." (strings_text l)). cbn. by rewrite IH.
  - rewrite !string_app_cons. cbn [unmark]. by rewrite IHs.
Qed.

Definition codec (table : list SignedEvent) : Codec := {|
  canonical_unsigned := λ u, Ok (unsigned_text u);
  canonical_signed := λ e, Ok (signed_text e);
  signed_from_slice := λ t, ok_or (snd <$> list_find (λ e, signed_text e = t) table) "bad JSON";
  signed_to_string := λ e, Ok (signed_text e);
  json_to_string := λ v, Ok (json_text v);
  json_from_str := λ t, if decide (t = "{}") then Ok (Object []) else Ok (Str t);
  strings_to_string := λ l, Ok (strings_text l);
  strings_from_str := λ t, ok_or (unmark t) "bad JSON" |}.

#[export] Instance codec_laws table : CodecLaws (codec table).
Proof.
  split.
  - by exists "{}".
  - intros l. exists (strings_text l). split; [done|]. cbn. by rewrite unmark_text.
Qed.
End ToyCodec.
