(* ===== verification/Store.v ===== *)
(** * The SQLite store

    [oag-storage]: the tables of [migrations/] and the repository functions
    of [repo/].  A table is a finite map from its primary key to its row
    (the event log a list, in [rowid] order); a repository function is a
    transaction step on the whole database.  [PRAGMA foreign_keys] is on:
    [INSERT OR IGNORE] skips a duplicate key, but a foreign key violation is
    an error in either form of [INSERT].  The [schema_version] columns, which
    no repository function but the version migrations writes, are left to the
    file [Versioning]. *)

From S2P Require Import Prelude Core Envelope.

(** ** Rows *)

Record event_row := EventRow {
  er_event_id : hash32; er_origin_peer_id : hash32; er_sequence : Z;
  er_previous_event_id : option hash32; er_event_type : string;
  er_canonical_payload : string; er_created_at : Z; er_signature : string;
  er_received_at : Z }.
Record origin_row := OriginRow {
  or_highest_contiguous : Z; or_highest_seen : Z; or_head : option hash32 }.
Record node_row := NodeRow {
  nr_node_type : string; nr_canonical_identifier : string;
  nr_canonical_uri : option string; nr_name : option string;
  nr_description : option string; nr_metadata : string; nr_created_at : Z }.
Record alias_row := AliasRow {
  al_alias_type : string; al_source_assertion : option hash32 }.
Record edge_row := EdgeRow {
  ed_subject : hash32; ed_predicate : string; ed_object : hash32; ed_created_at : Z }.
Record actor_row := ActorRow {
  at_actor_type : string; at_name : option string; at_public_key : option (bytes 32);
  at_identity_uri : option string; at_metadata : string; at_created_at : Z }.
Record key_row := KeyRow {
  kr_actor : hash32; kr_permissions : string; kr_created_at : Z; kr_revoked_at : option Z }.
Record assertion_row := AssertionRow {
  as_edge_id : hash32; as_actor_id : hash32; as_actor_confidence : option Z;
  as_observed_at : option Z; as_asserted_at : Z; as_extraction_method : string;
  as_status : string }.
Record evidence_row := EvidenceRow {
  ev_assertion_id : hash32; ev_evidence_type : string; ev_uri : option string;
  ev_title : option string; ev_excerpt : option string; ev_content_hash : option string;
  ev_observed_at : option Z; ev_retrieved_at : option Z; ev_metadata : string }.
Record observation_row := ObservationRow {
  ob_assertion_id : hash32; ob_observer : hash32; ob_result : string;
  ob_observed_at : Z; ob_created_at : Z }.
Record dispute_row := DisputeRow {
  di_assertion_id : hash32; di_actor_id : hash32; di_reason : option string; di_created_at : Z }.
Record retraction_row := RetractionRow {
  re_assertion_id : hash32; re_actor_id : hash32; re_reason : option string; re_created_at : Z }.
Record supersession_row := SupersessionRow {
  su_old : hash32; su_new : hash32; su_actor_id : hash32; su_created_at : Z }.
Record peer_row := PeerRow {
  pe_public_key : bytes 32; pe_name : option string; pe_first_seen : Z;
  pe_last_seen : option Z; pe_forked : bool }.
Record fork_row := ForkRow {
  fo_event_id_a : hash32; fo_event_id_b : hash32; fo_detected_at : Z;
  fo_event_b_signed_json : string }.

Record presence_row := PresenceRow {
  pr_session_started_at : Z; pr_last_heartbeat_at : Z; pr_status : string }.
Record offline_row := OfflineRow { of_announced_at : Z; of_from_peer_id : hash32 }.
Record claim_row := ClaimRow { cl_cluster : string; cl_declared_at : Z }.
Record tensor_pad_row := TensorPadRow { tp_pad_values : string; tp_updated_at : Z }.

(** ** The database: the event log, the tables derived from it, what is known
    about other peers, and the operator's own decisions *)

Record event_log := EventLog {
  events : list event_row;
  event_refs : gset (string * hash32 * hash32);
  event_origins : gmap hash32 origin_row }.
Record projection := Projection {
  nodes : gmap hash32 node_row;
  node_aliases : gmap (hash32 * string) alias_row;
  edges : gmap hash32 edge_row;
  actors : gmap hash32 actor_row;
  actor_keys : gmap hash32 key_row;
  assertions : gmap hash32 assertion_row;
  evidence : gmap hash32 evidence_row;
  observations : gmap hash32 observation_row;
  assertion_disputes : gmap hash32 dispute_row;
  assertion_retractions : gmap hash32 retraction_row;
  assertion_supersessions : gmap hash32 supersession_row }.
Record peer_tables := PeerTables {
  peers : gmap hash32 peer_row;
  peer_addresses : gset (hash32 * string);
  peer_forks : gmap (hash32 * Z) fork_row;
  peer_known_heads : gmap (hash32 * hash32) (Z * Z);
  peer_presence : gmap hash32 presence_row;
  address_going_offline : gmap string offline_row;
  peer_cluster_claims : gmap hash32 claim_row;
  tensor_pads : gmap hash32 tensor_pad_row }.
Record decisions := Decisions {
  redactions : gmap hash32 (Z * option string);
  actor_redactions : gmap hash32 (Z * option string);
  search_suppressions : gmap hash32 Z }.
Record db := Db {
  log : event_log;
  proj : projection;
  net : peer_tables;
  ops : decisions }.

Definition on_events f (x : event_log) : event_log :=
  {| events := f (events x); event_refs := event_refs x; event_origins := event_origins x |}.
Definition on_event_refs f (x : event_log) : event_log :=
  {| events := events x; event_refs := f (event_refs x); event_origins := event_origins x |}.
Definition on_event_origins f (x : event_log) : event_log :=
  {| events := events x; event_refs := event_refs x; event_origins := f (event_origins x) |}.
Definition on_nodes f (x : projection) : projection :=
  {| nodes := f (nodes x); node_aliases := node_aliases x; edges := edges x; actors := actors x;
     actor_keys := actor_keys x; assertions := assertions x; evidence := evidence x;
     observations := observations x; assertion_disputes := assertion_disputes x;
     assertion_retractions := assertion_retractions x; assertion_supersessions :=
     assertion_supersessions x |}.
Definition on_node_aliases f (x : projection) : projection :=
  {| nodes := nodes x; node_aliases := f (node_aliases x); edges := edges x; actors := actors x;
     actor_keys := actor_keys x; assertions := assertions x; evidence := evidence x;
     observations := observations x; assertion_disputes := assertion_disputes x;
     assertion_retractions := assertion_retractions x; assertion_supersessions :=
     assertion_supersessions x |}.
Definition on_edges f (x : projection) : projection :=
  {| nodes := nodes x; node_aliases := node_aliases x; edges := f (edges x); actors := actors x;
     actor_keys := actor_keys x; assertions := assertions x; evidence := evidence x;
     observations := observations x; assertion_disputes := assertion_disputes x;
     assertion_retractions := assertion_retractions x; assertion_supersessions :=
     assertion_supersessions x |}.
Definition on_actors f (x : projection) : projection :=
  {| nodes := nodes x; node_aliases := node_aliases x; edges := edges x; actors := f (actors x);
     actor_keys := actor_keys x; assertions := assertions x; evidence := evidence x;
     observations := observations x; assertion_disputes := assertion_disputes x;
     assertion_retractions := assertion_retractions x; assertion_supersessions :=
     assertion_supersessions x |}.
Definition on_actor_keys f (x : projection) : projection :=
  {| nodes := nodes x; node_aliases := node_aliases x; edges := edges x; actors := actors x;
     actor_keys := f (actor_keys x); assertions := assertions x; evidence := evidence x;
     observations := observations x; assertion_disputes := assertion_disputes x;
     assertion_retractions := assertion_retractions x; assertion_supersessions :=
     assertion_supersessions x |}.
Definition on_assertions f (x : projection) : projection :=
  {| nodes := nodes x; node_aliases := node_aliases x; edges := edges x; actors := actors x;
     actor_keys := actor_keys x; assertions := f (assertions x); evidence := evidence x;
     observations := observations x; assertion_disputes := assertion_disputes x;
     assertion_retractions := assertion_retractions x; assertion_supersessions :=
     assertion_supersessions x |}.
Definition on_evidence f (x : projection) : projection :=
  {| nodes := nodes x; node_aliases := node_aliases x; edges := edges x; actors := actors x;
     actor_keys := actor_keys x; assertions := assertions x; evidence := f (evidence x);
     observations := observations x; assertion_disputes := assertion_disputes x;
     assertion_retractions := assertion_retractions x; assertion_supersessions :=
     assertion_supersessions x |}.
Definition on_observations f (x : projection) : projection :=
  {| nodes := nodes x; node_aliases := node_aliases x; edges := edges x; actors := actors x;
     actor_keys := actor_keys x; assertions := assertions x; evidence := evidence x;
     observations := f (observations x); assertion_disputes := assertion_disputes x;
     assertion_retractions := assertion_retractions x; assertion_supersessions :=
     assertion_supersessions x |}.
Definition on_assertion_disputes f (x : projection) : projection :=
  {| nodes := nodes x; node_aliases := node_aliases x; edges := edges x; actors := actors x;
     actor_keys := actor_keys x; assertions := assertions x; evidence := evidence x;
     observations := observations x; assertion_disputes := f (assertion_disputes x);
     assertion_retractions := assertion_retractions x; assertion_supersessions :=
     assertion_supersessions x |}.
Definition on_assertion_retractions f (x : projection) : projection :=
  {| nodes := nodes x; node_aliases := node_aliases x; edges := edges x; actors := actors x;
     actor_keys := actor_keys x; assertions := assertions x; evidence := evidence x;
     observations := observations x; assertion_disputes := assertion_disputes x;
     assertion_retractions := f (assertion_retractions x); assertion_supersessions :=
     assertion_supersessions x |}.
Definition on_assertion_supersessions f (x : projection) : projection :=
  {| nodes := nodes x; node_aliases := node_aliases x; edges := edges x; actors := actors x;
     actor_keys := actor_keys x; assertions := assertions x; evidence := evidence x;
     observations := observations x; assertion_disputes := assertion_disputes x;
     assertion_retractions := assertion_retractions x; assertion_supersessions := f
     (assertion_supersessions x) |}.
Definition on_peers f (x : peer_tables) : peer_tables :=
  {| peers := f (peers x);
     peer_addresses := peer_addresses x;
     peer_forks := peer_forks x;
     peer_known_heads := peer_known_heads x;
     peer_presence := peer_presence x;
     address_going_offline := address_going_offline x;
     peer_cluster_claims := peer_cluster_claims x;
     tensor_pads := tensor_pads x |}.
Definition on_peer_addresses f (x : peer_tables) : peer_tables :=
  {| peers := peers x;
     peer_addresses := f (peer_addresses x);
     peer_forks := peer_forks x;
     peer_known_heads := peer_known_heads x;
     peer_presence := peer_presence x;
     address_going_offline := address_going_offline x;
     peer_cluster_claims := peer_cluster_claims x;
     tensor_pads := tensor_pads x |}.
Definition on_peer_forks f (x : peer_tables) : peer_tables :=
  {| peers := peers x;
     peer_addresses := peer_addresses x;
     peer_forks := f (peer_forks x);
     peer_known_heads := peer_known_heads x;
     peer_presence := peer_presence x;
     address_going_offline := address_going_offline x;
     peer_cluster_claims := peer_cluster_claims x;
     tensor_pads := tensor_pads x |}.
Definition on_peer_known_heads f (x : peer_tables) : peer_tables :=
  {| peers := peers x;
     peer_addresses := peer_addresses x;
     peer_forks := peer_forks x;
     peer_known_heads := f (peer_known_heads x);
     peer_presence := peer_presence x;
     address_going_offline := address_going_offline x;
     peer_cluster_claims := peer_cluster_claims x;
     tensor_pads := tensor_pads x |}.
Definition on_peer_presence f (x : peer_tables) : peer_tables :=
  {| peers := peers x;
     peer_addresses := peer_addresses x;
     peer_forks := peer_forks x;
     peer_known_heads := peer_known_heads x;
     peer_presence := f (peer_presence x);
     address_going_offline := address_going_offline x;
     peer_cluster_claims := peer_cluster_claims x;
     tensor_pads := tensor_pads x |}.
Definition on_address_going_offline f (x : peer_tables) : peer_tables :=
  {| peers := peers x;
     peer_addresses := peer_addresses x;
     peer_forks := peer_forks x;
     peer_known_heads := peer_known_heads x;
     peer_presence := peer_presence x;
     address_going_offline := f (address_going_offline x);
     peer_cluster_claims := peer_cluster_claims x;
     tensor_pads := tensor_pads x |}.
Definition on_peer_cluster_claims f (x : peer_tables) : peer_tables :=
  {| peers := peers x;
     peer_addresses := peer_addresses x;
     peer_forks := peer_forks x;
     peer_known_heads := peer_known_heads x;
     peer_presence := peer_presence x;
     address_going_offline := address_going_offline x;
     peer_cluster_claims := f (peer_cluster_claims x);
     tensor_pads := tensor_pads x |}.
Definition on_tensor_pads f (x : peer_tables) : peer_tables :=
  {| peers := peers x;
     peer_addresses := peer_addresses x;
     peer_forks := peer_forks x;
     peer_known_heads := peer_known_heads x;
     peer_presence := peer_presence x;
     address_going_offline := address_going_offline x;
     peer_cluster_claims := peer_cluster_claims x;
     tensor_pads := f (tensor_pads x) |}.
Definition on_redactions f (x : decisions) : decisions :=
  {| redactions := f (redactions x); actor_redactions := actor_redactions x; search_suppressions
     := search_suppressions x |}.
Definition on_actor_redactions f (x : decisions) : decisions :=
  {| redactions := redactions x; actor_redactions := f (actor_redactions x); search_suppressions
     := search_suppressions x |}.
Definition on_search_suppressions f (x : decisions) : decisions :=
  {| redactions := redactions x; actor_redactions := actor_redactions x; search_suppressions :=
     f (search_suppressions x) |}.
Definition on_log f (x : db) : db :=
  {| log := f (log x); proj := proj x; net := net x; ops := ops x |}.
Definition on_proj f (x : db) : db :=
  {| log := log x; proj := f (proj x); net := net x; ops := ops x |}.
Definition on_net f (x : db) : db :=
  {| log := log x; proj := proj x; net := f (net x); ops := ops x |}.
Definition on_ops f (x : db) : db :=
  {| log := log x; proj := proj x; net := net x; ops := f (ops x) |}.

Definition empty_projection : projection := Projection ∅ ∅ ∅ ∅ ∅ ∅ ∅ ∅ ∅ ∅ ∅.
Definition empty_db : db :=
  Db (EventLog [] ∅ ∅) empty_projection (PeerTables ∅ ∅ ∅ ∅ ∅ ∅ ∅ ∅) (Decisions ∅ ∅ ∅).

(** ** Domain objects *)

Record Node := {
  n_id : hash32; n_type : string; n_canonical_identifier : string;
  n_canonical_uri : option string; n_name : option string; n_description : option string;
  n_metadata : json; n_created_at : Z }.
Record NodeAliasT := {
  na_node : hash32; na_text : string; na_type : AliasType; na_source : option hash32 }.
Record Edge := {
  e_id : hash32; e_subject : hash32; e_predicate : string; e_object : hash32; e_created_at : Z }.
Record Assertion := {
  a_id : hash32; a_edge_id : hash32; a_actor_id : hash32; a_actor_confidence : option Z;
  a_observed_at : option Z; a_asserted_at : Z; a_extraction_method : ExtractionMethod;
  a_status : AssertionStatus }.
Record Evidence := {
  v_id : hash32; v_assertion_id : hash32; v_type : EvidenceType; v_uri : option string;
  v_title : option string; v_excerpt : option string; v_content_hash : option string;
  v_observed_at : option Z; v_retrieved_at : option Z; v_metadata : json }.
Record Actor := {
  t_id : hash32; t_type : ActorType; t_name : option string; t_public_key : option (bytes 32);
  t_identity_uri : option string; t_metadata : json; t_created_at : Z }.
Record AuthenticatedKey := { ak_actor_id : hash32; ak_permissions : list Permission }.

(** ** SQL statements *)

Abbreviation tx := (stm db StorageError).

Definition has `{Countable K} {A} (k : K) (m : gmap K A) : bool := bool_decide (is_Some (m !! k)).

(** [INSERT]: [free] says no row has the new row's keys, [fk] that what it
    references exists. *)
Definition insert_into (table : string) (free fk : bool) (f : db → db) : tx () :=
  if negb free then throw (Sqlx (UniqueViolation table))
  else if negb fk then throw (Sqlx (ForeignKeyViolation table))
  else modify f.
(** [INSERT OR IGNORE]; the result says whether a row was inserted. *)
Definition insert_or_ignore (table : string) (free fk : bool) (f : db → db) : tx bool :=
  if negb free then mret false
  else if negb fk then throw (Sqlx (ForeignKeyViolation table))
  else _ ← modify f; mret true.
(** [DELETE FROM table]; [referenced] says some other row still refers to it. *)
Definition delete_all (table : string) (referenced : bool) (f : db → db) : tx () :=
  if referenced then throw (Sqlx (ForeignKeyViolation table)) else modify f.
(** [UPDATE ... WHERE key = k]; the result says whether a row was updated. *)
Definition update_row {A} (row : option A) (f : A → db → db) : tx bool :=
  match row with Some r => _ ← modify (f r); mret true | None => mret false end.

Section repo.
Context `{P : Platform} `{C : Codec}.

Definition to_text (v : json) : result StorageError string := map_err BadMetadata (json_to_string v).
Definition of_text (s : string) : result StorageError json := map_err BadMetadata (json_from_str s).
Definition parse_column {A} `{TextEnum A} (column s : string) : result StorageError A :=
  ok_or (parse s) (UnknownEnumValue column s).

(** SQLite has no NaN: a NaN is stored as NULL. *)
Definition f32_is_nan (bits : Z) : bool := Z.ltb 0x7F800000 (Z.land bits 0x7FFFFFFF).
Definition bind_f32 (c : option Z) : option Z :=
  c ≫= λ b, if f32_is_nan b then None else Some b.

(** *** [repo/nodes.rs] *)

Definition row_to_node (id : hash32) (r : node_row) : result StorageError Node :=
  md ← of_text (nr_metadata r);
  Ok {| n_id := id; n_type := NodeType_new (nr_node_type r);
        n_canonical_identifier := nr_canonical_identifier r;
        n_canonical_uri := nr_canonical_uri r; n_name := nr_name r;
        n_description := nr_description r; n_metadata := md; n_created_at := nr_created_at r |}.
Definition nodes_get_by_id (id : hash32) : tx (option Node) :=
  d ← get; lift (transpose (row_to_node id <$> (nodes (proj d) !! id))).
Definition nodes_insert_if_missing (n : Node) : tx () :=
  md ← lift (to_text (n_metadata n));
  d ← get;
  let free := negb (has (n_id n) (nodes (proj d))) &&
    forallb (λ kr : hash32 * node_row,
               negb (bool_decide (nr_canonical_identifier kr.2 = n_canonical_identifier n)))
            (map_to_list (nodes (proj d))) in
  _ ← insert_or_ignore "nodes" free true (on_proj (on_nodes <[n_id n := NodeRow (n_type n)
        (n_canonical_identifier n) (n_canonical_uri n) (n_name n) (n_description n) md
        (n_created_at n)]>));
  mret ().
Definition nodes_insert_alias (a : NodeAliasT) : tx () :=
  d ← get;
  _ ← insert_or_ignore "node_aliases" (negb (has (na_node a, na_text a) (node_aliases (proj d))))
        (has (na_node a) (nodes (proj d)))
        (on_proj (on_node_aliases <[(na_node a, na_text a) :=
           AliasRow (as_str (na_type a)) (na_source a)]>));
  mret ().

(** *** [repo/edges.rs] *)

Definition edges_insert_if_missing (e : Edge) : tx () :=
  d ← get;
  _ ← insert_or_ignore "edges" (negb (has (e_id e) (edges (proj d))))
        (has (e_subject e) (nodes (proj d)) && has (e_object e) (nodes (proj d)))
        (on_proj (on_edges <[e_id e :=
           EdgeRow (e_subject e) (e_predicate e) (e_object e) (e_created_at e)]>));
  mret ().

(** *** [repo/assertions.rs] *)

Definition row_to_assertion (id : hash32) (r : assertion_row) : result StorageError Assertion :=
  method ← parse_column "extraction_method" (as_extraction_method r);
  status ← parse_column "status" (as_status r);
  Ok {| a_id := id; a_edge_id := as_edge_id r; a_actor_id := as_actor_id r;
        a_actor_confidence := as_actor_confidence r; a_observed_at := as_observed_at r;
        a_asserted_at := as_asserted_at r; a_extraction_method := method; a_status := status |}.
Definition assertions_insert (a : Assertion) : tx () :=
  d ← get;
  insert_into "assertions" (negb (has (a_id a) (assertions (proj d))))
    (has (a_edge_id a) (edges (proj d)) && has (a_actor_id a) (actors (proj d)))
    (on_proj (on_assertions <[a_id a := AssertionRow (a_edge_id a) (a_actor_id a)
       (bind_f32 (a_actor_confidence a)) (a_observed_at a) (a_asserted_at a)
       (as_str (a_extraction_method a)) (as_str (a_status a))]>)).
Definition assertions_get_by_id (id : hash32) : tx (option Assertion) :=
  d ← get; lift (transpose (row_to_assertion id <$> (assertions (proj d) !! id))).
Definition assertions_set_status (id : hash32) (s : AssertionStatus) : tx () :=
  d ← get;
  _ ← update_row (assertions (proj d) !! id) (λ r, on_proj (on_assertions <[id :=
        AssertionRow (as_edge_id r) (as_actor_id r) (as_actor_confidence r) (as_observed_at r)
          (as_asserted_at r) (as_extraction_method r) (as_str s)]>));
  mret ().
Definition row_to_evidence (id : hash32) (r : evidence_row) : result StorageError Evidence :=
  type ← parse_column "evidence_type" (ev_evidence_type r);
  md ← of_text (ev_metadata r);
  Ok {| v_id := id; v_assertion_id := ev_assertion_id r; v_type := type; v_uri := ev_uri r;
        v_title := ev_title r; v_excerpt := ev_excerpt r; v_content_hash := ev_content_hash r;
        v_observed_at := ev_observed_at r; v_retrieved_at := ev_retrieved_at r; v_metadata := md |}.
Definition assertions_insert_evidence (e : Evidence) : tx () :=
  md ← lift (to_text (v_metadata e));
  d ← get;
  insert_into "evidence" (negb (has (v_id e) (evidence (proj d))))
    (has (v_assertion_id e) (assertions (proj d)))
    (on_proj (on_evidence <[v_id e := EvidenceRow (v_assertion_id e) (as_str (v_type e))
       (v_uri e) (v_title e) (v_excerpt e) (v_content_hash e) (v_observed_at e)
       (v_retrieved_at e) md]>)).
Definition redacted_evidence (r : evidence_row) : evidence_row :=
  EvidenceRow (ev_assertion_id r) (ev_evidence_type r) (ev_uri r) None None
    (ev_content_hash r) (ev_observed_at r) (ev_retrieved_at r) (ev_metadata r).
Definition assertions_redact_evidence (id : hash32) : tx bool :=
  d ← get;
  update_row (evidence (proj d) !! id) (λ r, on_proj (on_evidence <[id := redacted_evidence r]>)).
Definition assertions_insert_dispute (id assertion actor : hash32) (reason : option string)
    (created : Z) : tx () :=
  d ← get;
  insert_into "assertion_disputes" (negb (has id (assertion_disputes (proj d))))
    (has assertion (assertions (proj d)) && has actor (actors (proj d)))
    (on_proj (on_assertion_disputes <[id := DisputeRow assertion actor reason created]>)).
Definition assertions_insert_retraction (id assertion actor : hash32) (reason : option string)
    (created : Z) : tx () :=
  d ← get;
  insert_into "assertion_retractions" (negb (has id (assertion_retractions (proj d))))
    (has assertion (assertions (proj d)) && has actor (actors (proj d)))
    (on_proj (on_assertion_retractions <[id := RetractionRow assertion actor reason created]>)).
Definition assertions_insert_supersession (id old new actor : hash32) (created : Z) : tx () :=
  d ← get;
  insert_into "assertion_supersessions" (negb (has id (assertion_supersessions (proj d))))
    (has old (assertions (proj d)) && has new (assertions (proj d)) && has actor (actors (proj d)))
    (on_proj (on_assertion_supersessions <[id := SupersessionRow old new actor created]>)).
Definition assertions_insert_observation (id assertion observer : hash32) (res : string)
    (observed created : Z) : tx () :=
  d ← get;
  insert_into "observations" (negb (has id (observations (proj d))))
    (has assertion (assertions (proj d)) && has observer (actors (proj d)))
    (on_proj (on_observations <[id := ObservationRow assertion observer res observed created]>)).

(** *** [repo/actors.rs] *)

Definition row_to_actor (id : hash32) (r : actor_row) : result StorageError Actor :=
  type ← parse_column "actor_type" (at_actor_type r);
  md ← of_text (at_metadata r);
  Ok {| t_id := id; t_type := type; t_name := at_name r; t_public_key := at_public_key r;
        t_identity_uri := at_identity_uri r; t_metadata := md; t_created_at := at_created_at r |}.
Definition actors_insert (a : Actor) : tx () :=
  md ← lift (to_text (t_metadata a));
  d ← get;
  _ ← insert_or_ignore "actors" (negb (has (t_id a) (actors (proj d)))) true
        (on_proj (on_actors <[t_id a := ActorRow (as_str (t_type a)) (t_name a) (t_public_key a)
           (t_identity_uri a) md (t_created_at a)]>));
  mret ().
Definition actors_get_by_id (id : hash32) : tx (option Actor) :=
  d ← get; lift (transpose (row_to_actor id <$> (actors (proj d) !! id))).
Definition redacted_actor (r : actor_row) : actor_row :=
  ActorRow (at_actor_type r) (at_name r) (at_public_key r) None (at_metadata r) (at_created_at r).
Definition actors_redact_identity_uri (id : hash32) : tx bool :=
  d ← get;
  update_row (actors (proj d) !! id) (λ r, on_proj (on_actors <[id := redacted_actor r]>)).
Definition actors_create_key (key_hash actor : hash32) (permissions : list Permission)
    (created : Z) : tx () :=
  text ← lift (map_err BadMetadata (strings_to_string (as_str <$> permissions)));
  d ← get;
  insert_into "actor_keys" (negb (has key_hash (actor_keys (proj d))))
    (has actor (actors (proj d)))
    (on_proj (on_actor_keys <[key_hash := KeyRow actor text created None]>)).
Definition actors_find_active_key (key_hash : hash32) : tx (option AuthenticatedKey) :=
  d ← get;
  match actor_keys (proj d) !! key_hash with
  | Some r =>
      match kr_revoked_at r with
      | Some _ => mret None
      | None =>
          strs ← lift (map_err BadMetadata (strings_from_str (kr_permissions r)));
          mret (Some {| ak_actor_id := kr_actor r; ak_permissions := omap parse strs |})
      end
  | None => mret None
  end.
Definition actors_revoke_key (key_hash : hash32) (revoked_at : Z) : tx bool :=
  d ← get;
  match actor_keys (proj d) !! key_hash with
  | Some (KeyRow actor perms created None) =>
      update_row (Some ()) (λ _, on_proj (on_actor_keys
        <[key_hash := KeyRow actor perms created (Some revoked_at)]>))
  | _ => mret false
  end.
End repo.

(** ** [repo/events.rs] *)

(** A constructor of the row the transaction binds; [received_at] aside these
    are the fields of [StoredEvent]. *)
Definition same_key (a b : event_row) : bool :=
  bool_decide (er_event_id a = er_event_id b) ||
  bool_decide ((er_origin_peer_id a, er_sequence a) = (er_origin_peer_id b, er_sequence b)).
Definition insert_event (e : event_row) : tx bool :=
  d ← get;
  insert_or_ignore "events" (forallb (λ e', negb (same_key e e')) (events (log d))) true
    (on_log (on_events (λ l, l ++ [e]))).
Definition events_get_by_id (id : hash32) : tx (option event_row) :=
  gets (λ d, head (filter (λ e, er_event_id e = id) (events (log d)))).
Definition get_origin (origin : hash32) : tx (option origin_row) :=
  gets (λ d, event_origins (log d) !! origin).
Definition advance_origin (origin : hash32) (seq : Z) (head : hash32) : tx () :=
  modify (on_log (on_event_origins <[origin := OriginRow seq seq (Some head)]>)).
Definition has_event (id : hash32) (d : db) : bool :=
  existsb (λ e, bool_decide (er_event_id e = id)) (events (log d)).
Definition add_ref (id : hash32) (ref_type : string) (ref_id : hash32) : tx () :=
  d ← get;
  _ ← insert_or_ignore "event_refs" (negb (bool_decide ((ref_type, ref_id, id) ∈ event_refs (log d))))
        (has_event id d) (on_log (on_event_refs (union {[(ref_type, ref_id, id)]})));
  mret ().
Definition find_event_id_at (origin : hash32) (seq : Z) : tx (option hash32) :=
  gets (λ d, er_event_id <$>
    head (filter (λ e, (er_origin_peer_id e, er_sequence e) = (origin, seq)) (events (log d)))).
(** [ORDER BY sequence]. *)
#[local] Instance by_sequence_dec : RelDecision (λ a b, (er_sequence a ≤ er_sequence b)%Z) :=
  λ a b, Z_le_dec (er_sequence a) (er_sequence b).
Definition list_range (origin : hash32) (from to : Z) : tx (list event_row) :=
  gets (λ d, merge_sort (λ a b, (er_sequence a ≤ er_sequence b)%Z)
    (filter (λ e, er_origin_peer_id e = origin ∧ (from ≤ er_sequence e ∧ er_sequence e ≤ to)%Z)
       (events (log d)))).
Definition list_all_in_insertion_order : tx (list event_row) := gets (λ d, events (log d)).
Definition list_all_origins : tx (list (hash32 * origin_row)) :=
  gets (λ d, map_to_list (event_origins (log d))).

(** ** [repo/peers.rs] and [repo/replication.rs] *)

Definition upsert_peer (peer : hash32) (key : bytes 32) (name : option string) (seen : Z) : tx () :=
  modify (on_net (on_peers (λ m,
    <[peer := match m !! peer with
              | None => PeerRow key name seen (Some seen) false
              | Some r => PeerRow (pe_public_key r)
                            (match name with Some n => Some n | None => pe_name r end)
                            (pe_first_seen r) (Some seen) (pe_forked r)
              end]> m))).
Definition get_peer (peer : hash32) : tx (option peer_row) := gets (λ d, peers (net d) !! peer).
Definition count_peers : tx Z := gets (λ d, Z.of_nat (size (peers (net d)))).
Definition add_address (peer : hash32) (address : string) : tx () :=
  d ← get;
  _ ← insert_or_ignore "peer_addresses" (negb (bool_decide ((peer, address) ∈ peer_addresses (net d))))
        (has peer (peers (net d))) (on_net (on_peer_addresses (union {[(peer, address)]})));
  mret ().
Definition remove_peer (peer : hash32) : tx () :=
  _ ← modify (on_net (on_peer_addresses (filter (λ a, a.1 ≠ peer))));
  modify (on_net (on_peers (delete peer))).
Definition mark_forked (peer : hash32) : tx () :=
  modify (on_net (on_peers (λ m,
    match m !! peer with
    | None => m
    | Some r => <[peer := PeerRow (pe_public_key r) (pe_name r) (pe_first_seen r)
                            (pe_last_seen r) true]> m
    end))).
Definition record_fork (peer : hash32) (seq : Z) (event_id_a event_id_b : hash32) (detected : Z)
    (event_b_signed_json : string) : tx () :=
  d ← get;
  _ ← insert_or_ignore "peer_forks" (negb (has (peer, seq) (peer_forks (net d)))) true
        (on_net (on_peer_forks <[(peer, seq) :=
           ForkRow event_id_a event_id_b detected event_b_signed_json]>));
  mret ().
Definition upsert_known_head (peer origin : hash32) (seq observed : Z) : tx () :=
  modify (on_net (on_peer_known_heads <[(peer, origin) := (seq, observed)]>)).

Definition by_first_seen (a b : hash32 * peer_row) : Prop := (pe_first_seen a.2 ≤ pe_first_seen b.2)%Z.
#[export] Instance by_first_seen_dec : RelDecision by_first_seen :=
  λ a b, Z_le_dec (pe_first_seen a.2) (pe_first_seen b.2).
(** [ORDER BY first_seen]. *)
Definition list_peers : tx (list (hash32 * peer_row)) :=
  gets (λ d, merge_sort by_first_seen (map_to_list (peers (net d)))).
(** In no particular order. *)
Definition list_addresses (peer : hash32) : tx (list string) :=
  gets (λ d, (elements (filter (λ a : hash32 * string, a.1 = peer) (peer_addresses (net d)))).*2).
Definition list_known_heads_for_origin (origin : hash32) : tx (list (hash32 * (Z * Z))) :=
  gets (λ d, (λ kv : hash32 * hash32 * (Z * Z), (kv.1.1, kv.2)) <$>
    filter (λ kv : hash32 * hash32 * (Z * Z), kv.1.2 = origin)
      (map_to_list (peer_known_heads (net d)))).

(** ** [repo/peer_presence.rs] and [repo/peer_cluster.rs] *)

Definition presence_get (peer : hash32) : tx (option presence_row) :=
  gets (λ d, peer_presence (net d) !! peer).
Definition record_heartbeat (peer : hash32) (session_started heartbeat : Z) (status : string) : tx () :=
  modify (on_net (on_peer_presence (λ m,
    <[peer := PresenceRow (match m !! peer with
                           | None => session_started
                           | Some r => pr_session_started_at r
                           end) heartbeat status]> m))).
Definition get_address_going_offline (address : string) : tx (option offline_row) :=
  gets (λ d, address_going_offline (net d) !! address).
Definition record_going_offline (address : string) (from : hash32) (announced : Z) : tx () :=
  modify (on_net (on_address_going_offline <[address := OfflineRow announced from]>)).
Definition cluster_get (peer : hash32) : tx (option claim_row) :=
  gets (λ d, peer_cluster_claims (net d) !! peer).
Definition cluster_upsert (peer : hash32) (cluster : string) (declared : Z) : tx () :=
  modify (on_net (on_peer_cluster_claims <[peer := ClaimRow cluster declared]>)).

(** ** [repo/redactions.rs], [repo/actor_redactions.rs],
    [repo/search_suppressions.rs] *)

Definition redactions_exists (id : hash32) : tx bool := gets (λ d, has id (redactions (ops d))).
Definition redactions_insert (id : hash32) (at_ : Z) (reason : option string) : tx () :=
  d ← get;
  insert_into "redactions" (negb (has id (redactions (ops d)))) (has_event id d)
    (on_ops (on_redactions <[id := (at_, reason)]>)).
Definition actor_redactions_exists (id : hash32) : tx bool :=
  gets (λ d, has id (actor_redactions (ops d))).
Definition actor_redactions_insert (id : hash32) (at_ : Z) (reason : option string) : tx () :=
  d ← get;
  insert_into "actor_identity_uri_redactions" (negb (has id (actor_redactions (ops d)))) true
    (on_ops (on_actor_redactions <[id := (at_, reason)]>)).
Definition suppress (node : hash32) (at_ : Z) : tx () :=
  d ← get;
  _ ← insert_or_ignore "search_suppressions" (negb (has node (search_suppressions (ops d)))) true
        (on_ops (on_search_suppressions <[node := at_]>));
  mret ().
Definition unsuppress (node : hash32) : tx () :=
  modify (on_ops (on_search_suppressions (delete node))).

(** ** [repo/rebuild.rs] *)

(** Some row of the child table [m] refers through [ref] to a row of [parent]. *)
Definition refers `{Countable K, Countable K'} {A B} (ref : A → K') (m : gmap K A)
    (parent : gmap K' B) : bool :=
  existsb (λ kr, has (ref kr.2) parent) (map_to_list m).

(** The tables in the source's order, each deletion with the foreign keys that
    point at it. *)
Definition clear_projection_tables : tx () :=
  _ ← delete_all "evidence" false (on_proj (on_evidence (λ _, ∅)));
  _ ← delete_all "observations" false (on_proj (on_observations (λ _, ∅)));
  _ ← delete_all "assertion_disputes" false (on_proj (on_assertion_disputes (λ _, ∅)));
  _ ← delete_all "assertion_retractions" false (on_proj (on_assertion_retractions (λ _, ∅)));
  _ ← delete_all "assertion_supersessions" false (on_proj (on_assertion_supersessions (λ _, ∅)));
  p ← gets proj;
  _ ← delete_all "assertions"
        (refers ev_assertion_id (evidence p) (assertions p) ||
         refers ob_assertion_id (observations p) (assertions p) ||
         refers di_assertion_id (assertion_disputes p) (assertions p) ||
         refers re_assertion_id (assertion_retractions p) (assertions p) ||
         refers su_old (assertion_supersessions p) (assertions p) ||
         refers su_new (assertion_supersessions p) (assertions p))
        (on_proj (on_assertions (λ _, ∅)));
  _ ← delete_all "actor_keys" false (on_proj (on_actor_keys (λ _, ∅)));
  _ ← delete_all "node_aliases" false (on_proj (on_node_aliases (λ _, ∅)));
  p ← gets proj;
  _ ← delete_all "edges" (refers as_edge_id (assertions p) (edges p))
        (on_proj (on_edges (λ _, ∅)));
  p ← gets proj;
  _ ← delete_all "actors"
        (refers kr_actor (actor_keys p) (actors p) || refers as_actor_id (assertions p) (actors p) ||
         refers ob_observer (observations p) (actors p) ||
         refers di_actor_id (assertion_disputes p) (actors p) ||
         refers re_actor_id (assertion_retractions p) (actors p) ||
         refers su_actor_id (assertion_supersessions p) (actors p))
        (on_proj (on_actors (λ _, ∅)));
  p ← gets proj;
  delete_all "nodes"
        (existsb (λ kr : hash32 * string * alias_row, has kr.1.1 (nodes p))
           (map_to_list (node_aliases p)) ||
         refers ed_subject (edges p) (nodes p) || refers ed_object (edges p) (nodes p))
        (on_proj (on_nodes (λ _, ∅))).

(** The deletions succeed, whatever the tables hold, because every table is
    emptied after the ones that refer to it. *)
Lemma clear_projection_tables_ok d :
  clear_projection_tables d = Ok ((), on_proj (λ _, empty_projection) d).
Proof.
  unfold clear_projection_tables, delete_all, refers.
  cbv [mbind stm_bind gets modify]. cbn.
  rewrite !map_to_list_empty. reflexivity.
Qed.
