(* ===== verification/Projector.v ===== *)
(** * The projector

    [oag-events/src/projector.rs]: what each event does to the graph tables.
    One definition per [project_*] function, statement for statement. *)

From S2P Require Import Prelude Core Envelope Store.

(** Transactions of the event layer; [storage] is the [?] on a repository
    call ([EventsError: From<StorageError>]). *)
Abbreviation txe := (stm db EventsError).
Definition storage {A} (m : tx A) : txe A := λ d, map_err StorageErr (m d).

Inductive ProjectionOutcome :=
  | OutcomeUnit
  | ActorDeclared (actor_id : hash32).

Section projector.
Context `{P : Platform} `{C : Codec}.

Definition parse_id (s : string) : result EventsError hash32 :=
  map_err IdError (Hash32_from_str s).

Definition Node_new (node_type identifier : string) (created : Z) : Node :=
  {| n_id := NodeId_from_canonical_identifier identifier; n_type := node_type;
     n_canonical_identifier := identifier; n_canonical_uri := None; n_name := None;
     n_description := None; n_metadata := Object []; n_created_at := created |}.
Definition Edge_new (subject : hash32) (predicate : string) (object : hash32) (created : Z) : Edge :=
  {| e_id := EdgeId_from_triple subject predicate object; e_subject := subject;
     e_predicate := predicate; e_object := object; e_created_at := created |}.

Definition resolve_or_create_node (identifier node_type : string) (created : Z) : txe hash32 :=
  let node_id := NodeId_from_canonical_identifier identifier in
  found ← storage (nodes_get_by_id node_id);
  _ ← (match found with
       | Some _ => mret ()
       | None => storage (nodes_insert_if_missing
                            (Node_new (NodeType_new node_type) identifier created))
       end);
  mret node_id.

Definition project_assert_relation (event_id : hash32) (created : Z)
    (p : AssertRelationPayload) : txe () :=
  subject_id ← resolve_or_create_node (ar_subject_identifier p) (ar_subject_type p) created;
  object_id ← resolve_or_create_node (ar_object_identifier p) (ar_object_type p) created;
  let predicate := Predicate_new (ar_predicate p) in
  let edge := Edge_new subject_id predicate object_id created in
  _ ← storage (edges_insert_if_missing edge);
  actor_id ← lift (parse_id (ar_actor_id p));
  method ← lift (ok_or (parse (ar_extraction_method p))
                   (UnknownExtractionMethod (ar_extraction_method p)));
  _ ← storage (assertions_insert
        {| a_id := event_id; a_edge_id := e_id edge; a_actor_id := actor_id;
           a_actor_confidence := ar_actor_confidence p; a_observed_at := ar_observed_at p;
           a_asserted_at := created; a_extraction_method := method; a_status := Active |});
  _ ← storage (add_ref event_id "assertion" event_id);
  _ ← storage (add_ref event_id "edge" (e_id edge));
  _ ← storage (add_ref event_id "node" subject_id);
  storage (add_ref event_id "node" object_id).

Definition build_evidence_metadata (pinned_cid : option string) (metadata : option json) : json :=
  let base := match metadata with Some (Object map) => map | _ => [] end in
  match pinned_cid with
  | Some cid => Object (map_insert "ipfs_cid" (Str cid) base)
  | None => Object base
  end.

(** [if get_by_id(id).await?.is_none() { return Err(NotFound(..)) }]. *)
Definition require_assertion (id : hash32) (what : string) : txe () :=
  found ← storage (assertions_get_by_id id);
  match found with Some _ => mret () | None => throw (NotFound what) end.

Definition project_add_evidence (event_id : hash32) (p : AddEvidencePayload) : txe () :=
  assertion_id ← lift (parse_id (ae_assertion_id p));
  _ ← require_assertion assertion_id ("assertion " +:+ ae_assertion_id p);
  type ← lift (ok_or (parse (ae_evidence_type p)) (UnknownExtractionMethod (ae_evidence_type p)));
  _ ← storage (assertions_insert_evidence
        {| v_id := event_id; v_assertion_id := assertion_id; v_type := type; v_uri := ae_uri p;
           v_title := ae_title p; v_excerpt := ae_excerpt p; v_content_hash := ae_content_hash p;
           v_observed_at := ae_observed_at p; v_retrieved_at := ae_retrieved_at p;
           v_metadata := build_evidence_metadata (ae_pinned_cid p) (ae_metadata p) |});
  storage (add_ref event_id "assertion" assertion_id).

Definition project_verify_assertion (event_id : hash32) (created : Z)
    (p : VerifyAssertionPayload) : txe () :=
  assertion_id ← lift (parse_id (va_assertion_id p));
  observer ← lift (parse_id (va_observer_actor_id p));
  _ ← require_assertion assertion_id ("assertion " +:+ va_assertion_id p);
  _ ← storage (assertions_insert_observation event_id assertion_id observer (va_result p)
                 (va_observed_at p) created);
  storage (add_ref event_id "assertion" assertion_id).

Definition project_dispute_assertion (event_id : hash32) (created : Z)
    (p : DisputeAssertionPayload) : txe () :=
  disputed ← lift (parse_id (da_disputed_assertion_id p));
  actor ← lift (parse_id (da_disputing_actor_id p));
  _ ← require_assertion disputed ("assertion " +:+ da_disputed_assertion_id p);
  _ ← storage (assertions_insert_dispute event_id disputed actor (da_reason p) created);
  _ ← storage (assertions_set_status disputed Disputed);
  storage (add_ref event_id "assertion" disputed).

Definition project_retract_assertion (event_id : hash32) (created : Z)
    (p : RetractAssertionPayload) : txe () :=
  retracted ← lift (parse_id (ra_retracted_assertion_id p));
  actor ← lift (parse_id (ra_actor_id p));
  _ ← require_assertion retracted ("assertion " +:+ ra_retracted_assertion_id p);
  _ ← storage (assertions_insert_retraction event_id retracted actor (ra_reason p) created);
  _ ← storage (assertions_set_status retracted Retracted);
  storage (add_ref event_id "assertion" retracted).

Definition project_supersede_assertion (event_id : hash32) (created : Z)
    (p : SupersedeAssertionPayload) : txe () :=
  old ← lift (parse_id (sa_old_assertion_id p));
  new ← lift (parse_id (sa_new_assertion_id p));
  actor ← lift (parse_id (sa_actor_id p));
  _ ← require_assertion old ("old assertion " +:+ to_hex old);
  _ ← require_assertion new ("new assertion " +:+ to_hex new);
  _ ← storage (assertions_insert_supersession event_id old new actor created);
  _ ← storage (assertions_set_status old Superseded);
  _ ← storage (add_ref event_id "assertion" old);
  storage (add_ref event_id "assertion" new).

(** A hexadecimal field of [n] bytes. *)
Definition decode_array (n : nat) (s : string) : result EventsError (bytes n) :=
  b ← map_err HexError (hex_decode s);
  ok_or (to_array n b) (BadSignatureLength (String.length b)).

Definition project_actor_declare (event_id : hash32) (created : Z)
    (p : ActorDeclarePayload) : txe hash32 :=
  type ← lift (ok_or (parse (ad_actor_type p)) (UnknownExtractionMethod (ad_actor_type p)));
  public_key ← lift (transpose (decode_array 32 <$> ad_public_key p));
  let seed := match ad_public_key p with Some k => k | None => to_hex event_id end in
  let actor_id := ActorId_derive seed in
  _ ← storage (actors_insert
        {| t_id := actor_id; t_type := type; t_name := ad_name p; t_public_key := public_key;
           t_identity_uri := ad_identity_uri p; t_metadata := Object []; t_created_at := created |});
  mret actor_id.

Definition project_node_alias (p : NodeAliasPayload) : txe () :=
  node_id ← lift (parse_id (na_node_id p));
  found ← storage (nodes_get_by_id node_id);
  match found with
  | None => throw (NotFound ("node " +:+ na_node_id p))
  | Some _ =>
      type ← lift (ok_or (parse (na_alias_type p)) (UnknownExtractionMethod (na_alias_type p)));
      storage (nodes_insert_alias {| na_node := node_id; na_text := na_alias p;
                                     na_type := type; na_source := None |})
  end.

Definition project_actor_key_add (created : Z) (p : ActorKeyAddPayload) : txe () :=
  actor ← lift (parse_id (ka_actor_id p));
  key_hash ← lift (decode_array 32 (ka_key_hash p));
  storage (actors_create_key key_hash actor (omap parse (ka_permissions p)) created).

Definition project_actor_key_revoke (created : Z) (p : ActorKeyRevokePayload) : txe () :=
  key_hash ← lift (decode_array 32 (kr_key_hash p));
  _ ← storage (actors_revoke_key key_hash created);
  mret ().

Definition unit_outcome (m : txe ()) : txe ProjectionOutcome := _ ← m; mret OutcomeUnit.

Definition project (event_id : hash32) (created : Z) (p : EventPayload) : txe ProjectionOutcome :=
  match p with
  | AssertRelation p => unit_outcome (project_assert_relation event_id created p)
  | AddEvidence p => unit_outcome (project_add_evidence event_id p)
  | VerifyAssertion p => unit_outcome (project_verify_assertion event_id created p)
  | DisputeAssertion p => unit_outcome (project_dispute_assertion event_id created p)
  | RetractAssertion p => unit_outcome (project_retract_assertion event_id created p)
  | SupersedeAssertion p => unit_outcome (project_supersede_assertion event_id created p)
  | ActorDeclare p => actor ← project_actor_declare event_id created p; mret (ActorDeclared actor)
  | ActorKeyAdd p => unit_outcome (project_actor_key_add created p)
  | ActorKeyRevoke p => unit_outcome (project_actor_key_revoke created p)
  | NodeAlias p => unit_outcome (project_node_alias p)
  end.
End projector.

(** One goal per payload, its [project_*] function in sight. *)
Ltac unfold_payloads :=
  cbn [project];
  unfold unit_outcome, project_assert_relation, project_add_evidence, project_verify_assertion,
    project_dispute_assertion, project_retract_assertion, project_supersede_assertion,
    project_actor_declare, project_actor_key_add, project_actor_key_revoke, project_node_alias.
