(* ===== verification/EventLog.v ===== *)
(** * Committing and ingesting events

    [oag-events]: [commit.rs] and [ingest.rs].  Each is one transaction on
    the database: an error anywhere rolls everything back. *)

From S2P Require Import Prelude Core Envelope Store Projector.

Inductive IngestOutcome :=
  | Applied (event_id : hash32) (outcome : ProjectionOutcome)
  | AlreadyKnown (event_id : hash32)
  | Forked (existing incoming : hash32).

Section event_log.
Context `{P : Platform} `{C : Codec}.

(** The row both functions store for a signed event. *)
Definition stored_event (event_id origin : hash32) (seq : Z) (previous : option hash32)
    (signed : SignedEvent) (canonical sig : string) (created received : Z) : event_row :=
  {| er_event_id := event_id; er_origin_peer_id := origin; er_sequence := wrap_i64 seq;
     er_previous_event_id := previous;
     er_event_type := type_str (payload (unsigned signed));
     er_canonical_payload := canonical; er_created_at := created; er_signature := sig;
     er_received_at := received |}.

(** [(row.highest_contiguous_sequence as u64 + 1, head)], or [(1, None)].
    The addition panics in a debug build and wraps in a release build at
    [u64::MAX], which needs a stored sequence of -1. *)
Definition chain_position (o : option origin_row) : Z * option hash32 :=
  match o with
  | Some r => (wrap_u64 (wrap_u64 (or_highest_contiguous r) + 1), or_head r)
  | None => (1%Z, None)
  end.

Definition commit_local_event_tx (identity : SigningKey) (p : EventPayload) (created : Z) :
    txe (hash32 * ProjectionOutcome) :=
  let peer := identity_peer_id identity in
  origin ← storage (get_origin peer);
  let '(next, previous) := chain_position origin in
  '(signed, event_id) ← lift (build_and_sign identity next previous created p);
  canonical ← lift (map_err Canonicalize (canonical_signed signed));
  sig ← lift (map_err HexError (hex_decode (signature signed)));
  inserted ← storage (insert_event
    (stored_event event_id peer next previous signed canonical sig created created));
  if negb inserted then
    throw (NotFound ("event " +:+ to_hex event_id +:+ " already existed unexpectedly"))
  else
    outcome ← project event_id created (payload (unsigned signed));
    _ ← storage (advance_origin peer (wrap_i64 next) event_id);
    mret (event_id, outcome).

Definition commit_local_event (identity : SigningKey) (p : EventPayload) (created : Z) (d : db) :
    result EventsError (hash32 * ProjectionOutcome) * db :=
  atomically (commit_local_event_tx identity p created) d.

(** The transaction of [ingest_remote_event], once the envelope is checked. *)
Definition ingest_tx (key : VerifyingKey) (signed : SignedEvent) (received : Z)
    (event_id origin : hash32) (previous : option hash32) : txe IngestOutcome :=
  let u := unsigned signed in
  let seq := sequence u in
  found ← storage (find_event_id_at origin (wrap_i64 seq));
  match found with
  | Some existing =>
      if decide (existing = event_id) then mret (AlreadyKnown event_id)
      else
        _ ← storage (upsert_peer origin (vk_bytes key) None received);
        text ← lift (map_err Canonicalize (signed_to_string signed));
        _ ← storage (record_fork origin (wrap_i64 seq) existing event_id received text);
        _ ← storage (mark_forked origin);
        mret (Forked existing event_id)
  | None =>
      o ← storage (get_origin origin);
      let '(next, head) := chain_position o in
      _ ← lift (validate_chain next head seq previous);
      canonical ← lift (map_err Canonicalize (canonical_signed signed));
      sig ← lift (map_err HexError (hex_decode (signature signed)));
      _ ← storage (insert_event
        (stored_event event_id origin seq previous signed canonical sig (created_at u) received));
      outcome ← project event_id (created_at u) (payload u);
      _ ← storage (advance_origin origin (wrap_i64 seq) event_id);
      mret (Applied event_id outcome)
  end.

(** What is checked before the transaction begins. *)
Definition check_envelope (key : VerifyingKey) (signed : SignedEvent) :
    result EventsError (hash32 * hash32 * option hash32) :=
  event_id ← verify_and_derive_id signed key;
  claimed ← map_err OriginPeerId (PeerId_from_str (origin_peer (unsigned signed)));
  let derived := PeerId_from_public_key key in
  if negb (bool_decide (claimed = derived)) then
    Err (OriginKeyMismatch (PeerId_to_string claimed) (PeerId_to_string derived))
  else
    previous ← transpose ((λ s, map_err IdError (Hash32_from_str s)) <$>
                            previous_event (unsigned signed));
    Ok (event_id, claimed, previous).

Definition ingest_remote_event (key : VerifyingKey) (signed : SignedEvent) (received : Z) (d : db) :
    result EventsError IngestOutcome * db :=
  match check_envelope key signed with
  | Err e => (Err e, d)
  | Ok (event_id, origin, previous) =>
      atomically (ingest_tx key signed received event_id origin previous) d
  end.
End event_log.
