(* ===== verification/Scenario.v ===== *)
(** * A concrete history, for the witnesses

    A peer declares an actor, asserts a relation, attaches evidence, verifies,
    disputes and retracts; the toy platform and codec make every step
    computable. *)

From S2P Require Import Prelude Core Envelope Store Projector EventLog.

#[local] Existing Instance Toy.platform.

Definition toy_key (s : string) : bytes 32 := Toy.hash s.
Definition alice : bytes 32 := toy_key "alice".
Definition bob : bytes 32 := toy_key "bob".

Definition declare_p : EventPayload :=
  ActorDeclare {| ad_actor_type := "agent"; ad_name := Some "writer"; ad_public_key := None;
                  ad_identity_uri := Some "mailto:w@example.org" |}.
Definition assert_p (actor : hash32) (predicate : string) : EventPayload :=
  AssertRelation {| ar_subject_identifier := "url:https://example.org/"; ar_subject_type := "url";
    ar_predicate := predicate; ar_object_identifier := "concept:protocol";
    ar_object_type := "concept"; ar_actor_id := to_hex actor; ar_actor_confidence := None;
    ar_observed_at := None; ar_extraction_method := "direct" |}.
Definition evidence_p (assertion : hash32) : EventPayload :=
  AddEvidence {| ae_assertion_id := to_hex assertion; ae_evidence_type := "web_page";
    ae_uri := Some "https://example.org/"; ae_title := Some "title"; ae_excerpt := Some "text";
    ae_content_hash := None; ae_observed_at := None; ae_retrieved_at := None;
    ae_pinned_cid := None; ae_metadata := None |}.
Definition dispute_p (assertion actor : hash32) : EventPayload :=
  DisputeAssertion {| da_disputed_assertion_id := to_hex assertion;
    da_disputing_actor_id := to_hex actor; da_reason := None |}.
Definition retract_p (assertion actor : hash32) : EventPayload :=
  RetractAssertion {| ra_retracted_assertion_id := to_hex assertion; ra_actor_id := to_hex actor;
    ra_reason := None |}.

(** The signed events of alice's history, built without the table. *)
Definition sign_as (sk : bytes 32) (s : Z) (prev : option hash32) (t : Z) (p : EventPayload) :
    option (SignedEvent * hash32) :=
  to_option (@build_and_sign Toy.platform (ToyCodec.codec []) sk s prev t p).
Definition signed_of (e : option (SignedEvent * hash32)) : list SignedEvent :=
  match e with Some (s, _) => [s] | None => [] end.
Definition id_of (e : option (SignedEvent * hash32)) : hash32 :=
  match e with Some (_, i) => i | None => Toy.hash "" end.

Definition e1 := sign_as alice 1 None 100 declare_p.
Definition writer : hash32 := ActorId_derive (to_hex (id_of e1)).
Definition e2 := sign_as alice 2 (Some (id_of e1)) 101 (assert_p writer "implements").
Definition e3 := sign_as alice 3 (Some (id_of e2)) 102 (evidence_p (id_of e2)).
Definition e2' := sign_as alice 2 (Some (id_of e1)) 103 (assert_p writer "contradicts").

Definition demo_codec : Codec := ToyCodec.codec (concat (signed_of <$> [e1; e2; e3; e2'])).
#[local] Existing Instance demo_codec.

(** Committing a list of payloads, one second apart. *)
Fixpoint commits (sk : bytes 32) (t : Z) (ps : list EventPayload) (d : db) : db :=
  match ps with
  | [] => d
  | p :: ps => commits sk (t + 1) ps (commit_local_event sk p t d).2
  end.
Definition alice_db : db :=
  commits alice 100 [declare_p; assert_p writer "implements"; evidence_p (id_of e2)] empty_db.

Example alice_history : er_event_id <$> events (log alice_db) = [id_of e1; id_of e2; id_of e3].
Proof. vm_compute. reflexivity. Qed.

Definition blank_event : SignedEvent :=
  {| unsigned := {| version := 1; origin_peer := ""; sequence := 0; previous_event := None;
                    created_at := 0; payload := declare_p |}; signature := "" |}.
Definition event_of (e : option (SignedEvent * hash32)) : SignedEvent :=
  match e with Some (s, _) => s | None => blank_event end.

(** Alice's database after her first event. *)
Definition declared_db : db := (commit_local_event alice declare_p 100 empty_db).2.
