(* ===== verification/Frame.v ===== *)
(** * What the projector leaves alone

    A projection step writes the graph tables and [event_refs] only: the
    events, the heads of the origins, what is known about other peers and the
    operator's decisions stay as they are. *)

From S2P Require Import Prelude Core Envelope Store Projector.

(** Everything but the graph tables and [event_refs]. *)
Definition rest (d : db) : list event_row * gmap hash32 origin_row * peer_tables * decisions :=
  (events (log d), event_origins (log d), net d, ops d).

Section frame.
Context {B : Type} (f : db → B).

Lemma keeps_storage {A} (m : tx A) : keeps f m → keeps f (storage m).
Proof. intros Hm d a d' H. unfold storage in H. destruct (m d) as [[??]|?] eqn:Hd; naive_solver. Qed.
Lemma keeps_insert_into t free fk g : (∀ d, f (g d) = f d) → keeps f (insert_into t free fk g).
Proof. intros. unfold insert_into. repeat case_match; auto using keeps_modify with keeps. Qed.
Lemma keeps_insert_or_ignore t free fk g :
  (∀ d, f (g d) = f d) → keeps f (insert_or_ignore t free fk g).
Proof. intros. unfold insert_or_ignore. repeat case_match; auto using keeps_modify with keeps. Qed.
Lemma keeps_update_row {A} (r : option A) g :
  (∀ a d, f (g a d) = f d) → keeps f (update_row r g).
Proof. intros. unfold update_row. repeat case_match; auto using keeps_modify with keeps. Qed.
End frame.
#[export] Hint Resolve keeps_storage keeps_insert_into keeps_insert_or_ignore keeps_update_row
  keeps_modify : keeps.

(** [keeps_tac]: walk through a program whose writes all leave [f] alone. *)
Ltac keeps_tac :=
  repeat first
    [ progress intros
    | reflexivity
    | apply keeps_bind | apply keeps_storage | apply keeps_insert_into
    | apply keeps_insert_or_ignore | apply keeps_update_row | apply keeps_modify
    | solve [auto with keeps]
    | case_match ].

Section project.
Context `{P : Platform} `{C : Codec}.

Lemma add_ref_rest id t r : keeps rest (add_ref id t r).
Proof. unfold add_ref. keeps_tac. Qed.

Lemma project_rest id created p : keeps rest (project id created p).
Proof.
  destruct p; unfold_payloads;
    unfold resolve_or_create_node, require_assertion, nodes_get_by_id, nodes_insert_if_missing,
    edges_insert_if_missing, assertions_insert, add_ref, assertions_get_by_id,
    assertions_insert_evidence, assertions_insert_observation, assertions_insert_dispute,
    assertions_set_status, assertions_insert_retraction, assertions_insert_supersession,
    actors_insert, nodes_insert_alias, actors_create_key, actors_revoke_key; keeps_tac.
Qed.
End project.
