(* ===== verification/Chain.v ===== *)
(** * Origin chains

    The contract of the event log: per origin, the stored events form one
    chain - sequences 1, 2, 3, ... in insertion order, each linked to its
    predecessor's id - and [event_origins] holds its end.  Committing and
    ingesting keep it so, and ingesting implements the abstract decision
    [offer] on chains of event ids. *)

From S2P Require Import Prelude Core Envelope Store Projector EventLog Frame Scenario.

(** ** The abstract specification *)

(** What a peer that holds [chain] for an origin decides about an event. *)
Inductive verdict :=
  | Duplicate
  | Fork (existing : hash32)
  | Gap (expected : Z)
  | BadPrevious (head : option hash32)
  | Extend.

Definition offer (chain : list hash32) (seq : Z) (previous : option hash32) (id : hash32) : verdict :=
  let n := Z.of_nat (length chain) in
  match (if decide (1 ≤ seq ≤ n)%Z then chain !! Z.to_nat (seq - 1) else None) with
  | Some existing => if decide (existing = id) then Duplicate else Fork existing
  | None =>
      if decide (seq = n + 1)%Z then
        if decide (previous = last chain) then Extend else BadPrevious (last chain)
      else Gap (n + 1)
  end.

(** ** The invariant *)

Definition of_origin (o : hash32) (d : db) : list event_row :=
  filter (λ e, er_origin_peer_id e = o) (events (log d)).
Definition chain_of (o : hash32) (d : db) : list hash32 := er_event_id <$> of_origin o d.

Fixpoint linked (seq : Z) (previous : option hash32) (es : list event_row) : Prop :=
  match es with
  | [] => True
  | e :: es => er_sequence e = seq ∧ er_previous_event_id e = previous ∧
               linked (seq + 1) (Some (er_event_id e)) es
  end.
Definition end_of (es : list event_row) : option origin_row :=
  (λ e, OriginRow (er_sequence e) (er_sequence e) (Some (er_event_id e))) <$> last es.

Record chained (d : db) : Prop := {
  chained_links o : linked 1 None (of_origin o d);
  chained_heads o : event_origins (log d) !! o = end_of (of_origin o d);
  chained_ids : NoDup (er_event_id <$> events (log d)) }.

(** Sequence numbers are stored as [i64]: the invariant is about databases of
    fewer than 2^63 - 1 rows. *)
Definition small (d : db) : Prop := (Z.of_nat (length (events (log d))) < 2 ^ 63 - 1)%Z.

(** ** Facts about chains *)

Lemma linked_lookup es : ∀ s p i e,
  linked s p es → es !! i = Some e → er_sequence e = (s + Z.of_nat i)%Z.
Proof.
  induction es as [|e0 es IH]; intros s p [|i] e Hl Hi; cbn in *; try done.
  - injection Hi as ->. destruct Hl. lia.
  - destruct Hl as (_ & _ & Hl). rewrite (IH _ _ _ _ Hl Hi). lia.
Qed.

Lemma linked_snoc es : ∀ s p e,
  linked s p es →
  er_sequence e = (s + Z.of_nat (length es))%Z →
  er_previous_event_id e = (match last es with Some l => Some (er_event_id l) | None => p end) →
  linked s p (es ++ [e]).
Proof.
  induction es as [|e0 es IH]; intros s p e Hl Hs Hp.
  - cbn in *. split_and!; [lia|done|done].
  - rewrite last_cons in Hp. cbn [linked app length] in *.
    destruct Hl as (? & ? & Hl). split_and!; [done..|].
    apply IH; [done|lia|]. rewrite Hp. by destruct (last es).
Qed.

Lemma end_of_linked es :
  linked 1 None es →
  end_of es = match es with
              | [] => None
              | _ => Some (OriginRow (Z.of_nat (length es)) (Z.of_nat (length es))
                             (last (er_event_id <$> es)))
              end.
Proof.
  intros Hl. unfold end_of. destruct es as [|e es]; [done|].
  rewrite fmap_last. destruct (last (e :: es)) as [l|] eqn:Hlast; [|by apply last_None in Hlast].
  cbn [fmap option_fmap option_map]. rewrite last_lookup in Hlast.
  rewrite (linked_lookup _ _ _ _ _ Hl Hlast). cbn [length].
  by replace (1 + Z.of_nat (pred (S (length es))))%Z with (Z.of_nat (S (length es))) by lia.
Qed.

(** The event found at a sequence number is the one at that place. *)
Lemma find_in_linked es o s :
  linked 1 None es → Forall (λ e, er_origin_peer_id e = o) es →
  er_event_id <$> head (filter (λ e, (er_origin_peer_id e, er_sequence e) = (o, s)) es) =
    if decide (1 ≤ s ≤ Z.of_nat (length es))%Z
    then (er_event_id <$> es) !! Z.to_nat (s - 1) else None.
Proof.
  enough (∀ k p, linked k p es → Forall (λ e, er_origin_peer_id e = o) es →
    er_event_id <$> head (filter (λ e, (er_origin_peer_id e, er_sequence e) = (o, s)) es) =
      if decide (k ≤ s < k + Z.of_nat (length es))%Z
      then (er_event_id <$> es) !! Z.to_nat (s - k) else None) as H.
  { intros Hl Ho. rewrite (H _ _ Hl Ho). repeat case_decide; try done; lia. }
  induction es as [|e es IH]; intros k p Hl Ho; cbn [length].
  { case_decide; [lia|done]. }
  cbn in Hl. destruct Hl as (Hs & _ & Hl). apply Forall_cons in Ho as [Heo Ho].
  rewrite filter_cons. destruct (decide (s = k)) as [->|Hne].
  - rewrite decide_True by congruence. rewrite decide_True by lia.
    by rewrite Z.sub_diag.
  - rewrite decide_False by congruence. rewrite (IH _ _ Hl Ho).
    repeat case_decide; try done; try lia.
    by replace (Z.to_nat (s - k)) with (S (Z.to_nat (s - (k + 1)))) by lia.
Qed.

Lemma of_origin_all o d : Forall (λ e, er_origin_peer_id e = o) (of_origin o d).
Proof. apply Forall_forall. intros e. unfold of_origin. rewrite list_elem_of_filter. tauto. Qed.

Lemma find_filter o s l :
  head (filter (λ e, (er_origin_peer_id e, er_sequence e) = (o, s)) l) =
  head (filter (λ e, (er_origin_peer_id e, er_sequence e) = (o, s))
          (filter (λ e, er_origin_peer_id e = o) l)).
Proof.
  rewrite list_filter_filter. f_equal. apply list_filter_iff. intros e.
  split; [intros [= -> ->]; done|tauto].
Qed.

(** Looking an event up by origin and sequence number. *)
Lemma find_event_chain d o s :
  chained d →
  er_event_id <$> head (filter (λ e, (er_origin_peer_id e, er_sequence e) = (o, s))
                          (events (log d))) =
    if decide (1 ≤ s ≤ Z.of_nat (length (chain_of o d)))%Z
    then chain_of o d !! Z.to_nat (s - 1) else None.
Proof.
  intros Hc. rewrite find_filter. unfold chain_of. rewrite length_fmap.
  apply find_in_linked; [apply Hc|apply of_origin_all].
Qed.

Lemma chain_length_small d o : small d → (Z.of_nat (length (chain_of o d)) < 2 ^ 63 - 1)%Z.
Proof.
  unfold small, chain_of, of_origin. rewrite length_fmap.
  pose proof (length_filter (λ e, er_origin_peer_id e = o) (events (log d))). lia.
Qed.

(** What both functions read as the chain's position. *)
Lemma chain_position_chained d o :
  chained d → small d →
  chain_position (event_origins (log d) !! o) =
    ((Z.of_nat (length (chain_of o d)) + 1)%Z, last (chain_of o d)).
Proof.
  intros Hc Hs. pose proof (chain_length_small d o Hs) as Hlen.
  rewrite (chained_heads _ Hc), end_of_linked by apply Hc.
  unfold chain_of in *. rewrite length_fmap in *.
  destruct (of_origin o d) as [|e es]; [done|].
  cbn [chain_position or_highest_contiguous or_head].
  rewrite (wrap_u64_small (Z.of_nat _)) by (unfold is_u64; lia).
  by rewrite wrap_u64_small by (unfold is_u64; lia).
Qed.

Lemma chained_empty : chained empty_db.
Proof. by split; [intros|intros; cbn; rewrite lookup_empty|constructor]. Qed.

(** ** Appending an event *)

Definition append_event (e : event_row) : db → db := on_log (on_events (λ l, l ++ [e])).

(** The shape of every successful commit or application: the row is appended,
    the projection runs, the head advances. *)
Definition appended (d : db) (e : event_row) (d' : db) : Prop :=
  events (log d') = events (log d) ++ [e] ∧
  event_origins (log d') =
    <[er_origin_peer_id e :=
        OriginRow (er_sequence e) (er_sequence e) (Some (er_event_id e))]>
      (event_origins (log d)) ∧
  net d' = net d ∧ ops d' = ops d.

Lemma of_origin_append d e d' o :
  appended d e d' →
  of_origin o d' = of_origin o d ++ (if decide (er_origin_peer_id e = o) then [e] else []).
Proof.
  intros (He & _). unfold of_origin. by rewrite He, filter_app.
Qed.

Lemma chain_of_append d e d' o :
  appended d e d' →
  chain_of o d' =
    chain_of o d ++ (if decide (er_origin_peer_id e = o) then [er_event_id e] else []).
Proof.
  intros Ha. unfold chain_of. rewrite (of_origin_append _ _ _ _ Ha), fmap_app.
  by case_decide.
Qed.

Lemma appended_chained d e d' :
  chained d → appended d e d' →
  er_event_id e ∉ (er_event_id <$> events (log d)) →
  er_sequence e = (Z.of_nat (length (chain_of (er_origin_peer_id e) d)) + 1)%Z →
  er_previous_event_id e = last (chain_of (er_origin_peer_id e) d) →
  chained d'.
Proof.
  intros Hc Ha Hfresh Hseq Hprev. pose proof Ha as (He & Ho & _). split.
  - intros o. rewrite (of_origin_append _ _ _ _ Ha). case_decide as Heo.
    + subst o. apply linked_snoc; [apply Hc| |].
      * rewrite Hseq. unfold chain_of. rewrite length_fmap. lia.
      * rewrite Hprev. unfold chain_of. rewrite fmap_last. by destruct (last _).
    + rewrite app_nil_r. apply Hc.
  - intros o. rewrite Ho, (of_origin_append _ _ _ _ Ha). case_decide as Heo.
    + subst o. rewrite lookup_insert_eq. unfold end_of. by rewrite last_snoc.
    + rewrite lookup_insert_ne by done. rewrite app_nil_r. apply Hc.
  - rewrite He, fmap_app. apply NoDup_app. split; [apply Hc|]. split.
    + intros x Hx Hin. apply list_elem_of_singleton in Hin as ->. contradiction.
    + apply NoDup_singleton.
Qed.

(** ** The storage operations on a chained database *)

Lemma insert_event_cases e d :
  (insert_event e d = Ok (false, d)) ∨
  (insert_event e d = Ok (true, append_event e d) ∧
   er_event_id e ∉ (er_event_id <$> events (log d))).
Proof.
  unfold insert_event, insert_or_ignore. cbv [mbind stm_bind get mret stm_ret modify].
  destruct (forallb _ _) eqn:Hf; cbn; [right|by left].
  split; [done|]. rewrite forallb_forall in Hf.
  intros (e' & Heq & Hin)%list_elem_of_fmap. rewrite list_elem_of_In in Hin.
  specialize (Hf _ Hin). unfold same_key in Hf. by rewrite bool_decide_true in Hf.
Qed.

Lemma insert_event_fresh e d :
  (∀ e', e' ∈ events (log d) → er_event_id e' ≠ er_event_id e) →
  (∀ e', e' ∈ events (log d) →
     (er_origin_peer_id e', er_sequence e') ≠ (er_origin_peer_id e, er_sequence e)) →
  insert_event e d = Ok (true, append_event e d).
Proof.
  intros Hid Hseq. unfold insert_event, insert_or_ignore.
  cbv [mbind stm_bind get mret stm_ret modify].
  replace (forallb _ _) with true; [done|]. symmetry. apply forallb_forall.
  intros e' Hin%list_elem_of_In. unfold same_key.
  rewrite !bool_decide_false; [done| |]; intros Heq; [by eapply Hseq|by eapply Hid].
Qed.

(** The wrapped sequence number finds what the chain holds there. *)
Lemma find_event_id_at_chain d o s :
  chained d → small d → is_u64 s →
  find_event_id_at o (wrap_i64 s) d =
    Ok (if decide (1 ≤ s ≤ Z.of_nat (length (chain_of o d)))%Z
        then chain_of o d !! Z.to_nat (s - 1) else None, d).
Proof.
  intros Hc Hs Hu. unfold find_event_id_at, gets. rewrite find_event_chain by done.
  pose proof (chain_length_small d o Hs) as Hlen. unfold is_u64 in Hu.
  destruct (decide (s < 2 ^ 63)%Z).
  - by rewrite wrap_i64_small by (unfold is_i64; lia).
  - rewrite !decide_False; [done|lia|]. unfold wrap_i64.
    rewrite <-(Z.mod_unique_pos (s + 2 ^ 63) (2 ^ 64) 1 (s - 2 ^ 63)) by lia. lia.
Qed.

(** Two rows do not share an id: BLAKE3 has not collided on this event. *)
Definition collision_free (d : db) (id o : hash32) (s : Z) : Prop :=
  ∀ e, e ∈ events (log d) → er_event_id e = id → (er_origin_peer_id e, er_sequence e) = (o, s).

Definition unused (d : db) (id : hash32) : Prop :=
  ∀ e, e ∈ events (log d) → er_event_id e ≠ id.
Lemma unused_collision_free d id o s : unused d id → collision_free d id o s.
Proof. intros H e Hin Hid. by destruct (H e Hin). Qed.
Lemma unusedb_spec d id :
  forallb (λ e, negb (bool_decide (er_event_id e = id))) (events (log d)) = true → unused d id.
Proof.
  rewrite forallb_forall. intros H e Hin%list_elem_of_In Hid. specialize (H e Hin).
  by rewrite bool_decide_true in H.
Qed.

Lemma next_is_free d o e' :
  chained d → small d → e' ∈ events (log d) →
  (er_origin_peer_id e', er_sequence e') ≠ (o, Z.of_nat (length (chain_of o d)) + 1)%Z.
Proof.
  intros Hc Hs Hin [= Ho Hseq].
  assert (e' ∈ of_origin o d) as Hin' by (apply list_elem_of_filter; done).
  apply list_elem_of_lookup in Hin' as [i Hi].
  pose proof (linked_lookup _ _ _ _ _ (chained_links _ Hc o) Hi) as Hsi.
  apply lookup_lt_Some in Hi. unfold chain_of in Hseq. rewrite length_fmap in Hseq. lia.
Qed.

Section operations.
Context `{P : Platform} `{C : Codec}.

(** Running the projector on the appended row and moving the head. *)
Definition apply_row (e : event_row) (p : EventPayload) (d : db) : result EventsError (ProjectionOutcome * db) :=
  match project (er_event_id e) (er_created_at e) p (append_event e d) with
  | Ok (out, d1) =>
      Ok (out, on_log (on_event_origins <[er_origin_peer_id e :=
                 OriginRow (er_sequence e) (er_sequence e) (Some (er_event_id e))]>) d1)
  | Err err => Err err
  end.

Lemma apply_row_appended e p d out d' : apply_row e p d = Ok (out, d') → appended d e d'.
Proof.
  unfold apply_row. destruct (project _ _ _ _) as [[? d1]|] eqn:Hp; [|done].
  intros [= <- <-]. apply project_rest in Hp. unfold rest in Hp. cbn in Hp.
  injection Hp as He Ho Hn Hop. unfold appended. cbn. by rewrite He, Ho, Hn, Hop.
Qed.

(** The columns copied from the event. *)
Definition labelled (e : event_row) (created : Z) (p : EventPayload) : Prop :=
  er_created_at e = created ∧ er_event_type e = type_str p.

(** *** [commit_local_event] *)

Lemma build_and_sign_fields sk s prev t p signed id :
  build_and_sign sk s prev t p = Ok (signed, id) →
  unsigned signed = {| version := CURRENT_VERSION;
    origin_peer := PeerId_to_string (identity_peer_id sk); sequence := s;
    previous_event := to_hex <$> prev; created_at := t; payload := p |}.
Proof. unfold build_and_sign. intros H. by minv. Qed.

Lemma commit_cases sk p t d :
  chained d → small d →
  let o := identity_peer_id sk in
  ((∃ e, commit_local_event sk p t d = (Err e, d)) ∨
  (∃ signed e out d',
     commit_local_event sk p t d = (Ok (er_event_id e, out), d') ∧
     build_and_sign sk (Z.of_nat (length (chain_of o d)) + 1) (last (chain_of o d)) t p
       = Ok (signed, er_event_id e) ∧
     canonical_signed signed = Ok (er_canonical_payload e) ∧
     er_origin_peer_id e = o ∧
     er_sequence e = (Z.of_nat (length (chain_of o d)) + 1)%Z ∧
     er_previous_event_id e = last (chain_of o d) ∧
     labelled e t p ∧
     (er_event_id e ∉ (er_event_id <$> events (log d))) ∧
     apply_row e p d = Ok (out, d'))).
Proof.
  intros Hc Hs o. pose proof (chain_length_small d o Hs) as Hlen.
  destruct (commit_local_event sk p t d) as [[[id out]|e] d'] eqn:Hrun;
    unfold commit_local_event in Hrun;
    [right|left; apply atomically_err in Hrun as ->; by eexists].
  apply atomically_ok in Hrun. unfold commit_local_event_tx in Hrun. fold o in Hrun.
  apply stm_bind_ok in Hrun as (org & d0 & Ho & Hrun).
  unfold storage, get_origin, gets in Ho. cbn in Ho. injection Ho as <- <-.
  rewrite chain_position_chained in Hrun by done.
  set (n := (Z.of_nat (length (chain_of o d)) + 1)%Z) in *.
  apply stm_bind_ok in Hrun as ([signed id'] & d0 & Hb & Hrun).
  unfold lift in Hb. destruct (build_and_sign _ _ _ _ _) as [?|?] eqn:Hbuild; [|done].
  injection Hb as -> <-. pose proof (build_and_sign_fields _ _ _ _ _ _ _ Hbuild) as Hf.
  apply stm_bind_ok in Hrun as (canon & d0 & Hcan & Hrun).
  unfold lift in Hcan. destruct (canonical_signed signed) as [?|?] eqn:Hcs; [|done].
  cbn in Hcan. injection Hcan as -> <-.
  apply stm_bind_ok in Hrun as (sig & d0 & Hsig & Hrun).
  unfold lift in Hsig. destruct (hex_decode _) as [?|?]; [|done].
  cbn in Hsig. injection Hsig as -> <-.
  set (e := stored_event id' o n (last (chain_of o d)) signed canon sig t t) in *.
  assert (er_sequence e = n) as Hen by (cbn; apply wrap_i64_small; unfold is_i64; lia).
  apply stm_bind_ok in Hrun as (ins & d0 & Hins & Hrun). unfold storage in Hins.
  destruct (insert_event_cases e d) as [Hi|[Hi Hfresh]]; rewrite Hi in Hins; cbn in Hins;
    injection Hins as <- <-; cbn [negb] in Hrun; [done|].
  apply stm_bind_ok in Hrun as (out' & d1 & Hp & Hrun).
  rewrite Hf in Hp. cbn [payload] in Hp. cbn in Hrun.
  injection Hrun as <- <- <-. exists signed, e, out'. eexists.
  split_and!; try done.
  - by split; [|cbn; rewrite Hf].
  - unfold apply_row. cbn [er_event_id e stored_event er_created_at]. by rewrite Hp.
Qed.

(** *** [ingest_remote_event] *)

Lemma check_envelope_inv key signed id o prev :
  check_envelope key signed = Ok (id, o, prev) →
  verify_and_derive_id signed key = Ok id ∧
  PeerId_from_str (origin_peer (unsigned signed)) = Ok o ∧ o = PeerId_from_public_key key ∧
  transpose ((λ s, map_err IdError (Hash32_from_str s)) <$> previous_event (unsigned signed))
    = Ok prev.
Proof.
  unfold check_envelope. intros H. apply result_bind_ok in H as (id' & Hv & H).
  apply result_bind_ok in H as (claimed & Hcl & H).
  case_bool_decide as Heq; cbn [negb] in H; [|done].
  apply result_bind_ok in H as (prev' & Hprev & [= <- <- <-]).
  split_and!; try done. by destruct (PeerId_from_str _); naive_solver.
Qed.

Lemma verify_and_derive_inv signed key id :
  verify_and_derive_id signed key = Ok id →
  ∃ canon_u decoded sig canon_s,
    canonical_unsigned (unsigned signed) = Ok canon_u ∧
    hex_decode (signature signed) = Ok decoded ∧ to_array 64 decoded = Some sig ∧
    verify_with_domain key EVENT_DOMAIN canon_u sig = Ok () ∧
    canonical_signed signed = Ok canon_s ∧ id = EventId_derive canon_s.
Proof.
  unfold verify_and_derive_id. intros H.
  destruct (canonical_unsigned _) as [cu|] eqn:Hcu; [|done]. cbn in H.
  destruct (hex_decode _) as [dec|] eqn:Hd; [|done]. cbn in H.
  destruct (to_array 64 dec) as [sig|] eqn:Ha; [|done]. cbn in H.
  destruct (verify_with_domain _ _ _ _) as [[]|] eqn:Hv; [|done]. cbn in H.
  destruct (canonical_signed signed) as [cs|] eqn:Hcs; [|done]. cbn in H.
  injection H as <-. by exists cu, dec, sig, cs.
Qed.

(** The outcome of the transaction, by the decision on the chain. *)
Definition ingested (key : VerifyingKey) (signed : SignedEvent) (received : Z)
    (id o : hash32) (prev : option hash32) (d : db)
    (r : result EventsError IngestOutcome) (d' : db) : Prop :=
  let seq := sequence (unsigned signed) in
  match offer (chain_of o d) seq prev id with
  | Duplicate => r = Ok (AlreadyKnown id) ∧ d' = d
  | Fork existing =>
      match signed_to_string signed with
      | Err e => r = Err (Canonicalize e) ∧ d' = d
      | Ok text =>
          r = Ok (Forked existing id) ∧ log d' = log d ∧ proj d' = proj d ∧ ops d' = ops d ∧
          (∃ row, peers (net d') !! o = Some row ∧ pe_forked row = true) ∧
          peer_forks (net d') !! (o, seq) =
            Some (default (ForkRow existing id received text) (peer_forks (net d) !! (o, seq)))
      end
  | Gap expected => r = Err (SequenceGap expected seq) ∧ d' = d
  | BadPrevious head => r = Err (PreviousEventMismatch (to_hex <$> head) (to_hex <$> prev)) ∧ d' = d
  | Extend =>
      ∃ e, er_event_id e = id ∧ er_origin_peer_id e = o ∧ er_sequence e = seq ∧
           er_previous_event_id e = prev ∧ labelled e (created_at (unsigned signed)) (payload (unsigned signed)) ∧
           canonical_signed signed = Ok (er_canonical_payload e) ∧
           match apply_row e (payload (unsigned signed)) d with
           | Err err => r = Err err ∧ d' = d
           | Ok (out, d1) => r = Ok (Applied id out) ∧ d' = d1
           end
  end.

Lemma record_fork_run o s a b t text d :
  record_fork o s a b t text d =
    Ok ((), on_net (on_peer_forks (λ m,
       <[(o, s) := default (ForkRow a b t text) (m !! (o, s))]> m)) d).
Proof.
  unfold record_fork, insert_or_ignore, has. cbv [mbind stm_bind get mret stm_ret modify].
  case_bool_decide as Hh; cbn; do 2 f_equal.
  - destruct Hh as [row Hrow]. unfold on_net, on_peer_forks. destruct d as [? ? [] ?]. cbn in *.
    rewrite Hrow. cbn. by rewrite insert_id.
  - apply eq_None_not_Some in Hh. unfold on_net, on_peer_forks. cbn. by rewrite Hh.
Qed.

Lemma ingest_fork_run key signed received id o prev d existing :
  find_event_id_at o (wrap_i64 (sequence (unsigned signed))) d = Ok (Some existing, d) →
  existing ≠ id →
  atomically (ingest_tx key signed received id o prev) d =
    match signed_to_string signed with
    | Err e => (Err (Canonicalize e), d)
    | Ok text =>
        (Ok (Forked existing id),
         on_net (on_peers (λ m, match m !! o with
            | None => m
            | Some r => <[o := PeerRow (pe_public_key r) (pe_name r) (pe_first_seen r)
                                 (pe_last_seen r) true]> m end))
         (on_net (on_peer_forks (λ m,
            <[(o, wrap_i64 (sequence (unsigned signed))) :=
               default (ForkRow existing id received text)
                 (m !! (o, wrap_i64 (sequence (unsigned signed))))]> m))
         (on_net (on_peers (λ m,
            <[o := match m !! o with
              | None => PeerRow (vk_bytes key) None received (Some received) false
              | Some r => PeerRow (pe_public_key r) (pe_name r) (pe_first_seen r)
                            (Some received) (pe_forked r)
              end]> m)) d)))
    end.
Proof.
  intros Hf Hne. unfold atomically, ingest_tx.
  rewrite (stm_bind_run _ _ _ (Some existing) d) by (unfold storage; by rewrite Hf).
  rewrite decide_False by done.
  erewrite stm_bind_run by reflexivity.
  destruct (signed_to_string signed) as [text|e]; [|done].
  erewrite stm_bind_run by reflexivity.
  erewrite stm_bind_run by (unfold storage; by rewrite record_fork_run).
  reflexivity.
Qed.

Lemma ingest_gap_run key signed received id o prev d :
  find_event_id_at o (wrap_i64 (sequence (unsigned signed))) d = Ok (None, d) →
  chained d → small d →
  let next := (Z.of_nat (length (chain_of o d)) + 1)%Z in
  match validate_chain next (last (chain_of o d)) (sequence (unsigned signed)) prev with
  | Err e => atomically (ingest_tx key signed received id o prev) d = (Err e, d)
  | Ok _ => ingest_tx key signed received id o prev d =
      (canonical ← lift (map_err Canonicalize (canonical_signed signed));
       sig ← lift (map_err HexError (hex_decode (signature signed)));
       _ ← storage (insert_event (stored_event id o (sequence (unsigned signed)) prev signed
             canonical sig (created_at (unsigned signed)) received));
       outcome ← project id (created_at (unsigned signed)) (payload (unsigned signed));
       _ ← storage (advance_origin o (wrap_i64 (sequence (unsigned signed))) id);
       mret (Applied id outcome)) d
  end.
Proof.
  intros Hf Hc Hs next. unfold atomically, ingest_tx.
  rewrite (stm_bind_run _ _ _ None d) by (unfold storage; by rewrite Hf).
  erewrite stm_bind_run by reflexivity.
  rewrite chain_position_chained by done. fold next.
  destruct (validate_chain _ _ _ _) as [[]|e].
  - by erewrite stm_bind_run by reflexivity.
  - by erewrite stm_bind_fail by reflexivity.
Qed.

Lemma ingest_cases key signed received id o prev d :
  chained d → small d → is_u64 (sequence (unsigned signed)) →
  check_envelope key signed = Ok (id, o, prev) →
  collision_free d id o (sequence (unsigned signed)) →
  let '(r, d') := ingest_remote_event key signed received d in
  ingested key signed received id o prev d r d'.
Proof.
  intros Hc Hs Hu Hcheck Hcol. unfold ingest_remote_event. rewrite Hcheck.
  apply check_envelope_inv in Hcheck as (Hv & _).
  apply verify_and_derive_inv in Hv as (? & decoded & ? & canon & _ & Hdec & _ & _ & Hcan & _).
  pose proof (find_event_id_at_chain d o _ Hc Hs Hu) as Hfind.
  pose proof (chain_length_small d o Hs) as Hlen.
  unfold ingested, offer. set (seq := sequence (unsigned signed)) in *.
  destruct (if decide _ then _ else _) as [existing|] eqn:Hex.
  - destruct (decide (existing = id)) as [->|Hne].
    + unfold atomically, ingest_tx. fold seq.
      rewrite (stm_bind_run _ _ _ (Some id) d) by (unfold storage; by rewrite Hfind).
      by rewrite decide_True.
    + assert (wrap_i64 seq = seq) as Hw.
      { apply wrap_i64_small. case_decide; [unfold is_i64; lia|done]. }
      rewrite (ingest_fork_run _ _ _ _ _ _ _ existing) by done. fold seq.
      destruct (signed_to_string signed); [|done]. rewrite Hw. cbn. split_and!; try done.
      * eexists. by rewrite !lookup_insert_eq.
      * by rewrite lookup_insert_eq.
  - pose proof (ingest_gap_run key signed received id o prev d Hfind Hc Hs) as Hrun.
    fold seq in Hrun. cbn zeta in Hrun. unfold validate_chain in Hrun.
    destruct (decide (seq = _)) as [Heq|Hne].
    2: { by rewrite (proj2 (Z.eqb_neq _ _) Hne) in Hrun; cbn [negb] in Hrun; rewrite Hrun. }
    rewrite (proj2 (Z.eqb_eq _ _) Heq) in Hrun. cbn [negb] in Hrun.
    destruct (decide (prev = _)) as [Hp|Hp]; [rewrite bool_decide_true in Hrun by done|].
    2: { rewrite bool_decide_false in Hrun by done. by rewrite Hrun. }
    set (e := stored_event id o seq prev signed canon decoded (created_at (unsigned signed)) received).
    assert (wrap_i64 seq = seq) as Hw by (apply wrap_i64_small; unfold is_i64; lia).
    assert (atomically (ingest_tx key signed received id o prev) d =
      match apply_row e (payload (unsigned signed)) d with
      | Ok (out, d1) => (Ok (Applied id out), d1)
      | Err err => (Err err, d)
      end) as ->.
    { unfold atomically. rewrite Hrun, Hcan, Hdec.
      do 2 (erewrite stm_bind_run by reflexivity). fold e.
      erewrite stm_bind_run.
      2: { unfold storage. rewrite insert_event_fresh; [done| |].
           - intros e' Hin Hid. pose proof (Hcol _ Hin Hid) as Hos.
             apply (next_is_free d o e' Hc Hs Hin). by rewrite Hos, Heq.
           - intros e' Hin Hos. apply (next_is_free d o e' Hc Hs Hin). rewrite Hos.
             cbn. by rewrite Hw, Heq. }
      unfold apply_row. cbn [er_event_id er_created_at e stored_event].
      cbv [mbind stm_bind]. by destruct (project id _ _ _) as [[out d1]|err]. }
    destruct (apply_row e _ d) as [[out d1]|err] eqn:Har; exists e; rewrite Har;
      split_and!; first [exact Hw|exact Hcan|done].
Qed.

Lemma log_chained d d' : log d' = log d → chained d → chained d'.
Proof. intros Hl [H1 H2 H3]. unfold of_origin in *. by split; unfold of_origin; rewrite Hl. Qed.

Definition grows (d d' : db) (r : result EventsError IngestOutcome) (o : hash32) : Prop :=
  ∀ o', chain_of o' d' = chain_of o' d ++
    match r with Ok (Applied id _) => if decide (o = o') then [id] else [] | _ => [] end.

Lemma grows_same d d' r o :
  log d' = log d → (∀ id out, r ≠ Ok (Applied id out)) → grows d d' r o.
Proof.
  intros Hl Hr o'. unfold chain_of, of_origin. rewrite Hl.
  destruct r as [[id out|?|??]|?]; try by rewrite app_nil_r. by destruct (Hr id out).
Qed.

Lemma fresh_next d id o prev s :
  chained d → small d → collision_free d id o s →
  offer (chain_of o d) s prev id = Extend →
  s = (Z.of_nat (length (chain_of o d)) + 1)%Z ∧ prev = last (chain_of o d) ∧
  id ∉ (er_event_id <$> events (log d)).
Proof.
  intros Hc Hs Hcol Hof. unfold offer in Hof.
  destruct (if decide (1 ≤ s ≤ _)%Z then _ else _); [by case_decide|].
  do 2 (case_decide; [|done]). split_and!; [done..|].
  intros (e & Hid & Hin)%list_elem_of_fmap.
  apply (next_is_free d o e Hc Hs Hin). symmetry in Hid. rewrite (Hcol _ Hin Hid). congruence.
Qed.

Lemma ingested_chained key signed received id o prev d r d' :
  chained d → small d → collision_free d id o (sequence (unsigned signed)) →
  ingested key signed received id o prev d r d' → chained d' ∧ grows d d' r o.
Proof.
  intros Hc Hs Hcol. unfold ingested.
  destruct (offer _ _ _ _) as [|existing|n|h|] eqn:Hof.
  - intros [-> ->]. split; [done|by apply grows_same].
  - destruct (signed_to_string signed).
    + intros (-> & Hl & _). split; [by eapply log_chained|by apply grows_same].
    + intros [-> ->]. split; [done|by apply grows_same].
  - intros [-> ->]. split; [done|by apply grows_same].
  - intros [-> ->]. split; [done|by apply grows_same].
  - intros (e & <- & <- & He & Hp & _ & _ & H).
    destruct (fresh_next _ _ _ _ _ Hc Hs Hcol Hof) as (Hn & Hl & Hfr).
    destruct (apply_row _ _ _) as [[out d1]|err] eqn:Har; destruct H as [-> ->].
    + apply apply_row_appended in Har. split.
      * eapply appended_chained; [done..| |]; congruence.
      * intros o'. by rewrite (chain_of_append _ _ _ o' Har).
    + split; [done|by apply grows_same].
Qed.

Lemma commit_chained sk p t d :
  chained d → small d → chained (commit_local_event sk p t d).2.
Proof.
  intros Hc Hs.
  destruct (commit_cases sk p t d Hc Hs) as [[e ->]|(signed & e & out & d' & -> & _ & _ & Ho & Hq
    & Hl & _ & Hfr & Har)]; [done|].
  apply apply_row_appended in Har.
  eapply appended_chained; [done..| |]; rewrite Ho; done.
Qed.

Lemma ingest_chained key signed received d :
  chained d → small d → is_u64 (sequence (unsigned signed)) →
  (∀ id o prev, check_envelope key signed = Ok (id, o, prev) →
     collision_free d id o (sequence (unsigned signed))) →
  chained (ingest_remote_event key signed received d).2.
Proof.
  intros Hc Hs Hu Hcol.
  destruct (check_envelope key signed) as [[[id o] prev]|e] eqn:Hcheck.
  - specialize (Hcol _ _ _ eq_refl).
    pose proof (ingest_cases _ _ received _ _ _ _ Hc Hs Hu Hcheck Hcol) as H.
    destruct (ingest_remote_event _ _ _ d) as [r d']. by apply ingested_chained in H as [? _].
  - unfold ingest_remote_event. by rewrite Hcheck.
Qed.

Lemma check_envelope_built `{!PlatformLaws P} sk s prev t p signed id :
  build_and_sign sk s prev t p = Ok (signed, id) →
  check_envelope (verifying_key sk) signed = Ok (id, identity_peer_id sk, prev).
Proof.
  intros H. pose proof (build_and_sign_fields _ _ _ _ _ _ _ H) as Hf. unfold build_and_sign in H.
  apply result_bind_ok in H as (cu & Hcu & H). apply result_bind_ok in H as (cs & Hcs & [= Hsg <-]).
  destruct (canonical_unsigned _) as [?|] eqn:Hcu'; [|done]. injection Hcu as ->.
  rewrite Hsg in Hcs. destruct (canonical_signed signed) as [?|] eqn:Hcs'; [|done].
  injection Hcs as ->. unfold check_envelope, verify_and_derive_id.
  rewrite Hcs', Hf, Hcu'. rewrite <-Hsg. cbn [signature origin_peer previous_event].
  rewrite hex_decode_encode. cbn [map_err mbind result_bind ok_or].
  rewrite to_array_raw. cbn [map_err mbind result_bind ok_or].
  unfold verify_with_domain, sign_with_domain. rewrite verify_sign.
  cbn [map_err mbind result_bind ok_or]. rewrite PeerId_from_to_string.
  cbn [map_err mbind result_bind ok_or]. rewrite bool_decide_true by done. cbn [negb].
  destruct prev as [h|]; [|done]. cbn. by rewrite Hash32_from_str_hex.
Qed.
Lemma applied_inv key signed received id out d d' :
  ingest_remote_event key signed received d = (Ok (Applied id out), d') →
  ∃ o prev, check_envelope key signed = Ok (id, o, prev).
Proof.
  unfold ingest_remote_event.
  destruct (check_envelope key signed) as [[[id' o] prev]|e]; [|done].
  intros Hrun%atomically_ok. exists o, prev. do 3 f_equal.
  unfold ingest_tx in Hrun. apply stm_bind_ok in Hrun as ([existing|] & d0 & _ & Hrun).
  - case_decide; [done|]. by minv.
  - apply stm_bind_ok in Hrun as (? & ? & _ & Hrun). destruct (chain_position _). by minv.
Qed.

Lemma ingested_applied key signed received id o prev d out d' :
  ingested key signed received id o prev d (Ok (Applied id out)) d' →
  ∃ e, offer (chain_of o d) (sequence (unsigned signed)) prev id = Extend ∧
       er_event_id e = id ∧ er_origin_peer_id e = o ∧ er_sequence e = sequence (unsigned signed) ∧
       events (log d') = events (log d) ++ [e].
Proof.
  unfold ingested. destruct (offer _ _ _ _) as [|x|n|h|]; [naive_solver| |naive_solver..|].
  - destruct (signed_to_string _); naive_solver.
  - intros (e & ? & ? & ? & _ & _ & _ & H). exists e.
    destruct (apply_row e _ d) as [[? d1]|] eqn:Har; [|naive_solver].
    apply apply_row_appended in Har as (Hev & _). destruct H as [_ ->]. naive_solver.
Qed.
End operations.

(** ** Properties *)

(** The envelope of an ingested event is what its origin signed: [key] verifies
    the signature over the canonical event, the claimed origin is the hash of
    that very key, and the event's id is the hash of its canonical bytes. *)
Definition authentic `{Platform} `{Codec} (key : VerifyingKey) (signed : SignedEvent)
    (id : hash32) : Prop :=
  PeerId_from_str (origin_peer (unsigned signed)) = Ok (blake3 (raw (vk_bytes key))) ∧
  ∃ canon sig canon_s,
    canonical_unsigned (unsigned signed) = Ok canon ∧
    hex_decode (signature signed) = Ok (raw sig) ∧
    ed25519_verify key (EVENT_DOMAIN +:+ canon) sig = Ok () ∧
    canonical_signed signed = Ok canon_s ∧ id = blake3 (EVENT_DOMAIN +:+ canon_s).

Definition outcome_id (o : IngestOutcome) : hash32 :=
  match o with Applied id _ | AlreadyKnown id | Forked _ id => id end.

Section properties.
Context `{P : Platform} `{C : Codec}.

(** C6: Ingesting a checked event implements the decision [offer] on the origin's
    chain: an event held already is a no-op, a different event at a held
    sequence number is a fork (recorded with its text, the origin flagged,
    log and graph untouched), a gap or a wrong predecessor is refused with
    the typed error and no change, and the next event is stored and projected
    or, if its projection fails, refused with no change.  The chains of all
    origins stay well linked; only an applied event makes one longer. *)
Theorem ingest_implements_offer key signed received id o prev d :
  chained d → small d → is_u64 (sequence (unsigned signed)) →
  check_envelope key signed = Ok (id, o, prev) →
  collision_free d id o (sequence (unsigned signed)) →
  let '(r, d') := ingest_remote_event key signed received d in
  ingested key signed received id o prev d r d' ∧ chained d' ∧ grows d d' r o.
Proof.
  intros Hc Hs Hu Hcheck Hcol. pose proof (ingest_cases _ _ received _ _ _ _ Hc Hs Hu Hcheck Hcol) as H.
  destruct (ingest_remote_event key signed received d) as [r d']. split; [done|].
  by eapply ingested_chained.
Qed.

(** C7: Committing a local event appends exactly one event to this peer's own
    chain - the next sequence number, linked to the head, signed by this peer
    - and leaves every other chain alone, or fails and changes nothing. *)
Theorem commit_extends_chain sk p t d :
  chained d → small d →
  let o := identity_peer_id sk in
  let '(r, d') := commit_local_event sk p t d in
  chained d' ∧
  match r with
  | Err _ => d' = d
  | Ok (id, _) =>
      (∀ o', chain_of o' d' = chain_of o' d ++ (if decide (o = o') then [id] else [])) ∧
      ∃ signed, build_and_sign sk (Z.of_nat (length (chain_of o d)) + 1) (last (chain_of o d)) t p
                  = Ok (signed, id)
  end.
Proof.
  intros Hc Hs o.
  pose proof (commit_chained sk p t d Hc Hs) as Hc'.
  destruct (commit_cases sk p t d Hc Hs) as [[e ->]|(signed & e & out & d' & Hr & Hb & _ & Ho & _
    & _ & _ & _ & Har)]; [done|].
  rewrite Hr in *. apply apply_row_appended in Har. split; [done|].
  split; [|by exists signed]. intros o'. by rewrite (chain_of_append _ _ _ _ Har), Ho.
Qed.

(** C8: Nothing unauthentic gets in: if ingesting returns anything but an error the
    event is authentic under the caller's key; on an error the database is
    unchanged. *)
Theorem ingest_authentic key signed received d :
  match ingest_remote_event key signed received d with
  | (Ok outcome, _) => authentic key signed (outcome_id outcome)
  | (Err _, d') => d' = d
  end.
Proof.
  unfold ingest_remote_event.
  destruct (check_envelope key signed) as [[[id o] prev]|e] eqn:Hcheck; [|done].
  destruct (atomically _ d) as [[outcome|e] d'] eqn:Hrun; [|by apply atomically_err in Hrun].
  apply atomically_ok in Hrun. assert (outcome_id outcome = id) as ->.
  { unfold ingest_tx in Hrun. apply stm_bind_ok in Hrun as ([existing|] & d0 & _ & Hrun).
    - case_decide; [by injection Hrun as <- _|]. by minv.
    - apply stm_bind_ok in Hrun as (? & ? & _ & Hrun). destruct (chain_position _). by minv. }
  apply check_envelope_inv in Hcheck as (Hv & Hp & -> & _).
  apply verify_and_derive_inv in Hv as (cu & dec & sig & cs & Hcu & Hdec & Hsig & Hver & Hcs & ->).
  split; [done|]. exists cu, sig, cs. apply to_array_Some in Hsig as Hraw. by rewrite Hraw.
Qed.

(** Duplicate delivery is harmless: once an event was applied, offering it
    again, at any time, reports it as known and changes nothing. *)
Theorem ingest_idempotent key signed received received' id out d d' :
  chained d → small d → small d' → is_u64 (sequence (unsigned signed)) →
  (∀ o, collision_free d id o (sequence (unsigned signed))) →
  ingest_remote_event key signed received d = (Ok (Applied id out), d') →
  ingest_remote_event key signed received' d' = (Ok (AlreadyKnown id), d').
Proof.
  intros Hc Hs Hs' Hu Hcol Hrun.
  destruct (applied_inv _ _ _ _ _ _ _ Hrun) as (o & prev & Hcheck).
  pose proof (ingest_cases _ _ received _ _ _ _ Hc Hs Hu Hcheck (Hcol o)) as H.
  rewrite Hrun in H. pose proof (ingested_chained _ _ _ _ _ _ _ _ _ Hc Hs (Hcol o) H) as [Hc' Hg].
  destruct (ingested_applied _ _ _ _ _ _ _ _ _ H) as (e & Hof & Hid & Ho & Hq & Hev).
  destruct (fresh_next _ _ _ _ _ Hc Hs (Hcol o) Hof) as (Hn & _ & _).
  assert (collision_free d' id o (sequence (unsigned signed))) as Hcol'.
  { intros e' Hin Hid'. rewrite Hev in Hin.
    apply elem_of_app in Hin as [Hin| ->%list_elem_of_singleton]; [by apply Hcol|congruence]. }
  pose proof (ingest_cases _ _ received' _ _ _ _ Hc' Hs' Hu Hcheck Hcol') as H'.
  destruct (ingest_remote_event key signed received' d') as [r'' d''].
  unfold ingested in H'. specialize (Hg o). cbn in Hg. rewrite decide_True in Hg by done.
  replace (offer _ _ _ _) with Duplicate in H'; [by destruct H' as [-> ->]|].
  symmetry. unfold offer. rewrite Hg, length_app. cbn [length].
  rewrite decide_True by lia. rewrite Hn.
  replace (Z.to_nat _) with (length (chain_of o d)) by lia.
  rewrite list_lookup_middle by done. by rewrite decide_True.
Qed.

(** Replication: an event one peer commits to its own chain is, for any other
    database holding the same chain of that peer, authentic and the next one:
    ingesting it extends the chain by the same event - unless what it refers
    to is missing there, in which case nothing changes. *)
Theorem committed_event_replicates `{!PlatformLaws P} sk p t d1 d1' id out d2 received :
  let o := identity_peer_id sk in
  chained d1 → small d1 → chained d2 → small d2 → chain_of o d1 = chain_of o d2 →
  commit_local_event sk p t d1 = (Ok (id, out), d1') →
  unused d2 id →
  ∃ signed, verify_and_derive_id signed (verifying_key sk) = Ok id ∧
    match ingest_remote_event (verifying_key sk) signed received d2 with
    | (Ok outcome, d2') =>
        (∃ out', outcome = Applied id out') ∧ chain_of o d2' = chain_of o d1'
    | (Err _, d2') => d2' = d2
    end.
Proof.
  intros o Hc1 Hs1 Hc2 Hs2 Heq Hrun Hfr.
  destruct (commit_cases sk p t d1 Hc1 Hs1) as [[e He]|(signed & e & out' & d' & Hr & Hb & _ & Ho
    & _ & _ & _ & _ & Har)]; [congruence|].
  rewrite Hrun in Hr. injection Hr as -> <- <-. fold o in Hb, Ho.
  pose proof (check_envelope_built _ _ _ _ _ _ _ Hb) as Hcheck.
  pose proof (build_and_sign_fields _ _ _ _ _ _ _ Hb) as Hf.
  pose proof (chain_length_small d1 o Hs1) as Hlen. exists signed.
  split; [by apply check_envelope_inv in Hcheck as [? _]|].
  assert (is_u64 (sequence (unsigned signed))) as Hu by (rewrite Hf; cbn; unfold is_u64; lia).
  assert (collision_free d2 (er_event_id e) o (sequence (unsigned signed))) as Hcol
    by (by apply unused_collision_free).
  pose proof (ingest_cases _ _ received _ _ _ _ Hc2 Hs2 Hu Hcheck Hcol) as H.
  destruct (ingest_remote_event _ _ _ d2) as [r d2'].
  destruct (ingested_chained _ _ _ _ _ _ _ _ _ Hc2 Hs2 Hcol H) as [_ Hg]. unfold ingested in H. fold o in H.
  replace (offer _ _ _ _) with Extend in H.
  - destruct H as (e' & _ & _ & _ & _ & _ & _ & H).
    destruct (apply_row e' _ d2) as [[out'' ?]|]; destruct H as [-> ->]; [|done].
    split; [by eexists|]. specialize (Hg o). cbn in Hg. rewrite decide_True in Hg by done.
    rewrite Hg, <-Heq. apply apply_row_appended in Har.
    by rewrite (chain_of_append _ _ _ _ Har), decide_True.
  - symmetry. rewrite Hf. cbn [sequence]. unfold offer. rewrite <-Heq.
    rewrite (decide_False (P := (1 ≤ _ ≤ _)%Z)) by lia.
    by rewrite !decide_True.
Qed.
End properties.

(** ** Witnesses: alice's history *)

Section witnesses.
#[local] Existing Instance Toy.platform.
#[local] Existing Instance demo_codec.

Lemma declared_chained : chained declared_db.
Proof. apply commit_chained; [apply chained_empty|done]. Qed.
Lemma declared_small : small declared_db.
Proof. vm_compute. reflexivity. Qed.

(** Running the demo, results only. *)
Lemma demo_ingest :
  (ingest_remote_event alice (event_of e2) 200 declared_db).1 = Ok (Applied (id_of e2) OutcomeUnit).
Proof. vm_compute. reflexivity. Qed.
Lemma demo_commit :
  (commit_local_event alice (assert_p writer "implements") 101 declared_db).1
    = Ok (id_of e2, OutcomeUnit).
Proof. vm_compute. reflexivity. Qed.
Lemma demo_check :
  check_envelope alice (event_of e2)
    = Ok (id_of e2, identity_peer_id alice, Some (id_of e1)).
Proof. vm_compute. reflexivity. Qed.
Lemma demo_fresh o s : collision_free declared_db (id_of e2) o s.
Proof. apply unused_collision_free, unusedb_spec. vm_compute. reflexivity. Qed.
Lemma demo_u64 : is_u64 (sequence (unsigned (event_of e2))).
Proof. by vm_compute. Qed.

Lemma ingest_implements_offer_witness :
  let d' := (ingest_remote_event alice (event_of e2) 200 declared_db).2 in
  chained d' ∧ grows declared_db d' (Ok (Applied (id_of e2) OutcomeUnit)) (identity_peer_id alice).
Proof.
  pose proof (ingest_implements_offer alice (event_of e2) 200 _ _ _ declared_db declared_chained
    declared_small demo_u64 demo_check (demo_fresh _ _)) as H.
  pose proof demo_ingest as Hr.
  destruct (ingest_remote_event _ _ _ declared_db) as [r d'].
  cbn [fst snd] in Hr |- *. rewrite Hr in H. apply H.
Defined.

Lemma commit_extends_chain_witness :
  chain_of (identity_peer_id alice)
    (commit_local_event alice (assert_p writer "implements") 101 declared_db).2 =
  chain_of (identity_peer_id alice) declared_db ++ [id_of e2].
Proof.
  pose proof (commit_extends_chain alice (assert_p writer "implements") 101 declared_db
    declared_chained declared_small) as H. cbn zeta in H. pose proof demo_commit as Hr.
  destruct (commit_local_event _ _ _ _) as [r d']. cbn [fst snd] in Hr |- *.
  rewrite Hr in H. destruct H as (_ & H & _).
  rewrite H. rewrite decide_True by reflexivity. reflexivity.
Defined.

Lemma ingest_idempotent_witness :
  let d' := (ingest_remote_event alice (event_of e2) 200 declared_db).2 in
  ingest_remote_event alice (event_of e2) 300 d' = (Ok (AlreadyKnown (id_of e2)), d').
Proof.
  pose proof demo_ingest as Hr.
  assert (Z.of_nat (length (events (log (ingest_remote_event alice (event_of e2) 200 declared_db).2)))
    = 2)%Z as Hlen by (vm_compute; reflexivity).
  destruct (ingest_remote_event _ _ _ declared_db) as [r d'] eqn:Hd.
  cbn [fst snd] in Hr, Hlen |- *. rewrite Hr in Hd.
  apply (@ingest_idempotent Toy.platform demo_codec alice (event_of e2) 200 300 (id_of e2) OutcomeUnit declared_db d'
    declared_chained declared_small); 
    [unfold small; rewrite Hlen; reflexivity|exact demo_u64|intros o; exact (demo_fresh o _)
    |exact Hd].
Defined.

(** Bob's database holds alice's first event, received from her. *)
Definition bob_db : db := (ingest_remote_event alice (event_of e1) 150 empty_db).2.

Lemma bob_chained : chained bob_db.
Proof.
  apply ingest_chained; [apply chained_empty|done|by vm_compute|].
  intros id o prev _ e Hin. by apply not_elem_of_nil in Hin.
Qed.
Lemma bob_small : small bob_db.
Proof. vm_compute. reflexivity. Qed.
Lemma bob_fresh : unused bob_db (id_of e2).
Proof. apply unusedb_spec. vm_compute. reflexivity. Qed.
Lemma bob_same_chain :
  chain_of (identity_peer_id alice) declared_db = chain_of (identity_peer_id alice) bob_db.
Proof. vm_compute. reflexivity. Qed.

Lemma committed_event_replicates_witness :
  ∃ signed, verify_and_derive_id signed alice = Ok (id_of e2) ∧
    match ingest_remote_event alice signed 200 bob_db with
    | (Ok outcome, d2') => (∃ out', outcome = Applied (id_of e2) out') ∧
        chain_of (identity_peer_id alice) d2' =
        chain_of (identity_peer_id alice)
          (commit_local_event alice (assert_p writer "implements") 101 declared_db).2
    | (Err _, d2') => d2' = bob_db
    end.
Proof.
  pose proof demo_commit as Hr.
  destruct (commit_local_event _ _ _ declared_db) as [r d'] eqn:Hd.
  cbn [fst snd] in Hr |- *. rewrite Hr in Hd.
  apply (@committed_event_replicates Toy.platform demo_codec Toy.laws alice
    (assert_p writer "implements") 101 declared_db d' (id_of e2) OutcomeUnit bob_db 200
    declared_chained declared_small bob_chained bob_small bob_same_chain Hd bob_fresh).
Defined.
End witnesses.
