(* ===== verification/Replay.v ===== *)
(** * Replaying the log

    The graph tables as a function of the event log: [replay] folds the
    projector over the events from the empty database.  What a database really
    holds differs from it only where the operator redacted; the projector does
    not see the difference. *)

From S2P Require Import Prelude Core Envelope Store Projector EventLog Frame Scenario Chain.

(** ** Redaction as a function on the tables *)

Definition scrub_map {A} (f : A → A) (ids : gset hash32) (m : gmap hash32 A) : gmap hash32 A :=
  map_imap (λ id r, Some (if decide (id ∈ ids) then f r else r)) m.

Section scrub_map.
Context {A : Type} (f : A → A).

Lemma scrub_map_lookup ids m id :
  scrub_map f ids m !! id = (λ r, if decide (id ∈ ids) then f r else r) <$> m !! id.
Proof. unfold scrub_map. rewrite map_lookup_imap. by destruct (m !! id). Qed.
Lemma scrub_map_has ids m id : has id (scrub_map f ids m) = has id m.
Proof. unfold has. rewrite scrub_map_lookup. apply bool_decide_ext. by rewrite fmap_is_Some. Qed.
Lemma scrub_map_insert ids m id r :
  id ∉ ids → scrub_map f ids (<[id := r]> m) = <[id := r]> (scrub_map f ids m).
Proof.
  intros Hid. apply map_eq. intros k. rewrite scrub_map_lookup.
  destruct (decide (k = id)) as [->|].
  - rewrite !lookup_insert_eq. cbn. by rewrite decide_False.
  - by rewrite !lookup_insert_ne, scrub_map_lookup.
Qed.
Lemma scrub_map_empty_ids m : scrub_map f ∅ m = m.
Proof.
  apply map_eq. intros k. rewrite scrub_map_lookup.
  destruct (m !! k); cbn; [|done]. by rewrite decide_False by set_solver.
Qed.
(** Scrubbing one more row, when [f] is idempotent. *)
Lemma scrub_map_union ids m id r :
  scrub_map f ids m !! id = Some r → (∀ x, f (f x) = f x) →
  scrub_map f ({[id]} ∪ ids) m = <[id := f r]> (scrub_map f ids m).
Proof.
  intros Hr Hf. apply map_eq. intros k. rewrite scrub_map_lookup in Hr |- *.
  destruct (decide (k = id)) as [->|Hk].
  - rewrite lookup_insert_eq. destruct (m !! id); [|done]. cbn in *. injection Hr as <-.
    rewrite decide_True by set_solver. case_decide; by rewrite ?Hf.
  - rewrite lookup_insert_ne, scrub_map_lookup by done.
    destruct (m !! k); [|done]. cbn. f_equal.
    destruct (decide (k ∈ ids)); [rewrite decide_True|rewrite decide_False]; set_solver.
Qed.
Lemma scrub_map_missing ids m id :
  scrub_map f ids m !! id = None → scrub_map f ({[id]} ∪ ids) m = scrub_map f ids m.
Proof.
  intros Hr. apply map_eq. intros k. rewrite !scrub_map_lookup.
  rewrite scrub_map_lookup in Hr. destruct (m !! k) eqn:Hm; [|done]. cbn. f_equal.
  destruct (decide (k ∈ ids)); [rewrite decide_True|rewrite decide_False]; try set_solver.
  intros [->%elem_of_singleton|]%elem_of_union; [|done]. by rewrite Hm in Hr.
Qed.
End scrub_map.

Definition scrub (ev ac : gset hash32) (p : projection) : projection :=
  on_evidence (scrub_map redacted_evidence ev) (on_actors (scrub_map redacted_actor ac) p).

Lemma scrub_empty p : scrub ∅ ∅ p = p.
Proof.
  unfold scrub, on_evidence, on_actors. cbn. rewrite !scrub_map_empty_ids. by destruct p.
Qed.

(** ** Replaying *)

Section replay.
Context `{P : Platform} `{C : Codec}.

Definition replay_row (e : event_row) : txe () :=
  signed ← lift (map_err Canonicalize (signed_from_slice (er_canonical_payload e)));
  _ ← project (er_event_id e) (er_created_at e) (payload (unsigned signed));
  mret ().

Fixpoint replay (rows : list event_row) (d : db) : option db :=
  match rows with
  | [] => Some d
  | e :: rows =>
      match replay_row e (append_event e d) with Ok (_, d') => replay rows d' | Err _ => None end
  end.

Lemma replay_snoc rows e d :
  replay (rows ++ [e]) d =
    d1 ← replay rows d;
    match replay_row e (append_event e d1) with Ok (_, d') => Some d' | Err _ => None end.
Proof.
  revert d. induction rows as [|e' rows IH]; intros d; cbn.
  - by destruct (replay_row e _) as [[??]|].
  - destruct (replay_row e' _) as [[??]|]; [apply IH|done].
Qed.

(** ** The projector does not see redactions, other origins' log rows, or
    references recorded already *)

(** [d] looks like [d0] to the projection of event [id]: its tables are those
    of [d0], scrubbed, and it may hold more references ([extra]). *)
Record alike (id : hash32) (ev ac : gset hash32) (extra : gset (string * hash32 * hash32))
    (d0 d : db) : Prop := {
  alike_proj : proj d = scrub ev ac (proj d0);
  alike_refs : event_refs (log d) = event_refs (log d0) ∪ extra;
  alike_event0 : has_event id d0 = true;
  alike_event : has_event id d = true;
  alike_actors a : a ∈ ac → is_Some (actors (proj d0) !! a) }.

Context (id : hash32) (ev ac : gset hash32) (extra : gset (string * hash32 * hash32)).
Hypothesis fresh : id ∉ ev.
#[local] Abbreviation R := (alike id ev ac extra).

Lemma respects_storage {A} (m : tx A) : respects R m → respects R (storage m).
Proof.
  intros Hm d0 d Hd. specialize (Hm d0 d Hd). unfold storage.
  by destruct (m d0) as [[??]|], (m d) as [[??]|].
Qed.

(** A write that commutes with scrubbing and loses no actor. *)
Lemma alike_on_proj g d0 d :
  R d0 d → g (scrub ev ac (proj d0)) = scrub ev ac (g (proj d0)) →
  (∀ a, is_Some (actors (proj d0) !! a) → is_Some (actors (g (proj d0)) !! a)) →
  R (on_proj g d0) (on_proj g d).
Proof.
  intros [Hp Hr He0 He Ha] Hg Hact. split; [|done..|by intros; apply Hact, Ha].
  cbn. by rewrite Hp, Hg.
Qed.

(** The statements of a repository function, side by side. *)
Lemma insert_into_alike t free1 free2 fk1 fk2 f1 f2 d0 d :
  free1 = free2 → fk1 = fk2 → (free1 = true → R (f1 d0) (f2 d)) →
  match insert_into t free1 fk1 f1 d0, insert_into t free2 fk2 f2 d with
  | Ok (a1, s1'), Ok (a2, s2') => a1 = a2 ∧ R s1' s2'
  | Err _, Err _ => True
  | _, _ => False
  end.
Proof.
  intros <- <- Hf. unfold insert_into. destruct free1; cbn; [|done].
  destruct fk1; cbn; [|done]. split; [done|by apply Hf].
Qed.
Lemma insert_or_ignore_alike {B} t free1 free2 fk1 fk2 f1 f2 d0 d (k : bool → tx B) :
  R d0 d → free1 = free2 → fk1 = fk2 → (free1 = true → R (f1 d0) (f2 d)) →
  (∀ b, respects R (k b)) →
  match (insert_or_ignore t free1 fk1 f1 ≫= k) d0, (insert_or_ignore t free2 fk2 f2 ≫= k) d with
  | Ok (a1, s1'), Ok (a2, s2') => a1 = a2 ∧ R s1' s2'
  | Err _, Err _ => True
  | _, _ => False
  end.
Proof.
  intros Hd <- <- Hf Hk. cbv [mbind stm_bind]. unfold insert_or_ignore.
  destruct free1; cbn; [|by apply Hk]. destruct fk1; cbn; [|done]. by apply Hk, Hf.
Qed.

Lemma respects_get {A} (k : db → tx A) :
  (∀ d0 d, R d0 d →
     match k d0 d0, k d d with
     | Ok (a1, s1'), Ok (a2, s2') => a1 = a2 ∧ R s1' s2'
     | Err _, Err _ => True
     | _, _ => False
     end) → respects R (get ≫= k).
Proof. intros Hk d0 d Hd. apply Hk, Hd. Qed.

(** Reading what scrubbing leaves alone. *)
Lemma respects_read {A B} (g : projection → B) (k : B → result StorageError A) :
  (∀ p, g (scrub ev ac p) = g p) → respects R (d ← get; lift (k (g (proj d)))).
Proof.
  intros Hg. apply respects_get. intros d0 d Hd. rewrite (alike_proj _ _ _ _ _ _ Hd), Hg.
  unfold lift. by destruct (k _).
Qed.

(** [sides Hd]: the side conditions of the two lemmas above for a table other
    than [evidence] and [actors]. *)
Ltac sides Hd :=
  first
    [ exact Hd
    | reflexivity
    | rewrite (alike_proj _ _ _ _ _ _ Hd); cbn; rewrite ?scrub_map_has; reflexivity
    | intros _; apply alike_on_proj; [exact Hd|reflexivity|done]
    | intros; apply respects_ret ].
Ltac plain_insert :=
  apply respects_get; intros d0 d Hd;
  first [apply insert_into_alike | apply insert_or_ignore_alike]; sides Hd.

Lemma nodes_get_alike n : respects R (nodes_get_by_id n).
Proof. by apply (respects_read nodes (λ m, transpose (row_to_node n <$> m !! n))). Qed.
Lemma assertions_get_alike n : respects R (assertions_get_by_id n).
Proof. by apply (respects_read assertions (λ m, transpose (row_to_assertion n <$> m !! n))). Qed.
Lemma nodes_insert_alike n : respects R (nodes_insert_if_missing n).
Proof. apply respects_bind; [apply respects_lift|intros md]. plain_insert. Qed.
Lemma nodes_insert_alias_alike a : respects R (nodes_insert_alias a).
Proof. plain_insert. Qed.
Lemma edges_insert_alike e : respects R (edges_insert_if_missing e).
Proof. plain_insert. Qed.
Lemma assertions_insert_alike a : respects R (assertions_insert a).
Proof. plain_insert. Qed.
Lemma insert_dispute_alike i a c r t : respects R (assertions_insert_dispute i a c r t).
Proof. plain_insert. Qed.
Lemma insert_retraction_alike i a c r t : respects R (assertions_insert_retraction i a c r t).
Proof. plain_insert. Qed.
Lemma insert_supersession_alike i o n c t : respects R (assertions_insert_supersession i o n c t).
Proof. plain_insert. Qed.
Lemma insert_observation_alike i a o r t c : respects R (assertions_insert_observation i a o r t c).
Proof. plain_insert. Qed.
Lemma create_key_alike k a ps t : respects R (actors_create_key k a ps t).
Proof. apply respects_bind; [apply respects_lift|intros md]. plain_insert. Qed.

Lemma set_status_alike a st : respects R (assertions_set_status a st).
Proof.
  apply respects_get. intros d0 d Hd. rewrite (alike_proj _ _ _ _ _ _ Hd). cbn.
  destruct (assertions (proj d0) !! a) as [r|]; cbn; [|by split].
  split; [done|]. by apply alike_on_proj.
Qed.
Lemma revoke_key_alike k t : respects R (actors_revoke_key k t).
Proof.
  apply respects_get. intros d0 d Hd. rewrite (alike_proj _ _ _ _ _ _ Hd). cbn.
  destruct (actor_keys (proj d0) !! k) as [[? ? ? [?|]]|]; cbn; [by split| |by split].
  split; [done|]. by apply alike_on_proj.
Qed.
Lemma insert_evidence_alike v : v_id v = id → respects R (assertions_insert_evidence v).
Proof.
  intros Hv. apply respects_bind; [apply respects_lift|intros md].
  apply respects_get. intros d0 d Hd. apply insert_into_alike; [sides Hd..|]. intros _.
  apply alike_on_proj; [done| |done].
  unfold scrub, on_evidence, on_actors. cbn. by rewrite Hv, scrub_map_insert.
Qed.
Lemma actors_insert_alike a : respects R (actors_insert a).
Proof.
  apply respects_bind; [apply respects_lift|intros md].
  apply respects_get. intros d0 d Hd. apply insert_or_ignore_alike; [sides Hd..| |sides Hd].
  intros Hnew. assert (t_id a ∉ ac) as Hac.
  { intros Hin%(alike_actors _ _ _ _ _ _ Hd). unfold has in Hnew. by rewrite bool_decide_true in Hnew. }
  apply alike_on_proj; [done| |].
  - unfold scrub, on_evidence, on_actors. cbn. by rewrite scrub_map_insert.
  - intros b Hb. cbn. destruct (decide (b = t_id a)) as [->|]; [by rewrite lookup_insert_eq|].
    by rewrite lookup_insert_ne.
Qed.
Lemma add_ref_alike ty x : respects R (add_ref id ty x).
Proof.
  clear fresh.
  apply respects_get. intros d0 d Hd. cbv [mbind stm_bind]. unfold insert_or_ignore.
  pose proof Hd as [Hp Hr He0 He Ha]. rewrite He, He0, Hr.
  destruct (decide ((ty, x, id) ∈ event_refs (log d0))) as [Hin|Hin].
  - rewrite !bool_decide_true by set_solver. by split.
  - rewrite (bool_decide_false _ Hin). cbn.
    destruct (decide ((ty, x, id) ∈ extra)) as [Hx|Hx].
    + rewrite bool_decide_true by set_solver. cbn. split; [done|].
      split; [done| |done..]. cbn. rewrite Hr. set_solver.
    + rewrite bool_decide_false by set_solver. cbn. split; [done|].
      split; [done| |done..]. cbn. rewrite Hr. set_solver.
Qed.
End replay.

Section project.
Context `{P : Platform} `{C : Codec}.
Context (id : hash32) (ev ac : gset hash32) (extra : gset (string * hash32 * hash32)).
Hypothesis fresh : id ∉ ev.

(** Walk through a program whose repository calls all respect [alike]. *)
Ltac repo_call :=
  apply respects_storage;
  first
    [ apply nodes_get_alike | apply assertions_get_alike | apply nodes_insert_alike
    | apply nodes_insert_alias_alike | apply edges_insert_alike | apply assertions_insert_alike
    | apply insert_dispute_alike | apply insert_retraction_alike
    | apply insert_supersession_alike | apply insert_observation_alike | apply create_key_alike
    | apply set_status_alike | apply revoke_key_alike | apply actors_insert_alike
    | apply add_ref_alike | apply insert_evidence_alike; [done|reflexivity] ].
Ltac respects_tac :=
  repeat first
    [ progress intros
    | repo_call
    | apply respects_lift | apply respects_ret | apply respects_throw | apply respects_bind
    | case_match ].

Lemma project_alike created p : respects (alike id ev ac extra) (project id created p).
Proof.
  destruct p; unfold_payloads; unfold resolve_or_create_node, require_assertion; respects_tac.
Qed.

Lemma replay_row_alike e :
  er_event_id e = id → respects (alike id ev ac extra) (replay_row e).
Proof.
  intros He. unfold replay_row. rewrite He.
  apply respects_bind; [apply respects_lift|intros signed].
  apply respects_bind; [by apply project_alike|intros; apply respects_ret].
Qed.
End project.

(** ** The tables are the replayed log, scrubbed *)

Section restores.
Context `{P : Platform} `{C : Codec}.

Definition redacted_events (d : db) : gset hash32 := dom (redactions (ops d)).
Definition redacted_actors (d : db) : gset hash32 := dom (actor_redactions (ops d)).

Definition restores (d : db) : Prop :=
  ∃ d0, replay (events (log d)) empty_db = Some d0 ∧
    proj d = scrub (redacted_events d) (redacted_actors d) (proj d0) ∧
    event_refs (log d) = event_refs (log d0) ∧
    (∀ id, id ∈ redacted_events d → id ∈ er_event_id <$> events (log d)) ∧
    (∀ a, a ∈ redacted_actors d → is_Some (actors (proj d0) !! a)).

Lemma has_event_append e d : has_event (er_event_id e) (append_event e d) = true.
Proof.
  unfold has_event, append_event, on_log, on_events. cbn. rewrite existsb_app. cbn.
  rewrite bool_decide_true by done. by rewrite orb_true_r.
Qed.

Lemma restores_empty : restores empty_db.
Proof.
  exists empty_db. unfold redacted_events, redacted_actors. cbn. rewrite !dom_empty_L.
  split_and!; [done|by rewrite scrub_empty|done|set_solver..].
Qed.

(** Operations on the peer tables and the heads are not seen. *)
Lemma restores_frame d d' :
  events (log d') = events (log d) → event_refs (log d') = event_refs (log d) →
  proj d' = proj d → redactions (ops d') = redactions (ops d) →
  actor_redactions (ops d') = actor_redactions (ops d) → restores d → restores d'.
Proof.
  intros He Hr Hp Hrd Har (d0 & H). exists d0. unfold redacted_events, redacted_actors in *.
  by rewrite He, Hr, Hp, Hrd, Har.
Qed.

Lemma restores_apply e p d out d' signed :
  restores d → er_event_id e ∉ (er_event_id <$> events (log d)) →
  signed_from_slice (er_canonical_payload e) = Ok signed → payload (unsigned signed) = p →
  apply_row e p d = Ok (out, d') → restores d'.
Proof.
  intros (d0 & Hrep & Hp & Hr & Hred & Hact) Hfresh Hs <- Happ.
  pose proof (apply_row_appended _ _ _ _ _ Happ) as (Hev & _ & _ & Hops).
  unfold apply_row in Happ.
  destruct (project _ _ _ (append_event e d)) as [[out1 d1]|] eqn:Hpr; [|done].
  injection Happ as -> <-.
  set (ev := redacted_events d) in *. set (ac := redacted_actors d) in *.
  assert (er_event_id e ∉ ev) as Hnev by (intros Hin; by apply Hfresh, Hred).
  assert (alike (er_event_id e) ev ac ∅ (append_event e d0) (append_event e d)) as Hal.
  { split; [exact Hp| |apply has_event_append..|exact Hact].
    cbn. rewrite Hr. set_solver. }
  destruct (respects_run_back _ _ _ _ _ _
    (project_alike _ ev ac ∅ Hnev (er_created_at e) (payload (unsigned signed))) Hal Hpr)
    as (d0' & Hpr0 & Hal').
  exists d0'. rewrite Hev. unfold redacted_events, redacted_actors. rewrite Hops.
  fold (redacted_events d) (redacted_actors d). fold ev ac. split_and!.
  - rewrite replay_snoc, Hrep. cbn [mbind option_bind]. unfold replay_row.
    rewrite Hs. cbn [map_err]. erewrite stm_bind_run by reflexivity.
    by erewrite stm_bind_run by exact Hpr0.
  - apply Hal'.
  - cbn. rewrite (alike_refs _ _ _ _ _ _ Hal'). set_solver.
  - intros i Hi. rewrite fmap_app. apply elem_of_app. left. by apply Hred.
  - apply Hal'.
Qed.
End restores.
