(* ===== verification/Service.v ===== *)
(** * A running process

    What a long-lived service carries between calls: its database, and how
    many times it has read the clock.  A transaction of the store commits or
    rolls back as a whole; statements run one by one on a connection commit
    one by one. *)

From S2P Require Import Prelude Core Envelope Store.

Record service := Svc { store : db; ticks : nat }.

(** [SystemTime::now()], in seconds; the readings are arbitrary. *)
Definition read_clock {E} (clock : nat → Z) : ste service E Z := λ s,
  (Ok (clock (ticks s)), Svc (store s) (S (ticks s))).

(** A function that runs its own transaction. *)
Definition transact {E F A} (conv : E → F) (f : db → result E A * db) : ste service F A := λ s,
  let '(r, d) := f (store s) in (map_err conv r, Svc d (ticks s)).

(** One statement on a connection. *)
Definition statement {F A} (conv : StorageError → F) (m : tx A) : ste service F A :=
  transact conv (atomically m).

(** ** Running calls *)

Section running.
Context {S E : Type}.

(** A relation between the states before and after that every run respects. *)
Definition steps {A} (R : S → S → Prop) (m : ste S E A) : Prop := ∀ s, R s (m s).2.

Context (R : S → S → Prop) `{!PreOrder R}.
Lemma steps_bind {A B} (m : ste S E A) (f : A → ste S E B) :
  steps R m → (∀ a, steps R (f a)) → steps R (m ≫= f).
Proof.
  intros Hm Hf s. cbv [mbind ste_bind]. specialize (Hm s). destruct (m s) as [[a|e] s']; cbn in *.
  - etransitivity; [exact Hm|apply Hf].
  - exact Hm.
Qed.
Lemma steps_ret {A} (a : A) : steps R (mret a).
Proof. intros s. reflexivity. Qed.
Lemma steps_raise {A} (e : E) : steps R (raise (A:=A) e).
Proof. intros s. reflexivity. Qed.
Lemma steps_of_result {A} (r : result E A) : steps R (of_result r).
Proof. intros s. reflexivity. Qed.
Lemma steps_bind_result {A B} (r : result E A) (f : A → ste S E B) :
  (∀ a, r = Ok a → steps R (f a)) → steps R (of_result r ≫= f).
Proof.
  intros Hf s. cbv [mbind ste_bind of_result]. destruct r; [by apply Hf|]. cbn. reflexivity.
Qed.
Lemma steps_observe {A} (f : S → A) : steps R (observe f).
Proof. intros s. reflexivity. Qed.
End running.
Create HintDb steps.
#[export] Hint Resolve steps_bind steps_ret steps_raise steps_of_result steps_observe : steps.
