(* ===== verification/Presence.v ===== *)
(** * Signed presence heartbeats and cluster declarations

    [oag-sync]: [presence.rs] and [cluster.rs].  Both are statements a peer
    signs about itself and pushes to the peers it knows; both go through the
    same pipeline of build, sign and verify, under prefixes of their own. *)

From S2P Require Import Prelude Core Envelope.

Definition MAX_CLOCK_SKEW_SECONDS : Z := 300.

Inductive PresenceStatus := Online | GoingOffline.
Definition PresenceStatus_as_str (s : PresenceStatus) : string :=
  match s with Online => "online" | GoingOffline => "going_offline" end.
#[export] Instance PresenceStatus_eq_dec : EqDecision PresenceStatus.
Proof. solve_decision. Defined.

Record UnsignedPresenceHeartbeat := {
  hb_peer_id : string; hb_public_key : string; hb_status : PresenceStatus;
  hb_session_started_at : Z; hb_timestamp : Z }.
Record PresenceHeartbeat := { hb_unsigned : UnsignedPresenceHeartbeat; hb_signature : string }.
Record UnsignedClusterDeclaration := {
  cd_peer_id : string; cd_public_key : string; cd_cluster : string; cd_timestamp : Z }.
Record ClusterDeclaration := { cd_unsigned : UnsignedClusterDeclaration; cd_signature : string }.

(** [PresenceError] and [ClusterError] have the same variants. *)
Inductive StatementError :=
  | StPeerId (e : PeerIdParseError)
  | StInvalidPublicKey
  | StPeerIdKeyMismatch
  | StBadSignatureEncoding
  | StBadSignature
  | StClockSkew
  | StJson (e : string).

(** The canonical JSON (RFC 8785) of the two statements. *)
Class StatementCodec := {
  canonical_presence : UnsignedPresenceHeartbeat → result string string;
  canonical_cluster : UnsignedClusterDeclaration → result string string }.

(** [i64::abs] and the subtraction before it, as a release build computes
    them; a debug build panics where they overflow. *)
Definition wrapping_abs (x : Z) : Z := wrap_i64 (Z.abs x).
Definition skewed (timestamp now : Z) : bool :=
  Z.ltb MAX_CLOCK_SKEW_SECONDS (wrapping_abs (wrap_i64 (timestamp - now))).

Section statements.
Context `{P : Platform} `{SC : StatementCodec}.

(** [hex::decode(s).ok().and_then(|v| v.try_into().ok())]. *)
Definition decode_hex (n : nat) (s : string) : option (bytes n) :=
  b ← to_option (hex_decode s); to_array n b.

Definition presence_build_and_sign (identity : SigningKey) (status : PresenceStatus)
    (session_started timestamp : Z) : result StatementError PresenceHeartbeat :=
  let unsigned := {|
    hb_peer_id := PeerId_to_string (identity_peer_id identity);
    hb_public_key := hex_encode (raw (vk_bytes (verifying_key identity)));
    hb_status := status; hb_session_started_at := session_started; hb_timestamp := timestamp |} in
  canonical ← map_err StJson (canonical_presence unsigned);
  let sig := sign_with_domain identity PRESENCE_DOMAIN canonical in
  Ok {| hb_unsigned := unsigned; hb_signature := hex_encode (raw sig) |}.

Definition presence_verify (heartbeat : PresenceHeartbeat) (now : Z) : result StatementError hash32 :=
  let u := hb_unsigned heartbeat in
  peer_id ← map_err StPeerId (PeerId_from_str (hb_peer_id u));
  pk_bytes ← ok_or (decode_hex 32 (hb_public_key u)) StInvalidPublicKey;
  key ← map_err (λ _, StInvalidPublicKey) (vk_from_bytes pk_bytes);
  if negb (bool_decide (peer_id = PeerId_from_public_key key)) then Err StPeerIdKeyMismatch else
  canonical ← map_err StJson (canonical_presence u);
  sig ← ok_or (decode_hex 64 (hb_signature heartbeat)) StBadSignatureEncoding;
  _ ← map_err (λ _, StBadSignature) (verify_with_domain key PRESENCE_DOMAIN canonical sig);
  if skewed (hb_timestamp u) now then Err StClockSkew else Ok peer_id.

Definition cluster_build_and_sign (identity : SigningKey) (cluster : string) (timestamp : Z) :
    result StatementError ClusterDeclaration :=
  let unsigned := {|
    cd_peer_id := PeerId_to_string (identity_peer_id identity);
    cd_public_key := hex_encode (raw (vk_bytes (verifying_key identity)));
    cd_cluster := cluster; cd_timestamp := timestamp |} in
  canonical ← map_err StJson (canonical_cluster unsigned);
  let sig := sign_with_domain identity CLUSTER_DOMAIN canonical in
  Ok {| cd_unsigned := unsigned; cd_signature := hex_encode (raw sig) |}.

Definition cluster_verify (declaration : ClusterDeclaration) (now : Z) : result StatementError hash32 :=
  let u := cd_unsigned declaration in
  peer_id ← map_err StPeerId (PeerId_from_str (cd_peer_id u));
  pk_bytes ← ok_or (decode_hex 32 (cd_public_key u)) StInvalidPublicKey;
  key ← map_err (λ _, StInvalidPublicKey) (vk_from_bytes pk_bytes);
  if negb (bool_decide (peer_id = PeerId_from_public_key key)) then Err StPeerIdKeyMismatch else
  canonical ← map_err StJson (canonical_cluster u);
  sig ← ok_or (decode_hex 64 (cd_signature declaration)) StBadSignatureEncoding;
  _ ← map_err (λ _, StBadSignature) (verify_with_domain key CLUSTER_DOMAIN canonical sig);
  if skewed (cd_timestamp u) now then Err StClockSkew else Ok peer_id.

(** ** Freshness *)

Lemma wrap_i64_mod z : ∃ k, wrap_i64 z = (z + k * 2 ^ 64)%Z.
Proof.
  exists (- ((z + 2 ^ 63) / 2 ^ 64))%Z. unfold wrap_i64.
  pose proof (Z.div_mod (z + 2 ^ 63) (2 ^ 64) ltac:(lia)). lia.
Qed.

(** Fresh is within five minutes of now - or exactly 2^63 seconds before it,
    where the subtraction gives the one integer without an absolute value. *)
Lemma skewed_spec t now :
  is_i64 t → (0 ≤ now < 2 ^ 62)%Z →
  skewed t now = false ↔ (Z.abs (t - now) ≤ 300 ∨ t = now - 2 ^ 63)%Z.
Proof.
  intros Ht Hn. unfold skewed, MAX_CLOCK_SKEW_SECONDS. rewrite Z.ltb_ge.
  unfold is_i64 in Ht.
  destruct (decide (- 2 ^ 63 ≤ t - now)%Z) as [Hs|Hs].
  - rewrite (wrap_i64_small (t - now)) by (unfold is_i64; lia). unfold wrapping_abs.
    destruct (decide (t - now = - 2 ^ 63)%Z) as [He|Hne].
    + split; intros _; [right; lia|]. rewrite He. vm_compute. discriminate.
    + rewrite wrap_i64_small by (unfold is_i64; lia). lia.
  - unfold wrapping_abs.
    assert (wrap_i64 (t - now) = t - now + 2 ^ 64)%Z as ->.
    { unfold wrap_i64. rewrite <-(Z.mod_unique_pos _ (2 ^ 64) (-1) (t - now + 2 ^ 63 + 2 ^ 64)); lia. }
    rewrite Z.abs_eq by lia. rewrite wrap_i64_small by (unfold is_i64; lia). lia.
Qed.

(** ** What a verified statement means *)

(** A statement that names the peer [named] and carries [public_key] and
    [signature] speaks for [peer]: that is the peer it names, [peer] is the
    hash of the key it carries, and that key signed [canonical] under
    [domain]. *)
Definition vouched (domain canonical named public_key signature : string) (peer : hash32) : Prop :=
  PeerId_from_str named = Ok peer ∧
  ∃ pk key sig, decode_hex 32 public_key = Some pk ∧ vk_from_bytes pk = Ok key ∧
    peer = blake3 (raw (vk_bytes key)) ∧ decode_hex 64 signature = Some sig ∧
    ed25519_verify key (domain +:+ canonical) sig = Ok ().
(** Within five minutes of now, or exactly [2 ^ 63] seconds before it. *)
Definition fresh (timestamp now : Z) : Prop := (Z.abs (timestamp - now) ≤ 300 ∨ timestamp = now - 2 ^ 63)%Z.

Lemma decode_hex_encode `{!PlatformLaws P} n (b : bytes n) : decode_hex n (hex_encode (raw b)) = Some b.
Proof. unfold decode_hex. rewrite hex_decode_encode. cbn. apply to_array_raw. Qed.
End statements.

(** ** Properties *)

Section properties.
Context `{P : Platform} `{SC : StatementCodec}.

(** C31: A statement is accepted for a peer exactly if the peer is the one it
    names, its id is the hash of the public key the statement carries, that
    key signed the statement under the prefix of its kind, and it is fresh:
    its timestamp is within five minutes of now, or - the one value whose
    distance has no absolute value in 64 bits - exactly 2^63 seconds old.  The
    witness is a heartbeat of the second kind: it passes as fresh although its
    timestamp lies 292 billion years back; and one that carries the key of
    another peer does not pass. *)
Theorem verified_statement_vouched hb cd now p :
  (0 ≤ now < 2 ^ 62)%Z → is_i64 (hb_timestamp (hb_unsigned hb)) →
  is_i64 (cd_timestamp (cd_unsigned cd)) →
  (presence_verify hb now = Ok p ↔
     let u := hb_unsigned hb in
     ∃ canon, canonical_presence u = Ok canon ∧
       vouched PRESENCE_DOMAIN canon (hb_peer_id u) (hb_public_key u) (hb_signature hb) p ∧
       fresh (hb_timestamp u) now) ∧
  (cluster_verify cd now = Ok p ↔
     let u := cd_unsigned cd in
     ∃ canon, canonical_cluster u = Ok canon ∧
       vouched CLUSTER_DOMAIN canon (cd_peer_id u) (cd_public_key u) (cd_signature cd) p ∧
       fresh (cd_timestamp u) now).
Proof.
  intros Hn Ht Ht'. unfold presence_verify, cluster_verify, vouched, fresh.
  split; (split; [intros H|intros (canon & Hc & (Hp & pk & key & sig & Hpk & Hkey & Heq & Hsig & Hv) & Hf)]).
  all: try rewrite Hp, Hpk; cbn [map_err mbind result_bind ok_or].
  all: try (rewrite Hkey; cbn [map_err mbind result_bind]; rewrite bool_decide_true by done; cbn [negb];
    rewrite Hc; cbn [map_err mbind result_bind]; rewrite Hsig; cbn [ok_or mbind result_bind];
    unfold verify_with_domain; rewrite Hv; cbn [map_err mbind result_bind];
    apply skewed_spec in Hf; [by rewrite Hf|done..]).
  all: apply result_bind_ok in H as (peer & Hp & H).
  all: apply result_bind_ok in H as (pk & Hpk & H).
  all: apply result_bind_ok in H as (key & Hkey & H).
  all: destruct (negb _) eqn:Heq; [done|].
  all: apply negb_false_iff, bool_decide_eq_true in Heq.
  all: apply result_bind_ok in H as (canon & Hc & H).
  all: apply result_bind_ok in H as (sig & Hsig & H).
  all: apply result_bind_ok in H as ([] & Hv & H).
  all: destruct (skewed _ _) eqn:Hsk; [done|]; injection H as <-.
  all: apply skewed_spec in Hsk; [|done..].
  all: apply map_err_ok in Hp, Hkey, Hv, Hc; apply ok_or_ok in Hpk, Hsig.
  all: exists canon; split_and!; [done|done| |done].
  all: by exists pk, key, sig.
Qed.

(** What a peer signs about itself verifies for everyone whose clock is within
    five minutes of its own, and names that peer. *)
Theorem signed_statement_verifies `{!PlatformLaws P} sk status started cluster t now :
  is_i64 t → (0 ≤ now < 2 ^ 62)%Z → (Z.abs (t - now) ≤ 300)%Z →
  (∀ hb, presence_build_and_sign sk status started t = Ok hb →
     presence_verify hb now = Ok (identity_peer_id sk)) ∧
  (∀ cd, cluster_build_and_sign sk cluster t = Ok cd →
     cluster_verify cd now = Ok (identity_peer_id sk)).
Proof.
  intros Ht Hn Hd.
  assert (skewed t now = false) as Hsk by (apply skewed_spec; auto).
  unfold presence_build_and_sign, cluster_build_and_sign.
  split; intros s H; apply result_bind_ok in H as (canon & Hc & [= <-]).
  all: unfold presence_verify, cluster_verify;
    cbn [hb_unsigned hb_signature hb_peer_id hb_public_key hb_timestamp
         cd_unsigned cd_signature cd_peer_id cd_public_key cd_timestamp].
  all: rewrite PeerId_from_to_string, !decode_hex_encode; cbn [map_err mbind result_bind ok_or].
  all: rewrite vk_from_to; cbn [map_err mbind result_bind].
  all: rewrite bool_decide_true by done; cbn [negb].
  all: rewrite Hc; cbn [mbind result_bind].
  all: unfold verify_with_domain, sign_with_domain; rewrite verify_sign;
    cbn [map_err mbind result_bind]; by rewrite Hsk.
Qed.
End properties.

(** ** Witnesses *)

Section witnesses.
#[local] Existing Instance Toy.platform.

(** Canonical forms for the example: the fields joined by bars. *)
#[local] Instance toy_statements : StatementCodec := {|
  canonical_presence := λ u, Ok (join "|" [hb_peer_id u; hb_public_key u;
    PresenceStatus_as_str (hb_status u); ToyCodec.int (hb_session_started_at u);
    ToyCodec.int (hb_timestamp u)]);
  canonical_cluster := λ u, Ok (join "|" [cd_peer_id u; cd_public_key u; cd_cluster u;
    ToyCodec.int (cd_timestamp u)]) |}.

Definition demo_signer : bytes 32 := Toy.hash "signer".
Definition heartbeat_at (t : Z) : PresenceHeartbeat :=
  match presence_build_and_sign demo_signer Online 1000 t with
  | Ok hb => hb
  | Err _ => {| hb_unsigned := {| hb_peer_id := ""; hb_public_key := ""; hb_status := Online;
                  hb_session_started_at := 0; hb_timestamp := 0 |}; hb_signature := "" |}
  end.
Definition declaration_at (t : Z) : ClusterDeclaration :=
  match cluster_build_and_sign demo_signer "home-lab" t with
  | Ok cd => cd
  | Err _ => {| cd_unsigned := {| cd_peer_id := ""; cd_public_key := ""; cd_cluster := "";
                  cd_timestamp := 0 |}; cd_signature := "" |}
  end.

Lemma signed_statement_verifies_witness :
  presence_verify (heartbeat_at 1700000000) 1700000100 = Ok (identity_peer_id demo_signer) ∧
  cluster_verify (declaration_at 1700000000) 1700000100 = Ok (identity_peer_id demo_signer).
Proof.
  destruct (@signed_statement_verifies Toy.platform toy_statements Toy.laws demo_signer Online 1000
    "home-lab" 1700000000 1700000100) as [Hp Hc]; [unfold is_i64; lia|lia|lia|].
  split; [apply Hp|apply Hc]; reflexivity.
Defined.

(** The far timestamp does pass; another peer's name does not. *)
Definition misnamed : PresenceHeartbeat :=
  let u := hb_unsigned (heartbeat_at 1700000000) in
  let u := {| hb_peer_id := PeerId_to_string (identity_peer_id (Toy.hash "somebody")); hb_public_key := hb_public_key u;
              hb_status := hb_status u; hb_session_started_at := hb_session_started_at u; hb_timestamp := hb_timestamp u |} in
  {| hb_unsigned := u; hb_signature := hb_signature (heartbeat_at 1700000000) |}.
Lemma verified_statement_vouched_witness :
  presence_verify (heartbeat_at (1700000000 - 2 ^ 63)) 1700000000 = Ok (identity_peer_id demo_signer) ∧
  (∃ canon, let hb := heartbeat_at (1700000000 - 2 ^ 63) in
     vouched PRESENCE_DOMAIN canon (hb_peer_id (hb_unsigned hb)) (hb_public_key (hb_unsigned hb)) (hb_signature hb)
       (identity_peer_id demo_signer)) ∧
  presence_verify misnamed 1700000000 = Err StPeerIdKeyMismatch.
Proof.
  assert (presence_verify (heartbeat_at (1700000000 - 2 ^ 63)) 1700000000
            = Ok (identity_peer_id demo_signer)) as H by (vm_compute; reflexivity).
  split; [exact H|]. split; [|vm_compute; reflexivity].
  destruct (@verified_statement_vouched Toy.platform toy_statements
    (heartbeat_at (1700000000 - 2 ^ 63)) (declaration_at 1700000000) 1700000000
    (@identity_peer_id Toy.platform demo_signer)) as [Hp _];
    [lia|vm_compute; split; congruence|vm_compute; split; congruence|].
  destruct (proj1 Hp H) as (canon & _ & Hv & _). exists canon. exact Hv.
Defined.
End witnesses.
