(* ===== verification/FloatFacts.v ===== *)
(** * Rounding

    What the executable specification of IEEE 754 arithmetic guarantees of a
    rounded result: it is a valid number of the format, never NaN, and does
    not cross any number of the format - below the exact value it stays above
    every representable lower bound, and likewise above.  This is all the
    bounds on scores and on square roots below need. *)

From Stdlib Require Import SpecFloat.
From S2P Require Import Prelude.

#[local] Open Scope Z_scope.

Section format.
Context (prec emax : Z) (Hprec : 1 < prec) (Hemax : prec < emax).
Abbreviation fexp := (fexp prec emax).
Abbreviation emin := (emin prec emax).
Abbreviation bounded := (bounded prec emax).

(** ** Digits *)

Lemma digits2_pos_bounds m : 2 ^ (Z.pos (digits2_pos m) - 1) ≤ Z.pos m < 2 ^ Z.pos (digits2_pos m).
Proof.
  induction m as [m IH|m IH|]; cbn [digits2_pos]; [| |cbn; lia];
    rewrite Pos2Z.inj_succ; unfold Z.succ;
    rewrite Z.pow_add_r by lia; replace (Z.pos (digits2_pos m) + 1 - 1) with (Z.pos (digits2_pos m) - 1 + 1) by lia;
    rewrite Z.pow_add_r by lia; lia.
Qed.
Lemma digits2_bounds m : 0 < m → 2 ^ (Zdigits2 m - 1) ≤ m < 2 ^ Zdigits2 m.
Proof. destruct m as [|m|m]; try lia. intros _. apply digits2_pos_bounds. Qed.
Lemma digits2_nonneg m : 0 ≤ Zdigits2 m.
Proof. destruct m; cbn; lia. Qed.
Lemma digits2_pos_iff m : 0 ≤ m → (0 < Zdigits2 m ↔ 0 < m).
Proof. destruct m; cbn; lia. Qed.
(** The number of digits from a bound on the number, both ways. *)
Lemma digits2_le m n : 0 ≤ n → 0 ≤ m < 2 ^ n → Zdigits2 m ≤ n.
Proof.
  intros Hn Hm. destruct (decide (m = 0)) as [-> |]; [done|].
  destruct (digits2_bounds m ltac:(lia)) as [Hlo _].
  destruct (Z.le_gt_cases (Zdigits2 m) n); [done|].
  assert (2 ^ n ≤ 2 ^ (Zdigits2 m - 1)) by (apply Z.pow_le_mono_r; lia). lia.
Qed.
Lemma digits2_gt m n : 0 ≤ n → 2 ^ n ≤ m → n < Zdigits2 m.
Proof.
  intros Hn Hm. assert (0 < 2 ^ n) by lia. destruct (digits2_bounds m ltac:(lia)) as [_ Hhi].
  destruct (Z.lt_ge_cases n (Zdigits2 m)); [done|].
  assert (2 ^ Zdigits2 m ≤ 2 ^ n) by (apply Z.pow_le_mono_r; [lia|done]). lia.
Qed.

(** ** Valid numbers *)

Lemma bounded_spec m e : bounded m e = true ↔ fexp (Z.pos (digits2_pos m) + e) = e ∧ e ≤ emax - prec.
Proof.
  unfold SpecFloat.bounded, canonical_mantissa. rewrite andb_true_iff, Z.eqb_eq, Z.leb_le. done.
Qed.
Lemma bounded_emin m e : bounded m e = true → emin ≤ e.
Proof. intros [H _]%bounded_spec. unfold SpecFloat.fexp in H. lia. Qed.
Lemma bounded_small m e : bounded m e = true → Z.pos m < 2 ^ prec.
Proof.
  intros [H _]%bounded_spec. unfold SpecFloat.fexp in H. destruct (digits2_pos_bounds m) as [_ Hm].
  assert (2 ^ Z.pos (digits2_pos m) ≤ 2 ^ prec) by (apply Z.pow_le_mono_r; lia). lia.
Qed.
Lemma bounded_normal m e : bounded m e = true → emin < e → 2 ^ (prec - 1) ≤ Z.pos m.
Proof.
  intros [H _]%bounded_spec He. unfold SpecFloat.fexp in H. destruct (digits2_pos_bounds m) as [Hm _].
  replace (prec - 1) with (Z.pos (digits2_pos m) - 1) by lia. done.
Qed.
Lemma bounded_intro m e : 0 < Z.pos m < 2 ^ prec → emin ≤ e ≤ emax - prec →
  (emin < e → 2 ^ (prec - 1) ≤ Z.pos m) → bounded m e = true.
Proof.
  intros Hm He Hn. apply bounded_spec. split; [|lia]. unfold SpecFloat.fexp.
  pose proof (digits2_le (Z.pos m) prec ltac:(lia) ltac:(lia)) as Hd. cbn [Zdigits2] in Hd.
  destruct (decide (emin < e)) as [Hlt|]; [|lia].
  pose proof (digits2_gt (Z.pos m) (prec - 1) ltac:(lia) (Hn Hlt)) as Hg. cbn [Zdigits2] in Hg. lia.
Qed.

(** ** Shifting right *)

Lemma shr_1_m mrs : 0 ≤ shr_m mrs → shr_m (shr_1 mrs) = shr_m mrs / 2.
Proof.
  destruct mrs as [[|[p|p|]|p] r s]; cbn [shr_m shr_1]; intros Hm; [done| | |done|lia].
  - change (Z.pos p~1) with (2 * Z.pos p + 1). apply (Z.div_unique _ 2 _ 1); lia.
  - apply (Z.div_unique _ 2 _ 0); lia.
Qed.
Definition exact (mrs : shr_record) : Prop := shr_r mrs = false ∧ shr_s mrs = false.
Lemma shr_1_exact mrs : 0 ≤ shr_m mrs → exact (shr_1 mrs) ↔ exact mrs ∧ shr_m mrs mod 2 = 0.
Proof.
  unfold exact. destruct mrs as [[|[p|p|]|p] r s]; cbn [shr_m shr_r shr_s shr_1]; intros Hm; [| | | |lia].
  - replace (0 mod 2) with 0 by done. destruct r, s; cbn; intuition congruence.
  - replace (Z.pos p~1 mod 2) with 1 by (apply (Z.mod_unique _ 2 (Z.pos p)); lia).
    destruct r, s; cbn; intuition congruence.
  - replace (Z.pos p~0 mod 2) with 0 by (apply (Z.mod_unique _ 2 (Z.pos p)); lia).
    destruct r, s; cbn; intuition congruence.
  - replace (1 mod 2) with 1 by done. destruct r, s; cbn; intuition congruence.
Qed.
Lemma iter_shr p : ∀ mrs, 0 ≤ shr_m mrs →
  shr_m (SpecFloat.iter_pos shr_1 p mrs) = shr_m mrs / 2 ^ Z.pos p ∧
  (exact (SpecFloat.iter_pos shr_1 p mrs) ↔ exact mrs ∧ shr_m mrs mod 2 ^ Z.pos p = 0).
Proof.
  (* two runs one after the other *)
  assert (∀ a b mrs mrs1 mrs2, 0 < a → 0 < b → 0 ≤ shr_m mrs →
    (shr_m mrs1 = shr_m mrs / a ∧ (exact mrs1 ↔ exact mrs ∧ shr_m mrs mod a = 0)) →
    (shr_m mrs2 = shr_m mrs1 / b ∧ (exact mrs2 ↔ exact mrs1 ∧ shr_m mrs1 mod b = 0)) →
    shr_m mrs2 = shr_m mrs / (a * b) ∧ (exact mrs2 ↔ exact mrs ∧ shr_m mrs mod (a * b) = 0)) as Hcomp.
  { intros a b mrs mrs1 mrs2 Ha Hb Hm [H1 E1] [H2 E2]. split; [rewrite H2, H1; apply Z.div_div; lia|].
    assert (shr_m mrs mod (a * b) = 0 ↔ shr_m mrs mod a = 0 ∧ (shr_m mrs / a) mod b = 0) as Hmod.
    { pose proof (Z.mod_pos_bound (shr_m mrs) a ltac:(lia)).
      pose proof (Z.mod_pos_bound (shr_m mrs / a) b ltac:(lia)). rewrite Z.rem_mul_r by lia. nia. }
    rewrite E2, E1, H1, Hmod. tauto. }
  induction p as [p IH|p IH|]; intros mrs Hm; cbn [SpecFloat.iter_pos].
  - pose proof (shr_1_m mrs Hm) as H1. pose proof (shr_1_exact mrs Hm) as E1.
    assert (0 ≤ shr_m (shr_1 mrs)) by (rewrite H1; apply Z.div_pos; lia).
    destruct (IH (shr_1 mrs) ltac:(done)) as [H2 E2].
    assert (0 ≤ shr_m (SpecFloat.iter_pos shr_1 p (shr_1 mrs))) by (rewrite H2; apply Z.div_pos; lia).
    specialize (IH (SpecFloat.iter_pos shr_1 p (shr_1 mrs)) ltac:(done)).
    replace (2 ^ Z.pos p~1) with (2 * 2 ^ Z.pos p * 2 ^ Z.pos p)
      by (rewrite <-Z.mul_assoc, <-!Z.pow_add_r, <-(Z.pow_succ_r 2) by lia; f_equal; lia).
    eapply Hcomp; [lia|lia|done| |exact IH]. eapply Hcomp; [lia|lia|done| |by split].
    by split.
  - destruct (IH mrs Hm) as [H1 E1].
    assert (0 ≤ shr_m (SpecFloat.iter_pos shr_1 p mrs)) by (rewrite H1; apply Z.div_pos; lia).
    replace (2 ^ Z.pos p~0) with (2 ^ Z.pos p * 2 ^ Z.pos p) by (rewrite <-Z.pow_add_r by lia; f_equal; lia).
    eapply Hcomp; [lia|lia|done|by split|by apply IH].
  - by split; [apply shr_1_m|apply shr_1_exact].
Qed.

(** ** Comparing valid numbers *)

Lemma pow_split z e : z ≤ e → 0 < 2 ^ (e - z).
Proof. intros H. apply Z.pow_pos_nonneg; lia. Qed.
(** A valid number is below every one of a larger exponent. *)
Lemma exponent_lt m1 e1 m2 e2 z : bounded m1 e1 = true → bounded m2 e2 = true → e1 < e2 → z ≤ e1 →
  Z.pos m1 * 2 ^ (e1 - z) < Z.pos m2 * 2 ^ (e2 - z).
Proof.
  intros H1 H2 He Hz. pose proof (bounded_small _ _ H1) as Hs. pose proof (bounded_emin _ _ H1) as Hm.
  pose proof (bounded_normal _ _ H2 ltac:(lia)) as Hn.
  assert (2 ^ prec * 2 ^ (e1 - z) ≤ 2 ^ (prec - 1) * 2 ^ (e2 - z)).
  { rewrite <-!Z.pow_add_r by lia. apply Z.pow_le_mono_r; lia. }
  pose proof (pow_split z e1 ltac:(lia)). pose proof (pow_split z e2 ltac:(lia)). nia.
Qed.
Lemma compare_finite m1 e1 m2 e2 z : bounded m1 e1 = true → bounded m2 e2 = true → z ≤ e1 → z ≤ e2 →
  SFcompare (S754_finite false m1 e1) (S754_finite false m2 e2) =
  Some (Z.compare (Z.pos m1 * 2 ^ (e1 - z)) (Z.pos m2 * 2 ^ (e2 - z))).
Proof.
  intros H1 H2 Hz1 Hz2. cbn [SFcompare]. f_equal. destruct (Z.compare_spec e1 e2) as [-> |Hlt|Hgt].
  - pose proof (pow_split z e2 Hz2). change (Pos.compare_cont Eq m1 m2) with (Z.compare (Z.pos m1) (Z.pos m2)).
    symmetry. destruct (Z.compare_spec (Z.pos m1) (Z.pos m2)) as [E|E|E];
      [rewrite E; apply Z.compare_refl|apply Z.compare_lt_iff; nia|apply Z.compare_gt_iff; nia].
  - symmetry. apply Z.compare_lt_iff. by apply exponent_lt.
  - symmetry. apply Z.compare_gt_iff. by apply exponent_lt.
Qed.
Lemma leb_finite m1 e1 m2 e2 z : bounded m1 e1 = true → bounded m2 e2 = true → z ≤ e1 → z ≤ e2 →
  SFleb (S754_finite false m1 e1) (S754_finite false m2 e2) = true ↔
  Z.pos m1 * 2 ^ (e1 - z) ≤ Z.pos m2 * 2 ^ (e2 - z).
Proof.
  intros H1 H2 Hz1 Hz2. unfold SFleb. rewrite (compare_finite _ _ _ _ z) by done.
  destruct (Z.compare_spec (Z.pos m1 * 2 ^ (e1 - z)) (Z.pos m2 * 2 ^ (e2 - z))); split; try done; lia.
Qed.

(** ** Rounding *)

#[local] Instance location_eq_dec : EqDecision location.
Proof. solve_decision. Defined.

(** Where the significand [m2], in units of [2 ^ e'], ends up. *)
Inductive rounds_to (sx : bool) (m2 e' : Z) : spec_float → Prop :=
  | to_zero : m2 = 0 → e' = emin → rounds_to sx m2 e' (S754_zero sx)
  | to_finite p k : Z.pos p * 2 ^ (k - e') = m2 → e' ≤ k → bounded p k = true →
      rounds_to sx m2 e' (S754_finite sx p k)
  | to_infinity p k : Z.pos p * 2 ^ (k - e') = m2 → e' ≤ k → 2 ^ (prec - 1) ≤ Z.pos p → emax - prec < k →
      rounds_to sx m2 e' (S754_infinity sx).

Lemma shr_down (mrs : shr_record) e n : n ≤ 0 → shr mrs e n = (mrs, e).
Proof. destruct n as [|n|n]; [done|lia|done]. Qed.
Lemma shr_up (mrs : shr_record) e n : 0 ≤ n → 0 ≤ shr_m mrs →
  ∃ mrs', shr mrs e n = (mrs', e + n) ∧ shr_m mrs' = shr_m mrs / 2 ^ n ∧
    (exact mrs' ↔ exact mrs ∧ shr_m mrs mod 2 ^ n = 0).
Proof.
  intros Hn Hm. destruct n as [|n|n]; [| |lia].
  - exists mrs. rewrite Z.div_1_r, Z.mod_1_r. split; [cbn; f_equal; lia|]. naive_solver.
  - destruct (iter_shr n mrs Hm) as [H1 E1]. eexists. split; [reflexivity|]. by split.
Qed.

Lemma round_near (mrs : shr_record) :
  let m2 := round_nearest_even (shr_m mrs) (loc_of_shr_record mrs) in
  (m2 = shr_m mrs ∨ m2 = shr_m mrs + 1) ∧ (exact mrs → m2 = shr_m mrs).
Proof.
  destruct mrs as [m r s]. unfold exact. cbn. destruct r, s; cbn; try destruct (Z.even m); intuition congruence.
Qed.
Lemma record_of_loc m l : shr_m (shr_record_of_loc m l) = m ∧ (exact (shr_record_of_loc m l) ↔ l = loc_Exact).
Proof. unfold exact. destruct l as [|[]]; cbn; intuition congruence. Qed.

(** The digits that are kept: at most [prec], and exactly so above [emin]. *)
Lemma kept_digits m e : 0 ≤ m → e ≤ fexp (Zdigits2 m + e) →
  let e' := fexp (Zdigits2 m + e) in
  0 ≤ m / 2 ^ (e' - e) < 2 ^ prec ∧ (emin < e' → 2 ^ (prec - 1) ≤ m / 2 ^ (e' - e)) ∧ emin ≤ e'.
Proof.
  intros Hm He e'. assert (Zdigits2 m + e - prec ≤ e' ∧ emin ≤ e') as [Hd Hmin] by (unfold e', SpecFloat.fexp; lia).
  assert (0 < 2 ^ (e' - e)) by (apply Z.pow_pos_nonneg; lia).
  split; [split; [by apply Z.div_pos; lia|]|split; [|done]].
  - apply Z.div_lt_upper_bound; [lia|]. rewrite <-Z.pow_add_r by lia.
    destruct (decide (m = 0)) as [-> |]; [lia|]. destruct (digits2_bounds m ltac:(lia)) as [_ Hhi].
    assert (2 ^ Zdigits2 m ≤ 2 ^ (e' - e + prec)) by (apply Z.pow_le_mono_r; lia). lia.
  - intros Hlt. assert (e' = Zdigits2 m + e - prec) by (unfold e', SpecFloat.fexp in *; lia).
    apply Z.div_le_lower_bound; [lia|]. rewrite <-Z.pow_add_r by lia.
    destruct (digits2_bounds m) as [Hlo _].
    { apply digits2_pos_iff; lia. }
    replace (e' - e + (prec - 1)) with (Zdigits2 m - 1) by lia. done.
Qed.

Lemma round_aux_spec sx m e l : 0 ≤ m → e ≤ fexp (Zdigits2 m + e) →
  let e' := fexp (Zdigits2 m + e) in
  ∃ m2, (m2 = m / 2 ^ (e' - e) ∨ m2 = m / 2 ^ (e' - e) + 1) ∧
    (l = loc_Exact → m mod 2 ^ (e' - e) = 0 → m2 = m / 2 ^ (e' - e)) ∧
    rounds_to sx m2 e' (binary_round_aux prec emax sx m e l).
Proof.
  intros Hm He e'. destruct (kept_digits m e Hm He) as (Hk & Hnorm & Hmin). fold e' in Hk, Hnorm, Hmin.
  unfold binary_round_aux, shr_fexp. fold e'.
  destruct (record_of_loc m l) as [Hrm Hre].
  destruct (shr_up (shr_record_of_loc m l) e (e' - e) ltac:(lia) ltac:(lia)) as (mrs' & -> & Hm' & Hex).
  rewrite Hrm in Hm', Hex. rewrite Hre in Hex. replace (e + (e' - e)) with e' by lia.
  pose proof (round_near mrs') as Hr. cbv zeta in Hr.
  set (m2 := round_nearest_even _ _) in *. rewrite Hm' in Hr. destruct Hr as [Hr Hrex].
  exists m2. split; [done|]. split; [intros; by apply Hrex, Hex|].
  assert (0 ≤ m2 ≤ 2 ^ prec) as Hm2 by lia.
  assert (0 < 2 ^ (prec - 1)) by (apply Z.pow_pos_nonneg; lia).
  assert (2 ^ prec = 2 * 2 ^ (prec - 1)) as Hpow.
  { rewrite <-Z.pow_succ_r by lia. f_equal. lia. }
  assert (emin < emax - prec) as Hrange by (unfold SpecFloat.emin; lia).
  destruct (record_of_loc m2 loc_Exact) as [Hrm2 _].
  destruct (decide (m2 = 2 ^ prec)) as [Heq|Hne].
  - assert (Zdigits2 m2 = prec + 1) as Hd.
    { pose proof (digits2_gt m2 prec ltac:(lia) ltac:(lia)).
      pose proof (digits2_le m2 (prec + 1) ltac:(lia) ltac:(rewrite Z.pow_add_r by lia; lia)). lia. }
    assert (fexp (Zdigits2 m2 + e') - e' = 1) as -> by (unfold SpecFloat.fexp; lia).
    destruct (shr_up (shr_record_of_loc m2 loc_Exact) e' 1 ltac:(lia) ltac:(lia)) as (mrs2 & -> & H2 & _).
    rewrite Hrm2, Heq, Hpow in H2. change (2 ^ 1) with 2 in H2.
    rewrite Z.mul_comm, Z.div_mul in H2 by lia. rewrite H2.
    destruct (2 ^ (prec - 1)) as [|p|p] eqn:Hp; [lia| |lia].
    assert (Z.pos p * 2 ^ (e' + 1 - e') = m2) as Hval.
    { replace (e' + 1 - e') with 1 by lia. lia. }
    destruct (Z.leb_spec (e' + 1) (emax - prec)).
    + apply to_finite; [done|lia|]. apply bounded_intro; [lia|lia|]. intros _. lia.
    + apply (to_infinity _ _ _ p (e' + 1)); [done|lia|lia|lia].
  - assert (Zdigits2 m2 ≤ prec) as Hd by (apply digits2_le; lia).
    rewrite shr_down by (unfold SpecFloat.fexp; lia). rewrite Hrm2.
    assert (Z.pos (Z.to_pos m2) * 2 ^ (e' - e') = m2 ∨ m2 = 0) as Hval.
    { rewrite Z.sub_diag. destruct m2; cbn; lia. }
    destruct m2 as [|p|p]; [| |lia].
    + apply to_zero; [done|]. destruct (decide (emin < e')) as [Hlt|]; [|lia]. specialize (Hnorm Hlt). lia.
    + destruct Hval as [Hval | ?]; [|done]. cbn [Z.to_pos] in Hval.
      destruct (Z.leb_spec e' (emax - prec)).
      * apply to_finite; [done|lia|]. apply bounded_intro; [lia|lia|]. intros Hlt. specialize (Hnorm Hlt). lia.
      * apply (to_infinity _ _ _ p e'); [done|lia| |lia]. specialize (Hnorm ltac:(lia)). lia.
Qed.

(** [m1 * 2^e1 <= m2 * 2^e2]. *)
Definition dle (m1 e1 m2 e2 : Z) : Prop := ∀ z, z ≤ e1 → z ≤ e2 → m1 * 2 ^ (e1 - z) ≤ m2 * 2 ^ (e2 - z).
Lemma dle_at z m1 e1 m2 e2 : z ≤ e1 → z ≤ e2 → m1 * 2 ^ (e1 - z) ≤ m2 * 2 ^ (e2 - z) → dle m1 e1 m2 e2.
Proof.
  intros H1 H2 Hz z' H1' H2'.
  set (k := Z.min e1 e2). assert (k ≤ e1 ∧ k ≤ e2) as [Hk1 Hk2] by lia.
  assert (∀ z m e, z ≤ k → k ≤ e → m * 2 ^ (e - z) = m * 2 ^ (e - k) * 2 ^ (k - z)) as Hsplit.
  { intros y m e Hy He. rewrite <-Z.mul_assoc, <-Z.pow_add_r by lia. do 2 f_equal. lia. }
  assert (0 < 2 ^ (k - z) ∧ 0 < 2 ^ (k - z')) as [? ?] by (split; apply Z.pow_pos_nonneg; lia).
  rewrite (Hsplit z m1 e1), (Hsplit z m2 e2), <-Z.mul_le_mono_pos_r in Hz by lia.
  rewrite (Hsplit z' m1 e1), (Hsplit z' m2 e2), <-Z.mul_le_mono_pos_r by lia. done.
Qed.

(** A rounded number does not fall below a number of the format ... *)
Lemma round_lower m e l mb eb : 0 ≤ m → e ≤ fexp (Zdigits2 m + e) → bounded mb eb = true →
  (e ≤ eb → Z.pos mb * 2 ^ (eb - e) ≤ m) →
  SFleb (S754_finite false mb eb) (binary_round_aux prec emax false m e l) = true.
Proof.
  intros Hm He Hb Hle. destruct (kept_digits m e Hm He) as (Hk & Hnorm & Hmin).
  destruct (round_aux_spec false m e l Hm He) as (m2 & Hm2 & _ & Hr).
  set (e' := fexp (Zdigits2 m + e)) in *. pose proof (bounded_emin _ _ Hb) as Hemin.
  assert (e' ≤ eb → Z.pos mb * 2 ^ (eb - e') ≤ m2) as Hfloor.
  { intros Heb. assert (Z.pos mb * 2 ^ (eb - e') ≤ m / 2 ^ (e' - e)); [|lia].
    apply Z.div_le_lower_bound; [apply Z.pow_pos_nonneg; lia|].
    rewrite Z.mul_comm, <-Z.mul_assoc, <-Z.pow_add_r by lia. replace (eb - e' + (e' - e)) with (eb - e) by lia.
    apply Hle. lia. }
  destruct Hr as [H0 Hz|p k Hv Hk' Hp|p k Hv Hk' Hp Hov].
  - rewrite H0, <-Hz in *. specialize (Hfloor ltac:(lia)).
    assert (0 < 2 ^ (eb - e')) by (apply Z.pow_pos_nonneg; lia). nia.
  - destruct (Z.le_gt_cases e' eb) as [Heb|Heb].
    + apply (leb_finite _ _ _ _ e'); [done|done|done|done|]. rewrite Hv. by apply Hfloor.
    + apply (leb_finite _ _ _ _ eb); [done|done|lia|lia|]. apply Z.lt_le_incl, exponent_lt; [done|done|lia|lia].
  - done.
Qed.
(** ... and does not rise above one. *)
Lemma round_upper m e l mb eb : 0 ≤ m → e ≤ fexp (Zdigits2 m + e) → bounded mb eb = true →
  dle m e (Z.pos mb) eb →
  (e ≤ eb → l = loc_Exact ∨ m + 1 ≤ Z.pos mb * 2 ^ (eb - e)) →
  SFleb (binary_round_aux prec emax false m e l) (S754_finite false mb eb) = true.
Proof.
  intros Hm He Hb Hle Hin. destruct (kept_digits m e Hm He) as (Hk & Hnorm & Hmin).
  destruct (round_aux_spec false m e l Hm He) as (m2 & Hm2 & Hex & Hr).
  set (e' := fexp (Zdigits2 m + e)) in *. pose proof (bounded_emin _ _ Hb) as Hemin.
  pose proof (bounded_small _ _ Hb) as Hsmall. apply bounded_spec in Hb as Hbs. destruct Hbs as [_ Hmax].
  set (N := m / 2 ^ (e' - e)) in *. assert (0 < 2 ^ (e' - e)) as Hd by (apply Z.pow_pos_nonneg; lia).
  assert (N * 2 ^ (e' - e) ≤ m) as HN by (rewrite Z.mul_comm; apply Z.mul_div_le; lia).
  assert (2 ^ prec = 2 * 2 ^ (prec - 1)) as Hpow by (rewrite <-Z.pow_succ_r by lia; f_equal; lia).
  assert (e' ≤ eb) as Heb.
  { destruct (Z.le_gt_cases e' eb) as [|Hgt]; [done|]. specialize (Hnorm ltac:(lia)). exfalso.
    set (z := Z.min e eb). specialize (Hle z ltac:(lia) ltac:(lia)).
    assert (2 ^ (prec - 1) * 2 ^ (e' - z) ≤ m * 2 ^ (e - z)).
    { replace (e' - z) with (e' - e + (e - z)) by lia. rewrite Z.pow_add_r by lia.
      assert (0 < 2 ^ (e - z)) by (apply Z.pow_pos_nonneg; lia). rewrite Z.mul_assoc.
      apply Z.mul_le_mono_nonneg_r; [lia|]. transitivity (N * 2 ^ (e' - e)); [|done].
      apply Z.mul_le_mono_nonneg_r; lia. }
    assert (2 ^ prec * 2 ^ (eb - z) ≤ 2 ^ (prec - 1) * 2 ^ (e' - z)).
    { rewrite <-!Z.pow_add_r by lia. apply Z.pow_le_mono_r; lia. }
    assert (0 < 2 ^ (eb - z)) by (apply Z.pow_pos_nonneg; lia).
    assert (Z.pos mb * 2 ^ (eb - z) < 2 ^ prec * 2 ^ (eb - z)) by (apply Z.mul_lt_mono_pos_r; lia). lia. }
  set (B := Z.pos mb * 2 ^ (eb - e')).
  assert (Z.pos mb * 2 ^ (eb - e) = B * 2 ^ (e' - e)) as HB.
  { unfold B. rewrite <-Z.mul_assoc, <-Z.pow_add_r by lia. do 2 f_equal. lia. }
  specialize (Hle e ltac:(lia) ltac:(lia)). rewrite Z.sub_diag, Z.mul_1_r in Hle.
  specialize (Hin ltac:(lia)). rewrite HB in Hle, Hin.
  assert (m2 ≤ B) as HmB.
  { destruct (decide (l = loc_Exact ∧ m mod 2 ^ (e' - e) = 0)) as [[Hl Hmod]|Hno].
    - rewrite (Hex Hl Hmod). apply (Z.mul_le_mono_pos_r _ _ (2 ^ (e' - e))); lia.
    - assert (N < B); [|lia]. apply (Z.mul_lt_mono_pos_r (2 ^ (e' - e))); [done|].
      pose proof (Z.mod_pos_bound m (2 ^ (e' - e)) Hd).
      pose proof (Z.div_mod m (2 ^ (e' - e)) ltac:(lia)) as Hdm. fold N in Hdm.
      destruct Hin as [Hl|Hl]; [|lia].
      assert (m mod 2 ^ (e' - e) ≠ 0) by naive_solver. lia. }
  destruct Hr as [H0 Hz|p k Hv Hk' Hp|p k Hv Hk' Hp Hov].
  - done.
  - apply (leb_finite _ _ _ _ e'); [done|done|done|done|]. rewrite Hv. done.
  - exfalso. assert (2 ^ prec * 2 ^ (eb - e') ≤ 2 ^ (prec - 1) * 2 ^ (k - e')).
    { rewrite <-!Z.pow_add_r by lia. apply Z.pow_le_mono_r; lia. }
    assert (0 < 2 ^ (eb - e') ∧ 0 < 2 ^ (k - e')) as [? ?] by (split; apply Z.pow_pos_nonneg; lia).
    assert (2 ^ (prec - 1) * 2 ^ (k - e') ≤ Z.pos p * 2 ^ (k - e')) by (apply Z.mul_le_mono_nonneg_r; lia).
    assert (B < 2 ^ prec * 2 ^ (eb - e')) by (apply Z.mul_lt_mono_pos_r; lia). lia.
Qed.

(** ** Non-negative numbers of the format *)

Inductive nonneg : spec_float → Prop :=
  | nonneg_zero : nonneg (S754_zero false)
  | nonneg_infinity : nonneg (S754_infinity false)
  | nonneg_finite m e : bounded m e = true → nonneg (S754_finite false m e).
(** The finite ones, and how many units [2 ^ emin] they make. *)
Inductive fin : spec_float → Prop :=
  | fin_zero : fin (S754_zero false)
  | fin_finite m e : bounded m e = true → fin (S754_finite false m e).
Definition units (x : spec_float) : Z :=
  match x with S754_finite false m e => Z.pos m * 2 ^ (e - emin) | _ => 0 end.

Lemma units_nonneg x : 0 ≤ units x.
Proof. destruct x as [| | |[] m e]; cbn; try done. pose proof (Z.pow_nonneg 2 (e - emin)). nia. Qed.
Lemma fin_nonneg x : fin x → nonneg x.
Proof. destruct 1; by constructor. Qed.
Lemma leb_units x y : fin x → fin y → SFleb x y = true ↔ units x ≤ units y.
Proof.
  intros [|m1 e1 H1] [|m2 e2 H2]; cbn [units].
  - done.
  - split; [|done]. intros _. apply Z.mul_nonneg_nonneg; [lia|]. by apply Z.pow_nonneg.
  - pose proof (pow_split emin e1 (bounded_emin _ _ H1)). split; [done|nia].
  - apply leb_finite; [done|done|by eapply bounded_emin|by eapply bounded_emin].
Qed.
Lemma leb_fin x y : nonneg x → fin y → SFleb x y = true → fin x.
Proof. intros [| |m e Hb] [|m' e' Hb'] Hle; try done; by constructor. Qed.
Lemma units_dle m e z k : bounded m e = true → z ≤ emin → z ≤ k → k ≤ e →
  units (S754_finite false m e) * 2 ^ (emin - z) = Z.pos m * 2 ^ (e - k) * 2 ^ (k - z).
Proof.
  intros Hb Hz Hzk Hk. cbn [units]. pose proof (bounded_emin _ _ Hb).
  rewrite <-!Z.mul_assoc, <-!Z.pow_add_r by lia. do 2 f_equal. lia.
Qed.

Definition fexp_ok (m e : Z) : Prop := 0 ≤ m ∧ e ≤ fexp (Zdigits2 m + e).

Lemma round_aux_nonneg m e l : fexp_ok m e → nonneg (binary_round_aux prec emax false m e l).
Proof.
  intros [Hm He]. destruct (round_aux_spec false m e l Hm He) as (m2 & _ & _ & Hr).
  destruct Hr; by constructor.
Qed.
(** [y] is [B] times [2 ^ e]. *)
Definition multiple (y : spec_float) (e B : Z) : Prop :=
  ∃ z, z ≤ emin ∧ z ≤ e ∧ units y * 2 ^ (emin - z) = B * 2 ^ (e - z).
Lemma dle_multiple_l y m e B : dle (units y) emin m e → multiple y e B → B ≤ m.
Proof.
  intros Hle (z & H1 & H2 & Hz). specialize (Hle z H1 H2). rewrite Hz in Hle.
  rewrite (Z.mul_le_mono_pos_r _ _ (2 ^ (e - z))); [done|by apply pow_split].
Qed.
Lemma dle_multiple_r y m e B : dle m e (units y) emin → multiple y e B → m ≤ B.
Proof.
  intros Hle (z & H1 & H2 & Hz). specialize (Hle z H2 H1). rewrite Hz in Hle.
  rewrite (Z.mul_le_mono_pos_r _ _ (2 ^ (e - z))); [done|by apply pow_split].
Qed.
Lemma multiple_finite mb eb e : bounded mb eb = true → e ≤ eb → multiple (S754_finite false mb eb) e (Z.pos mb * 2 ^ (eb - e)).
Proof.
  intros Hb He. exists (Z.min emin e). split_and!; [lia|lia|]. by apply units_dle; try lia.
Qed.
Lemma multiple_zero e : multiple (S754_zero false) e 0.
Proof. exists (Z.min emin e). split_and!; [lia|lia|done]. Qed.

(** The significand [m] may have been rounded down: only the bounds that are
    multiples of [2 ^ e] matter. *)
Lemma round_ge y m e l : fexp_ok m e → fin y → (∀ B, multiple y e B → B ≤ m) →
  SFleb y (binary_round_aux prec emax false m e l) = true.
Proof.
  intros [Hm He] Hy Hle. destruct Hy as [|mb eb Hb].
  - by destruct (round_aux_nonneg m e l (conj Hm He)).
  - apply round_lower; [done|done|done|]. intros Heb. by apply Hle, multiple_finite.
Qed.
Lemma round_le y m e l : fexp_ok m e → fin y → dle m e (units y) emin →
  l = loc_Exact ∨ (∀ B, multiple y e B → m + 1 ≤ B) →
  SFleb (binary_round_aux prec emax false m e l) y = true.
Proof.
  intros [Hm He] Hy Hle Hin. destruct Hy as [|mb eb Hb].
  - pose proof (dle_multiple_r _ _ _ 0 Hle (multiple_zero e)) as Hm0.
    assert (m = 0) as -> by lia. destruct Hin as [-> |Hin]; [|specialize (Hin 0 (multiple_zero e)); lia].
    destruct (round_aux_spec false 0 e loc_Exact Hm He) as (m2 & _ & Hex & Hr).
    rewrite Zmod_0_l, Zdiv_0_l in Hex. rewrite (Hex eq_refl eq_refl) in Hr.
    destruct Hr as [|p k Hp Hk _|p k Hp Hk _ _]; [done| |];
      assert (0 < 2 ^ (k - fexp (Zdigits2 0 + e))) by (apply Z.pow_pos_nonneg; lia); nia.
  - apply round_upper; [done|done|done| |].
    + set (z := Z.min emin e). pose proof (bounded_emin _ _ Hb). apply (dle_at z); [lia|lia|].
      specialize (Hle z ltac:(lia) ltac:(lia)).
      rewrite (units_dle mb eb z z), Z.sub_diag, Z.mul_1_r in Hle by (done || lia). done.
    + intros Heb. destruct Hin as [Hl|Hin]; [by left|right]. by apply Hin, multiple_finite.
Qed.

(** ** The operations *)

Lemma fexp_mono a b : a ≤ b → fexp a ≤ fexp b.
Proof. unfold SpecFloat.fexp. lia. Qed.
Lemma digits2_shift m k : 0 < m → 0 ≤ k → Zdigits2 (m * 2 ^ k) = Zdigits2 m + k.
Proof.
  intros Hm Hk. destruct (digits2_bounds m Hm) as [Hlo Hhi]. assert (0 < 2 ^ k) by (apply Z.pow_pos_nonneg; lia).
  pose proof (digits2_pos_iff m ltac:(lia)). apply Z.le_antisymm.
  - apply digits2_le; [lia|]. rewrite Z.pow_add_r by lia. nia.
  - assert (Zdigits2 m + k - 1 < Zdigits2 (m * 2 ^ k)); [|lia]. apply digits2_gt; [lia|].
    replace (Zdigits2 m + k - 1) with (Zdigits2 m - 1 + k) by lia. rewrite Z.pow_add_r by lia. nia.
Qed.
Lemma iter_xO p d : Z.pos (Pos.iter xO p d) = Z.pos p * 2 ^ Z.pos d.
Proof.
  induction d as [|d IH] using Pos.peano_ind; [cbn; lia|].
  rewrite Pos.iter_succ, Pos2Z.inj_succ, Z.pow_succ_r by lia. change (Z.pos (Pos.iter xO p d)~0) with (2 * Z.pos (Pos.iter xO p d)).
  rewrite IH. lia.
Qed.
(** Aligning to a smaller exponent keeps the value. *)
Lemma shl_align_spec m e e' : let '(m', k) := shl_align m e e' in k = Z.min e e' ∧ Z.pos m' = Z.pos m * 2 ^ (e - k).
Proof.
  unfold shl_align. destruct (e' - e) as [|d|d] eqn:Hd.
  - split; [lia|]. rewrite Z.sub_diag. lia.
  - split; [lia|]. rewrite Z.sub_diag. lia.
  - split; [lia|]. rewrite iter_xO. do 2 f_equal. lia.
Qed.
Lemma round_spec sx m e : ∃ m' e', binary_round prec emax sx m e = binary_round_aux prec emax sx m' e' loc_Exact ∧
  fexp_ok m' e' ∧ e' ≤ e ∧ m' = Z.pos m * 2 ^ (e - e').
Proof.
  unfold binary_round. pose proof (shl_align_spec m e (fexp (Z.pos (digits2_pos m) + e))) as Hs.
  destruct (shl_align _ _ _) as [mz ez]. destruct Hs as [Hez Hmz]. exists (Z.pos mz), ez.
  split_and!; [done| |lia|done]. split; [done|]. rewrite Hmz, digits2_shift by lia.
  change (Zdigits2 (Z.pos m)) with (Z.pos (digits2_pos m)).
  replace (Z.pos (digits2_pos m) + (e - ez) + ez) with (Z.pos (digits2_pos m) + e) by lia. lia.
Qed.

Lemma normalize_nonneg m e : 0 ≤ m → nonneg (binary_normalize prec emax m e false).
Proof.
  intros Hm. destruct m as [|m|m]; [constructor| |lia]. cbn [binary_normalize].
  destruct (round_spec false m e) as (m' & e' & -> & Hok & _). by apply round_aux_nonneg.
Qed.
Lemma normalize_ge y m e : fin y → 0 ≤ m → dle (units y) emin m e →
  SFleb y (binary_normalize prec emax m e false) = true.
Proof.
  intros Hy Hm Hle. destruct m as [|m|m]; [| |lia].
  - cbn [binary_normalize]. apply leb_units; [done|constructor|]. set (z := Z.min emin e).
    specialize (Hle z ltac:(lia) ltac:(lia)). pose proof (pow_split z emin ltac:(lia)).
    cbn [units]. rewrite (Z.mul_le_mono_pos_r _ _ (2 ^ (emin - z))) by done. lia.
  - cbn [binary_normalize]. destruct (round_spec false m e) as (m' & e' & -> & Hok & He' & Hm').
    apply round_ge; [done|done|]. intros B. apply dle_multiple_l. set (z := Z.min emin e'). apply (dle_at z); [lia|lia|].
    specialize (Hle z ltac:(lia) ltac:(lia)). rewrite Hm', <-Z.mul_assoc, <-Z.pow_add_r by lia.
    replace (e - e' + (e' - z)) with (e - z) by lia. done.
Qed.
Lemma normalize_le y m e : fin y → 0 ≤ m → dle m e (units y) emin →
  SFleb (binary_normalize prec emax m e false) y = true.
Proof.
  intros Hy Hm Hle. destruct m as [|m|m]; [| |lia].
  - cbn [binary_normalize]. apply leb_units; [constructor|done|]. apply units_nonneg.
  - cbn [binary_normalize]. destruct (round_spec false m e) as (m' & e' & -> & Hok & He' & Hm').
    apply round_le; [done|done| |by left]. set (z := Z.min emin e'). apply (dle_at z); [lia|lia|].
    specialize (Hle z ltac:(lia) ltac:(lia)). rewrite Hm', <-Z.mul_assoc, <-Z.pow_add_r by lia.
    replace (e - e' + (e' - z)) with (e - z) by lia. done.
Qed.

(** *** Sums *)

Lemma aligned_units m e k : bounded m e = true → emin ≤ k → k ≤ e →
  Z.pos (fst (shl_align m e k)) * 2 ^ (k - emin) = units (S754_finite false m e).
Proof.
  intros Hb Hk He. pose proof (shl_align_spec m e k) as Hs. destruct (shl_align m e k) as [m' k'].
  destruct Hs as [-> Hm']. cbn [fst units]. rewrite Hm', <-Z.mul_assoc, <-Z.pow_add_r by lia. do 2 f_equal. lia.
Qed.
Lemma exact_spec r u : fin r → units r = u →
  nonneg r ∧ (∀ b, fin b → units b ≤ u → SFleb b r = true) ∧ (∀ b, fin b → u ≤ units b → SFleb r b = true).
Proof.
  intros Hr <-. split_and!; [by apply fin_nonneg|intros b Hb Hle; by apply leb_units..].
Qed.
(** A sum is the rounding of the exact sum of the units. *)
Lemma add_spec x y : fin x → fin y →
  nonneg (SFadd prec emax x y) ∧
  (∀ b, fin b → units b ≤ units x + units y → SFleb b (SFadd prec emax x y) = true) ∧
  (∀ b, fin b → units x + units y ≤ units b → SFleb (SFadd prec emax x y) b = true).
Proof.
  intros [|m1 e1 H1] [|m2 e2 H2].
  1-3: cbn [SFadd]; apply exact_spec; [apply fin_zero || by apply fin_finite|cbn [units]; lia].
  cbn [SFadd cond_Zopp]. set (k := Z.min e1 e2).
  pose proof (bounded_emin _ _ H1). pose proof (bounded_emin _ _ H2).
  pose proof (aligned_units m1 e1 k H1 ltac:(lia) ltac:(lia)) as Hu1.
  pose proof (aligned_units m2 e2 k H2 ltac:(lia) ltac:(lia)) as Hu2.
  set (a := Z.pos (fst (shl_align m1 e1 k))) in *. set (b' := Z.pos (fst (shl_align m2 e2 k))) in *.
  split_and!; [by apply normalize_nonneg|intros b Hb Hle|intros b Hb Hle];
    [apply normalize_ge|apply normalize_le]; try done; apply (dle_at emin); try lia;
    rewrite Z.sub_diag; lia.
Qed.

(** A difference, when it is not negative. *)
Lemma sub_spec x y : fin x → fin y → units y ≤ units x →
  nonneg (SFsub prec emax x y) ∧
  (∀ b, fin b → units b ≤ units x - units y → SFleb b (SFsub prec emax x y) = true) ∧
  (∀ b, fin b → units x - units y ≤ units b → SFleb (SFsub prec emax x y) b = true).
Proof.
  intros [|m1 e1 H1] [|m2 e2 H2] Hle0.
  - cbn [SFsub]. apply exact_spec; [apply fin_zero|done].
  - exfalso. cbn [units] in Hle0. pose proof (pow_split emin e2 (bounded_emin _ _ H2)). nia.
  - cbn [SFsub]. apply exact_spec; [by apply fin_finite|cbn [units]; lia].
  - cbn [SFsub cond_Zopp]. set (k := Z.min e1 e2).
    pose proof (bounded_emin _ _ H1). pose proof (bounded_emin _ _ H2).
    pose proof (aligned_units m1 e1 k H1 ltac:(lia) ltac:(lia)) as Hu1.
    pose proof (aligned_units m2 e2 k H2 ltac:(lia) ltac:(lia)) as Hu2.
    set (a := Z.pos (fst (shl_align m1 e1 k))) in *. set (b' := Z.pos (fst (shl_align m2 e2 k))) in *.
    pose proof (pow_split emin k ltac:(lia)).
    assert (0 ≤ a - b') by (assert (b' ≤ a); [rewrite (Z.mul_le_mono_pos_r _ _ (2 ^ (k - emin))); lia|lia]).
    split_and!; [by apply normalize_nonneg|intros b Hb Hle|intros b Hb Hle];
      [apply normalize_ge|apply normalize_le]; try done; apply (dle_at emin); try lia;
      rewrite Z.sub_diag; lia.
Qed.

(** *** Products *)

Lemma mul_exponent m1 e1 m2 e2 : bounded m1 e1 = true → bounded m2 e2 = true →
  fexp_ok (Z.pos (m1 * m2)) (e1 + e2).
Proof.
  intros H1 H2. split; [done|]. rewrite Pos2Z.inj_mul.
  pose proof (bounded_emin _ _ H1). pose proof (bounded_emin _ _ H2).
  assert (0 < 2 ^ (prec - 1)) by (apply Z.pow_pos_nonneg; lia).
  assert (emin < e1 ∨ emin < e2 ∨ e1 + e2 ≤ emin) as [He|[He|He]] by (unfold SpecFloat.emin in *; lia).
  - pose proof (bounded_normal _ _ H1 He).
    pose proof (digits2_gt (Z.pos m1 * Z.pos m2) (prec - 1) ltac:(lia) ltac:(nia)). unfold SpecFloat.fexp. lia.
  - pose proof (bounded_normal _ _ H2 He).
    pose proof (digits2_gt (Z.pos m1 * Z.pos m2) (prec - 1) ltac:(lia) ltac:(nia)). unfold SpecFloat.fexp. lia.
  - unfold SpecFloat.fexp. lia.
Qed.
(** [1], in units. *)
Definition unit1 : Z := 2 ^ (- emin).
Lemma unit1_pos : 0 < unit1.
Proof. apply Z.pow_pos_nonneg; [lia|unfold SpecFloat.emin; lia]. Qed.
Lemma mul_spec x y : fin x → fin y →
  nonneg (SFmul prec emax x y) ∧
  (∀ b, fin b → units b * unit1 ≤ units x * units y → SFleb b (SFmul prec emax x y) = true) ∧
  (∀ b, fin b → units x * units y ≤ units b * unit1 → SFleb (SFmul prec emax x y) b = true).
Proof.
  pose proof unit1_pos as Hu. intros [|m1 e1 H1] [|m2 e2 H2].
  1-3: destruct (exact_spec (S754_zero false) 0) as (Hn & Hge & Hle'); [constructor|done|];
    cbn [SFmul xorb]; split_and!; [done|intros b Hb Hle; apply Hge|intros b Hb Hle; apply Hle'];
    try done; cbn [units] in Hle; pose proof (units_nonneg b); nia.
  cbn [SFmul xorb]. pose proof (mul_exponent _ _ _ _ H1 H2) as Hok.
  pose proof (bounded_emin _ _ H1). pose proof (bounded_emin _ _ H2).
  assert (emin < 0) by (unfold SpecFloat.emin; lia).
  assert (∀ b, units b * 2 ^ (emin - (emin + emin)) = units b * unit1) as Hb'.
  { intros b. unfold unit1. do 2 f_equal. lia. }
  assert (Z.pos (m1 * m2) * 2 ^ (e1 + e2 - (emin + emin)) =
    units (S754_finite false m1 e1) * units (S754_finite false m2 e2)) as Hp.
  { cbn [units]. replace (e1 + e2 - (emin + emin)) with ((e1 - emin) + (e2 - emin)) by lia.
    rewrite Z.pow_add_r, Pos2Z.inj_mul by lia. lia. }
  split_and!; [by apply round_aux_nonneg|intros b Hb Hle|intros b Hb Hle];
    [apply round_ge; try done; intros B; apply dle_multiple_l|apply round_le; [..|by left]]; try done;
    apply (dle_at (emin + emin)); try lia;
    rewrite Hb', Hp; done.
Qed.
(** *** Quotients *)

Lemma scaled_le a b k : 0 < k → a ≤ b → a * k ≤ b * k.
Proof. intros Hk H. apply Z.mul_le_mono_nonneg_r; lia. Qed.
Lemma unscaled_le a b k : 0 < k → a * k ≤ b * k → a ≤ b.
Proof. intros Hk H. by rewrite (Z.mul_le_mono_pos_r _ _ k). Qed.

Lemma shift_up m s : 0 ≤ s → match s with Zpos _ => Z.shiftl m s | Z0 => m | Zneg _ => 0 end = m * 2 ^ s.
Proof. intros Hs. destruct s as [|p|p]; [cbn; lia|by rewrite Z.shiftl_mul_pow2 by lia|lia]. Qed.
Lemma new_location_exact n : new_location n 0 = loc_Exact.
Proof. unfold new_location, new_location_even, new_location_odd. by destruct (Z.even n). Qed.

(** The quotient's digits, rounded down, in units of [2 ^ e']. *)
Lemma div_core m1 e1 m2 e2 : let '(q, e', l) := SFdiv_core_binary prec emax (Z.pos m1) e1 (Z.pos m2) e2 in
  fexp_ok q e' ∧ e' ≤ e1 - e2 ∧
  q * Z.pos m2 ≤ Z.pos m1 * 2 ^ (e1 - e2 - e') < (q + 1) * Z.pos m2 ∧
  (l = loc_Exact ∨ q * Z.pos m2 < Z.pos m1 * 2 ^ (e1 - e2 - e')).
Proof.
  unfold SFdiv_core_binary.
  set (d1 := Zdigits2 (Z.pos m1)). set (d2 := Zdigits2 (Z.pos m2)).
  set (e' := Z.min (fexp (d1 + e1 - (d2 + e2))) (e1 - e2)). rewrite shift_up by lia.
  set (M := Z.pos m1 * 2 ^ (e1 - e2 - e')).
  assert (0 < 2 ^ (e1 - e2 - e')) by (apply Z.pow_pos_nonneg; lia).
  pose proof (Z_div_mod M (Z.pos m2) ltac:(lia)) as Hdm. destruct (Z.div_eucl M (Z.pos m2)) as [q r].
  destruct Hdm as [HM Hr]. assert (0 ≤ q) as Hq by (apply Z.lt_succ_r, (Z.mul_lt_mono_pos_l (Z.pos m2)); lia).
  split_and!; [|lia|lia|lia|].
  - split; [done|]. unfold e' at 1. etransitivity; [apply Z.le_min_l|]. apply fexp_mono.
    assert (d1 - d2 + (e1 - e2 - e') ≤ Zdigits2 q); [|lia].
    destruct (Z.le_gt_cases (d1 - d2 + (e1 - e2 - e')) 0); [pose proof (digits2_nonneg q); lia|].
    assert (d1 - d2 + (e1 - e2 - e') - 1 < Zdigits2 q); [|lia]. apply digits2_gt; [lia|].
    destruct (digits2_bounds (Z.pos m1) ltac:(done)) as [Hlo _]. destruct (digits2_bounds (Z.pos m2) ltac:(done)) as [_ Hhi].
    fold d1 in Hlo. fold d2 in Hhi. pose proof (digits2_nonneg (Z.pos m2)) as Hd2. fold d2 in Hd2.
    assert (2 ^ (d1 - d2 + (e1 - e2 - e') - 1) * 2 ^ d2 ≤ M) as Hpow.
    { rewrite <-Z.pow_add_r by lia. replace (d1 - d2 + (e1 - e2 - e') - 1 + d2) with (d1 - 1 + (e1 - e2 - e')) by lia.
      rewrite Z.pow_add_r by (pose proof (digits2_pos_iff (Z.pos m1) ltac:(done)); lia).
      apply Z.mul_le_mono_nonneg_r; lia. }
    set (B := 2 ^ (d1 - d2 + (e1 - e2 - e') - 1)) in *. assert (0 < B) by (apply Z.pow_pos_nonneg; lia).
    apply Z.lt_succ_r, (Z.mul_lt_mono_pos_l (Z.pos m2)); [done|]. nia.
  - destruct (Z.eq_dec r 0) as [-> |]; [left; apply new_location_exact|right; lia].
Qed.
Lemma div_spec x y : fin x → fin y → 0 < units y →
  nonneg (SFdiv prec emax x y) ∧
  (∀ b, fin b → units b * units y ≤ units x * unit1 → SFleb b (SFdiv prec emax x y) = true) ∧
  (∀ b, fin b → units x * unit1 ≤ units b * units y → SFleb (SFdiv prec emax x y) b = true).
Proof.
  pose proof unit1_pos as Hu. intros [|m1 e1 H1] [|m2 e2 H2] Hy; [done| |done|].
  { destruct (exact_spec (S754_zero false) 0) as (Hn & Hge & Hle'); [constructor|done|].
    cbn [SFdiv xorb]; split_and!; [done|intros b Hb Hle; apply Hge|intros b Hb Hle; apply Hle'];
    try done; cbn [units] in Hle, Hy; pose proof (units_nonneg b); [nia|lia]. }
  cbn [SFdiv xorb]. pose proof (div_core m1 e1 m2 e2) as Hc.
  destruct (SFdiv_core_binary _ _ _ _ _ _) as [[q e'] l]. destruct Hc as (Hok & He' & [Hlo Hhi] & Hl).
  pose proof (bounded_emin _ _ H1). pose proof (bounded_emin _ _ H2).
  assert (emin < 0) by (unfold SpecFloat.emin; lia).
  assert (0 < 2 ^ (e2 - emin)) as Hp2 by (apply Z.pow_pos_nonneg; lia).
  set (P2 := 2 ^ (e2 - emin)) in *. set (S := Z.pos m1 * 2 ^ (e1 - e2 - e')) in *.
  set (X := units (S754_finite false m1 e1) * unit1).
  (* the exact quotient, times the divisor *)
  assert (∀ z, z ≤ e' → z ≤ emin → S * 2 ^ (e' - z) * P2 = X * 2 ^ (emin - z)) as Hx.
  { intros z Hz1 Hz2. unfold S, P2, X, unit1. cbn [units].
    rewrite <-!Z.mul_assoc, <-!Z.pow_add_r by lia. do 2 f_equal. lia. }
  change (units (S754_finite false m2 e2)) with (Z.pos m2 * P2).
  split_and!; [by apply round_aux_nonneg|intros b Hb Hle|intros b Hb Hle].
  - apply round_ge; [done|done|]. intros B (z & Hz1 & Hz2 & HB). specialize (Hx z Hz2 Hz1).
    pose proof (pow_split z emin Hz1). pose proof (pow_split z e' Hz2).
    apply (scaled_le _ _ (2 ^ (emin - z))) in Hle; [|done].
    assert (B * Z.pos m2 ≤ S); [|apply Z.lt_succ_r, (Z.mul_lt_mono_pos_r (Z.pos m2)); lia].
    apply (unscaled_le _ _ (2 ^ (e' - z) * P2)); [by apply Z.mul_pos_pos|].
    replace (B * Z.pos m2 * (2 ^ (e' - z) * P2)) with (units b * 2 ^ (emin - z) * (Z.pos m2 * P2)) by (rewrite HB; ring).
    lia.
  - assert (∀ z, z ≤ e' → z ≤ emin → S * 2 ^ (e' - z) ≤ units b * 2 ^ (emin - z) * Z.pos m2) as Hs.
    { intros z Hz1 Hz2. specialize (Hx z Hz1 Hz2). pose proof (pow_split z emin Hz2).
      apply (scaled_le _ _ (2 ^ (emin - z))) in Hle; [|done]. apply (unscaled_le _ _ P2); [done|]. lia. }
    apply round_le; [done|done| |].
    + intros z Hz1 Hz2. specialize (Hs z Hz1 Hz2). pose proof (pow_split z e' Hz1).
      apply (unscaled_le _ _ (Z.pos m2)); [done|].
      apply (scaled_le _ _ (2 ^ (e' - z))) in Hlo; [lia|done].
    + destruct Hl as [Hl|Hl]; [by left|right]. intros B (z & Hz1 & Hz2 & HB). specialize (Hs z Hz2 Hz1).
      pose proof (pow_split z e' Hz2). rewrite HB in Hs.
      assert (S ≤ B * Z.pos m2) by (apply (unscaled_le _ _ (2 ^ (e' - z))); [done|lia]).
      assert (q < B); [|lia]. apply (Z.mul_lt_mono_pos_r (Z.pos m2)); lia.
Qed.

(** *** Square roots *)

Lemma sqrt_core m e : let '(q, e', l) := SFsqrt_core_binary prec emax (Z.pos m) e in
  fexp_ok q e' ∧ 2 * e' ≤ e ∧
  q * q ≤ Z.pos m * 2 ^ (e - 2 * e') < (q + 1) * (q + 1) ∧
  (l = loc_Exact ∨ q * q < Z.pos m * 2 ^ (e - 2 * e')).
Proof.
  unfold SFsqrt_core_binary. set (d := Zdigits2 (Z.pos m)). rewrite !Z.div2_div.
  set (e' := Z.min (fexp ((d + e + 1) / 2)) (e / 2)).
  assert (2 * e' ≤ e) as He' by (pose proof (Z.mul_div_le e 2 ltac:(lia)); lia).
  rewrite shift_up by lia. set (M := Z.pos m * 2 ^ (e - 2 * e')).
  assert (0 < 2 ^ (e - 2 * e')) by (apply Z.pow_pos_nonneg; lia).
  pose proof (Z.sqrtrem_spec M ltac:(lia)) as Hs. destruct (Z.sqrtrem M) as [q r]. destruct Hs as [HM Hr].
  assert (0 ≤ q) by lia.
  split_and!; [|done|lia|lia|].
  - split; [done|]. unfold e' at 1. etransitivity; [apply Z.le_min_l|]. apply fexp_mono.
    assert (Zdigits2 M = d + (e - 2 * e')) as HD by (apply digits2_shift; lia).
    destruct (digits2_bounds M ltac:(lia)) as [Hlo _]. rewrite HD in Hlo.
    set (D := d + (e - 2 * e')) in *. assert ((d + e + 1) / 2 = (D + 1) / 2 + e') as ->.
    { rewrite <-Z.div_add by lia. f_equal. lia. }
    assert ((D + 1) / 2 ≤ Zdigits2 q); [|lia].
    set (k := (D + 1) / 2) in *. pose proof (Z.mul_div_le (D + 1) 2 ltac:(lia)) as Hk. fold k in Hk.
    destruct (Z.le_gt_cases k 0); [pose proof (digits2_nonneg q); lia|].
    assert (k - 1 < Zdigits2 q); [|lia]. apply digits2_gt; [lia|].
    assert (2 ^ (k - 1) * 2 ^ (k - 1) ≤ M) as HkM.
    { rewrite <-Z.pow_add_r by lia. transitivity (2 ^ (D - 1)); [apply Z.pow_le_mono_r; lia|done]. }
    assert (0 < 2 ^ (k - 1)) by (apply Z.pow_pos_nonneg; lia).
    apply Z.lt_succ_r, Z.square_lt_simpl_nonneg; [lia|]. nia.
  - destruct (Z.eqb_spec r 0) as [-> |]; [by left|right; lia].
Qed.
Lemma sqrt_spec x : fin x →
  nonneg (SFsqrt prec emax x) ∧
  (∀ b, fin b → units b * units b ≤ units x * unit1 → SFleb b (SFsqrt prec emax x) = true) ∧
  (∀ b, fin b → units x * unit1 ≤ units b * units b → SFleb (SFsqrt prec emax x) b = true).
Proof.
  pose proof unit1_pos as Hu. intros [|m e H1].
  { destruct (exact_spec (S754_zero false) 0) as (Hn & Hge & Hle'); [constructor|done|].
    cbn [SFsqrt]; split_and!; [done|intros b Hb Hle; apply Hge|intros b Hb Hle; apply Hle'];
    try done; cbn [units] in Hle; pose proof (units_nonneg b); nia. }
  cbn [SFsqrt]. pose proof (sqrt_core m e) as Hc.
  destruct (SFsqrt_core_binary _ _ _ _) as [[q e'] l]. destruct Hc as (Hok & He' & [Hlo Hhi] & Hl).
  pose proof (bounded_emin _ _ H1). assert (emin < 0) by (unfold SpecFloat.emin; lia).
  set (S := Z.pos m * 2 ^ (e - 2 * e')) in *. set (X := units (S754_finite false m e) * unit1).
  assert (∀ z, z ≤ e' → z ≤ emin → S * (2 ^ (e' - z) * 2 ^ (e' - z)) = X * (2 ^ (emin - z) * 2 ^ (emin - z))) as Hx.
  { intros z Hz1 Hz2. unfold S, X, unit1. cbn [units].
    rewrite <-!Z.mul_assoc, <-!Z.pow_add_r by lia. do 2 f_equal. lia. }
  destruct Hok as [Hq Hok].
  split_and!; [by apply round_aux_nonneg|intros b Hb Hle|intros b Hb Hle].
  - apply round_ge; [done|done|]. intros B (z & Hz1 & Hz2 & HB). specialize (Hx z Hz2 Hz1).
    pose proof (pow_split z emin Hz1). pose proof (pow_split z e' Hz2).
    apply (scaled_le _ _ (2 ^ (emin - z) * 2 ^ (emin - z))) in Hle; [|by apply Z.mul_pos_pos].
    assert (B * B ≤ S); [|apply Z.lt_succ_r, Z.square_lt_simpl_nonneg; lia].
    apply (unscaled_le _ _ (2 ^ (e' - z) * 2 ^ (e' - z))); [by apply Z.mul_pos_pos|].
    replace (B * B * (2 ^ (e' - z) * 2 ^ (e' - z))) with ((units b * 2 ^ (emin - z)) * (units b * 2 ^ (emin - z)))
      by (rewrite HB; ring). lia.
  - assert (∀ z, z ≤ e' → z ≤ emin →
      S * (2 ^ (e' - z) * 2 ^ (e' - z)) ≤ (units b * 2 ^ (emin - z)) * (units b * 2 ^ (emin - z))) as Hs.
    { intros z Hz1 Hz2. specialize (Hx z Hz1 Hz2). pose proof (pow_split z emin Hz2).
      apply (scaled_le _ _ (2 ^ (emin - z) * 2 ^ (emin - z))) in Hle; [lia|by apply Z.mul_pos_pos]. }
    pose proof (units_nonneg b).
    apply round_le; [done|done| |].
    + intros z Hz1 Hz2. specialize (Hs z Hz1 Hz2). pose proof (pow_split z e' Hz1). pose proof (pow_split z emin Hz2).
      apply (scaled_le _ _ (2 ^ (e' - z) * 2 ^ (e' - z))) in Hlo; [|by apply Z.mul_pos_pos].
      apply Z.square_le_simpl_nonneg; [apply Z.mul_nonneg_nonneg; lia|].
      replace (q * 2 ^ (e' - z) * (q * 2 ^ (e' - z))) with (q * q * (2 ^ (e' - z) * 2 ^ (e' - z))) by ring. lia.
    + destruct Hl as [Hl|Hl]; [by left|right]. intros B (z & Hz1 & Hz2 & HB). specialize (Hs z Hz2 Hz1).
      pose proof (pow_split z e' Hz2). pose proof (pow_split z emin Hz1). rewrite HB in Hs.
      assert (0 ≤ B) as HB0 by (apply (unscaled_le _ _ (2 ^ (e' - z))); [done|rewrite <-HB; nia]).
      assert (S ≤ B * B).
      { apply (unscaled_le _ _ (2 ^ (e' - z) * 2 ^ (e' - z))); [by apply Z.mul_pos_pos|].
        replace (B * B * (2 ^ (e' - z) * 2 ^ (e' - z))) with (B * 2 ^ (e' - z) * (B * 2 ^ (e' - z))) by ring. done. }
      assert (q < B); [|lia]. apply Z.square_lt_simpl_nonneg; lia.
Qed.

(** *** Whole numbers *)

(** Significands of at most [prec] digits are represented exactly. *)
Lemma canonical_exists m j : 0 ≤ m < 2 ^ prec → emin ≤ j ≤ 0 → ∃ y, fin y ∧ units y = m * 2 ^ (j - emin).
Proof.
  intros Hm Hj. destruct (decide (m = 0)) as [-> |]; [by exists (S754_zero false); split; [constructor|]|].
  assert (emin < 0) by (unfold SpecFloat.emin; lia). pose proof (digits2_le m prec ltac:(lia) ltac:(lia)) as Hd.
  set (k := fexp (Zdigits2 m + j)). assert (emin ≤ k ≤ j) by (unfold k, SpecFloat.fexp; lia).
  assert (0 < 2 ^ (j - k)) by (apply Z.pow_pos_nonneg; lia).
  assert (0 < m * 2 ^ (j - k)) as Hpos by (apply Z.mul_pos_pos; lia).
  destruct (m * 2 ^ (j - k)) as [|p|p] eqn:Hp; [done| |done].
  exists (S754_finite false p k). split.
  - constructor. pose proof (digits2_shift m (j - k) ltac:(lia) ltac:(lia)) as Hpd. rewrite Hp in Hpd.
    destruct (digits2_pos_bounds p) as [Hlo Hhi]. cbn [Zdigits2] in Hpd. rewrite Hpd in Hlo, Hhi.
    apply bounded_intro.
    + split; [done|]. apply Z.lt_le_trans with (1 := Hhi). apply Z.pow_le_mono_r; [lia|]. unfold k, SpecFloat.fexp. lia.
    + lia.
    + intros Hk. replace (prec - 1) with (Zdigits2 m + (j - k) - 1) by (unfold k, SpecFloat.fexp in *; lia). done.
  - cbn [units]. rewrite <-Hp, <-Z.mul_assoc, <-Z.pow_add_r by lia. do 2 f_equal. lia.
Qed.
Lemma dle_int (m n : Z) : m * unit1 ≤ n → dle m 0 n emin.
Proof.
  intros H. assert (emin < 0) by (unfold SpecFloat.emin; lia). apply (dle_at emin); [lia|lia|].
  rewrite Z.sub_diag. unfold unit1 in H. replace (0 - emin) with (- emin) by lia. lia.
Qed.
Lemma dle_int_l (m n : Z) : n ≤ m * unit1 → dle n emin m 0.
Proof.
  intros H. assert (emin < 0) by (unfold SpecFloat.emin; lia). apply (dle_at emin); [lia|lia|].
  rewrite Z.sub_diag. unfold unit1 in H. replace (0 - emin) with (- emin) by lia. lia.
Qed.
Lemma int_spec m : 0 ≤ m < 2 ^ prec →
  fin (binary_normalize prec emax m 0 false) ∧ units (binary_normalize prec emax m 0 false) = m * unit1.
Proof.
  intros Hm. assert (emin < 0) by (unfold SpecFloat.emin; lia).
  destruct (canonical_exists m 0 Hm) as (y & Hy & Hu); [lia|]. rewrite Z.sub_0_l in Hu. fold unit1 in Hu.
  pose proof (normalize_nonneg m 0 ltac:(lia)) as Hn.
  pose proof (normalize_le y m 0 Hy ltac:(lia) (dle_int m (units y) ltac:(lia))) as Hle.
  pose proof (normalize_ge y m 0 Hy ltac:(lia) (dle_int_l m (units y) ltac:(lia))) as Hge.
  pose proof (leb_fin _ _ Hn Hy Hle) as Hf. split; [done|].
  apply leb_units in Hle, Hge; [|done..]. lia.
Qed.

(** *** Never NaN *)

Lemma round_aux_number sx m e l : fexp_ok m e → binary_round_aux prec emax sx m e l ≠ S754_nan.
Proof. intros [Hm He]. destruct (round_aux_spec sx m e l Hm He) as (m2 & _ & _ & Hr). by destruct Hr. Qed.
Lemma normalize_number m e sx : binary_normalize prec emax m e sx ≠ S754_nan.
Proof.
  destruct m as [|m|m]; [done| |]; cbn [binary_normalize].
  - destruct (round_spec false m e) as (m' & e' & -> & Hok & _). by apply round_aux_number.
  - destruct (round_spec true m e) as (m' & e' & -> & Hok & _). by apply round_aux_number.
Qed.
(** Adding something finite, and dividing by something positive and finite. *)
Lemma add_number x y : x ≠ S754_nan → (∃ s, y = S754_zero s) ∨ (∃ s m e, y = S754_finite s m e) →
  SFadd prec emax x y ≠ S754_nan.
Proof.
  intros Hx [[s ->]|(s & m & e & ->)]; destruct x as [[]|[]| |s' m' e']; try done; try (by destruct s).
  apply normalize_number.
Qed.
Lemma div_number x y : x ≠ S754_nan → fin y → 0 < units y → SFdiv prec emax x y ≠ S754_nan.
Proof.
  intros Hx [|m2 e2 H2] Hy; [done|]. destruct x as [| | |s m e]; try done. cbn [SFdiv].
  pose proof (div_core m e m2 e2) as Hc. destruct (SFdiv_core_binary _ _ _ _ _ _) as [[q e'] l].
  by apply round_aux_number, Hc.
Qed.

(** *** Numbers of the format, of either sign *)

Definition valid (x : spec_float) : Prop := match x with S754_finite _ m e => bounded m e = true | _ => True end.
Lemma fin_valid x : fin x → valid x.
Proof. by destruct 1. Qed.
Lemma round_aux_valid sx m e l : fexp_ok m e → valid (binary_round_aux prec emax sx m e l).
Proof. intros [Hm He]. destruct (round_aux_spec sx m e l Hm He) as (m2 & _ & _ & Hr). by destruct Hr. Qed.
Lemma normalize_valid m e sx : valid (binary_normalize prec emax m e sx).
Proof.
  destruct m as [|m|m]; [done| |]; cbn [binary_normalize].
  - destruct (round_spec false m e) as (m' & e' & -> & Hok & _). by apply round_aux_valid.
  - destruct (round_spec true m e) as (m' & e' & -> & Hok & _). by apply round_aux_valid.
Qed.
Lemma add_valid x y : valid x → valid y → valid (SFadd prec emax x y).
Proof.
  intros Hx Hy. destruct x as [[]|[]| |[] m1 e1], y as [[]|[]| |[] m2 e2]; try done; apply normalize_valid.
Qed.
Lemma div_valid x y : valid (SFdiv prec emax x y).
Proof.
  destruct x as [| | |s1 m1 e1], y as [| | |s2 m2 e2]; try done. cbn [SFdiv].
  pose proof (div_core m1 e1 m2 e2) as Hc. destruct (SFdiv_core_binary _ _ _ _ _ _) as [[q e'] l].
  by apply round_aux_valid, Hc.
Qed.
(** A quotient of a number that is not positive is not. *)
Lemma div_nonpos x y : nonneg x → fin y → 0 < units y → SFleb (SFdiv prec emax (SFopp x) y) (S754_zero false) = true.
Proof.
  intros Hx [|m2 e2 H2] Hy; [done|]. destruct Hx as [| |m e Hb]; [done|done|]. cbn [SFopp negb SFdiv xorb].
  pose proof (div_core m e m2 e2) as Hc. destruct (SFdiv_core_binary _ _ _ _ _ _) as [[q e'] l].
  destruct Hc as ([Hq Hok] & _). destruct (round_aux_spec true q e' l Hq Hok) as (m2' & _ & _ & Hr).
  by destruct Hr.
Qed.
End format.
