(* ===== verification/Float32.v ===== *)
(** * Rust's [f32]

    IEEE 754 binary32, round to nearest even, by the Standard Library's
    executable specification [SpecFloat].  The numbers between zero and one
    and what keeps a result among them. *)

From Stdlib Require Export SpecFloat.
From S2P Require Import Prelude FloatFacts.

#[local] Open Scope Z_scope.

Definition f32 : Type := spec_float.

(** [z as f32], and the four operations. *)
Definition f32_of_int (z : Z) : f32 := binary_normalize 24 128 z 0 false.
Definition f32_add : f32 → f32 → f32 := SFadd 24 128.
Definition f32_sub : f32 → f32 → f32 := SFsub 24 128.
Definition f32_mul : f32 → f32 → f32 := SFmul 24 128.
Definition f32_div : f32 → f32 → f32 := SFdiv 24 128.

(** A literal [m * 2^e]. *)
Definition f32_lit (m : positive) (e : Z) : f32 := binary_normalize 24 128 (Zpos m) e false.
Definition f32_zero : f32 := S754_zero false.
Definition f32_one : f32 := f32_of_int 1.
(** [f32::MIN_POSITIVE]. *)
Definition f32_min_positive : f32 := f32_lit 1 (-126).

(** [iter().sum()]: the sum of nothing is negative zero. *)
Definition f32_sum (l : list f32) : f32 := foldl f32_add (S754_zero true) l.
(** [x.clamp(lo, hi)]: a NaN stays one. *)
Definition f32_clamp (x lo hi : f32) : f32 :=
  let x := if SFltb x lo then lo else x in
  if SFltb hi x then hi else x.

Definition f32_is_nan (x : f32) : bool := match x with S754_nan => true | _ => false end.

(** ** Comparisons *)

Lemma SFcompare_flip x y :
  SFcompare y x = match SFcompare x y with Some c => Some (CompOpp c) | None => None end.
Proof.
  destruct x as [[]|[]| |[] m1 e1], y as [[]|[]| |[] m2 e2]; try done; cbn.
  all: change (Pos.compare_cont Eq m2 m1) with (Pos.compare m2 m1).
  all: change (Pos.compare_cont Eq m1 m2) with (Pos.compare m1 m2).
  all: rewrite (Z.compare_antisym e1 e2), (Pos.compare_antisym m1 m2).
  all: destruct (Z.compare e1 e2); try done; by destruct (Pos.compare m1 m2).
Qed.
Lemma SFcompare_some x y :
  f32_is_nan x = false → f32_is_nan y = false → ∃ c, SFcompare x y = Some c.
Proof.
  destruct x as [[]|[]| |[] m1 e1], y as [[]|[]| |[] m2 e2]; try done; intros _ _; cbn;
    try (by eexists); destruct (Z.compare e1 e2); by eexists.
Qed.
Lemma SFleb_not_lt x y :
  f32_is_nan x = false → f32_is_nan y = false → SFltb x y = false → SFleb y x = true.
Proof.
  intros Hx Hy. unfold SFltb, SFleb. rewrite (SFcompare_flip x y).
  destruct (SFcompare_some x y Hx Hy) as [[] ->]; done.
Qed.
Lemma SFleb_refl x : f32_is_nan x = false → SFleb x x = true.
Proof.
  destruct x as [[]|[]| |[] m e]; try done; intros _; unfold SFleb; cbn;
    by rewrite Z.compare_refl, ?Pos.compare_refl, ?Pos.compare_cont_refl.
Qed.

(** A number clamped to [lo, hi] lies between them. *)
Lemma f32_clamp_range x lo hi :
  f32_is_nan lo = false → f32_is_nan hi = false → SFleb lo hi = true →
  f32_is_nan (f32_clamp x lo hi) = true ∨
  (SFleb lo (f32_clamp x lo hi) = true ∧ SFleb (f32_clamp x lo hi) hi = true).
Proof.
  intros Hlo Hhi Hle. unfold f32_clamp.
  destruct (f32_is_nan x) eqn:Hx.
  { destruct x; try done. left. cbn. by destruct hi. }
  right. destruct (SFltb x lo) eqn:H1.
  - destruct (SFltb hi lo) eqn:H2.
    + split; [done|by apply SFleb_refl].
    + split; [by apply SFleb_refl|done].
  - destruct (SFltb hi x) eqn:H2.
    + split; [done|by apply SFleb_refl].
    + split; by apply SFleb_not_lt.
Qed.

(** ** Between zero and one *)

Abbreviation f32_units := (units 24 128).
Abbreviation f32_fin := (fin 24 128).
Abbreviation f32_nonneg := (nonneg 24 128).

(** One of the numbers between zero and one, negative zero left out. *)
Definition f32_unit (x : f32) : Prop := f32_fin x ∧ f32_units x ≤ f32_units f32_one.

Lemma f32_fin_finite m e : bounded 24 128 m e = true → f32_fin (S754_finite false m e).
Proof. apply fin_finite. Qed.
Lemma f32_zero_fin : f32_fin f32_zero.
Proof. apply fin_zero. Qed.
Lemma f32_one_fin : f32_fin f32_one.
Proof. by apply fin_finite. Qed.
Lemma f32_one_units : f32_units f32_one = unit1 24 128.
Proof. reflexivity. Qed.
#[export] Hint Resolve f32_zero_fin f32_one_fin : core.

Lemma f32_leb_units x y : f32_fin x → f32_fin y → SFleb x y = true ↔ f32_units x ≤ f32_units y.
Proof. by apply leb_units. Qed.
Lemma f32_unit_bounds x : f32_unit x → SFleb f32_zero x = true ∧ SFleb x f32_one = true.
Proof.
  intros [Hx Hle]. split; [|by apply f32_leb_units]. apply f32_leb_units; [done..|]. by apply units_nonneg.
Qed.
Lemma f32_unit_intro x : f32_nonneg x → SFleb x f32_one = true → f32_unit x.
Proof.
  intros Hn Hle. assert (f32_fin x) as Hx by (eapply leb_fin; [done|apply f32_one_fin|done]).
  split; [done|]. by apply f32_leb_units.
Qed.
Lemma f32_unit_zero : f32_unit f32_zero.
Proof. by split. Qed.
Lemma f32_unit_one : f32_unit f32_one.
Proof. by split. Qed.

Lemma f32_nonneg_ltb x : f32_nonneg x → SFltb x f32_zero = false.
Proof. by destruct 1. Qed.
Lemma f32_clamp_unit x : f32_nonneg x → f32_unit (f32_clamp x f32_zero f32_one).
Proof.
  intros Hx. unfold f32_clamp. rewrite f32_nonneg_ltb by done.
  destruct (SFltb f32_one x) eqn:Hlt; [apply f32_unit_one|]. apply f32_unit_intro; [done|].
  apply SFleb_not_lt; [done|by destruct Hx|done].
Qed.
Lemma f32_clamp_full x : f32_nonneg x → SFleb f32_one x = true → f32_units (f32_clamp x f32_zero f32_one) = f32_units f32_one.
Proof.
  intros Hx Hone. pose proof (f32_clamp_unit x Hx) as [Hf Hle]. apply Z.le_antisymm; [done|].
  unfold f32_clamp in *. rewrite f32_nonneg_ltb in * by done.
  destruct (SFltb f32_one x); [done|]. by apply f32_leb_units.
Qed.
Lemma f32_mul_unit x y : f32_unit x → f32_unit y → f32_unit (f32_mul x y).
Proof.
  intros [Hx Hx1] [Hy Hy1]. destruct (mul_spec 24 128 ltac:(done) ltac:(done) x y Hx Hy) as (Hn & _ & Hle).
  apply f32_unit_intro; [done|]. apply Hle; [done|]. rewrite <-f32_one_units.
  apply Z.mul_le_mono_nonneg; [by apply units_nonneg|done|by apply units_nonneg|done].
Qed.
(** A part of the whole. *)
Lemma f32_div_unit x y : f32_fin x → f32_fin y → 0 < f32_units y → f32_units x ≤ f32_units y →
  f32_unit (f32_div x y).
Proof.
  intros Hx Hy Hpos Hle. destruct (div_spec 24 128 ltac:(done) ltac:(done) x y Hx Hy Hpos) as (Hn & _ & Hd).
  apply f32_unit_intro; [done|]. apply Hd; [done|]. rewrite f32_one_units.
  rewrite Z.mul_comm. apply Z.mul_le_mono_nonneg_l; [|done]. apply Z.lt_le_incl. by apply unit1_pos.
Qed.
Lemma f32_sub_unit x : f32_unit x → f32_unit (f32_sub f32_one x).
Proof.
  intros [Hx Hle]. destruct (sub_spec 24 128 ltac:(done) ltac:(done) f32_one x f32_one_fin Hx Hle) as (Hn & _ & Hs).
  apply f32_unit_intro; [done|]. apply Hs; [done|]. pose proof (units_nonneg 24 128 ltac:(done) x). lia.
Qed.

(** Counts below [2 ^ 24] are represented exactly. *)
Lemma f32_of_int_exact z : 0 ≤ z < 2 ^ 24 →
  f32_fin (f32_of_int z) ∧ f32_units (f32_of_int z) = z * f32_units f32_one.
Proof. rewrite f32_one_units. by apply int_spec. Qed.
(** Any count is at least one or zero, and finite. *)
Lemma f32_of_int_fin z : 0 ≤ z < 2 ^ 64 → f32_fin (f32_of_int z) ∧ (0 < z → f32_units f32_one ≤ f32_units (f32_of_int z)).
Proof.
  intros Hz. pose proof (normalize_nonneg 24 128 ltac:(done) ltac:(done) z 0 ltac:(lia)) as Hn.
  assert (f32_fin (S754_finite false 8388608 41)) as Hb by (by apply fin_finite).
  assert (f32_fin (f32_of_int z)) as Hf.
  { eapply leb_fin; [done|exact Hb|]. apply normalize_le; [done..|lia|]. apply dle_int; [done..|].
    transitivity (2 ^ 64 * unit1 24 128); [|by vm_compute]. pose proof (unit1_pos 24 128 ltac:(done) ltac:(done)). nia. }
  split; [done|]. intros Hpos. apply f32_leb_units; [done..|].
  apply normalize_ge; [done..|lia|]. apply dle_int_l; [done..|]. rewrite f32_one_units.
  pose proof (unit1_pos 24 128 ltac:(done) ltac:(done)). nia.
Qed.
(** What was exact below stays below. *)
Lemma f32_of_int_mono a b : 0 ≤ a < 2 ^ 24 → a ≤ b < 2 ^ 64 → f32_units (f32_of_int a) ≤ f32_units (f32_of_int b).
Proof.
  intros Ha Hb. destruct (f32_of_int_exact a Ha) as [Hf Hu]. destruct (f32_of_int_fin b) as [Hfb _]; [lia|].
  apply f32_leb_units; [done..|]. apply normalize_ge; [done..|lia|]. apply dle_int_l; [done..|].
  rewrite Hu, f32_one_units. apply Z.mul_le_mono_nonneg_r; [|lia]. apply Z.lt_le_incl. by apply unit1_pos.
Qed.
Lemma f32_clamp_id x : f32_unit x → f32_clamp x f32_zero f32_one = x.
Proof.
  intros Hx. destruct Hx as [Hf Hle]. unfold f32_clamp.
  rewrite f32_nonneg_ltb by (by apply fin_nonneg).
  destruct (SFltb f32_one x) eqn:Hlt; [|done]. apply f32_leb_units in Hle; [|done..].
  unfold SFltb, SFleb in *. rewrite (SFcompare_flip f32_one x) in Hle.
  by destruct (SFcompare f32_one x) as [[]|].
Qed.

(** ** Averages *)

Definition f32_weight (x : f32) : Prop := x ≠ S754_nan ∧ valid 24 128 x ∧ ((∃ s, x = S754_zero s) ∨ ∃ s m e, x = S754_finite s m e).
Lemma f32_unit_weight x : f32_unit x → f32_weight x.
Proof. intros [[|m e Hb] _]; (split; [done|split; [done|]]); eauto. Qed.
(** A sum of finite numbers is a number. *)
Lemma f32_add_weight x y : x ≠ S754_nan ∧ valid 24 128 x → f32_weight y → f32_add x y ≠ S754_nan ∧ valid 24 128 (f32_add x y).
Proof.
  intros [Hx Hv] (_ & Hvy & Hy). split; [by apply add_number|by apply add_valid].
Qed.
Lemma f32_sum_weights l : ∀ acc, acc ≠ S754_nan ∧ valid 24 128 acc → Forall f32_weight l →
  foldl f32_add acc l ≠ S754_nan ∧ valid 24 128 (foldl f32_add acc l).
Proof.
  induction l as [|x l IH]; intros acc Hacc Hl; [done|]. apply Forall_cons in Hl as [Hx Hl]. cbn [foldl].
  apply IH; [by apply f32_add_weight|done].
Qed.
(** A sum of [n] numbers between zero and one is at most [n]. *)
Lemma f32_sum_units l : ∀ acc n, 0 ≤ n → n + Z.of_nat (length l) < 2 ^ 24 →
  f32_fin acc → f32_units acc ≤ n * f32_units f32_one → Forall f32_unit l →
  f32_fin (foldl f32_add acc l) ∧ f32_units (foldl f32_add acc l) ≤ (n + Z.of_nat (length l)) * f32_units f32_one.
Proof.
  induction l as [|x l IH]; intros acc n Hn Hlen Hacc Hle Hl.
  { rewrite Z.add_0_r. done. }
  apply Forall_cons in Hl as [[Hx Hx1] Hl]. cbn [foldl]. rewrite length_cons, Nat2Z.inj_succ, <-Z.add_1_l, Z.add_assoc in *.
  destruct (f32_of_int_exact (n + 1)) as [Hb Hbu]; [lia|].
  destruct (add_spec 24 128 ltac:(done) ltac:(done) acc x Hacc Hx) as (Hnn & _ & Hadd).
  assert (SFleb (f32_add acc x) (f32_of_int (n + 1)) = true) as Hle' by (apply Hadd; [done|]; rewrite Hbu; lia).
  assert (f32_fin (f32_add acc x)) as Hf by (by eapply leb_fin).
  apply IH; [lia|lia|done| |done]. rewrite <-Hbu. by apply f32_leb_units.
Qed.
Lemma f32_zero_add x : f32_unit x → f32_add (S754_zero true) x = x.
Proof. intros [[|m e Hb] _]; done. Qed.
(** The mean of numbers between zero and one is one. *)
Lemma f32_mean_unit acc l : (acc = f32_zero ∨ acc = S754_zero true) → l ≠ [] → Z.of_nat (length l) < 2 ^ 24 → Forall f32_unit l →
  f32_unit (f32_div (foldl f32_add acc l) (f32_of_int (Z.of_nat (length l)))).
Proof.
  intros Hacc Hne Hlen Hl. assert (f32_fin (foldl f32_add acc l) ∧
    f32_units (foldl f32_add acc l) ≤ Z.of_nat (length l) * f32_units f32_one) as [Hf Hu].
  { destruct Hacc as [-> | ->].
    - by apply (f32_sum_units l f32_zero 0).
    - destruct l as [|x l]; [done|]. apply Forall_cons in Hl as [Hx Hl]. cbn [foldl]. rewrite f32_zero_add by done.
      rewrite length_cons, Nat2Z.inj_succ, <-Z.add_1_l in *.
      apply (f32_sum_units l x 1); [done|done|apply Hx|rewrite Z.mul_1_l; apply Hx|done]. }
  destruct (f32_of_int_exact (Z.of_nat (length l))) as [Hn Hnu]; [lia|].
  apply f32_div_unit; [done|done| |by rewrite Hnu]. rewrite Hnu, f32_one_units.
  apply Z.mul_pos_pos; [destruct l; [done|cbn; lia]|by apply unit1_pos].
Qed.
(** Half the sum of two. *)
Lemma f32_half_unit x y : f32_unit x → f32_unit y → f32_unit (f32_div (f32_add x y) (f32_of_int 2)).
Proof.
  intros Hx Hy. pose proof (f32_mean_unit f32_zero [x; y] (or_introl eq_refl) ltac:(done) ltac:(done)
    (Forall_cons_2 _ _ _ Hx (Forall_cons_2 _ _ _ Hy (Forall_nil_2 _)))) as H. revert H. cbn [foldl length]. change (f32_of_int (Z.of_nat 2)) with (f32_of_int 2).
  assert (f32_add f32_zero x = x) as -> by (by destruct Hx as [[] _]). done.
Qed.
(** Between zero and one, or negative zero. *)
Lemma f32_between_cases x : valid 24 128 x → SFleb f32_zero x = true → SFleb x f32_one = true →
  x = S754_zero true ∨ f32_unit x.
Proof.
  intros Hv H0 H1. destruct x as [[]|[]| |[] m e]; try done; [by left|right; apply f32_unit_zero|right].
  apply f32_unit_intro; [by constructor|done].
Qed.
Lemma f32_add_neg_zero x : f32_unit x → f32_add x (S754_zero true) = x.
Proof. intros [[|m e Hb] _]; done. Qed.

(** ** Numbers that are not negative, infinity among them *)

Lemma nonneg_add x y : f32_nonneg x → f32_nonneg y → f32_nonneg (f32_add x y) ∧ SFleb x (f32_add x y) = true.
Proof.
  intros Hx Hy. assert (∀ z, f32_nonneg z → z = S754_infinity false ∨ f32_fin z) as Hcase.
  { intros z []; [right; by constructor|by left|right; by constructor]. }
  destruct (Hcase x Hx) as [-> |Hfx]; [by destruct Hy|].
  destruct (Hcase y Hy) as [-> |Hfy]; [by destruct Hfx|].
  destruct (add_spec 24 128 ltac:(done) ltac:(done) x y Hfx Hfy) as (Hn & Hge & _).
  split; [done|]. apply Hge; [done|]. pose proof (units_nonneg 24 128 ltac:(done) y). lia.
Qed.
Lemma nonneg_mul x y : f32_fin x → 0 < f32_units x → f32_nonneg y → f32_nonneg (f32_mul x y).
Proof.
  intros Hx Hpos Hy. assert (f32_fin y → f32_nonneg (f32_mul x y)) as Hfin.
  { intros Hf. by destruct (mul_spec 24 128 ltac:(done) ltac:(done) x y Hx Hf). }
  destruct Hy as [| |m e Hb]; [apply Hfin; constructor| |apply Hfin; by constructor].
  destruct Hx; [done|]. by constructor.
Qed.
Lemma nonneg_div x y : f32_nonneg x → f32_fin y → 0 < f32_units y → f32_nonneg (f32_div x y).
Proof.
  intros Hx Hy Hpos. assert (f32_fin x → f32_nonneg (f32_div x y)) as Hfin.
  { intros Hf. by destruct (div_spec 24 128 ltac:(done) ltac:(done) x y Hf Hy Hpos). }
  destruct Hx as [| |m e Hb]; [apply Hfin; constructor| |apply Hfin; by constructor].
  destruct Hy; [done|]. by constructor.
Qed.
Lemma count_pos n : (0 < n)%nat → Z.of_nat n < 2 ^ 64 → f32_fin (f32_of_int (Z.of_nat n)) ∧ 0 < f32_units (f32_of_int (Z.of_nat n)).
Proof.
  intros Hn Hlt. destruct (f32_of_int_fin (Z.of_nat n)) as [Hf Hpos]; [lia|]. split; [done|].
  specialize (Hpos ltac:(lia)). by apply Z.lt_le_trans with (2 := Hpos).
Qed.
(** A sum: negative zero if there is nothing to sum. *)
Lemma nonneg_sum l : Forall f32_nonneg l → l = [] ∧ f32_sum l = S754_zero true ∨ f32_nonneg (f32_sum l).
Proof.
  assert (∀ l acc, f32_nonneg acc → Forall f32_nonneg l → f32_nonneg (foldl f32_add acc l)) as Hacc.
  { clear. induction l as [|x l IH]; intros acc Ha Hl; [done|]. apply Forall_cons in Hl as [Hx Hl].
    apply IH; [by apply nonneg_add|done]. }
  intros Hl. destruct l as [|x l]; [by left|right]. apply Forall_cons in Hl as [Hx Hl].
  unfold f32_sum. cbn [foldl]. apply Hacc; [|done]. destruct Hx; by constructor.
Qed.
Lemma nonneg_leb_trans x y z : f32_nonneg x → f32_nonneg y → f32_nonneg z →
  SFleb x y = true → SFleb y z = true → SFleb x z = true.
Proof.
  intros Hx Hy Hz Hxy Hyz.
  destruct Hz as [| |mz ez Hbz]; [| by destruct Hx|].
  - assert (f32_fin y) as Hfy by (eapply leb_fin; [exact Hy|apply f32_zero_fin|exact Hyz]).
    assert (f32_fin x) as Hfx by (eapply leb_fin; [exact Hx|exact Hfy|exact Hxy]).
    apply f32_leb_units in Hxy, Hyz; [|done..]. apply f32_leb_units; [done..|]. lia.
  - assert (f32_fin (S754_finite false mz ez)) as Hfz by (by constructor).
    assert (f32_fin y) as Hfy by (eapply leb_fin; [exact Hy|exact Hfz|exact Hyz]).
    assert (f32_fin x) as Hfx by (eapply leb_fin; [exact Hx|exact Hfy|exact Hxy]).
    apply f32_leb_units in Hxy, Hyz; [|done..]. apply f32_leb_units; [done..|]. lia.
Qed.
Lemma nonneg_leb_refl x : f32_nonneg x → SFleb x x = true.
Proof. intros Hx. apply SFleb_refl. by destruct Hx. Qed.

(** ** Comparing numbers that are not negative, by a key *)

Definition f32_key (x : f32) : Z := match x with S754_infinity _ => 2 ^ 300 | _ => f32_units x end.
Lemma f32_units_small x : f32_fin x → f32_units x < 2 ^ 300.
Proof.
  intros [|m e Hb]; [done|]. apply bounded_spec in Hb as Hbe; [|done..]. pose proof (bounded_small 24 128 ltac:(done) m e Hb) as Hm.
  cbn [units]. destruct Hbe as [_ He]. pose proof (bounded_emin _ _ _ _ Hb) as Hem. change (emin 24 128) with (-149) in *.
  assert (2 ^ (e - -149) ≤ 2 ^ 253) as Hp by (apply Z.pow_le_mono_r; lia).
  apply Z.lt_le_trans with (2 ^ 24 * 2 ^ 253); [|by vm_compute].
  apply Z.lt_le_trans with (2 ^ 24 * 2 ^ (e - -149)); [apply Z.mul_lt_mono_pos_r; [apply Z.pow_pos_nonneg; lia|lia]|].
  by apply Z.mul_le_mono_nonneg_l.
Qed.
Lemma f32_compare_key x y : f32_nonneg x → f32_nonneg y → SFcompare x y = Some (Z.compare (f32_key x) (f32_key y)).
Proof.
  intros Hx Hy.
  assert (∀ z, f32_nonneg z → z = S754_infinity false ∨ f32_fin z ∧ f32_key z = f32_units z) as Hcase.
  { intros z []; [right; split; [by constructor|done]|by left|right; split; [by constructor|done]]. }
  destruct (Hcase x Hx) as [-> |[Hfx ->]], (Hcase y Hy) as [-> |[Hfy ->]].
  - done.
  - pose proof (f32_units_small y Hfy). cbn [f32_key]. rewrite (proj2 (Z.compare_gt_iff _ _)) by done. by destruct Hfy.
  - pose proof (f32_units_small x Hfx). cbn [f32_key]. rewrite (proj2 (Z.compare_lt_iff _ _)) by done. by destruct Hfx.
  - pose proof (f32_leb_units x y Hfx Hfy) as Hxy. pose proof (f32_leb_units y x Hfy Hfx) as Hyx.
    pose proof (SFcompare_flip x y) as Hflip. unfold SFleb in Hxy, Hyx. rewrite Hflip in Hyx.
    destruct (SFcompare x y) as [[]|] eqn:Hc; cbn in Hxy, Hyx.
    + rewrite (proj2 (Z.compare_eq_iff _ _)); [done|]. apply Z.le_antisymm; [by apply Hxy|by apply Hyx].
    + rewrite (proj2 (Z.compare_lt_iff _ _)); [done|]. apply Z.nle_gt. intros Hle. by apply Hyx in Hle.
    + rewrite (proj2 (Z.compare_gt_iff _ _)); [done|]. apply Z.nle_gt. intros Hle. by apply Hxy in Hle.
    + exfalso. destruct (Z.le_ge_cases (f32_units x) (f32_units y)) as [H|H]; [by apply Hxy in H|by apply Hyx in H].
Qed.
