(* ===== verification/Float64.v ===== *)
(** * Rust's [f64]

    IEEE 754 binary64, like [Float32]: conversion from a count, square root,
    [ceil], the saturating cast to [usize], and the casts between the two
    formats. *)

From Stdlib Require Export SpecFloat.
From S2P Require Import Prelude FloatFacts Float32.

#[local] Open Scope Z_scope.

Definition f64 : Type := spec_float.

Definition f64_of_int (z : Z) : f64 := binary_normalize 53 1024 z 0 false.
Definition f64_mul : f64 → f64 → f64 := SFmul 53 1024.
Definition f64_div : f64 → f64 → f64 := SFdiv 53 1024.
Definition f64_sqrt : f64 → f64 := SFsqrt 53 1024.
(** [x.ceil()]: whole numbers, infinities and NaN are left alone. *)
Definition f64_ceil (x : f64) : f64 :=
  match x with
  | S754_finite s m e =>
      if Z.leb 0 e then x
      else binary_normalize 53 1024
        (if s then - (Z.pos m / 2 ^ (- e)) else (Z.pos m + 2 ^ (- e) - 1) / 2 ^ (- e)) 0 s
  | _ => x
  end.
Definition usize_max : Z := 2 ^ 64 - 1.
(** [x as usize]: truncates, saturates, and takes NaN to zero. *)
Definition f64_as_usize (x : f64) : Z :=
  match x with
  | S754_nan | S754_zero _ => 0
  | S754_infinity s => if s then 0 else usize_max
  | S754_finite s m e =>
      if s then 0
      else Z.min (if Z.leb 0 e then Z.pos m * 2 ^ e else Z.pos m / 2 ^ (- e)) usize_max
  end.

(** [x as f64] and [x as f32]. *)
Definition convert (prec emax : Z) (x : spec_float) : spec_float :=
  match x with
  | S754_finite s m e => binary_normalize prec emax (if s then Z.neg m else Z.pos m) e s
  | x => x
  end.
Definition f32_as_f64 (x : f32) : f64 := convert 53 1024 x.
Definition f64_as_f32 (x : f64) : f32 := convert 24 128 x.
Abbreviation f64_fin := (fin 53 1024).
Abbreviation f64_units := (units 53 1024).
Abbreviation f64_unit1 := (unit1 53 1024).

Lemma f64_unit1_pos : 0 < f64_unit1.
Proof. by apply unit1_pos. Qed.
Lemma f64_of_int_exact z : 0 ≤ z < 2 ^ 53 → f64_fin (f64_of_int z) ∧ f64_units (f64_of_int z) = z * f64_unit1.
Proof. by apply int_spec. Qed.

(** The units of a whole number, and of a fraction. *)
Lemma f64_units_whole m e : 0 ≤ e → f64_units (S754_finite false m e) = Z.pos m * 2 ^ e * f64_unit1.
Proof. intros He. cbn [units]. unfold unit1. rewrite <-Z.mul_assoc, <-Z.pow_add_r by (done || lia). done. Qed.
Lemma f64_units_fraction m e : bounded 53 1024 m e = true → e < 0 →
  ∃ w, 0 < w ∧ f64_units (S754_finite false m e) = Z.pos m * w ∧ f64_unit1 = 2 ^ (- e) * w.
Proof.
  intros Hb He. pose proof (bounded_emin 53 1024 m e Hb) as Hmin. exists (2 ^ (e - emin 53 1024)).
  split_and!; [by apply pow_split|done|]. unfold unit1. rewrite <-Z.pow_add_r by lia. f_equal. lia.
Qed.

Lemma f64_as_usize_whole y k : f64_fin y → 0 ≤ k < 2 ^ 53 → f64_units y = k * f64_unit1 → f64_as_usize y = k.
Proof.
  pose proof f64_unit1_pos. intros Hy Hk Hu. destruct Hy as [|m e Hb]; [cbn in *; nia|].
  cbn [f64_as_usize]. destruct (Z.leb_spec 0 e) as [He|He].
  - rewrite f64_units_whole in Hu by done. apply Z.mul_reg_r in Hu; [|lia]. unfold usize_max. lia.
  - destruct (f64_units_fraction m e Hb He) as (w & Hw & Hm & Hone). rewrite Hm, Hone, Z.mul_assoc in Hu.
    apply Z.mul_reg_r in Hu; [|lia]. assert (0 < 2 ^ (- e)) by (apply Z.pow_pos_nonneg; lia).
    rewrite Hu, Z.div_mul by lia. unfold usize_max. lia.
Qed.
(** The least whole number that is not below. *)
Lemma f64_ceil_spec y k : f64_fin y → 0 ≤ k < 2 ^ 53 →
  (k - 1) * f64_unit1 < f64_units y ≤ k * f64_unit1 → f64_as_usize (f64_ceil y) = k.
Proof.
  pose proof f64_unit1_pos. intros Hy Hk [Hlo Hhi]. destruct Hy as [|m e Hb].
  { cbn [units] in *. cbn. nia. }
  cbn [f64_ceil]. destruct (Z.leb_spec 0 e) as [He|He].
  - apply f64_as_usize_whole; [by apply fin_finite|done|].
    rewrite f64_units_whole in * by done. f_equal.
    apply Z.mul_lt_mono_pos_r in Hlo; [|done]. apply Z.mul_le_mono_pos_r in Hhi; [|done]. lia.
  - destruct (f64_units_fraction m e Hb He) as (w & Hw & Hm & Hone). rewrite Hm, Hone, !Z.mul_assoc in *.
    apply Z.mul_lt_mono_pos_r in Hlo; [|done]. apply Z.mul_le_mono_pos_r in Hhi; [|done].
    set (W := 2 ^ (- e)) in *. assert (0 < W) by (apply Z.pow_pos_nonneg; lia).
    assert ((Z.pos m + W - 1) / W = k) as ->.
    { symmetry. apply (Z.div_unique _ _ _ (Z.pos m + W - 1 - W * k)); [|lia]. left. lia. }
    destruct (f64_of_int_exact k Hk) as [Hf Hu]. by apply f64_as_usize_whole.
Qed.

(** The square root of a count, rounded up. *)
Lemma f64_ceil_sqrt n k : 0 ≤ n < 2 ^ 50 → 0 ≤ k → n ≤ k * k → (0 < k → (k - 1) * (k - 1) < n) →
  f64_as_usize (f64_ceil (f64_sqrt (f64_of_int n))) = k.
Proof.
  intros Hn Hk Hhi Hlo. pose proof f64_unit1_pos as HU.
  assert (k ≤ 2 ^ 25) as Hk25.
  { destruct (Z.le_gt_cases k (2 ^ 25)) as [|Hgt]; [done|]. specialize (Hlo ltac:(lia)).
    assert (2 ^ 25 * 2 ^ 25 ≤ (k - 1) * (k - 1)) by (apply Z.square_le_mono_nonneg; lia). lia. }
  destruct (f64_of_int_exact n) as [Hx Hxu]; [lia|]. destruct (f64_of_int_exact k) as [Hb Hbu]; [lia|].
  destruct (sqrt_spec 53 1024 ltac:(done) ltac:(done) _ Hx) as (Hnn & Hge & Hle).
  assert (SFleb (f64_sqrt (f64_of_int n)) (f64_of_int k) = true) as H1.
  { apply Hle; [done|]. rewrite Hxu, Hbu. nia. }
  pose proof (leb_fin 53 1024 _ _ Hnn Hb H1) as Hy. apply (leb_units 53 1024) in H1; [|done..].
  apply f64_ceil_spec; [done|lia|]. split; [|lia].
  destruct (Z.eq_dec k 0) as [-> |Hk0].
  { pose proof (units_nonneg 53 1024 ltac:(done) (f64_sqrt (f64_of_int n))). lia. }
  (* just above [k - 1], and still below the root *)
  destruct (canonical_exists 53 1024 ltac:(done) ltac:(done) ((k - 1) * 2 ^ 26 + 1) (-26)) as (c & Hc & Hcu); [lia|done|].
  assert (f64_unit1 = 2 ^ 26 * 2 ^ (-26 - emin 53 1024)) as Hsplit by reflexivity.
  set (w := 2 ^ (-26 - emin 53 1024)) in *. assert (0 < w) by (by apply Z.pow_pos_nonneg).
  assert (f64_units c ≤ f64_units (f64_sqrt (f64_of_int n))); [|nia].
  apply (leb_units 53 1024); [done..|]. apply Hge; [done|]. rewrite Hxu, Hcu, Hsplit. specialize (Hlo ltac:(lia)).
  clearbody w. nia.
Qed.
