(* ===== verification/Gravity.v ===== *)
(** * The gravity of a node

    [oag-sync]: [gravity.rs]; [oag-storage]: [repo/node_gravity.rs].  A
    random number drawn once per peer and kept, and the small delay it causes
    before each address of a gossip round. *)

From S2P Require Import Prelude Core Envelope Store FloatFacts Float32 Float64.

#[local] Open Scope Z_scope.

(** [x as u64]: truncates, saturates, and takes NaN to zero. *)
Definition f32_as_u64 (x : f32) : Z := f64_as_usize x.

(** ** [repo/node_gravity.rs] *)

Record gravity_row := GravityRow { gv_gravity_level : f64; gv_generated_at : Z }.
Abbreviation node_gravity := (gmap hash32 gravity_row).
Abbreviation gtx := (stm node_gravity StorageError).

Definition gravity_get (peer : hash32) : gtx (option f32) :=
  gets (λ t, (λ r, f64_as_f32 (gv_gravity_level r)) <$> t !! peer).
Definition insert_if_missing (peer : hash32) (gravity_level : f32) (generated_at : Z) : gtx () :=
  modify (λ t, match t !! peer with
               | Some _ => t
               | None => <[peer := GravityRow (f32_as_f64 gravity_level) generated_at]> t
               end).

(** ** [gravity.rs] *)

Definition MAX_DELAY_MICROS : Z := 500.
(** [rolled] is what [OsRng.gen_range(0.0..1.0)] draws. *)
Definition get_or_generate (rolled : f32) (peer : hash32) (now : Z) : gtx f32 :=
  level ← gravity_get peer;
  match level with
  | Some level => mret level
  | None =>
      _ ← insert_if_missing peer rolled now;
      level ← gravity_get peer;
      mret (default rolled level)
  end.
Definition delay_for (gravity_level : f32) : Z :=
  f32_as_u64 (f32_mul (f32_clamp gravity_level f32_zero f32_one) (f32_of_int MAX_DELAY_MICROS)).

Example delay_half : delay_for (f32_lit 1 (-1)) = 250.
Proof. reflexivity. Qed.
Example delay_outside : delay_for (f32_of_int 5) = 500 ∧ delay_for (f32_sub f32_zero f32_one) = 0.
Proof. split; reflexivity. Qed.

(** ** What is drawn stays *)

Lemma get_or_generate_run rolled peer now t : ∃ level t',
  get_or_generate rolled peer now t = Ok (level, t') ∧
  (is_Some (t !! peer) → t' = t) ∧ (∀ p, p ≠ peer → t' !! p = t !! p) ∧
  ∀ rolled' now', get_or_generate rolled' peer now' t' = Ok (level, t').
Proof.
  unfold get_or_generate. destruct (t !! peer) as [r|] eqn:Hr.
  - exists (f64_as_f32 (gv_gravity_level r)), t.
    assert (∀ A (f : option f32 → gtx A), (gravity_get peer ≫= f) t = f (Some (f64_as_f32 (gv_gravity_level r))) t) as Hg.
    { intros A f. cbv [mbind stm_bind gravity_get gets]. by rewrite Hr. }
    split_and!; [by rewrite Hg|done|done|]. intros. by rewrite Hg.
  - set (t' := <[peer := GravityRow (f32_as_f64 rolled) now]> t).
    exists (f64_as_f32 (f32_as_f64 rolled)), t'.
    assert (∀ A (f : option f32 → gtx A), (gravity_get peer ≫= f) t' = f (Some (f64_as_f32 (f32_as_f64 rolled))) t') as Hg.
    { intros A f. cbv [mbind stm_bind gravity_get gets]. unfold t'. by rewrite lookup_insert_eq. }
    split_and!; [|by intros [? [=]]| |].
    + cbv [mbind stm_bind gravity_get gets insert_if_missing modify]. rewrite Hr. cbn [fmap option_fmap option_map].
      cbv beta. rewrite Hr. fold t'.
      assert (t' !! peer = Some (GravityRow (f32_as_f64 rolled) now)) as -> by apply lookup_insert_eq. done.
    + intros p Hp. unfold t'. by rewrite lookup_insert_ne.
    + intros. by rewrite Hg.
Qed.

(** ** The delay is small *)

Lemma as_u64_le y n : f32_fin y → 0 ≤ n < usize_max → f32_units y ≤ n * f32_units f32_one → 0 ≤ f32_as_u64 y ≤ n.
Proof.
  rewrite f32_one_units. pose proof (unit1_pos 24 128 ltac:(done) ltac:(done)) as HU.
  intros [|m e Hb] Hn Hu; [cbn; lia|]. unfold f32_as_u64, f64_as_usize. pose proof (bounded_emin 24 128 m e Hb) as He.
  destruct (Z.leb_spec 0 e) as [Hpos|Hneg].
  - assert (0 < 2 ^ e) by (by apply Z.pow_pos_nonneg).
    assert (f32_units (S754_finite false m e) = Z.pos m * 2 ^ e * unit1 24 128) as Hue.
    { cbn [units]. unfold unit1. rewrite <-Z.mul_assoc, <-Z.pow_add_r by (done || lia). done. }
    rewrite Hue, <-Z.mul_le_mono_pos_r in Hu by done. lia.
  - assert (0 < 2 ^ (- e)) by (apply Z.pow_pos_nonneg; lia).
    assert (0 < 2 ^ (e - emin 24 128)) by (by apply pow_split).
    assert (unit1 24 128 = 2 ^ (- e) * 2 ^ (e - emin 24 128)) as Hsplit.
    { unfold unit1. rewrite <-Z.pow_add_r by lia. f_equal. lia. }
    cbn [units] in Hu. rewrite Hsplit, Z.mul_assoc, <-Z.mul_le_mono_pos_r in Hu by done.
    assert (0 ≤ Z.pos m / 2 ^ (- e) ≤ n); [|lia]. split; [apply Z.div_pos; lia|].
    apply Z.div_le_upper_bound; [done|]. lia.
Qed.

(** Half a millisecond at most, for every level that can be stored. *)
Lemma delay_bounded level : valid 24 128 level → 0 ≤ delay_for level ≤ MAX_DELAY_MICROS.
Proof.
  intros Hv. unfold delay_for.
  assert (f32_nonneg level → 0 ≤ f32_as_u64 (f32_mul (f32_clamp level f32_zero f32_one)
    (f32_of_int MAX_DELAY_MICROS)) ≤ MAX_DELAY_MICROS) as Hnn.
  { intros Hn. destruct (f32_clamp_unit level Hn) as [Hf Hle].
    destruct (f32_of_int_exact MAX_DELAY_MICROS) as [H5 H5u]; [done|].
    destruct (mul_spec 24 128 ltac:(done) ltac:(done) _ _ Hf H5) as (Hm & _ & Hmle).
    assert (SFleb (f32_mul (f32_clamp level f32_zero f32_one) (f32_of_int MAX_DELAY_MICROS))
      (f32_of_int MAX_DELAY_MICROS) = true) as Hb.
    { apply Hmle; [done|]. rewrite (Z.mul_comm (f32_units (f32_of_int _))), <-f32_one_units.
      apply Z.mul_le_mono_nonneg_r; [|done]. by apply units_nonneg. }
    assert (f32_fin (f32_mul (f32_clamp level f32_zero f32_one) (f32_of_int MAX_DELAY_MICROS))) as Hfm
      by (by eapply leb_fin).
    apply as_u64_le; [done|done|]. rewrite <-H5u. by apply f32_leb_units. }
  destruct level as [s|s| |s m e]; [destruct s|destruct s| |destruct s]; try done; apply Hnn; by constructor.
Qed.
