(* ===== verification/Trust.v ===== *)
(** * Trust in ephemeral peers

    [oag-sync]: [trust.rs], and [federation.rs].  A peer's trust is computed
    from what this peer has observed of it: its presence row, the fork flag,
    and announcements of going offline at its addresses. *)

From S2P Require Import Prelude Core Envelope Store FloatFacts Float32.

#[local] Open Scope Z_scope.

Definition STALE_MULTIPLIER : Z := 3.
(** [0.3_f32], the binary32 number nearest to three tenths. *)
Definition ANNOUNCED_RESTART_STARTING_TRUST : f32 := f32_lit 10066330 (-25).
Definition EPHEMERAL_MINIMUM_TRUST : f32 := f32_min_positive.

Record TrustConfig := {
  heartbeat_interval_seconds : Z;
  trust_rebuild_seconds : Z;
  announced_restart_grace_seconds : Z }.
Definition TrustConfig_default : TrustConfig := {|
  heartbeat_interval_seconds := 30;
  trust_rebuild_seconds := 3600;
  announced_restart_grace_seconds := 300 |}.

(** Differences and products of [i64]s are those of a release build. *)
Definition rebuild_fraction (session_started as_of : Z) (cfg : TrustConfig)
    (announced_restart : bool) : f32 :=
  let continuous_seconds := f32_of_int (Z.max (wrap_i64 (as_of - session_started)) 0) in
  let starting_point := if announced_restart then ANNOUNCED_RESTART_STARTING_TRUST else f32_zero in
  let rebuilt := f32_clamp (f32_div continuous_seconds (f32_of_int (trust_rebuild_seconds cfg)))
                   f32_zero f32_one in
  f32_add starting_point (f32_mul rebuilt (f32_sub f32_one starting_point)).

Definition trust_score (presence : option presence_row) (forked announced_restart : bool)
    (now : Z) (cfg : TrustConfig) : f32 :=
  if forked then f32_zero else
  match presence with
  | None => f32_zero
  | Some p =>
      let silence := wrap_i64 (now - pr_last_heartbeat_at p) in
      let stale_after := wrap_i64 (heartbeat_interval_seconds cfg * STALE_MULTIPLIER) in
      if Z.leb silence stale_after then
        f32_clamp (rebuild_fraction (pr_session_started_at p) now cfg announced_restart)
          f32_zero f32_one
      else
        let trust_at_silence :=
          rebuild_fraction (pr_session_started_at p) (pr_last_heartbeat_at p) cfg announced_restart in
        let decay_elapsed := f32_of_int (wrap_i64 (silence - stale_after)) in
        let decay := f32_clamp (f32_div decay_elapsed (f32_of_int (trust_rebuild_seconds cfg)))
                       f32_zero f32_one in
        f32_clamp (f32_mul trust_at_silence (f32_sub f32_one decay)) f32_zero f32_one
  end.

(** Some address of the peer announced going offline, recently enough and
    before this session began. *)
Fixpoint announced_restart (addresses : list string) (p : presence_row) (now : Z)
    (cfg : TrustConfig) : tx bool :=
  match addresses with
  | [] => mret false
  | a :: rest =>
      row ← get_address_going_offline a;
      match row with
      | Some r =>
          if Z.leb (wrap_i64 (now - of_announced_at r)) (announced_restart_grace_seconds cfg) &&
             Z.leb (of_announced_at r) (pr_session_started_at p)
          then mret true else announced_restart rest p now cfg
      | None => announced_restart rest p now cfg
      end
  end.

Definition compute_trust (peer : hash32) (now : Z) (cfg : TrustConfig) : tx f32 :=
  info ← get_peer peer;
  let forked := from_option pe_forked false info in
  presence ← presence_get peer;
  restart ← match presence with
            | Some p => addresses ← list_addresses peer; announced_restart addresses p now cfg
            | None => mret false
            end;
  mret (trust_score presence forked restart now cfg).

(** ** [federation.rs] *)

Inductive FederationPolicy :=
  | Open
  | Allowlist (peers : gset hash32).
Definition allows (policy : FederationPolicy) (peer : hash32) : bool :=
  match policy with Open => true | Allowlist set => bool_decide (peer ∈ set) end.

(** Looking at trust changes nothing. *)
Lemma announced_restart_pure addresses p now cfg d :
  ∃ b, announced_restart addresses p now cfg d = Ok (b, d).
Proof.
  induction addresses as [|a rest IH]; cbn; [by eexists|].
  cbv [mbind stm_bind get_address_going_offline gets].
  destruct (address_going_offline (net d) !! a); [|done].
  destruct (_ && _); [by eexists|done].
Qed.
Lemma compute_trust_pure peer now cfg d : ∃ x, compute_trust peer now cfg d = Ok (x, d).
Proof.
  unfold compute_trust. cbv [mbind stm_bind get_peer presence_get gets].
  destruct (peer_presence (net d) !! peer) as [p|]; [|by eexists].
  cbv [list_addresses gets].
  destruct (announced_restart_pure (elements (filter (λ a : hash32 * string, a.1 = peer)
    (peer_addresses (net d)))).*2 p now cfg d) as [b ->]. by eexists.
Qed.

(** It looks at the peer tables only. *)
Lemma announced_restart_net addresses p now cfg d d' : net d' = net d →
  announced_restart addresses p now cfg d' = (λ r, (r.1, d')) <$> announced_restart addresses p now cfg d.
Proof.
  intros Hn. induction addresses as [|a rest IH]; cbn; [done|].
  cbv [mbind stm_bind get_address_going_offline gets]. rewrite Hn.
  destruct (address_going_offline (net d) !! a); [|done].
  destruct (_ && _); [done|exact IH].
Qed.
Lemma compute_trust_net peer now cfg d d' : net d' = net d →
  compute_trust peer now cfg d' = (λ r, (r.1, d')) <$> compute_trust peer now cfg d.
Proof.
  intros Hn. unfold compute_trust. cbv [mbind stm_bind get_peer presence_get gets]. rewrite Hn.
  destruct (peer_presence (net d) !! peer) as [p|]; [|done].
  cbv [list_addresses gets]. rewrite Hn.
  rewrite (announced_restart_net _ p now cfg d d') by done. by destruct (announced_restart _ p now cfg d) as [[]|].
Qed.

(** ** Scores are between zero and one *)

Definition starting_trust (restart : bool) : f32 :=
  if restart then ANNOUNCED_RESTART_STARTING_TRUST else f32_zero.
Lemma starting_trust_spec restart : f32_unit (starting_trust restart) ∧
  f32_units (starting_trust restart) + f32_units (f32_sub f32_one (starting_trust restart)) = f32_units f32_one.
Proof. destruct restart; (split; [split; [by apply fin_finite || apply fin_zero|]|]); by vm_compute. Qed.

Section score.
Context (cfg : TrustConfig) (Hrebuild : 0 < trust_rebuild_seconds cfg < 2 ^ 24).
Context (Hstale : 0 ≤ heartbeat_interval_seconds cfg * STALE_MULTIPLIER < 2 ^ 63).
Abbreviation stale_after := (heartbeat_interval_seconds cfg * STALE_MULTIPLIER).

(** A duration as a part of the rebuild window. *)
Definition part (seconds : Z) : f32 :=
  f32_clamp (f32_div (f32_of_int seconds) (f32_of_int (trust_rebuild_seconds cfg))) f32_zero f32_one.
Lemma part_unit seconds : 0 ≤ seconds < 2 ^ 64 → f32_unit (part seconds).
Proof.
  intros Hs. destruct (f32_of_int_fin seconds Hs) as [Hx _].
  destruct (f32_of_int_fin (trust_rebuild_seconds cfg)) as [Hy Hpos]; [lia|].
  apply f32_clamp_unit, div_spec; [done..|]. specialize (Hpos ltac:(lia)).
  by apply Z.lt_le_trans with (2 := Hpos).
Qed.
Lemma part_full seconds : trust_rebuild_seconds cfg ≤ seconds < 2 ^ 64 → f32_units (part seconds) = f32_units f32_one.
Proof.
  intros Hs. destruct (f32_of_int_fin seconds) as [Hx _]; [lia|].
  destruct (f32_of_int_fin (trust_rebuild_seconds cfg)) as [Hy Hpos]; [lia|]. specialize (Hpos ltac:(lia)).
  destruct (div_spec 24 128 ltac:(done) ltac:(done) _ _ Hx Hy) as (Hn & Hge & _).
  { by apply Z.lt_le_trans with (2 := Hpos). }
  specialize (Hge f32_one f32_one_fin). rewrite f32_one_units, (Z.mul_comm (f32_units (f32_of_int seconds))) in Hge.
  apply f32_clamp_full; [done|].
  apply Hge, Z.mul_le_mono_nonneg_l; [apply Z.lt_le_incl; by apply unit1_pos|]. apply f32_of_int_mono; lia.
Qed.

Lemma rebuild_fraction_unit session_started as_of restart : f32_unit (rebuild_fraction session_started as_of cfg restart).
Proof.
  unfold rebuild_fraction. fold (starting_trust restart).
  destruct (starting_trust_spec restart) as [Hs Hsum].
  pose proof (wrap_i64_range (as_of - session_started)) as [? ?].
  fold (part (Z.max (wrap_i64 (as_of - session_started)) 0)).
  pose proof (part_unit (Z.max (wrap_i64 (as_of - session_started)) 0) ltac:(lia)) as Hp.
  set (r := part _) in *. pose proof (f32_sub_unit _ Hs) as Hd. set (d := f32_sub f32_one _) in *.
  pose proof (f32_mul_unit r d Hp Hd) as Hm.
  destruct (mul_spec 24 128 ltac:(done) ltac:(done) r d (proj1 Hp) (proj1 Hd)) as (_ & _ & Hmd).
  assert (f32_units (f32_mul r d) ≤ f32_units d) as Hle.
  { apply f32_leb_units; [apply Hm|apply Hd|]. apply Hmd; [apply Hd|]. rewrite Z.mul_comm, <-f32_one_units.
    apply Z.mul_le_mono_nonneg_l; [by apply units_nonneg|apply Hp]. }
  destruct (add_spec 24 128 ltac:(done) ltac:(done) _ _ (proj1 Hs) (proj1 Hm)) as (Hn & _ & Ha).
  apply f32_unit_intro; [done|]. apply Ha; [done|]. lia.
Qed.
(** At least the starting trust, and all of it after the rebuild window. *)
Lemma rebuild_fraction_ge session_started as_of restart :
  f32_units (starting_trust restart) ≤ f32_units (rebuild_fraction session_started as_of cfg restart) ∧
  (trust_rebuild_seconds cfg ≤ wrap_i64 (as_of - session_started) →
   f32_units (rebuild_fraction session_started as_of cfg restart) = f32_units f32_one).
Proof.
  pose proof (rebuild_fraction_unit session_started as_of restart) as Hu. revert Hu.
  unfold rebuild_fraction. fold (starting_trust restart).
  destruct (starting_trust_spec restart) as [Hs Hsum].
  pose proof (wrap_i64_range (as_of - session_started)) as [? ?].
  fold (part (Z.max (wrap_i64 (as_of - session_started)) 0)).
  pose proof (part_unit (Z.max (wrap_i64 (as_of - session_started)) 0) ltac:(lia)) as Hp.
  pose proof (part_full (Z.max (wrap_i64 (as_of - session_started)) 0)) as Hfull.
  set (r := part _) in *. pose proof (f32_sub_unit _ Hs) as Hd. set (d := f32_sub f32_one _) in *.
  pose proof (f32_mul_unit r d Hp Hd) as Hm.
  destruct (mul_spec 24 128 ltac:(done) ltac:(done) r d (proj1 Hp) (proj1 Hd)) as (_ & Hmd & _).
  destruct (add_spec 24 128 ltac:(done) ltac:(done) _ _ (proj1 Hs) (proj1 Hm)) as (Hn & Ha & _).
  intros Hu. split.
  - apply f32_leb_units; [apply Hs|apply Hu|]. apply Ha; [apply Hs|].
    pose proof (units_nonneg 24 128 ltac:(done) (f32_mul r d)). lia.
  - intros Hw. specialize (Hfull ltac:(lia)). apply Z.le_antisymm; [apply Hu|].
    apply f32_leb_units; [done|apply Hu|]. apply Ha; [done|].
    assert (f32_units d ≤ f32_units (f32_mul r d)); [|lia].
    apply f32_leb_units; [apply Hd|apply Hm|]. apply Hmd; [apply Hd|]. rewrite Hfull, f32_one_units. lia.
Qed.
Lemma stale_after_spec : wrap_i64 stale_after = stale_after.
Proof. apply wrap_i64_small. unfold is_i64. lia. Qed.
(** Trust fades with the silence past the window. *)
Definition faded (p : presence_row) (now : Z) (restart : bool) : f32 :=
  f32_mul (rebuild_fraction (pr_session_started_at p) (pr_last_heartbeat_at p) cfg restart)
    (f32_sub f32_one (part (wrap_i64 (now - pr_last_heartbeat_at p) - stale_after))).
Lemma trust_score_eq p restart now :
  trust_score (Some p) false restart now cfg =
  if Z.leb (wrap_i64 (now - pr_last_heartbeat_at p)) stale_after
  then rebuild_fraction (pr_session_started_at p) now cfg restart
  else faded p now restart.
Proof.
  unfold trust_score. rewrite stale_after_spec. pose proof (wrap_i64_range (now - pr_last_heartbeat_at p)) as [? ?].
  destruct (Z.leb_spec (wrap_i64 (now - pr_last_heartbeat_at p)) stale_after).
  - apply f32_clamp_id, rebuild_fraction_unit.
  - rewrite wrap_i64_small by (unfold is_i64; lia). apply f32_clamp_id.
    apply f32_mul_unit; [apply rebuild_fraction_unit|apply f32_sub_unit, part_unit]. lia.
Qed.
Lemma trust_score_unit presence forked restart now : f32_unit (trust_score presence forked restart now cfg).
Proof.
  destruct forked; [apply f32_unit_zero|]. destruct presence as [p|]; [|apply f32_unit_zero].
  rewrite trust_score_eq. pose proof (wrap_i64_range (now - pr_last_heartbeat_at p)) as [? ?].
  destruct (Z.leb_spec (wrap_i64 (now - pr_last_heartbeat_at p)) stale_after); [apply rebuild_fraction_unit|].
  apply f32_mul_unit; [apply rebuild_fraction_unit|apply f32_sub_unit, part_unit]. lia.
Qed.
Lemma faded_away p restart now : stale_after + trust_rebuild_seconds cfg ≤ wrap_i64 (now - pr_last_heartbeat_at p) →
  f32_units (faded p now restart) = 0.
Proof.
  intros Hlong. pose proof (wrap_i64_range (now - pr_last_heartbeat_at p)) as [? ?].
  unfold faded. set (s := wrap_i64 (now - pr_last_heartbeat_at p) - stale_after).
  pose proof (part_unit s ltac:(lia)) as Hp. pose proof (part_full s ltac:(lia)) as Hfull.
  pose proof (rebuild_fraction_unit (pr_session_started_at p) (pr_last_heartbeat_at p) restart) as Hr.
  set (r := rebuild_fraction _ _ _ _) in *. pose proof (f32_sub_unit _ Hp) as Hd.
  destruct (sub_spec 24 128 ltac:(done) ltac:(done) f32_one (part s) f32_one_fin (proj1 Hp) (proj2 Hp)) as (_ & _ & Hs).
  assert (f32_units (f32_sub f32_one (part s)) ≤ f32_units f32_zero) as Hd0.
  { apply f32_leb_units; [apply Hd|done|]. apply Hs; [done|]. rewrite Hfull. change (f32_units f32_zero) with 0. lia. }
  pose proof (f32_mul_unit r _ Hr Hd) as Hm.
  destruct (mul_spec 24 128 ltac:(done) ltac:(done) r _ (proj1 Hr) (proj1 Hd)) as (_ & _ & Hmd).
  apply Z.le_antisymm; [|by apply units_nonneg]. change (f32_units (f32_mul r (f32_sub f32_one (part s))) ≤ f32_units f32_zero).
  apply f32_leb_units; [apply Hm|done|]. apply Hmd; [done|]. change (f32_units f32_zero) with 0 in *.
  rewrite Z.mul_0_l. apply Z.mul_nonneg_nonpos; [by apply units_nonneg|done].
Qed.
End score.

(** ** Properties *)

(** Forks and strangers get exactly zero; every other score is a number
    between zero and one (or not a number at all, which passes no threshold).
    With the default windows a peer whose first heartbeat is dated like its
    session scores exactly zero at that time, so it does not reach
    [EPHEMERAL_MINIMUM_TRUST], although it has been heard from and is not
    forked. *)
Theorem trust_score_range presence forked restart now cfg :
  let score := trust_score presence forked restart now cfg in
  (forked = true ∨ presence = None → score = f32_zero) ∧
  (f32_is_nan score = true ∨ (SFleb f32_zero score = true ∧ SFleb score f32_one = true)) ∧
  (∀ t status, trust_score (Some (PresenceRow t t status)) false false t TrustConfig_default = f32_zero) ∧
  SFleb EPHEMERAL_MINIMUM_TRUST f32_zero = false ∧
  SFleb EPHEMERAL_MINIMUM_TRUST S754_nan = false.
Proof.
  split_and!; [| | |done|done].
  - unfold trust_score. intros [-> | ->]; [done|by destruct forked].
  - unfold trust_score. destruct forked; [by right|]. destruct presence as [p|]; [|by right].
    destruct (Z.leb _ _); by apply f32_clamp_range.
  - intros t status. unfold trust_score, rebuild_fraction.
    cbn [pr_session_started_at pr_last_heartbeat_at]. rewrite Z.sub_diag. reflexivity.
Qed.

(** C32: A peer's trust is a number between zero and one, whatever it has
    done.  It is zero for a stranger and for a peer that forked its log.
    While the peer is heard from, it is one as soon as the session has lasted
    the rebuild window, and after an announced restart never less than the
    starting trust.  Once the peer has been silent for the staleness window
    and the rebuild window together, nothing is left of it. *)
Theorem trust_follows_presence presence forked restart now cfg :
  0 < trust_rebuild_seconds cfg < 2 ^ 24 →
  0 ≤ heartbeat_interval_seconds cfg * STALE_MULTIPLIER < 2 ^ 63 →
  let score := trust_score presence forked restart now cfg in
  SFleb f32_zero score = true ∧ SFleb score f32_one = true ∧
  (forked = true ∨ presence = None → score = f32_zero) ∧
  ∀ p, presence = Some p → forked = false →
    let silence := wrap_i64 (now - pr_last_heartbeat_at p) in
    let stale_after := heartbeat_interval_seconds cfg * STALE_MULTIPLIER in
    let session := wrap_i64 (now - pr_session_started_at p) in
    (silence ≤ stale_after → trust_rebuild_seconds cfg ≤ session → SFleb f32_one score = true) ∧
    (silence ≤ stale_after → restart = true → SFleb ANNOUNCED_RESTART_STARTING_TRUST score = true) ∧
    (stale_after + trust_rebuild_seconds cfg ≤ silence → SFleb score f32_zero = true).
Proof.
  intros Hr Hst score. pose proof (trust_score_unit cfg Hr Hst presence forked restart now) as Hu.
  split_and!; [apply (f32_unit_bounds _ Hu)..| |].
  - unfold score, trust_score. intros [-> | ->]; [done|by destruct forked].
  - intros p -> ->. cbv zeta. unfold score in *. rewrite (trust_score_eq cfg Hr Hst) in *.
    destruct (rebuild_fraction_ge cfg Hr (pr_session_started_at p) now restart) as [Hge Hfull].
    destruct (Z.leb_spec (wrap_i64 (now - pr_last_heartbeat_at p)) (heartbeat_interval_seconds cfg * STALE_MULTIPLIER)).
    + split_and!; [intros _ Hs|intros _ ->|lia]; apply f32_leb_units; try apply Hu; try done.
      * by rewrite Hfull.
      * by apply fin_finite.
    + split_and!; [lia|lia|]. intros Hlong. apply f32_leb_units; [apply Hu|done|].
      by rewrite (faded_away cfg Hr Hst).
Qed.
Lemma trust_follows_presence_witness :
  let p := PresenceRow 0 4000 "online" in
  SFleb f32_one (trust_score (Some p) false false 4010 TrustConfig_default) = true ∧
  SFleb (trust_score (Some p) false true 8000 TrustConfig_default) f32_zero = true.
Proof.
  cbv zeta. set (p := PresenceRow _ _ _).
  assert (0 < trust_rebuild_seconds TrustConfig_default < 2 ^ 24) as Hr by done.
  assert (0 ≤ heartbeat_interval_seconds TrustConfig_default * STALE_MULTIPLIER < 2 ^ 63) as Hst by done.
  split.
  - destruct (trust_follows_presence (Some p) false false 4010 TrustConfig_default Hr Hst) as (_ & _ & _ & H).
    destruct (H p eq_refl eq_refl) as (Hfull & _ & _). by apply Hfull; clear.
  - destruct (trust_follows_presence (Some p) false true 8000 TrustConfig_default Hr Hst) as (_ & _ & _ & H).
    destruct (H p eq_refl eq_refl) as (_ & _ & Hgone). by apply Hgone; clear.
Defined.
