(* ===== verification/Bytes.v ===== *)
(** * Byte strings

    Rust's big-endian [u32]s and slices, and the few functions on [str] that
    more than one component uses (prefixes, lines, decimal numbers), on
    [string]. *)

From S2P Require Import Prelude.

(** ** [u32::to_be_bytes], [u32::from_be_bytes] *)

Definition byte_of (z : Z) : ascii := ascii_of_N (Z.to_N (z `mod` 256)).
Definition of_byte (a : ascii) : Z := Z.of_N (N_of_ascii a).

Definition to_be_bytes (n : Z) : string :=
  String (byte_of (Z.shiftr n 24)) (String (byte_of (Z.shiftr n 16))
    (String (byte_of (Z.shiftr n 8)) (String (byte_of n) ""))).
Definition from_be_bytes (s : string) : Z :=
  match s with
  | String a (String b (String c (String d _))) =>
      Z.lor (Z.shiftl (of_byte a) 24) (Z.lor (Z.shiftl (of_byte b) 16)
        (Z.lor (Z.shiftl (of_byte c) 8) (of_byte d)))
  | _ => 0
  end.

(** ** Slices *)

Fixpoint str_take (n : nat) (s : string) : string :=
  match n, s with S n, String a s => String a (str_take n s) | _, _ => "" end.
Fixpoint str_drop (n : nat) (s : string) : string :=
  match n, s with S n, String _ s => str_drop n s | _, _ => s end.

(** ** Lemmas *)

Lemma str_take_length n s : String.length (str_take n s) = Nat.min n (String.length s).
Proof. revert s. induction n as [|n IH]; intros [|a s]; cbn; [done..|]. by rewrite IH. Qed.
Lemma str_drop_length n s : String.length (str_drop n s) = String.length s - n.
Proof. revert s. induction n as [|n IH]; intros [|a s]; cbn; done. Qed.
Lemma str_take_drop n s : str_take n s +:+ str_drop n s = s.
Proof.
  revert s. induction n as [|n IH]; intros [|a s]; cbn; [done..|]. by rewrite string_app_cons, IH.
Qed.
Lemma str_take_app n s t : n = String.length s → str_take n (s +:+ t) = s.
Proof. intros ->. induction s as [|a s IH]; [by destruct t|]. rewrite string_app_cons. cbn. by rewrite IH. Qed.
Lemma str_drop_app n s t : n = String.length s → str_drop n (s +:+ t) = t.
Proof. intros ->. induction s as [|a s IH]; [by destruct t|]. rewrite string_app_cons. done. Qed.
Lemma str_take_app_le n s t : n ≤ String.length s → str_take n (s +:+ t) = str_take n s.
Proof.
  revert s. induction n as [|n IH]; intros [|a s]; cbn; intros; [by destruct t|done|lia|].
  rewrite string_app_cons. cbn. by rewrite IH by lia.
Qed.

Lemma of_byte_of z : of_byte (byte_of z) = (z `mod` 256)%Z.
Proof.
  unfold of_byte, byte_of. rewrite N_ascii_embedding; [by rewrite Z2N.id by (apply Z.mod_pos_bound; lia)|].
  pose proof (Z.mod_pos_bound z 256 ltac:(lia)). lia.
Qed.

(** A bit of one byte of [n]. *)
Lemma byte_bit n k j :
  (0 ≤ k)%Z →
  Z.testbit (Z.shiftr n k `mod` 2 ^ 8) j = (0 <=? j)%Z && (j <? 8)%Z && Z.testbit n (j + k).
Proof.
  intros Hk. destruct (Z.leb_spec 0 j) as [Hj|Hj]; cbn [andb]; [|by rewrite Z.testbit_neg_r].
  rewrite Z.testbit_mod_pow2 by lia. by rewrite Z.shiftr_spec.
Qed.

Lemma from_to_be_bytes n s : (0 ≤ n < 2 ^ 32)%Z → from_be_bytes (to_be_bytes n +:+ s) = n.
Proof.
  intros Hn. unfold to_be_bytes. rewrite !string_app_cons. cbn [from_be_bytes].
  rewrite !of_byte_of. change 256%Z with (2 ^ 8)%Z. replace n with (Z.shiftr n 0) at 4 by apply Z.shiftr_0_r.
  apply Z.bits_inj'. intros i Hi. rewrite !Z.lor_spec, !Z.shiftl_spec, !byte_bit by lia.
  replace (i - 24 + 24)%Z with i by lia. replace (i - 16 + 16)%Z with i by lia.
  replace (i - 8 + 8)%Z with i by lia. rewrite Z.add_0_r.
  assert (32 ≤ i → Z.testbit n i = false)%Z as Hhi.
  { intros Hj. rewrite <-(Z.mod_small n (2 ^ 32)) by lia. rewrite Z.mod_pow2_bits_high by lia. done. }
  destruct (Z.testbit n i); [|by rewrite !andb_false_r].
  assert (i < 32)%Z by (destruct (decide (i < 32)%Z); [done|]; specialize (Hhi ltac:(lia)); done).
  rewrite !andb_true_r. lia.
Qed.

Lemma from_to_be_bytes_alone n : (0 ≤ n < 2 ^ 32)%Z → from_be_bytes (to_be_bytes n) = n.
Proof. intros Hn. rewrite <-(string_app_nil_r (to_be_bytes n)). by apply from_to_be_bytes. Qed.

Lemma of_byte_high x j : (8 ≤ j)%Z → Z.testbit (of_byte x) j = false.
Proof.
  intros Hj. assert (0 ≤ of_byte x < 2 ^ 8)%Z.
  { unfold of_byte. pose proof (N_ascii_bounded x). lia. }
  rewrite <-(Z.mod_small (of_byte x) (2 ^ 8)) by done. by apply Z.mod_pow2_bits_high.
Qed.
(** Drop the bits of bytes that are read outside them. *)
Ltac byte_bits := repeat match goal with
  | |- context [Z.testbit (of_byte ?x) ?j] =>
      first [ rewrite (Z.testbit_neg_r (of_byte x) j) by lia | rewrite (of_byte_high x j) by lia ]
  end.

Lemma to_from_be_bytes s : String.length s = 4 → to_be_bytes (from_be_bytes s) = s.
Proof.
  destruct s as [|a [|b [|c [|d [|? ?]]]]]; try done. intros _. unfold to_be_bytes. cbn [from_be_bytes].
  assert (∀ x z, (z `mod` 2 ^ 8 = of_byte x)%Z → byte_of z = x) as Hof.
  { intros x z Hz. unfold byte_of. change 256%Z with (2 ^ 8)%Z. rewrite Hz.
    unfold of_byte. by rewrite N2Z.id, ascii_N_embedding. }
  rewrite <-(Z.shiftr_0_r (Z.lor _ _)) at 4.
  repeat f_equal; apply Hof; apply Z.bits_inj'; intros i Hi; rewrite byte_bit by lia;
    rewrite !Z.lor_spec, !Z.shiftl_spec by lia.
  all: destruct (Z.ltb_spec i 8) as [Hi8|Hi8]; [|by rewrite andb_false_r, (of_byte_high _ i) by lia].
  all: rewrite (proj2 (Z.leb_le 0 i) Hi); cbn [andb]; byte_bits.
  all: rewrite ?orb_false_r, ?orb_false_l; f_equal; lia.
Qed.

Lemma from_be_bytes_range s : (0 ≤ from_be_bytes s < 2 ^ 32)%Z.
Proof.
  enough (from_be_bytes s `mod` 2 ^ 32 = from_be_bytes s)%Z as <- by (apply Z.mod_pos_bound; lia).
  destruct s as [|a [|b [|c [|d r]]]]; cbn [from_be_bytes]; try done.
  apply Z.bits_inj'. intros i Hi. rewrite Z.testbit_mod_pow2 by lia.
  destruct (Z.ltb_spec i 32); [done|]. cbn [andb].
  rewrite !Z.lor_spec, !Z.shiftl_spec by lia. by byte_bits.
Qed.

(** ** Searching and splitting text: [str::starts_with], [contains], [split],
    [lines] and [parse::<u64>] *)

Fixpoint starts_with (p s : string) : bool :=
  match p, s with
  | "", _ => true
  | String a p, String b s => bool_decide (a = b) && starts_with p s
  | _, "" => false
  end.
Fixpoint contains (p s : string) : bool :=
  starts_with p s || match s with "" => false | String _ s => contains p s end.
Fixpoint split_on (sep : ascii) (s cur : string) : list string :=
  match s with
  | "" => [cur]
  | String a s => if bool_decide (a = sep) then cur :: split_on sep s ""
                  else split_on sep s (cur +:+ String a "")
  end.
(** [str::lines]: no line after a final line feed; a carriage return before a
    line feed is dropped. *)
Definition strip_cr (s : string) : string :=
  match String.rev s with
  | String "013" r => String.rev r
  | _ => s
  end.
Definition lines (s : string) : list string :=
  match rev (split_on "010" s "") with
  | "" :: ls => strip_cr <$> rev ls
  | last :: ls => (strip_cr <$> rev ls) ++ [last]
  | [] => []
  end.
Fixpoint digits (s : string) (acc : Z) : option Z :=
  match s with
  | "" => Some acc
  | String a s =>
      let d := (Z.of_N (N_of_ascii a) - 48)%Z in
      if Z.leb 0 d && Z.leb d 9 then
        let acc := (acc * 10 + d)%Z in if Z.ltb acc (2 ^ 64) then digits s acc else None
      else None
  end.
Definition parse_u64 (s : string) : option Z :=
  let s := match s with String "+" (String _ _ as rest) => rest | _ => s end in
  match s with "" => None | _ => digits s 0 end.

