(* ===== verification/FloatBits.v ===== *)
(** * The bits of a binary32

    [f32::to_bits], [from_bits], the little-endian bytes in which vectors are
    stored ([repo/node_embeddings.rs], [repo/tensor_pads.rs]), and the order
    of [f32::total_cmp].  There is one NaN here, the positive quiet one; its
    sign and payload are not modelled. *)

From Stdlib Require Import SpecFloat.
From S2P Require Import Prelude FloatFacts Float32 Bytes.

#[local] Open Scope Z_scope.

Definition sign_bit (s : bool) : Z := if s then 2 ^ 31 else 0.
Definition f32_to_bits (x : f32) : Z :=
  match x with
  | S754_zero s => sign_bit s
  | S754_infinity s => sign_bit s + 255 * 2 ^ 23
  | S754_nan => 255 * 2 ^ 23 + 2 ^ 22
  | S754_finite s m e =>
      if Z.pos m <? 2 ^ 23 then sign_bit s + Z.pos m
      else sign_bit s + (e + 150) * 2 ^ 23 + (Z.pos m - 2 ^ 23)
  end.
Definition f32_from_bits (b : Z) : f32 :=
  let s := 2 ^ 31 <=? b in
  let exponent := (b / 2 ^ 23) mod 2 ^ 8 in
  let fraction := b mod 2 ^ 23 in
  if exponent =? 255 then (if fraction =? 0 then S754_infinity s else S754_nan)
  else
    match (if exponent =? 0 then fraction else fraction + 2 ^ 23) with
    | Zpos m => S754_finite s m (if exponent =? 0 then -149 else exponent - 150)
    | _ => S754_zero s
    end.

(** [to_le_bytes], [from_le_bytes]. *)
Definition f32_to_le_bytes (x : f32) : string :=
  let n := f32_to_bits x in
  String (byte_of n) (String (byte_of (Z.shiftr n 8))
    (String (byte_of (Z.shiftr n 16)) (String (byte_of (Z.shiftr n 24)) ""))).
Definition f32_from_le_bytes (a b c d : ascii) : f32 :=
  f32_from_bits (from_be_bytes (String d (String c (String b (String a ""))))).

(** [encode_embedding], [decode_embedding]: [as_chunks] leaves a remainder out. *)
Fixpoint encode_values (values : list f32) : string :=
  match values with [] => "" | x :: rest => f32_to_le_bytes x +:+ encode_values rest end.
Fixpoint decode_values (bytes : string) : list f32 :=
  match bytes with
  | String a (String b (String c (String d rest))) => f32_from_le_bytes a b c d :: decode_values rest
  | _ => []
  end.

(** [f32::total_cmp]. *)
Definition as_i32 (b : Z) : Z := if 2 ^ 31 <=? b then b - 2 ^ 32 else b.
Definition total_key (x : f32) : Z :=
  let left := as_i32 (f32_to_bits x) in
  if left <? 0 then Z.lxor left (2 ^ 31 - 1) else left.
Definition total_cmp (x y : f32) : comparison := Z.compare (total_key x) (total_key y).

(** ** Round trips *)

Abbreviation f32_valid := (valid_binary 24 128).

Lemma f32_finite_spec m e : bounded 24 128 m e = true →
  0 < Z.pos m < 2 ^ 24 ∧ -149 ≤ e ≤ 104 ∧ (Z.pos m < 2 ^ 23 → e = -149).
Proof.
  intros Hb. pose proof (bounded_small 24 128 ltac:(done) m e Hb) as Hm.
  pose proof (bounded_emin _ _ _ _ Hb) as He. change (emin 24 128) with (-149) in He.
  apply bounded_spec in Hb as Hs; [|done..]. split; [lia|]. split; [lia|]. intros Hsub.
  destruct (decide (e = -149)) as [|Hne]; [done|].
  pose proof (bounded_normal _ _ _ _ Hb) as Hn. change (emin 24 128) with (-149) in Hn.
  change (2 ^ (24 - 1)) with (2 ^ 23) in Hn. lia.
Qed.
Lemma f32_to_bits_range x : f32_valid x = true → 0 ≤ f32_to_bits x < 2 ^ 32.
Proof.
  destruct x as [[]|[]| |s m e]; try done. intros Hv. apply f32_finite_spec in Hv as (Hm & He & Hs).
  unfold f32_to_bits, sign_bit. destruct (Z.ltb_spec (Z.pos m) (2 ^ 23)), s; lia.
Qed.
(** The fields of a number built from its fields. *)
Lemma bits_fields s ex fr : 0 ≤ ex < 256 → 0 ≤ fr < 2 ^ 23 →
  let b := sign_bit s + ex * 2 ^ 23 + fr in
  (2 ^ 31 <=? b) = s ∧ (b / 2 ^ 23) mod 2 ^ 8 = ex ∧ b mod 2 ^ 23 = fr.
Proof.
  intros Hex Hfr b. assert (b = ((if s then 256 else 0) + ex) * 2 ^ 23 + fr) as Hb by (unfold b, sign_bit; destruct s; lia).
  split.
  { unfold b, sign_bit. destruct s; [apply Z.leb_le|apply Z.leb_gt]; lia. }
  rewrite Hb. split.
  - rewrite Z.div_add_l, (Z.div_small fr) by lia. rewrite Z.add_0_r. change (2 ^ 8) with 256.
    destruct s; [|by rewrite Z.mod_small by lia]. rewrite Z.add_comm, <-(Z.mul_1_l 256) at 1.
    by rewrite Z.mod_add, Z.mod_small by lia.
  - rewrite Z.add_comm, Z.mod_add, Z.mod_small by lia. done.
Qed.
Lemma f32_from_to_bits x : f32_valid x = true → f32_from_bits (f32_to_bits x) = x.
Proof.
  destruct x as [[]|[]| |s m e]; try done. intros Hv. apply f32_finite_spec in Hv as (Hm & He & Hs).
  unfold f32_to_bits. destruct (Z.ltb_spec (Z.pos m) (2 ^ 23)) as [Hlt|Hge].
  - destruct (bits_fields s 0 (Z.pos m)) as (H1 & H2 & H3); [lia..|].
    rewrite Z.mul_0_l, Z.add_0_r in H1, H2, H3. unfold f32_from_bits. rewrite H1, H2, H3. cbn. by rewrite Hs.
  - destruct (bits_fields s (e + 150) (Z.pos m - 2 ^ 23)) as (H1 & H2 & H3); [lia..|].
    unfold f32_from_bits. rewrite H1, H2, H3.
    destruct (Z.eqb_spec (e + 150) 255); [lia|]. destruct (Z.eqb_spec (e + 150) 0); [lia|].
    replace (Z.pos m - 2 ^ 23 + 2 ^ 23) with (Z.pos m) by lia. f_equal. lia.
Qed.
Lemma f32_from_to_le_bytes x : f32_valid x = true →
  match f32_to_le_bytes x with
  | String a (String b (String c (String d ""))) => f32_from_le_bytes a b c d = x
  | _ => False
  end.
Proof.
  intros Hv. cbn. unfold f32_from_le_bytes. pose proof (from_to_be_bytes_alone (f32_to_bits x) (f32_to_bits_range x Hv)) as H.
  unfold to_be_bytes in H. rewrite H. by apply f32_from_to_bits.
Qed.
Lemma decode_encode_values values : Forall (λ x, f32_valid x = true) values →
  decode_values (encode_values values) = values.
Proof.
  induction 1 as [|x values Hx Hv IH]; [done|]. cbn [encode_values].
  pose proof (f32_from_to_le_bytes x Hx) as Hb. unfold f32_to_le_bytes in *. rewrite !string_app_cons.
  change ("" +:+ encode_values values) with (encode_values values). cbn [decode_values]. by rewrite Hb, IH.
Qed.

(** ** The total order *)

Lemma lxor_ones k m : 0 ≤ k → 0 ≤ m < 2 ^ k → Z.lxor (m - 2 ^ k) (2 ^ k - 1) = -1 - m.
Proof.
  intros Hk Hm. replace (2 ^ k - 1) with (Z.ones k) by (rewrite Z.ones_equiv; lia).
  assert (m = 0 ∨ Z.log2 m < k) as Hlog.
  { destruct (decide (m = 0)); [by left|right]. apply Z.log2_lt_pow2; lia. }
  assert (Z.log2 m < k ∨ k = 0 ∧ m = 0) as Hlog'.
  { destruct Hlog as [-> |]; [|by left]. cbn. destruct (decide (k = 0)); [by right|left; lia]. }
  destruct Hlog' as [Hl|[-> ->]]; [|done].
  assert (Z.lxor m (Z.ones k) = Z.ones k - m) as Hx.
  { rewrite <-Z.ldiff_ones_l_low by lia. symmetry. apply Z.sub_nocarry_ldiff. apply Z.ldiff_ones_r_low; lia. }
  assert (m - 2 ^ k = Z.lxor (Z.lnot m) (Z.ones k)) as ->.
  { rewrite <-Z.lnot_lxor_l, Hx, Z.ones_equiv. unfold Z.lnot. lia. }
  rewrite Z.lxor_assoc, Z.lxor_nilpotent, Z.lxor_0_r. unfold Z.lnot. lia.
Qed.
Lemma total_key_sign s m : 0 ≤ m < 2 ^ 31 →
  (let left := as_i32 (sign_bit s + m) in if left <? 0 then Z.lxor left (2 ^ 31 - 1) else left) = if s then -1 - m else m.
Proof.
  intros Hm. unfold as_i32, sign_bit. destruct s; cbn zeta.
  - destruct (Z.leb_spec (2 ^ 31) (2 ^ 31 + m)); [|lia]. destruct (Z.ltb_spec (2 ^ 31 + m - 2 ^ 32) 0); [|lia].
    replace (2 ^ 31 + m - 2 ^ 32) with (m - 2 ^ 31) by lia. apply lxor_ones; lia.
  - destruct (Z.leb_spec (2 ^ 31) (0 + m)); [lia|]. destruct (Z.ltb_spec (0 + m) 0); lia.
Qed.
(** The bits without the sign. *)
Definition magnitude (x : f32) : Z :=
  match x with
  | S754_zero _ => 0 | S754_infinity _ => 255 * 2 ^ 23 | S754_nan => 255 * 2 ^ 23 + 2 ^ 22
  | S754_finite _ m e => (e + 149) * 2 ^ 23 + Z.pos m
  end.
Definition negative (x : f32) : bool :=
  match x with S754_zero s | S754_infinity s | S754_finite s _ _ => s | S754_nan => false end.
Lemma total_key_spec x : f32_valid x = true → 0 ≤ magnitude x < 2 ^ 31 ∧
  total_key x = if negative x then -1 - magnitude x else magnitude x.
Proof.
  intros Hv. assert (0 ≤ magnitude x < 2 ^ 31 ∧ f32_to_bits x = sign_bit (negative x) + magnitude x) as [Hr Hb].
  { destruct x as [[]|[]| |s m e]; try done. apply f32_finite_spec in Hv as (Hm & He & Hs).
    unfold f32_to_bits, magnitude, negative. destruct (Z.ltb_spec (Z.pos m) (2 ^ 23)) as [Hlt|Hge]; [|lia].
    rewrite Hs by done. lia. }
  split; [done|]. unfold total_key. rewrite Hb. by apply total_key_sign.
Qed.
Lemma SFcompare_neg m1 e1 m2 e2 :
  SFcompare (S754_finite true m1 e1) (S754_finite true m2 e2) =
  SFcompare (S754_finite false m2 e2) (S754_finite false m1 e1).
Proof.
  cbn. rewrite (Z.compare_antisym e1 e2). change (Pos.compare_cont Eq m1 m2) with (Pos.compare m1 m2).
  change (Pos.compare_cont Eq m2 m1) with (Pos.compare m2 m1). rewrite (Pos.compare_antisym m1 m2).
  by destruct (Z.compare e1 e2).
Qed.
(** It refines the order of numbers. *)
Lemma total_key_lt x y : f32_valid x = true → f32_valid y = true → SFltb x y = true → total_key x < total_key y.
Proof.
  intros Hx Hy. destruct (total_key_spec x Hx) as [Hrx ->], (total_key_spec y Hy) as [Hry ->].
  assert (∀ m1 e1 m2 e2, bounded 24 128 m1 e1 = true → bounded 24 128 m2 e2 = true → e1 < e2 →
    (e1 + 149) * 2 ^ 23 + Z.pos m1 < (e2 + 149) * 2 ^ 23 + Z.pos m2) as Hexp.
  { intros m1 e1 m2 e2 (H1 & ? & _)%f32_finite_spec (H2 & ? & H3)%f32_finite_spec He.
    assert (2 ^ 23 ≤ Z.pos m2) by (apply Z.nlt_ge; intros Hlt; specialize (H3 Hlt); lia). lia. }
  assert (∀ m e, bounded 24 128 m e = true → 0 < (e + 149) * 2 ^ 23 + Z.pos m < 255 * 2 ^ 23) as Hinf.
  { intros m e (Hm & He & _)%f32_finite_spec. lia. }
  assert (∀ m1 e1 m2 e2, bounded 24 128 m1 e1 = true → bounded 24 128 m2 e2 = true →
    SFcompare (S754_finite false m1 e1) (S754_finite false m2 e2) = Some Lt →
    (e1 + 149) * 2 ^ 23 + Z.pos m1 < (e2 + 149) * 2 ^ 23 + Z.pos m2) as Hfin.
  { intros m1 e1 m2 e2 H1 H2. cbn. destruct (Z.compare_spec e1 e2) as [-> | |]; [|by auto|done].
    change (Pos.compare_cont Eq m1 m2) with (Pos.compare m1 m2). destruct (Pos.compare_spec m1 m2); try done. lia. }
  unfold SFltb. destruct x as [[]|[]| |sx m1 e1]; destruct y as [[]|[]| |sy m2 e2]; try done;
    try (destruct sx); try (destruct sy); try done; intros Hc; cbn [negative magnitude valid_binary] in *;
    first [specialize (Hinf _ _ Hx) | idtac]; first [specialize (Hinf _ _ Hy) | idtac]; try lia.
  - rewrite (SFcompare_neg m1 e1 m2 e2) in Hc. destruct (SFcompare (S754_finite false m2 e2) _) as [[]|] eqn:Hlt; try done.
    specialize (Hfin _ _ _ _ Hy Hx Hlt). lia.
  - destruct (SFcompare (S754_finite false m1 e1) _) as [[]|] eqn:Hlt; try done. specialize (Hfin _ _ _ _ Hx Hy Hlt). lia.
Qed.
