(* ===== verification/Tensor.v ===== *)
(** * The tensor pad of a peer

    [oag-tensor]: [lib.rs]; [oag-storage]: [repo/tensor_pads.rs].  A pad is a
    vector of fixed width, moved towards a signal. *)

From Stdlib Require Import SpecFloat.
From S2P Require Import Prelude Core Store FloatFacts Float32 Bytes FloatBits.

#[local] Open Scope Z_scope.

(** ** [oag-tensor] *)

Definition TENSOR_PAD_DIM : nat := 32.
Record TensorPad := { values : list f32 }.
Definition pad_default : TensorPad := {| values := replicate TENSOR_PAD_DIM f32_zero |}.
(** [resize(TENSOR_PAD_DIM, 0.0)]. *)
Definition from_values (values : list f32) : TensorPad :=
  {| values := take TENSOR_PAD_DIM values ++ replicate (TENSOR_PAD_DIM - length values) f32_zero |}.
Definition move_slot (learning_rate slot s : f32) : f32 :=
  f32_add (f32_mul (f32_sub f32_one learning_rate) slot) (f32_mul learning_rate s).
Definition pad_update (signal : list f32) (learning_rate : f32) (pad : TensorPad) : TensorPad :=
  {| values := imap (λ i slot, move_slot learning_rate slot (default f32_zero (signal !! i))) (values pad) |}.

(** ** [repo/tensor_pads.rs] *)

Definition tensor_pads_get (peer_id : hash32) : tx (option (list f32)) :=
  gets (λ d, (λ r, decode_values (tp_pad_values r)) <$> tensor_pads (net d) !! peer_id).
Definition tensor_pads_upsert (peer_id : hash32) (values : list f32) (updated_at : Z) : tx () :=
  modify (on_net (on_tensor_pads (λ t, <[peer_id := TensorPadRow (encode_values values) updated_at]> t))).

(** ** Widths *)

Lemma from_values_length values0 : length (values (from_values values0)) = TENSOR_PAD_DIM.
Proof. cbn [values from_values]. rewrite length_app, length_take, length_replicate. lia. Qed.
Lemma pad_update_length signal rate pad : length (values (pad_update signal rate pad)) = length (values pad).
Proof. cbn. apply length_imap. Qed.
Lemma from_values_full values0 : length values0 = TENSOR_PAD_DIM → values (from_values values0) = values0.
Proof.
  intros H. cbn [values from_values]. rewrite take_ge by lia. rewrite H, Nat.sub_diag. apply app_nil_r.
Qed.
