(* ===== verification/Sync.v ===== *)
(** * Replication

    [oag-sync]: [wire.rs], [client.rs], [service.rs] and the handlers of
    [server.rs].  A peer answers others from its database ([hello],
    [get_events], [peers]) and accepts pushes ([post_*]); [sync_with_peer]
    pulls from one remote, whose answers are a parameter: nothing is assumed
    about them here.  A round ends with [observe_sync_outcome], which moves
    the peer's own tensor pad. *)

From S2P Require Import Prelude Core Envelope Store Projector EventLog Service Presence Float32 Trust Tensor.

(** ** [wire.rs] *)

Definition SYNC_PROTOCOL : string := "oag-sync".
Definition SYNC_VERSION : Z := 1.

(** A [HashMap] is its entries in iteration order, keys distinct. *)
Record HelloResponse := {
  he_protocol : string; he_version : Z; he_peer_id : string; he_public_key : string;
  he_heads : list (string * Z) }.
Record PeerRecord := {
  pc_peer_id : string; pc_public_key : string; pc_addresses : list string;
  pc_last_seen : option Z }.

(** ** [client.rs] *)

Inductive SyncClientError :=
  | Http (e : string)
  | ResponseTooLarge (limit : Z)
  | InvalidJson (e : string).
Definition MAX_RESPONSE_BYTES : Z := 4 * 1024 * 1024.

(** [capped_json]: the body arrives in chunks, any of which may be a transport
    error; [parse] is [serde_json::from_slice]. *)
Fixpoint capped_body (chunks : list (result string string)) (body : string) :
    result SyncClientError string :=
  match chunks with
  | [] => Ok body
  | Err e :: _ => Err (Http e)
  | Ok chunk :: chunks =>
      let body := body +:+ chunk in
      if Z.ltb MAX_RESPONSE_BYTES (Z.of_nat (String.length body))
      then Err (ResponseTooLarge MAX_RESPONSE_BYTES) else capped_body chunks body
  end.
Definition capped_json {T} (parse : string → result string T) (chunks : list (result string string)) :
    result SyncClientError T :=
  body ← capped_body chunks ""; map_err InvalidJson (parse body).

(** What the client gets from one address during one round. *)
Record remote := Remote {
  client_hello : result SyncClientError HelloResponse;
  client_fetch_events : string → Z → Z → result SyncClientError (list SignedEvent);
  client_fetch_peers : result SyncClientError (list PeerRecord) }.

(** ** [service.rs] *)

Inductive SyncError :=
  | SClient (e : SyncClientError)
  | SStorage (e : StorageError)
  | SPeerId (e : PeerIdParseError)
  | SInvalidPublicKey.

(** An entry of [SyncSummary::errors], a formatted string there. *)
Inductive SyncFailure :=
  | FetchFailed (origin_hex : string) (e : SyncClientError)
  | IngestFailed (origin_hex : string) (seq : Z) (e : EventsError).
Record SyncSummary := {
  sm_applied : Z; sm_already_known : Z; sm_forks : Z; sm_errors : list SyncFailure }.
Definition empty_summary : SyncSummary :=
  {| sm_applied := 0; sm_already_known := 0; sm_forks := 0; sm_errors := [] |}.
Definition count_applied (s : SyncSummary) : SyncSummary :=
  {| sm_applied := sm_applied s + 1; sm_already_known := sm_already_known s;
     sm_forks := sm_forks s; sm_errors := sm_errors s |}.
Definition count_known (s : SyncSummary) : SyncSummary :=
  {| sm_applied := sm_applied s; sm_already_known := sm_already_known s + 1;
     sm_forks := sm_forks s; sm_errors := sm_errors s |}.
Definition count_fork (s : SyncSummary) : SyncSummary :=
  {| sm_applied := sm_applied s; sm_already_known := sm_already_known s;
     sm_forks := sm_forks s + 1; sm_errors := sm_errors s |}.
Definition add_failure (f : SyncFailure) (s : SyncSummary) : SyncSummary :=
  {| sm_applied := sm_applied s; sm_already_known := sm_already_known s;
     sm_forks := sm_forks s; sm_errors := sm_errors s ++ [f] |}.

(** The configuration of a [SyncService]. *)
Record SyncConfig := {
  self_peer_id : hash32;
  self_public_key : bytes 32;
  federation : FederationPolicy;
  minimum_trust : f32;
  trust_config : TrustConfig;
  own_cluster : option string }.

Definition MAX_PEERS_PER_RESPONSE : nat := 200.
Definition MAX_ADDRESSES_PER_PEER : nat := 5.
Definition MAX_TOTAL_KNOWN_PEERS : Z := 10000.

(** [f32::ln], the platform's. *)
Class Logarithm := { f32_ln : f32 → f32 }.

Definition LEARNING_RATE : f32 := f32_lit 13421773 (-27).  (* 0.1 *)
Definition outcome_signal {LN : Logarithm} (summary : SyncSummary) : list f32 :=
  (λ count, f32_ln (f32_add (f32_of_int count) f32_one)) <$>
    [sm_applied summary; sm_already_known summary; sm_forks summary; Z.of_nat (length (sm_errors summary))].

Section sync.
Context `{P : Platform} `{C : Codec} `{SC : StatementCodec}.
Context {LN : Logarithm} (cfg : SyncConfig) (clock : nat → Z).
Abbreviation sync := (ste service SyncError).

Definition decode_hex32 (s : string) : option hash32 := decode_hex 32 s.
Definition now_ts {E} : ste service E Z := read_clock clock.
Definition conn {A} (m : tx A) : sync A := statement SStorage m.

(** A statement whose failure is ignored: [.ok()], [let _ =], [is_err()]. *)
Definition tried {E A} (m : tx A) : ste service E (option A) := λ s,
  let '(r, d) := atomically m (store s) in (Ok (to_option r), Svc d (ticks s)).

(** [ingest_remote_event(pool, key, signed, t).await], its error a value. *)
Definition ingest {E} (key : VerifyingKey) (signed : SignedEvent) (t : Z) :
    ste service E (result EventsError IngestOutcome) := λ s,
  let '(r, d) := ingest_remote_event key signed t (store s) in (Ok r, Svc d (ticks s)).

Definition same_cluster {E} (peer : hash32) : ste service E bool :=
  match own_cluster cfg with
  | None => mret false
  | Some mine =>
      claim ← tried (cluster_get peer);
      match claim with
      | Some (Some c) => mret (bool_decide (cl_cluster c = mine))
      | _ => mret false
      end
  end.

Definition federation_allows {E} (peer : hash32) : ste service E bool :=
  same ← same_cluster peer;
  if same : bool then mret true
  else if negb (allows (federation cfg) peer) then mret false
  else if SFleb (minimum_trust cfg) f32_zero then mret true
  else
    t ← now_ts;
    score ← tried (compute_trust peer t (trust_config cfg));
    match score with
    | Some score => mret (SFleb (minimum_trust cfg) score)
    | None => mret false
    end.

Definition local_heads : sync (gmap string Z) :=
  rows ← conn list_all_origins;
  mret (list_to_map ((λ r : hash32 * origin_row,
                        (to_hex r.1, wrap_u64 (or_highest_contiguous r.2))) <$> rows)).

(** *** Discovery *)

Fixpoint record_addresses (peer : hash32) (addresses : list string) : sync () :=
  match addresses with
  | [] => mret ()
  | a :: rest => _ ← tried (add_address peer a); record_addresses peer rest
  end.

Definition learn_peer (now : Z) (p : PeerRecord) : sync () :=
  match PeerId_from_str (pc_peer_id p), decode_hex32 (pc_public_key p) with
  | Ok pid, Some pk =>
      if bool_decide (pid = self_peer_id cfg) then mret () else
      match vk_from_bytes pk with
      | Err _ => mret ()
      | Ok key =>
          if negb (bool_decide (pid = PeerId_from_public_key key)) then mret () else
          done ← tried (upsert_peer pid pk None now);
          match done with
          | None => mret ()
          | Some _ => record_addresses pid (take MAX_ADDRESSES_PER_PEER (pc_addresses p))
          end
      end
  | _, _ => mret ()
  end.

Fixpoint learn_peers (now : Z) (ps : list PeerRecord) : sync () :=
  match ps with [] => mret () | p :: ps => _ ← learn_peer now p; learn_peers now ps end.

Definition discover_peers (r : remote) : sync () :=
  match client_fetch_peers r with
  | Err _ => mret ()
  | Ok peers =>
      count ← tried count_peers;
      if match count with Some n => Z.leb MAX_TOTAL_KNOWN_PEERS n | None => false end then mret ()
      else t ← now_ts; learn_peers t (take MAX_PEERS_PER_RESPONSE peers)
  end.

(** *** Pulling *)

Fixpoint ingest_all (origin_hex : string) (key : VerifyingKey) (evs : list SignedEvent)
    (summary : SyncSummary) : sync SyncSummary :=
  match evs with
  | [] => mret summary
  | signed :: rest =>
      t ← now_ts;
      outcome ← ingest key signed t;
      match outcome with
      | Ok (Applied _ _) => ingest_all origin_hex key rest (count_applied summary)
      | Ok (AlreadyKnown _) => ingest_all origin_hex key rest (count_known summary)
      | Ok (Forked _ _) => mret (count_fork summary)
      | Err e => mret (add_failure (IngestFailed origin_hex (sequence (unsigned signed)) e) summary)
      end
  end.

Definition key_of (remote_id : hash32) (remote_key : VerifyingKey) (origin : hash32) :
    sync (option VerifyingKey) :=
  if bool_decide (origin = remote_id) then mret (Some remote_key)
  else
    info ← conn (get_peer origin);
    mret (info ≫= λ i, to_option (vk_from_bytes (pe_public_key i))).

(** One entry of [hello.heads]. *)
Definition pull_origin (r : remote) (remote_id : hash32) (remote_key : VerifyingKey)
    (heads : gmap string Z) (head : string * Z) (summary : SyncSummary) : sync SyncSummary :=
  match decode_hex32 head.1 with
  | None => mret summary
  | Some origin =>
      allowed ← federation_allows origin;
      if negb allowed then mret summary else
      let local_seq := default 0%Z (heads !! head.1) in
      if Z.leb head.2 local_seq then mret summary else
      known ← key_of remote_id remote_key origin;
      match known with
      | None => mret summary
      | Some key =>
          match client_fetch_events r head.1 (local_seq + 1) head.2 with
          | Err e => mret (add_failure (FetchFailed head.1 e) summary)
          | Ok evs => ingest_all head.1 key evs summary
          end
      end
  end.

Fixpoint pull_all (r : remote) (remote_id : hash32) (remote_key : VerifyingKey)
    (heads : gmap string Z) (hs : list (string * Z)) (summary : SyncSummary) : sync SyncSummary :=
  match hs with
  | [] => mret summary
  | h :: hs =>
      summary ← pull_origin r remote_id remote_key heads h summary;
      pull_all r remote_id remote_key heads hs summary
  end.

Fixpoint record_known_heads (remote_id : hash32) (now : Z) (hs : list (string * Z)) : sync () :=
  match hs with
  | [] => mret ()
  | h :: hs =>
      _ ← match decode_hex32 h.1 with
          | Some origin => conn (upsert_known_head remote_id origin (wrap_i64 h.2) now)
          | None => mret ()
          end;
      record_known_heads remote_id now hs
  end.

(** The checks and records before anything is pulled. *)
Definition handshake (addr : string) (r : remote) :
    sync (HelloResponse * hash32 * VerifyingKey) :=
  hello ← of_result (map_err SClient (client_hello r));
  remote_id ← of_result (map_err SPeerId (PeerId_from_str (he_peer_id hello)));
  key_bytes ← of_result (ok_or (decode_hex32 (he_public_key hello)) SInvalidPublicKey);
  key ← of_result (map_err (λ _, SInvalidPublicKey) (vk_from_bytes key_bytes));
  if negb (bool_decide (remote_id = PeerId_from_public_key key)) then raise SInvalidPublicKey else
  t ← now_ts;
  _ ← conn (upsert_peer remote_id key_bytes None t);
  _ ← conn (add_address remote_id addr);
  _ ← record_known_heads remote_id t (he_heads hello);
  mret (hello, remote_id, key).

Definition observe_sync_outcome (summary : SyncSummary) : sync () :=
  existing ← tried (tensor_pads_get (self_peer_id cfg));
  let pad := from_values (default [] (mjoin existing)) in
  let pad := pad_update (outcome_signal summary) LEARNING_RATE pad in
  t ← now_ts;
  _ ← tried (tensor_pads_upsert (self_peer_id cfg) (values pad) t);
  mret ().

Definition sync_with_peer (addr : string) (r : remote) : sync SyncSummary :=
  '(hello, remote_id, key) ← handshake addr r;
  _ ← discover_peers r;
  heads ← local_heads;
  summary ← pull_all r remote_id key heads (he_heads hello) empty_summary;
  _ ← observe_sync_outcome summary;
  mret summary.

(** ** [server.rs] *)

Definition BAD_REQUEST : Z := 400.
Definition PAYLOAD_TOO_LARGE : Z := 413.
Definition INTERNAL_SERVER_ERROR : Z := 500.
Definition MAX_EVENTS_PER_FETCH : Z := 1000.
Definition MAX_EVENTS_PER_PUSH : nat := 1000.

Definition server_heads (d : db) : list (string * Z) :=
  match list_all_origins d with
  | Ok (rows, _) => map_to_list (list_to_map ((λ r : hash32 * origin_row,
      (to_hex r.1, wrap_u64 (or_highest_contiguous r.2))) <$> rows) : gmap string Z)
  | Err _ => []
  end.
Definition server_hello (d : db) : HelloResponse :=
  {| he_protocol := SYNC_PROTOCOL; he_version := SYNC_VERSION;
     he_peer_id := PeerId_to_string (self_peer_id cfg);
     he_public_key := hex_encode (raw (self_public_key cfg)); he_heads := server_heads d |}.

(** [.map(|row| serde_json::from_slice(&row.canonical_payload)).collect()]. *)
Fixpoint read_events (rows : list event_row) : result string (list SignedEvent) :=
  match rows with
  | [] => Ok []
  | row :: rows =>
      e ← signed_from_slice (er_canonical_payload row);
      es ← read_events rows; Ok (e :: es)
  end.
Definition get_events (origin_hex : string) (from to : Z) (d : db) : result Z (list SignedEvent) :=
  origin ← ok_or (decode_hex32 origin_hex) BAD_REQUEST;
  if Z.ltb to from then Err BAD_REQUEST else
  let from := wrap_i64 from in
  let to := Z.min (wrap_i64 to) (wrap_i64 (from + MAX_EVENTS_PER_FETCH - 1)) in
  rows ← map_err (λ _, INTERNAL_SERVER_ERROR) (fst <$> list_range origin from to d);
  map_err (λ _, INTERNAL_SERVER_ERROR) (read_events rows).

(** One event of a push: was it applied? *)
Definition push_one (signed : SignedEvent) : ste service Z bool :=
  match PeerId_from_str (origin_peer (unsigned signed)) with
  | Err _ => mret false
  | Ok origin =>
      allowed ← federation_allows origin;
      if negb allowed then mret false else
      info ← tried (get_peer origin);
      match (i ← mjoin info; to_option (vk_from_bytes (pe_public_key i))) with
      | None => mret false
      | Some key =>
          t ← now_ts;
          outcome ← ingest key signed t;
          mret (match outcome with Ok (Applied _ _) => true | _ => false end)
      end
  end.
Fixpoint push_all (evs : list SignedEvent) (applied skipped : Z) : ste service Z (Z * Z) :=
  match evs with
  | [] => mret (applied, skipped)
  | e :: evs =>
      b ← push_one e;
      if b : bool then push_all evs (applied + 1) skipped else push_all evs applied (skipped + 1)
  end.
Definition post_events (evs : list SignedEvent) : ste service Z (Z * Z) :=
  if MAX_EVENTS_PER_PUSH <? length evs then raise PAYLOAD_TOO_LARGE else push_all evs 0 0.

Fixpoint announce_offline (addresses : list string) (peer : hash32) (now : Z) : ste service Z () :=
  match addresses with
  | [] => mret ()
  | a :: rest => _ ← tried (record_going_offline a peer now); announce_offline rest peer now
  end.
Definition post_presence (heartbeat : PresenceHeartbeat) : ste service Z () :=
  t ← now_ts;
  peer ← of_result (map_err (λ _, BAD_REQUEST) (presence_verify heartbeat t));
  let u := hb_unsigned heartbeat in
  _ ← statement (λ _, INTERNAL_SERVER_ERROR)
        (record_heartbeat peer (hb_session_started_at u) (hb_timestamp u)
           (PresenceStatus_as_str (hb_status u)));
  if bool_decide (hb_status u = GoingOffline) then
    addresses ← statement (λ _, INTERNAL_SERVER_ERROR) (list_addresses peer);
    announce_offline addresses peer t
  else mret ().

Definition post_cluster (declaration : ClusterDeclaration) : ste service Z () :=
  t ← now_ts;
  peer ← of_result (map_err (λ _, BAD_REQUEST) (cluster_verify declaration t));
  statement (λ _, INTERNAL_SERVER_ERROR)
    (cluster_upsert peer (cd_cluster (cd_unsigned declaration)) t).

Definition server_peers : ste service Z (list PeerRecord) :=
  infos ← tried list_peers;
  d ← observe store;
  mret ((λ i : hash32 * peer_row,
    {| pc_peer_id := PeerId_to_string i.1; pc_public_key := hex_encode (raw (pe_public_key i.2));
       pc_addresses := match list_addresses i.1 d with Ok (l, _) => l | Err _ => [] end;
       pc_last_seen := pe_last_seen i.2 |}) <$> default [] infos).
End sync.
