(* ===== verification/Graph.v ===== *)
(** * The graph service

    [oag-graph]: [service.rs], [assert.rs], [identifier.rs], and
    [canonicalize.rs] of [oag-core].  A service call reads the clock, checks
    the caller, and commits zero or more events, each in its own transaction;
    what an earlier transaction committed stays when a later one fails. *)

From stdpp Require Import pretty.
From S2P Require Import Prelude Core Envelope Store Projector EventLog Service.

Inductive GraphError :=
  | GStorage (e : StorageError)
  | GEvents (e : EventsError)
  | PermissionDenied (requires : string)
  | InvalidApiKey
  | GNotFound (what : string)
  | InvalidInput (why : string)
  | AlreadyRedacted (id : hash32)
  | ActorAlreadyRedacted (id : hash32).

(** ** Canonical identifiers *)

(** The [url] crate, and the canonical bytes of a key proof message. *)
Class GraphPlatform := {
  Url : Type;
  url_parse : string → option Url;
  url_path : Url → string;
  url_set_path : string → Url → Url;
  url_fragment : Url → option string;
  url_set_fragment : option string → Url → Url;
  url_query_pairs : Url → list (string * string);
  url_set_query : option string → Url → Url;
  url_to_string : Url → string;
  canonical_key_proof : string → option string → option string → result string string
}.

Definition TRACKING_PARAMS : list string :=
  ["utm_source"; "utm_medium"; "utm_campaign"; "utm_term"; "utm_content"; "gclid"; "fbclid"].

Section graph.
Context `{P : Platform} `{C : Codec} `{U : GraphPlatform}.

Definition canonicalize_url (s : string) : option string :=
  u ← url_parse s;
  let u := if decide (url_path u = "") then url_set_path "/" u else u in
  let u := if decide (url_fragment u = Some "") then url_set_fragment None u else u in
  let filtered := filter (λ kv : string * string, kv.1 ∉ TRACKING_PARAMS) (url_query_pairs u) in
  let u := if decide (filtered = []) then url_set_query None u
           else url_set_query (Some (join "&" ((λ kv, kv.1 +:+ "=" +:+ kv.2) <$> filtered))) u in
  Some (url_to_string u).

Definition canonical_identifier (kind value : string) : string :=
  to_lowercase (trim kind) +:+ ":" +:+ trim value.

(** [s.split_once(':')]. *)
Fixpoint split_once_colon (s : string) : option (string * string) :=
  match s with
  | "" => None
  | String a s =>
      if decide (a = ":"%char) then Some ("", s)
      else '(l, r) ← split_once_colon s; Some (String a l, r)
  end.
Definition ascii_lower (a : ascii) : ascii :=
  let n := nat_of_ascii a in
  if (65 <=? n) && (n <=? 90) then ascii_of_nat (n + 32) else a.
Fixpoint to_ascii_lowercase (s : string) : string :=
  match s with "" => "" | String a s => String (ascii_lower a) (to_ascii_lowercase s) end.
Definition eq_ignore_ascii_case (a b : string) : bool :=
  bool_decide (to_ascii_lowercase a = to_ascii_lowercase b).
Fixpoint all_chars (p : ascii → bool) (s : string) : bool :=
  match s with "" => true | String a s => p a && all_chars p s end.
Definition is_scheme_char (a : ascii) : bool :=
  let n := nat_of_ascii a in
  ((48 <=? n) && (n <=? 57)) || ((65 <=? n) && (n <=? 90)) || ((97 <=? n) && (n <=? 122)) ||
  bool_decide (a = "-"%char) || bool_decide (a = "_"%char).

Definition concept_slug (trimmed : string) : string * option string :=
  (canonical_identifier "concept" (join "-" (split_whitespace (to_lowercase trimmed))),
   Some "concept").

Definition canonicalize_value (value : string) : string * option string :=
  let trimmed := trim value in
  match split_once_colon trimmed with
  | Some (scheme, _) =>
      if eq_ignore_ascii_case scheme "http" || eq_ignore_ascii_case scheme "https" then
        match canonicalize_url trimmed with
        | Some u => (canonical_identifier "url" u, Some "url")
        | None => concept_slug trimmed
        end
      else if negb (bool_decide (scheme = "")) &&
              all_chars (λ a, negb (bool_decide (a = " "%char))) trimmed &&
              all_chars is_scheme_char scheme
      then (to_lowercase trimmed, None)
      else concept_slug trimmed
  | None => concept_slug trimmed
  end.

(** ** Callers and limits *)

Record AuthContext := { auth_actor_id : hash32; auth_permissions : list Permission }.

Definition require (auth : AuthContext) (p : Permission) : result GraphError () :=
  if bool_decide (p ∈ auth_permissions auth) || bool_decide (Admin ∈ auth_permissions auth)
  then Ok () else Err (PermissionDenied (as_str p)).

Definition MAX_IDENTIFIER_LEN : Z := 2048.
Definition MAX_TYPE_LEN : Z := 64.
Definition MAX_PREDICATE_LEN : Z := 128.
Definition MAX_URI_LEN : Z := 2048.
Definition MAX_TITLE_LEN : Z := 512.
Definition MAX_EXCERPT_LEN : Z := 4096.
Definition MAX_CONTENT_HASH_LEN : Z := 128.
Definition MAX_PINNED_CID_LEN : Z := 128.
Definition MAX_METADATA_BYTES : Z := 8192.
Definition MAX_REASON_LEN : Z := 2048.
Definition MAX_EVIDENCE_PER_ASSERTION : Z := 20.
Definition MAX_ALIAS_LEN : Z := 512.
Definition MAX_ACTOR_NAME_LEN : Z := 512.
Definition MAX_IDENTITY_URI_LEN : Z := 2048.

Definition byte_len (s : string) : Z := Z.of_nat (String.length s).
Definition over_limit (field : string) (len max : Z) : string :=
  field +:+ " is " +:+ pretty len +:+ " bytes, exceeds the " +:+ pretty max +:+ "-byte limit".
Definition check_len (field value : string) (max : Z) : result GraphError () :=
  if Z.ltb max (byte_len value) then Err (InvalidInput (over_limit field (byte_len value) max))
  else Ok ().
Definition check_opt_len (field : string) (value : option string) (max : Z) : result GraphError () :=
  match value with Some v => check_len field v max | None => Ok () end.

Record EvidenceInput := {
  in_evidence_type : option string; in_uri : option string; in_title : option string;
  in_excerpt : option string; in_content_hash : option string; in_observed_at : option Z;
  in_retrieved_at : option Z; in_pinned_cid : option string; in_metadata : option json }.

Definition EvidenceInput_validate (e : EvidenceInput) : result GraphError () :=
  _ ← check_opt_len "evidence.uri" (in_uri e) MAX_URI_LEN;
  _ ← check_opt_len "evidence.title" (in_title e) MAX_TITLE_LEN;
  _ ← check_opt_len "evidence.excerpt" (in_excerpt e) MAX_EXCERPT_LEN;
  _ ← check_opt_len "evidence.content_hash" (in_content_hash e) MAX_CONTENT_HASH_LEN;
  _ ← check_opt_len "evidence.pinned_cid" (in_pinned_cid e) MAX_PINNED_CID_LEN;
  match in_metadata e with
  | None => Ok ()
  | Some md =>
      let len := match json_to_string md with Ok s => byte_len s | Err _ => 0%Z end in
      if Z.ltb MAX_METADATA_BYTES len
      then Err (InvalidInput (over_limit "evidence.metadata" len MAX_METADATA_BYTES)) else Ok ()
  end.

Record AssertInput := {
  in_subject : string; in_subject_type : option string; in_predicate : string;
  in_object : string; in_object_type : option string; in_evidence : list EvidenceInput;
  in_actor_confidence : option Z; in_asserted_observed_at : option Z;
  in_extraction_method : option ExtractionMethod }.

Fixpoint validate_all (es : list EvidenceInput) : result GraphError () :=
  match es with [] => Ok () | e :: es => _ ← EvidenceInput_validate e; validate_all es end.
Definition AssertInput_validate (i : AssertInput) : result GraphError () :=
  _ ← check_len "subject" (in_subject i) MAX_IDENTIFIER_LEN;
  _ ← check_len "object" (in_object i) MAX_IDENTIFIER_LEN;
  _ ← check_len "predicate" (in_predicate i) MAX_PREDICATE_LEN;
  _ ← check_opt_len "subject_type" (in_subject_type i) MAX_TYPE_LEN;
  _ ← check_opt_len "object_type" (in_object_type i) MAX_TYPE_LEN;
  let n := Z.of_nat (length (in_evidence i)) in
  if Z.ltb MAX_EVIDENCE_PER_ASSERTION n
  then Err (InvalidInput (pretty n +:+ " evidence items exceeds the " +:+
              pretty MAX_EVIDENCE_PER_ASSERTION +:+ "-item limit per assertion"))
  else validate_all (in_evidence i).

(** ** The service *)

Section service.
Context (identity : SigningKey) (clock : nat → Z).

Abbreviation svc := (ste service GraphError).

(** [self.now()]. *)
Definition now : svc Z := read_clock clock.
(** Reading through a connection, outside any transaction. *)
Definition query {A} (m : tx A) : svc A := λ s, (map_err GStorage (fst <$> m (store s)), s).

Definition commit_event (p : EventPayload) (created : Z) : svc (hash32 * ProjectionOutcome) :=
  transact GEvents (commit_local_event identity p created).

Definition add_evidence_internal (assertion_id : hash32) (e : EvidenceInput) : svc () :=
  t ← now;
  _ ← commit_event (AddEvidence {|
        ae_assertion_id := to_hex assertion_id;
        ae_evidence_type := default "other" (in_evidence_type e);
        ae_uri := in_uri e; ae_title := in_title e; ae_excerpt := in_excerpt e;
        ae_content_hash := in_content_hash e; ae_observed_at := in_observed_at e;
        ae_retrieved_at := in_retrieved_at e; ae_pinned_cid := in_pinned_cid e;
        ae_metadata := in_metadata e |}) t;
  mret ().

Fixpoint add_all (assertion_id : hash32) (es : list EvidenceInput) : svc () :=
  match es with
  | [] => mret ()
  | e :: es => _ ← add_evidence_internal assertion_id e; add_all assertion_id es
  end.

(** The payload [assert] commits. *)
Definition assert_payload (auth : AuthContext) (i : AssertInput) : EventPayload :=
  let '(subject_identifier, subject_kind) := canonicalize_value (in_subject i) in
  let '(object_identifier, object_kind) := canonicalize_value (in_object i) in
  let or_else (a b : option string) : option string := match a with Some _ => a | None => b end in
  AssertRelation {|
    ar_subject_identifier := subject_identifier;
    ar_subject_type := default "unknown" (or_else (in_subject_type i) subject_kind);
    ar_predicate := in_predicate i;
    ar_object_identifier := object_identifier;
    ar_object_type := default "unknown" (or_else (in_object_type i) object_kind);
    ar_actor_id := to_hex (auth_actor_id auth);
    ar_actor_confidence := in_actor_confidence i;
    ar_observed_at := in_asserted_observed_at i;
    ar_extraction_method := as_str (default Direct (in_extraction_method i)) |}.

Definition assert_ (auth : AuthContext) (i : AssertInput) : svc hash32 :=
  _ ← of_result (require auth GraphAssert);
  _ ← of_result (AssertInput_validate i);
  t ← now;
  '(assertion_id, _) ← commit_event (assert_payload auth i) t;
  _ ← add_all assertion_id (in_evidence i);
  mret assertion_id.

Definition add_evidence (auth : AuthContext) (assertion_id : hash32) (e : EvidenceInput) : svc () :=
  _ ← of_result (require auth GraphAssert);
  _ ← of_result (EvidenceInput_validate e);
  add_evidence_internal assertion_id e.

(** [self.commit_event(payload, self.now()).await?; Ok(())]. *)
Definition commit_now (p : EventPayload) : svc () := t ← now; _ ← commit_event p t; mret ().

Definition declare_alias (auth : AuthContext) (node_id : hash32) (alias : string)
    (type : AliasType) : svc () :=
  _ ← of_result (require auth GraphAssert);
  _ ← of_result (check_len "alias" alias MAX_ALIAS_LEN);
  commit_now (NodeAlias {| na_node_id := to_hex node_id; na_alias := alias;
                           na_alias_type := as_str type |}).

Definition verify_assertion (auth : AuthContext) (id : hash32) (r : VerifyResult)
    (observed : Z) : svc () :=
  _ ← of_result (require auth GraphVerify);
  commit_now (VerifyAssertion {| va_assertion_id := to_hex id;
    va_observer_actor_id := to_hex (auth_actor_id auth); va_result := as_str r;
    va_observed_at := observed |}).

Definition dispute_assertion (auth : AuthContext) (id : hash32) (reason : option string) : svc () :=
  _ ← of_result (require auth GraphAssert);
  _ ← of_result (check_opt_len "reason" reason MAX_REASON_LEN);
  commit_now (DisputeAssertion {| da_disputed_assertion_id := to_hex id;
    da_disputing_actor_id := to_hex (auth_actor_id auth); da_reason := reason |}).

Definition get_assertion (id : hash32) : svc (option Assertion) := query (assertions_get_by_id id).

Definition retract_assertion (auth : AuthContext) (id : hash32) (reason : option string) : svc () :=
  _ ← of_result (require auth GraphRetractOwn);
  _ ← of_result (check_opt_len "reason" reason MAX_REASON_LEN);
  found ← get_assertion id;
  assertion ← of_result (ok_or found (GNotFound ("assertion " +:+ to_hex id)));
  if negb (bool_decide (a_actor_id assertion = auth_actor_id auth)) &&
     negb (bool_decide (Admin ∈ auth_permissions auth))
  then raise (PermissionDenied
         "graph:retract-own requires being the original asserting actor (or admin)")
  else commit_now (RetractAssertion {| ra_retracted_assertion_id := to_hex id;
         ra_actor_id := to_hex (auth_actor_id auth); ra_reason := reason |}).

Definition supersede_assertion (auth : AuthContext) (old new : hash32) : svc () :=
  _ ← of_result (require auth GraphAssert);
  commit_now (SupersedeAssertion {| sa_old_assertion_id := to_hex old;
    sa_new_assertion_id := to_hex new; sa_actor_id := to_hex (auth_actor_id auth) |}).

(** *** Actors and keys *)

Definition authenticate (raw_api_key : string) : svc AuthContext :=
  found ← query (actors_find_active_key (blake3 raw_api_key));
  match found with
  | Some k => mret {| auth_actor_id := ak_actor_id k; auth_permissions := ak_permissions k |}
  | None => raise InvalidApiKey
  end.

Record PublicKeyProof := { proof_key : bytes 32; proof_signature : bytes 64 }.

Definition sign_actor_key_proof (key : SigningKey) (type : ActorType) (name uri : option string) :
    result GraphError PublicKeyProof :=
  canonical ← map_err (λ e, InvalidInput ("failed to canonicalize proof message: " +:+ e))
                (canonical_key_proof (as_str type) name uri);
  Ok {| proof_key := vk_bytes (verifying_key key);
        proof_signature := sign_with_domain key ACTOR_KEY_PROOF_DOMAIN canonical |}.

Definition check_key_proof (type : ActorType) (name uri : option string) (proof : PublicKeyProof) :
    result GraphError string :=
  key ← map_err (λ _, InvalidInput "invalid public key bytes") (vk_from_bytes (proof_key proof));
  canonical ← map_err (λ e, InvalidInput ("failed to canonicalize proof message: " +:+ e))
                (canonical_key_proof (as_str type) name uri);
  _ ← map_err (λ _, InvalidInput "public key proof signature does not verify")
        (verify_with_domain key ACTOR_KEY_PROOF_DOMAIN canonical (proof_signature proof));
  Ok (hex_encode (raw (proof_key proof))).

Definition declare_actor (type : ActorType) (name uri : option string)
    (proof : option PublicKeyProof) : svc hash32 :=
  _ ← of_result (check_opt_len "name" name MAX_ACTOR_NAME_LEN);
  _ ← of_result (check_opt_len "identity_uri" uri MAX_IDENTITY_URI_LEN);
  public_key ← of_result (transpose (check_key_proof type name uri <$> proof));
  t ← now;
  '(_, outcome) ← commit_event (ActorDeclare {| ad_actor_type := as_str type; ad_name := name;
                                   ad_public_key := public_key; ad_identity_uri := uri |}) t;
  match outcome with
  | ActorDeclared actor_id => mret actor_id
  | OutcomeUnit => raise (InvalidInput "unreachable")
  end.

(** [raw] is what the random number generator returns. *)
Definition create_key (rng : bytes 32) (actor_id : hash32) (permissions : list Permission) : svc string :=
  let raw_key := "oagk_" +:+ hex_encode (raw rng) in
  let key_hash := blake3 raw_key in
  t ← now;
  _ ← commit_event (ActorKeyAdd {| ka_actor_id := to_hex actor_id; ka_key_hash := to_hex key_hash;
                                   ka_permissions := as_str <$> permissions |}) t;
  mret raw_key.

Definition revoke_key (key_hash_hex : string) : svc () :=
  b ← of_result (map_err (λ e, InvalidInput ("invalid key hash '" +:+ key_hash_hex +:+ "': " +:+ e))
        (hex_decode key_hash_hex));
  key_hash ← of_result (ok_or (to_array 32 b)
        (InvalidInput ("key hash '" +:+ key_hash_hex +:+ "' must be 32 bytes")));
  existing ← query (actors_find_active_key key_hash);
  match existing with
  | None => raise (GNotFound ("active key " +:+ key_hash_hex))
  | Some k =>
      t ← now;
      _ ← commit_event (ActorKeyRevoke {| kr_actor_id := to_hex (ak_actor_id k);
                                          kr_key_hash := key_hash_hex |}) t;
      mret ()
  end.
End service.
End graph.

(** ** URLs as plain text: enough to run the service on an example *)

Module ToyGraph.
Definition plain_urls : GraphPlatform := {|
  Url := string;
  url_parse := Some;
  url_path := λ _, "/";
  url_set_path := λ _ u, u;
  url_fragment := λ _, None;
  url_set_fragment := λ _ u, u;
  url_query_pairs := λ _, [];
  url_set_query := λ _ u, u;
  url_to_string := id;
  canonical_key_proof := λ t n u, Ok (join "|" [t; default "-" n; default "-" u])
|}.
End ToyGraph.
