(* ===== verification/Rebuild.v ===== *)
(** * Redaction and rebuilding

    [oag-graph]: [redaction.rs] and [rebuild.rs].  The graph tables can be
    wiped and replayed from the event log; the operator's redactions are kept
    apart from the log and applied again afterwards. *)

From S2P Require Import Prelude Core Envelope Store Projector EventLog Frame Scenario Chain Replay Service Graph.

(** Transactions of the service layer; the [?] conversions of the two lower
    layers' errors. *)
Abbreviation txg := (stm db GraphError).
Definition g_storage {A} (m : tx A) : txg A := λ d, map_err GStorage (m d).
Definition g_events {A} (m : txe A) : txg A := λ d, map_err GEvents (m d).

Section rebuild.
Context `{P : Platform} `{C : Codec} `{U : GraphPlatform}.

(** ** [redaction.rs]

    The clock is read when the transaction starts; the source reads it just
    before the last statement. *)

Definition redact_evidence_tx (id : hash32) (reason : option string) (t : Z) : txg () :=
  already ← g_storage (redactions_exists id);
  if already : bool then throw (AlreadyRedacted id)
  else
    updated ← g_storage (assertions_redact_evidence id);
    if negb updated then throw (GNotFound ("evidence " +:+ to_hex id))
    else g_storage (redactions_insert id t reason).

Definition redact_actor_tx (id : hash32) (reason : option string) (t : Z) : txg () :=
  already ← g_storage (actor_redactions_exists id);
  if already : bool then throw (ActorAlreadyRedacted id)
  else
    updated ← g_storage (actors_redact_identity_uri id);
    if negb updated then throw (GNotFound ("actor " +:+ to_hex id))
    else g_storage (actor_redactions_insert id t reason).

Section service.
Context (clock : nat → Z).
Abbreviation svc := (ste service GraphError).

Definition redact_evidence (auth : AuthContext) (id : hash32) (reason : option string) : svc () :=
  _ ← of_result (require auth Admin);
  _ ← of_result (check_opt_len "reason" reason MAX_REASON_LEN);
  t ← now clock;
  transact (λ e, e) (atomically (redact_evidence_tx id reason t)).
Definition redact_actor_identity_uri (auth : AuthContext) (id : hash32) (reason : option string) :
    svc () :=
  _ ← of_result (require auth Admin);
  _ ← of_result (check_opt_len "reason" reason MAX_REASON_LEN);
  t ← now clock;
  transact (λ e, e) (atomically (redact_actor_tx id reason t)).
Definition suppress_node_from_search (auth : AuthContext) (node : hash32) : svc () :=
  _ ← of_result (require auth Admin);
  t ← now clock;
  transact GStorage (atomically (suppress node t)).
Definition unsuppress_node_from_search (auth : AuthContext) (node : hash32) : svc () :=
  _ ← of_result (require auth Admin);
  transact GStorage (atomically (unsuppress node)).
End service.

(** ** [rebuild.rs] *)

Record RebuildSummary := {
  events_replayed : nat; redactions_reapplied : nat; actor_redactions_reapplied : nat }.

(** The tombstones are read in key order; they are independent of each other. *)
Definition rebuild_tx : txg RebuildSummary :=
  _ ← g_storage clear_projection_tables;
  all_events ← g_storage list_all_in_insertion_order;
  _ ← g_events (for_each replay_row all_events);
  outstanding ← gets (λ d, (map_to_list (redactions (ops d))).*1);
  _ ← g_storage (for_each (λ id, _ ← assertions_redact_evidence id; mret ()) outstanding);
  outstanding_actors ← gets (λ d, (map_to_list (actor_redactions (ops d))).*1);
  _ ← g_storage (for_each (λ id, _ ← actors_redact_identity_uri id; mret ()) outstanding_actors);
  mret {| events_replayed := length all_events; redactions_reapplied := length outstanding;
          actor_redactions_reapplied := length outstanding_actors |}.

Definition rebuild_projection (d : db) : result GraphError RebuildSummary * db :=
  atomically rebuild_tx d.

(** ** Replaying over the full log *)

Lemma replay_row_rest e : keeps rest (replay_row e).
Proof.
  unfold replay_row. apply keeps_bind; [apply keeps_lift|intros].
  apply keeps_bind; [apply project_rest|intros; apply keeps_ret].
Qed.

Lemma replay_full extra rows : ∀ d0 d0' dd,
  replay rows d0 = Some d0' → proj dd = proj d0 →
  event_refs (log dd) = event_refs (log d0) ∪ extra →
  Forall (λ e, has_event (er_event_id e) dd = true) rows →
  ∃ dd', for_each replay_row rows dd = Ok ((), dd') ∧ proj dd' = proj d0' ∧
         event_refs (log dd') = event_refs (log d0') ∪ extra ∧ rest dd' = rest dd.
Proof.
  induction rows as [|e rows IH]; intros d0 d0' dd Hrep Hp Hr Hall; cbn in Hrep |- *.
  { injection Hrep as <-. by exists dd. }
  destruct (replay_row e (append_event e d0)) as [[[] d1]|] eqn:Hrow; [|done].
  apply Forall_cons in Hall as [He Hall].
  assert (alike (er_event_id e) ∅ ∅ extra (append_event e d0) dd) as Hal.
  { split; [by rewrite scrub_empty|exact Hr|apply has_event_append|exact He|set_solver]. }
  destruct (respects_run _ _ _ _ _ _
    (replay_row_alike _ ∅ ∅ extra (not_elem_of_empty _) e eq_refl) Hal Hrow) as (dd1 & Hdd & Hal1).
  pose proof (replay_row_rest e _ _ _ Hdd) as Hrest.
  destruct (IH d1 d0' dd1 Hrep) as (dd' & Hfe & H1 & H2 & H3).
  - by rewrite (alike_proj _ _ _ _ _ _ Hal1), scrub_empty.
  - apply Hal1.
  - eapply Forall_impl; [exact Hall|]. intros x Hx. unfold has_event in *.
    injection Hrest as -> _ _ _. done.
  - exists dd'. split_and!; [|exact H1|exact H2|by rewrite H3].
    by erewrite stm_bind_run by exact Hdd.
Qed.

(** ** Reapplying the redactions *)

Lemma rest_on_proj f d : rest (on_proj f d) = rest d.
Proof. done. Qed.

Lemma redact_all ids : ∀ ev ac p d,
  proj d = scrub ev ac p →
  ∃ d', for_each (λ id, _ ← assertions_redact_evidence id; mret ()) ids d = Ok ((), d') ∧
        proj d' = scrub (list_to_set ids ∪ ev) ac p ∧ log d' = log d ∧ rest d' = rest d.
Proof.
  induction ids as [|id ids IH]; intros ev ac p d Hp; cbn [for_each list_to_set].
  { exists d. by rewrite union_empty_l_L. }
  assert (∃ d1 b, assertions_redact_evidence id d = Ok (b, d1) ∧
    proj d1 = scrub ({[id]} ∪ ev) ac p ∧ log d1 = log d ∧ rest d1 = rest d) as (d1 & b & H1 & Hp1 & Hl & Hr).
  { unfold assertions_redact_evidence, update_row. cbv [mbind stm_bind get mret stm_ret modify].
    destruct (evidence (proj d) !! id) as [r|] eqn:Hrow; do 2 eexists; (split; [reflexivity|]).
    - split; [|done]. unfold on_proj. cbn. rewrite Hp. unfold scrub at 1 2, on_evidence. cbn.
      rewrite Hp in Hrow. cbn in Hrow. by rewrite <-scrub_map_union.
    - split; [|done]. rewrite Hp in Hrow |- *. cbn in Hrow.
      unfold scrub, on_evidence. cbn. by rewrite scrub_map_missing. }
  destruct (IH _ _ _ d1 Hp1) as (d' & Hd' & Hp' & Hl' & Hr').
  exists d'. split_and!; [|rewrite Hp'; f_equal; set_solver|congruence..].
  erewrite stm_bind_run; [exact Hd'|]. by erewrite stm_bind_run by exact H1.
Qed.

Lemma redact_all_actors ids : ∀ ev ac p d,
  proj d = scrub ev ac p →
  ∃ d', for_each (λ id, _ ← actors_redact_identity_uri id; mret ()) ids d = Ok ((), d') ∧
        proj d' = scrub ev (list_to_set ids ∪ ac) p ∧ log d' = log d ∧ rest d' = rest d.
Proof.
  induction ids as [|id ids IH]; intros ev ac p d Hp; cbn [for_each list_to_set].
  { exists d. by rewrite union_empty_l_L. }
  assert (∃ d1 b, actors_redact_identity_uri id d = Ok (b, d1) ∧
    proj d1 = scrub ev ({[id]} ∪ ac) p ∧ log d1 = log d ∧ rest d1 = rest d) as (d1 & b & H1 & Hp1 & Hl & Hr).
  { unfold actors_redact_identity_uri, update_row. cbv [mbind stm_bind get mret stm_ret modify].
    destruct (actors (proj d) !! id) as [r|] eqn:Hrow; do 2 eexists; (split; [reflexivity|]).
    - split; [|done]. unfold on_proj. cbn. rewrite Hp. unfold scrub, on_evidence, on_actors. cbn.
      rewrite Hp in Hrow. cbn in Hrow. by rewrite <-scrub_map_union.
    - split; [|done]. rewrite Hp in Hrow |- *. cbn in Hrow.
      unfold scrub, on_evidence, on_actors. cbn. by rewrite scrub_map_missing. }
  destruct (IH _ _ _ d1 Hp1) as (d' & Hd' & Hp' & Hl' & Hr').
  exists d'. split_and!; [|rewrite Hp'; f_equal; set_solver|congruence..].
  erewrite stm_bind_run; [exact Hd'|]. by erewrite stm_bind_run by exact H1.
Qed.
End rebuild.

(** ** Reachable databases *)

Section reachable.
Context `{P : Platform} `{C : Codec} `{U : GraphPlatform}.

(** What a running peer does to its database: commits and ingestions of events
    that canonical JSON represents exactly, operator decisions, rebuilds, and
    whatever the network layer writes to the peer tables. *)
Inductive db_step (d : db) : db → Prop :=
  | step_commit sk p t :
      (∀ signed id, build_and_sign sk (Z.of_nat (length (chain_of (identity_peer_id sk) d)) + 1)
         (last (chain_of (identity_peer_id sk) d)) t p = Ok (signed, id) → faithful signed) →
      db_step d (commit_local_event sk p t d).2
  | step_ingest key signed received :
      is_u64 (sequence (unsigned signed)) → faithful signed →
      (∀ id o prev, check_envelope key signed = Ok (id, o, prev) →
         collision_free d id o (sequence (unsigned signed))) →
      db_step d (ingest_remote_event key signed received d).2
  | step_redact_evidence id reason t : db_step d (atomically (redact_evidence_tx id reason t) d).2
  | step_redact_actor id reason t : db_step d (atomically (redact_actor_tx id reason t) d).2
  | step_suppress node t : db_step d (atomically (suppress node t) d).2
  | step_unsuppress node : db_step d (atomically (unsuppress node) d).2
  | step_peers f : db_step d (on_net f d)
  | step_rebuild : db_step d (rebuild_projection d).2.

Inductive reachable : db → Prop :=
  | reachable_empty : reachable empty_db
  | reachable_step d d' : reachable d → small d → db_step d d' → reachable d'.

(** *** Rebuilding *)

Lemma rebuild_restores d :
  restores d →
  rebuild_projection d =
    (Ok {| events_replayed := length (events (log d));
           redactions_reapplied := size (redactions (ops d));
           actor_redactions_reapplied := size (actor_redactions (ops d)) |}, d).
Proof.
  intros (d0 & Hrep & Hp & Hr & Hred & Hact). unfold rebuild_projection, atomically, rebuild_tx.
  set (dc := on_proj (λ _, empty_projection) d).
  rewrite (stm_bind_run _ _ d () dc)
    by (unfold g_storage; by rewrite clear_projection_tables_ok).
  erewrite stm_bind_run by reflexivity. cbn [log dc on_proj].
  destruct (replay_full (event_refs (log d)) (events (log d)) empty_db d0 dc Hrep)
    as (d1 & Hd1 & Hp1 & Hr1 & Hrest1).
  { done. } { cbn. set_solver. }
  { apply Forall_forall. intros e He. unfold has_event. cbn. apply existsb_exists.
    exists e. by rewrite bool_decide_true, <-list_elem_of_In. }
  rewrite (stm_bind_run _ _ dc () d1) by (unfold g_events; by rewrite Hd1).
  assert (ops d1 = ops d) as Hops1 by (by injection Hrest1).
  erewrite stm_bind_run by reflexivity. rewrite Hops1.
  destruct (redact_all ((map_to_list (redactions (ops d))).*1) ∅ ∅ (proj d0) d1)
    as (d2 & Hd2 & Hp2 & Hl2 & Hrest2); [by rewrite scrub_empty|].
  rewrite (stm_bind_run _ _ d1 () d2) by (unfold g_storage; by rewrite Hd2).
  assert (ops d2 = ops d) as Hops2 by (rewrite <-Hops1; by injection Hrest2).
  erewrite stm_bind_run by reflexivity. rewrite Hops2.
  destruct (redact_all_actors ((map_to_list (actor_redactions (ops d))).*1) _ ∅ (proj d0) d2 Hp2)
    as (d3 & Hd3 & Hp3 & Hl3 & Hrest3).
  rewrite (stm_bind_run _ _ d2 () d3) by (unfold g_storage; by rewrite Hd3).
  cbn [mret stm_ret]. rewrite !length_fmap. unfold mret, stm_ret.
  assert (∀ {A} (m : gmap hash32 A),
    list_to_set (map_to_list m).*1 ∪ ∅ = (dom m : gset hash32)) as Hdom.
  { intros A m. rewrite union_empty_r_L. apply set_eq. intros k.
    rewrite elem_of_list_to_set, list_elem_of_fmap, elem_of_dom. split.
    - intros ([k' v] & -> & Hin%elem_of_map_to_list). by exists v.
    - intros [v Hv]. exists (k, v). by rewrite elem_of_map_to_list. }
  rewrite !Hdom in Hp3.
  replace d3 with d; [by rewrite !length_map_to_list|].
  assert (event_refs (log d3) = event_refs (log d)) as Hrefs.
  { rewrite Hl3, Hl2, Hr1, Hr. set_solver. }
  unfold rest in Hrest1, Hrest2, Hrest3.
  destruct d as [[? ? ?] ? ? ?], d3 as [[? ? ?] ? ? ?]. cbn in *.
  injection Hrest1 as He1 Ho1 Hn1 Hs1. injection Hrest2 as He2 Ho2 Hn2 Hs2.
  injection Hrest3 as He3 Ho3 Hn3 Hs3.
  unfold redacted_events, redacted_actors in Hp. cbn in Hp.
  f_equal; [f_equal|..]; congruence.
Qed.

(** *** The invariant *)

Lemma redact_evidence_inv id reason t d u d' :
  redact_evidence_tx id reason t d = Ok (u, d') →
  ∃ r, evidence (proj d) !! id = Some r ∧ has_event id d = true ∧
       redactions (ops d) !! id = None ∧
       d' = on_ops (on_redactions <[id := (t, reason)]>)
              (on_proj (on_evidence <[id := redacted_evidence r]>) d).
Proof.
  unfold redact_evidence_tx, g_storage, redactions_exists, assertions_redact_evidence,
    redactions_insert, update_row, insert_into, has. cbv [mbind stm_bind get gets mret stm_ret modify].
  cbn. case_bool_decide as Hno; [done|].
  destruct (evidence (proj d) !! id) as [r|]; cbn; [|done].
  rewrite bool_decide_false by done. cbn.
  destruct (has_event id _) eqn:He; cbn; [|done].
  intros [= _ <-]. exists r. split_and!; try done. by apply eq_None_not_Some.
Qed.

Lemma redact_actor_inv id reason t d u d' :
  redact_actor_tx id reason t d = Ok (u, d') →
  ∃ r, actors (proj d) !! id = Some r ∧
       d' = on_ops (on_actor_redactions <[id := (t, reason)]>)
              (on_proj (on_actors <[id := redacted_actor r]>) d).
Proof.
  unfold redact_actor_tx, g_storage, actor_redactions_exists, actors_redact_identity_uri,
    actor_redactions_insert, update_row, insert_into, has.
  cbv [mbind stm_bind get gets mret stm_ret modify].
  cbn. case_bool_decide as Hno; [done|].
  destruct (actors (proj d) !! id) as [r|]; cbn; [|done].
  rewrite bool_decide_false by done. cbn. intros [= _ <-]. by exists r.
Qed.

Lemma restores_redact_evidence id reason t d :
  restores d → restores (atomically (redact_evidence_tx id reason t) d).2.
Proof.
  intros Hd. destruct (atomically _ d) as [[u|e] d'] eqn:Hrun;
    [|by apply atomically_err in Hrun as ->].
  apply atomically_ok, redact_evidence_inv in Hrun as (r & Hr & He & Hno & ->).
  destruct Hd as (d0 & Hrep & Hp & Hrf & Hred & Hact). exists d0.
  unfold redacted_events, redacted_actors in *. cbn. rewrite dom_insert_L. split_and!; try done.
  - rewrite Hp in Hr |- *. unfold scrub, on_evidence. cbn. cbn in Hr.
    by rewrite <-scrub_map_union.
  - intros i [->%elem_of_singleton|Hi]%elem_of_union; [|by apply Hred].
    unfold has_event in He. apply existsb_exists in He as (x & Hx & Heq).
    apply bool_decide_eq_true in Heq as <-. apply list_elem_of_fmap_2, list_elem_of_In, Hx.
Qed.

Lemma restores_redact_actor id reason t d :
  restores d → restores (atomically (redact_actor_tx id reason t) d).2.
Proof.
  intros Hd. destruct (atomically _ d) as [[u|e] d'] eqn:Hrun;
    [|by apply atomically_err in Hrun as ->].
  apply atomically_ok, redact_actor_inv in Hrun as (r & Hr & ->).
  destruct Hd as (d0 & Hrep & Hp & Hrf & Hred & Hact). exists d0.
  unfold redacted_events, redacted_actors in *. cbn. rewrite dom_insert_L. split_and!; try done.
  - rewrite Hp in Hr |- *. unfold scrub, on_evidence, on_actors. cbn. cbn in Hr.
    by rewrite <-scrub_map_union.
  - intros a [->%elem_of_singleton|Ha]%elem_of_union; [|by apply Hact].
    rewrite Hp in Hr. cbn in Hr. rewrite scrub_map_lookup in Hr.
    destruct (actors (proj d0) !! id); [by eexists|done].
Qed.

Lemma reachable_inv d : reachable d → chained d ∧ restores d.
Proof.
  induction 1 as [|d d' _ [Hc Hr] Hs Hstep]; [split; [apply chained_empty|apply restores_empty]|].
  destruct Hstep as [sk p t Hf|key signed received Hu Hf Hcol|id reason t|id reason t|node t|node
    |f|].
  - split; [by apply commit_chained|].
    destruct (commit_cases sk p t d Hc Hs) as [[e ->]|(signed & e & out & d' & -> & Hb & Hcan & _
      & _ & _ & _ & Hfr & Har)]; [done|].
    eapply restores_apply; [done..|eapply Hf; [exact Hb|exact Hcan]| |exact Har].
    by rewrite (build_and_sign_fields _ _ _ _ _ _ _ Hb).
  - split; [by apply ingest_chained|].
    destruct (check_envelope key signed) as [[[id o] prev]|e] eqn:Hck;
      [|unfold ingest_remote_event; by rewrite Hck].
    specialize (Hcol _ _ _ eq_refl).
    pose proof (ingest_cases _ _ received _ _ _ _ Hc Hs Hu Hck Hcol) as H.
    destruct (ingest_remote_event key signed received d) as [r d']. cbn [snd]. unfold ingested in H.
    destruct (offer _ _ _ _) as [|x|n|h|] eqn:Hof.
    + by destruct H as [_ ->].
    + destruct (signed_to_string signed); [|by destruct H as [_ ->]].
      destruct H as (_ & Hl & Hp & Ho & _). eapply restores_frame; [..|exact Hr]; congruence.
    + by destruct H as [_ ->].
    + by destruct H as [_ ->].
    + destruct H as (e & <- & _ & _ & _ & _ & Hcan & H).
      destruct (fresh_next _ _ _ _ _ Hc Hs Hcol Hof) as (_ & _ & Hfr).
      destruct (apply_row e _ d) as [[out d1]|] eqn:Har; destruct H as [_ ->]; [|done].
      by eapply restores_apply; [..|exact Har]; [| |apply Hf|].
  - split; [|by apply restores_redact_evidence]. eapply log_chained; [|exact Hc].
    destruct (atomically _ d) as [[u|e] d'] eqn:Hrun; [|by apply atomically_err in Hrun as ->].
    by apply atomically_ok, redact_evidence_inv in Hrun as (r & _ & _ & _ & ->).
  - split; [|by apply restores_redact_actor]. eapply log_chained; [|exact Hc].
    destruct (atomically _ d) as [[u|e] d'] eqn:Hrun; [|by apply atomically_err in Hrun as ->].
    by apply atomically_ok, redact_actor_inv in Hrun as (r & _ & ->).
  - unfold suppress, insert_or_ignore, atomically. cbv [mbind stm_bind get mret stm_ret modify].
    destruct (has _ _); cbn; [by split|]. split; [by apply (log_chained d)|by apply (restores_frame d)].
  - unfold unsuppress, atomically, modify. cbn.
    split; [by apply (log_chained d)|by apply (restores_frame d)].
  - split; [by apply (log_chained d)|by apply (restores_frame d)].
  - by rewrite rebuild_restores.
Qed.

(** Committing one event that canonical JSON represents exactly. *)
Lemma commit_reachable sk p t d e i :
  reachable d → small d →
  build_and_sign sk (Z.of_nat (length (chain_of (identity_peer_id sk) d)) + 1)
    (last (chain_of (identity_peer_id sk) d)) t p = Ok (e, i) →
  faithful e → reachable (commit_local_event sk p t d).2.
Proof.
  intros Hd Hs Hb Hf. eapply reachable_step; [exact Hd|exact Hs|].
  apply step_commit. intros signed i' Hb'. rewrite Hb in Hb'. by injection Hb' as <- _.
Qed.
End reachable.

(** ** Properties *)

Section properties.
Context `{P : Platform} `{C : Codec} `{U : GraphPlatform}.

(** C10: Rebuilding is the identity: on every reachable database, wiping the graph
    tables, replaying the whole event log and reapplying the redactions
    succeeds and restores the database exactly - every table, the references,
    and none of the redacted text - and reports what it replayed. *)
Theorem rebuild_is_identity d :
  reachable d →
  rebuild_projection d =
    (Ok {| events_replayed := length (events (log d));
           redactions_reapplied := size (redactions (ops d));
           actor_redactions_reapplied := size (actor_redactions (ops d)) |}, d).
Proof. intros Hd. by apply rebuild_restores, reachable_inv. Qed.

(** C11: In every reachable database each origin's events form one chain: sequence
    numbers 1, 2, 3, ... in the order of insertion, each event naming its
    predecessor, the recorded head being the last; no two rows share an id. *)
Theorem reachable_chained d : reachable d → chained d.
Proof. intros Hd. by apply reachable_inv. Qed.

(** C12: Redaction is permanent: whatever happens after an operator redacted a
    piece of evidence or an actor - further events, a rebuild - the title and
    excerpt, or the identity URI, stay blank in the tables. *)
Theorem redaction_is_permanent d :
  reachable d →
  (∀ id r, is_Some (redactions (ops d) !! id) → evidence (proj d) !! id = Some r →
     ev_title r = None ∧ ev_excerpt r = None) ∧
  (∀ id r, is_Some (actor_redactions (ops d) !! id) → actors (proj d) !! id = Some r →
     at_identity_uri r = None).
Proof.
  intros (_ & d0 & _ & -> & _)%reachable_inv.
  split; intros id r Hin%elem_of_dom; cbn; rewrite scrub_map_lookup;
    (destruct (_ !! id); [|done]); cbn; rewrite decide_True by done; by intros [= <-].
Qed.
End properties.

(** ** Witnesses *)

Section witnesses.
#[local] Existing Instance Toy.platform.
#[local] Existing Instance demo_codec.
Context `{U : GraphPlatform}.

(** Alice commits three events and then redacts the evidence. *)
Definition asserted_db : db := (commit_local_event alice (assert_p writer "implements") 101 declared_db).2.
Definition evidenced_db : db := (commit_local_event alice (evidence_p (id_of e2)) 102 asserted_db).2.
Definition redacted_db : db := (atomically (redact_evidence_tx (id_of e3) None 200) evidenced_db).2.

Lemma faithful_demo e : signed_from_slice (ToyCodec.signed_text e) = Ok e → faithful e.
Proof. by intros H t [= <-]. Qed.
Lemma declared_reachable : reachable declared_db.
Proof.
  apply (commit_reachable (P:=Toy.platform) alice declare_p 100 empty_db (event_of e1) (id_of e1)).
  - apply reachable_empty.
  - done.
  - vm_compute. reflexivity.
  - apply faithful_demo. vm_compute. reflexivity.
Qed.
Lemma asserted_reachable : reachable asserted_db.
Proof.
  apply (commit_reachable (P:=Toy.platform) alice (assert_p writer "implements") 101 declared_db (event_of e2) (id_of e2)).
  - apply declared_reachable.
  - exact declared_small.
  - vm_compute. reflexivity.
  - apply faithful_demo. vm_compute. reflexivity.
Qed.
Lemma evidenced_reachable : reachable evidenced_db.
Proof.
  apply (commit_reachable (P:=Toy.platform) alice (evidence_p (id_of e2)) 102 asserted_db (event_of e3) (id_of e3)).
  - apply asserted_reachable.
  - vm_compute. reflexivity.
  - vm_compute. reflexivity.
  - apply faithful_demo. vm_compute. reflexivity.
Qed.
Lemma redacted_reachable : reachable redacted_db.
Proof.
  apply (reachable_step evidenced_db).
  - apply evidenced_reachable.
  - vm_compute. reflexivity.
  - apply step_redact_evidence.
Qed.
Lemma redacted_tombstone : redactions (ops redacted_db) !! id_of e3 = Some (200%Z, None).
Proof. vm_compute. reflexivity. Qed.

Lemma rebuild_is_identity_witness :
  rebuild_projection redacted_db =
    (Ok {| events_replayed := 3; redactions_reapplied := 1; actor_redactions_reapplied := 0 |},
     redacted_db).
Proof.
  rewrite (rebuild_is_identity redacted_db redacted_reachable).
  assert (length (events (log redacted_db)) = 3) as -> by (vm_compute; reflexivity).
  assert (size (redactions (ops redacted_db)) = 1) as -> by (vm_compute; reflexivity).
  assert (size (actor_redactions (ops redacted_db)) = 0) as -> by (vm_compute; reflexivity).
  reflexivity.
Defined.

Lemma reachable_chained_witness :
  linked 1 None (of_origin (identity_peer_id alice) redacted_db).
Proof.
  exact (chained_links _ (reachable_chained redacted_db redacted_reachable) (identity_peer_id alice)).
Defined.

(** The title that was stored is gone. *)
Lemma redaction_is_permanent_witness :
  (ev_title <$> evidence (proj evidenced_db) !! id_of e3) = Some (Some "title") ∧
  (ev_title <$> evidence (proj redacted_db) !! id_of e3) = Some None.
Proof.
  split; [vm_compute; reflexivity|].
  destruct (redaction_is_permanent redacted_db redacted_reachable) as [H _].
  specialize (H (id_of e3)).
  assert (is_Some (evidence (proj redacted_db) !! id_of e3)) as [r Hr].
  { apply (bool_decide_unpack _). vm_compute. exact I. }
  rewrite Hr. cbn [fmap option_fmap option_map]. f_equal.
  apply (H r); [|exact Hr]. eexists. exact redacted_tombstone.
Defined.
End witnesses.
