(* ===== verification/Versioning.v ===== *)
(** * Schema versions of stored rows

    [oag-storage/src/versioning.rs], the [migrate_to_current] functions of
    the repositories, and the [migrate_*] calls of [oag-graph/src/redaction.rs].
    A row carries the version of its shape; reading it applies the steps that
    lead to the current one ("shim"), and an operator may ask for the stored
    row to be rewritten ("convert perm").  The other files leave the column
    out, because no table has a step yet. *)

From S2P Require Import Prelude Core Envelope Store Graph.

(** ** [versioning.rs] *)

(** A row that knows its version; [store_version] is what
    [UPDATE ... SET schema_version = ?] does to a stored row. *)
Class HasSchemaVersion (T : Type) := {
  schema_version : T → Z;
  store_version : Z → T → T }.

Definition MigrationStep (T : Type) : Type := Z * (T → T).

Class Versioned (T : Type) `{HasSchemaVersion T} := {
  CURRENT_VERSION : Z;
  MIGRATIONS : list (MigrationStep T) }.

Inductive MigrationOutcome :=
  | AlreadyCurrent (version : Z)
  | Migrated (from to : Z).

Section rows.
Context {T : Type} `{HasSchemaVersion T}.

(** One turn of the loop: [None] where the loop returns. *)
Definition next_step (target : Z) (steps : list (MigrationStep T)) (row : T) : option T :=
  if Z.leb target (schema_version row) then None
  else match find (λ s : MigrationStep T, Z.eqb s.1 (schema_version row)) steps with
       | Some s => Some (s.2 row)
       | None => None
       end.

(** [None] when the loop is still running after [fuel] turns. *)
Fixpoint migrate_to_version (fuel : nat) (row : T) (target : Z) (steps : list (MigrationStep T)) :
    option T :=
  match fuel with
  | 0 => None
  | S fuel => match next_step target steps row with
              | Some row => migrate_to_version fuel row target steps
              | None => Some row
              end
  end.

Context `{!Versioned T}.

(** [Versioned::migrate_to_current], what every read applies. *)
Definition to_current (fuel : nat) (row : T) : option T :=
  migrate_to_version fuel row CURRENT_VERSION MIGRATIONS.

(** The body that the five [migrate_to_current] functions of the
    repositories share, on the rows of a table by their primary key. *)
Definition migrate_to_current (fuel : nat) (id : hash32) (table : gmap hash32 T) :
    option (result StorageError MigrationOutcome * gmap hash32 T) :=
  match table !! id with
  | None => Some (Err StorageNotFound, table)
  | Some row =>
      let from := schema_version row in
      if Z.leb CURRENT_VERSION from then Some (Ok (AlreadyCurrent from), table)
      else
        migrated ← to_current fuel row;
        let to := schema_version migrated in
        Some (Ok (Migrated from to), alter (store_version to) id table)
  end.

(** [GraphService::migrate_node] and its four siblings. *)
Definition migrate_artifact (auth : AuthContext) (fuel : nat) (id : hash32)
    (table : gmap hash32 T) : option (result GraphError MigrationOutcome * gmap hash32 T) :=
  match require auth Admin with
  | Err e => Some (Err e, table)
  | Ok _ => '(r, table) ← migrate_to_current fuel id table; Some (map_err GStorage r, table)
  end.
End rows.

(** ** The tables of the store *)

(** A row of [Store] with its [schema_version] column. *)
Record versioned (A : Type) := VersionedRow { content : A; version : Z }.
Arguments VersionedRow {A}.
Arguments content {A}.
Arguments version {A}.

#[export] Instance versioned_has_version {A} : HasSchemaVersion (versioned A) :=
  {| schema_version := version; store_version v r := VersionedRow (content r) v |}.
#[export] Instance NodeRow_versioned : Versioned (versioned node_row) :=
  {| CURRENT_VERSION := 1; MIGRATIONS := [] |}.
#[export] Instance NodeAliasRow_versioned : Versioned (versioned alias_row) :=
  {| CURRENT_VERSION := 1; MIGRATIONS := [] |}.
#[export] Instance EdgeRow_versioned : Versioned (versioned edge_row) :=
  {| CURRENT_VERSION := 1; MIGRATIONS := [] |}.
#[export] Instance AssertionRow_versioned : Versioned (versioned assertion_row) :=
  {| CURRENT_VERSION := 1; MIGRATIONS := [] |}.
#[export] Instance EvidenceRow_versioned : Versioned (versioned evidence_row) :=
  {| CURRENT_VERSION := 1; MIGRATIONS := [] |}.
#[export] Instance ObservationRow_versioned : Versioned (versioned observation_row) :=
  {| CURRENT_VERSION := 1; MIGRATIONS := [] |}.
#[export] Instance DisputeRow_versioned : Versioned (versioned dispute_row) :=
  {| CURRENT_VERSION := 1; MIGRATIONS := [] |}.
#[export] Instance RetractionRow_versioned : Versioned (versioned retraction_row) :=
  {| CURRENT_VERSION := 1; MIGRATIONS := [] |}.
#[export] Instance ActorRow_versioned : Versioned (versioned actor_row) :=
  {| CURRENT_VERSION := 1; MIGRATIONS := [] |}.

(** ** Walking a chain *)

Section chain.
Context {T : Type} `{HasSchemaVersion T} (target : Z) (steps : list (MigrationStep T)).

(** Some step starts at this version. *)
Definition has_step (v : Z) : Prop := v ∈ steps.*1.
(** Where the loop stops. *)
Definition settled (row : T) : Prop := (target <= schema_version row)%Z ∨ ¬ has_step (schema_version row).
(** One turn of the loop, as a relation. *)
Definition turn (row row' : T) : Prop := next_step target steps row = Some row'.
(** Every step that is taken raises the version. *)
Definition ascending : Prop := ∀ row row', turn row row' →
  (schema_version row < schema_version row')%Z.

Lemma next_step_none row : next_step target steps row = None ↔ settled row.
Proof.
  unfold next_step, settled, has_step. destruct (Z.leb_spec target (schema_version row)) as [Hle|Hlt].
  { split; [by left|done]. }
  destruct (find _ steps) as [s|] eqn:Hf.
  - split; [done|]. intros [Hle | Hno]; [lia|]. apply find_some in Hf as [Hin Heq].
    apply Z.eqb_eq in Heq. destruct Hno. rewrite <-Heq. apply list_elem_of_fmap.
    exists s. split; [done|]. by apply list_elem_of_In.
  - split; [|done]. intros _. right. intros (s & Heq & Hin)%list_elem_of_fmap.
    apply list_elem_of_In in Hin. apply (find_none _ _ Hf) in Hin. rewrite Heq, Z.eqb_refl in Hin. done.
Qed.

(** The version before the target bounds the number of turns. *)
Lemma walk_ends : ascending → ∀ fuel row,
  (Z.to_nat (target - schema_version row) < fuel)%nat →
  ∃ row', migrate_to_version fuel row target steps = Some row' ∧ rtc turn row row' ∧ settled row'.
Proof.
  intros Hup fuel. induction fuel as [|fuel IH]; intros row Hf; [lia|]. cbn.
  destruct (next_step target steps row) as [row1|] eqn:Hs.
  - assert (Hlt := Hup _ _ Hs).
    assert (schema_version row < target)%Z.
    { unfold next_step in Hs. by destruct (Z.leb_spec target (schema_version row)). }
    destruct (IH row1) as (row' & Hm & Hr & Hd); [lia|].
    exists row'. split_and!; [done| |done]. by apply rtc_l with row1.
  - exists row. split_and!; [done|apply rtc_refl|by apply next_step_none].
Qed.

(** A step that stays at its version is taken for ever. *)
Lemma walk_stuck row :
  (∀ n row', nsteps turn n row row' → ¬ settled row') →
  ∀ fuel, migrate_to_version fuel row target steps = None.
Proof.
  intros Hstuck fuel. revert row Hstuck. induction fuel as [|fuel IH]; intros row Hstuck; [done|]. cbn.
  destruct (next_step target steps row) as [row1|] eqn:Hs.
  - apply IH. intros n row' Hn. apply (Hstuck (S n)). by apply nsteps_l with row1.
  - exfalso. apply (Hstuck 0 row (nsteps_O _ _)). by apply next_step_none.
Qed.

Lemma walk_settled fuel row : settled row → migrate_to_version (S fuel) row target steps = Some row.
Proof. intros Hd. cbn. by apply next_step_none in Hd as ->. Qed.
Lemma walk_more fuel row row' : migrate_to_version fuel row target steps = Some row' →
  ∀ fuel', (fuel <= fuel')%nat → migrate_to_version fuel' row target steps = Some row'.
Proof.
  revert row. induction fuel as [|fuel IH]; intros row Hm; [done|]. cbn in Hm.
  intros [|fuel'] Hle; [lia|]. cbn.
  destruct (next_step target steps row); [|done]. apply IH; [done|lia].
Qed.
End chain.

(** ** Properties *)

(** Reading a row of today's tables applies no step at all. *)
Definition unchanged_by_reading (A : Type) `{!Versioned (versioned A)} : Prop :=
  ∀ fuel (r : versioned A), to_current (S fuel) r = Some r.
Lemma no_steps_no_change {A} `{!Versioned (versioned A)} :
  MIGRATIONS (T := versioned A) = [] → unchanged_by_reading A.
Proof.
  intros Hnil fuel r. apply walk_settled. right. rewrite Hnil. by intros ?%elem_of_nil.
Qed.

(** Versions of stored rows.  If every step raises the version, reading
    a row ends after at most as many steps as versions are missing, at the
    current version or where the chain has a gap; a step that stays at its
    version makes every read of such a row run for ever.  Rewriting a stored
    row needs the admin permission and an existing row, leaves a current row
    alone, and otherwise stores the new version number - and nothing else: the
    old content is kept under the new number, so that later reads apply no
    step to it, and give what they gave before only if the steps did not
    change the content.  No table has a step today, so all reads return the
    stored row. *)
Theorem conversion_keeps_old_content {A} `{!Versioned (versioned A)} auth fuel id table row
    (Hup : ascending (T := versioned A) CURRENT_VERSION MIGRATIONS)
    (Hfuel : (Z.to_nat (CURRENT_VERSION (T := versioned A) - version row) < fuel)%nat)
    (Hrow : table !! id = Some row) (Hadmin : Admin ∈ auth_permissions auth) :
  (∃ read,
    to_current fuel row = Some read ∧
    rtc (turn CURRENT_VERSION MIGRATIONS) row read ∧ settled CURRENT_VERSION MIGRATIONS read ∧
    let stored := VersionedRow (content row) (version read) in
    migrate_artifact auth fuel id table =
      Some (if Z.leb CURRENT_VERSION (version row) then (Ok (AlreadyCurrent (version row)), table)
            else (Ok (Migrated (version row) (version read)), <[id := stored]> table)) ∧
    to_current fuel stored = Some stored ∧
    (to_current fuel stored = to_current fuel row ↔ content read = content row)) ∧
  (∀ missing, table !! missing = None →
     migrate_artifact auth fuel missing table = Some (Err (GStorage StorageNotFound), table)) ∧
  (∀ other : AuthContext, Admin ∉ auth_permissions other →
     migrate_artifact other fuel id table = Some (Err (PermissionDenied (as_str Admin)), table)) ∧
  (∀ (r : versioned A) target steps f, (version r < target)%Z →
     find (λ s : MigrationStep (versioned A), Z.eqb s.1 (version r)) steps = Some (version r, f) →
     (∀ r', version (f r') = version r') →
     ∀ n, migrate_to_version n r target steps = None) ∧
  unchanged_by_reading node_row ∧ unchanged_by_reading alias_row ∧ unchanged_by_reading edge_row ∧
  unchanged_by_reading assertion_row ∧ unchanged_by_reading evidence_row ∧
  unchanged_by_reading observation_row ∧ unchanged_by_reading dispute_row ∧
  unchanged_by_reading retraction_row ∧ unchanged_by_reading actor_row.
Proof.
  split_and!; try by apply no_steps_no_change.
  - destruct (walk_ends _ _ Hup fuel row Hfuel) as (read & Hread & Hwalk & Hset).
    exists read. destruct fuel as [|fuel]; [lia|].
    assert (Hst : to_current (S fuel) (VersionedRow (content row) (version read)) =
      Some (VersionedRow (content row) (version read))) by (by apply walk_settled).
    split; [done|]. split; [done|]. split; [done|]. cbv zeta. split; [|split; [done|]].
    + unfold migrate_artifact, require. rewrite (bool_decide_true _ Hadmin). cbn [orb].
      unfold migrate_to_current. rewrite Hrow. cbn [schema_version versioned_has_version].
      destruct (Z.leb _ _); [done|]. change (to_current (S fuel) row = Some read) in Hread.
      rewrite Hread. cbn. do 2 f_equal. apply map_eq. intros k.
      destruct (decide (k = id)) as [-> | Hk].
      * by rewrite lookup_alter_eq, lookup_insert_eq, Hrow.
      * by rewrite lookup_alter_ne, lookup_insert_ne.
    + rewrite Hst. change (to_current (S fuel) row = Some read) in Hread. rewrite Hread.
      destruct read as [c v]. cbn. split; [by intros [= ->]|by intros ->].
  - intros missing Hmiss. unfold migrate_artifact, require, migrate_to_current.
    by rewrite (bool_decide_true _ Hadmin), Hmiss.
  - intros other Hno. unfold migrate_artifact, require. by rewrite (bool_decide_false _ Hno).
  - intros r target steps f Hlt Hf Hkeep n. apply walk_stuck. intros k r' Hk.
    assert (Hv : version r' = version r).
    { assert (∀ k a b, nsteps (turn target steps) k a b → version a = version r → version b = version r) as Hall.
      { clear k r' Hk. intros k a b Hk. induction Hk as [|k a b c Hab Hbc IH]; [done|].
        intros Ha. apply IH. unfold turn, next_step in Hab.
        destruct (Z.leb _ _); [done|]. cbn in Hab. rewrite Ha, Hf in Hab. injection Hab as <-. cbn.
        by rewrite Hkeep. }
      by eapply Hall. }
    apply find_some in Hf as [Hin _].
    intros [Hle | Hnone]; cbn in *; rewrite Hv in *; [lia|].
    destruct Hnone. apply list_elem_of_fmap. exists (version r, f). split; [done|].
    by apply list_elem_of_In.
Qed.

(** ** An example: the chain of the code's own test *)

Module Sample.
Definition row_id : hash32 := Toy.hash "row".
Definition steps : list (MigrationStep (versioned Z)) :=
  [(1, λ r, VersionedRow (content r * 10) 2); (2, λ r, VersionedRow (content r + 1) 3)]%Z.
Definition chain : Versioned (versioned Z) := {| CURRENT_VERSION := 3; MIGRATIONS := steps |}.
Definition admin : AuthContext := {| auth_actor_id := row_id; auth_permissions := [Admin] |}.
Definition table : gmap hash32 (versioned Z) := {[ row_id := VersionedRow 4%Z 1%Z ]}.

Example every_step_in_order :
  @to_current _ _ chain 3 (VersionedRow 4%Z 1%Z) = Some (VersionedRow 41%Z 3%Z).
Proof. reflexivity. Qed.
Example missing_step_stops : @to_current _ _ chain 3 (VersionedRow 9%Z 0%Z) = Some (VersionedRow 9%Z 0%Z).
Proof. reflexivity. Qed.
Lemma steps_ascend : @ascending _ _ 3 steps.
Proof.
  intros [c v] row'. unfold turn, next_step. cbn -[Z.eqb Z.leb].
  destruct (Z.leb 3 v) eqn:?; [done|]. destruct (Z.eqb_spec 1 v) as [<- |]; [intros [= <-]; cbn; lia|].
  destruct (Z.eqb_spec 2 v) as [<- |]; [intros [= <-]; cbn; lia|done].
Qed.
End Sample.

(** After "convert perm" the row reads 4, where it read 41 before. *)
Lemma conversion_keeps_old_content_witness :
  @to_current _ _ Sample.chain 3 (VersionedRow 4%Z 1%Z) = Some (VersionedRow 41%Z 3%Z) ∧
  @to_current _ _ Sample.chain 3 (VersionedRow 4%Z 3%Z) = Some (VersionedRow 4%Z 3%Z) ∧
  @migrate_artifact _ _ Sample.chain Sample.admin 3 Sample.row_id Sample.table =
    Some (Ok (Migrated 1 3), <[Sample.row_id := VersionedRow 4%Z 3%Z]> Sample.table).
Proof.
  destruct (@conversion_keeps_old_content Z Sample.chain Sample.admin 3 Sample.row_id Sample.table
    (VersionedRow 4%Z 1%Z) Sample.steps_ascend ltac:(cbn; lia) (lookup_insert_eq _ _ _)
    ltac:(by apply list_elem_of_here)) as [(read & Hread & _ & _ & Hm & Hst & _) _].
  assert (read = VersionedRow 41%Z 3%Z) as -> by (apply (f_equal (default read)) in Hread; exact (eq_sym Hread)).
  split; [exact Hread|split; [exact Hst|exact Hm]].
Defined.
