(* ===== verification/Typing.v ===== *)
(** * The tables are well-typed

    SQLite enforces neither the vocabularies of the text columns nor - in the
    tables as the repository functions read them - that what they parse was
    once written by them.  Here is what a well-typed table is and that every
    projection keeps it so: rows parse back, refer only to rows that exist, and
    nodes and edges have the identifiers their content determines.  [Reads.v]
    concludes that reading never fails. *)

From S2P Require Import Prelude Core Envelope Store Projector EventLog Frame Scenario Chain Replay Service Graph Rebuild.

(** ** A state property that every successful run keeps *)

Definition preserves {S E A} (I : S → Prop) (m : stm S E A) : Prop :=
  ∀ s a s', I s → m s = Ok (a, s') → I s'.

Section preserves.
Context {S E : Type} (I : S → Prop).
Lemma preserves_bind {A B} (m : stm S E A) (k : A → stm S E B) :
  preserves I m → (∀ a, preserves I (k a)) → preserves I (m ≫= k).
Proof. intros Hm Hk s b s'' Hs (a & s' & H1 & H2)%stm_bind_ok. eapply Hk, H2. by eapply Hm. Qed.
Lemma preserves_keeps {A} (m : stm S E A) : keeps id m → preserves I m.
Proof. intros Hm s a s' Hs H%Hm. cbn in H. by subst. Qed.
Lemma preserves_lift_bind {A B} (r : result E A) (k : A → stm S E B) :
  (∀ a, r = Ok a → preserves I (k a)) → preserves I (lift r ≫= k).
Proof.
  intros Hk s b s' Hs (a & s1 & H1 & H2)%stm_bind_ok. unfold lift in H1.
  destruct r as [x|]; [|done]. injection H1 as <- <-. by eapply (Hk x).
Qed.
(** The state read is the state the continuation starts from. *)
Lemma preserves_get_bind {A} (k : S → stm S E A) :
  (∀ s a s', I s → k s s = Ok (a, s') → I s') → preserves I (get ≫= k).
Proof. intros Hk s a s' Hs H. by eapply Hk. Qed.
End preserves.
Create HintDb preserves.
#[export] Hint Extern 1 (preserves _ (mret _)) => apply preserves_keeps, keeps_ret : preserves.
#[export] Hint Extern 1 (preserves _ (throw _)) => apply preserves_keeps, keeps_throw : preserves.
#[export] Hint Extern 1 (preserves _ (lift _)) => apply preserves_keeps, keeps_lift : preserves.

Lemma preserves_storage {A} I (m : tx A) : preserves I m → preserves I (storage m).
Proof. intros Hm d a d' Hd H. unfold storage in H. apply map_err_ok in H. by eapply Hm. Qed.
#[export] Hint Resolve preserves_storage : preserves.

Lemma insert_into_ok t free fk f d u d' :
  insert_into t free fk f d = Ok (u, d') → free = true ∧ fk = true ∧ d' = f d.
Proof. unfold insert_into. destruct free, fk; cbn; try done. by intros [= _ <-]. Qed.
Lemma insert_or_ignore_ok t free fk f d b d' :
  insert_or_ignore t free fk f d = Ok (b, d') → d' = d ∨ (free = true ∧ fk = true ∧ d' = f d).
Proof.
  unfold insert_or_ignore. destruct free, fk; cbn; cbv [mbind stm_bind modify mret stm_ret throw].
  all: try done. all: intros [= _ <-]; auto.
Qed.
Lemma update_row_ok {A} (r : option A) f d b d' :
  update_row r f d = Ok (b, d') → d' = d ∨ ∃ x, r = Some x ∧ d' = f x d.
Proof.
  unfold update_row. destruct r; cbv [mbind stm_bind modify mret stm_ret]; intros [= _ <-]; eauto.
Qed.

(** ** The typing of the tables *)

Section typing.
Context `{P : Platform} `{C : Codec}.

Definition parses {A} `{TextEnum A} (s : string) : Prop := is_Some (parse s : option A).

Lemma parses_as_str `{TextEnum A} (a : A) : parses (A:=A) (as_str a).
Proof. eexists. apply parse_as_str. Qed.

Record typed (p : projection) : Prop := {
  typed_nodes : map_Forall (λ id r,
    id = NodeId_from_canonical_identifier (nr_canonical_identifier r) ∧
    is_ok (row_to_node id r) = true) (nodes p);
  typed_aliases : map_Forall (λ k r,
    is_Some (nodes p !! k.1) ∧ parses (A:=AliasType) (al_alias_type r)) (node_aliases p);
  typed_edges : map_Forall (λ id r,
    id = EdgeId_from_triple (ed_subject r) (ed_predicate r) (ed_object r) ∧
    is_Some (nodes p !! ed_subject r) ∧ is_Some (nodes p !! ed_object r)) (edges p);
  typed_actors : map_Forall (λ id r, is_ok (row_to_actor id r) = true) (actors p);
  typed_keys : map_Forall (λ _ r,
    is_Some (actors p !! kr_actor r) ∧ is_ok (strings_from_str (kr_permissions r)) = true) (actor_keys p);
  typed_assertions : map_Forall (λ id r,
    is_Some (edges p !! as_edge_id r) ∧ is_Some (actors p !! as_actor_id r) ∧
    is_ok (row_to_assertion id r) = true) (assertions p);
  typed_evidence : map_Forall (λ _ r,
    is_Some (assertions p !! ev_assertion_id r) ∧ parses (A:=EvidenceType) (ev_evidence_type r)) (evidence p);
  typed_observations : map_Forall (λ _ r,
    is_Some (assertions p !! ob_assertion_id r) ∧ is_Some (actors p !! ob_observer r)) (observations p);
  typed_disputes : map_Forall (λ _ r,
    is_Some (assertions p !! di_assertion_id r) ∧ is_Some (actors p !! di_actor_id r)) (assertion_disputes p);
  typed_retractions : map_Forall (λ _ r,
    is_Some (assertions p !! re_assertion_id r) ∧ is_Some (actors p !! re_actor_id r)) (assertion_retractions p);
  typed_supersessions : map_Forall (λ _ r,
    is_Some (assertions p !! su_old r) ∧ is_Some (assertions p !! su_new r) ∧
    is_Some (actors p !! su_actor_id r)) (assertion_supersessions p) }.

Lemma typed_empty : typed empty_projection.
Proof. split; apply map_Forall_empty. Qed.

Lemma is_Some_insert {K A} `{Countable K} (m : gmap K A) i k x :
  is_Some (m !! k) → is_Some (<[i:=x]> m !! k).
Proof. rewrite lookup_insert_is_Some'. by right. Qed.
Lemma has_true {K A} `{Countable K} (m : gmap K A) k : has k m = true ↔ is_Some (m !! k).
Proof. unfold has. by rewrite bool_decide_eq_true. Qed.
Lemma result_fmap_ok {E A B} (f : A → B) (r : result E A) : is_ok (f <$> r) = is_ok r.
Proof. by destruct r. Qed.

(** [typed_update]: a write to one table keeps the typing of the others, whose
    rows only need that no row they refer to disappears. *)
Ltac typed_fields :=
  cbn [proj log net ops on_proj on_nodes on_node_aliases on_edges on_actors on_actor_keys on_assertions
       on_evidence on_observations on_assertion_disputes on_assertion_retractions
       on_assertion_supersessions nodes node_aliases edges actors actor_keys assertions evidence
       observations assertion_disputes assertion_retractions assertion_supersessions].
Ltac typed_row := intros; cbv beta in *; destruct_and?;
  split_and?; auto using is_Some_insert.
Ltac typed_update Ht :=
  destruct Ht; split; typed_fields; try eassumption;
  try solve [eapply map_Forall_impl; [eassumption|typed_row]];
  try (apply map_Forall_insert_2; [|solve [eassumption|eapply map_Forall_impl; [eassumption|typed_row]]]).

#[local] Abbreviation Typed := (λ d : db, typed (proj d)).

Lemma node_row_reads n md :
  to_text (n_metadata n) = Ok md → is_ok (of_text md) = true → ∀ id,
  is_ok (row_to_node id (NodeRow (n_type n) (n_canonical_identifier n) (n_canonical_uri n) (n_name n)
           (n_description n) md (n_created_at n))) = true.
Proof. intros _ H id. unfold row_to_node. cbn. by destruct (of_text md). Qed.

Context `{CL : !CodecLaws C}.

Lemma empty_metadata_reads md : to_text (Object []) = Ok md → is_ok (of_text md) = true.
Proof.
  destruct empty_object_text as (t & Ht & Hr). unfold to_text, of_text. rewrite Ht. cbn.
  intros [= <-]. by rewrite Hr.
Qed.

Lemma nodes_insert_typed type identifier created :
  preserves Typed (nodes_insert_if_missing (Node_new type identifier created)).
Proof.
  unfold nodes_insert_if_missing. apply preserves_lift_bind. intros md Hmd.
  apply preserves_get_bind. intros d u d' Ht H. apply stm_bind_ok in H as (b & d1 & H & [= _ <-]).
  apply insert_or_ignore_ok in H as [->|(_ & _ & ->)]; [done|]. typed_update Ht.
  split; [done|]. eapply node_row_reads; [exact Hmd|]. by apply empty_metadata_reads.
Qed.
Lemma alias_insert_typed a : preserves Typed (nodes_insert_alias a).
Proof.
  unfold nodes_insert_alias. apply preserves_get_bind. intros d u d' Ht H.
  apply stm_bind_ok in H as (b & d1 & H & [= _ <-]).
  apply insert_or_ignore_ok in H as [->|(_ & Hn%has_true & ->)]; [done|]. typed_update Ht.
  split; [done|apply parses_as_str].
Qed.
Lemma edges_insert_typed s p o created : preserves Typed (edges_insert_if_missing (Edge_new s p o created)).
Proof.
  unfold edges_insert_if_missing. apply preserves_get_bind. intros d u d' Ht H.
  apply stm_bind_ok in H as (b & d1 & H & [= _ <-]).
  apply insert_or_ignore_ok in H as [->|(_ & [Hs%has_true Ho%has_true]%andb_true_iff & ->)]; [done|].
  typed_update Ht. by split_and!.
Qed.
Lemma actors_insert_typed a : t_metadata a = Object [] → preserves Typed (actors_insert a).
Proof.
  intros Ha. unfold actors_insert. rewrite Ha. apply preserves_lift_bind. intros md Hmd.
  apply preserves_get_bind. intros d u d' Ht H. apply stm_bind_ok in H as (b & d1 & H & [= _ <-]).
  apply insert_or_ignore_ok in H as [->|(_ & _ & ->)]; [done|]. typed_update Ht.
  apply empty_metadata_reads in Hmd. unfold row_to_actor, parse_column. cbn [at_actor_type at_metadata].
  rewrite parse_as_str. cbn. by destruct (of_text md).
Qed.
Lemma key_insert_typed k actor perms created : preserves Typed (actors_create_key k actor perms created).
Proof.
  unfold actors_create_key. apply preserves_lift_bind. intros text Htext%map_err_ok.
  apply preserves_get_bind. intros d u d' Ht (_ & Ha%has_true & ->)%insert_into_ok. typed_update Ht.
  split; [done|]. cbn. destruct (strings_text (as_str <$> perms)) as (t & E & Hr).
  rewrite E in Htext. injection Htext as <-. by rewrite Hr.
Qed.
Lemma key_revoke_typed k t : preserves Typed (actors_revoke_key k t).
Proof.
  unfold actors_revoke_key. apply preserves_get_bind. intros d b d' Ht H.
  destruct (actor_keys (proj d) !! k) as [[actor perms created [?|]]|] eqn:Hk; try by injection H as _ <-.
  apply update_row_ok in H as [->|(? & _ & ->)]; [done|].
  pose proof (typed_keys _ Ht _ _ Hk) as Hrow. typed_update Ht. exact Hrow.
Qed.
Lemma assertion_insert_typed a : preserves Typed (assertions_insert a).
Proof.
  unfold assertions_insert. apply preserves_get_bind.
  intros d u d' Ht (_ & [He%has_true Ha%has_true]%andb_true_iff & ->)%insert_into_ok. typed_update Ht.
  split_and!; [done..|]. unfold row_to_assertion, parse_column. cbn [as_extraction_method as_status].
  by rewrite !parse_as_str.
Qed.
Lemma set_status_typed id s : preserves Typed (assertions_set_status id s).
Proof.
  unfold assertions_set_status. apply preserves_get_bind. intros d u d' Ht H.
  apply stm_bind_ok in H as (b & d1 & H & [= _ <-]).
  apply update_row_ok in H as [->|(r & Hr & ->)]; [done|].
  pose proof (typed_assertions _ Ht _ _ Hr) as (He & Ha & Hp). typed_update Ht.
  split_and!; [done..|]. revert Hp. unfold row_to_assertion, parse_column.
  cbn [as_extraction_method as_status]. rewrite parse_as_str. by destruct (ok_or (parse (as_extraction_method r)) _).
Qed.
Lemma evidence_insert_typed e : preserves Typed (assertions_insert_evidence e).
Proof.
  unfold assertions_insert_evidence. apply preserves_lift_bind. intros md _.
  apply preserves_get_bind. intros d u d' Ht (_ & Ha%has_true & ->)%insert_into_ok. typed_update Ht.
  split; [done|apply parses_as_str].
Qed.
Lemma dispute_insert_typed id a actor reason t : preserves Typed (assertions_insert_dispute id a actor reason t).
Proof.
  unfold assertions_insert_dispute. apply preserves_get_bind.
  intros d u d' Ht (_ & [He%has_true Ha%has_true]%andb_true_iff & ->)%insert_into_ok. typed_update Ht. all: by split_and?.
Qed.
Lemma retraction_insert_typed id a actor reason t : preserves Typed (assertions_insert_retraction id a actor reason t).
Proof.
  unfold assertions_insert_retraction. apply preserves_get_bind.
  intros d u d' Ht (_ & [He%has_true Ha%has_true]%andb_true_iff & ->)%insert_into_ok. typed_update Ht. all: by split_and?.
Qed.
Lemma supersession_insert_typed id old new actor t : preserves Typed (assertions_insert_supersession id old new actor t).
Proof.
  unfold assertions_insert_supersession. apply preserves_get_bind.
  intros d u d' Ht (_ & [[Ho%has_true Hn%has_true]%andb_true_iff Ha%has_true]%andb_true_iff & ->)%insert_into_ok.
  typed_update Ht. all: by split_and?.
Qed.
Lemma observation_insert_typed id a actor r t t' : preserves Typed (assertions_insert_observation id a actor r t t').
Proof.
  unfold assertions_insert_observation. apply preserves_get_bind.
  intros d u d' Ht (_ & [He%has_true Ha%has_true]%andb_true_iff & ->)%insert_into_ok. typed_update Ht. all: by split_and?.
Qed.
Lemma keeps_proj_typed {E A} (m : stm db E A) : keeps proj m → preserves Typed m.
Proof. intros Hm d a d' Ht H%Hm. cbv beta. by rewrite H. Qed.
Lemma add_ref_typed id t r : preserves Typed (add_ref id t r).
Proof. apply keeps_proj_typed. unfold add_ref. keeps_tac. Qed.
Lemma node_read_typed id : preserves Typed (nodes_get_by_id id).
Proof. apply keeps_proj_typed. unfold nodes_get_by_id. keeps_tac. Qed.
Lemma assertion_read_typed id : preserves Typed (assertions_get_by_id id).
Proof. apply keeps_proj_typed. unfold assertions_get_by_id. keeps_tac. Qed.
#[local] Hint Resolve nodes_insert_typed alias_insert_typed edges_insert_typed actors_insert_typed
  key_insert_typed key_revoke_typed assertion_insert_typed set_status_typed evidence_insert_typed
  dispute_insert_typed retraction_insert_typed supersession_insert_typed observation_insert_typed
  add_ref_typed node_read_typed assertion_read_typed : preserves.
Ltac preserves_tac :=
  repeat first [progress intros | solve [auto with preserves] | apply preserves_storage
               | apply preserves_bind | case_match].

Lemma project_typed id created p : preserves Typed (project id created p).
Proof.
  destruct p; unfold_payloads; unfold resolve_or_create_node, require_assertion; preserves_tac.
Qed.
Lemma replay_typed rows : ∀ d d', typed (proj d) → replay rows d = Some d' → typed (proj d').
Proof.
  induction rows as [|e rows IH]; intros d d' Ht H; cbn in H; [by injection H as <-|].
  destruct (replay_row e (append_event e d)) as [[u d1]|] eqn:Hr; [|done].
  eapply IH, H. revert Hr. unfold replay_row. intros (signed & d2 & H1 & H2)%stm_bind_ok.
  apply stm_bind_ok in H2 as (out & d3 & H2 & [= _ <-]). unfold lift in H1.
  destruct (map_err _ _); [|done]. injection H1 as _ <-. eapply project_typed, H2. exact Ht.
Qed.

(** Redaction blanks fields that are not parsed. *)
Lemma map_Forall_scrub {A} (f : A → A) ids (R : hash32 → A → Prop) m :
  (∀ id r, R id r → R id (f r)) → map_Forall R m → map_Forall R (scrub_map f ids m).
Proof.
  intros Hf Hm id r. rewrite scrub_map_lookup. destruct (m !! id) eqn:E; [|done]. cbn.
  intros [= <-]. case_decide; [apply Hf|]; by apply Hm.
Qed.
Lemma scrub_map_is_Some {A} (f : A → A) ids m id : is_Some (scrub_map f ids m !! id) ↔ is_Some (m !! id).
Proof. rewrite scrub_map_lookup. apply fmap_is_Some. Qed.
Lemma scrub_typed ev ac p : typed p → typed (scrub ev ac p).
Proof.
  intros []. unfold scrub. split; typed_fields; try eassumption.
  all: try solve [eapply map_Forall_impl; [eassumption|]; intros; cbv beta in *; by rewrite ?scrub_map_is_Some].
  - apply map_Forall_scrub; [|done]. intros id r. unfold row_to_actor. cbn.
    by destruct (parse_column _ _), (of_text _).
  - apply map_Forall_scrub; [|done]. done.
Qed.
Lemma restores_typed d : restores d → typed (proj d).
Proof.
  intros (d0 & Hrep & -> & _). apply scrub_typed. eapply replay_typed, Hrep. apply typed_empty.
Qed.

(** ** Reading *)

Lemma transpose_ok {A B E} (f : A → result E B) (o : option A) :
  (∀ a, o = Some a → is_ok (f a) = true) → is_ok (transpose (f <$> o)) = true.
Proof. destruct o as [a|]; cbn; [|done]. intros H. specialize (H a eq_refl). by destruct (f a). Qed.
Lemma lift_ok {S E A} (r : result E A) (s : S) : is_ok (lift r s) = is_ok r.
Proof. by destruct r. Qed.

Lemma node_read_ok d id : typed (proj d) → is_ok (nodes_get_by_id id d) = true.
Proof.
  intros Ht. unfold nodes_get_by_id. cbv [mbind stm_bind get]. rewrite lift_ok.
  apply transpose_ok. intros r Hr. by apply (typed_nodes _ Ht) in Hr as [_ H].
Qed.
Lemma assertion_read_ok d id : typed (proj d) → is_ok (assertions_get_by_id id d) = true.
Proof.
  intros Ht. unfold assertions_get_by_id. cbv [mbind stm_bind get]. rewrite lift_ok.
  apply transpose_ok. intros r Hr. by apply (typed_assertions _ Ht) in Hr as (_ & _ & H).
Qed.
Lemma actor_read_ok d id : typed (proj d) → is_ok (actors_get_by_id id d) = true.
Proof.
  intros Ht. unfold actors_get_by_id. cbv [mbind stm_bind get]. rewrite lift_ok.
  apply transpose_ok. intros r Hr. by apply (typed_actors _ Ht) in Hr.
Qed.
Lemma key_read_ok d k : typed (proj d) → is_ok (actors_find_active_key k d) = true.
Proof.
  intros Ht. unfold actors_find_active_key. cbv [mbind stm_bind get].
  destruct (actor_keys (proj d) !! k) as [r|] eqn:Hr; [|done].
  apply (typed_keys _ Ht) in Hr as [_ Hr]. destruct (kr_revoked_at r); [done|].
  by destruct (strings_from_str _).
Qed.
End typing.
