(* ===== verification/Ledger.v ===== *)
(** * What the tables say is what the log says

    The graph tables read declaratively: for each table and key, what the
    events of the log say about that key, in the order in which they were
    stored.  Nodes, edges, actors, aliases and the audit rows are what the
    first event about them said; an assertion carries the verdict of the last
    dispute, retraction or supersession; a key is revoked by the first
    revocation after its creation.  Redaction, rebuilding, transactions and
    constraints play no other part. *)

From S2P Require Import Prelude Core Envelope Store Projector EventLog Frame Scenario Chain Replay Service Graph Rebuild.
From S2P Require Import Typing.

(** ** Reading the log *)

(** An event: its id, the time it carries, what it says. *)
Definition entry : Type := hash32 * Z * EventPayload.

(** What a list of events says about something, from what each adds. *)
Definition told {V} (hear : option V → entry → option V) (j : list entry) : option V :=
  fold_left hear j None.
(** The first statement counts. *)
Definition once {V} (say : entry → option V) (st : option V) (x : entry) : option V :=
  match st with Some v => Some v | None => say x end.

Section ledger.
Context `{P : Platform} `{C : Codec}.

Definition entry_of (e : event_row) : option entry :=
  match signed_from_slice (er_canonical_payload e) with
  | Ok signed => Some (er_event_id e, er_created_at e, payload (unsigned signed))
  | Err _ => None
  end.
Definition journal (d : db) : list entry := omap entry_of (events (log d)).

Definition parsed (s : string) : option hash32 := to_option (Hash32_from_str s).
Definition decoded (s : string) : option hash32 := to_option (decode_array 32 s).

(** *** Nodes, aliases, edges *)

Definition blank : option string := to_option (json_to_string (Object [])).
Definition new_node (identifier type : string) (t : Z) : option node_row :=
  (λ md, NodeRow (NodeType_new type) identifier None None None md t) <$> blank.
Definition node_said (k : hash32) (x : entry) : option node_row :=
  let '(_, t, p) := x in
  match p with
  | AssertRelation q =>
      if decide (NodeId_from_canonical_identifier (ar_subject_identifier q) = k)
      then new_node (ar_subject_identifier q) (ar_subject_type q) t
      else if decide (NodeId_from_canonical_identifier (ar_object_identifier q) = k)
      then new_node (ar_object_identifier q) (ar_object_type q) t
      else None
  | _ => None
  end.
Definition alias_said (k : hash32 * string) (x : entry) : option alias_row :=
  match x.2 with
  | NodeAlias q =>
      node ← parsed (na_node_id q);
      type ← (parse (na_alias_type q) : option AliasType);
      if decide ((node, na_alias q) = k) then Some (AliasRow (as_str type) None) else None
  | _ => None
  end.
Definition edge_of (q : AssertRelationPayload) : hash32 * string * hash32 :=
  (NodeId_from_canonical_identifier (ar_subject_identifier q), Predicate_new (ar_predicate q),
   NodeId_from_canonical_identifier (ar_object_identifier q)).
Definition edge_id_of (q : AssertRelationPayload) : hash32 :=
  let '(s, predicate, o) := edge_of q in EdgeId_from_triple s predicate o.
Definition edge_said (k : hash32) (x : entry) : option edge_row :=
  let '(_, t, p) := x in
  match p with
  | AssertRelation q =>
      if decide (edge_id_of q = k)
      then let '(s, predicate, o) := edge_of q in Some (EdgeRow s predicate o t) else None
  | _ => None
  end.

(** *** Actors and their keys *)

Definition actor_said (k : hash32) (x : entry) : option actor_row :=
  let '(id, t, p) := x in
  match p with
  | ActorDeclare q =>
      type ← (parse (ad_actor_type q) : option ActorType);
      public_key ← to_option (transpose (decode_array 32 <$> ad_public_key q));
      md ← blank;
      if decide (ActorId_derive (default (to_hex id) (ad_public_key q)) = k)
      then Some (ActorRow (as_str type) (ad_name q) public_key (ad_identity_uri q) md t) else None
  | _ => None
  end.
Definition key_said (k : hash32) (x : entry) : option key_row :=
  let '(_, t, p) := x in
  match p with
  | ActorKeyAdd q =>
      actor ← parsed (ka_actor_id q);
      key_hash ← decoded (ka_key_hash q);
      permissions ← to_option (strings_to_string (as_str <$> (omap parse (ka_permissions q) : list Permission)));
      if decide (key_hash = k) then Some (KeyRow actor permissions t None) else None
  | _ => None
  end.
Definition revoked_at (t : Z) (r : key_row) : key_row :=
  KeyRow (kr_actor r) (kr_permissions r) (kr_created_at r) (Some (default t (kr_revoked_at r))).
Definition key_heard (k : hash32) (st : option key_row) (x : entry) : option key_row :=
  let '(_, t, p) := x in
  match p with
  | ActorKeyRevoke q => if decide (decoded (kr_key_hash q) = Some k) then revoked_at t <$> st else st
  | _ => once (key_said k) st x
  end.

(** *** Assertions and what is said about them *)

Definition with_status (s : AssertionStatus) (r : assertion_row) : assertion_row :=
  AssertionRow (as_edge_id r) (as_actor_id r) (as_actor_confidence r) (as_observed_at r)
    (as_asserted_at r) (as_extraction_method r) (as_str s).
Definition assertion_said (k : hash32) (x : entry) : option assertion_row :=
  let '(id, t, p) := x in
  match p with
  | AssertRelation q =>
      actor ← parsed (ar_actor_id q);
      method ← (parse (ar_extraction_method q) : option ExtractionMethod);
      if decide (id = k)
      then Some (AssertionRow (edge_id_of q) actor (bind_f32 (ar_actor_confidence q)) (ar_observed_at q) t
                   (as_str method) (as_str Active))
      else None
  | _ => None
  end.
(** The assertion a verdict is about, and the verdict. *)
Definition verdict (p : EventPayload) : option (hash32 * AssertionStatus) :=
  match p with
  | DisputeAssertion q => (., Disputed) <$> parsed (da_disputed_assertion_id q)
  | RetractAssertion q => (., Retracted) <$> parsed (ra_retracted_assertion_id q)
  | SupersedeAssertion q => (., Superseded) <$> parsed (sa_old_assertion_id q)
  | _ => None
  end.
Definition assertion_heard (k : hash32) (st : option assertion_row) (x : entry) : option assertion_row :=
  match verdict x.2 with
  | Some (a, s) => if decide (a = k) then with_status s <$> st else st
  | None => once (assertion_said k) st x
  end.
Definition evidence_said (k : hash32) (x : entry) : option evidence_row :=
  let '(id, _, p) := x in
  match p with
  | AddEvidence q =>
      assertion ← parsed (ae_assertion_id q);
      type ← (parse (ae_evidence_type q) : option EvidenceType);
      md ← to_option (json_to_string (build_evidence_metadata (ae_pinned_cid q) (ae_metadata q)));
      if decide (id = k)
      then Some (EvidenceRow assertion (as_str type) (ae_uri q) (ae_title q) (ae_excerpt q) (ae_content_hash q)
                   (ae_observed_at q) (ae_retrieved_at q) md)
      else None
  | _ => None
  end.
Definition observation_said (k : hash32) (x : entry) : option observation_row :=
  let '(id, t, p) := x in
  match p with
  | VerifyAssertion q =>
      assertion ← parsed (va_assertion_id q); observer ← parsed (va_observer_actor_id q);
      if decide (id = k) then Some (ObservationRow assertion observer (va_result q) (va_observed_at q) t) else None
  | _ => None
  end.
Definition dispute_said (k : hash32) (x : entry) : option dispute_row :=
  let '(id, t, p) := x in
  match p with
  | DisputeAssertion q =>
      assertion ← parsed (da_disputed_assertion_id q); actor ← parsed (da_disputing_actor_id q);
      if decide (id = k) then Some (DisputeRow assertion actor (da_reason q) t) else None
  | _ => None
  end.
Definition retraction_said (k : hash32) (x : entry) : option retraction_row :=
  let '(id, t, p) := x in
  match p with
  | RetractAssertion q =>
      assertion ← parsed (ra_retracted_assertion_id q); actor ← parsed (ra_actor_id q);
      if decide (id = k) then Some (RetractionRow assertion actor (ra_reason q) t) else None
  | _ => None
  end.
Definition supersession_said (k : hash32) (x : entry) : option supersession_row :=
  let '(id, t, p) := x in
  match p with
  | SupersedeAssertion q =>
      old ← parsed (sa_old_assertion_id q); new ← parsed (sa_new_assertion_id q); actor ← parsed (sa_actor_id q);
      if decide (id = k) then Some (SupersessionRow old new actor t) else None
  | _ => None
  end.
End ledger.

(** ** Effects on one table *)

(** [m] relates the part [f] of the states before and after by [R]. *)
Definition effect {S E A B} (f : S → B) (R : B → B → Prop) (m : stm S E A) : Prop :=
  ∀ s a s', m s = Ok (a, s') → R (f s) (f s').

Section effect.
Context {S E B : Type} (f : S → B) (R : B → B → Prop).
Lemma effect_keeps {A} (m : stm S E A) : keeps f m → (∀ b, R b b) → effect f R m.
Proof. intros Hm HR s a s' ->%Hm. apply HR. Qed.
Lemma effect_after {A A'} (m : stm S E A) (k : A → stm S E A') :
  keeps f m → (∀ a, effect f R (k a)) → effect f R (m ≫= k).
Proof. intros Hm Hk s b s'' (a & s' & <-%Hm & H2)%stm_bind_ok. by eapply Hk. Qed.
Lemma effect_before {A A'} (m : stm S E A) (k : A → stm S E A') :
  effect f R m → (∀ a, keeps f (k a)) → effect f R (m ≫= k).
Proof. intros Hm Hk s b s'' (a & s' & H1 & ->%Hk)%stm_bind_ok. by eapply Hm. Qed.
Lemma effect_throw {A} (e : E) : effect f R (throw e : stm S E A).
Proof. by intros ???. Qed.
Lemma effect_lift {A A'} (r : result E A) (k : A → stm S E A') :
  (∀ a, r = Ok a → effect f R (k a)) → effect f R (lift r ≫= k).
Proof.
  intros Hk s b s'' (a & s' & H1 & H2)%stm_bind_ok. unfold lift in H1. destruct r as [x|]; [|done].
  injection H1 as <- <-. by eapply Hk.
Qed.
End effect.

Lemma effect_storage {A B} (f : db → B) R (m : tx A) : effect f R m → effect f R (storage m).
Proof. intros Hm d a d' H. unfold storage in H. apply map_err_ok in H. by eapply Hm. Qed.

(** Each row of a table changes the way [hear] says on hearing [x]. *)
Definition hears {K V} `{Countable K} (hear : K → option V → entry → option V) (x : entry)
    (m m' : gmap K V) : Prop :=
  ∀ k, m' !! k = hear k (m !! k) x.

(** A row written unless its key is taken. *)
Definition insert_new {K V} `{Countable K} (k : K) (r : V) (m : gmap K V) : gmap K V :=
  match m !! k with Some _ => m | None => <[k := r]> m end.
Lemma insert_new_lookup {K V} `{Countable K} (k : K) (r : V) m k' :
  insert_new k r m !! k' =
    match m !! k' with Some v => Some v | None => if decide (k = k') then Some r else None end.
Proof.
  unfold insert_new. destruct (decide (k = k')) as [->|Hne].
  - destruct (m !! k') eqn:E; [by rewrite E|]. apply lookup_insert_eq.
  - destruct (m !! k); [by destruct (m !! k')|]. rewrite lookup_insert_ne by done. by destruct (m !! k').
Qed.
Lemma insert_new_free {K V} `{Countable K} (k : K) (r : V) m : m !! k = None → insert_new k r m = <[k := r]> m.
Proof. unfold insert_new. by intros ->. Qed.
Lemma insert_new_taken {K V} `{Countable K} (k : K) (r : V) m : is_Some (m !! k) → insert_new k r m = m.
Proof. unfold insert_new. by intros [? ->]. Qed.

Section writes.
Context {K V : Type} `{Countable K} (T : db → gmap K V) (say : K → entry → option V) (x : entry).
Abbreviation heard := (hears (λ k, once (say k)) x).

Lemma hears_silent m : (∀ k, say k x = None) → heard m m.
Proof. intros Hs k. unfold once. rewrite Hs. by destruct (m !! k). Qed.
Lemma hears_new k r m m' :
  (∀ k', say k' x = if decide (k = k') then Some r else None) → m' = insert_new k r m → heard m m'.
Proof. intros Hs -> k'. unfold once. by rewrite insert_new_lookup, Hs. Qed.
Lemma effect_insert_into t k r fk f :
  (∀ k', say k' x = if decide (k = k') then Some r else None) →
  (∀ d, T (f d) = <[k := r]> (T d)) →
  effect T heard (d ← get; insert_into t (negb (has k (T d))) (fk d) f).
Proof.
  intros Hs Hf d a d' Hrun. cbv [mbind stm_bind get] in Hrun. apply insert_into_ok in Hrun as (Hn & _ & ->).
  apply (hears_new k r); [done|]. apply negb_true_iff, bool_decide_eq_false, eq_None_not_Some in Hn.
  by rewrite insert_new_free.
Qed.
Lemma effect_insert_or_ignore t k r fk f :
  (∀ k', say k' x = if decide (k = k') then Some r else None) →
  (∀ d, T (f d) = <[k := r]> (T d)) →
  effect T heard (d ← get; _ ← insert_or_ignore t (negb (has k (T d))) (fk d) f; mret ()).
Proof.
  intros Hs Hf d a d' Hrun. apply (hears_new k r); [done|].
  apply stm_bind_ok in Hrun as (? & ? & [= <- <-] & Hrun).
  apply stm_bind_ok in Hrun as (b & d1 & Hi & [= _ <-]).
  unfold insert_or_ignore, has in Hi. case_bool_decide as Hn; cbn in Hi.
  - injection Hi as _ <-. by rewrite insert_new_taken.
  - apply eq_None_not_Some in Hn. rewrite insert_new_free by done. destruct (fk d); [|done].
    cbv [mbind stm_bind modify mret stm_ret] in Hi. cbn in Hi. by injection Hi as _ <-.
Qed.
End writes.

(** ** One event, one table *)

Section pointwise.
Context `{P : Platform} `{C : Codec}.

(** Projecting an event changes the table [T] the way [hear] says. *)
Definition pointwise {K V} `{Countable K} (T : projection → gmap K V)
    (hear : K → option V → entry → option V) : Prop :=
  ∀ id t p d out d', typed (proj d) → project id t p d = Ok (out, d') →
    hears hear (id, t, p) (T (proj d)) (T (proj d')).
Lemma pointwise_effect {K V} `{Countable K} (T : projection → gmap K V) hear :
  (∀ id t p, effect (λ d, T (proj d)) (hears hear (id, t, p)) (project id t p)) → pointwise T hear.
Proof. intros He id t p d out d' _ Hrun. by apply (He _ _ _ _ _ _ Hrun). Qed.

Lemma parsed_ok s h : parse_id s = Ok h → parsed s = Some h.
Proof. unfold parse_id, parsed. by destruct (Hash32_from_str s); cbn; [intros [= ->]|]. Qed.
Lemma decoded_ok s h : decode_array 32 s = Ok h → decoded s = Some h.
Proof. unfold decoded. by intros ->. Qed.
Lemma map_err_to_option {E E' A} (f : E → E') (r : result E A) a : map_err f r = Ok a → to_option r = Some a.
Proof. destruct r; cbn; congruence. Qed.

Lemma effect_resolved {A B} (f : db → B) R identifier type t (k : hash32 → txe A) :
  keeps f (resolve_or_create_node identifier type t) →
  effect f R (k (NodeId_from_canonical_identifier identifier)) →
  effect f R (resolve_or_create_node identifier type t ≫= k).
Proof.
  intros Hm Hk d b d'' (a & d1 & H1 & H2)%stm_bind_ok. pose proof (Hm _ _ _ H1) as <-.
  apply stm_bind_ok in H1 as (found & d2 & _ & H1). apply stm_bind_ok in H1 as (u & d3 & _ & [= <- <-]).
  by eapply Hk.
Qed.

Ltac unfold_statements :=
  unfold require_assertion, nodes_get_by_id, nodes_insert_if_missing, edges_insert_if_missing,
    assertions_insert, add_ref, assertions_get_by_id, assertions_insert_evidence,
    assertions_insert_observation, assertions_insert_dispute,
    assertions_insert_retraction, assertions_insert_supersession, actors_insert, nodes_insert_alias,
    actors_create_key.
Lemma result_to_option {E A} (r : result E A) a : r = Ok a → to_option r = Some a.
Proof. by intros ->. Qed.

Lemma revoke_effect id t q a : decoded (kr_key_hash q) = Some a →
  effect (λ d, actor_keys (proj d)) (hears key_heard (id, t, ActorKeyRevoke q)) (actors_revoke_key a t).
Proof.
  intros Ha d b d' Hrun k. cbn [key_heard]. rewrite Ha. unfold actors_revoke_key in Hrun.
  apply stm_bind_ok in Hrun as (? & ? & [= <- <-] & Hrun).
  destruct (actor_keys (proj d) !! a) as [[actor perms created [u|]]|] eqn:E.
  - injection Hrun as _ <-. case_decide as Hk; [|done]. injection Hk as ->. by rewrite E.
  - cbv [update_row mbind stm_bind modify mret stm_ret] in Hrun. injection Hrun as _ <-. cbn.
    case_decide as Hk; [injection Hk as ->; by rewrite E, lookup_insert_eq|].
    by rewrite lookup_insert_ne by congruence.
  - injection Hrun as _ <-. case_decide as Hk; [|done]. injection Hk as ->. by rewrite E.
Qed.
Lemma status_effect id t p a s : verdict p = Some (a, s) →
  effect (λ d, assertions (proj d)) (hears assertion_heard (id, t, p)) (assertions_set_status a s).
Proof.
  intros Hv d b d' Hrun k. unfold assertion_heard. cbn [snd]. rewrite Hv. unfold assertions_set_status in Hrun.
  apply stm_bind_ok in Hrun as (? & ? & [= <- <-] & Hrun). apply stm_bind_ok in Hrun as (u & d1 & Hu & [= _ <-]).
  unfold update_row in Hu. destruct (assertions (proj d) !! a) as [r|] eqn:E.
  - cbv [mbind stm_bind modify mret stm_ret] in Hu. injection Hu as _ <-. cbn.
    case_decide as Hk; [subst k; by rewrite E, lookup_insert_eq|by rewrite lookup_insert_ne].
  - injection Hu as _ <-. case_decide as Hk; [subst k; by rewrite E|done].
Qed.
(** A program that leaves a table alone. *)
Ltac keeps_table :=
  unfold resolve_or_create_node, assertions_set_status, actors_revoke_key; unfold_statements; keeps_tac.
(** Walk to the statement that writes the table. *)
Ltac to_the_write :=
  unfold_statements;
  repeat first
    [ solve [apply revoke_effect; assumption]
    | solve [apply status_effect; cbn [verdict]; match goal with H : _ = Some _ |- _ => rewrite H end; reflexivity]
    | apply effect_lift; let Hr := fresh "Hr" in intros ? Hr;
      first [apply parsed_ok in Hr | apply decoded_ok in Hr | apply ok_or_ok in Hr | apply map_err_to_option in Hr | apply result_to_option in Hr]
    | apply effect_resolved; [solve [keeps_table]|]
    | eapply effect_insert_into | eapply effect_insert_or_ignore
    | apply effect_after; [solve [keeps_table]|intros ?]
    | apply effect_before; [|intros ?; solve [keeps_table]]
    | apply effect_storage
    | match goal with |- effect _ _ (match ?x with Some _ => _ | None => _ end) => destruct x; [|by apply effect_throw] end ].
Ltac pointwise_tac :=
  let id := fresh "id" in let t := fresh "t" in let p := fresh "p" in
  apply pointwise_effect; intros id t p; destruct p as [q|q|q|q|q|q|q|q|q|q]; unfold_payloads;
  try (apply effect_keeps; [solve [keeps_table]|intros ?; by apply hears_silent]); to_the_write.
Ltac said_tac :=
  intros ?;
  cbv beta iota zeta delta [node_said alias_said edge_said actor_said key_said assertion_said evidence_said
    observation_said dispute_said retraction_said supersession_said blank fst snd];
  repeat match goal with H : _ = Some _ |- _ => cbn [v_metadata t_metadata] in H; rewrite H; clear H end;
  reflexivity.

Lemma disputes_pointwise : pointwise assertion_disputes (λ k, once (dispute_said k)).
Proof. pointwise_tac; [said_tac|done]. Qed.
Lemma retractions_pointwise : pointwise assertion_retractions (λ k, once (retraction_said k)).
Proof. pointwise_tac; [said_tac|done]. Qed.
Lemma supersessions_pointwise : pointwise assertion_supersessions (λ k, once (supersession_said k)).
Proof. pointwise_tac; [said_tac|done]. Qed.
Lemma observations_pointwise : pointwise observations (λ k, once (observation_said k)).
Proof. pointwise_tac; [said_tac|done]. Qed.
Lemma evidence_pointwise : pointwise evidence (λ k, once (evidence_said k)).
Proof. pointwise_tac; [said_tac|done]. Qed.
Lemma edges_pointwise : pointwise edges (λ k, once (edge_said k)).
Proof. pointwise_tac; [|done]. said_tac. Qed.
Lemma aliases_pointwise : pointwise node_aliases (λ k, once (alias_said k)).
Proof. pointwise_tac; [said_tac|done]. Qed.
Lemma actors_pointwise : pointwise actors (λ k, once (actor_said k)).
Proof. pointwise_tac; [said_tac|done]. Qed.

Lemma keys_pointwise : pointwise actor_keys key_heard.
Proof.
  pointwise_tac; [said_tac|done].
Qed.

Lemma assertions_pointwise : pointwise assertions assertion_heard.
Proof. pointwise_tac; [said_tac|done]. Qed.

(** *** Nodes *)

(** Resolving an identifier writes its node unless it is there: on typed
    tables no other node has the identifier. *)
Lemma node_get_ok k d found d' : nodes_get_by_id k d = Ok (found, d') →
  d' = d ∧ (found = None → nodes (proj d) !! k = None) ∧ (is_Some found → is_Some (nodes (proj d) !! k)).
Proof.
  unfold nodes_get_by_id. intros (? & ? & [= <- <-] & H)%stm_bind_ok. unfold lift in H.
  destruct (nodes (proj d) !! k) as [r|]; cbn in H.
  - destruct (row_to_node k r); [|done]. injection H as <- <-. split_and!; [done|done|eauto].
  - injection H as <- <-. split_and!; [done|done|by intros [? [=]]].
Qed.
Lemma node_insert_effect `{!CodecLaws C} identifier type t d u d' :
  typed (proj d) → let k := NodeId_from_canonical_identifier identifier in
  nodes (proj d) !! k = None →
  nodes_insert_if_missing (Node_new (NodeType_new type) identifier t) d = Ok (u, d') →
  ∃ r, new_node identifier type t = Some r ∧ nodes (proj d') = <[k := r]> (nodes (proj d)).
Proof.
  intros Ht k Hk Hrun. unfold nodes_insert_if_missing in Hrun.
  apply stm_bind_ok in Hrun as (md & d1 & Hmd & Hrun). unfold lift in Hmd.
  destruct (to_text _) as [md'|] eqn:Htext; [|done]. injection Hmd as -> <-.
  apply map_err_to_option in Htext. unfold new_node, blank. cbn in Htext. rewrite Htext. eexists. split; [done|].
  apply stm_bind_ok in Hrun as (? & ? & [= <- <-] & Hrun).
  apply stm_bind_ok in Hrun as (b & d2 & Hi & [= _ <-]). unfold has in Hi. cbn [n_id Node_new] in Hi. fold k in Hi.
  rewrite Hk, bool_decide_false in Hi by (by intros [? [=]]). cbn [negb andb] in Hi.
  replace (forallb _ _) with true in Hi.
  { cbv [insert_or_ignore negb mbind stm_bind modify mret stm_ret] in Hi. by injection Hi as _ <-. }
  symmetry. apply forallb_forall. intros [id r] Hin%list_elem_of_In%elem_of_map_to_list. pose proof Hin as Hrow.
  apply negb_true_iff, bool_decide_eq_false. cbn. intros Heq.
  apply (typed_nodes _ Ht) in Hrow as [Hid _]. rewrite Heq in Hid. fold k in Hid. congruence.
Qed.
Lemma resolve_effect `{!CodecLaws C} identifier type t d a d' :
  typed (proj d) → resolve_or_create_node identifier type t d = Ok (a, d') →
  a = NodeId_from_canonical_identifier identifier ∧ typed (proj d') ∧
  ∃ r, new_node identifier type t = Some r ∧
    nodes (proj d') = insert_new a r (nodes (proj d)).
Proof.
  intros Ht (found & d1 & Hget & Hrun)%stm_bind_ok. apply map_err_ok, node_get_ok in Hget as (-> & Hno & Hyes).
  apply stm_bind_ok in Hrun as (u & d1 & Hins & [= <- <-]). split; [done|]. destruct found as [n|].
  - injection Hins as _ <-. split; [done|]. destruct empty_object_text as (md & Hmd & _). unfold new_node, blank. rewrite Hmd. eexists. split; [done|].
    rewrite insert_new_taken; [done|]. apply Hyes. by eexists.
  - apply map_err_ok in Hins. split.
    + by eapply nodes_insert_typed, Hins.
    + destruct (node_insert_effect _ _ _ _ _ _ Ht (Hno eq_refl) Hins) as (r & Hr & Hn).
      exists r. split; [done|]. by rewrite insert_new_free by by apply Hno.
Qed.
Lemma nodes_pointwise `{!CodecLaws C} : pointwise nodes (λ k, once (node_said k)).
Proof.
  intros id t p d out d' Ht Hrun. destruct p as [q|q|q|q|q|q|q|q|q|q].
  2-10: assert (nodes (proj d') = nodes (proj d)) as -> by
    (revert Hrun; generalize d out d'; unfold_payloads; enough (keeps (λ d, nodes (proj d)) _) by eassumption; keeps_table);
    by apply hears_silent.
  apply stm_bind_ok in Hrun as (u & d3 & Hrun & [= _ <-]).
  apply stm_bind_ok in Hrun as (s & d1 & Hs & Hrun). apply stm_bind_ok in Hrun as (o & d2 & Ho & Hrun).
  assert (nodes (proj d3) = nodes (proj d2)) as ->.
  { revert Hrun. generalize d2 u d3. enough (keeps (λ d, nodes (proj d)) _) by eassumption. keeps_table. }
  apply resolve_effect in Hs as (-> & Ht1 & r & Hr & H1); [|done].
  apply resolve_effect in Ho as (-> & _ & r' & Hr' & H2); [|done]. intros k. rewrite H2, H1, !insert_new_lookup.
  unfold once. cbn. rewrite Hr, Hr'. destruct (nodes (proj d) !! k); [done|]. by repeat case_decide.
Qed.
End pointwise.

(** ** The whole log *)

Section replayed.
Context `{P : Platform} `{C : Codec} `{CL : !CodecLaws C}.

Lemma replay_row_entry e d d' : replay_row e d = Ok ((), d') →
  ∃ p out, entry_of e = Some (er_event_id e, er_created_at e, p) ∧
           project (er_event_id e) (er_created_at e) p d = Ok (out, d').
Proof.
  unfold replay_row, entry_of. intros (signed & d1 & Hs & H)%stm_bind_ok. unfold lift in Hs.
  destruct (signed_from_slice _) as [s|]; [|done]. injection Hs as -> <-.
  apply stm_bind_ok in H as (out & d2 & H & [= <-]). by exists (payload (unsigned signed)), out.
Qed.

Lemma replay_length rows : ∀ d d', replay rows d = Some d' → length (omap entry_of rows) = length rows.
Proof.
  induction rows as [|e rows IH]; intros d d' H; [done|]. cbn in H.
  destruct (replay_row e _) as [[[] d1]|] eqn:Hrow; [|done].
  apply replay_row_entry in Hrow as (p & out & He & _). cbn. rewrite He. cbn. f_equal. by eapply IH.
Qed.

Lemma replay_told {K V} `{Countable K} (T : projection → gmap K V) hear :
  pointwise T hear → T empty_projection = ∅ → ∀ rows d0,
  replay rows empty_db = Some d0 → ∀ k, T (proj d0) !! k = told (hear k) (omap entry_of rows).
Proof.
  intros HT Hempty. induction rows as [|e rows IH] using rev_ind; intros d0 Hrep k.
  { injection Hrep as <-. cbn. by rewrite Hempty, lookup_empty. }
  rewrite replay_snoc in Hrep. destruct (replay rows empty_db) as [d1|] eqn:H1; [|done]. cbn in Hrep.
  destruct (replay_row e _) as [[[] d2]|] eqn:Hrow; [|done]. injection Hrep as <-.
  apply replay_row_entry in Hrow as (p & out & He & Hp). apply HT in Hp.
  2: { apply (replay_typed rows empty_db d1); [apply typed_empty|done]. }
  rewrite (Hp k). unfold told. rewrite omap_app, fold_left_app. cbn. rewrite He. cbn.
  f_equal. by apply IH.
Qed.

(** The tables hold what the events [j] say, less what the operator redacted. *)
Record tells (d : db) (j : list entry) : Prop := {
  tells_nodes k : nodes (proj d) !! k = told (once (node_said k)) j;
  tells_aliases k : node_aliases (proj d) !! k = told (once (alias_said k)) j;
  tells_edges k : edges (proj d) !! k = told (once (edge_said k)) j;
  tells_actors k : actors (proj d) !! k =
    (if decide (k ∈ redacted_actors d) then redacted_actor else id) <$> told (once (actor_said k)) j;
  tells_keys k : actor_keys (proj d) !! k = told (key_heard k) j;
  tells_assertions k : assertions (proj d) !! k = told (assertion_heard k) j;
  tells_evidence k : evidence (proj d) !! k =
    (if decide (k ∈ redacted_events d) then redacted_evidence else id) <$> told (once (evidence_said k)) j;
  tells_observations k : observations (proj d) !! k = told (once (observation_said k)) j;
  tells_disputes k : assertion_disputes (proj d) !! k = told (once (dispute_said k)) j;
  tells_retractions k : assertion_retractions (proj d) !! k = told (once (retraction_said k)) j;
  tells_supersessions k : assertion_supersessions (proj d) !! k = told (once (supersession_said k)) j }.

Lemma restores_tells d : restores d → tells d (journal d) ∧ length (journal d) = length (events (log d)).
Proof.
  intros (d0 & Hrep & Hp & _). split; [|by eapply replay_length].
  split; rewrite Hp; cbn; intros k; rewrite ?scrub_map_lookup.
  4: rewrite (replay_told actors (λ k, once (actor_said k)) actors_pointwise eq_refl _ _ Hrep);
    by case_decide; destruct (told _ _).
  6: rewrite (replay_told evidence (λ k, once (evidence_said k)) evidence_pointwise eq_refl _ _ Hrep);
    by case_decide; destruct (told _ _).
  - by apply (replay_told nodes (λ k, once (node_said k)) nodes_pointwise).
  - by apply (replay_told node_aliases (λ k, once (alias_said k)) aliases_pointwise).
  - by apply (replay_told edges (λ k, once (edge_said k)) edges_pointwise).
  - by apply (replay_told actor_keys key_heard keys_pointwise).
  - by apply (replay_told assertions assertion_heard assertions_pointwise).
  - by apply (replay_told observations (λ k, once (observation_said k)) observations_pointwise).
  - by apply (replay_told assertion_disputes (λ k, once (dispute_said k)) disputes_pointwise).
  - by apply (replay_told assertion_retractions (λ k, once (retraction_said k)) retractions_pointwise).
  - by apply (replay_told assertion_supersessions (λ k, once (supersession_said k)) supersessions_pointwise).
Qed.

(** Databases that tell the same events with the same redactions are equal. *)
Lemma tells_functional d d' j : tells d j → tells d' j →
  redacted_events d' = redacted_events d → redacted_actors d' = redacted_actors d → proj d' = proj d.
Proof.
  intros [] [] He Ha. destruct (proj d), (proj d'). cbn in *. rewrite He, Ha in *.
  f_equal; apply map_eq; intros k;
    by match goal with H : ∀ k, ?m !! k = _, H' : ∀ k, ?m' !! k = _ |- ?m' !! ?k = ?m !! ?k => rewrite H, H' end.
Qed.
End replayed.

(** ** Properties *)

Section properties.
Context `{P : Platform} `{C : Codec} `{CL : !CodecLaws C}.

(** C13: The graph tables are a reading of the log.  On every reachable database
    each stored event reads back, and every row of the eleven tables is what
    the events say about its key, heard in the order they were stored: the
    first word for nodes, edges, actors, aliases, keys, evidence and audit
    rows, the last verdict for the status of an assertion, the first
    revocation after its creation for a key - less the title and excerpt, or
    identity URI, that the operator redacted.  So two peers that stored the
    same events in the same order and redacted the same hold the same graph. *)
Theorem tables_tell_the_log d :
  reachable d →
  length (journal d) = length (events (log d)) ∧ tells d (journal d) ∧
  ∀ d', reachable d' → journal d' = journal d →
    redacted_events d' = redacted_events d → redacted_actors d' = redacted_actors d → proj d' = proj d.
Proof.
  intros [_ [Ht Hlen]%restores_tells]%reachable_inv. split_and!; [done|done|].
  intros d' [_ [Ht' _]%restores_tells]%reachable_inv Hj. rewrite Hj in Ht'. by apply tells_functional with (journal d).
Qed.
End properties.

(** ** Witnesses *)

Section witnesses.
#[local] Existing Instance Toy.platform.
#[local] Existing Instance demo_codec.

(** Alice's evidence had a title; it is gone from the table, the assertion
    stands as the log says. *)
Lemma tables_tell_the_log_witness :
  ev_title <$> told (once (evidence_said (id_of e3))) (journal redacted_db) = Some (Some "title") ∧
  ev_title <$> evidence (proj redacted_db) !! id_of e3 = Some None ∧
  as_status <$> assertions (proj redacted_db) !! id_of e2 = Some "active".
Proof.
  destruct (@tables_tell_the_log Toy.platform demo_codec (ToyCodec.codec_laws _) redacted_db redacted_reachable)
    as (_ & Ht & _).
  rewrite (tells_evidence _ _ Ht), (tells_assertions _ _ Ht).
  rewrite decide_True by (apply elem_of_dom; rewrite redacted_tombstone; by eexists).
  split_and!; vm_compute; reflexivity.
Defined.
End witnesses.
