(* ===== verification/Queries.v ===== *)
(** * Reading the graph

    [oag-graph]: [subgraph.rs], with the queries of [repo/edges.rs] and
    [repo/assertions.rs] it runs.  The statements of a query read one state of
    the tables: a writer that commits between two of them is not modelled.
    Rows come in no particular order, and nothing below depends on it. *)

From S2P Require Import Prelude Core Envelope Store Projector EventLog Frame Scenario Chain Replay Service Graph Rebuild Typing.

Section queries.
Context `{P : Platform} `{C : Codec}.

Definition row_to_edge (id : hash32) (r : edge_row) : Edge :=
  {| e_id := id; e_subject := ed_subject r; e_predicate := Predicate_new (ed_predicate r);
     e_object := ed_object r; e_created_at := ed_created_at r |}.
Definition edges_list_touching (node : hash32) : tx (list Edge) :=
  gets (λ d, uncurry row_to_edge <$>
    filter (λ kr : hash32 * edge_row, ed_subject kr.2 = node ∨ ed_object kr.2 = node)
      (map_to_list (edges (proj d)))).
Definition assertions_list_by_edge (edge : hash32) : tx (list Assertion) :=
  d ← get;
  lift (mapM (M:=result StorageError) (uncurry row_to_assertion)
    (filter (λ kr : hash32 * assertion_row, as_edge_id kr.2 = edge) (map_to_list (assertions (proj d))))).

(** ** [get_subgraph] *)

Record SubgraphNode := { sg_node : Node; distance : nat }.
Record Subgraph := {
  sg_nodes : list SubgraphNode; sg_edges : list Edge; sg_assertions : list Assertion }.

(** The two maps, and the frontier being built for the next round. *)
Record traversal := Traversal {
  visited_nodes : gmap hash32 SubgraphNode;
  visited_edges : gmap hash32 Edge;
  next_frontier : list hash32 }.

Fixpoint visit_candidates (hop : nat) (candidates : list hash32) (t : traversal) : tx traversal :=
  match candidates with
  | [] => mret t
  | candidate :: candidates =>
      if has candidate (visited_nodes t) then visit_candidates hop candidates t
      else
        found ← nodes_get_by_id candidate;
        match found with
        | None => visit_candidates hop candidates t
        | Some node =>
            visit_candidates hop candidates
              (Traversal (<[candidate := {| sg_node := node; distance := hop |}]> (visited_nodes t))
                 (visited_edges t) (next_frontier t ++ [candidate]))
        end
  end.
Fixpoint visit_edges (max_nodes hop : nat) (touching : list Edge) (t : traversal) : tx traversal :=
  match touching with
  | [] => mret t
  | edge :: touching =>
      if max_nodes <=? size (visited_nodes t) then mret t
      else
        t ← visit_candidates hop [e_subject edge; e_object edge]
              (Traversal (visited_nodes t) (<[e_id edge := edge]> (visited_edges t)) (next_frontier t));
        visit_edges max_nodes hop touching t
  end.
Fixpoint visit_frontier (max_nodes hop : nat) (frontier : list hash32) (t : traversal) : tx traversal :=
  match frontier with
  | [] => mret t
  | node_id :: frontier =>
      touching ← edges_list_touching node_id;
      t ← visit_edges max_nodes hop touching t;
      visit_frontier max_nodes hop frontier t
  end.
(** [for hop in 1..=depth], [rounds] of them left. *)
Fixpoint traverse (max_nodes hop rounds : nat) (t : traversal) : tx traversal :=
  match rounds with
  | 0 => mret t
  | S rounds =>
      if max_nodes <=? size (visited_nodes t) then mret t
      else
        t ← visit_frontier max_nodes hop (next_frontier t)
              (Traversal (visited_nodes t) (visited_edges t) []);
        traverse max_nodes (S hop) rounds t
  end.

Fixpoint list_assertions (edge_ids : list hash32) : tx (list Assertion) :=
  match edge_ids with
  | [] => mret []
  | id :: ids => l ← assertions_list_by_edge id; ls ← list_assertions ids; mret (l ++ ls)
  end.

Definition get_subgraph (root : hash32) (depth max_nodes : nat) : txg Subgraph :=
  found ← g_storage (nodes_get_by_id root);
  root_node ← lift (ok_or found (GNotFound ("node " +:+ to_hex root)));
  t ← g_storage (traverse max_nodes 1 depth
        (Traversal {[root := {| sg_node := root_node; distance := 0 |}]} ∅ [root]));
  assertions ← g_storage (list_assertions (map_to_list (visited_edges t)).*1);
  mret {| sg_nodes := (map_to_list (visited_nodes t)).*2; sg_edges := (map_to_list (visited_edges t)).*2;
          sg_assertions := assertions |}.

(** ** What a neighbourhood is *)

(** An edge between two nodes, in either direction; a walk of at most [k] edges. *)
Definition joins (r : edge_row) (a b : hash32) : Prop :=
  (ed_subject r = a ∧ ed_object r = b) ∨ (ed_subject r = b ∧ ed_object r = a).
Definition adjacent (d : db) (a b : hash32) : Prop :=
  ∃ id r, edges (proj d) !! id = Some r ∧ joins r a b.
Fixpoint within (d : db) (root : hash32) (k : nat) (n : hash32) : Prop :=
  match k with
  | 0 => n = root
  | S k => within d root k n ∨ ∃ m, within d root k m ∧ adjacent d m n
  end.
Definition at_distance (d : db) (root : hash32) (k : nat) (n : hash32) : Prop :=
  within d root k n ∧ ∀ j, j < k → ¬ within d root j n.

Lemma within_le d root j k n : j ≤ k → within d root j n → within d root k n.
Proof. induction 1; [done|]. intros Hn. left. auto. Qed.

(** ** One state of the tables *)

Context (d : db) (Ht : typed (proj d)).

Definition stored (id : hash32) (n : Node) : Prop :=
  ∃ r, nodes (proj d) !! id = Some r ∧ row_to_node id r = Ok n.
Lemma node_get_run id :
  (nodes (proj d) !! id = None ∧ nodes_get_by_id id d = Ok (None, d)) ∨
  ∃ n, stored id n ∧ nodes_get_by_id id d = Ok (Some n, d).
Proof.
  unfold nodes_get_by_id. cbv [mbind stm_bind get lift].
  destruct (nodes (proj d) !! id) as [r|] eqn:Hr; [right|by left].
  pose proof (typed_nodes _ Ht _ _ Hr) as [_ Hok]. cbn.
  destruct (row_to_node id r) as [n|] eqn:Hn; [|done]. exists n. split; [by exists r|done].
Qed.
Lemma endpoint_stored a b : adjacent d a b → is_Some (nodes (proj d) !! a) ∧ is_Some (nodes (proj d) !! b).
Proof.
  intros (id & r & Hr & Hj). apply (typed_edges _ Ht) in Hr as (_ & Hs & Ho).
  by destruct Hj as [[<- <-]|[<- <-]].
Qed.

Context (root : hash32) (max_nodes : nat).
#[local] Abbreviation Within := (within d root).

(** *** The invariants of the traversal *)

Definition seen (t : traversal) (id : hash32) : Prop := is_Some (visited_nodes t !! id).
Definition seen_edge (t : traversal) (id : hash32) : Prop := is_Some (visited_edges t !! id).
(** Every node is recorded with its distance, at most [b]; the next frontier
    is the nodes at distance [b]. *)
Definition nodes_ok (b : nat) (t : traversal) : Prop :=
  (∀ id x, visited_nodes t !! id = Some x →
     stored id (sg_node x) ∧ at_distance d root (distance x) id ∧ distance x ≤ b) ∧
  (∀ id, id ∈ next_frontier t ↔ ∃ x, visited_nodes t !! id = Some x ∧ distance x = b).
(** Every edge is stored, joins two nodes seen, one within [h]. *)
Definition edges_ok (h : nat) (t : traversal) : Prop :=
  ∀ id e, visited_edges t !! id = Some e → ∃ r, edges (proj d) !! id = Some r ∧ e = row_to_edge id r ∧
    seen t (ed_subject r) ∧ seen t (ed_object r) ∧ (Within h (ed_subject r) ∨ Within h (ed_object r)).
Definition grown (t t' : traversal) : Prop :=
  (∀ id, seen t id → seen t' id) ∧ (∀ id, seen_edge t id → seen_edge t' id).
Definition capped (t : traversal) : Prop := max_nodes ≤ size (visited_nodes t).
Definition touches (r : edge_row) (n : hash32) : Prop := ed_subject r = n ∨ ed_object r = n.
Definition covered (t : traversal) (n : hash32) : Prop :=
  ∀ id r, edges (proj d) !! id = Some r → touches r n →
    seen_edge t id ∧ seen t (ed_subject r) ∧ seen t (ed_object r).

#[local] Instance grown_preorder : PreOrder grown.
Proof.
  split; [by split|]. intros a b c [Hn He] [Hn' He']. split; naive_solver.
Qed.
Lemma grown_covered t t' n : grown t t' → covered t n → covered t' n.
Proof. intros [Hn He] Hc id r Hr Htc. destruct (Hc id r Hr Htc) as (? & ? & ?). auto. Qed.

Lemma filter_length_mono {A} (Q R : A → Prop) `{∀ x, Decision (Q x), ∀ x, Decision (R x)} l :
  (∀ x, Q x → R x) → length (filter Q l) ≤ length (filter R l).
Proof.
  intros HQR. induction l as [|x l IH]; [done|]. rewrite !filter_cons.
  repeat case_decide; cbn; try lia. exfalso. auto.
Qed.

Lemma grown_capped t t' : grown t t' → capped t → capped t'.
Proof.
  intros [Hn _] Hc. unfold capped in *. etransitivity; [exact Hc|].
  rewrite <-!(size_dom (D:=gset hash32)). apply subseteq_size. intros id. rewrite !elem_of_dom. apply Hn.
Qed.

Lemma visit_candidates_spec h cs : ∀ t,
  nodes_ok (S h) t → (∀ id, Within h id → seen t id) →
  Forall (λ c, seen t c ∨ ∃ a, Within h a ∧ adjacent d a c) cs →
  ∃ t', visit_candidates (S h) cs t d = Ok (t', d) ∧ nodes_ok (S h) t' ∧ grown t t' ∧
    visited_edges t' = visited_edges t ∧ Forall (seen t') cs ∧
    size (visited_nodes t') ≤ size (visited_nodes t) + length (filter (λ c, visited_nodes t !! c = None) cs).
Proof.
  induction cs as [|c cs IH]; intros t Hn Hold Hcs; cbn [visit_candidates].
  { exists t. split_and!; [done|done|reflexivity|done|constructor|cbn; lia]. }
  apply Forall_cons in Hcs as [Hc Hcs]. destruct (has c (visited_nodes t)) eqn:Hhas.
  - apply has_true in Hhas. destruct (IH t Hn Hold Hcs) as (t' & E & Hn' & Hg & He & Hs & Hz).
    exists t'. split_and!; [done..|constructor; [by apply Hg|done]|].
    rewrite filter_cons_False by (by destruct Hhas as [? ->]). done.
  - assert (visited_nodes t !! c = None) as Hnone.
    { apply eq_None_not_Some. intros Hx%has_true. congruence. }
    destruct Hc as [Hc|(a & Ha & Had)]; [unfold seen in Hc; rewrite Hnone in Hc; by destruct Hc|].
    destruct (endpoint_stored _ _ Had) as [_ [r Hr]].
    destruct (node_get_run c) as [[Hno _]|(n & Hst & Hrun)]; [congruence|].
    erewrite stm_bind_run by exact Hrun.
    set (t1 := Traversal (<[c := {| sg_node := n; distance := S h |}]> (visited_nodes t))
                 (visited_edges t) (next_frontier t ++ [c])).
    assert (at_distance d root (S h) c) as Hdist.
    { split; [right; by exists a|]. intros j Hj Hw. assert (seen t c) as [x Hx].
      { apply Hold. eapply within_le; [|exact Hw]. lia. }
      congruence. }
    assert (nodes_ok (S h) t1) as Hn1.
    { destruct Hn as [Hn Hf]. split; cbn.
      - intros id x [[<- <-]|[Hne Hx]]%lookup_insert_Some; [by split_and!|by apply Hn].
      - intros id. rewrite elem_of_app, list_elem_of_singleton, Hf. split.
        + intros [(x & Hx & Hdx)| ->]; [|eexists; by rewrite lookup_insert_eq].
          exists x. rewrite lookup_insert_ne by congruence. done.
        + intros (x & [[-> _]|[_ Hx]]%lookup_insert_Some & Hdx); [by right|left; by exists x]. }
    assert (grown t t1) as Hg1.
    { split; [|done]. intros id Hs. unfold seen. cbn. by apply is_Some_insert. }
    destruct (IH t1 Hn1) as (t' & E & Hn' & Hg & He & Hs & Hz).
    { intros id Hw. by apply Hg1, Hold. }
    { eapply Forall_impl; [exact Hcs|]. intros x [Hx|Hx]; [left; by apply Hg1|by right]. }
    exists t'. split_and!; [done|done|by etransitivity|done| |].
    + constructor; [|done]. apply Hg. unfold seen. cbn. by rewrite lookup_insert_eq.
    + rewrite filter_cons_True by done. cbn in Hz |- *.
      rewrite map_size_insert_None in Hz by done.
      etransitivity; [exact Hz|]. rewrite <-Nat.add_succ_comm. apply Nat.add_le_mono_l.
      apply filter_length_mono. intros x Hx. by apply lookup_insert_None in Hx as [? _].
Qed.

(** During round [S h]. *)
Record round_ok (h : nat) (t : traversal) : Prop := {
  round_nodes : nodes_ok (S h) t;
  round_old id : Within h id → seen t id;
  round_edges : edges_ok h t;
  round_size : size (visited_nodes t) ≤ Nat.max 1 max_nodes }.

Lemma touching_spec n e :
  e ∈ (uncurry row_to_edge <$> filter (λ kr : hash32 * edge_row, ed_subject kr.2 = n ∨ ed_object kr.2 = n)
         (map_to_list (edges (proj d)))) ↔
  ∃ id r, edges (proj d) !! id = Some r ∧ touches r n ∧ e = row_to_edge id r.
Proof.
  rewrite list_elem_of_fmap. split.
  - intros ([id r] & -> & [Ht' Hin%elem_of_map_to_list]%list_elem_of_filter). by exists id, r.
  - intros (id & r & Hr & Htc & ->). exists (id, r). split; [done|].
    by rewrite list_elem_of_filter, elem_of_map_to_list.
Qed.

(** Both endpoints of an edge at a node seen: at most one is new. *)
Lemma visit_edge_spec h n id r t :
  round_ok h t → ¬ capped t → Within h n → edges (proj d) !! id = Some r → touches r n →
  ∃ t', visit_candidates (S h) [ed_subject r; ed_object r]
          (Traversal (visited_nodes t) (<[id := row_to_edge id r]> (visited_edges t)) (next_frontier t)) d
        = Ok (t', d) ∧ round_ok h t' ∧ grown t t' ∧
      seen_edge t' id ∧ seen t' (ed_subject r) ∧ seen t' (ed_object r).
Proof.
  intros [Hn Hold He Hz] Hcap Hw Hr Htc.
  assert (∀ c, c ∈ [ed_subject r; ed_object r] → adjacent d n c ∨ c = n) as Hadj.
  { intros c Hc. assert (joins r (ed_subject r) (ed_object r)) as Hj by (by left).
    assert (c = n ∨ joins r n c) as [->|Hj'].
    { unfold joins. apply elem_of_cons in Hc as [->|Hc]; [|apply list_elem_of_singleton in Hc as ->];
        destruct Htc as [<-|<-]; auto. }
    - by right.
    - left. by exists id, r. }
  edestruct (visit_candidates_spec h [ed_subject r; ed_object r]
    (Traversal (visited_nodes t) (<[id := row_to_edge id r]> (visited_edges t)) (next_frontier t)))
    as (t' & E & Hn' & Hg & Hve & Hs & Hz').
  { exact Hn. } { exact Hold. }
  { apply Forall_forall. intros c [Hc|Hc]%Hadj; [right; by exists n|left; subst; by apply Hold]. }
  cbn [visited_edges visited_nodes] in *. apply Forall_cons in Hs as [Hs1 Hs]. apply Forall_cons in Hs as [Hs2 _].
  assert (grown t t') as Hgt.
  { etransitivity; [|exact Hg]. split; [done|]. intros k Hk. unfold seen_edge. cbn. by apply is_Some_insert. }
  assert (seen_edge t' id) as Hid by (unfold seen_edge; rewrite Hve, lookup_insert_eq; done).
  exists t'. split_and!; [done|split; [done|..]|done..].
  - intros k Hk. by apply Hgt, Hold.
  - intros k e. rewrite Hve. intros [[<- <-]|[_ Hk]]%lookup_insert_Some.
    + exists r. split_and!; [done..|]. destruct Htc as [<-|<-]; [by left|by right].
    + apply He in Hk as (r' & Hr' & -> & H1 & H2 & H3). exists r'. split_and!; [done|done|by apply Hgt..|done].
  - assert (is_Some (visited_nodes t !! n)) as [x Hx] by by apply Hold.
    assert (length (filter (λ c, visited_nodes t !! c = None) [ed_subject r; ed_object r]) ≤ 1).
    { rewrite !filter_cons, filter_nil. destruct Htc as [Ee|Ee]; rewrite Ee, Hx; repeat case_decide; cbn; lia || done. }
    unfold capped in Hcap. lia.
Qed.

Lemma visit_edges_spec h n l : ∀ t,
  round_ok h t → Within h n →
  (∀ e, e ∈ l → ∃ id r, edges (proj d) !! id = Some r ∧ touches r n ∧ e = row_to_edge id r) →
  ∃ t', visit_edges max_nodes (S h) l t d = Ok (t', d) ∧ round_ok h t' ∧ grown t t' ∧
    (capped t' ∨ ∀ e, e ∈ l → seen_edge t' (e_id e) ∧ seen t' (e_subject e) ∧ seen t' (e_object e)).
Proof.
  induction l as [|e l IH]; intros t Hok Hw Hl; cbn [visit_edges].
  { exists t. split_and!; [done|done|reflexivity|]. right. by intros ? ?%elem_of_nil. }
  destruct (Nat.leb_spec max_nodes (size (visited_nodes t))) as [Hc|Hc].
  { exists t. split_and!; [done|done|reflexivity|by left]. }
  destruct (Hl e) as (id & r & Hr & Htc & ->); [by left|].
  destruct (visit_edge_spec h n id r t Hok) as (t1 & E & Hok1 & Hg1 & Hs1); [unfold capped; lia|done..|].
  destruct (IH t1 Hok1 Hw) as (t' & E' & Hok' & Hg' & Hres); [intros x Hx; apply Hl; by right|].
  exists t'. split_and!; [|done|by etransitivity|].
  - by erewrite stm_bind_run by exact E.
  - destruct Hres as [Hc'|Hres]; [by left|right]. intros x [->|Hx]%elem_of_cons; [|by apply Hres].
    cbn. destruct Hs1 as (? & ? & ?), Hg'. auto.
Qed.

Lemma visit_frontier_spec h l : ∀ t,
  round_ok h t → Forall (Within h) l →
  ∃ t', visit_frontier max_nodes (S h) l t d = Ok (t', d) ∧ round_ok h t' ∧ grown t t' ∧
    (capped t' ∨ Forall (covered t') l).
Proof.
  induction l as [|n l IH]; intros t Hok Hl; cbn [visit_frontier].
  { exists t. split_and!; [done|done|reflexivity|by right]. }
  apply Forall_cons in Hl as [Hn Hl]. erewrite stm_bind_run by reflexivity.
  edestruct (visit_edges_spec h n) as (t1 & E & Hok1 & Hg1 & Hs1);
    [exact Hok|exact Hn|intros e He; by apply touching_spec, He|].
  destruct (IH t1 Hok1 Hl) as (t' & E' & Hok' & Hg' & Hres).
  exists t'. split_and!; [|done|by etransitivity|].
  - erewrite stm_bind_run by exact E. exact E'.
  - destruct Hres as [Hc'|Hres]; [by left|]. destruct Hs1 as [Hc1|Hs1].
    + left. by eapply grown_capped.
    + right. constructor; [|done]. eapply grown_covered; [exact Hg'|]. intros id r Hr Htc.
      apply (Hs1 (row_to_edge id r)). apply touching_spec. by exists id, r.
Qed.

(** Before round [S h]: the traversal has been cut off, or it has seen exactly
    the nodes within [h] and every edge at a node within less. *)
Record loop_ok (h : nat) (t : traversal) : Prop := {
  loop_nodes : nodes_ok h t;
  loop_edges : edges_ok (pred h) t;
  loop_old id : Within (pred h) id → seen t id;
  loop_size : size (visited_nodes t) ≤ Nat.max 1 max_nodes;
  loop_seen : capped t ∨ ((∀ id, Within h id → seen t id) ∧
    (∀ id r m j, edges (proj d) !! id = Some r → touches r m → j < h → Within j m → seen_edge t id)) }.

Lemma traverse_spec k : ∀ h t,
  loop_ok h t →
  ∃ t', traverse max_nodes (S h) k t d = Ok (t', d) ∧
    ((loop_ok (h + k) t' ∧ ¬ capped t') ∨ (capped t' ∧ ∃ b, b ≤ h + k ∧ loop_ok b t')).
Proof.
  induction k as [|k IH]; intros h t Hok; cbn [traverse].
  { exists t. split; [done|]. rewrite Nat.add_0_r. destruct (decide (capped t)); [right|by left].
    split; [done|]. by exists h. }
  destruct (Nat.leb_spec max_nodes (size (visited_nodes t))) as [Hc|Hc].
  { exists t. split; [done|]. right. split; [done|]. exists h. split; [lia|done]. }
  destruct Hok as [[Hn Hf] He _ Hz [Hcap|[Hseen Hedges]]]; [unfold capped in Hcap; lia|].
  destruct (visit_frontier_spec h (next_frontier t) (Traversal (visited_nodes t) (visited_edges t) []))
    as (t1 & E & [Hn1 Hold1 He1 Hz1] & Hg1 & Hres).
  { split; [split|..]; cbn.
    - intros id x Hx. apply Hn in Hx as (? & ? & ?). split_and!; [done..|lia].
    - intros id. split; [by intros ?%elem_of_nil|]. intros (x & Hx & Hdx). apply Hn in Hx as (_ & _ & ?). lia.
    - exact Hseen.
    - intros id e Hin. apply He in Hin as (r & ? & ? & ? & ? & Hw). exists r. split_and!; [done..|].
      destruct Hw as [Hw|Hw]; [left|right]; (eapply within_le; [|exact Hw]); lia.
    - exact Hz. }
  { apply Forall_forall. intros id (x & Hx & <-)%Hf. apply Hn in Hx as (_ & [Hw _] & _). exact Hw. }
  replace (h + S k) with (S h + k) by lia.
  assert (loop_ok (S h) t1) as Hok1.
  { split; [done|exact He1|exact Hold1|done|]. destruct Hres as [Hc1|Hcov]; [by left|right].
    rewrite Forall_forall in Hcov.
    assert (∀ m, Within h m → covered t1 m ∨ ∃ j, j < h ∧ Within j m) as Hm.
    { intros m Hm. destruct (Hseen m Hm) as [x Hx]. pose proof (Hn m x Hx) as (_ & [Hw _] & Hle).
      destruct (decide (distance x = h)) as [Heq|Hne].
      - left. apply Hcov, Hf. by exists x.
      - right. exists (distance x). split; [lia|done]. }
    split.
    - intros id [Hw|(m & Hw & eid & r & Hr & Hj)]; [by apply Hold1|].
      destruct (Hm m Hw) as [Hc1|(j & Hj' & Hwj)].
      + destruct (Hc1 eid r Hr) as (_ & Hs & Ho); [destruct Hj as [[<- <-]|[<- <-]]; [by left|by right]|].
        by destruct Hj as [[<- <-]|[<- <-]].
      + apply Hold1. eapply (within_le d root (S j)); [lia|]. right. exists m. split; [done|]. by exists eid, r.
    - intros id r m j Hr Htc Hj Hw. assert (Within h m) as Hwh by (eapply within_le; [|exact Hw]; lia).
      destruct (Hm m Hwh) as [Hc1|(j' & Hj' & Hwj)]; [by destruct (Hc1 id r Hr Htc)|].
      apply Hg1. by eapply Hedges. }
  destruct (IH (S h) t1 Hok1) as (t' & E' & Hres'). exists t'. split; [|exact Hres'].
  by erewrite stm_bind_run by exact E.
Qed.

(** *** The result *)

Lemma stored_id id n : stored id n → n_id n = id.
Proof. intros (r & _ & H). unfold row_to_node in H. by apply result_bind_ok in H as (md & _ & [= <-]). Qed.
Lemma list_assertions_spec ids :
  ∃ l, list_assertions ids d = Ok (l, d) ∧ ∀ a, a ∈ l ↔
    a_edge_id a ∈ ids ∧ ∃ r, assertions (proj d) !! a_id a = Some r ∧ row_to_assertion (a_id a) r = Ok a.
Proof.
  assert (∀ id r a, row_to_assertion id r = Ok a → a_id a = id ∧ a_edge_id a = as_edge_id r) as Hfields.
  { intros id r a H. unfold row_to_assertion in H. apply result_bind_ok in H as (m & _ & H).
    by apply result_bind_ok in H as (s & _ & [= <-]). }
  induction ids as [|id ids (ls & E & Hls)]; cbn [list_assertions].
  { exists []. split; [done|]. intros a. rewrite elem_of_nil. split; [done|by intros [?%elem_of_nil _]]. }
  set (rows := filter (λ kr : hash32 * assertion_row, as_edge_id kr.2 = id) (map_to_list (assertions (proj d)))).
  assert (∀ kr, kr ∈ rows ↔ assertions (proj d) !! kr.1 = Some kr.2 ∧ as_edge_id kr.2 = id) as Hrows.
  { intros [k r]. unfold rows. rewrite list_elem_of_filter, elem_of_map_to_list. cbn. tauto. }
  assert (∃ l, mapM (M:=result StorageError) (uncurry row_to_assertion) rows = Ok l ∧
    ∀ a, a ∈ l ↔ ∃ kr, kr ∈ rows ∧ row_to_assertion kr.1 kr.2 = Ok a) as (l & El & Hl).
  { clearbody rows. assert (∀ kr, kr ∈ rows → is_ok (row_to_assertion kr.1 kr.2) = true) as Hok.
    { intros [k r] [Hk _]%Hrows. by apply (typed_assertions _ Ht) in Hk as (_ & _ & ?). }
    clear Hrows. induction rows as [|[k r] rows IH]; cbn.
    { exists []. split; [done|]. intros a. split; [by intros ?%elem_of_nil|by intros (? & ?%elem_of_nil & _)]. }
    pose proof (Hok (k, r) ltac:(left)) as H. cbn in H. destruct (row_to_assertion k r) as [a|] eqn:Ea; [|done].
    destruct IH as (l & -> & Hl); [intros kr Hkr; apply Hok; by right|]. exists (a :: l). split; [done|].
    intros a'. rewrite elem_of_cons, Hl. split.
    - intros [->|(kr & Hkr & Hrow)]; [exists (k, r); by split; [left|]|exists kr; by split; [right|]].
    - intros (kr & [->|Hkr]%elem_of_cons & Hrow); [left; cbn in Hrow; congruence|right; by exists kr]. }
  exists (l ++ ls). split.
  { unfold assertions_list_by_edge. cbv [mbind stm_bind get]. fold rows. rewrite El. cbn.
    cbv [mbind stm_bind]. by rewrite E. }
  intros a. rewrite elem_of_app, elem_of_cons, Hl, Hls. split.
  - intros [([k r] & [Hk Hid]%Hrows & Hrow)|[Hin Hr]]; [|by split; [right|]]. cbn in *.
    destruct (Hfields _ _ _ Hrow) as [-> ->]. split; [by left|by exists r].
  - intros [[Hid|Hin] (r & Hr & Hrow)]; [left|right; split; [done|by exists r]].
    exists (a_id a, r). rewrite Hrows. cbn. destruct (Hfields _ _ _ Hrow) as [_ Hed]. split_and!; congruence.
Qed.
End queries.

(** ** Properties *)

Section properties.
Context `{P : Platform} `{C : Codec} `{CL : !CodecLaws C}.

Definition node_ids (sg : Subgraph) : list hash32 := (λ x, n_id (sg_node x)) <$> sg_nodes sg.
Definition edge_ids (sg : Subgraph) : list hash32 := e_id <$> sg_edges sg.

(** What [get_subgraph] promises of its answer. *)
Record neighbourhood (d : db) (root : hash32) (depth max_nodes : nat) (sg : Subgraph) : Prop := {
  (** every node once, as stored, with its true distance *)
  nb_unique : NoDup (node_ids sg);
  nb_nodes x : x ∈ sg_nodes sg → stored d (n_id (sg_node x)) (sg_node x) ∧
    at_distance d root (distance x) (n_id (sg_node x)) ∧ distance x ≤ depth;
  nb_size : length (sg_nodes sg) ≤ Nat.max 1 max_nodes;
  (** the closest first *)
  nb_closest x id j : x ∈ sg_nodes sg → j < distance x → within d root j id → id ∈ node_ids sg;
  nb_edges e : e ∈ sg_edges sg → ∃ r, edges (proj d) !! e_id e = Some r ∧ e = row_to_edge (e_id e) r ∧
    ed_subject r ∈ node_ids sg ∧ ed_object r ∈ node_ids sg;
  nb_assertions a : a ∈ sg_assertions sg ↔ a_edge_id a ∈ edge_ids sg ∧
    ∃ r, assertions (proj d) !! a_id a = Some r ∧ row_to_assertion (a_id a) r = Ok a;
  (** all of them, unless the cap was reached *)
  nb_complete : length (sg_nodes sg) < max_nodes →
    (∀ id, within d root depth id → id ∈ node_ids sg) ∧
    (∀ id r m j, edges (proj d) !! id = Some r → touches r m → j < depth → within d root j m →
       id ∈ edge_ids sg) }.

Lemma subgraph_of_loop d root max_nodes depth b t l :
  loop_ok d root max_nodes b t → b ≤ depth → (capped max_nodes t ∨ b = depth) →
  (∀ a, a ∈ l ↔ a_edge_id a ∈ (map_to_list (visited_edges t)).*1 ∧
     ∃ r, assertions (proj d) !! a_id a = Some r ∧ row_to_assertion (a_id a) r = Ok a) →
  neighbourhood d root depth max_nodes {| sg_nodes := (map_to_list (visited_nodes t)).*2;
    sg_edges := (map_to_list (visited_edges t)).*2; sg_assertions := l |}.
Proof.
  intros [[Hn _] He Hold Hz Hseen] Hb Hcap Hl.
  assert (∀ id x, visited_nodes t !! id = Some x → n_id (sg_node x) = id) as Hid.
  { intros id x Hx. apply Hn in Hx as (Hs & _). by eapply stored_id. }
  assert ((λ x, n_id (sg_node x)) <$> (map_to_list (visited_nodes t)).*2 = (map_to_list (visited_nodes t)).*1) as Hids.
  { rewrite <-list_fmap_compose. apply list_fmap_ext. intros i [id x] Hi. cbn.
    by apply list_elem_of_lookup_2, elem_of_map_to_list, Hid in Hi. }
  assert (∀ id, id ∈ (map_to_list (visited_nodes t)).*1 ↔ seen t id) as Hin.
  { intros id. rewrite list_elem_of_fmap. split.
    - intros ([k x] & -> & Hk%elem_of_map_to_list). by exists x.
    - intros [x Hx]. exists (id, x). by rewrite elem_of_map_to_list. }
  assert (e_id <$> (map_to_list (visited_edges t)).*2 = (map_to_list (visited_edges t)).*1) as Heids.
  { rewrite <-list_fmap_compose. apply list_fmap_ext. intros i [id e] Hi. cbn.
    apply list_elem_of_lookup_2, elem_of_map_to_list, He in Hi as (r & _ & -> & _). done. }
  split; unfold node_ids, edge_ids; cbn [sg_nodes sg_edges sg_assertions]; rewrite ?Hids, ?Heids.
  - apply NoDup_fst_map_to_list.
  - intros x ([id y] & -> & Hx%elem_of_map_to_list)%list_elem_of_fmap. cbn. rewrite (Hid _ _ Hx).
    apply Hn in Hx as (? & ? & ?). split_and!; [done..|lia].
  - rewrite length_fmap, length_map_to_list. exact Hz.
  - intros x id j ([k y] & -> & Hx%elem_of_map_to_list)%list_elem_of_fmap Hj Hw. apply Hin, Hold.
    apply Hn in Hx as (_ & _ & ?). cbn in Hj. eapply within_le; [|exact Hw]. lia.
  - intros e ([k y] & -> & Hx%elem_of_map_to_list)%list_elem_of_fmap. cbn.
    apply He in Hx as (r & Hr & -> & Hs & Ho & _). exists r. by rewrite !Hin.
  - exact Hl.
  - intros Hlt. rewrite length_fmap, length_map_to_list in Hlt.
    destruct Hcap as [Hcap| ->]; [unfold capped in Hcap; lia|].
    destruct Hseen as [Hcap|[Hall Hedges]]; [unfold capped in Hcap; lia|]. split.
    + intros id Hw. by apply Hin, Hall.
    + intros id r m j Hr Htc Hj Hw. destruct (Hedges id r m j Hr Htc Hj Hw) as [e Hx].
      apply list_elem_of_fmap. exists (id, e). by rewrite elem_of_map_to_list.
Qed.

(** C17: A subgraph query answers with a neighbourhood: on a reachable database
    it fails exactly when the root is not stored; otherwise it returns, with
    its true distance from the root, each node within [depth] hops - all of
    them, and all edges at nodes within fewer hops, unless [max_nodes] were
    reached; then the closest ones, never more than the cap (or the root
    alone) - and the assertions on exactly the edges returned. *)
Theorem subgraph_is_neighbourhood d root depth max_nodes :
  reachable d →
  (nodes (proj d) !! root = None →
     get_subgraph root depth max_nodes d = Err (GNotFound ("node " +:+ to_hex root))) ∧
  (is_Some (nodes (proj d) !! root) → ∃ sg,
     get_subgraph root depth max_nodes d = Ok (sg, d) ∧ neighbourhood d root depth max_nodes sg).
Proof.
  intros [_ Ht%restores_typed]%reachable_inv. unfold get_subgraph.
  destruct (node_get_run d Ht root) as [[Hno Hrun]|(n & Hst & Hrun)];
    erewrite stm_bind_run by (unfold g_storage; by rewrite Hrun).
  { split; [done|]. rewrite Hno. by intros []. }
  split; [destruct Hst as (r & -> & _); done|]. intros _. erewrite stm_bind_run by reflexivity.
  destruct (traverse_spec d Ht root max_nodes depth 0
    (Traversal {[root := {| sg_node := n; distance := 0 |}]} ∅ [root])) as (t & E & Hres).
  { split; [split|..]; cbn.
    - intros id x [<- <-]%lookup_singleton_Some. split_and!; [done|split; [done|cbn; lia]|done].
    - intros id. rewrite list_elem_of_singleton. split.
      + intros ->. eexists. by rewrite lookup_singleton_eq.
      + by intros (x & [<- _]%lookup_singleton_Some & _).
    - intros id e H. cbn in H. by apply lookup_empty_Some in H.
    - intros id ->. unfold seen. cbn. by rewrite lookup_singleton_eq.
    - rewrite map_size_singleton. lia.
    - right. split; [|lia]. intros id ->. unfold seen. cbn. by rewrite lookup_singleton_eq. }
  erewrite stm_bind_run by (unfold g_storage; by rewrite E).
  destruct (list_assertions_spec d Ht (map_to_list (visited_edges t)).*1) as (l & El & Hl).
  erewrite stm_bind_run by (unfold g_storage; by rewrite El).
  eexists. split; [reflexivity|].
  destruct Hres as [[Hok Hcap]|(Hcap & b & Hb & Hok)].
  - eapply subgraph_of_loop; [exact Hok|done|by right|exact Hl].
  - eapply subgraph_of_loop; [exact Hok|exact Hb|by left|exact Hl].
Qed.
End properties.

Section witnesses.
#[local] Existing Instance Toy.platform.
#[local] Existing Instance demo_codec.

(** One hop from the page alice wrote about: the page and the concept. *)
Definition page : hash32 := NodeId_from_canonical_identifier "url:https://example.org/".
Definition concept : hash32 := NodeId_from_canonical_identifier "concept:protocol".
Definition subgraph_size (r : Subgraph * db) : nat * nat :=
  (length (sg_nodes r.1), length (sg_assertions r.1)).
Lemma subgraph_is_neighbourhood_witness : ∃ sg,
  get_subgraph page 1 200 asserted_db = Ok (sg, asserted_db) ∧ concept ∈ node_ids sg ∧
  length (sg_assertions sg) = 1.
Proof.
  destruct (@subgraph_is_neighbourhood Toy.platform demo_codec (ToyCodec.codec_laws _) asserted_db page 1 200
    asserted_reachable) as [_ H].
  assert (is_Some (nodes (proj asserted_db) !! page)) as Hp by (apply (bool_decide_unpack _); vm_compute; exact I).
  destruct (H Hp) as (sg & E & Hnb). exists sg. split; [exact E|].
  assert (subgraph_size <$> get_subgraph page 1 200 asserted_db = Ok (2, 1)) as Hsize by (vm_compute; reflexivity).
  rewrite E in Hsize. injection Hsize as Hn Ha. split; [|exact Ha].
  apply (nb_complete _ _ _ _ _ Hnb); [rewrite Hn; lia|]. right. exists page. split; [reflexivity|].
  exists (EdgeId_from_triple page "implements" concept).
  assert (edges (proj asserted_db) !! EdgeId_from_triple page "implements" concept
          = Some (EdgeRow page "implements" concept 101)) as Hr by (vm_compute; reflexivity).
  eexists. split; [exact Hr|]. left. split; reflexivity.
Defined.
End witnesses.
