(* ===== verification/GraphFacts.v ===== *)
(** * What the graph service guarantees

    Permissions, ownership, what [assert] leaves behind, and the life of an
    API key. *)

From S2P Require Import Prelude Core Envelope Store Projector EventLog Frame Scenario Chain Service Graph Rebuild Typing Ledger.

Section facts.
Context `{P : Platform} `{C : Codec} `{U : GraphPlatform}.
Context (identity : SigningKey) (clock : nat → Z).

(** ** Permissions *)

Lemma require_ok auth p :
  require auth p = Ok () → p ∈ auth_permissions auth ∨ Admin ∈ auth_permissions auth.
Proof. unfold require. do 2 case_bool_decide; cbn; naive_solver. Qed.
Lemma require_refused auth p :
  p ∉ auth_permissions auth → Admin ∉ auth_permissions auth →
  require auth p = Err (PermissionDenied (as_str p)).
Proof. intros. unfold require. by rewrite !bool_decide_false. Qed.

Lemma refused_bind {A} auth p (f : () → ste service GraphError A) s :
  p ∉ auth_permissions auth → Admin ∉ auth_permissions auth →
  (of_result (require auth p) ≫= f) s = (Err (PermissionDenied (as_str p)), s).
Proof. intros. apply ste_bind_fail. unfold of_result. by rewrite require_refused. Qed.

(** A committed event, as the service sees it. *)
Definition committed (p : EventPayload) (t : Z) (d : db) (id : hash32) (out : ProjectionOutcome)
    (d' : db) : Prop := commit_local_event identity p t d = (Ok (id, out), d').

Lemma commit_local_event_err p t d e d' :
  commit_local_event identity p t d = (Err e, d') → d' = d.
Proof. apply atomically_err. Qed.

Lemma commit_event_cases p t s :
  (∃ e, commit_event identity p t s = (Err (GEvents e), s)) ∨
  (∃ id out d', committed p t (store s) id out d' ∧
     commit_event identity p t s = (Ok (id, out), Svc d' (ticks s))).
Proof.
  unfold commit_event, transact, committed.
  destruct (commit_local_event identity p t (store s)) as [[[id out]|e] d'] eqn:Hr; cbn.
  - right. by exists id, out, d'.
  - left. exists e. apply commit_local_event_err in Hr as ->. by destruct s.
Qed.

Lemma commit_event_ok p t s id out s' :
  commit_event identity p t s = (Ok (id, out), s') → committed p t (store s) id out (store s').
Proof.
  intros H. destruct (commit_event_cases p t s) as [[e He]|(id' & out' & d' & Hc & He)];
    rewrite He in H; [done|]. by injection H as <- <- <-.
Qed.

Lemma commit_now_ok p s u s' :
  commit_now identity clock p s = (Ok u, s') →
  ∃ t id out, committed p t (store s) id out (store s').
Proof.
  unfold commit_now. intros H. apply ste_bind_ok in H as (t & s1 & [= <- <-] & H).
  apply ste_bind_ok in H as ([id out] & s2 & H1%commit_event_ok & [= _ <-]).
  by exists (clock (ticks s)), id, out.
Qed.

(** ** What [assert] commits *)

Definition evidence_payload (id : hash32) (e : EvidenceInput) : EventPayload :=
  AddEvidence {| ae_assertion_id := to_hex id;
    ae_evidence_type := default "other" (in_evidence_type e);
    ae_uri := in_uri e; ae_title := in_title e; ae_excerpt := in_excerpt e;
    ae_content_hash := in_content_hash e; ae_observed_at := in_observed_at e;
    ae_retrieved_at := in_retrieved_at e; ae_pinned_cid := in_pinned_cid e;
    ae_metadata := in_metadata e |}.

(** The database after committing these payloads one by one. *)
Inductive committed_all : list EventPayload → db → db → Prop :=
  | committed_nil d : committed_all [] d d
  | committed_cons p ps t d id out d' d'' :
      committed p t d id out d' → committed_all ps d' d'' → committed_all (p :: ps) d d''.

Lemma add_all_cases id es s :
  ∃ k r s', add_all identity clock id es s = (r, s') ∧
    committed_all (evidence_payload id <$> firstn k es) (store s) (store s') ∧
    match r with Ok _ => k = length es | Err _ => k < length es end.
Proof.
  revert s. induction es as [|e es IH]; intros s; cbn [add_all].
  { exists 0, (Ok ()), s. split_and!; [done|constructor|done]. }
  destruct (commit_event_cases (evidence_payload id e) (clock (ticks s))
    (Svc (store s) (S (ticks s)))) as [[err He]|(eid & out & d' & Hc & He)].
  - exists 0, (Err (GEvents err)), (Svc (store s) (S (ticks s))).
    split_and!; [|constructor|cbn; lia].
    apply ste_bind_fail. unfold add_evidence_internal.
    erewrite ste_bind_run by reflexivity. apply ste_bind_fail. exact He.
  - destruct (IH (Svc d' (S (ticks s)))) as (k & r & s' & Hrun & Hall & Hr).
    exists (S k), r, s'. split_and!.
    + erewrite ste_bind_run; [exact Hrun|]. unfold add_evidence_internal.
      erewrite ste_bind_run by reflexivity.
      by erewrite ste_bind_run by exact He.
    + cbn. eapply committed_cons; [exact Hc|exact Hall].
    + destruct r; cbn in *; lia.
Qed.

(** ** Keys *)

(** A successful commit appends a row, and projects it on what it found. *)
Lemma committed_inv p t d id out d' :
  committed p t d id out d' →
  ∃ row d2, project id t p (append_event row d) = Ok (out, d2) ∧ proj d' = proj d2 ∧ events (log d') = events (log d2).
Proof.
  intros H%atomically_ok. unfold commit_local_event_tx in H.
  apply stm_bind_ok in H as (o & d0 & [= <- <-] & H).
  destruct (chain_position _) as [next prev].
  apply stm_bind_ok in H as ([signed id'] & d0 & Hb & H).
  unfold lift in Hb. destruct (build_and_sign _ _ _ _ _) as [x|] eqn:Hbuild; [|done].
  injection Hb as -> <-. pose proof (build_and_sign_fields _ _ _ _ _ _ _ Hbuild) as Hf.
  apply stm_bind_ok in H as (canon & d0 & Hcan & H).
  unfold lift in Hcan. destruct (map_err _ _); [|done]. injection Hcan as _ <-.
  apply stm_bind_ok in H as (sig & d0 & Hsig & H).
  unfold lift in Hsig. destruct (map_err _ _); [|done]. injection Hsig as _ <-.
  apply stm_bind_ok in H as (ins & d1 & Hins & H).
  destruct ins; cbn [negb] in H; [|done].
  apply stm_bind_ok in H as (out' & d2 & Hp & H).
  rewrite Hf in Hp. cbn [payload] in Hp. cbn in H. injection H as <- <- <-.
  set (row := stored_event id' (identity_peer_id identity) next prev signed canon sig t t) in *.
  exists row, d2. split_and!; [|done|done]. unfold storage in Hins.
  destruct (insert_event_cases row d) as [Hi|[Hi _]]; rewrite Hi in Hins; cbn in Hins; [done|].
  by injection Hins as <-.
Qed.
Lemma committed_projects p t d id out d' :
  committed p t d id out d' →
  ∃ d1 d2, proj d1 = proj d ∧ project id t p d1 = Ok (out, d2) ∧ proj d' = proj d2.
Proof. intros (row & d2 & Hp & Hd & _)%committed_inv. by exists (append_event row d), d2. Qed.
Lemma committed_appends p t d id out d' :
  committed p t d id out d' → ∃ row, events (log d') = events (log d) ++ [row].
Proof.
  intros (row & d2 & Hp & _ & ->)%committed_inv. exists row. apply project_rest in Hp. unfold rest in Hp.
  by injection Hp as -> _ _ _.
Qed.

Lemma create_key_row `{!PlatformLaws P} actor (h : hash32) perms id t d out d' :
  committed (ActorKeyAdd {| ka_actor_id := to_hex actor; ka_key_hash := to_hex h;
                            ka_permissions := as_str <$> perms |}) t d id out d' →
  ∃ text, strings_to_string (as_str <$> perms) = Ok text ∧
          actor_keys (proj d') !! h = Some (KeyRow actor text t None).
Proof.
  intros (d1 & d2 & _ & Hp & ->)%committed_projects.
  cbn [project] in Hp. apply stm_bind_ok in Hp as ([] & d3 & Hp & [= _ <-]).
  unfold project_actor_key_add in Hp. cbn [ka_actor_id ka_key_hash ka_permissions] in Hp.
  unfold parse_id in Hp. rewrite Hash32_from_str_hex in Hp. cbn [map_err] in Hp.
  erewrite stm_bind_run in Hp by reflexivity.
  unfold decode_array, to_hex in Hp. rewrite hex_decode_encode in Hp.
  cbn [map_err mbind result_bind] in Hp. rewrite to_array_raw in Hp. cbn [ok_or] in Hp.
  erewrite stm_bind_run in Hp by reflexivity.
  rewrite omap_parse_as_str in Hp. unfold storage in Hp.
  destruct (actors_create_key h actor perms t d1) as [[[] d4]|] eqn:Hk; [|done].
  injection Hp as <-. unfold actors_create_key in Hk.
  destruct (strings_to_string _) as [text|]; [|done]. exists text. split; [done|].
  cbv [mbind stm_bind lift get] in Hk. cbn in Hk. unfold insert_into in Hk.
  destruct (negb (negb _)); [done|]. destruct (negb _); [done|]. injection Hk as <-.
  cbn. by rewrite lookup_insert_eq.
Qed.

Lemma authenticate_row `{!CodecLaws C} (raw_key : string) s actor perms text t :
  strings_to_string (as_str <$> perms) = Ok text →
  actor_keys (proj (store s)) !! blake3 raw_key = Some (KeyRow actor text t None) →
  authenticate raw_key s = (Ok {| auth_actor_id := actor; auth_permissions := perms |}, s).
Proof.
  intros Ht Hrow. unfold authenticate, query, actors_find_active_key.
  cbv [mbind ste_bind stm_bind get lift]. rewrite Hrow.
  cbn [kr_revoked_at kr_permissions kr_actor].
  destruct (strings_text (as_str <$> perms)) as (text' & Ht' & Hback).
  assert (text' = text) as -> by congruence. rewrite Hback.
  cbn [map_err]. cbv [mret stm_ret]. rewrite omap_parse_as_str. done.
Qed.

Lemma revoked_row `{!PlatformLaws P} actor hex (h : hash32) id t d out d' :
  hex_decode hex = Ok (raw h) → is_Some (actor_keys (proj d) !! h) →
  committed (ActorKeyRevoke {| kr_actor_id := actor; kr_key_hash := hex |}) t d id out d' →
  ∃ row, actor_keys (proj d') !! h = Some row ∧ is_Some (kr_revoked_at row).
Proof.
  intros Hhex Hold (d1 & d2 & Hd & Hp & ->)%committed_projects.
  cbn [project] in Hp. apply stm_bind_ok in Hp as ([] & d3 & Hp & [= _ <-]).
  unfold project_actor_key_revoke in Hp. cbn [kr_key_hash] in Hp.
  unfold decode_array in Hp. rewrite Hhex in Hp.
  cbn [map_err mbind result_bind] in Hp. rewrite to_array_raw in Hp. cbn [ok_or] in Hp.
  erewrite stm_bind_run in Hp by reflexivity.
  apply stm_bind_ok in Hp as (b & d4 & Hr & [= <-]).
  unfold storage, actors_revoke_key in Hr. cbv [mbind stm_bind get] in Hr. rewrite <-Hd in Hold.
  destruct (actor_keys (proj d1) !! h) as [[a ps c [r|]]|] eqn:Hk; cbn in Hr; [..|by destruct Hold];
    injection Hr as _ <-; cbn.
  - eexists. rewrite Hk. split; [done|by eexists].
  - eexists. rewrite lookup_insert_eq. split; [done|by eexists].
Qed.
(** Revoking succeeds on a key that is there, and leaves it revoked. *)
Lemma revoke_key_row `{!PlatformLaws P} (k : hash32) s s' :
  revoke_key identity clock (to_hex k) s = (Ok (), s') →
  ∃ row, actor_keys (proj (store s')) !! k = Some row ∧ is_Some (kr_revoked_at row).
Proof.
  unfold revoke_key. intros Hr.
  assert (hex_decode (to_hex k) = Ok (raw k)) as Hdec by apply hex_decode_encode.
  rewrite Hdec in Hr. cbn [map_err] in Hr.
  erewrite ste_bind_run in Hr by reflexivity. rewrite to_array_raw in Hr. cbn [ok_or] in Hr.
  erewrite ste_bind_run in Hr by reflexivity.
  apply ste_bind_ok in Hr as ([ak|] & s4 & Hq & Hr); [|done].
  assert (s4 = s ∧ is_Some (actor_keys (proj (store s)) !! k)) as [-> Hold].
  { unfold query, actors_find_active_key in Hq. cbv [mbind stm_bind get] in Hq. cbn in Hq.
    destruct (actor_keys (proj (store s)) !! k) as [row|]; [|by injection Hq].
    split; [|by eexists]. destruct (kr_revoked_at row); [by injection Hq|].
    destruct (map_err BadMetadata _); cbn in Hq; by injection Hq. }
  apply ste_bind_ok in Hr as (t & s5 & [= <- <-] & Hr).
  apply ste_bind_ok in Hr as ([id out] & s6 & Hr & [= <-]).
  apply commit_event_ok in Hr. by eapply revoked_row.
Qed.
End facts.

Lemma pair_snd {A B} (a : A) (x : A * B) : x.1 = a → x = (a, x.2).
Proof. by destruct x as [? ?]; cbn; intros ->. Qed.

(** *** A key over the life of a database *)

Section keys.
Context `{P : Platform} `{C : Codec} `{CL : !CodecLaws C} `{U : GraphPlatform}.

(** A stored event that revokes the key. *)
Definition revokes (k : hash32) (e : event_row) : Prop :=
  ∃ id t q, entry_of e = Some (id, t, ActorKeyRevoke q) ∧ decoded (kr_key_hash q) = Some k.

(** Hearing further events: a key that is there stays as it is until one
    revokes it, and then stays revoked. *)
Lemma key_kept k new r : (∀ e, e ∈ new → ¬ revokes k e) →
  fold_left (key_heard k) (omap entry_of new) (Some r) = Some r.
Proof.
  induction new as [|e new IH]; intros Hno; [done|]. cbn.
  assert (fold_left (key_heard k) (omap entry_of new) (Some r) = Some r) as Hrest
    by (apply IH; intros e' He'; apply Hno; by right).
  destruct (entry_of e) as [[[id t] p]|] eqn:He; [|done]. cbn.
  destruct p as [| | | | | | | |q|]; try done. cbn. rewrite decide_False; [done|].
  intros Hk. apply (Hno e); [by left|]. by exists id, t, q.
Qed.
Lemma key_stays_revoked k new r : is_Some (kr_revoked_at r) → ∃ r',
  fold_left (key_heard k) (omap entry_of new) (Some r) = Some r' ∧ is_Some (kr_revoked_at r').
Proof.
  revert r. induction new as [|e new IH]; intros r Hr; [by exists r|]. cbn.
  destruct (entry_of e) as [[[id t] p]|]; [|by apply IH]. cbn.
  destruct p as [| | | | | | | |q|]; try by apply IH. cbn. case_decide; [|by apply IH]. apply IH. by eexists.
Qed.
Lemma key_revoked k new r : (∃ e, e ∈ new ∧ revokes k e) → ∃ r',
  fold_left (key_heard k) (omap entry_of new) (Some r) = Some r' ∧ is_Some (kr_revoked_at r').
Proof.
  revert r. induction new as [|e new IH]; intros r (e' & Hin & Hk); [by apply not_elem_of_nil in Hin|].
  apply elem_of_cons in Hin as [->|Hin]; cbn.
  - destruct Hk as (id & t & q & He & Hk). rewrite He. cbn. rewrite Hk, decide_True by done.
    apply key_stays_revoked. by eexists.
  - destruct (entry_of e) as [[[id t] p]|]; [|by eapply IH; eauto]. cbn.
    destruct p as [| | | | | | | |q|]; try (by eapply IH; eauto). cbn. case_decide; by eapply IH; eauto.
Qed.
(** The row of a key in a database whose log goes on from that of another. *)
Lemma key_later k d d' new : reachable d → reachable d' → events (log d') = events (log d) ++ new →
  actor_keys (proj d') !! k = fold_left (key_heard k) (omap entry_of new) (actor_keys (proj d) !! k).
Proof.
  intros [_ [Ht _]%restores_tells]%reachable_inv [_ [Ht' _]%restores_tells]%reachable_inv Hlog.
  rewrite (tells_keys _ _ Ht), (tells_keys _ _ Ht'). unfold journal, told. by rewrite Hlog, omap_app, fold_left_app.
Qed.
Lemma authenticate_revoked (raw_key : string) s :
  (∀ r, actor_keys (proj (store s)) !! blake3 raw_key = Some r → is_Some (kr_revoked_at r)) →
  authenticate raw_key s = (Err InvalidApiKey, s).
Proof.
  intros Hrow. unfold authenticate, query, actors_find_active_key. cbv [mbind ste_bind stm_bind get]. cbn.
  destruct (actor_keys (proj (store s)) !! blake3 raw_key) as [row|]; [|done]. by destruct (Hrow row eq_refl) as [r ->].
Qed.
End keys.

(** An operation that refuses with this error and changes nothing. *)
Definition refuses {A} (m : ste service GraphError A) (e : GraphError) (s : service) : Prop :=
  m s = (Err e, s).

(** ** Properties *)

Section properties.
Context `{P : Platform} `{C : Codec} `{U : GraphPlatform}.
Context (identity : SigningKey) (clock : nat → Z).

(** A caller that holds neither the permission an operation requires nor
    [admin] is refused by every writing operation of the service, with the
    permission named and nothing changed. *)
Theorem missing_permission_refused auth s :
  Admin ∉ auth_permissions auth →
  (GraphAssert ∉ auth_permissions auth →
     (∀ i, refuses (assert_ identity clock auth i) (PermissionDenied "graph:assert") s) ∧
     (∀ id e, refuses (add_evidence identity clock auth id e) (PermissionDenied "graph:assert") s) ∧
     (∀ n a ty, refuses (declare_alias identity clock auth n a ty) (PermissionDenied "graph:assert") s) ∧
     (∀ id r, refuses (dispute_assertion identity clock auth id r) (PermissionDenied "graph:assert") s) ∧
     (∀ o n, refuses (supersede_assertion identity clock auth o n) (PermissionDenied "graph:assert") s)) ∧
  (GraphVerify ∉ auth_permissions auth →
     ∀ id r t, refuses (verify_assertion identity clock auth id r t) (PermissionDenied "graph:verify") s) ∧
  (GraphRetractOwn ∉ auth_permissions auth →
     ∀ id r, refuses (retract_assertion identity clock auth id r) (PermissionDenied "graph:retract-own") s).
Proof. intros Ha. split_and!; intros Hp; split_and?; intros; by apply refused_bind. Qed.

(** Retraction is for the author: whenever [retract_assertion] succeeds, the
    assertion exists and the caller is its asserting actor or holds [admin];
    and what it committed is one retraction event in the caller's name. *)
Theorem retract_requires_ownership auth id reason s s' :
  retract_assertion identity clock auth id reason s = (Ok (), s') →
  ∃ row t eid out,
    assertions (proj (store s)) !! id = Some row ∧
    (as_actor_id row = auth_actor_id auth ∨ Admin ∈ auth_permissions auth) ∧
    committed identity (RetractAssertion {| ra_retracted_assertion_id := to_hex id;
      ra_actor_id := to_hex (auth_actor_id auth); ra_reason := reason |}) t (store s) eid out (store s').
Proof.
  unfold retract_assertion. intros H.
  apply ste_bind_ok in H as (? & s0 & [= _ <-] & H).
  apply ste_bind_ok in H as (? & s0 & [= _ <-] & H).
  apply ste_bind_ok in H as (found & s0 & Hq & H).
  unfold get_assertion, query in Hq. injection Hq as Hq <-.
  apply ste_bind_ok in H as (a & s0 & Ha & H). unfold of_result in Ha.
  destruct found as [a1|]; [|done]. injection Ha as -> <-.
  unfold assertions_get_by_id in Hq. cbv [mbind stm_bind get] in Hq.
  destruct (assertions (proj (store s)) !! id) as [row|]; [|done]. cbn in Hq.
  assert (a_actor_id a = as_actor_id row) as Hact.
  { unfold lift in Hq. destruct (row_to_assertion id row) as [a'|] eqn:Hx; [|done].
    cbn in Hq. injection Hq as ->. unfold row_to_assertion in Hx.
    apply result_bind_ok in Hx as (m & _ & Hx).
    by apply result_bind_ok in Hx as (st & _ & [= <-]). }
  destruct (negb _ && negb _) eqn:Hb; [done|].
  apply commit_now_ok in H as (t & eid & out & Hc).
  exists row, t, eid, out. split_and!; [done| |done]. rewrite <-Hact.
  do 2 case_bool_decide; cbn in Hb; naive_solver.
Qed.

(** C16: What [assert] leaves behind: nothing if it refuses the caller, the input
    or the relation itself; otherwise the relation and the first [k] pieces of
    evidence, all of them exactly when it succeeds.  A piece of evidence that
    the projector rejects makes it fail with the relation and the earlier
    evidence already committed. *)
Theorem assert_commits_prefix auth i s :
  let '(r, s') := assert_ identity clock auth i s in
  (∃ e, r = Err e ∧ store s' = store s) ∨
  (∃ t id out d1 k,
     committed identity (assert_payload auth i) t (store s) id out d1 ∧
     committed_all identity (evidence_payload id <$> firstn k (in_evidence i)) d1 (store s') ∧
     match r with
     | Ok id' => id' = id ∧ k = length (in_evidence i)
     | Err _ => k < length (in_evidence i)
     end).
Proof.
  unfold assert_. cbv [mbind ste_bind of_result].
  destruct (require auth GraphAssert) as [?|e]; [|left; by exists e].
  destruct (AssertInput_validate i) as [?|e]; [|left; by exists e]. cbv [now read_clock].
  destruct (commit_event_cases identity (assert_payload auth i) (clock (ticks s))
    (Svc (store s) (S (ticks s)))) as [[e ->]|(id & out & d1 & Hc & ->)]; [left; by eexists|].
  cbn [ticks].
  destruct (add_all_cases identity clock id (in_evidence i) (Svc d1 (S (ticks s))))
    as (k & r & s' & -> & Hall & Hk).
  destruct r as [?|e]; cbn [mret ste_ret]; right; exists (clock (ticks s)), id, out, d1, k;
    by split_and!.
Qed.

(** C15: The life of an API key.  The raw key returned by [create_key]
    authenticates as the actor and with exactly the permissions it was created
    for: at once, and in every later database, one whose log goes on from
    there, as long as no event in between revokes the key; if one does, it is
    refused, in every database after that.  [revoke_key] on its hash succeeds
    only by such an event: the key is refused at once and in every later
    database, whatever else is committed or ingested. *)
Theorem key_lifecycle `{!PlatformLaws P} `{!CodecLaws C} rng actor perms s raw_key s1 :
  create_key identity clock rng actor perms s = (Ok raw_key, s1) →
  let ctx := {| auth_actor_id := actor; auth_permissions := perms |} in
  let k := blake3 raw_key in
  authenticate raw_key s1 = (Ok ctx, s1) ∧
  (∀ later new, reachable (store s1) → reachable (store later) →
     events (log (store later)) = events (log (store s1)) ++ new →
     ((∀ e, e ∈ new → ¬ revokes k e) → authenticate raw_key later = (Ok ctx, later)) ∧
     ((∃ e, e ∈ new ∧ revokes k e) → refuses (authenticate raw_key) InvalidApiKey later)) ∧
  (∀ s2 s3, revoke_key identity clock (to_hex k) s2 = (Ok (), s3) →
     refuses (authenticate raw_key) InvalidApiKey s3 ∧
     ∀ later new, reachable (store s3) → reachable (store later) →
       events (log (store later)) = events (log (store s3)) ++ new →
       refuses (authenticate raw_key) InvalidApiKey later).
Proof.
  unfold create_key. intros H.
  apply ste_bind_ok in H as (t & s0 & [= <- <-] & H).
  apply ste_bind_ok in H as ([id out] & s0 & H & [= <- <-]).
  match goal with |- context [?pre +:+ hex_encode (raw rng)] =>
    set (raw_key := pre +:+ hex_encode (raw rng)) in * end.
  apply commit_event_ok in H. cbn [store] in H.
  destruct (create_key_row identity _ _ _ _ _ _ _ _ H) as (text & Ht & Hrow).
  cbv zeta. split_and!.
  - by eapply authenticate_row.
  - intros later new H1 H2 Hlog. pose proof (key_later (blake3 raw_key) _ _ _ H1 H2 Hlog) as Hk. rewrite Hrow in Hk. split.
    + intros Hno. rewrite key_kept in Hk by done. by eapply authenticate_row.
    + intros Hyes. destruct (key_revoked _ _ (KeyRow actor text (clock (ticks s)) None) Hyes) as (r & Hr & Hrev).
      apply authenticate_revoked. intros r' Hr'. rewrite Hk, Hr in Hr'. by injection Hr' as <-.
  - intros s2 s3 Hr. destruct (revoke_key_row identity clock _ _ _ Hr) as (r & Hr3 & Hrev). split.
    + apply authenticate_revoked. intros r' Hr'. rewrite Hr3 in Hr'. by injection Hr' as <-.
    + intros later new H3 H4 Hlog. pose proof (key_later (blake3 raw_key) _ _ _ H3 H4 Hlog) as Hk. rewrite Hr3 in Hk.
      destruct (key_stays_revoked (blake3 raw_key) new r Hrev) as (r' & Hr' & Hrev').
      apply authenticate_revoked. intros r'' Hr''. rewrite Hk, Hr' in Hr''. by injection Hr'' as <-.
Qed.
End properties.

(** ** Witnesses *)

Section witnesses.
#[local] Existing Instance Toy.platform.
#[local] Existing Instance demo_codec.

#[local] Existing Instance ToyGraph.plain_urls.

Definition tick (n : nat) : Z := 200 + Z.of_nat n.
Definition reader : AuthContext := {| auth_actor_id := writer; auth_permissions := [GraphRead] |}.
Definition author : AuthContext :=
  {| auth_actor_id := writer; auth_permissions := [GraphAssert; GraphRetractOwn] |}.
Definition stated_db : db := (commit_local_event alice (assert_p writer "implements") 101 declared_db).2.
Definition stated : service := Svc stated_db 0.

Lemma missing_permission_refused_witness :
  retract_assertion alice tick reader (id_of e2) None stated
    = (Err (PermissionDenied "graph:retract-own"), stated).
Proof.
  assert (∀ p, p ≠ GraphRead → p ∉ auth_permissions reader) as H.
  { intros p Hp. cbn. intros [->|[]%not_elem_of_nil]%elem_of_cons. done. }
  destruct (@missing_permission_refused Toy.platform demo_codec ToyGraph.plain_urls alice tick reader stated)
    as (_ & _ & Hr); [by apply H|].
  exact (Hr (H GraphRetractOwn ltac:(discriminate)) (id_of e2) None).
Defined.

Definition retracted : service := (retract_assertion alice tick author (id_of e2) None stated).2.
Lemma retracted_run :
  retract_assertion alice tick author (id_of e2) None stated = (Ok (), retracted).
Proof.
  assert (∀ x : result GraphError () * service, x.1 = Ok () → x = (Ok (), x.2)) as H
    by (by intros [r s] [= ->]).
  apply H. vm_compute. reflexivity.
Qed.
Lemma retract_requires_ownership_witness : is_Some (assertions (proj stated_db) !! id_of e2).
Proof.
  destruct (@retract_requires_ownership Toy.platform demo_codec alice tick author
    (id_of e2) None stated retracted retracted_run) as (row & t & eid & out & Hrow & _).
  exact (ex_intro _ row Hrow).
Defined.

End witnesses.

(** A key is made and revoked. *)
Section key_witness.
#[local] Existing Instance Toy.platform.
#[local] Existing Instance ToyGraph.plain_urls.

Definition made_key : string := "oagk_" +:+ hex_encode (raw (Toy.hash "random")).
Definition key_p : EventPayload := ActorKeyAdd {| ka_actor_id := to_hex writer;
  ka_key_hash := to_hex (blake3 made_key); ka_permissions := as_str <$> [GraphRead; GraphAssert] |}.
Definition revoke_p : EventPayload := ActorKeyRevoke {| kr_actor_id := to_hex writer;
  kr_key_hash := to_hex (blake3 made_key) |}.
Definition key_event := sign_as alice 2 (Some (id_of e1)) 200 key_p.
Definition revoke_event := sign_as alice 3 (Some (id_of key_event)) 201 revoke_p.
Definition key_table : list SignedEvent := concat (signed_of <$> [e1; key_event; revoke_event]).
#[local] Instance key_codec : Codec := ToyCodec.codec key_table.

Definition key_db : db := (commit_local_event alice declare_p 100 empty_db).2.
Definition key_made : service :=
  (create_key alice tick (Toy.hash "random") writer [GraphRead; GraphAssert] (Svc key_db 0)).2.
Definition key_gone : service := (revoke_key alice tick (to_hex (blake3 made_key)) key_made).2.
Lemma key_made_run :
  create_key alice tick (Toy.hash "random") writer [GraphRead; GraphAssert] (Svc key_db 0) = (Ok made_key, key_made).
Proof. unfold key_made. apply pair_snd. vm_compute. reflexivity. Qed.
Lemma key_gone_run : revoke_key alice tick (to_hex (blake3 made_key)) key_made = (Ok (), key_gone).
Proof. unfold key_gone. apply pair_snd. vm_compute. reflexivity. Qed.

Lemma faithful_text table e : @signed_from_slice (ToyCodec.codec table) (ToyCodec.signed_text e) = Ok e →
  @faithful (ToyCodec.codec table) e.
Proof. by intros H t [= <-]. Qed.
Ltac one_commit e :=
  apply (commit_reachable (P:=Toy.platform) alice _ _ _ (event_of e) (id_of e));
    [|vm_compute; reflexivity..|apply faithful_text; vm_compute; reflexivity].
Lemma key_made_reachable : reachable (store key_made).
Proof.
  assert (store key_made = (commit_local_event alice key_p 200 key_db).2) as -> by (vm_compute; reflexivity).
  one_commit key_event. one_commit e1. apply reachable_empty.
Qed.
Lemma key_gone_reachable : reachable (store key_gone).
Proof.
  assert (store key_gone = (commit_local_event alice revoke_p 201 (store key_made)).2) as -> by (vm_compute; reflexivity).
  one_commit revoke_event. apply key_made_reachable.
Qed.
Lemma key_gone_log : events (log (store key_gone)) = events (log (store key_made)) ++ drop 2 (events (log (store key_gone))).
Proof.
  assert (events (log (store key_made)) = take 2 (events (log (store key_gone)))) as -> by (vm_compute; reflexivity).
  by rewrite take_drop.
Qed.
Lemma key_gone_revokes : ∃ e, e ∈ drop 2 (events (log (store key_gone))) ∧ revokes (blake3 made_key) e.
Proof.
  assert (entry_of <$> drop 2 (events (log (store key_gone))) = [Some (id_of revoke_event, 201%Z, revoke_p)]) as Hnew
    by (vm_compute; reflexivity).
  assert (decoded (to_hex (blake3 made_key)) = Some (blake3 made_key)) as Hk by (vm_compute; reflexivity).
  revert Hnew. generalize (drop 2 (events (log (store key_gone)))). intros [|e l] Hnew; [discriminate Hnew|].
  apply (f_equal head) in Hnew. apply (inj Some) in Hnew. exists e. split; [left|].
  exists (id_of revoke_event), 201%Z, {| kr_actor_id := to_hex writer; kr_key_hash := to_hex (blake3 made_key) |}.
  split; [exact Hnew|exact Hk].
Qed.
Lemma reachable_svc d n : reachable d → reachable (store (Svc d n)).
Proof. done. Qed.
Lemma same_log d n : events (log (store (Svc d n))) = events (log d) ++ [].
Proof. cbn. by rewrite app_nil_r. Qed.
Lemma key_lifecycle_witness :
  authenticate made_key key_made
    = (Ok {| auth_actor_id := writer; auth_permissions := [GraphRead; GraphAssert] |}, key_made) ∧
  authenticate made_key (Svc (store key_made) 7)
    = (Ok {| auth_actor_id := writer; auth_permissions := [GraphRead; GraphAssert] |}, Svc (store key_made) 7) ∧
  authenticate made_key key_gone = (Err InvalidApiKey, key_gone).
Proof.
  destruct (@key_lifecycle Toy.platform key_codec alice tick Toy.laws
    (ToyCodec.codec_laws _) (Toy.hash "random") writer [GraphRead; GraphAssert]
    (Svc key_db 0) made_key key_made key_made_run) as (Ha & Hl & _).
  split_and!; [exact Ha|..].
  - destruct (Hl (Svc (store key_made) 7) [] key_made_reachable (reachable_svc _ 7 key_made_reachable) (same_log _ 7)) as [Hkept _].
    apply Hkept. intros e He. destruct (not_elem_of_nil _ He).
  - destruct (Hl key_gone _ key_made_reachable key_gone_reachable key_gone_log) as [_ Hrefused]. apply Hrefused.
    apply key_gone_revokes.
Defined.
End key_witness.
