(* ===== verification/SyncFacts.v ===== *)
(** * What replication guarantees

    Against any remote: the log only grows, by events their origins signed
    and this peer admits, and the peers table never pairs a peer with a key
    that is not its own.  Against an honest remote: the local chains catch
    up. *)

From S2P Require Import Prelude Core Envelope Store Projector EventLog Frame Scenario Chain Replay.
From S2P Require Import Service Presence Float32 Trust Tensor Sync Graph Rebuild.

(** ** Ingesting, whatever the state of the database *)

Section ingest.
Context `{P : Platform} `{C : Codec}.

(** [e] is the row of the event [signed], accepted under [key]. *)
Definition row_of (key : VerifyingKey) (signed : SignedEvent) (e : event_row) : Prop :=
  check_envelope key signed = Ok (er_event_id e, er_origin_peer_id e, er_previous_event_id e) ∧
  canonical_signed signed = Ok (er_canonical_payload e) ∧
  er_sequence e = wrap_i64 (sequence (unsigned signed)).

Lemma ingest_events key signed t d :
  let d' := (ingest_remote_event key signed t d).2 in
  ops d' = ops d ∧
  ((events (log d') = events (log d) ∧ net d' = net d) ∨
   (∃ e, row_of key signed e ∧ events (log d') = events (log d) ++ [e] ∧ net d' = net d) ∨
   (∃ o a b text,
      let s := wrap_i64 (sequence (unsigned signed)) in
      o = PeerId_from_public_key key ∧ proj d' = proj d ∧ log d' = log d ∧
      (∃ a' b', (ingest_remote_event key signed t d).1 = Ok (Forked a' b')) ∧
     Ok ((), d') = (_ ← upsert_peer o (vk_bytes key) None t;
                     _ ← record_fork o s a b t text; mark_forked o) d)).
Proof.
  unfold ingest_remote_event.
  destruct (check_envelope key signed) as [[[id o] prev]|err] eqn:Hcheck; [|by split; [|left]].
  destruct (atomically _ d) as [[r|err] d'] eqn:Hrun;
    [|apply atomically_err in Hrun as ->; by split; [|left]].
  apply atomically_ok in Hrun. unfold ingest_tx in Hrun. cbn [snd].
  apply stm_bind_ok in Hrun as (found & d0 & Hf & Hrun).
  unfold storage, find_event_id_at, gets in Hf. cbn in Hf. injection Hf as <- <-.
  destruct (er_event_id <$> _) as [existing|].
  - case_decide; [injection Hrun as _ <-; by split; [|left]|].
    apply stm_bind_ok in Hrun as ([] & d1 & H1 & Hrun).
    apply stm_bind_ok in Hrun as (text & d1' & Ht & Hrun).
    unfold lift in Ht. destruct (map_err _ _); [|done]. injection Ht as _ <-.
    apply stm_bind_ok in Hrun as ([] & d2 & H2 & Hrun).
    apply stm_bind_ok in Hrun as ([] & d3 & H3 & Hrun). injection Hrun as <- <-.
    unfold storage in H1, H2, H3. unfold upsert_peer in H1. injection H1 as <-.
    rewrite record_fork_run in H2. injection H2 as <-. injection H3 as <-.
    split; [done|]. right. right. exists o, existing, id, text.
    apply check_envelope_inv in Hcheck as (_ & _ & -> & _). split_and!; [done..|by eexists _, _|].
    cbv [mbind stm_bind upsert_peer modify]. by rewrite record_fork_run.
  - apply stm_bind_ok in Hrun as (org & d3 & Ho & Hrun).
    unfold storage, get_origin, gets in Ho. cbn in Ho. injection Ho as <- <-.
    destruct (chain_position _) as [next head].
    apply stm_bind_ok in Hrun as ([] & d4 & Hv & Hrun).
    unfold lift in Hv. destruct (validate_chain _ _ _ _); [|done]. injection Hv as _ <-.
    apply stm_bind_ok in Hrun as (canon & d5 & Hc & Hrun).
    unfold lift in Hc. destruct (canonical_signed signed) as [?|] eqn:Hcs; [|done].
    cbn in Hc. injection Hc as -> <-.
    apply stm_bind_ok in Hrun as (sig & d6 & Hs & Hrun).
    unfold lift in Hs. destruct (map_err _ _); [|done]. injection Hs as _ <-.
    apply stm_bind_ok in Hrun as (ins & d1 & Hi & Hrun).
    apply stm_bind_ok in Hrun as (out & d2 & Hp & Hrun).
    unfold storage, advance_origin, modify in Hrun. cbn in Hrun. injection Hrun as _ <-.
    apply project_rest in Hp. injection Hp as He Ho Hn Hop. cbn.
    set (e := stored_event _ _ _ _ _ _ _ _ _) in Hi. unfold storage in Hi.
    destruct (insert_event_cases e d) as [Hins|[Hins _]]; rewrite Hins in Hi; cbn in Hi;
      injection Hi as _ <-; cbn in He, Hn, Hop; rewrite Hop, Hn, He; split; try done.
    + by left.
    + right. left. by exists e.
Qed.
End ingest.

(** ** What a run of the replication code does to the database *)

Section trace.
Context `{P : Platform} `{L : !PlatformLaws P} `{C : Codec} `{SC : StatementCodec}.
Context {LN : Logarithm} (cfg : SyncConfig) (clock : nat → Z) (served : VerifyingKey → SignedEvent → Prop).

(** Every known peer is stored with the key its id is the hash of. *)
Definition binds (n : peer_tables) : Prop :=
  ∀ o row, peers n !! o = Some row → o = blake3 (raw (pe_public_key row)).

(** What [federation_allows] grants: the origin's latest cluster claim is this
    peer's own cluster, or the policy lets it through and, unless no trust is
    asked for, its trust at [now] is enough. *)
Definition admitted (d : db) (now : Z) (o : hash32) : Prop :=
  (∃ mine claim, own_cluster cfg = Some mine ∧
     peer_cluster_claims (net d) !! o = Some claim ∧ cl_cluster claim = mine) ∨
  allows (federation cfg) o = true ∧
    (SFleb (minimum_trust cfg) f32_zero = true ∨
     ∃ score, compute_trust o now (trust_config cfg) d = Ok (score, d) ∧
       SFleb (minimum_trust cfg) score = true).

(** An acceptable change of the peer tables: peers are learned, with their own
    key, and marked forked; nobody's presence, farewell or cluster claim
    changes, nor the pad of another peer. *)
Record net_ok (n n' : peer_tables) : Prop := {
  net_binds : binds n → binds n';
  net_keys o row : peers n !! o = Some row →
    ∃ row', peers n' !! o = Some row' ∧ pe_public_key row' = pe_public_key row;
  net_presence : peer_presence n' = peer_presence n;
  net_offline : address_going_offline n' = address_going_offline n;
  net_claims : peer_cluster_claims n' = peer_cluster_claims n;
  net_pads o : o ≠ self_peer_id cfg → tensor_pads n' !! o = tensor_pads n !! o }.

#[export] Instance net_ok_preorder : PreOrder net_ok.
Proof.
  split.
  - intros n. split; [done| |done..]. intros o row Hr. by exists row.
  - intros n1 n2 n3 [H1 H2 H3 H4 H5 H6] [H1' H2' H3' H4' H5' H6'].
    split; [auto| |congruence..|intros o Ho; by rewrite H6', H6].
    intros o row (row' & Hr' & Hk)%H2. destruct (H2' _ _ Hr') as (row'' & ? & ?).
    exists row''. split; congruence.
Qed.

Inductive sync_step (d : db) : db → Prop :=
  | net_step n : net_ok (net d) n → sync_step d (on_net (λ _, n) d)
  | ingest_step key e t i :
      served key e → admitted d (clock i) (PeerId_from_public_key key) →
      sync_step d (ingest_remote_event key e t d).2.

(** *** Changes of the peers table *)

Lemma net_ok_peers n n' : peers n' = peers n → peer_presence n' = peer_presence n →
  address_going_offline n' = address_going_offline n → peer_cluster_claims n' = peer_cluster_claims n →
  (∀ o, o ≠ self_peer_id cfg → tensor_pads n' !! o = tensor_pads n !! o) → net_ok n n'.
Proof. intros Hp ????. split; [|rewrite Hp|done..]; [by unfold binds; rewrite Hp|intros o row ?; by exists row]. Qed.

Lemma binds_upsert n o key name t :
  o = blake3 (raw key) →
  net_ok n (on_peers (λ m, <[o := match m !! o with
      | None => PeerRow key name t (Some t) false
      | Some r => PeerRow (pe_public_key r)
                    (match name with Some x => Some x | None => pe_name r end)
                    (pe_first_seen r) (Some t) (pe_forked r)
      end]> m) n).
Proof.
  intros Ho. split; [| |done..].
  - intros Hb o' row. cbn. destruct (decide (o = o')) as [<-|Hne].
    + rewrite lookup_insert_eq. destruct (peers n !! o) eqn:Hr; intros [= <-]; cbn; [|done].
      by apply Hb in Hr.
    + rewrite lookup_insert_ne by done. apply Hb.
  - intros o' row Hr. cbn. destruct (decide (o = o')) as [<-|Hne].
    + rewrite lookup_insert_eq, Hr. by eexists.
    + rewrite lookup_insert_ne by done. by exists row.
Qed.
Lemma net_ok_forked n o :
  net_ok n (on_peers (λ m, match m !! o with
      | None => m
      | Some r => <[o := PeerRow (pe_public_key r) (pe_name r) (pe_first_seen r)
                           (pe_last_seen r) true]> m end) n).
Proof.
  split; [| |done..].
  - intros Hb o' row. cbn. destruct (peers n !! o) as [r|] eqn:Hr; [|apply Hb].
    destruct (decide (o = o')) as [<-|Hne].
    + rewrite lookup_insert_eq. intros [= <-]. by apply Hb in Hr.
    + rewrite lookup_insert_ne by done. apply Hb.
  - intros o' row Hr. cbn. destruct (peers n !! o) as [r|] eqn:Ho; [|by exists row].
    destruct (decide (o = o')) as [<-|Hne].
    + rewrite lookup_insert_eq. eexists. split; [done|]. cbn. congruence.
    + rewrite lookup_insert_ne by done. by exists row.
Qed.

Lemma ingest_net_ok key e t d : net_ok (net d) (net (ingest_remote_event key e t d).2).
Proof.
  destruct (ingest_events key e t d) as [_ [[_ ->]|[(? & _ & _ & ->)|(o & a & b & text & Ho & _ & _ & _ & H)]]];
    [done..|].
  cbv [mbind stm_bind upsert_peer modify] in H. rewrite record_fork_run in H. cbn in H.
  injection H as ->. cbn.
  etransitivity; [apply (binds_upsert _ o (vk_bytes key) None t Ho)|].
  etransitivity; [|apply net_ok_forked]. by apply net_ok_peers.
Qed.

Lemma sync_step_net d d' : sync_step d d' → net_ok (net d) (net d').
Proof. intros []; [done|apply ingest_net_ok]. Qed.
Lemma sync_steps_net d d' : rtc sync_step d d' → net_ok (net d) (net d').
Proof. induction 1 as [d|d d1 d2 H _ IH]; [done|]. etransitivity; [by apply sync_step_net|done]. Qed.
Lemma admitted_net d d' now o : net d' = net d → admitted d now o → admitted d' now o.
Proof.
  intros Hn. unfold admitted. rewrite Hn. intros [?|[? [?|(score & Hs & ?)]]]; [by left|right; by split; [|left]|].
  right. split; [done|]. right. exists score. split; [|done].
  by rewrite (compute_trust_net o now (trust_config cfg) d d' Hn), Hs.
Qed.
(** Within a batch the peer tables stay as they are until a fork ends it. *)
Lemma ingest_net_same key e t d : (∀ a b, (ingest_remote_event key e t d).1 ≠ Ok (Forked a b)) →
  net (ingest_remote_event key e t d).2 = net d.
Proof.
  intros Hf. destruct (ingest_events key e t d) as [_ [[_ ->]|[(? & _ & _ & ->)|(? & ? & ? & ? & _ & _ & _ & (? & ? & H) & _)]]];
    [done..|]. by apply Hf in H.
Qed.

(** *** Running the service *)

(** From a database whose peers table binds, the run is a sequence of steps. *)
Definition traced (s s' : service) : Prop :=
  binds (net (store s)) → rtc sync_step (store s) (store s').
#[export] Instance traced_preorder : PreOrder traced.
Proof.
  split; [intros s _; apply rtc_refl|].
  intros s1 s2 s3 H1 H2 Hb. specialize (H1 Hb). etransitivity; [exact H1|].
  apply H2. by eapply net_binds; [apply sync_steps_net|].
Qed.

(** A statement that changes the peer tables acceptably and nothing else. *)
Definition net_op {A} (m : tx A) : Prop :=
  ∀ d a d', m d = Ok (a, d') → ∃ n, d' = on_net (λ _, n) d ∧ net_ok (net d) n.

Lemma net_op_read {A} (f : db → A) : net_op (gets f).
Proof. intros d a d' [= _ <-]. exists (net d). split; [by destruct d|done]. Qed.
Lemma net_op_pure {A} (m : tx A) : (∀ d, ∃ a, m d = Ok (a, d)) → net_op m.
Proof.
  intros Hm d a d' H. destruct (Hm d) as [x Hx]. rewrite Hx in H. injection H as _ <-.
  exists (net d). split; [by destruct d|done].
Qed.
Lemma net_op_upsert o key name t : o = blake3 (raw key) → net_op (upsert_peer o key name t).
Proof. intros Ho d a d' [= _ <-]. eexists. split; [done|by apply binds_upsert]. Qed.
Lemma net_op_head o o' n t : net_op (upsert_known_head o o' n t).
Proof.
  intros d a d' [= _ <-]. eexists. split; [done|]. by apply net_ok_peers.
Qed.
Lemma net_op_pad pad t : net_op (tensor_pads_upsert (self_peer_id cfg) pad t).
Proof.
  intros d a d' [= _ <-]. eexists. split; [done|]. apply net_ok_peers; [done..|].
  intros o Ho. cbn. by apply lookup_insert_ne, not_eq_sym.
Qed.
Lemma net_op_address o a : net_op (add_address o a).
Proof.
  intros d x d' H. unfold add_address, insert_or_ignore in H.
  cbv [mbind stm_bind get modify] in H.
  destruct (negb (negb _)).
  { injection H as _ <-. exists (net d). split; [by destruct d|done]. }
  destruct (negb (has _ _)); [done|]. injection H as _ <-.
  eexists. split; [done|]. by apply net_ok_peers.
Qed.

Lemma traced_now {E} : steps (E:=E) traced (now_ts clock).
Proof. intros s _. apply rtc_refl. Qed.
Lemma traced_tried {E A} (m : tx A) : net_op m → steps (E:=E) traced (tried m).
Proof.
  intros Hm s Hb. unfold tried, atomically. destruct (m (store s)) as [[a d]|e] eqn:Hr;
    [|apply rtc_refl]. destruct (Hm _ _ _ Hr) as (n & -> & Hn). by apply rtc_once, net_step.
Qed.
Lemma traced_conn {A} (m : tx A) : net_op m → steps traced (conn m).
Proof.
  intros Hm s Hb. unfold conn, statement, transact, atomically.
  destruct (m (store s)) as [[a d]|e] eqn:Hr; [|apply rtc_refl].
  destruct (Hm _ _ _ Hr) as (n & -> & Hn). by apply rtc_once, net_step.
Qed.
Hint Resolve traced_now traced_tried traced_conn net_op_read net_op_head net_op_address net_op_pad : steps.

(** *** The parts of a round *)

Lemma federation_allows_run {E} o s :
  ∃ b n, federation_allows cfg clock o s = (Ok b : result E bool, Svc (store s) n) ∧
         (b = true → ∃ i, admitted (store s) (clock i) o).
Proof.
  assert (∀ s, ∃ b n, (if negb (allows (federation cfg) o) then mret false
      else if SFleb (minimum_trust cfg) f32_zero then mret true
      else t ← now_ts clock; score ← tried (compute_trust o t (trust_config cfg));
        match score with Some score => mret (SFleb (minimum_trust cfg) score) | None => mret false end) s =
      (Ok b : result E bool, Svc (store s) n) ∧ (b = true → ∃ i, admitted (store s) (clock i) o)) as Hpolicy.
  { intros [d n]. unfold admitted. destruct (allows (federation cfg) o); cbn [negb store]; [|by eexists _, _].
    destruct (SFleb (minimum_trust cfg) f32_zero).
    { eexists _, _. split; [done|]. intros _. exists n. right. by split; [|left]. }
    cbv [mbind ste_bind tried atomically mret ste_ret now_ts read_clock store ticks].
    destruct (compute_trust_pure o (clock n) (trust_config cfg) d) as [x Hx]. rewrite Hx. cbn.
    eexists _, _. split; [done|]. intros Hle. exists n. right. split; [done|]. right. by exists x. }
  unfold federation_allows, same_cluster. destruct (own_cluster cfg) as [mine|] eqn:Hown; [|exact (Hpolicy s)].
  cbv [mbind ste_bind tried atomically cluster_get gets].
  destruct (peer_cluster_claims (net (store s)) !! o) as [c|] eqn:Hc; cbn [to_option mret ste_ret];
    [|exact (Hpolicy (Svc (store s) (ticks s)))].
  case_bool_decide as Hm; [|exact (Hpolicy (Svc (store s) (ticks s)))].
  eexists _, _. split; [done|]. intros _. exists 0. left. by exists mine, c.
Qed.

Lemma ingest_all_trace hex key evs i : ∀ summary s,
  (∀ e, e ∈ evs → served key e) → admitted (store s) (clock i) (PeerId_from_public_key key) →
  rtc sync_step (store s) (store (ingest_all clock hex key evs summary s).2).
Proof.
  induction evs as [|e evs IH]; intros summary s Hev Ha; [apply rtc_refl|]. cbn [ingest_all].
  cbv [mbind ste_bind now_ts read_clock ingest]. cbn [store ticks].
  assert (sync_step (store s) (ingest_remote_event key e (clock (ticks s)) (store s)).2) as Hstep
    by (eapply ingest_step; [apply Hev; by left|done]).
  pose proof (ingest_net_same key e (clock (ticks s)) (store s)) as Hsame.
  destruct (ingest_remote_event _ _ _ _) as [r d]. cbn [fst snd] in Hstep, Hsame.
  assert ((∀ a b, r ≠ Ok (Forked a b)) → ∀ sm, rtc sync_step d
            (store (ingest_all clock hex key evs sm (Svc d (S (ticks s)))).2)) as Hrest.
  { intros Hf sm. apply (IH sm (Svc d (S (ticks s)))); [intros; apply Hev; by right|].
    apply (admitted_net (store s)); [exact (Hsame Hf)|done]. }
  eapply rtc_l; [exact Hstep|].
  destruct r as [[| |]|]; [by apply Hrest|by apply Hrest|apply rtc_refl..].
Qed.

Lemma key_of_run remote_id remote_key o s :
  remote_id = PeerId_from_public_key remote_key → binds (net (store s)) →
  ∃ k, key_of remote_id remote_key o s = (Ok k, s) ∧
       (∀ key, k = Some key → o = PeerId_from_public_key key).
Proof.
  intros Hr Hb. unfold key_of. case_bool_decide as Ho.
  { eexists. split; [done|]. intros key [= <-]. congruence. }
  cbv [mbind ste_bind conn statement transact atomically get_peer gets]. cbn.
  destruct s as [d n]. eexists. split; [done|]. cbn in *. intros key Hk.
  destruct (peers (net d) !! o) as [row|] eqn:Hrow; [|done]. cbn in Hk.
  destruct (vk_from_bytes _) as [k|] eqn:Hv; [|done]. injection Hk as <-.
  apply Hb in Hrow. unfold PeerId_from_public_key. by rewrite (vk_to_from _ _ Hv).
Qed.

Lemma pull_origin_trace r remote_id remote_key heads h summary :
  remote_id = PeerId_from_public_key remote_key →
  (∀ f t evs e key, client_fetch_events r h.1 f t = Ok evs → e ∈ evs →
     decode_hex32 h.1 = Some (PeerId_from_public_key key) → served key e) →
  steps traced (pull_origin cfg clock r remote_id remote_key heads h summary).
Proof.
  intros Hr Hserved s Hb. unfold pull_origin.
  destruct (decode_hex32 h.1) as [o|] eqn:Ho; [|apply rtc_refl].
  destruct (federation_allows_run (E:=SyncError) o s) as (b & n & Hf & Ha).
  erewrite ste_bind_run by exact Hf. destruct b; [|apply rtc_refl]. cbn [negb].
  destruct (Z.leb _ _); [apply rtc_refl|].
  destruct (key_of_run remote_id remote_key o (Svc (store s) n) Hr Hb) as (k & Hk & Hkey).
  erewrite ste_bind_run by exact Hk. destruct k as [key|]; [|apply rtc_refl].
  destruct (client_fetch_events _ _ _ _) as [evs|e] eqn:Hfetch; [|apply rtc_refl].
  destruct (Ha eq_refl) as [i Hi].
  apply (ingest_all_trace h.1 key evs i summary (Svc (store s) n)).
  - intros e He. eapply Hserved; [done..|]. by rewrite <-(Hkey key eq_refl).
  - cbn. by rewrite <-(Hkey key eq_refl).
Qed.

Lemma pull_all_trace r remote_id remote_key heads hs : ∀ summary,
  remote_id = PeerId_from_public_key remote_key →
  (∀ h f t evs e key, h ∈ hs → client_fetch_events r h.1 f t = Ok evs → e ∈ evs →
     decode_hex32 h.1 = Some (PeerId_from_public_key key) → served key e) →
  steps traced (pull_all cfg clock r remote_id remote_key heads hs summary).
Proof.
  induction hs as [|h hs IH]; intros summary Hr Hs; cbn; [apply steps_ret; apply _|].
  apply steps_bind; [apply _| |].
  - apply pull_origin_trace; [done|]. intros. eapply Hs; [by left|done..].
  - intros sm. apply IH; [done|]. intros. eapply Hs; [by right|done..].
Qed.

Lemma record_addresses_trace o l : steps traced (record_addresses o l).
Proof.
  induction l as [|a l IH]; cbn; [apply steps_ret; apply _|].
  apply steps_bind; [apply _|apply traced_tried, net_op_address|auto].
Qed.
Lemma learn_peers_trace t ps : steps traced (learn_peers cfg t ps).
Proof.
  induction ps as [|p ps IH]; cbn; [apply steps_ret; apply _|].
  apply steps_bind; [apply _| |auto]. unfold learn_peer.
  destruct (PeerId_from_str _) as [pid|]; [|apply steps_ret; apply _].
  destruct (decode_hex32 _) as [pk|]; [|apply steps_ret; apply _].
  case_bool_decide; [apply steps_ret; apply _|].
  destruct (vk_from_bytes pk) as [key|] eqn:Hv; [|apply steps_ret; apply _].
  destruct (negb _) eqn:Hn; [apply steps_ret; apply _|].
  apply negb_false_iff, bool_decide_eq_true in Hn.
  apply steps_bind; [apply _| |intros [|]; [apply record_addresses_trace|apply steps_ret; apply _]].
  apply traced_tried, net_op_upsert. rewrite Hn. unfold PeerId_from_public_key.
  by rewrite (vk_to_from _ _ Hv).
Qed.
Lemma discover_peers_trace r : steps traced (discover_peers cfg clock r).
Proof.
  unfold discover_peers. destruct (client_fetch_peers r); [|apply steps_ret; apply _].
  apply steps_bind; [apply _|apply traced_tried, net_op_read|]. intros count.
  destruct (match count with Some _ => _ | None => _ end); [apply steps_ret; apply _|].
  apply steps_bind; [apply _|apply traced_now|intros; apply learn_peers_trace].
Qed.

Lemma record_known_heads_trace o t hs : steps traced (record_known_heads o t hs).
Proof.
  induction hs as [|h hs IH]; cbn; [apply steps_ret; apply _|].
  apply steps_bind; [apply _| |auto].
  destruct (decode_hex32 _); [apply traced_conn, net_op_head|apply steps_ret; apply _].
Qed.

Lemma handshake_spec addr r s x s' :
  handshake clock addr r s = (Ok x, s') →
  x.1.2 = PeerId_from_public_key x.2 ∧ client_hello r = Ok x.1.1.
Proof.
  unfold handshake. intros H.
  apply ste_bind_ok in H as (hello & s1 & [= H1 <-] & H).
  apply ste_bind_ok in H as (id & s1 & _ & H).
  apply ste_bind_ok in H as (kb & s2 & _ & H).
  apply ste_bind_ok in H as (key & s3 & _ & H).
  destruct (negb _) eqn:Hn; [done|].
  apply negb_false_iff, bool_decide_eq_true in Hn.
  apply ste_bind_ok in H as (t & s4 & _ & H). apply ste_bind_ok in H as (? & s5 & _ & H).
  apply ste_bind_ok in H as (? & s6 & _ & H). apply ste_bind_ok in H as (? & s7 & _ & H).
  injection H as <- _. split; [done|]. by apply map_err_ok in H1.
Qed.
Lemma handshake_trace addr r : steps traced (handshake clock addr r).
Proof.
  unfold handshake. apply steps_bind_result; [apply _|intros hello _].
  apply steps_bind_result; [apply _|intros id _].
  apply steps_bind_result; [apply _|intros kb _].
  apply steps_bind_result; [apply _|intros key Hv%map_err_ok].
  destruct (negb _) eqn:Hn; [apply steps_raise; apply _|].
  apply negb_false_iff, bool_decide_eq_true in Hn.
  apply steps_bind; [apply _|apply traced_now|intros t].
  apply steps_bind; [apply _| |intros].
  { apply traced_conn, net_op_upsert. rewrite Hn. unfold PeerId_from_public_key.
    by rewrite (vk_to_from _ _ Hv). }
  apply steps_bind; [apply _|apply traced_conn, net_op_address|intros].
  apply steps_bind; [apply _|apply record_known_heads_trace|intros; apply steps_ret; apply _].
Qed.

Lemma observe_trace summary : steps traced (observe_sync_outcome cfg clock summary).
Proof.
  apply steps_bind; [apply _|apply traced_tried, net_op_read|intros existing].
  apply steps_bind; [apply _|apply traced_now|intros t].
  apply steps_bind; [apply _|apply traced_tried, net_op_pad|intros; apply steps_ret; apply _].
Qed.
Lemma sync_trace addr r :
  (∀ o f t evs e key, client_fetch_events r o f t = Ok evs → e ∈ evs → served key e) →
  steps traced (sync_with_peer cfg clock addr r).
Proof.
  intros Hs s. unfold sync_with_peer. cbv [mbind ste_bind].
  pose proof (handshake_trace addr r s) as H1.
  destruct (handshake clock addr r s) as [[[[hello id] key]|e] s1] eqn:Hh; [|exact H1].
  apply handshake_spec in Hh as [Hid _]. cbn in H1, Hid.
  etransitivity; [exact H1|].
  apply (steps_bind traced (discover_peers cfg clock r)); [apply discover_peers_trace|intros _].
  apply (steps_bind traced local_heads); [|intros heads].
  { apply steps_bind; [apply _|apply traced_conn, net_op_read|intros; apply steps_ret; apply _]. }
  apply (steps_bind traced (pull_all cfg clock r id key heads (he_heads hello) empty_summary));
    [apply pull_all_trace; [done|eauto]|intros summary].
  apply (steps_bind traced (observe_sync_outcome cfg clock summary));
    [apply observe_trace|intros; apply steps_ret; apply _].
Qed.

(** *** Pushes *)

Lemma push_one_trace e : (∀ key, served key e) → steps traced (push_one cfg clock e).
Proof.
  intros He [d m] Hb. unfold push_one. destruct (PeerId_from_str _) as [o|]; [|apply rtc_refl].
  destruct (federation_allows_run (E:=Z) o (Svc d m)) as (b & n & Hf & Ha).
  erewrite ste_bind_run by exact Hf. destruct b; [|apply rtc_refl]. cbn [negb store] in *.
  specialize (Ha eq_refl). erewrite ste_bind_run by reflexivity.
  cbn [store ticks to_option].
  destruct (peers (net d) !! o) as [row|] eqn:Hrow; [|apply rtc_refl].
  change (mjoin (Some (Some row)) ≫= ?f) with (f row). cbv beta.
  destruct (vk_from_bytes (pe_public_key row)) as [key|] eqn:Hv; [|apply rtc_refl].
  cbn. cbv [mbind ste_bind ingest now_ts read_clock store ticks mret ste_ret].
  assert (sync_step d (ingest_remote_event key e (clock n) d).2) as Hstep.
  { destruct Ha as [i Hi]. eapply ingest_step; [done|]. apply Hb in Hrow. unfold PeerId_from_public_key.
    rewrite (vk_to_from _ _ Hv), <-Hrow. exact Hi. }
  destruct (ingest_remote_event _ _ _ _) as [x d']. by apply rtc_once.
Qed.
Lemma push_all_trace evs : ∀ a k, (∀ e key, e ∈ evs → served key e) → steps traced (push_all cfg clock evs a k).
Proof.
  induction evs as [|e evs IH]; intros a k Hs; cbn; [apply steps_ret; apply _|].
  apply steps_bind; [apply _|apply push_one_trace; intros; apply Hs; by left|].
  intros []; apply IH; intros; apply Hs; by right.
Qed.
Lemma post_events_trace evs : (∀ e key, e ∈ evs → served key e) → steps traced (post_events cfg clock evs).
Proof.
  intros Hs. unfold post_events. destruct (_ <? _); [apply steps_raise; apply _|by apply push_all_trace].
Qed.

(** *** What such a trace means *)

(** The log grew by rows of events that were served, each signed by the origin
    it names, which this peer admitted on the way: [mid] is a database of the
    run, whose log ends where the row was put. *)
Definition grew (d d' : db) : Prop :=
  ∃ rows, events (log d') = events (log d) ++ rows ∧
    ∀ before e after, rows = before ++ e :: after →
      ∃ key signed mid i, served key signed ∧ row_of key signed e ∧
        er_origin_peer_id e = PeerId_from_public_key key ∧
        rtc sync_step d mid ∧ events (log mid) = events (log d) ++ before ∧
        admitted mid (clock i) (er_origin_peer_id e).

Lemma sync_step_ops d d' : sync_step d d' → ops d' = ops d.
Proof. intros []; [done|by destruct (ingest_events key e t d)]. Qed.
Lemma grew_none d d' : events (log d') = events (log d) → grew d d'.
Proof. intros H. exists []. rewrite H, app_nil_r. split; [done|]. by intros [] ? ? ?. Qed.
Lemma grew_step d d1 : sync_step d d1 → grew d d1.
Proof.
  intros [n Hn|key e t i He Ha]; [by apply grew_none|].
  destruct (ingest_events key e t d) as [_ [[Hev _]|[(row & Hrow & Hev & _)|(? & ? & ? & ? & _ & _ & Hev & _)]]];
    [by apply grew_none| |apply grew_none; by rewrite Hev].
  exists [row]. split; [done|]. intros before e' after Heq.
  destruct before as [|x [|]]; [injection Heq as <- _|done..].
  pose proof Hrow as [(_ & _ & Ho & _)%check_envelope_inv _].
  exists key, e, d, i. rewrite app_nil_r, Ho. split_and!; try done.
Qed.
Lemma grew_trans d d1 d2 : rtc sync_step d d1 → grew d d1 → grew d1 d2 → grew d d2.
Proof.
  intros H1 (r1 & E1 & G1) (r2 & E2 & G2). exists (r1 ++ r2). split; [by rewrite E2, E1, app_assoc|].
  intros before e after Heq. apply app_eq_inv in Heq as [(k & -> & Hk)|(k & -> & Hk)].
  - destruct k as [|x k]; cbn in Hk.
    + destruct (G2 [] e after (eq_sym Hk)) as (key & signed & mid & i & ? & ? & ? & Hmid & Hlog & ?).
      exists key, signed, mid, i. rewrite app_nil_r in *. split_and!; try done; [by etransitivity|by rewrite Hlog, E1].
    + injection Hk as <- _. exact (G1 _ _ _ eq_refl).
  - destruct (G2 k e after Hk) as (key & signed & mid & i & ? & ? & ? & Hmid & Hlog & ?).
    exists key, signed, mid, i. split_and!; try done; [by etransitivity|by rewrite Hlog, E1, app_assoc].
Qed.

Lemma sync_steps_grew d d' : rtc sync_step d d' → grew d d'.
Proof.
  induction 1 as [d|d d1 d2 H1 H2 IH]; [by apply grew_none|].
  eapply grew_trans; [by apply rtc_once|by apply grew_step|done].
Qed.
Lemma sync_steps_ops d d' : rtc sync_step d d' → ops d' = ops d.
Proof. induction 1 as [d|d d1 d2 H1 H2 IH]; [done|]. by rewrite IH, (sync_step_ops _ _ H1). Qed.

(** The operator's decisions are untouched, the peer tables change acceptably
    and still pair every peer with its own key, and the log grew so. *)
Definition safe (d d' : db) : Prop :=
  ops d' = ops d ∧ net_ok (net d) (net d') ∧ binds (net d') ∧ grew d d'.

Lemma steps_safe {E A} (m : ste service E A) s :
  steps traced m → binds (net (store s)) → safe (store s) (store (m s).2).
Proof.
  intros Hm Hb. specialize (Hm s Hb). pose proof (sync_steps_net _ _ Hm) as Hn.
  split_and!; [by apply sync_steps_ops|done|by eapply net_binds|by apply sync_steps_grew].
Qed.
End trace.

(** ** Properties *)

Section properties.
Context `{P : Platform} `{L : !PlatformLaws P} `{C : Codec} `{SC : StatementCodec}.
Context {LN : Logarithm} (cfg : SyncConfig) (clock : nat → Z).

(** C29: Replication is safe against any remote and any pusher.  Whatever they
    answer or send, and whether the round ends well or not: the operator's
    decisions (redactions of content and of actors, search suppressions) are
    untouched; every known peer stays known, under the key its id is the hash
    of; no presence, announced departure or cluster claim is recorded or
    changed, nor any tensor pad but the peer's own; and the log only grows: by
    events the other side served, each carrying a valid signature of the origin
    it is filed under, which at that point of the run this peer admitted: as a
    member of its own cluster, or because its federation policy lets the origin
    through and the trust it has in it reaches the minimum asked for. *)
Theorem replication_safe addr r evs s :
  binds (net (store s)) →
  safe cfg clock (λ _ e, ∃ o f t es, client_fetch_events r o f t = Ok es ∧ e ∈ es)
    (store s) (store (sync_with_peer cfg clock addr r s).2) ∧
  safe cfg clock (λ _ e, e ∈ evs) (store s) (store (post_events cfg clock evs s).2).
Proof.
  intros Hb. split; apply steps_safe; [|done|by apply post_events_trace|done].
  apply sync_trace. intros o f t es e key Hf He. by exists o, f, t, es.
Qed.
End properties.

(** ** Witnesses *)

(** Replication between alice and an empty peer, in the toy world. *)
Module Demo.
#[export] Existing Instance Toy.platform.
#[export] Existing Instance demo_codec.

Definition peer_config (sk : bytes 32) : SyncConfig := {|
  self_peer_id := identity_peer_id sk; self_public_key := sk; federation := Open;
  minimum_trust := f32_zero; trust_config := TrustConfig_default; own_cluster := None |}.
(** A remote that answers from a database, its answers small enough. *)
Definition peer_remote (sk : bytes 32) (d : db) : remote := Remote
  (Ok (server_hello (peer_config sk) d))
  (λ k f t, map_err (λ _, Http "status") (get_events k f t d))
  (Ok []).
Definition seconds (n : nat) : Z := 1700000000 + Z.of_nat n.
(** A step in place of the logarithm. *)
#[export] Instance step_ln : Logarithm := {| f32_ln := λ x, if SFeqb x f32_one then f32_zero else f32_one |}.
End Demo.

Section witnesses.
Import Demo.

(** A peer that asks for full trust, and one that asks for none. *)
Definition wary_config : SyncConfig := {|
  self_peer_id := identity_peer_id bob; self_public_key := bob; federation := Open;
  minimum_trust := f32_one; trust_config := TrustConfig_default; own_cluster := None |}.

Definition pulled (c : SyncConfig) : db :=
  store (sync_with_peer c seconds "http://alice" (peer_remote alice evidenced_db) (Svc empty_db 0)).2.
(** Bob pulls alice's three events; the second is a row of one she served, and
    was put after the first by a database that admitted her.  Asking for trust
    she has not earned, he pulls none. *)
Lemma replication_safe_witness :
  length (events (log (pulled (peer_config bob)))) = 3 ∧
  (∃ e key signed mid i, er_sequence e = 2%Z ∧ row_of key signed e ∧
     (∃ o f t es, client_fetch_events (peer_remote alice evidenced_db) o f t = Ok es ∧ signed ∈ es) ∧
     length (events (log mid)) = 1 ∧ admitted (peer_config bob) mid (seconds i) (er_origin_peer_id e)) ∧
  events (log (pulled wary_config)) = [] ∧ ops (pulled wary_config) = ops empty_db.
Proof.
  assert (er_sequence <$> events (log (pulled (peer_config bob))) = [1; 2; 3]%Z) as Hseq by (vm_compute; reflexivity).
  assert (events (log (pulled wary_config)) = []) as Hnone by (vm_compute; reflexivity).
  assert (binds (net (store (Svc empty_db 0)))) as Hb by (intros o row H; cbn in H; by rewrite lookup_empty in H).
  destruct (@replication_safe Toy.platform Toy.laws demo_codec step_ln (peer_config bob) seconds "http://alice"
    (peer_remote alice evidenced_db) [] (Svc empty_db 0) Hb) as [(_ & _ & _ & rows & Hrows & Hall) _].
  destruct (@replication_safe Toy.platform Toy.laws demo_codec step_ln wary_config seconds "http://alice"
    (peer_remote alice evidenced_db) [] (Svc empty_db 0) Hb) as [(Hops & _) _].
  change (events (log (pulled (peer_config bob))) = rows) in Hrows. rewrite Hrows in Hseq |- *.
  destruct rows as [|a [|e [|c [|]]]]; try discriminate Hseq. injection Hseq as _ He _.
  destruct (Hall [a] e [c] eq_refl) as (key & signed & mid & i & Hserved & Hrow & _ & _ & Hmid & Ha).
  split; [reflexivity|]. split; [|split; [exact Hnone|exact Hops]].
  exists e, key, signed, mid, i. rewrite Hmid. split_and!; [exact He|exact Hrow|exact Hserved|reflexivity|exact Ha].
Defined.
End witnesses.
