(* ===== verification/TensorFacts.v ===== *)
(** * What a peer remembers of its rounds

    After every round of syncing a peer moves its own tensor pad towards what
    the round was like ([observe_sync_outcome] of [Sync.v]).  Whatever the
    rounds, the stored pad stays well-formed. *)

From Stdlib Require Import SpecFloat.
From S2P Require Import Prelude Core Envelope Store Service FloatFacts Float32 Bytes FloatBits Tensor Sync SyncFacts Scenario.

#[local] Open Scope Z_scope.

Definition f32_64 : f32 := f32_lit 1 6.
Class LogarithmLaws (L : Logarithm) : Prop := {
  (** the logarithm of a number between one and [2 ^ 65] is far below 64 *)
  ln_range x : f32_fin x → SFleb f32_one x = true → SFleb x (f32_lit 1 65) = true →
    f32_fin (f32_ln x) ∧ SFleb (f32_ln x) f32_64 = true }.

(** ** One slot *)

(** Between zero and 64. *)
Definition in_range (x : f32) : Prop := f32_fin x ∧ f32_units x ≤ f32_units f32_64.

Lemma in_range_valid x : in_range x → f32_valid x = true.
Proof. intros [[|m e Hb] _]; [reflexivity|exact Hb]. Qed.
Lemma in_range_zero : in_range f32_zero.
Proof. split; [apply f32_zero_fin|by vm_compute]. Qed.

(** A closed computation that gives a finite number. *)
Ltac fin_constant := vm_compute; apply fin_finite; reflexivity.

(** A product with a constant whose multiple by 64 is exact. *)
Lemma mul_constant c c64 x : f32_fin c → f32_fin c64 →
  f32_units c * f32_units f32_64 = f32_units c64 * unit1 24 128 → in_range x →
  f32_fin (f32_mul c x) ∧ f32_units (f32_mul c x) ≤ f32_units c64.
Proof.
  intros Hc Hc64 Hexact [Hx Hle]. destruct (mul_spec 24 128 ltac:(done) ltac:(done) c x Hc Hx) as (Hn & _ & Hup).
  assert (SFleb (f32_mul c x) c64 = true) as Hb.
  { apply Hup; [done|]. rewrite <-Hexact. apply Z.mul_le_mono_nonneg_l; [by apply units_nonneg|done]. }
  assert (f32_fin (f32_mul c x)) as Hf by (exact (leb_fin 24 128 _ _ Hn Hc64 Hb)). split; [done|]. by apply f32_leb_units.
Qed.
Lemma move_slot_range slot s : in_range slot → in_range s → in_range (move_slot LEARNING_RATE slot s).
Proof.
  intros Hslot Hs. unfold move_slot.
  destruct (mul_constant (f32_sub f32_one LEARNING_RATE) (f32_mul (f32_sub f32_one LEARNING_RATE) f32_64) slot) as [H1 B1];
    [fin_constant|fin_constant|by vm_compute|done|].
  destruct (mul_constant LEARNING_RATE (f32_mul LEARNING_RATE f32_64) s) as [H2 B2];
    [fin_constant|fin_constant|by vm_compute|done|].
  destruct (add_spec 24 128 ltac:(done) ltac:(done) _ _ H1 H2) as (Hn & _ & Hup).
  assert (f32_fin f32_64) as H64 by fin_constant.
  assert (SFleb (f32_add (f32_mul (f32_sub f32_one LEARNING_RATE) slot) (f32_mul LEARNING_RATE s)) f32_64 = true) as Hb.
  { apply Hup; [done|]. etransitivity; [apply Z.add_le_mono; [exact B1|exact B2]|]. by vm_compute. }
  assert (in_fin := leb_fin 24 128 _ _ Hn H64 Hb). split; [done|]. by apply f32_leb_units.
Qed.

(** ** A pad that only this peer writes *)

(** 32 numbers between zero and 64; only the first four are used. *)
Definition pad_ok (l : list f32) : Prop :=
  length l = TENSOR_PAD_DIM ∧ Forall in_range l ∧ ∀ i, (4 ≤ i < TENSOR_PAD_DIM)%nat → l !! i = Some f32_zero.

Lemma pad_ok_fresh : pad_ok (values (from_values [])).
Proof.
  split; [done|]. cbn [values from_values take length app]. split.
  - apply Forall_replicate, in_range_zero.
  - intros i Hi. apply lookup_replicate. split; [done|]. lia.
Qed.
Lemma pad_ok_update signal pad : length signal = 4%nat → Forall in_range signal → pad_ok (values pad) →
  pad_ok (values (pad_update signal LEARNING_RATE pad)).
Proof.
  intros Hlen Hsig (Hl & Hr & Hz). split; [by rewrite pad_update_length|]. cbn [values pad_update]. split.
  - apply Forall_lookup_2. intros i x Hx. rewrite list_lookup_imap in Hx.
    apply fmap_Some in Hx as (slot & Hslot & ->). apply move_slot_range; [exact (Forall_lookup_1 _ _ _ _ Hr Hslot)|].
    destruct (signal !! i) eqn:Hs; [exact (Forall_lookup_1 _ _ _ _ Hsig Hs)|apply in_range_zero].
  - intros i Hi. rewrite list_lookup_imap, Hz by done. cbn. rewrite lookup_ge_None_2 by lia. reflexivity.
Qed.

Section observe_facts.
Context `{P : Platform} {L : Logarithm} {LL : LogarithmLaws L} (cfg : SyncConfig) (clock : nat → Z).
#[local] Abbreviation me := (self_peer_id cfg).

(** The pad that is stored of a peer. *)
Definition stored_pad (peer : hash32) (d : db) : option (list f32) :=
  (λ r, decode_values (tp_pad_values r)) <$> tensor_pads (net d) !! peer.
(** Nothing but the peer's own pad is written. *)
Definition pad_only (d d' : db) : Prop :=
  log d' = log d ∧ proj d' = proj d ∧ ops d' = ops d ∧
  ∃ f, net d' = on_tensor_pads f (net d) ∧ ∀ peer, peer ≠ me → tensor_pads (net d') !! peer = tensor_pads (net d) !! peer.
Lemma pad_only_trans d1 d2 d3 : pad_only d1 d2 → pad_only d2 d3 → pad_only d1 d3.
Proof.
  intros (L1 & P1 & O1 & f & N1 & H1) (L2 & P2 & O2 & g & N2 & H2). split_and!; [congruence..|].
  exists (λ t, g (f t)). rewrite N2, N1. split; [done|]. intros peer Hp. rewrite <-N1, <-N2, H2, H1 by done. done.
Qed.


(** Counts fit a [usize]. *)
Definition countable (summary : SyncSummary) : Prop :=
  0 ≤ sm_applied summary < 2 ^ 64 ∧ 0 ≤ sm_already_known summary < 2 ^ 64 ∧ 0 ≤ sm_forks summary < 2 ^ 64 ∧
  Z.of_nat (length (sm_errors summary)) < 2 ^ 64.
Lemma count_signal z : 0 ≤ z < 2 ^ 64 → in_range (f32_ln (f32_add (f32_of_int z) f32_one)).
Proof.
  intros Hz. destruct (f32_of_int_fin z Hz) as [Hf _].
  assert (f32_fin (f32_lit 1 64)) as H64 by fin_constant. assert (f32_fin (f32_lit 1 65)) as H65 by fin_constant.
  assert (f32_units (f32_of_int z) ≤ f32_units (f32_lit 1 64)) as Hu.
  { apply f32_leb_units; [done..|]. apply normalize_le; [done..|lia|]. apply dle_int; [done..|].
    transitivity (2 ^ 64 * unit1 24 128); [|by vm_compute]. pose proof (unit1_pos 24 128 ltac:(done) ltac:(done)). nia. }
  destruct (add_spec 24 128 ltac:(done) ltac:(done) _ _ Hf f32_one_fin) as (Hn & Hlo & Hup).
  assert (SFleb f32_one (f32_add (f32_of_int z) f32_one) = true) as H1.
  { apply Hlo; [done|]. pose proof (units_nonneg 24 128 ltac:(done) (f32_of_int z)). lia. }
  assert (SFleb (f32_add (f32_of_int z) f32_one) (f32_lit 1 65) = true) as H2.
  { apply Hup; [done|]. transitivity (f32_units (f32_lit 1 64) + f32_units f32_one); [lia|by vm_compute]. }
  assert (f32_fin (f32_add (f32_of_int z) f32_one)) as Hsum by (exact (leb_fin 24 128 _ _ Hn H65 H2)).
  destruct (ln_range _ Hsum H1 H2) as [Hln Hle]. split; [done|]. apply f32_leb_units; [done|fin_constant|done].
Qed.
Lemma outcome_signal_ok summary : countable summary →
  length (outcome_signal summary) = 4%nat ∧ Forall in_range (outcome_signal summary).
Proof.
  intros (H1 & H2 & H3 & H4). split; [done|]. unfold outcome_signal.
  repeat constructor; apply count_signal; lia.
Qed.
Lemma observe_pad_only summary s :
  pad_only (store s) (store (observe_sync_outcome cfg clock summary s).2).
Proof.
  split_and!; [done..|]. eexists. split; [done|]. intros peer Hp. by apply lookup_insert_ne, not_eq_sym.
Qed.
Lemma observe_pad_ok summary s : countable summary →
  stored_pad me (store s) = None ∨ (∃ l, stored_pad me (store s) = Some l ∧ pad_ok l) →
  ∃ l', stored_pad me (store (observe_sync_outcome cfg clock summary s).2) = Some l' ∧ pad_ok l'.
Proof.
  intros Hc Hold. destruct (outcome_signal_ok summary Hc) as [Hlen Hsig].
  assert (pad_ok (values (from_values (default [] (stored_pad me (store s)))))) as Hpad.
  { destruct Hold as [-> |(l & -> & Hl)]; [apply pad_ok_fresh|]. rewrite from_values_full; [done|apply Hl]. }
  pose proof (pad_ok_update _ _ Hlen Hsig Hpad) as Hnew. eexists. split; [|exact Hnew].
  transitivity ((λ r, decode_values (tp_pad_values r)) <$>
    (<[me := TensorPadRow (encode_values (values (pad_update (outcome_signal summary) LEARNING_RATE
       (from_values (default [] (stored_pad me (store s))))))) (clock (ticks s))]> (tensor_pads (net (store s))) !! me)); [done|].
  rewrite lookup_insert_eq. cbn [fmap option_fmap option_map tp_pad_values]. f_equal. apply decode_encode_values.
  destruct Hnew as (_ & Hr & _). eapply Forall_impl; [exact Hr|apply in_range_valid].
Qed.

(** Whatever its rounds of syncing were like, the pad a peer keeps of them
    stays well-formed: after any number of rounds, starting without one, the
    stored bytes read back as exactly 32 numbers, each between zero and 64 -
    never an infinity or NaN - of which only the first four are ever moved,
    and nothing else in the database is written. *)
Theorem pad_remembers rounds s : stored_pad me (store s) = None → rounds ≠ [] → Forall countable rounds →
  let s' := foldl (λ s summary, (observe_sync_outcome cfg clock summary s).2) s rounds in
  (∃ l, stored_pad me (store s') = Some l ∧ length l = TENSOR_PAD_DIM ∧
     Forall (λ x, SFleb f32_zero x = true ∧ SFleb x f32_64 = true) l ∧
     ∀ i, (4 ≤ i < TENSOR_PAD_DIM)%nat → l !! i = Some f32_zero) ∧
  pad_only (store s) (store s').
Proof.
  intros Hnone Hne Hall s'. split.
  - assert (∃ l, stored_pad me (store s') = Some l ∧ pad_ok l) as (l & Hl & Hlen & Hr & Hz).
    { unfold s'. clear s'. destruct rounds as [|r rounds]; [done|]. apply Forall_cons in Hall as [Hr Hall]. cbn [foldl].
      destruct (observe_pad_ok r s Hr (or_introl Hnone)) as (l & Hl & Hok). clear Hne Hnone.
      revert l Hl Hok. generalize ((observe_sync_outcome cfg clock r s).2).
      induction Hall as [|r' rounds Hr' Hall IH]; intros s' l Hl Hok; [by exists l|]. cbn [foldl].
      destruct (observe_pad_ok r' s' Hr' (or_intror (ex_intro _ l (conj Hl Hok)))) as (l' & Hl' & Hok'). by eapply IH. }
    exists l. split; [done|]. split; [done|]. split; [|done]. eapply Forall_impl; [exact Hr|].
    intros x [Hf Hu]. split; [|apply f32_leb_units; [done|fin_constant|done]].
    apply f32_leb_units; [done..|]. by apply units_nonneg.
  - unfold s'. clear s' Hnone Hne Hall. revert s. induction rounds as [|r rounds IH]; intros s.
    + cbn [foldl]. do 3 (split; [done|]). exists (λ t, t). split; [by destruct (net (store s))|done].
    + cbn [foldl]. eapply pad_only_trans; [apply observe_pad_only|apply IH].
Qed.
End observe_facts.

Section witnesses.
Import Demo.

Lemma step_ln_laws : LogarithmLaws step_ln.
Proof. split. intros x _ _ _. cbn [f32_ln step_ln]. destruct (SFeqb x f32_one); (split; [solve [apply f32_zero_fin|apply f32_one_fin]|by vm_compute]). Qed.

Definition busy_round : SyncSummary :=
  {| sm_applied := 5; sm_already_known := 0; sm_forks := 1; sm_errors := [] |}.
(** Two rounds: events and a fork move the first and the third number. *)
Lemma pad_remembers_witness :
  let s := foldl (λ s summary, (observe_sync_outcome (peer_config bob) seconds summary s).2) (Svc empty_db 0) [busy_round; empty_summary] in
  ∃ l, stored_pad (identity_peer_id bob) (store s) = Some l ∧ length l = TENSOR_PAD_DIM ∧ l !! 4%nat = Some f32_zero ∧
    l !! 0%nat ≠ Some f32_zero.
Proof.
  intros s.
  assert (match stored_pad (identity_peer_id bob) (store s) with Some (x :: _) => negb (SFeqb x f32_zero) | _ => false end = true) as Hfirst
    by (vm_compute; reflexivity).
  destruct (@pad_remembers step_ln step_ln_laws (peer_config bob) seconds [busy_round; empty_summary] (Svc empty_db 0)) as [(l & Hl & Hlen & _ & Hz) _].
  - reflexivity.
  - discriminate.
  - repeat constructor; vm_compute; done.
  - exists l. split; [exact Hl|]. split; [exact Hlen|]. split; [apply Hz; unfold TENSOR_PAD_DIM; lia|].
    change (stored_pad (identity_peer_id bob) (store s) = Some l) in Hl. rewrite Hl in Hfirst.
    intros H0. destruct l as [|x l]; [discriminate Hfirst|]. injection H0 as ->. discriminate Hfirst.
Defined.
End witnesses.
