(* ===== verification/Catchup.v ===== *)
(** * Catching up with an honest peer

    Every stored event can be verified again from its stored bytes, so what
    an honest peer serves is accepted; a round of replication with it brings
    the local chains up to date. *)

From S2P Require Import Prelude Core Envelope Store Projector EventLog Frame Scenario Chain Replay.
From S2P Require Import Service Presence Float32 Trust Sync Graph Rebuild SyncFacts.

(** ** Stored events *)

Section verifiable.
Context `{P : Platform} `{L : !PlatformLaws P} `{C : Codec} `{U : GraphPlatform}.

(** The row's bytes parse to an event that verifies under some key, with the
    row's id, origin, predecessor, sequence number, time and type. *)
Definition stored_as (signed : SignedEvent) (e : event_row) : Prop :=
  ∃ key, signed_from_slice (er_canonical_payload e) = Ok signed ∧ row_of key signed e ∧
         sequence (unsigned signed) = er_sequence e ∧
         labelled e (created_at (unsigned signed)) (payload (unsigned signed)).
Definition verifiable (d : db) : Prop := ∀ e, e ∈ events (log d) → ∃ signed, stored_as signed e.

Lemma verifiable_same d d' : log d' = log d → verifiable d → verifiable d'.
Proof. intros Hl Hv e. rewrite Hl. apply Hv. Qed.
Lemma verifiable_append d d' e signed :
  verifiable d → events (log d') = events (log d) ++ [e] → stored_as signed e → verifiable d'.
Proof.
  intros Hv He Hs x. rewrite He, elem_of_app, list_elem_of_singleton.
  intros [Hx| ->]; [by apply Hv|by exists signed].
Qed.

Lemma commit_verifiable sk p t d :
  chained d → small d →
  (∀ signed id, build_and_sign sk (Z.of_nat (length (chain_of (identity_peer_id sk) d)) + 1)
     (last (chain_of (identity_peer_id sk) d)) t p = Ok (signed, id) → faithful signed) →
  verifiable d → verifiable (commit_local_event sk p t d).2.
Proof.
  intros Hc Hs Hf Hv.
  destruct (commit_cases sk p t d Hc Hs) as [[e ->]|(signed & e & out & d' & -> & Hb & Hcan & Ho
    & Hq & Hl & Hlab & _ & Har)]; [done|].
  apply apply_row_appended in Har as (He & _).
  apply (verifiable_append d d' e signed Hv He). exists (verifying_key sk).
  pose proof (build_and_sign_fields _ _ _ _ _ _ _ Hb) as Hfields.
  pose proof (chain_length_small d (identity_peer_id sk) Hs) as Hlen.
  split_and!; [by eapply Hf| |by rewrite Hfields, Hq|by rewrite Hfields].
  split_and!; [|done|].
  - by rewrite (check_envelope_built _ _ _ _ _ _ _ Hb), Ho, Hl.
  - rewrite Hfields, Hq. cbn. rewrite wrap_i64_small; [done|unfold is_i64; lia].
Qed.

Lemma ingest_verifiable key signed t d :
  chained d → small d → is_u64 (sequence (unsigned signed)) → faithful signed →
  (∀ id o prev, check_envelope key signed = Ok (id, o, prev) →
     collision_free d id o (sequence (unsigned signed))) →
  verifiable d → verifiable (ingest_remote_event key signed t d).2.
Proof.
  intros Hc Hs Hu Hf Hcol Hv.
  destruct (check_envelope key signed) as [[[id o] prev]|e] eqn:Hck;
    [|unfold ingest_remote_event; by rewrite Hck].
  specialize (Hcol _ _ _ eq_refl).
  pose proof (ingest_cases _ _ t _ _ _ _ Hc Hs Hu Hck Hcol) as H.
  destruct (ingest_remote_event key signed t d) as [r d']. cbn [snd]. unfold ingested in H.
  pose proof (chain_length_small d o Hs) as Hlen.
  destruct (offer _ _ _ _) as [|x|n|h|] eqn:Hof.
  - by destruct H as [_ ->].
  - destruct (signed_to_string signed); [|by destruct H as [_ ->]].
    destruct H as (_ & Hl & _). by eapply verifiable_same.
  - by destruct H as [_ ->].
  - by destruct H as [_ ->].
  - destruct H as (e & Hid & Ho & Hq & Hp & Hlab & Hcan & H).
    destruct (fresh_next _ _ _ _ _ Hc Hs Hcol Hof) as (Hn & _ & _).
    destruct (apply_row e _ d) as [[out d1]|] eqn:Har; destruct H as [_ ->]; [|done].
    apply apply_row_appended in Har as (He & _).
    apply (verifiable_append d d1 e signed Hv He). exists key.
    split_and!; [by apply Hf| |done|done]. split_and!; [by rewrite Hck, Hid, Ho, Hp|done|].
    rewrite Hq, wrap_i64_small; [done|unfold is_i64; lia].
Qed.

Lemma reachable_verifiable d : reachable d → verifiable d.
Proof.
  induction 1 as [|d d' Hd Hv Hs Hstep]; [intros e He; by apply not_elem_of_nil in He|].
  pose proof (reachable_inv d Hd) as [Hc Hr].
  destruct Hstep as [sk p t Hf|key signed received Hu Hf Hcol|id reason t|id reason t|node t|node
    |f|].
  - by apply commit_verifiable.
  - by apply ingest_verifiable.
  - destruct (atomically _ d) as [[u|e] d'] eqn:Hrun; [|by apply atomically_err in Hrun as ->].
    apply atomically_ok, redact_evidence_inv in Hrun as (r & _ & _ & _ & ->).
    by eapply verifiable_same.
  - destruct (atomically _ d) as [[u|e] d'] eqn:Hrun; [|by apply atomically_err in Hrun as ->].
    apply atomically_ok, redact_actor_inv in Hrun as (r & _ & ->). by eapply verifiable_same.
  - unfold suppress, insert_or_ignore, atomically. cbv [mbind stm_bind get mret stm_ret modify].
    destruct (has _ _); cbn; [done|by eapply verifiable_same].
  - by eapply verifiable_same.
  - by eapply verifiable_same.
  - by rewrite rebuild_restores.
Qed.

(** An event stored under one key is, if it verifies under another, the same
    event of the same origin. *)
Lemma stored_envelope signed e key id o prev :
  stored_as signed e → check_envelope key signed = Ok (id, o, prev) →
  id = er_event_id e ∧ o = er_origin_peer_id e ∧ prev = er_previous_event_id e.
Proof.
  intros (key' & _ & [Hck' _] & _) Hck.
  apply check_envelope_inv in Hck as (Hv & Ho & _ & Hp).
  apply check_envelope_inv in Hck' as (Hv' & Ho' & _ & Hp').
  apply verify_and_derive_inv in Hv as (? & ? & ? & cs & _ & _ & _ & _ & Hcs & ->).
  apply verify_and_derive_inv in Hv' as (? & ? & ? & cs' & _ & _ & _ & _ & Hcs' & Hid').
  split_and!; congruence.
Qed.
End verifiable.

(** ** Ranges of a chain *)

Section ranges.

Lemma linked_range_prefix es : ∀ s p f t,
  linked s p es → (f ≤ s)%Z →
  filter (λ e, (f ≤ er_sequence e ∧ er_sequence e ≤ t)%Z) es = take (Z.to_nat (t - s + 1)) es.
Proof.
  induction es as [|e es IH]; intros s p f t Hl Hf; [by rewrite take_nil|].
  destruct Hl as (Hs & _ & Hl). rewrite filter_cons, Hs.
  rewrite (IH (s + 1)%Z _ f t Hl) by lia. destruct (decide (s ≤ t)%Z) as [Ht|Ht].
  - rewrite decide_True by lia.
    replace (Z.to_nat (t - s + 1)) with (S (Z.to_nat (t - (s + 1) + 1))) by lia. done.
  - rewrite decide_False by lia.
    replace (Z.to_nat (t - s + 1)) with 0 by lia.
    by replace (Z.to_nat (t - (s + 1) + 1)) with 0 by lia.
Qed.
Lemma linked_range es : ∀ s p f t,
  linked s p es → (s ≤ f)%Z →
  filter (λ e, (f ≤ er_sequence e ∧ er_sequence e ≤ t)%Z) es =
    take (Z.to_nat (t - f + 1)) (drop (Z.to_nat (f - s)) es).
Proof.
  induction es as [|e es IH]; intros s p f t Hl Hf; [by rewrite drop_nil, take_nil|].
  destruct (decide (f = s)) as [->|Hne].
  - rewrite Z.sub_diag. by apply (linked_range_prefix _ s p).
  - destruct Hl as (Hs & _ & Hl). rewrite filter_cons, Hs, decide_False by lia.
    rewrite (IH (s + 1)%Z _ f t Hl) by lia.
    by replace (Z.to_nat (f - s)) with (S (Z.to_nat (f - (s + 1)))) by lia.
Qed.

Lemma linked_sorted es : ∀ s p, linked s p es →
  Forall (λ e, (s ≤ er_sequence e)%Z) es ∧
  StronglySorted (λ a b, (er_sequence a ≤ er_sequence b)%Z) es.
Proof.
  induction es as [|e es IH]; intros s p Hl; [split; constructor|].
  destruct Hl as (Hs & _ & [H1 H2]%IH). split.
  - constructor; [lia|]. eapply Forall_impl; [exact H1|]. cbn. lia.
  - constructor; [done|]. eapply Forall_impl; [exact H1|]. cbn. lia.
Qed.
Lemma sorted_sublist {A} (R : relation A) n m l :
  StronglySorted R l → StronglySorted R (take n (drop m l)).
Proof.
  intros H. rewrite <-(take_drop m l) in H. apply StronglySorted_app in H as (_ & _ & H).
  rewrite <-(take_drop n (drop m l)) in H. by apply StronglySorted_app in H as (_ & H & _).
Qed.

(** The server's range query gives a stretch of the chain. *)
Lemma list_range_chain o f t d :
  chained d → (1 ≤ f)%Z →
  list_range o f t d = Ok (take (Z.to_nat (t - f + 1)) (drop (Z.to_nat (f - 1)) (of_origin o d)), d).
Proof.
  intros Hc Hf. unfold list_range, gets. do 2 f_equal.
  pose proof (chained_links _ Hc o) as Hl.
  set (part := take _ _).
  assert (filter (λ e, er_origin_peer_id e = o ∧ (f ≤ er_sequence e ∧ er_sequence e ≤ t)%Z)
            (events (log d)) = part) as ->.
  { unfold part. rewrite <-(linked_range _ 1 None f t Hl Hf). unfold of_origin.
    rewrite list_filter_filter. apply list_filter_iff. tauto. }
  assert (StronglySorted (λ a b, (er_sequence a ≤ er_sequence b)%Z) part) as Hsort.
  { apply sorted_sublist. by eapply linked_sorted. }
  apply (StronglySorted_unique_strong (λ a b, (er_sequence a ≤ er_sequence b)%Z));
    [| |done|apply merge_sort_Permutation].
  - intros a b Ha Hb Hab Hba. rewrite merge_sort_Permutation in Ha.
    unfold part in Ha, Hb. apply elem_of_take in Ha as (i & Ha & _).
    apply elem_of_take in Hb as (j & Hb & _). rewrite lookup_drop in Ha, Hb.
    pose proof (linked_lookup _ _ _ _ _ Hl Ha). pose proof (linked_lookup _ _ _ _ _ Hl Hb).
    assert (Z.to_nat (f - 1) + i = Z.to_nat (f - 1) + j) as Heq by lia. congruence.
  - apply StronglySorted_merge_sort; [intros ???; lia|intros ??; lia].
Qed.
End ranges.

(** ** What an honest server answers *)

Section honest.
Context `{P : Platform} `{L : !PlatformLaws P} `{C : Codec}.

Lemma read_events_verifiable rows :
  (∀ e, e ∈ rows → ∃ signed, stored_as signed e) →
  ∃ es, read_events rows = Ok es ∧ Forall2 stored_as es rows.
Proof.
  induction rows as [|e rows IH]; intros Hv; cbn; [exists []; by split; [|constructor]|].
  destruct (Hv e) as [signed Hs]; [by left|].
  destruct IH as (es & -> & Hes); [intros; apply Hv; by right|].
  pose proof Hs as (key & -> & _). exists (signed :: es). split; [done|by constructor].
Qed.

Lemma decode_hex32_to_hex o : decode_hex32 (to_hex o) = Some o.
Proof. apply decode_hex_encode. Qed.

(** Near the largest sequence number the end of the page would overflow. *)
Lemma get_events_chain o f t d :
  chained d → verifiable d → (1 ≤ f ≤ t)%Z → (t + 1000 < 2 ^ 63)%Z →
  ∃ es, get_events (to_hex o) f t d = Ok es ∧
    Forall2 stored_as es
      (take (Z.to_nat (Z.min (t - f + 1) 1000)) (drop (Z.to_nat (f - 1)) (of_origin o d))).
Proof.
  intros Hc Hv Hft Ht. unfold get_events. rewrite decode_hex32_to_hex. cbn [ok_or mbind result_bind].
  rewrite (proj2 (Z.ltb_ge _ _)) by lia. unfold MAX_EVENTS_PER_FETCH.
  rewrite (wrap_i64_small f), (wrap_i64_small t), (wrap_i64_small (f + 1000 - 1))
    by (unfold is_i64; lia).
  rewrite list_range_chain by (done || lia). cbn [fmap result_fmap map_err mbind result_bind fst].
  replace (Z.min t (f + 1000 - 1) - f + 1)%Z with (Z.min (t - f + 1) 1000)%Z by lia.
  set (rows := take _ _). destruct (read_events_verifiable rows) as (es & -> & Hes).
  - intros e He. apply Hv. unfold rows in He.
    apply elem_of_take in He as (i & He & _). rewrite lookup_drop in He.
    apply list_elem_of_lookup_2 in He. by apply list_elem_of_filter in He as [_ He].
  - by exists es.
Qed.

(** *** The heads a server announces *)

Lemma head_entries (r : list (hash32 * origin_row)) :
  NoDup r.*1 → NoDup ((λ x : hash32 * origin_row,
    (to_hex x.1, wrap_u64 (or_highest_contiguous x.2))) <$> r).*1.
Proof.
  intros Hnd. rewrite <-list_fmap_compose.
  replace (fst ∘ _ <$> r) with (to_hex <$> r.*1) by (by rewrite <-list_fmap_compose).
  apply NoDup_fmap_2; [|done]. intros a b. apply to_hex_inj.
Qed.

Definition heads_map (d : db) : gmap string Z :=
  list_to_map ((λ r : hash32 * origin_row,
    (to_hex r.1, wrap_u64 (or_highest_contiguous r.2))) <$> map_to_list (event_origins (log d))).

Lemma heads_map_inv d k n :
  heads_map d !! k = Some n →
  ∃ o row, k = to_hex o ∧ event_origins (log d) !! o = Some row ∧ n = wrap_u64 (or_highest_contiguous row).
Proof.
  intros H%elem_of_list_to_map_2. apply list_elem_of_fmap in H as ([o row] & [= -> ->] & Hin).
  apply elem_of_map_to_list in Hin. by exists o, row.
Qed.
Lemma heads_map_lookup d o :
  chained d → small d →
  default 0%Z (heads_map d !! to_hex o) = Z.of_nat (length (chain_of o d)) ∧
  (chain_of o d ≠ [] → is_Some (heads_map d !! to_hex o)).
Proof.
  intros Hc Hs. pose proof (chain_length_small d o Hs) as Hlen.
  pose proof (chained_heads _ Hc o) as Hh. pose proof (chained_links _ Hc o) as Hl.
  destruct (heads_map d !! to_hex o) as [n|] eqn:Hm.
  - split; [|by eexists]. cbn. apply heads_map_inv in Hm as (o' & row & ->%to_hex_inj & Hr & ->).
    rewrite Hr in Hh. unfold end_of in Hh. destruct (last (of_origin o' d)) as [e|] eqn:Hlast; [|done].
    injection Hh as ->. cbn. rewrite last_lookup in Hlast.
    pose proof (linked_lookup _ _ _ _ _ Hl Hlast) as Hq. apply lookup_lt_Some in Hlast.
    unfold chain_of in *. rewrite length_fmap in *. rewrite Hq, wrap_u64_small; [lia|unfold is_u64; lia].
  - cbn. assert (of_origin o d = []) as He.
    { destruct (event_origins (log d) !! o) as [row|] eqn:Hr.
      - assert (is_Some (heads_map d !! to_hex o)) as [? ?]; [|congruence].
        eexists. apply elem_of_list_to_map; [apply head_entries, NoDup_fst_map_to_list|].
        apply list_elem_of_fmap. exists (o, row). split; [done|]. by apply elem_of_map_to_list.
      - symmetry in Hh. unfold end_of in Hh. apply fmap_None in Hh. by apply last_None in Hh. }
    unfold chain_of. rewrite He. done.
Qed.
End honest.

(** ** A round of replication between two honest databases *)

Section round.
Context `{P : Platform} `{L : !PlatformLaws P} `{C : Codec} `{SC : StatementCodec}.
Context (cfg : SyncConfig) (clock : nat → Z).
(** The local database before the round, and the remote's. *)
Context (dl dr : db).

Definition place (e : event_row) : hash32 * hash32 * Z :=
  (er_event_id e, er_origin_peer_id e, er_sequence e).
Definition rows : list event_row := events (log dl) ++ events (log dr).

(** No two stored events share an id, and the sequence numbers fit. *)
Definition distinct : Prop :=
  ∀ a b, a ∈ rows → b ∈ rows → er_event_id a = er_event_id b → place a = place b.
Definition roomy : Prop := (Z.of_nat (length rows) + 1001 < 2 ^ 63)%Z.

Context (Hdistinct : distinct) (Hroomy : roomy).
Context (Hcl : chained dl) (Hcr : chained dr) (Hvr : verifiable dr).

(** During the round the local log holds nothing but events of the two. *)
Record between (d : db) : Prop := {
  between_chained : chained d;
  between_rows e : e ∈ events (log d) → place e ∈ (place <$> rows) }.

Lemma between_dl : between dl.
Proof.
  split; [done|]. intros e He. apply list_elem_of_fmap_2. apply elem_of_app. by left.
Qed.
Lemma between_small d : between d → small d.
Proof.
  intros [Hc Hr]. unfold small.
  assert (length (events (log d)) ≤ length rows); [|unfold roomy in Hroomy; lia].
  rewrite <-(length_fmap er_event_id (events (log d))), <-(length_fmap er_event_id rows).
  apply submseteq_length, NoDup_submseteq; [apply Hc|].
  intros id (e & -> & He)%list_elem_of_fmap.
  apply Hr, list_elem_of_fmap in He as (x & Hx & Hin). unfold place in Hx.
  injection Hx as -> _ _. by apply list_elem_of_fmap_2.
Qed.
Lemma between_log d d' : log d' = log d → between d → between d'.
Proof. intros Hl [Hc Hr]. split; [by eapply log_chained|]. by rewrite Hl. Qed.

Lemma remote_sequence e : e ∈ events (log dr) → (1 ≤ er_sequence e < 2 ^ 63 - 1000)%Z.
Proof.
  intros He. assert (e ∈ of_origin (er_origin_peer_id e) dr) as Hin
    by (by apply list_elem_of_filter).
  apply list_elem_of_lookup in Hin as [i Hi].
  pose proof (linked_lookup _ _ _ _ _ (chained_links _ Hcr _) Hi) as ->.
  apply lookup_lt_Some in Hi. assert (length (of_origin (er_origin_peer_id e) dr) ≤ length rows).
  { unfold rows, of_origin. rewrite length_app. pose proof (length_filter
      (λ x, er_origin_peer_id x = er_origin_peer_id e) (events (log dr))). lia. }
  unfold roomy in Hroomy. lia.
Qed.

(** An event the remote holds, offered to the local database. *)
Lemma honest_cases key signed e t d :
  between d → e ∈ events (log dr) → stored_as signed e →
  let '(r, d') := ingest_remote_event key signed t d in
  between d' ∧
  ((∃ err, check_envelope key signed = Err err ∧ r = Err err ∧ d' = d) ∨
   (ingested key signed t (er_event_id e) (er_origin_peer_id e) (er_previous_event_id e) d r d' ∧
    grows d d' r (er_origin_peer_id e))).
Proof.
  intros Hb He Hst. pose proof (between_small d Hb) as Hs.
  destruct (check_envelope key signed) as [[[id o] prev]|err] eqn:Hck.
  2: { unfold ingest_remote_event. rewrite Hck. split; [done|]. left. by exists err. }
  pose proof (stored_envelope _ _ _ _ _ _ Hst Hck) as (-> & -> & ->).
  pose proof Hst as (_ & _ & _ & Hseq & _).
  pose proof (remote_sequence e He) as Hrange.
  assert (is_u64 (sequence (unsigned signed))) as Hu by (rewrite Hseq; unfold is_u64; lia).
  assert (collision_free d (er_event_id e) (er_origin_peer_id e) (sequence (unsigned signed))) as Hcol.
  { intros x Hx Hid. rewrite Hseq. apply (between_rows _ Hb), list_elem_of_fmap in Hx as (y & Hp & Hy).
    assert (er_event_id y = er_event_id x) as Hyx by (unfold place in Hp; congruence).
    assert (place y = place e) as Hpl.
    { apply Hdistinct; [done|apply elem_of_app; by right|congruence]. }
    unfold place in *. congruence. }
  pose proof (ingest_cases key signed t _ _ _ d (between_chained _ Hb) Hs Hu Hck Hcol) as H.
  pose proof (ingest_events key signed t d) as [_ Hev].
  destruct (ingest_remote_event key signed t d) as [r d']. cbn [snd] in Hev.
  destruct (ingested_chained _ _ _ _ _ _ _ _ _ (between_chained _ Hb) Hs Hcol H) as [Hc' Hg].
  split; [|by right]. split; [done|]. intros x Hx.
  destruct Hev as [[Hev _]|[(row & (Hck' & _ & Hsq) & Hev & _)|(? & ? & ? & ? & _ & _ & Hl & _)]].
  - rewrite Hev in Hx. by apply Hb.
  - rewrite Hev, elem_of_app, list_elem_of_singleton in Hx. destruct Hx as [Hx| ->]; [by apply Hb|].
    rewrite Hck in Hck'. injection Hck' as Hi Ho _.
    assert (place row = place e) as ->.
    { unfold place. rewrite <-Hi, <-Ho, Hsq, Hseq. rewrite wrap_i64_small; [done|unfold is_i64; lia]. }
    apply list_elem_of_fmap_2, elem_of_app. by right.
  - rewrite Hl in Hx. by apply Hb.
Qed.

(** Steps that ingest only the remote's events of other origins. *)
Lemma honest_steps served o d d' :
  (∀ key e, served key e → ∃ row, row ∈ events (log dr) ∧ stored_as e row ∧ er_origin_peer_id row ≠ o) →
  rtc (sync_step cfg clock served) d d' → between d → between d' ∧ chain_of o d' = chain_of o d.
Proof.
  intros Hserved. induction 1 as [d|d d1 d2 H1 _ IH]; [done|]. intros Hb.
  assert (between d1 ∧ chain_of o d1 = chain_of o d) as [Hb1 <-]; [|by apply IH].
  destruct H1 as [n _|key e t ? He _].
  - split; [by apply (between_log d)|done].
  - destruct (Hserved _ _ He) as (row & Hrow & Hst & Ho).
    pose proof (honest_cases key e row t d Hb Hrow Hst) as H.
    destruct (ingest_remote_event key e t d) as [r d']. cbn [snd].
    destruct H as [Hb' H]. split; [done|]. destruct H as [(? & _ & _ & ->)|[_ Hg]]; [done|].
    rewrite (Hg o). destruct r as [[id ? | |]|]; [|by rewrite app_nil_r..].
    rewrite decide_False by done. by rewrite app_nil_r.
Qed.

(** *** The origin that catches up *)

Context (o : hash32) (key : VerifyingKey).

(** The remote's events of [o] are signed with [key]. *)
Definition authored : Prop :=
  ∀ e signed, e ∈ of_origin o dr → signed_from_slice (er_canonical_payload e) = Ok signed →
    row_of key signed e.
(** The projector refuses the event after the first [m] of the remote's chain:
    with those in the log, it fails on the row of the event the remote holds
    there. *)
Definition refused (m : nat) (err : EventsError) : Prop :=
  ∃ e signed row d, of_origin o dr !! m = Some e ∧ stored_as signed e ∧
    between d ∧ chain_of o d = take m (chain_of o dr) ∧
    er_event_id row = er_event_id e ∧ er_origin_peer_id row = er_origin_peer_id e ∧
    er_sequence row = er_sequence e ∧ er_previous_event_id row = er_previous_event_id e ∧
    er_canonical_payload row = er_canonical_payload e ∧
    apply_row row (payload (unsigned signed)) d = Err err.

Lemma linked_previous es : ∀ s p i e,
  linked s p es → es !! i = Some e →
  er_previous_event_id e = match i with O => p | S j => er_event_id <$> es !! j end.
Proof.
  induction es as [|x es IH]; intros s p [|i] e Hl Hi; cbn in *; try done.
  - injection Hi as <-. by destruct Hl as (_ & ? & _).
  - destruct Hl as (_ & _ & Hl). rewrite (IH _ _ _ _ Hl Hi). by destruct i.
Qed.
Lemma last_take {A} (l : list A) j : j < length l → last (take (S j) l) = l !! j.
Proof.
  intros [x Hx]%lookup_lt_is_Some. by rewrite (take_S_r _ _ _ Hx), last_snoc, Hx.
Qed.

Lemma offer_next k e :
  of_origin o dr !! k = Some e →
  offer (take k (chain_of o dr)) (er_sequence e) (er_previous_event_id e) (er_event_id e) = Extend.
Proof.
  intros Hk. pose proof (lookup_lt_Some _ _ _ Hk) as Hlt.
  pose proof (linked_lookup _ _ _ _ _ (chained_links _ Hcr o) Hk) as Hq.
  pose proof (linked_previous _ _ _ _ _ (chained_links _ Hcr o) Hk) as Hp.
  unfold offer. assert (length (chain_of o dr) = length (of_origin o dr)) as Hlen
    by (unfold chain_of; by rewrite length_fmap).
  rewrite length_take, Nat.min_l, Hq by lia. rewrite decide_False by lia.
  rewrite decide_True by lia. rewrite decide_True; [done|]. rewrite Hp. destruct k as [|j]; [done|].
  rewrite last_take by lia. unfold chain_of. by rewrite list_lookup_fmap.
Qed.

Lemma pull_segment hex es : ∀ seg k summary s,
  authored → Forall2 stored_as es seg →
  (∀ i row, seg !! i = Some row → of_origin o dr !! (k + i) = Some row) →
  between (store s) → chain_of o (store s) = take k (chain_of o dr) →
  ∃ summary' s' m, ingest_all clock hex key es summary s = (Ok summary', s') ∧
    between (store s') ∧ net_ok cfg (net (store s)) (net (store s')) ∧
    chain_of o (store s') = take m (chain_of o dr) ∧
    ((m = k + length es ∧ sm_errors summary' = sm_errors summary) ∨
     (k ≤ m < k + length es ∧ ∃ err, refused m err ∧
        sm_errors summary' = sm_errors summary ++ [IngestFailed hex (Z.of_nat m + 1) err])).
Proof.
  induction es as [|signed es IH]; intros seg k summary s Hau Hst Hseg Hb Hch.
  { exists summary, s, k. split_and!; [done..|]. left. split; [cbn; lia|done]. }
  destruct seg as [|row seg]; [by apply Forall2_cons_nil_inv in Hst|].
  apply Forall2_cons in Hst as [Hrow Hst].
  pose proof (Hseg 0 row eq_refl) as Hk. rewrite Nat.add_0_r in Hk.
  assert (row ∈ of_origin o dr) as Hin by (by eapply list_elem_of_lookup_2).
  pose proof Hin as [Ho He]%list_elem_of_filter.
  pose proof Hrow as (_ & Hparse & _ & Hseq & _).
  destruct (Hau row signed Hin Hparse) as (Hck & Hcanon & _).
  cbn [ingest_all]. cbv [mbind ste_bind now_ts read_clock ingest]. cbn [store ticks].
  pose proof (honest_cases key signed row (clock (ticks s)) (store s) Hb He Hrow) as H.
  pose proof (ingest_net_ok cfg key signed (clock (ticks s)) (store s)) as Hnet.
  destruct (ingest_remote_event _ _ _ _) as [r d']. cbn [snd] in Hnet. destruct H as [Hb' H].
  destruct H as [(err & Hbad & _)|[H Hg]]; [congruence|]. unfold ingested in H. rewrite Ho in *.
  rewrite Hch, Hseq, (offer_next k row Hk) in H.
  destruct H as (e' & Hi' & Ho' & Hq' & Hp' & _ & Hc' & H).
  pose proof (linked_lookup _ _ _ _ _ (chained_links _ Hcr o) Hk) as Hqk.
  destruct (apply_row e' _ _) as [[out d1]|err] eqn:Har; destruct H as [-> ->].
  - destruct (IH seg (S k) (count_applied summary) (Svc d1 (S (ticks s))) Hau Hst)
      as (sm & s' & m & Hrun & Hbm & Hnm & Hcm & Hm).
    + intros i x Hi. rewrite <-(Hseg (S i) x Hi). f_equal. lia.
    + done.
    + cbn [store]. specialize (Hg o). cbn in Hg. rewrite decide_True in Hg by done.
      rewrite Hg, Hch. symmetry. apply take_S_r. unfold chain_of. by rewrite list_lookup_fmap, Hk.
    + exists sm, s', m. split_and!; [done|done|by etransitivity|done|].
      cbn [length]. destruct Hm as [[-> ?]|[? ?]]; [left|right]; split; try done; lia.
  - exists (add_failure (IngestFailed hex (sequence (unsigned signed)) err) summary),
      (Svc (store s) (S (ticks s))), k. split_and!; [done|done|done|done|].
    right. split; [cbn; lia|]. exists err. split; [|cbn; do 3 f_equal; lia].
    exists row, signed, e', (store s). split_and!; [done..|congruence|congruence|congruence|congruence|congruence|done].
Qed.
End round.

(** ** A whole round *)

Section whole_round.
Context `{P : Platform} `{L : !PlatformLaws P} `{C : Codec} `{SC : StatementCodec}.
Context {LN : Logarithm} (cfg : SyncConfig) (clock : nat → Z).

(** Steps that ingest nothing leave the log alone. *)
Lemma quiet_steps d d' : rtc (sync_step cfg clock (λ _ _, False)) d d' → log d' = log d.
Proof. induction 1 as [|d d1 d2 [n _|? ? ? ? [] _] _ IH]; [done|]. by rewrite IH. Qed.

Lemma conn_ok {A} (m : tx A) s a d : m (store s) = Ok (a, d) → conn m s = (Ok a, Svc d (ticks s)).
Proof. intros H. unfold conn, statement, transact, atomically. by rewrite H. Qed.
Lemma tried_ok {E A} (m : tx A) s : ∃ a s', tried m s = (Ok a : result E (option A), s').
Proof. unfold tried. destruct (atomically m (store s)) as [r d]. by eexists _, _. Qed.

Lemma record_known_heads_ok o t hs : ∀ s, ∃ s', record_known_heads o t hs s = (Ok (), s').
Proof.
  induction hs as [|h hs IH]; intros s; cbn [record_known_heads]; [by eexists|].
  destruct (decode_hex32 h.1) as [o'|].
  - erewrite ste_bind_run by (by apply conn_ok). apply IH.
  - erewrite ste_bind_run by reflexivity. apply IH.
Qed.
Lemma record_addresses_ok o l : ∀ s, ∃ s', record_addresses o l s = (Ok (), s').
Proof.
  induction l as [|a l IH]; intros s; cbn [record_addresses]; [by eexists|].
  destruct (tried_ok (E:=SyncError) (add_address o a) s) as (x & s' & Hx).
  erewrite ste_bind_run by exact Hx. apply IH.
Qed.
Lemma learn_peers_ok t ps : ∀ s, ∃ s', learn_peers cfg t ps s = (Ok (), s').
Proof.
  induction ps as [|p ps IH]; intros s; cbn [learn_peers]; [by eexists|].
  assert (∃ s', learn_peer cfg t p s = (Ok (), s')) as [s' Hs'].
  { unfold learn_peer. destruct (PeerId_from_str _) as [pid|]; [|by eexists].
    destruct (decode_hex32 _) as [pk|]; [|by eexists].
    case_bool_decide; [by eexists|]. destruct (vk_from_bytes pk); [|by eexists].
    destruct (negb _); [by eexists|].
    destruct (tried_ok (E:=SyncError) (upsert_peer pid pk None t) s) as (x & s' & Hx).
    erewrite ste_bind_run by exact Hx. destruct x; [apply record_addresses_ok|by eexists]. }
  erewrite ste_bind_run by exact Hs'. apply IH.
Qed.
Lemma discover_peers_ok r s : ∃ s', discover_peers cfg clock r s = (Ok (), s').
Proof.
  unfold discover_peers. destruct (client_fetch_peers r); [|by eexists].
  destruct (tried_ok (E:=SyncError) count_peers s) as (x & s' & Hx).
  erewrite ste_bind_run by exact Hx.
  destruct (match x with Some _ => _ | None => _ end); [by eexists|].
  erewrite ste_bind_run by reflexivity. apply learn_peers_ok.
Qed.

(** *** Pulling always returns, and keeps the failures it has met *)

Definition pulled (summary : SyncSummary) (x : result SyncError SyncSummary * service) : Prop :=
  ∃ summary' s', x = (Ok summary', s') ∧ ∃ fs, sm_errors summary' = sm_errors summary ++ fs.

Lemma pulled_same summary s : pulled summary (Ok summary, s).
Proof. eexists _, _. split; [done|]. exists []. by rewrite app_nil_r. Qed.
Lemma pulled_failure summary f s : pulled summary (Ok (add_failure f summary), s).
Proof. eexists _, _. split; [done|]. by eexists. Qed.
Lemma ingest_all_pulled hex key evs : ∀ summary s,
  pulled summary (ingest_all clock hex key evs summary s).
Proof.
  induction evs as [|e evs IH]; intros summary s; [apply pulled_same|]. cbn [ingest_all].
  cbv [mbind ste_bind now_ts read_clock ingest]. cbn [store ticks].
  destruct (ingest_remote_event _ _ _ _) as [[[| |]|] d]; cbn;
    [apply (IH (count_applied summary))|apply (IH (count_known summary))| |apply pulled_failure].
  apply (pulled_same (count_fork summary)).
Qed.
Lemma key_of_ok remote_id remote_key o s :
  key_of remote_id remote_key o s =
    (Ok (if bool_decide (o = remote_id) then Some remote_key
         else peers (net (store s)) !! o ≫= λ i, to_option (vk_from_bytes (pe_public_key i))), s).
Proof.
  unfold key_of. case_bool_decide; [done|].
  erewrite ste_bind_run by (by apply conn_ok). by destruct s.
Qed.
Lemma pull_origin_pulled r remote_id remote_key heads h summary s :
  pulled summary (pull_origin cfg clock r remote_id remote_key heads h summary s).
Proof.
  unfold pull_origin. destruct (decode_hex32 h.1) as [o|]; [|apply pulled_same].
  destruct (federation_allows_run cfg clock (E:=SyncError) o s) as (b & n & Hf & _).
  erewrite ste_bind_run by exact Hf. destruct b; [|apply pulled_same]. cbn [negb].
  destruct (Z.leb _ _); [apply pulled_same|].
  erewrite ste_bind_run by apply key_of_ok.
  destruct (if bool_decide _ then _ else _); [|apply pulled_same].
  destruct (client_fetch_events _ _ _ _); [apply ingest_all_pulled|apply pulled_failure].
Qed.
Lemma pull_all_pulled r remote_id remote_key heads hs : ∀ summary s,
  pulled summary (pull_all cfg clock r remote_id remote_key heads hs summary s).
Proof.
  induction hs as [|h hs IH]; intros summary s; [apply pulled_same|]. cbn [pull_all].
  destruct (pull_origin_pulled r remote_id remote_key heads h summary s)
    as (sm & s' & H & fs & Hfs).
  erewrite ste_bind_run by exact H. destruct (IH sm s') as (sm' & s'' & -> & fs' & Hfs').
  exists sm', s''. split; [done|]. exists (fs ++ fs'). by rewrite Hfs', Hfs, app_assoc.
Qed.
Lemma pull_all_app r remote_id remote_key heads h1 h2 : ∀ summary s,
  pull_all cfg clock r remote_id remote_key heads (h1 ++ h2) summary s =
    (sm ← pull_all cfg clock r remote_id remote_key heads h1 summary;
     pull_all cfg clock r remote_id remote_key heads h2 sm) s.
Proof.
  induction h1 as [|h h1 IH]; intros summary s; [done|]. cbn [app pull_all].
  cbv [mbind ste_bind] in *. destruct (pull_origin _ _ _ _ _ _ _ _ s) as [[sm|] s']; [apply IH|done].
Qed.

(** *** The remote is another peer running this code *)

Context (rcfg : SyncConfig) (rkey : VerifyingKey) (dl dr : db) (r : remote) (o : hash32).

(** It introduces itself with its own key, answers from its database, and its
    answers about [o] get through (they fit the client's size limit). *)
Record honest_remote : Prop := {
  hr_key : vk_from_bytes (self_public_key rcfg) = Ok rkey;
  hr_self : self_peer_id rcfg = PeerId_from_public_key rkey;
  hr_hello : client_hello r = Ok (server_hello rcfg dr);
  hr_answers k f t es : client_fetch_events r k f t = Ok es → get_events k f t dr = Ok es;
  hr_delivers f t es :
    get_events (to_hex o) f t dr = Ok es → client_fetch_events r (to_hex o) f t = Ok es }.

Context (Hhonest : honest_remote).

Lemma handshake_ok addr s : ∃ s',
  handshake clock addr r s = (Ok (server_hello rcfg dr, self_peer_id rcfg, rkey), s').
Proof.
  destruct Hhonest as [Hk Hself Hh _ _]. unfold handshake.
  erewrite ste_bind_run by (unfold of_result; by rewrite Hh).
  erewrite ste_bind_run by (unfold of_result; cbn; by rewrite PeerId_from_to_string).
  erewrite ste_bind_run
    by (unfold of_result, decode_hex32; cbn [server_hello he_public_key]; by rewrite decode_hex_encode).
  erewrite ste_bind_run by (unfold of_result; by rewrite Hk).
  rewrite bool_decide_true by done. cbn [negb].
  erewrite ste_bind_run by reflexivity.
  erewrite ste_bind_run by (by apply conn_ok).
  set (s1 := Svc _ _).
  assert (∃ d, add_address (self_peer_id rcfg) addr (store s1) = Ok ((), d)) as [d Hd].
  { unfold add_address, insert_or_ignore. cbv [mbind stm_bind get modify mret stm_ret].
    destruct (negb (negb _)); [by eexists|].
    unfold has. cbn. rewrite lookup_insert_eq, bool_decide_true by done. by eexists. }
  erewrite ste_bind_run by (by apply conn_ok).
  destruct (record_known_heads_ok (self_peer_id rcfg)
    (clock (ticks s)) (he_heads (server_hello rcfg dr)) (Svc d (ticks s1))) as [s' Hs'].
  erewrite ste_bind_run by exact Hs'. by eexists.
Qed.

Lemma get_events_served k f t es e :
  verifiable dr → get_events (to_hex k) f t dr = Ok es → e ∈ es →
  ∃ row, row ∈ events (log dr) ∧ er_origin_peer_id row = k ∧ stored_as e row.
Proof.
  intros Hv H He. unfold get_events in H. rewrite decode_hex32_to_hex in H.
  cbn [ok_or mbind result_bind] in H. destruct (Z.ltb t f); [done|].
  cbv [list_range gets] in H. cbn [fmap result_fmap map_err mbind result_bind fst] in H.
  apply map_err_ok in H. revert H.
  match goal with |- read_events ?l = _ → _ => set (part := l) end. intros H.
  assert (∀ x, x ∈ part → x ∈ events (log dr) ∧ er_origin_peer_id x = k) as Hpart.
  { intros x Hx. unfold part in Hx. rewrite merge_sort_Permutation in Hx.
    by apply list_elem_of_filter in Hx as [[Hk _] Hx]. }
  destruct (read_events_verifiable part) as (es' & Hes' & Hall).
  { intros x [Hx _]%Hpart. by apply Hv. }
  rewrite Hes' in H. injection H as ->.
  apply list_elem_of_lookup in He as [i Hi].
  destruct (Forall2_lookup_l _ _ _ _ _ Hall Hi) as (row & Hrow & Hst).
  apply list_elem_of_lookup_2, Hpart in Hrow as [? ?]. by exists row.
Qed.

Lemma open_allows s :
  allows (federation cfg) o = true → SFleb (minimum_trust cfg) f32_zero = true →
  ∃ n, federation_allows cfg clock o s = (Ok true : result SyncError bool, Svc (store s) n).
Proof.
  intros Ha Hm. unfold federation_allows, same_cluster.
  cbv [mbind ste_bind tried atomically cluster_get gets mret ste_ret].
  rewrite Ha, Hm. destruct (own_cluster cfg); [|exists (ticks s); by destruct s].
  cbn. destruct (peer_cluster_claims _ !! o); cbn; [case_bool_decide|]; by eexists.
Qed.

Lemma sync_with_peer_run addr s hello id k s1 s2 :
  handshake clock addr r s = (Ok (hello, id, k), s1) →
  discover_peers cfg clock r s1 = (Ok (), s2) →
  sync_with_peer cfg clock addr r s =
    (summary ← pull_all cfg clock r id k (heads_map (store s2)) (he_heads hello) empty_summary;
     _ ← observe_sync_outcome cfg clock summary; mret summary) s2.
Proof.
  intros H1 H2. unfold sync_with_peer. cbv [mbind ste_bind]. rewrite H1, H2. by destruct s2.
Qed.
(** Writing the pad leaves the log alone. *)
Lemma observe_log summary s : ∃ s', observe_sync_outcome cfg clock summary s = (Ok (), s') ∧ log (store s') = log (store s).
Proof.
  unfold observe_sync_outcome. erewrite ste_bind_run by reflexivity. erewrite ste_bind_run by reflexivity.
  erewrite ste_bind_run by reflexivity. by eexists.
Qed.

(** *** The phases of the round *)

Context (Hdistinct : distinct dl dr) (Hroomy : roomy dl dr).
Context (Hcl : chained dl) (Hcr : chained dr) (Hvr : verifiable dr).

(** The handshake and the discovery leave the log alone. *)
Lemma round_begins addr s :
  binds (net (store s)) →
  ∃ s2, sync_with_peer cfg clock addr r s =
      (summary ← pull_all cfg clock r (self_peer_id rcfg) rkey (heads_map (store s2)) (server_heads dr) empty_summary;
       _ ← observe_sync_outcome cfg clock summary; mret summary) s2 ∧
    log (store s2) = log (store s) ∧ binds (net (store s2)) ∧ net_ok cfg (net (store s)) (net (store s2)).
Proof.
  intros Hb. destruct (handshake_ok addr s) as [s1 Hs1].
  destruct (discover_peers_ok r s1) as [s2 Hs2].
  pose proof (handshake_trace cfg clock (λ _ _, False) addr r s Hb) as Ht1.
  rewrite Hs1 in Ht1. cbn [snd] in Ht1.
  pose proof (net_binds _ _ _ (sync_steps_net _ _ _ _ _ Ht1) Hb) as Hb1.
  pose proof (discover_peers_trace cfg clock (λ _ _, False) r s1 Hb1) as Ht2.
  rewrite Hs2 in Ht2. cbn [snd] in Ht2.
  assert (rtc (sync_step cfg clock (λ _ _, False)) (store s) (store s2)) as Ht by (by etransitivity).
  pose proof (sync_steps_net _ _ _ _ _ Ht) as Hn.
  exists s2. split_and!; [|by eapply quiet_steps|by eapply net_binds|done].
  by erewrite sync_with_peer_run by done.
Qed.

(** The announcement of [o] stands once among the heads. *)
Lemma announced :
  small dr → chain_of o dr ≠ [] →
  ∃ h1 h2, server_heads dr = h1 ++ (to_hex o, Z.of_nat (length (chain_of o dr))) :: h2 ∧
    ∀ h, h ∈ h1 ∨ h ∈ h2 → h ∈ server_heads dr ∧ h.1 ≠ to_hex o.
Proof.
  intros Hs Hne. destruct (heads_map_lookup dr o Hcr Hs) as [Hn Hsome].
  destruct (Hsome Hne) as [n Hmap]. rewrite Hmap in Hn. cbn in Hn. subst n.
  apply elem_of_map_to_list, list_elem_of_split in Hmap as (h1 & h2 & Hsplit).
  exists h1, h2. change (server_heads dr) with (map_to_list (heads_map dr)). split; [done|].
  intros h Hin. split; [rewrite Hsplit; apply elem_of_app; rewrite elem_of_cons; tauto|].
  pose proof (NoDup_fst_map_to_list (heads_map dr)) as Hnd. rewrite Hsplit, fmap_app in Hnd.
  cbn in Hnd. apply NoDup_app in Hnd as (_ & Hnd1 & [Hnd2 _]%NoDup_cons).
  intros Heq. destruct Hin as [Hin|Hin];
    apply (list_elem_of_fmap_2 fst) in Hin; rewrite Heq in Hin; [|done].
  apply (Hnd1 _ Hin). by left.
Qed.

Lemma server_heads_entry h : h ∈ server_heads dr → ∃ o', h.1 = to_hex o'.
Proof.
  destruct h as [k n]. intros Hin. change (server_heads dr) with (map_to_list (heads_map dr)) in Hin.
  apply elem_of_map_to_list, heads_map_inv in Hin as (o' & row & -> & _). by exists o'.
Qed.

(** Entries of other origins leave the chain of [o] alone. *)
Lemma pull_others heads hs summary s :
  (∀ h, h ∈ hs → h ∈ server_heads dr ∧ h.1 ≠ to_hex o) →
  binds (net (store s)) → between dl dr (store s) →
  ∃ summary' s' fs,
    pull_all cfg clock r (self_peer_id rcfg) rkey heads hs summary s = (Ok summary', s') ∧
    sm_errors summary' = sm_errors summary ++ fs ∧ between dl dr (store s') ∧
    binds (net (store s')) ∧ net_ok cfg (net (store s)) (net (store s')) ∧
    chain_of o (store s') = chain_of o (store s).
Proof.
  intros Hhs Hb Hbt.
  destruct (pull_all_pulled r (self_peer_id rcfg) rkey heads hs summary s)
    as (sm & s' & Hrun & fs & Hfs).
  pose (served := λ (key : VerifyingKey) (e : SignedEvent), ∃ row,
    row ∈ events (log dr) ∧ stored_as e row ∧ er_origin_peer_id row ≠ o).
  assert (rtc (sync_step cfg clock served) (store s) (store s')) as Ht.
  { replace s' with (pull_all cfg clock r (self_peer_id rcfg) rkey heads hs summary s).2
      by (by rewrite Hrun).
    apply pull_all_trace; [apply Hhonest| |done]. intros h f t evs e key Hin Hf He _.
    destruct (Hhs h Hin) as [Hin' Hne]. destruct (server_heads_entry h Hin') as [o' Ho'].
    rewrite Ho' in *. apply (hr_answers Hhonest) in Hf.
    destruct (get_events_served o' f t evs e Hvr Hf He) as (row & ? & <- & ?).
    exists row. split_and!; [done..|]. intros Heq. by rewrite Heq in Hne. }
  destruct (honest_steps cfg clock dl dr Hdistinct Hroomy Hcr served o _ _
    (λ key e (H : served key e), H) Ht Hbt) as [Hbt' Hch].
  exists sm, s', fs. split_and!; try done; [|by eapply sync_steps_net].
  by eapply net_binds; [eapply sync_steps_net|].
Qed.

(** How far a pull of [o] takes a chain that has [k] of its events. *)
Definition advanced (k : nat) (errors : list SyncFailure) (m : nat) : Prop :=
  m = Nat.min (length (chain_of o dr)) (k + 1000) ∨
  (k ≤ m < Nat.min (length (chain_of o dr)) (k + 1000) ∧
   ∃ err, refused dl dr o m err ∧ IngestFailed (to_hex o) (Z.of_nat m + 1) err ∈ errors).

Lemma pull_target key heads k summary s :
  let n := Z.of_nat (length (chain_of o dr)) in
  allows (federation cfg) o = true → SFleb (minimum_trust cfg) f32_zero = true →
  authored dr o key →
  (if bool_decide (o = self_peer_id rcfg) then Some rkey
   else peers (net (store s)) !! o ≫= λ i, to_option (vk_from_bytes (pe_public_key i))) = Some key →
  default 0%Z (heads !! to_hex o) = Z.of_nat k → k < length (chain_of o dr) →
  between dl dr (store s) → chain_of o (store s) = take k (chain_of o dr) →
  ∃ summary' s' m,
    pull_origin cfg clock r (self_peer_id rcfg) rkey heads (to_hex o, n) summary s = (Ok summary', s') ∧
    between dl dr (store s') ∧ net_ok cfg (net (store s)) (net (store s')) ∧
    chain_of o (store s') = take m (chain_of o dr) ∧ advanced k (sm_errors summary') m.
Proof.
  intros n Ha Hm Hau Hkey Hlocal Hk Hb Hch.
  assert (length (chain_of o dr) = length (of_origin o dr)) as Hlen
    by (unfold chain_of; by rewrite length_fmap).
  assert (n + 1000 < 2 ^ 63)%Z as Hsmall.
  { unfold n. rewrite Hlen. assert (length (of_origin o dr) ≤ length (rows dl dr)).
    { unfold rows, of_origin. rewrite length_app.
      pose proof (length_filter (λ x, er_origin_peer_id x = o) (events (log dr))). lia. }
    unfold roomy in Hroomy. lia. }
  unfold pull_origin. cbn [fst snd]. rewrite decode_hex32_to_hex.
  destruct (open_allows s Ha Hm) as [t Hf]. erewrite ste_bind_run by exact Hf. cbn [negb].
  rewrite Hlocal. rewrite (proj2 (Z.leb_gt _ _)) by lia.
  erewrite ste_bind_run by apply key_of_ok. cbn [store]. rewrite Hkey.
  destruct (get_events_chain o (Z.of_nat k + 1) n dr) as (es & Hes & Hst); [done|done|lia|done|].
  rewrite (hr_delivers Hhonest _ _ _ Hes).
  replace (Z.to_nat (Z.of_nat k + 1 - 1)) with k in Hst by lia.
  set (count := Z.to_nat _) in Hst.
  assert (length es = Nat.min count (length (of_origin o dr) - k)) as Hles
    by (rewrite (Forall2_length _ _ _ Hst), length_take, length_drop; done).
  destruct (pull_segment cfg clock dl dr Hdistinct Hroomy Hcr o key (to_hex o) es _ k summary
    (Svc (store s) t) Hau Hst) as (sm & s' & m & Hrun & Hb' & Hn' & Hc' & Hm').
  { intros i row Hi. apply lookup_take_Some in Hi as [Hi _]. by rewrite lookup_drop in Hi. }
  { done. } { done. }
  exists sm, s', m. split_and!; [done..|]. unfold advanced, count in *.
  destruct Hm' as [[-> _]|[Hr (err & Herr & ->)]]; [left|right].
  - rewrite Hles. lia.
  - split; [lia|]. exists err. split; [done|]. apply elem_of_app. right. by apply list_elem_of_singleton.
Qed.
End whole_round.

(** ** Replication is one of the ways to reach a database *)

Section reachable.
Context `{P : Platform} `{L : !PlatformLaws P} `{C : Codec}.

(** What an event that arrives as JSON satisfies: its sequence number is a
    [u64], canonical JSON represents it, and its id is not taken. *)
Definition wellformed (final : db) (key : VerifyingKey) (e : SignedEvent) : Prop :=
  is_u64 (sequence (unsigned e)) ∧ faithful e ∧
  ∀ id o prev, check_envelope key e = Ok (id, o, prev) →
    collision_free final id o (sequence (unsigned e)).

Lemma trace_reachable cfg clock served d d' :
  rtc (sync_step cfg clock served) d d' →
  reachable d → small d' → (∀ key e, served key e → wellformed d' key e) → reachable d'.
Proof.
  induction 1 as [d|d d1 d2 H1 H2 IH]; [done|]. intros Hd Hs Hw.
  destruct (sync_steps_grew _ _ _ _ _ H2) as (rows2 & He2 & _).
  destruct (grew_step _ _ _ _ _ H1) as (rows1 & He1 & _).
  assert (∀ e, e ∈ events (log d) → e ∈ events (log d2)) as Hsub.
  { intros e He. rewrite He2, He1, !elem_of_app. tauto. }
  assert (small d) as Hsd.
  { unfold small in *. rewrite He2, He1, !length_app in Hs. lia. }
  apply IH; [|done|done]. eapply reachable_step; [exact Hd|exact Hsd|].
  destruct H1 as [n _|key e t ? Hserved _]; [apply step_peers|].
  destruct (Hw _ _ Hserved) as (Hu & Hf & Hc). apply step_ingest; [done|done|].
  intros id o prev Hck x Hx. by apply (Hc id o prev Hck x), Hsub.
Qed.
End reachable.

(** ** Properties *)

Section properties.
Context `{P : Platform} `{L : !PlatformLaws P} `{C : Codec} `{SC : StatementCodec} {LN : Logarithm}.

(** Whatever a peer answers a pull and whatever is pushed to it, a reachable
    database stays reachable, so its chains stay linked, its redactions
    permanent and rebuilding the identity - provided the events are well
    formed and no two share an id. *)
Theorem replication_keeps_reachable cfg clock addr r evs s :
  reachable (store s) → binds (net (store s)) →
  (let d' := store (sync_with_peer cfg clock addr r s).2 in
   small d' →
   (∀ o f t es e key, client_fetch_events r o f t = Ok es → e ∈ es → wellformed d' key e) →
   reachable d') ∧
  (let d' := store (post_events cfg clock evs s).2 in
   small d' → (∀ e key, e ∈ evs → wellformed d' key e) → reachable d').
Proof.
  intros Hr Hb. split; intros d' Hs Hw.
  - eapply (trace_reachable cfg clock (λ key e, wellformed d' key e)); [|done..].
    apply sync_trace; [|done]. intros o f t es e key Hf He. by eapply Hw.
  - eapply (trace_reachable cfg clock (λ key e, wellformed d' key e)); [|done..].
    apply post_events_trace; [|done]. intros e key He. by apply Hw.
Qed.

(** Every event of a reachable database can be served: its stored bytes parse,
    and verify under its author's key to the row's own id, origin,
    predecessor and sequence number. *)
Theorem stored_events_verifiable d e :
  reachable d → e ∈ events (log d) → ∃ signed, stored_as signed e.
Proof. intros Hd. by apply reachable_verifiable. Qed.

(** C30: One round of replication with an honest peer makes progress.  Take two
    reachable databases of peers that run this code, an origin [o] whose
    events the remote holds signed under a key the local peer knows (or the
    remote's own), admitted by an open policy, and let the local chain of [o]
    be a proper prefix of the remote's.  Then [sync_with_peer] succeeds, the
    local chain is again a prefix of the remote's, and it is longer by up to
    1000 events - all that are missing, or a full page - unless the projector
    refuses an event, which the summary then reports. *)
Theorem honest_round_catches_up cfg clock addr rcfg rkey r key o dr s :
  let dl := store s in
  reachable dl → reachable dr → distinct dl dr → roomy dl dr → binds (net dl) →
  honest_remote rcfg rkey dr r o → authored dr o key →
  allows (federation cfg) o = true → SFleb (minimum_trust cfg) f32_zero = true →
  (o = self_peer_id rcfg ∧ key = rkey ∨
   o ≠ self_peer_id rcfg ∧ ∃ row, peers (net dl) !! o = Some row ∧
     vk_from_bytes (pe_public_key row) = Ok key) →
  chain_of o dl = take (length (chain_of o dl)) (chain_of o dr) →
  length (chain_of o dl) < length (chain_of o dr) →
  ∃ summary s' m,
    sync_with_peer cfg clock addr r s = (Ok summary, s') ∧
    chain_of o (store s') = take m (chain_of o dr) ∧
    advanced dl dr o (length (chain_of o dl)) (sm_errors summary) m.
Proof.
  intros dl Hdl Hdr Hdist Hroom Hbind Hh Hau Hal Htr Hkey Hpre Hlt.
  pose proof (reachable_inv dl Hdl) as [Hcl _]. pose proof (reachable_inv dr Hdr) as [Hcr _].
  pose proof (reachable_verifiable dr Hdr) as Hvr.
  pose proof (between_dl dl dr Hcl) as Hbt.
  destruct (round_begins cfg clock rcfg rkey dr r o Hh addr s Hbind) as (s2 & Hrun & Hl2 & Hb2 & Hn2).
  assert (between dl dr (store s2)) as Hbt2 by (by eapply between_log).
  assert (chain_of o (store s2) = chain_of o dl) as Hc2 by (unfold chain_of, of_origin; by rewrite Hl2).
  assert (heads_map (store s2) = heads_map dl) as Hh2 by (unfold heads_map; by rewrite Hl2).
  destruct (announced dr o Hcr) as (h1 & h2 & Hsplit & Hothers).
  { unfold small, roomy, rows in *. rewrite length_app in Hroom. lia. }
  { intros He. rewrite He in Hlt. cbn in Hlt. lia. }
  pose proof (heads_map_lookup dl o Hcl (between_small dl dr Hroom dl Hbt)) as [Hloc _].
  destruct (pull_others cfg clock rcfg rkey dl dr r o Hh Hdist Hroom Hcr Hvr (heads_map dl) h1
    empty_summary s2) as (sm3 & s3 & fs3 & Hr3 & He3 & Hbt3 & Hb3 & Hn3 & Hc3);
    [intros; apply Hothers; auto|done|done|].
  destruct (pull_target cfg clock rcfg rkey dl dr r o Hh Hdist Hroom Hcr Hvr key (heads_map dl)
    (length (chain_of o dl)) sm3 s3) as (sm4 & s4 & m & Hr4 & Hbt4 & Hn4 & Hc4 & Hm);
    [done|done|done| |done|done|done|by rewrite Hc3, Hc2|].
  { destruct Hkey as [[Ho ->]|[Ho (row & Hrow & Hv)]];
      [by rewrite bool_decide_true|rewrite bool_decide_false by done].
    destruct (net_keys _ _ _ Hn2 _ _ Hrow) as (row2 & Hrow2 & Hk2).
    destruct (net_keys _ _ _ Hn3 _ _ Hrow2) as (row3 & Hrow3 & Hk3).
    rewrite Hrow3. cbn. by rewrite Hk3, Hk2, Hv. }
  destruct (pull_others cfg clock rcfg rkey dl dr r o Hh Hdist Hroom Hcr Hvr (heads_map dl) h2 sm4 s4)
    as (sm5 & s5 & fs5 & Hr5 & He5 & _ & _ & _ & Hc5);
    [intros; apply Hothers; auto|by eapply net_binds|done|].
  destruct (observe_log cfg clock sm5 s5) as (s6 & Hr6 & Hl6).
  assert (chain_of o (store s6) = chain_of o (store s5)) as Hc6 by (unfold chain_of, of_origin; by rewrite Hl6).
  exists sm5, s6, m. split_and!; [|by rewrite Hc6, Hc5|].
  - rewrite Hrun, Hh2, Hsplit. erewrite ste_bind_run; [by erewrite ste_bind_run by exact Hr6|].
    rewrite pull_all_app. erewrite ste_bind_run by exact Hr3. cbn [pull_all]. by erewrite ste_bind_run by exact Hr4.
  - destruct Hm as [Hm|[Hm (err & Herr & Hin)]]; [by left|right]. split; [done|].
    exists err. split; [done|]. rewrite He5. apply elem_of_app. by left.
Qed.
End properties.

(** ** Witnesses *)

Section witnesses.
Import SyncFacts.Demo.

Lemma empty_binds : binds (net empty_db).
Proof. intros o row H. cbn in H. by rewrite lookup_empty in H. Qed.

Definition distinctb (l : list event_row) : bool :=
  forallb (λ a, forallb (λ b, negb (bool_decide (er_event_id a = er_event_id b)) ||
                              bool_decide (place a = place b)) l) l.
Lemma distinctb_spec dl dr : distinctb (rows dl dr) = true → distinct dl dr.
Proof.
  unfold distinctb. rewrite forallb_forall. intros H a b Ha%list_elem_of_In Hb%list_elem_of_In Hid.
  specialize (H a Ha). rewrite forallb_forall in H. specialize (H b Hb).
  rewrite bool_decide_true in H by done. cbn in H. by apply bool_decide_eq_true in H.
Qed.

Definition authoredb (d : db) (o : hash32) (key : VerifyingKey) : bool :=
  forallb (λ e, match signed_from_slice (er_canonical_payload e) with
    | Ok signed =>
        match check_envelope key signed, canonical_signed signed with
        | Ok (id, o', prev), Ok canon =>
            bool_decide (id = er_event_id e) && bool_decide (o' = er_origin_peer_id e) &&
            bool_decide (prev = er_previous_event_id e) &&
            bool_decide (canon = er_canonical_payload e) &&
            Z.eqb (er_sequence e) (wrap_i64 (sequence (unsigned signed)))
        | _, _ => false
        end
    | Err _ => true
    end) (of_origin o d).
Lemma authoredb_spec d o (key : VerifyingKey) : authoredb d o key = true → authored d o key.
Proof.
  unfold authoredb. rewrite forallb_forall. intros H e signed He%list_elem_of_In Hs.
  specialize (H e He). rewrite Hs in H. unfold row_of.
  destruct (check_envelope key signed) as [[[id o'] prev]|]; [|done].
  destruct (canonical_signed signed) as [canon|]; [|done].
  repeat (apply andb_true_iff in H as [H ?]).
  repeat match goal with Hb : bool_decide _ = true |- _ => apply bool_decide_eq_true in Hb end.
  split_and!; [congruence|congruence|by apply Z.eqb_eq].
Qed.

Lemma alice_honest : honest_remote (peer_config alice) alice evidenced_db
  (peer_remote alice evidenced_db) (identity_peer_id alice).
Proof.
  split; [done|done|done| |].
  - intros k f t es H. by apply map_err_ok in H.
  - intros f t es H. cbn [client_fetch_events peer_remote]. by rewrite H.
Qed.
Lemma alice_distinct : distinct empty_db evidenced_db.
Proof. apply distinctb_spec. vm_compute. reflexivity. Qed.
Lemma alice_authored : authored evidenced_db (identity_peer_id alice) alice.
Proof. apply authoredb_spec. vm_compute. reflexivity. Qed.
Lemma alice_length : length (chain_of (identity_peer_id alice) evidenced_db) = 3.
Proof. vm_compute. reflexivity. Qed.
Lemma alice_roomy : roomy empty_db evidenced_db.
Proof. unfold roomy. vm_compute. reflexivity. Qed.

(** Bob, who has nothing, pulls alice's three events. *)
Lemma honest_round_catches_up_witness :
  ∃ summary s' m,
    sync_with_peer (peer_config bob) seconds "http://alice" (peer_remote alice evidenced_db)
      (Svc empty_db 0) = (Ok summary, s') ∧
    chain_of (identity_peer_id alice) (store s') =
      take m (chain_of (identity_peer_id alice) evidenced_db) ∧
    advanced empty_db evidenced_db (identity_peer_id alice) 0 (sm_errors summary) m.
Proof.
  refine (@honest_round_catches_up Toy.platform Toy.laws demo_codec step_ln (peer_config bob) seconds
    "http://alice" (peer_config alice) alice (peer_remote alice evidenced_db) alice
    (identity_peer_id alice) evidenced_db (Svc empty_db 0) reachable_empty evidenced_reachable
    alice_distinct alice_roomy empty_binds alice_honest alice_authored eq_refl eq_refl
    (or_introl (conj eq_refl eq_refl)) eq_refl _).
  rewrite alice_length. cbn. lia.
Defined.

Lemma stored_events_verifiable_witness :
  ∃ e signed, e ∈ events (log evidenced_db) ∧ stored_as signed e.
Proof.
  destruct (events (log evidenced_db)) as [|e l] eqn:He.
  - assert (length (events (log evidenced_db)) = 3) as H by (vm_compute; reflexivity).
    rewrite He in H. discriminate H.
  - destruct (@stored_events_verifiable Toy.platform Toy.laws demo_codec evidenced_db e
      evidenced_reachable) as [signed Hs]; [rewrite He; by left|].
    exists e, signed. split; [by left|exact Hs].
Defined.

Lemma replication_keeps_reachable_witness :
  reachable (store (post_events (peer_config bob) seconds [] (Svc evidenced_db 0)).2).
Proof.
  destruct (@replication_keeps_reachable Toy.platform Toy.laws demo_codec step_ln (peer_config bob) seconds
    "addr" (peer_remote alice evidenced_db) [] (Svc evidenced_db 0) evidenced_reachable) as [_ H].
  - intros o row Hr. assert (peers (net evidenced_db) = ∅) as He by (vm_compute; reflexivity).
    cbn [store] in Hr. rewrite He, lookup_empty in Hr. discriminate Hr.
  - apply H; [vm_compute; reflexivity|]. intros e key He. by apply not_elem_of_nil in He.
Defined.
End witnesses.
