(* ===== verification/Durability.v ===== *)
(** * How well replicated this peer's own data is

    [oag-sync]: [replication.rs].  How many peers should hold a copy, how
    many say they do, and which lag behind.  What a peer says about itself is
    kept by [Sync.record_known_heads]. *)

From S2P Require Import Prelude Core Envelope Store Service Sync FloatFacts Float64.

#[local] Open Scope Z_scope.

Definition MIN_REPLICATION_FACTOR : Z := 3.
Definition target_replication_factor (known_peer_count : Z) : Z :=
  Z.max (f64_as_usize (f64_ceil (f64_sqrt (f64_of_int known_peer_count)))) MIN_REPLICATION_FACTOR.

Record LaggingPeer := { lp_peer_id : string; lp_known_sequence : option Z }.
Record ReplicationStatus := {
  rs_known_peer_count : Z;
  rs_target_replication_factor : Z;
  rs_self_current_sequence : Z;
  rs_peers_fully_caught_up : Z;
  rs_meets_target : bool;
  rs_lagging_peers : list LaggingPeer }.

Section status.
Context `{P : Platform}.
Context (cfg : SyncConfig).

(** The rows collected into a [HashMap]: of two with one key the later stays. *)
Definition heads_by_peer (rows : list (hash32 * (Z * Z))) : gmap hash32 Z :=
  list_to_map (reverse ((λ h : hash32 * (Z * Z), (h.1, wrap_u64 h.2.1)) <$> rows)).

Fixpoint count_peers (known_heads : gmap hash32 Z) (current : Z) (known : list (hash32 * peer_row))
    (caught_up : Z) (lagging : list LaggingPeer) : Z * list LaggingPeer :=
  match known with
  | [] => (caught_up, lagging)
  | (peer, _) :: known =>
      let lags known_sequence :=
        count_peers known_heads current known caught_up
          (lagging ++ [{| lp_peer_id := PeerId_to_string peer; lp_known_sequence := known_sequence |}]) in
      match known_heads !! peer with
      | Some sequence =>
          if Z.leb current sequence then count_peers known_heads current known (caught_up + 1) lagging
          else lags (Some sequence)
      | None => lags None
      end
  end.

Definition replication_status : ste service SyncError ReplicationStatus :=
  origin ← conn (get_origin (self_peer_id cfg));
  let self_current_sequence :=
    from_option (λ row, wrap_u64 (or_highest_contiguous row)) 0 origin in
  known_peers ← conn list_peers;
  let known_peer_count := Z.of_nat (length known_peers) in
  let target := target_replication_factor known_peer_count in
  rows ← conn (list_known_heads_for_origin (self_peer_id cfg));
  let '(caught_up, lagging) :=
    count_peers (heads_by_peer rows) self_current_sequence known_peers 0 [] in
  mret {| rs_known_peer_count := known_peer_count;
          rs_target_replication_factor := target;
          rs_self_current_sequence := self_current_sequence;
          rs_peers_fully_caught_up := caught_up;
          rs_meets_target := Z.leb target caught_up;
          rs_lagging_peers := lagging |}.

(** ** The target *)

(** The least number that is three or more and whose square covers the count. *)
Lemma target_spec n : 0 ≤ n < 2 ^ 50 →
  let r := target_replication_factor n in
  3 ≤ r ∧ n ≤ r * r ∧ (3 < r → (r - 1) * (r - 1) < n).
Proof.
  intros Hn. unfold target_replication_factor, MIN_REPLICATION_FACTOR.
  set (k := Z.sqrt_up n). assert (0 ≤ k) by apply Z.sqrt_up_nonneg.
  assert (n ≤ k * k ∧ (0 < k → (k - 1) * (k - 1) < n)) as [Hhi Hlo].
  { destruct (Z.eq_dec n 0) as [-> |]; [done|].
    pose proof (Z.sqrt_up_spec n ltac:(lia)) as [Hl Hh]. fold k in Hl, Hh.
    rewrite <-Z.sub_1_r in Hl. split; [done|]. by intros _. }
  rewrite (f64_ceil_sqrt n k) by done. nia.
Qed.

(** ** The counts *)

Definition reported (d : db) (peer : hash32) : option Z :=
  (λ h : Z * Z, wrap_u64 h.1) <$> peer_known_heads (net d) !! (peer, self_peer_id cfg).
Definition current (d : db) : Z :=
  from_option (λ row, wrap_u64 (or_highest_contiguous row)) 0 (event_origins (log d) !! self_peer_id cfg).
Definition caught_up (d : db) (p : hash32 * peer_row) : bool :=
  match reported d p.1 with Some sequence => Z.leb (current d) sequence | None => false end.

Definition known_rows (d : db) : list (hash32 * (Z * Z)) :=
  (λ kv : hash32 * hash32 * (Z * Z), (kv.1.1, kv.2)) <$>
    filter (λ kv : hash32 * hash32 * (Z * Z), kv.1.2 = self_peer_id cfg) (map_to_list (peer_known_heads (net d))).
Lemma known_rows_spec d peer h : (peer, h) ∈ known_rows d ↔ peer_known_heads (net d) !! (peer, self_peer_id cfg) = Some h.
Proof.
  unfold known_rows. rewrite list_elem_of_fmap. split.
  - intros ([[a b] c] & [= -> ->] & [Hb Hin]%list_elem_of_filter). cbn in Hb. subst b.
    by apply elem_of_map_to_list in Hin.
  - intros Hl. exists ((peer, self_peer_id cfg), h). split; [done|]. apply list_elem_of_filter.
    split; [done|]. by apply elem_of_map_to_list.
Qed.
(** The primary key leaves one row per peer. *)
Lemma known_rows_nodup d : NoDup (known_rows d).*1.
Proof.
  unfold known_rows. rewrite <-list_fmap_compose. apply NoDup_fmap_2_strong.
  - intros [[a b] c] [[a' b'] c'] [Hb Hin]%list_elem_of_filter [Hb' Hin']%list_elem_of_filter Heq.
    cbn in Hb, Hb', Heq. subst. apply elem_of_map_to_list in Hin, Hin'. by simplify_eq.
  - apply NoDup_filter, NoDup_map_to_list.
Qed.
Lemma heads_by_peer_spec d peer : heads_by_peer (known_rows d) !! peer = reported d peer.
Proof.
  unfold heads_by_peer, reported. set (f := λ h : hash32 * (Z * Z), (h.1, wrap_u64 h.2.1)).
  assert (NoDup (reverse (f <$> known_rows d)).*1) as Hn.
  { rewrite fmap_reverse, <-list_fmap_compose. rewrite reverse_Permutation; apply known_rows_nodup. }
  apply option_eq. intros s. rewrite <-elem_of_list_to_map by done.
  rewrite elem_of_reverse, list_elem_of_fmap. split.
  - intros ([p h] & [= -> ->] & Hin%known_rows_spec). by rewrite Hin.
  - intros (h & Hin & ->)%fmap_Some. exists (peer, h). split; [done|]. by apply known_rows_spec.
Qed.

Lemma count_peers_spec d known : ∀ n lagging,
  count_peers (heads_by_peer (known_rows d)) (current d) known n lagging =
  (n + Z.of_nat (length (filter (λ p, caught_up d p = true) known)),
   lagging ++ ((λ p : hash32 * peer_row,
     {| lp_peer_id := PeerId_to_string p.1; lp_known_sequence := reported d p.1 |})
     <$> filter (λ p, caught_up d p = false) known)).
Proof.
  induction known as [|[peer row] known IH]; intros n lagging; cbn [count_peers].
  { cbn. f_equal; [lia|by rewrite app_nil_r]. }
  rewrite heads_by_peer_spec, !filter_cons.
  assert (caught_up d (peer, row) = match reported d peer with Some s => Z.leb (current d) s | None => false end) as ->
    by done.
  destruct (reported d peer) as [s|] eqn:Hr; [destruct (Z.leb (current d) s) eqn:Hle|];
    repeat case_decide; try done; rewrite IH.
  - by rewrite length_cons, Nat2Z.inj_succ, <-Z.add_assoc, Z.add_1_l.
  - by rewrite fmap_cons, <-app_assoc; cbn [fst app]; rewrite Hr.
  - by rewrite fmap_cons, <-app_assoc; cbn [fst app]; rewrite Hr.
Qed.

(** The status is computed from the tables alone, and changes nothing. *)
Lemma replication_status_eq s :
  let d := store s in
  let known := merge_sort by_first_seen (map_to_list (peers (net d))) in
  let caught := filter (λ p, caught_up d p = true) known in
  let target := target_replication_factor (Z.of_nat (length known)) in
  replication_status s =
  (Ok {| rs_known_peer_count := Z.of_nat (length known);
         rs_target_replication_factor := target;
         rs_self_current_sequence := current d;
         rs_peers_fully_caught_up := Z.of_nat (length caught);
         rs_meets_target := Z.leb target (Z.of_nat (length caught));
         rs_lagging_peers := (λ p : hash32 * peer_row,
           {| lp_peer_id := PeerId_to_string p.1; lp_known_sequence := reported d p.1 |})
           <$> filter (λ p, caught_up d p = false) known |}, s).
Proof.
  destruct s as [d t]. cbv zeta. unfold replication_status, conn.
  erewrite ste_bind_run by reflexivity. erewrite ste_bind_run by reflexivity.
  erewrite ste_bind_run by reflexivity. cbn [store ticks].
  change (from_option _ 0 (event_origins (log d) !! self_peer_id cfg)) with (current d).
  change ((λ kv : hash32 * hash32 * (Z * Z), (kv.1.1, kv.2)) <$> _) with (known_rows d).
  by rewrite count_peers_spec.
Qed.

(** ** The lists of peers *)

Definition known_list (d : db) : list (hash32 * peer_row) :=
  merge_sort by_first_seen (map_to_list (peers (net d))).
Lemma known_list_perm d : known_list d ≡ₚ map_to_list (peers (net d)).
Proof. apply merge_sort_Permutation. Qed.
Lemma known_list_spec d peer row : (peer, row) ∈ known_list d ↔ peers (net d) !! peer = Some row.
Proof. by rewrite known_list_perm, elem_of_map_to_list. Qed.
Lemma known_list_length d : length (known_list d) = size (peers (net d)).
Proof. by rewrite known_list_perm, length_map_to_list. Qed.

Lemma caught_up_spec d p : caught_up d p = true ↔ ∃ seq, reported d p.1 = Some seq ∧ current d ≤ seq.
Proof.
  unfold caught_up. destruct (reported d p.1) as [s|]; [rewrite Z.leb_le|]; naive_solver.
Qed.
Lemma lags_spec d p : caught_up d p = false ↔ from_option (λ seq, seq < current d) True (reported d p.1).
Proof. unfold caught_up. destruct (reported d p.1) as [s|]; cbn; [apply Z.leb_gt|done]. Qed.
Lemma split_length d l :
  (length (filter (λ p, caught_up d p = true) l) + length (filter (λ p, caught_up d p = false) l))%nat = length l.
Proof.
  induction l as [|p l IH]; [done|]. rewrite !filter_cons.
  destruct (caught_up d p); repeat case_decide; try done; cbn; lia.
Qed.

(** The caught-up peers are as many as a set of them can hold. *)
Lemma copies_spec d r :
  r ≤ Z.of_nat (length (filter (λ p, caught_up d p = true) (known_list d))) ↔
  ∃ copies : gset hash32, r ≤ Z.of_nat (size copies) ∧
    ∀ peer, peer ∈ copies → is_Some (peers (net d) !! peer) ∧ ∃ seq, reported d peer = Some seq ∧ current d ≤ seq.
Proof.
  set (caught := filter _ _).
  assert (∀ peer, peer ∈ caught.*1 ↔
    is_Some (peers (net d) !! peer) ∧ ∃ seq, reported d peer = Some seq ∧ current d ≤ seq) as Hc.
  { intros peer. rewrite list_elem_of_fmap. split.
    - intros ([p row] & -> & [Hcu Hin]%list_elem_of_filter). apply known_list_spec in Hin.
      split; [by exists row|]. by apply (caught_up_spec d (p, row)).
    - intros [[row Hrow] Hcu]. exists (peer, row). split; [done|]. apply list_elem_of_filter.
      split; [by apply caught_up_spec|]. by apply known_list_spec. }
  assert (NoDup caught.*1) as Hn.
  { apply NoDup_fmap_2_strong; [|apply NoDup_filter; rewrite known_list_perm; apply NoDup_map_to_list].
    intros [p1 r1] [p2 r2] [_ H1%known_list_spec]%list_elem_of_filter [_ H2%known_list_spec]%list_elem_of_filter Heq.
    cbn in Heq. by simplify_eq. }
  assert (size (list_to_set caught.*1 : gset hash32) = length caught) as Hsz.
  { by rewrite size_list_to_set, length_fmap. }
  split.
  - intros Hr. exists (list_to_set caught.*1). rewrite Hsz. split; [done|].
    intros peer Hp%elem_of_list_to_set. by apply Hc.
  - intros (copies & Hr & Hall). etransitivity; [exact Hr|]. rewrite <-Hsz. apply Nat2Z.inj_le, subseteq_size.
    intros peer Hp. apply elem_of_list_to_set. by apply Hc, Hall.
Qed.
End status.

(** ** Properties *)

Section properties.
Context `{P : Platform}.

(** The durability alarm is sound.  With [n] peers known, the status is
    always produced, changes nothing, and asks for [r] copies, where [r] is
    the least number of at least three with [n <= r * r] - the
    floating-point square root is exact enough for every count below
    [2 ^ 50].  Every known peer is counted as caught up exactly if the head
    it last reported for this peer's log reaches the present one, and is
    listed, with what it reported, if not; and the target is met exactly if
    [r] different known peers are caught up. *)
Theorem replication_status_sound cfg s :
  let d := store s in
  let n := Z.of_nat (size (peers (net d))) in
  n < 2 ^ 50 →
  ∃ st, replication_status cfg s = (Ok st, s) ∧
    rs_known_peer_count st = n ∧
    rs_peers_fully_caught_up st + Z.of_nat (length (rs_lagging_peers st)) = n ∧
    (let r := rs_target_replication_factor st in
     3 ≤ r ∧ n ≤ r * r ∧ (3 < r → (r - 1) * (r - 1) < n)) ∧
    (∀ l, l ∈ rs_lagging_peers st ↔ ∃ peer row, peers (net d) !! peer = Some row ∧
       l = {| lp_peer_id := PeerId_to_string peer; lp_known_sequence := reported cfg d peer |} ∧
       from_option (λ seq, seq < current cfg d) True (reported cfg d peer)) ∧
    (rs_meets_target st = true ↔ ∃ copies : gset hash32,
       rs_target_replication_factor st ≤ Z.of_nat (size copies) ∧
       ∀ peer, peer ∈ copies → is_Some (peers (net d) !! peer) ∧
         ∃ seq, reported cfg d peer = Some seq ∧ current cfg d ≤ seq).
Proof.
  intros d n Hn. eexists. split; [apply replication_status_eq|]. fold d. fold (known_list d).
  cbn [rs_known_peer_count rs_peers_fully_caught_up rs_lagging_peers rs_target_replication_factor rs_meets_target].
  assert (Z.of_nat (length (known_list d)) = n) as Hlen by (unfold n; by rewrite known_list_length).
  rewrite Hlen. split; [done|]. split; [|split; [apply target_spec; lia|split]].
  - rewrite length_fmap. pose proof (split_length cfg d (known_list d)). lia.
  - intros l. rewrite list_elem_of_fmap. split.
    + intros ([peer row] & -> & [Hlag Hin%known_list_spec]%list_elem_of_filter).
      exists peer, row. split_and!; [done..|]. by apply (lags_spec cfg d (peer, row)).
    + intros (peer & row & Hrow & -> & Hlag). exists (peer, row). split; [done|]. apply list_elem_of_filter.
      split; [by apply lags_spec|by apply known_list_spec].
  - rewrite Z.leb_le. apply copies_spec.
Qed.
End properties.

Lemma replication_status_sound_witness :
  ∃ st, @replication_status Toy.platform
      {| self_peer_id := Toy.hash "a"; self_public_key := Toy.hash "k"; federation := Trust.Open;
         minimum_trust := Float32.f32_zero; trust_config := Trust.TrustConfig_default; own_cluster := None |}
      (Svc empty_db 0) = (Ok st, Svc empty_db 0) ∧ 3 ≤ rs_target_replication_factor st.
Proof.
  match goal with |- ∃ st, @replication_status _ ?cfg _ = _ ∧ _ =>
    destruct (@replication_status_sound Toy.platform cfg (Svc empty_db 0)) as (st & Hrun & _ & _ & (Hr & _) & _);
      [by vm_compute|by exists st]
  end.
Defined.
