(* ===== verification/Gossip.v ===== *)
(** * Gossip

    [oag-sync]: [gossip.rs], and [cluster_peer_addrs] of [service.rs].  Two
    loops that pull from peers again and again: the standard one from every
    address known, the other one from the members of this peer's cluster.  A
    tick of a loop is a function of what the addresses lead to at that time;
    the loops themselves sleep and start over. *)

From S2P Require Import Prelude Core Envelope Store EventLog Scenario Chain Rebuild Service Presence Float32 Trust Sync SyncFacts Catchup.

(** [Vec::dedup]: of equal neighbours the first stays. *)
Fixpoint dedup (l : list string) : list string :=
  match l with
  | a :: rest =>
      match rest with
      | b :: _ => if bool_decide (a = b) then dedup rest else a :: dedup rest
      | [] => [a]
      end
  | [] => []
  end.
(** [addrs.sort(); addrs.dedup()]: strings are ordered by their bytes. *)
Definition sort_dedup (addrs : list string) : list string := dedup (merge_sort String.le addrs).

Section gossip.
Context `{P : Platform} `{C : Codec} `{SC : StatementCodec}.
Context {LN : Logarithm} (cfg : SyncConfig) (clock : nat → Z).

(** ** [sync_round] *)

(** The service, and its counter of failed rounds ([AtomicU64]). *)
Definition gossip : Type := service * Z.
Definition record_sync_error (n : Z) : Z := wrap_u64 (n + 1).

(** [connect addr] is what answers at [addr]; nothing is assumed about it. *)
Definition sync_one (connect : string → remote) (g : gossip) (addr : string) : gossip :=
  let '(r, s) := sync_with_peer cfg clock addr (connect addr) g.1 in
  (s, match r with Ok _ => g.2 | Err _ => record_sync_error g.2 end).
Definition sync_round (connect : string → remote) (addrs : list string) (g : gossip) : gossip :=
  foldl (sync_one connect) g addrs.

(** ** [spawn_gossip_loop] *)

Fixpoint known_addresses {E} (known : list (hash32 * peer_row)) : ste service E (list string) :=
  match known with
  | [] => mret []
  | (peer, _) :: known =>
      mine ← tried (list_addresses peer);
      rest ← known_addresses known;
      mret (from_option id [] mine ++ rest)
  end.
Definition gossip_addrs {E} (bootstrap_addrs : list string) : ste service E (list string) :=
  known ← tried list_peers;
  addrs ← known_addresses (from_option id [] known);
  mret (sort_dedup (bootstrap_addrs ++ addrs)).
Definition gossip_tick (bootstrap_addrs : list string) (connect : string → remote) (g : gossip) : gossip :=
  match gossip_addrs (E:=SyncError) bootstrap_addrs g.1 with
  | (Ok addrs, s) => sync_round connect addrs (s, g.2)
  | (Err _, s) => (s, g.2)
  end.

(** ** [spawn_cluster_gossip_loop] *)

Fixpoint cluster_addresses {E} (known : list (hash32 * peer_row)) : ste service E (list string) :=
  match known with
  | [] => mret []
  | (peer, _) :: known =>
      same ← same_cluster cfg peer;
      mine ← (if same : bool then tried (list_addresses peer) else mret None);
      rest ← cluster_addresses known;
      mret (from_option id [] mine ++ rest)
  end.
Definition cluster_peer_addrs {E} : ste service E (list string) :=
  match own_cluster cfg with
  | None => mret []
  | Some _ =>
      known ← tried list_peers;
      match known with
      | Some known => addrs ← cluster_addresses known; mret (sort_dedup addrs)
      | None => mret []
      end
  end.
Definition cluster_gossip_tick (connect : string → remote) (g : gossip) : gossip :=
  match cluster_peer_addrs (E:=SyncError) g.1 with
  | (Ok addrs, s) => sync_round connect addrs (s, g.2)
  | (Err _, s) => (s, g.2)
  end.

(** A tick of either loop. *)
Inductive tick := Standard (connect : string → remote) | Clustered (connect : string → remote).
Definition tick_remotes (t : tick) : string → remote := match t with Standard c | Clustered c => c end.
Definition run_tick (bootstrap_addrs : list string) (g : gossip) (t : tick) : gossip :=
  match t with
  | Standard connect => gossip_tick bootstrap_addrs connect g
  | Clustered connect => cluster_gossip_tick connect g
  end.

(** ** Sorting and removing repetitions *)

Lemma elem_of_dedup a l : a ∈ dedup l ↔ a ∈ l.
Proof.
  induction l as [|x [|y l] IH]; [done|done|]. cbn [dedup] in *.
  case_bool_decide as Hxy; [subst y|]; clear -IH; set_solver.
Qed.
Lemma dedup_nodup l : StronglySorted String.le l → NoDup (dedup l).
Proof.
  induction l as [|x [|y l] IH]; intros Hs; [constructor|apply NoDup_singleton|]. cbn [dedup] in *.
  apply StronglySorted_inv in Hs as [Hs Hx]. specialize (IH Hs).
  case_bool_decide as Hxy; [done|]. apply NoDup_cons. split; [|done].
  rewrite (elem_of_dedup x (y :: l)). intros Hin. apply Hxy.
  apply Forall_cons in Hx as [Hxy' _]. apply (anti_symm String.le); [done|].
  apply elem_of_cons in Hin as [-> |Hin]; [done|].
  apply StronglySorted_inv in Hs as [_ Hy]. by eapply Forall_forall in Hy.
Qed.
Lemma sort_dedup_spec l : NoDup (sort_dedup l) ∧ ∀ a, a ∈ sort_dedup l ↔ a ∈ l.
Proof.
  split; [apply dedup_nodup, StronglySorted_merge_sort; apply _|].
  intros a. unfold sort_dedup. by rewrite elem_of_dedup, merge_sort_Permutation.
Qed.

(** ** Which addresses a tick tries *)

Lemma tried_gets {E A} (f : db → A) (s : service) : tried (E:=E) (gets f) s = (Ok (Some (f (store s))), s).
Proof. by destruct s. Qed.
Lemma same_cluster_run {E} peer (s : service) : same_cluster (E:=E) cfg peer s =
  (Ok (match own_cluster cfg, peer_cluster_claims (net (store s)) !! peer with
       | Some mine, Some claim => bool_decide (cl_cluster claim = mine)
       | _, _ => false
       end), s).
Proof.
  unfold same_cluster. destruct (own_cluster cfg) as [mine|]; [|done]. unfold cluster_get.
  erewrite ste_bind_run by apply tried_gets. cbv beta. by destruct (peer_cluster_claims (net (store s)) !! peer).
Qed.

Definition addresses_of (d : db) (peer : hash32) : list string :=
  (elements (filter (λ a : hash32 * string, a.1 = peer) (peer_addresses (net d)))).*2.
Lemma addresses_of_spec d peer a : a ∈ addresses_of d peer ↔ (peer, a) ∈ peer_addresses (net d).
Proof.
  unfold addresses_of. rewrite list_elem_of_fmap. split.
  - intros ([p a'] & -> & [Hp Hin]%elem_of_elements%elem_of_filter). cbn in Hp. by subst p.
  - intros Hin. exists (peer, a). split; [done|]. by apply elem_of_elements, elem_of_filter.
Qed.
Lemma known_addresses_run {E} known s :
  known_addresses (E:=E) known s = (Ok (known ≫= λ p, addresses_of (store s) p.1), s).
Proof.
  induction known as [|[peer row] known IH]; [done|]. cbn [known_addresses].
  unfold list_addresses. erewrite ste_bind_run by apply tried_gets. by erewrite ste_bind_run by exact IH.
Qed.
Definition fellow (d : db) (peer : hash32) : bool :=
  match own_cluster cfg, peer_cluster_claims (net d) !! peer with
  | Some mine, Some claim => bool_decide (cl_cluster claim = mine)
  | _, _ => false
  end.
Lemma cluster_addresses_run {E} known s :
  cluster_addresses (E:=E) known s =
  (Ok (known ≫= λ p, if fellow (store s) p.1 then addresses_of (store s) p.1 else []), s).
Proof.
  induction known as [|[peer row] known IH]; [done|]. cbn [cluster_addresses].
  erewrite ste_bind_run by apply same_cluster_run. fold (fellow (store s) peer).
  unfold list_addresses. destruct (fellow (store s) peer) eqn:Hf.
  - erewrite ste_bind_run by apply tried_gets. erewrite ste_bind_run by exact IH. cbn. by rewrite Hf.
  - erewrite ste_bind_run by reflexivity. erewrite ste_bind_run by exact IH. cbn. by rewrite Hf.
Qed.

(** The addresses that are due: the standard loop's, and the cluster loop's. *)
Definition due (bootstrap_addrs : list string) (d : db) (t : tick) (a : string) : Prop :=
  match t with
  | Standard _ => a ∈ bootstrap_addrs ∨
      ∃ peer, is_Some (peers (net d) !! peer) ∧ (peer, a) ∈ peer_addresses (net d)
  | Clustered _ => ∃ peer mine claim, is_Some (peers (net d) !! peer) ∧ (peer, a) ∈ peer_addresses (net d) ∧
      own_cluster cfg = Some mine ∧ peer_cluster_claims (net d) !! peer = Some claim ∧ cl_cluster claim = mine
  end.
Lemma known_peers_spec d peer :
  (∃ row, (peer, row) ∈ merge_sort by_first_seen (map_to_list (peers (net d)))) ↔ is_Some (peers (net d) !! peer).
Proof. by setoid_rewrite merge_sort_Permutation; setoid_rewrite elem_of_map_to_list. Qed.
Lemma fellow_spec d peer : fellow d peer = true ↔ ∃ mine claim,
  own_cluster cfg = Some mine ∧ peer_cluster_claims (net d) !! peer = Some claim ∧ cl_cluster claim = mine.
Proof.
  unfold fellow. destruct (own_cluster cfg) as [mine|]; [|naive_solver].
  destruct (peer_cluster_claims (net d) !! peer) as [claim|]; [rewrite bool_decide_eq_true|]; naive_solver.
Qed.

Lemma gossip_addrs_run {E} bootstrap_addrs c s : ∃ addrs, gossip_addrs (E:=E) bootstrap_addrs s = (Ok addrs, s) ∧
  NoDup addrs ∧ ∀ a, a ∈ addrs ↔ due bootstrap_addrs (store s) (Standard c) a.
Proof.
  eexists. split.
  { unfold gossip_addrs, list_peers. erewrite ste_bind_run by apply tried_gets.
    by erewrite ste_bind_run by apply known_addresses_run. }
  destruct (sort_dedup_spec (bootstrap_addrs ++ (merge_sort by_first_seen (map_to_list (peers (net (store s)))) ≫=
    λ p : hash32 * peer_row, addresses_of (store s) p.1))) as [Hn He].
  split; [exact Hn|]. intros a. etransitivity; [apply He|]. rewrite elem_of_app. cbn [due].
  apply or_iff_compat_l. rewrite list_elem_of_bind. setoid_rewrite addresses_of_spec.
  setoid_rewrite <-known_peers_spec. split.
  - intros ([peer row] & Ha & Hp). eauto.
  - intros (peer & [row Hp] & Ha). by exists (peer, row).
Qed.
Lemma cluster_peer_addrs_run {E} bootstrap_addrs c s : ∃ addrs, cluster_peer_addrs (E:=E) s = (Ok addrs, s) ∧
  NoDup addrs ∧ ∀ a, a ∈ addrs ↔ due bootstrap_addrs (store s) (Clustered c) a.
Proof.
  unfold cluster_peer_addrs. destruct (own_cluster cfg) as [mine|] eqn:Hown.
  2: { exists []. split; [done|]. split; [constructor|]. intros a. cbn [due]. rewrite Hown.
       split; [by intros ?%not_elem_of_nil|naive_solver]. }
  eexists. split.
  { unfold list_peers. erewrite ste_bind_run by apply tried_gets. cbn [from_option].
    by erewrite ste_bind_run by apply cluster_addresses_run. }
  destruct (sort_dedup_spec (merge_sort by_first_seen (map_to_list (peers (net (store s)))) ≫=
    λ p : hash32 * peer_row, if fellow (store s) p.1 then addresses_of (store s) p.1 else [])) as [Hn He].
  split; [exact Hn|]. intros a. etransitivity; [apply He|]. cbn [due].
  rewrite list_elem_of_bind. setoid_rewrite <-known_peers_spec. split.
  - intros ([peer row] & Ha & Hp). cbn [fst] in Ha.
    destruct (fellow (store s) peer) eqn:Hf; [|by apply not_elem_of_nil in Ha].
    apply fellow_spec in Hf as (mine' & claim & ?). apply addresses_of_spec in Ha. exists peer, mine', claim. eauto.
  - intros (peer & mine' & claim & [row Hp] & Ha & Hf). exists (peer, row). split; [|done]. cbn [fst].
    rewrite (proj2 (fellow_spec (store s) peer)) by eauto. by apply addresses_of_spec.
Qed.

(** ** What a round does *)

(** The addresses one after the other, whatever came of those before. *)
Inductive attempts (connect : string → remote) :
    list string → service → list (result SyncError SyncSummary) → service → Prop :=
  | attempts_done s : attempts connect [] s [] s
  | attempts_next addr addrs s r s1 rs s2 :
      sync_with_peer cfg clock addr (connect addr) s = (r, s1) →
      attempts connect addrs s1 rs s2 → attempts connect (addr :: addrs) s (r :: rs) s2.
Definition failed (r : result SyncError SyncSummary) : bool := match r with Ok _ => false | Err _ => true end.
Definition failures (rs : list (result SyncError SyncSummary)) : nat := length (List.filter failed rs).

Lemma wrap_u64_add a b : wrap_u64 (wrap_u64 a + b) = wrap_u64 (a + b).
Proof. unfold wrap_u64. by rewrite Zplus_mod_idemp_l. Qed.
Lemma sync_round_attempts connect addrs : ∀ s n, ∃ rs s',
  attempts connect addrs s rs s' ∧ sync_round connect addrs (s, wrap_u64 n) = (s', wrap_u64 (n + Z.of_nat (failures rs))).
Proof.
  induction addrs as [|addr addrs IH]; intros s n.
  { exists [], s. split; [constructor|]. cbn. by rewrite Z.add_0_r. }
  unfold sync_round. cbn [foldl]. unfold sync_one at 2. cbn [fst snd].
  destruct (sync_with_peer cfg clock addr (connect addr) s) as [r s1] eqn:Hr.
  destruct r as [x|e].
  - destruct (IH s1 n) as (rs & s' & Hat & Hrun). exists (Ok x :: rs), s'. by split; [econstructor|].
  - unfold record_sync_error. rewrite wrap_u64_add. destruct (IH s1 (n + 1)%Z) as (rs & s' & Hat & Hrun).
    exists (Err e :: rs), s'. split; [by econstructor|]. etransitivity; [exact Hrun|].
    f_equal. f_equal. unfold failures. cbn [List.filter failed length]. lia.
Qed.
Lemma run_tick_attempts bootstrap_addrs t s n : ∃ addrs rs s',
  NoDup addrs ∧ (∀ a, a ∈ addrs ↔ due bootstrap_addrs (store s) t a) ∧
  attempts (tick_remotes t) addrs s rs s' ∧
  run_tick bootstrap_addrs (s, wrap_u64 n) t = (s', wrap_u64 (n + Z.of_nat (failures rs))).
Proof.
  destruct t as [c|c]; cbn [run_tick tick_remotes]; unfold gossip_tick, cluster_gossip_tick; cbn [fst snd].
  - destruct (gossip_addrs_run (E:=SyncError) bootstrap_addrs c s) as (addrs & -> & Hn & Ha).
    destruct (sync_round_attempts c addrs s n) as (rs & s' & Hat & Hrun). by exists addrs, rs, s'.
  - destruct (cluster_peer_addrs_run (E:=SyncError) bootstrap_addrs c s) as (addrs & -> & Hn & Ha).
    destruct (sync_round_attempts c addrs s n) as (rs & s' & Hat & Hrun). by exists addrs, rs, s'.
Qed.
End gossip.

(** ** Properties *)

Section properties.
Context `{P : Platform} `{L : !PlatformLaws P} `{C : Codec} `{SC : StatementCodec}.
Context {LN : Logarithm} (cfg : SyncConfig) (clock : nat → Z).

Lemma attempts_trace (served : VerifyingKey → SignedEvent → Prop) connect addrs s rs s' :
  (∀ addr o f n es e key, client_fetch_events (connect addr) o f n = Ok es → e ∈ es → served key e) →
  attempts cfg clock connect addrs s rs s' → traced cfg clock served s s'.
Proof.
  intros Hs. induction 1 as [s|addr addrs s r s1 rs s2 Hr Hat IH]; [reflexivity|].
  etransitivity; [|exact IH]. pose proof (sync_trace cfg clock served addr (connect addr) (Hs addr) s) as Ht.
  by rewrite Hr in Ht.
Qed.
Lemma run_ticks_trace (served : VerifyingKey → SignedEvent → Prop) bootstrap_addrs ticks :
  (∀ t addr o f n es e key, t ∈ ticks → client_fetch_events (tick_remotes t addr) o f n = Ok es → e ∈ es → served key e) →
  ∀ s n, traced cfg clock served s (foldl (run_tick cfg clock bootstrap_addrs) (s, wrap_u64 n) ticks).1.
Proof.
  induction ticks as [|t ticks IH]; intros Hs s n; [cbn; reflexivity|]. cbn [foldl].
  destruct (run_tick_attempts cfg clock bootstrap_addrs t s n) as (addrs & rs & s1 & _ & _ & Hat & ->).
  etransitivity; [|apply IH; intros; eapply Hs; [by right|done..]].
  eapply attempts_trace; [|exact Hat]. intros. eapply Hs; [by left|done..].
Qed.

(** Gossip never stops and never harms.  A tick of either loop tries
    every address that is due exactly once and in turn, whatever the others
    answered: the bootstrap addresses and those of all peers known, or in
    the cluster loop those of the peers whose latest claim is this peer's
    own cluster.  The error counter grows by the rounds that failed.  And
    after any sequence of ticks against any remotes the database is still a
    reachable one, provided the events served are well formed and no two
    share an id. *)
Theorem gossip_safe bootstrap_addrs ticks s n :
  (∀ t, ∃ addrs rs s',
    NoDup addrs ∧ (∀ a, a ∈ addrs ↔ due cfg bootstrap_addrs (store s) t a) ∧
    attempts cfg clock (tick_remotes t) addrs s rs s' ∧
    run_tick cfg clock bootstrap_addrs (s, wrap_u64 n) t = (s', wrap_u64 (n + Z.of_nat (failures rs)))) ∧
  (let d' := store (foldl (run_tick cfg clock bootstrap_addrs) (s, wrap_u64 n) ticks).1 in
   reachable (store s) → binds (net (store s)) → small d' →
   (∀ t addr o f k es e key, t ∈ ticks → client_fetch_events (tick_remotes t addr) o f k = Ok es → e ∈ es →
      wellformed d' key e) →
   reachable d' ∧ binds (net d') ∧ ops d' = ops (store s)).
Proof.
  split; [intros t; apply run_tick_attempts|]. intros d' Hr Hb Hsm Hw.
  assert (rtc (sync_step cfg clock (λ key e, wellformed d' key e)) (store s) d') as Hst.
  { eapply run_ticks_trace; [|done]. intros. by eapply Hw. }
  split_and!.
  - by eapply (trace_reachable cfg clock (λ key e, wellformed d' key e)).
  - eapply net_binds; [by eapply sync_steps_net|done].
  - by eapply sync_steps_ops.
Qed.
End properties.

(** ** Witnesses *)

Section witnesses.
Import SyncFacts.Demo.

Definition unreachable_remote : remote :=
  Remote (Err (Http "connection refused")) (λ _ _ _, Err (Http "connection refused")) (Err (Http "connection refused")).

Lemma gossip_safe_witness :
  let g := foldl (run_tick (peer_config bob) seconds ["http://alice"; "http://carol"; "http://alice"])
    (Svc evidenced_db 0, wrap_u64 0) [Standard (λ _, unreachable_remote); Clustered (λ _, unreachable_remote)] in
  reachable (store g.1) ∧ g.2 = 2%Z.
Proof.
  intros g. split; [|vm_compute; reflexivity].
  destruct (@gossip_safe Toy.platform Toy.laws demo_codec step_ln (peer_config bob) seconds
    ["http://alice"; "http://carol"; "http://alice"]
    [Standard (λ _, unreachable_remote); Clustered (λ _, unreachable_remote)] (Svc evidenced_db 0) 0) as [_ H].
  destruct H as [Hr _]; [exact evidenced_reachable| |vm_compute; reflexivity| |exact Hr].
  - intros o row Hrow. assert (peers (net evidenced_db) = ∅) as He by (vm_compute; reflexivity).
    cbn [store] in Hrow. rewrite He, lookup_empty in Hrow. discriminate Hrow.
  - intros t addr o f k es e key Ht Hf _. exfalso.
    apply elem_of_cons in Ht as [-> |Ht]; [discriminate Hf|].
    apply list_elem_of_singleton in Ht as ->. discriminate Hf.
Defined.
End witnesses.
