(* ===== verification/Provenance.v ===== *)
(** * Where a statement came from

    [oag-graph]: [provenance.rs] and [history.rs]: the event behind an
    assertion, its author, and whether its signature still verifies; the
    events that touched an object. *)

From S2P Require Import Prelude Core Envelope Store Projector EventLog Frame Scenario Chain Replay.
From S2P Require Import Service Graph Rebuild Presence Float32 Trust Sync SyncFacts Catchup.

(** ** [provenance.rs] *)

Record EventProvenance := {
  pv_event_id : hash32; pv_origin_peer : string; pv_event_type : string; pv_created_at : Z;
  pv_signature_valid : bool; pv_origin_key_known : bool }.

Section provenance.
Context `{P : Platform} `{C : Codec} (identity : SigningKey).

Definition events_json {A} (r : result string A) : result GraphError A :=
  map_err (GEvents ∘ Canonicalize) r.

(** The key of an origin: our own, or the one on file. *)
Definition key_on_file (origin : hash32) : txg (option VerifyingKey) :=
  if bool_decide (origin = identity_peer_id identity) then mret (Some (verifying_key identity))
  else
    info ← g_storage (get_peer origin);
    lift (map_err (λ _, InvalidInput ("stored public key for " +:+ PeerId_to_string origin +:+ " is invalid"))
            (transpose ((λ row, vk_from_bytes (pe_public_key row)) <$> info))).

Definition get_event_provenance (event_id : hash32) : txg (option EventProvenance) :=
  found ← g_storage (events_get_by_id event_id);
  match found with
  | None => mret None
  | Some row =>
      signed ← lift (events_json (signed_from_slice (er_canonical_payload row)));
      origin_peer ← lift (map_err (λ _, InvalidInput ("stored event " +:+ to_hex event_id +:+
                            " has an unparseable origin_peer")) (PeerId_from_str (origin_peer (unsigned signed))));
      verifying_key ← key_on_file origin_peer;
      let '(valid, known) :=
        match verifying_key with
        | Some key => (match verify_and_derive_id signed key with
                       | Ok derived => bool_decide (derived = event_id)
                       | Err _ => false
                       end, true)
        | None => (false, false)
        end in
      mret (Some {| pv_event_id := event_id; pv_origin_peer := PeerId_to_string origin_peer;
                    pv_event_type := er_event_type row; pv_created_at := er_created_at row;
                    pv_signature_valid := valid; pv_origin_key_known := known |})
  end.

(** ** [history.rs] *)

(** [ORDER BY events.origin_peer_id, events.sequence]: blobs compare bytewise. *)
Fixpoint bytes_compare (a b : string) : comparison :=
  match a, b with
  | "", "" => Eq
  | "", _ => Lt
  | _, "" => Gt
  | String x a, String y b =>
      match N.compare (N_of_ascii x) (N_of_ascii y) with Eq => bytes_compare a b | c => c end
  end.
Definition by_origin_sequence (a b : event_row) : Prop :=
  match bytes_compare (raw (er_origin_peer_id a)) (raw (er_origin_peer_id b)) with
  | Lt => True
  | Eq => (er_sequence a ≤ er_sequence b)%Z
  | Gt => False
  end.
#[export] Instance by_origin_sequence_dec : RelDecision by_origin_sequence.
Proof. intros a b. unfold by_origin_sequence. destruct (bytes_compare _ _); solve_decision. Defined.

Definition history_for (ref_type : string) (ref_id : hash32) : tx (list event_row) :=
  gets (λ d, merge_sort by_origin_sequence
    (filter (λ e, (ref_type, ref_id, er_event_id e) ∈ event_refs (log d)) (events (log d)))).

Record HistoryEntry := {
  he_event_id : hash32; he_event_type : string; he_created_at : Z; he_payload : json }.
Definition VALID_OBJECT_TYPES : list string := ["node"; "edge"; "assertion"].

Definition history_entry (row : event_row) : result GraphError HistoryEntry :=
  payload ← events_json (json_from_str (er_canonical_payload row));
  Ok {| he_event_id := er_event_id row; he_event_type := er_event_type row;
        he_created_at := er_created_at row; he_payload := payload |}.
Definition get_history (object_type id : string) : txg (list HistoryEntry) :=
  _ ← assert_or (bool_decide (object_type ∈ VALID_OBJECT_TYPES))
        (InvalidInput ("unknown object_type '" +:+ object_type +:+ "'"));
  hash ← lift (map_err (λ _, InvalidInput ("invalid id '" +:+ id +:+ "'")) (Hash32_from_str id));
  rows ← g_storage (history_for object_type hash);
  lift (mapM (M:=result GraphError) history_entry rows).
End provenance.

(** ** Properties *)

Section properties.
Context `{P : Platform} `{L : !PlatformLaws P} `{C : Codec} `{U : GraphPlatform}.

Lemma same_row d e e' :
  chained d → e ∈ events (log d) → e' ∈ events (log d) → er_event_id e = er_event_id e' → e = e'.
Proof.
  intros Hc [i Hi]%list_elem_of_lookup [j Hj]%list_elem_of_lookup Hid.
  assert (i = j) as ->; [|congruence].
  eapply (NoDup_lookup (er_event_id <$> events (log d))); [apply Hc|by rewrite list_lookup_fmap, Hi|].
  by rewrite list_lookup_fmap, Hj, Hid.
Qed.
Lemma events_get_run d e :
  chained d → e ∈ events (log d) → events_get_by_id (er_event_id e) d = Ok (Some e, d).
Proof.
  intros Hc He. unfold events_get_by_id, gets. f_equal. f_equal.
  destruct (filter (λ x, er_event_id x = er_event_id e) (events (log d))) as [|x l] eqn:Hf; cbn.
  - assert (e ∈ filter (λ x, er_event_id x = er_event_id e) (events (log d))) as Hin
      by (by apply list_elem_of_filter).
    rewrite Hf in Hin. by apply elem_of_nil in Hin.
  - assert (x ∈ filter (λ x, er_event_id x = er_event_id e) (events (log d))) as [Hid Hx]%list_elem_of_filter
      by (rewrite Hf; by left).
    f_equal. by apply (same_row d).
Qed.
Lemma events_get_none d id :
  id ∉ (er_event_id <$> events (log d)) → events_get_by_id id d = Ok (None, d).
Proof.
  intros Hid. unfold events_get_by_id, gets. f_equal. f_equal.
  destruct (filter _ _) as [|x l] eqn:Hf; [done|]. exfalso. apply Hid.
  assert (x ∈ filter (λ x, er_event_id x = id) (events (log d))) as [<- Hx]%list_elem_of_filter
    by (rewrite Hf; by left).
  by apply list_elem_of_fmap_2.
Qed.

Lemma key_on_file_keeps identity origin : keeps id (key_on_file identity origin).
Proof. unfold key_on_file, get_peer. keeps_tac. by intros d a d' [= _ <-]. Qed.

(** The signature of the event is [key]'s, over its canonical bytes, and [id] is
    the hash of the signed event. *)
Definition verifies (key : VerifyingKey) (signed : SignedEvent) (id : hash32) : Prop :=
  ∃ canon sig canon_s,
    canonical_unsigned (unsigned signed) = Ok canon ∧ hex_decode (signature signed) = Ok (raw sig) ∧
    ed25519_verify key (EVENT_DOMAIN +:+ canon) sig = Ok () ∧
    canonical_signed signed = Ok canon_s ∧ id = blake3 (EVENT_DOMAIN +:+ canon_s).
Lemma verifies_spec key signed id : verify_and_derive_id signed key = Ok id ↔ verifies key signed id.
Proof.
  split.
  - intros (canon & dec & sig & canon_s & Hu & Hd & Ha & Hv & Hs & ->)%verify_and_derive_inv.
    exists canon, sig, canon_s. apply to_array_Some in Ha. by rewrite Ha.
  - intros (canon & sig & canon_s & Hu & Hd & Hv & Hs & ->). unfold verify_and_derive_id, verify_with_domain.
    rewrite Hu. cbn. rewrite Hd. cbn. rewrite to_array_raw. cbn. rewrite Hv. cbn. by rewrite Hs.
Qed.

(** C18: The provenance of a stored event is what was recorded and never a false
    one: on a reachable database the query finds every stored event, with its
    author, type and time, and finds no other.  Each event verifies under one
    key that hashes to its author.  It is reported valid exactly if there is a
    key on file for the author - our own for our own events - and the stored
    signature verifies under that key and belongs to this event id; the key is
    known exactly if there is one on file; and stored key bytes that are no
    key make the query fail. *)
Theorem provenance_recorded identity d :
  reachable d →
  (∀ e, e ∈ events (log d) → ∃ signed key,
     signed_from_slice (er_canonical_payload e) = Ok signed ∧
     PeerId_from_public_key key = er_origin_peer_id e ∧ verifies key signed (er_event_id e) ∧
     match key_on_file identity (er_origin_peer_id e) d with
     | Ok (on_file, _) => ∃ valid,
         get_event_provenance identity (er_event_id e) d =
           Ok (Some {| pv_event_id := er_event_id e;
                       pv_origin_peer := PeerId_to_string (er_origin_peer_id e);
                       pv_event_type := er_event_type e; pv_created_at := er_created_at e;
                       pv_signature_valid := valid;
                       pv_origin_key_known := bool_decide (is_Some on_file) |}, d) ∧
         (valid = true ↔ ∃ k, on_file = Some k ∧ verifies k signed (er_event_id e))
     | Err err => get_event_provenance identity (er_event_id e) d = Err err
     end) ∧
  (∀ id, id ∉ (er_event_id <$> events (log d)) → get_event_provenance identity id d = Ok (None, d)).
Proof.
  intros Hd. pose proof (proj1 (reachable_inv d Hd)) as Hc. split.
  - intros e He. destruct (reachable_verifiable d Hd e He) as (signed & key & Hparse & (Hck & _) & _).
    apply check_envelope_inv in Hck as (Hv & Ho & Hk & _). exists signed, key.
    split_and!; [done|done|by apply verifies_spec|].
    unfold get_event_provenance.
    erewrite stm_bind_run by (unfold g_storage; by rewrite (events_get_run d e Hc He)).
    cbv beta iota. erewrite stm_bind_run by (by rewrite Hparse). erewrite stm_bind_run by (by rewrite Ho).
    destruct (key_on_file identity (er_origin_peer_id e) d) as [[on_file d']|err] eqn:Hfile; [|by apply stm_bind_fail].
    assert (d' = d) as ->.
    { apply (key_on_file_keeps identity (er_origin_peer_id e)) in Hfile. done. }
    erewrite stm_bind_run by exact Hfile. destruct on_file as [k|].
    + eexists. split; [reflexivity|]. setoid_rewrite <-verifies_spec. split.
      * intros Hvalid. exists k. split; [done|].
        destruct (verify_and_derive_id signed k); [|done]. by apply bool_decide_eq_true in Hvalid as ->.
      * intros (k' & [= <-] & ->). by apply bool_decide_eq_true.
    + exists false. split; [done|]. split; [done|by intros (? & [=] & _)].
  - intros id Hid. unfold get_event_provenance.
    by erewrite stm_bind_run by (unfold g_storage; by rewrite (events_get_none d id Hid)).
Qed.
End properties.

Section witnesses.
#[local] Existing Instance Toy.platform.
#[local] Existing Instance demo_codec.
#[local] Existing Instance ToyGraph.plain_urls.

(** Alice looks up her first event, and one that does not exist; bob, who has
    a wrong key on file for alice, and nobody else, is told that the same event
    is not valid. *)
Definition misled_db : db :=
  on_net (on_peers <[identity_peer_id alice := PeerRow bob None 0 None false]>) evidenced_db.
Lemma misled_reachable : reachable misled_db.
Proof.
  apply (reachable_step evidenced_db); [apply evidenced_reachable|vm_compute; reflexivity|apply step_peers].
Qed.
Lemma fmap_triple {A B C D} (f : A → B) (g : A → C) (h : A → D) (o : option A) b c d :
  (λ e, (f e, g e, h e)) <$> o = Some (b, c, d) → ∃ e, o = Some e ∧ f e = b ∧ g e = c ∧ h e = d.
Proof. destruct o as [e|]; [|done]. intros [= <- <- <-]. by exists e. Qed.
Lemma provenance_recorded_witness :
  pv_signature_valid <$> (to_option (get_event_provenance alice (id_of e1) evidenced_db) ≫= fst) = Some true ∧
  pv_signature_valid <$> (to_option (get_event_provenance bob (id_of e1) misled_db) ≫= fst) = Some false ∧
  get_event_provenance alice (toy_key "no such event") evidenced_db = Ok (None, evidenced_db).
Proof.
  assert (∀ d, events (log d) !! 0 = events (log evidenced_db) !! 0 → ∃ e, e ∈ events (log d) ∧
    er_event_id e = id_of e1 ∧ er_origin_peer_id e = identity_peer_id alice ∧
    signed_from_slice (er_canonical_payload e) = Ok (event_of e1)) as Hfirst.
  { intros d Heq.
    assert ((λ e, (er_event_id e, er_origin_peer_id e, signed_from_slice (er_canonical_payload e))) <$> events (log evidenced_db) !! 0
      = Some (id_of e1, identity_peer_id alice, Ok (event_of e1))) as H by (vm_compute; reflexivity).
    rewrite <-Heq in H. apply fmap_triple in H as (e & He & Hid & Ho & Hs). exists e.
    split; [by eapply list_elem_of_lookup_2|]. split; [exact Hid|]. split; [exact Ho|exact Hs]. }
  destruct (@provenance_recorded Toy.platform Toy.laws demo_codec alice evidenced_db evidenced_reachable) as [Ha Hn].
  destruct (@provenance_recorded Toy.platform Toy.laws demo_codec bob misled_db misled_reachable) as [Hb _].
  split_and!; [..|apply Hn; apply (bool_decide_unpack _); vm_compute; exact I].
  - destruct (Hfirst evidenced_db eq_refl) as (e & He & Hid & Ho & Hs).
    destruct (Ha e He) as (signed & key & Hs' & _ & _ & Hm). rewrite Hs in Hs'. apply (inj Ok) in Hs' as <-.
    rewrite Ho, Hid in Hm. unfold key_on_file in Hm. rewrite bool_decide_true in Hm by done.
    destruct Hm as (valid & -> & Hv). cbn. f_equal. apply Hv. eexists. split; [reflexivity|].
    apply verifies_spec. vm_compute. reflexivity.
  - destruct (Hfirst misled_db eq_refl) as (e & He & Hid & Ho & Hs).
    destruct (Hb e He) as (signed & key & Hs' & _ & _ & Hm). rewrite Hs in Hs'. apply (inj Ok) in Hs' as <-.
    rewrite Ho, Hid in Hm.
    assert (key_on_file bob (identity_peer_id alice) misled_db = Ok (Some bob, misled_db)) as Hk by (vm_compute; reflexivity).
    rewrite Hk in Hm. destruct Hm as (valid & -> & Hv). cbn. f_equal. apply not_true_iff_false. rewrite Hv.
    intros (k & [= <-] & Hver%verifies_spec). vm_compute in Hver. discriminate Hver.
Defined.
End witnesses.
