(* ===== verification/History.v ===== *)
(** * The history of an object

    [event_refs] is the index behind [get_history]: which events concern which
    node, edge or assertion.  It holds exactly what the events of the log say,
    declarations of an alias apart, which the projector does not index; so the
    history of an object is the other events that touched it - all of them,
    once each, in the order of each author, and in full. *)

From S2P Require Import Prelude Core Envelope Store Projector EventLog Frame Scenario Chain Replay Service Presence Float32 Trust.
From S2P Require Import Sync Graph Rebuild SyncFacts Catchup Typing Ledger Provenance.

(** What the code relies on: canonical bytes are JSON. *)
Class CanonicalJson `(C : Codec) : Prop :=
  canonical_is_json e t : canonical_signed e = Ok t → is_ok (json_from_str t) = true.

(** ** The index *)

Section index.
Context `{P : Platform} `{C : Codec}.

(** The objects an event touches: those it creates, names or judges. *)
Definition touched (id : hash32) (p : EventPayload) : list (string * hash32) :=
  let assertion s := match parsed s with Some a => [("assertion", a)] | None => [] end in
  match p with
  | AssertRelation q =>
      [("assertion", id); ("edge", edge_id_of q);
       ("node", NodeId_from_canonical_identifier (ar_subject_identifier q));
       ("node", NodeId_from_canonical_identifier (ar_object_identifier q))]
  | AddEvidence q => assertion (ae_assertion_id q)
  | VerifyAssertion q => assertion (va_assertion_id q)
  | DisputeAssertion q => assertion (da_disputed_assertion_id q)
  | RetractAssertion q => assertion (ra_retracted_assertion_id q)
  | SupersedeAssertion q => assertion (sa_old_assertion_id q) ++ assertion (sa_new_assertion_id q)
  | NodeAlias q => match parsed (na_node_id q) with Some n => [("node", n)] | None => [] end
  | ActorDeclare _ | ActorKeyAdd _ | ActorKeyRevoke _ => []
  end.
(** Those the projector writes to the index: not the node of an alias. *)
Definition indexed (id : hash32) (p : EventPayload) : list (string * hash32) :=
  match p with NodeAlias _ => [] | _ => touched id p end.
Definition refs_of (id : hash32) (p : EventPayload) : gset (string * hash32 * hash32) :=
  list_to_set ((λ r : string * hash32, (r.1, r.2, id)) <$> indexed id p).

Lemma elem_of_refs_of ty x e id p : (ty, x, e) ∈ refs_of id p ↔ e = id ∧ (ty, x) ∈ indexed id p.
Proof.
  unfold refs_of. rewrite elem_of_list_to_set, list_elem_of_fmap. split.
  - intros ([ty' x'] & [= -> -> ->] & Hin). done.
  - intros [-> Hin]. by exists (ty, x).
Qed.

Abbreviation index := (λ d : db, event_refs (log d)).
Definition adds (X : gset (string * hash32 * hash32)) {A} (m : txe A) : Prop := effect index (λ b b', b' = X ∪ b) m.

Lemma adds_ref X id ty x : X = {[(ty, x, id)]} → adds X (storage (add_ref id ty x)).
Proof.
  intros ->. apply effect_storage. intros d u d' Hrun. unfold add_ref in Hrun.
  apply stm_bind_ok in Hrun as (? & ? & [= <- <-] & Hrun). apply stm_bind_ok in Hrun as (b & d1 & Hi & [= _ <-]).
  unfold insert_or_ignore in Hi. case_bool_decide as Hin; cbn in Hi.
  - injection Hi as _ <-. set_solver.
  - destruct (has_event id d); [|done]. cbv [mbind stm_bind modify mret stm_ret] in Hi. by injection Hi as _ <-.
Qed.
Lemma adds_then X Y Z {A A'} (m : txe A) (k : A → txe A') :
  adds X m → (∀ a, adds Y (k a)) → Z = Y ∪ X → adds Z (m ≫= k).
Proof.
  intros Hm Hk -> d b d'' (a & d' & H1%Hm & H2%Hk)%stm_bind_ok. cbv beta in *. rewrite H2, H1. set_solver.
Qed.
Lemma adds_none {A} (m : txe A) : keeps index m → adds ∅ m.
Proof. intros Hm. apply effect_keeps; [done|set_solver]. Qed.

Ltac silent := unfold resolve_or_create_node, require_assertion, nodes_get_by_id, nodes_insert_if_missing,
  edges_insert_if_missing, assertions_insert, assertions_get_by_id, assertions_insert_evidence,
  assertions_insert_observation, assertions_insert_dispute, assertions_set_status,
  assertions_insert_retraction, assertions_insert_supersession, actors_insert, nodes_insert_alias,
  actors_create_key, actors_revoke_key; keeps_tac.
Ltac to_the_refs :=
  repeat first
    [ apply effect_lift; let Hr := fresh "Hr" in intros ? Hr; try apply parsed_ok in Hr
    | apply effect_resolved; [solve [silent]|]
    | eapply adds_then; [by apply adds_ref|intros ?; to_the_refs|]
    | by apply adds_ref
    | apply effect_after; [solve [silent]|intros ?]
    | apply adds_ref ].

Lemma project_refs id t p : adds (refs_of id p) (project id t p).
Proof.
  destruct p as [q|q|q|q|q|q|q|q|q|q]; unfold_payloads.
  7-10: apply adds_none; silent.
  all: apply effect_before; [|intros; apply keeps_ret]; to_the_refs; try reflexivity.
  all: unfold refs_of; cbn [indexed touched];
    repeat match goal with H : parsed _ = Some _ |- _ => rewrite H; clear H end; cbn; set_solver.
Qed.

(** *** Over the log *)

Lemma replay_refs rows : ∀ d0, replay rows empty_db = Some d0 → ∀ ty x e,
  (ty, x, e) ∈ event_refs (log d0) ↔ ∃ t p, (e, t, p) ∈ omap entry_of rows ∧ (ty, x) ∈ indexed e p.
Proof.
  induction rows as [|row rows IH] using rev_ind; intros d0 Hrep ty x e.
  { injection Hrep as <-. cbn. split; [by intros ?%elem_of_empty|by intros (? & ? & ?%elem_of_nil & _)]. }
  rewrite replay_snoc in Hrep. destruct (replay rows empty_db) as [d1|] eqn:H1; [|done]. cbn in Hrep.
  destruct (replay_row row _) as [[[] d2]|] eqn:Hrow; [|done]. injection Hrep as <-.
  apply replay_row_entry in Hrow as (p & out & He & Hp). apply project_refs in Hp. cbn in Hp.
  rewrite Hp, elem_of_union, elem_of_refs_of, (IH d1 eq_refl), omap_app. cbn. rewrite He. cbn.
  setoid_rewrite elem_of_app. setoid_rewrite list_elem_of_singleton. naive_solver.
Qed.
Lemma reachable_refs `{U : GraphPlatform} d : reachable d → ∀ ty x e,
  (ty, x, e) ∈ event_refs (log d) ↔ ∃ t p, (e, t, p) ∈ journal d ∧ (ty, x) ∈ indexed e p.
Proof. intros (_ & d0 & Hrep & _ & -> & _)%reachable_inv. by apply replay_refs. Qed.
End index.

(** ** The order of a history *)

Lemma bytes_compare_eq a : ∀ b, bytes_compare a b = Eq ↔ a = b.
Proof.
  induction a as [|x a IH]; intros [|y b]; cbn; [done|done|done|].
  destruct (N.compare_spec (N_of_ascii x) (N_of_ascii y)) as [E|E|E].
  - apply (f_equal ascii_of_N) in E. rewrite !ascii_N_embedding in E. subst y. rewrite IH. naive_solver.
  - split; [done|]. intros [= -> ->]. lia.
  - split; [done|]. intros [= -> ->]. lia.
Qed.
Lemma bytes_compare_flip a : ∀ b, bytes_compare b a = CompOpp (bytes_compare a b).
Proof.
  induction a as [|x a IH]; intros [|y b]; cbn; [done..|].
  rewrite (N.compare_antisym (N_of_ascii x) (N_of_ascii y)).
  destruct (N.compare (N_of_ascii x) (N_of_ascii y)); cbn; [apply IH|done|done].
Qed.
Lemma bytes_compare_trans a : ∀ b c,
  bytes_compare a b = Lt → bytes_compare b c = Lt → bytes_compare a c = Lt.
Proof.
  induction a as [|x a IH]; intros [|y b] [|z c]; cbn; try done.
  destruct (N.compare_spec (N_of_ascii x) (N_of_ascii y)) as [E|E|E],
    (N.compare_spec (N_of_ascii y) (N_of_ascii z)) as [E'|E'|E']; try done; intros H1 H2.
  - rewrite E, E', N.compare_refl. by eapply IH.
  - rewrite E. by apply N.compare_lt_iff in E' as ->.
  - rewrite <-E'. by apply N.compare_lt_iff in E as ->.
  - assert (N_of_ascii x < N_of_ascii z)%N as ->%N.compare_lt_iff by lia. done.
Qed.

#[export] Instance by_origin_sequence_total : Total by_origin_sequence.
Proof.
  intros a b. unfold by_origin_sequence. rewrite (bytes_compare_flip (raw (er_origin_peer_id a))).
  destruct (bytes_compare _ _); cbn; [lia|by left|by right].
Qed.
#[export] Instance by_origin_sequence_trans : Transitive by_origin_sequence.
Proof.
  intros a b c. unfold by_origin_sequence.
  destruct (bytes_compare (raw (er_origin_peer_id a)) (raw (er_origin_peer_id b))) eqn:H1; [| |done];
  destruct (bytes_compare (raw (er_origin_peer_id b)) (raw (er_origin_peer_id c))) eqn:H2; try done.
  - apply bytes_compare_eq in H1 as ->. rewrite H2. lia.
  - apply bytes_compare_eq in H1 as ->. by rewrite H2.
  - apply bytes_compare_eq in H2 as <-. by rewrite H1.
  - by rewrite (bytes_compare_trans _ _ _ H1 H2).
Qed.

(** ** Properties *)

Section properties.
Context `{P : Platform} `{L : !PlatformLaws P} `{C : Codec} `{U : GraphPlatform}.

(** What a history shows of a stored event: its type, its time and all of
    the signed event. *)
Definition shows (row : event_row) (h : HistoryEntry) : Prop :=
  ∃ signed text, signed_from_slice (er_canonical_payload row) = Ok signed ∧
    canonical_signed signed = Ok text ∧
    he_event_id h = er_event_id row ∧ he_event_type h = type_str (payload (unsigned signed)) ∧
    he_created_at h = created_at (unsigned signed) ∧ json_from_str text = Ok (he_payload h).

Lemma entry_shown `{!CanonicalJson C} signed row : stored_as signed row →
  ∃ h, history_entry row = Ok h ∧ shows row h.
Proof.
  intros (key & Hread & (_ & Hcan & _) & _ & Ht & Hty). pose proof (canonical_is_json _ _ Hcan) as Hj.
  unfold history_entry, events_json. destruct (json_from_str _) as [v|] eqn:Hv; [|done]. cbn.
  eexists. split; [reflexivity|]. exists signed, (er_canonical_payload row). by split_and!.
Qed.
Lemma entries_shown `{!CanonicalJson C} rows : (∀ row, row ∈ rows → ∃ signed, stored_as signed row) →
  ∃ hs, mapM (M:=result GraphError) history_entry rows = Ok hs ∧ Forall2 shows rows hs.
Proof.
  induction rows as [|row rows IH]; intros Hrows; [by exists []|].
  destruct (Hrows row ltac:(left)) as (signed & (h & Hh & Hs)%entry_shown).
  destruct IH as (hs & Hhs & Hall); [intros; by apply Hrows; right|].
  exists (h :: hs). cbn. rewrite Hh. cbn. rewrite Hhs. cbn. split; [done|by constructor].
Qed.

(** An event of the log that touched the object; one that declares an alias;
    one that is indexed under the object. *)
Definition concerns (ty : string) (x : hash32) (row : event_row) : Prop :=
  ∃ signed, signed_from_slice (er_canonical_payload row) = Ok signed ∧
    (ty, x) ∈ touched (er_event_id row) (payload (unsigned signed)).
Definition declares_alias (row : event_row) : Prop :=
  ∃ signed q, signed_from_slice (er_canonical_payload row) = Ok signed ∧ payload (unsigned signed) = NodeAlias q.
Definition listed (ty : string) (x : hash32) (row : event_row) : Prop :=
  ∃ signed, signed_from_slice (er_canonical_payload row) = Ok signed ∧
    (ty, x) ∈ indexed (er_event_id row) (payload (unsigned signed)).
Lemma listed_concerns ty x row : listed ty x row ↔ concerns ty x row ∧ ¬ declares_alias row.
Proof.
  unfold listed, concerns, declares_alias. split.
  - intros (signed & Hs & Hin). split.
    + exists signed. split; [done|]. destruct (payload (unsigned signed)); try done. by apply not_elem_of_nil in Hin.
    + intros (signed' & q & Hs' & Hq). rewrite Hs in Hs'. injection Hs' as <-. rewrite Hq in Hin. by apply not_elem_of_nil in Hin.
  - intros [(signed & Hs & Hin) Hno]. exists signed. split; [done|].
    destruct (payload (unsigned signed)) as [| | | | | | | | |q] eqn:Hq; try done. destruct Hno. by exists signed, q.
Qed.

Lemma history_rows d ty x : reachable d → ∀ row, row ∈ events (log d) →
  (ty, x, er_event_id row) ∈ event_refs (log d) ↔ listed ty x row.
Proof.
  intros Hd row Hrow. rewrite (reachable_refs d Hd). split.
  - intros (t & p & Hj & Hin). apply list_elem_of_omap in Hj as (row' & Hrow' & He).
    unfold entry_of in He. destruct (signed_from_slice _) as [signed|] eqn:Hs; [|done].
    injection He as Hid _ <-. assert (row' = row) as -> by (by apply (same_row d); [apply reachable_inv|..]).
    by exists signed.
  - intros (signed & Hs & Hin). exists (er_created_at row), (payload (unsigned signed)). split; [|done].
    apply list_elem_of_omap. exists row. split; [done|]. unfold entry_of. by rewrite Hs.
Qed.

Lemma history_run `{!CanonicalJson C} d ty x : reachable d → ty ∈ VALID_OBJECT_TYPES → ∃ rows hs,
  get_history ty (to_hex x) d = Ok (hs, d) ∧ Forall2 shows rows hs ∧
  (∀ row, row ∈ rows ↔ row ∈ events (log d) ∧ listed ty x row) ∧
  NoDup (er_event_id <$> rows) ∧ StronglySorted by_origin_sequence rows.
Proof.
  intros Hd Hty. set (rows := merge_sort by_origin_sequence
    (filter (λ e, (ty, x, er_event_id e) ∈ event_refs (log d)) (events (log d)))).
  assert (∀ row, row ∈ rows ↔ row ∈ events (log d) ∧ listed ty x row) as Hin.
  { intros row. unfold rows. rewrite merge_sort_Permutation, list_elem_of_filter.
    split; intros [? ?]; split; try done; by apply (history_rows d). }
  destruct (entries_shown rows) as (hs & Hhs & Hall).
  { intros row [Hrow _]%Hin. by apply (reachable_verifiable d). }
  exists rows, hs. split_and!; [|done|done| |by apply StronglySorted_merge_sort; apply _].
  - unfold get_history, assert_or. rewrite bool_decide_true by done. cbv [mbind stm_bind]. cbn [negb].
    rewrite Hash32_from_str_hex. cbn. fold rows. by rewrite Hhs.
  - unfold rows. rewrite merge_sort_Permutation.
    eapply sublist_NoDup; [apply (chained_ids d), reachable_inv, Hd|]. apply fmap_sublist, sublist_filter.
Qed.

(** C19: The history of an object is complete and in full, aliases apart.  On a
    reachable database [get_history] of any node, edge or assertion never
    fails: it lists exactly the stored events that touched the object and do
    not declare an alias, each once, author by author and each author's in the
    order they were signed, with the whole signed event of each - title and
    excerpt included, whatever the operator has redacted.  (A NODE_ALIAS event
    touches its node, but the projector writes no reference for it; edges and
    assertions have no aliases.)  Another object type and an id that does not
    parse are refused. *)
Theorem history_complete `{!CanonicalJson C} d : reachable d →
  (∀ ty x, ty ∈ VALID_OBJECT_TYPES → ∃ rows hs,
     get_history ty (to_hex x) d = Ok (hs, d) ∧ Forall2 shows rows hs ∧
     (∀ row, row ∈ rows ↔ row ∈ events (log d) ∧ concerns ty x row ∧ ¬ declares_alias row) ∧
     NoDup (er_event_id <$> rows) ∧ StronglySorted by_origin_sequence rows) ∧
  (∀ ty x row, ty ≠ "node" → concerns ty x row → ¬ declares_alias row) ∧
  (∀ ty id, ty ∉ VALID_OBJECT_TYPES ∨ ¬ is_ok (Hash32_from_str id) → ∃ why,
     get_history ty id d = Err (InvalidInput why)).
Proof.
  intros Hd. split_and!.
  - intros ty x Hty. destruct (history_run d ty x Hd Hty) as (rows & hs & Hget & Hall & Hin & Hrest).
    exists rows, hs. split_and!; [done|done| |apply Hrest..]. intros row. by rewrite Hin, listed_concerns.
  - intros ty x row Hty (signed & Hs & Hin) (signed' & q & Hs' & Hq). rewrite Hs in Hs'. injection Hs' as <-.
    rewrite Hq in Hin. cbn in Hin. destruct (parsed _); [|by apply not_elem_of_nil in Hin].
    apply list_elem_of_singleton in Hin. by injection Hin as -> _.
  - intros ty id Hbad. unfold get_history, assert_or. case_bool_decide as Hty; [|by eexists].
    destruct Hbad as [|Hid]; [done|]. cbv [mbind stm_bind]. cbn. destruct (Hash32_from_str id); [by destruct Hid|].
    by eexists.
Qed.
End properties.

(** ** Witnesses *)

Section witnesses.
#[local] Existing Instance Toy.platform.
#[local] Existing Instance demo_codec.
#[local] Instance demo_json : CanonicalJson demo_codec.
Proof. intros e t _. cbn. by case_decide. Defined.
#[local] Existing Instance ToyGraph.plain_urls.

(** Alice redacted her evidence: the table has no title, and the history of the
    assertion shows the event that carries it, in full. *)
Lemma history_complete_witness :
  ev_title <$> evidence (proj redacted_db) !! id_of e3 = Some None ∧
  ∃ hs h, get_history "assertion" (to_hex (id_of e2)) redacted_db = Ok (hs, redacted_db) ∧ h ∈ hs ∧
    he_event_id h = id_of e3 ∧ he_payload h = Str (ToyCodec.signed_text (event_of e3)) ∧
    payload (unsigned (event_of e3)) = evidence_p (id_of e2).
Proof.
  split; [vm_compute; reflexivity|].
  destruct (@history_complete Toy.platform Toy.laws demo_codec _ demo_json redacted_db redacted_reachable) as [H _].
  destruct (H "assertion" (id_of e2)) as (rows & hs & Hget & Hall & Hin & _).
  { apply (bool_decide_unpack _). vm_compute. exact I. }
  assert (er_event_id <$> events (log redacted_db) !! 2 = Some (id_of e3)) as Hid by (vm_compute; reflexivity).
  assert ((λ row, signed_from_slice (er_canonical_payload row)) <$> events (log redacted_db) !! 2
    = Some (Ok (event_of e3))) as Hread by (vm_compute; reflexivity).
  destruct (events (log redacted_db) !! 2) as [row|] eqn:Hrow; [|discriminate Hid].
  apply (inj Some) in Hid, Hread. cbv beta in Hread.
  assert (row ∈ rows) as [i Hi]%list_elem_of_lookup.
  { apply Hin. split_and!; [by eapply list_elem_of_lookup_2| |].
    - exists (event_of e3). split; [exact Hread|].
      rewrite Hid. apply (bool_decide_unpack _). vm_compute. exact I.
    - intros (signed & q & Hs & Hq). rewrite Hread in Hs. apply (inj Ok) in Hs as <-. vm_compute in Hq. discriminate Hq. }
  destruct (Forall2_lookup_l _ _ _ _ _ Hall Hi) as (h & Hh & signed & text & Hs & Ht & He & _ & _ & Hj).
  exists hs, h. rewrite Hread in Hs. apply (inj Ok) in Hs as <-. apply (inj Ok) in Ht as <-.
  split_and!; [exact Hget|by eapply list_elem_of_lookup_2|congruence| |vm_compute; reflexivity].
  apply (inj (@Ok string json)). rewrite <-Hj. vm_compute. reflexivity.
Defined.
End witnesses.
