(* ===== verification/Search.v ===== *)
(** * Finding nodes

    [oag-graph]: [resolve.rs], [search.rs], [sources.rs], with the queries of
    [repo/nodes.rs], [repo/actors.rs] and [repo/assertions.rs] they run.
    SQLite's full-text index is a parameter: the rows that match a query, best
    first; so is Unicode's division of a text into characters. *)

From S2P Require Import Prelude Core Envelope Store Projector EventLog Frame Scenario Chain Replay Service Graph Rebuild Typing Queries.

(** The quotation mark. *)
Definition quote : string := String "034" "".

(** Characters are their UTF-8 encodings. *)
Class Unicode := {
  chars : string → list string;
  is_alphanumeric : string → bool;
  is_whitespace : string → bool }.

Definition a_char `{Unicode} (c : string) : Prop := chars c = [c].
Class UnicodeLaws `(P : Platform) `(N : Unicode) : Prop := {
  (** a text is the sequence of its characters, and a sequence of characters
      is the text's *)
  chars_are_chars s : Forall a_char (chars s);
  chars_concat l : Forall a_char l → chars (String.concat "" l) = l;
  space_is_char : a_char " ";
  space_is_white : is_whitespace " " = true;
  quote_not_alphanumeric : is_alphanumeric quote = false;
  alphanumeric_not_white c : is_alphanumeric c = true → is_whitespace c = false;
  (** [split_whitespace] gives the maximal runs of other characters *)
  words_not_empty s : "" ∉ split_whitespace s;
  words_of s w c : w ∈ split_whitespace s → c ∈ chars w → c ∈ chars s ∧ is_whitespace c = false
}.

(** The index over the nodes table; [fts_match] reports a malformed query. *)
Class FullText := { fts_match : string → gmap hash32 node_row → result sql_error (list hash32) }.

Section search.
Context `{P : Platform} `{C : Codec} `{U : GraphPlatform} `{N : Unicode} `{T : FullText}.

(** ** The queries *)

Definition nodes_get_by_canonical_identifier (identifier : string) : tx (option Node) :=
  d ← get;
  lift (transpose (uncurry row_to_node <$>
    head (filter (λ kr : hash32 * node_row, nr_canonical_identifier kr.2 = identifier)
            (map_to_list (nodes (proj d)))))).
Definition actors_find_by_name_and_type (name : string) (type : ActorType) : tx (option Actor) :=
  d ← get;
  lift (transpose (uncurry row_to_actor <$>
    head (filter (λ kr : hash32 * actor_row, at_name kr.2 = Some name ∧ at_actor_type kr.2 = as_str type)
            (map_to_list (actors (proj d)))))).
(** A negative [LIMIT] is none. *)
Definition sql_limit {A} (limit : Z) (l : list A) : list A :=
  if Z.ltb limit 0 then l else take (Z.to_nat limit) l.
(** [JOIN nodes], without the suppressed ones. *)
Definition shown_rows (d : db) (hits : list hash32) : list (hash32 * node_row) :=
  filter (λ kr, search_suppressions (ops d) !! kr.1 = None)
    (omap (λ id, pair id <$> nodes (proj d) !! id) hits).
Definition nodes_search (query : string) (limit : Z) : tx (list Node) :=
  d ← get;
  hits ← lift (map_err Sqlx (fts_match query (nodes (proj d))));
  lift (mapM (M:=result StorageError) (uncurry row_to_node) (sql_limit limit (shown_rows d hits))).
Definition assertions_list_evidence (assertion : hash32) : tx (list Evidence) :=
  d ← get;
  lift (mapM (M:=result StorageError) (uncurry row_to_evidence)
    (filter (λ kr : hash32 * evidence_row, ev_assertion_id kr.2 = assertion) (map_to_list (evidence (proj d))))).
Definition row_to_alias (k : hash32 * string) (r : alias_row) : result StorageError NodeAliasT :=
  type ← parse_column "alias_type" (al_alias_type r);
  Ok {| na_node := k.1; na_text := k.2; na_type := type; na_source := al_source_assertion r |}.
Definition nodes_list_aliases (node : hash32) : tx (list NodeAliasT) :=
  d ← get;
  lift (mapM (M:=result StorageError) (uncurry row_to_alias)
    (filter (λ kr : hash32 * string * alias_row, kr.1.1 = node) (map_to_list (node_aliases (proj d))))).

(** ** [search.rs] *)

Definition MAX_SEARCH_LIMIT : Z := 1000.
Definition quoted (word : string) : string := quote +:+ word +:+ quote.
Definition sanitize_fts_query (query : string) : string :=
  let cleaned := String.concat ""
    ((λ c, if is_alphanumeric c || is_whitespace c then c else " ") <$> chars query) in
  join " " (quoted <$> split_whitespace cleaned).
Definition search (query : string) (limit : Z) : txg (list Node) :=
  let sanitized := sanitize_fts_query query in
  if bool_decide (sanitized = "") then mret []
  else g_storage (nodes_search sanitized (Z.min (Z.max limit 0) MAX_SEARCH_LIMIT)).

(** ** [resolve.rs] *)

Inductive ResolveOutcome :=
  | Found (node : Node)
  | Candidates (nodes : list Node)
  | NothingFound.
Definition resolve (value : string) : txg ResolveOutcome :=
  let '(identifier, _) := canonicalize_value value in
  found ← g_storage (nodes_get_by_canonical_identifier identifier);
  match found with
  | Some node => mret (Found node)
  | None =>
      let sanitized := sanitize_fts_query value in
      if bool_decide (sanitized = "") then mret NothingFound
      else
        candidates ← g_storage (nodes_search sanitized 10);
        mret (if bool_decide (candidates = []) then NothingFound else Candidates candidates)
  end.
Fixpoint assertions_of_edges (touching : list Edge) : tx (list Assertion) :=
  match touching with
  | [] => mret []
  | e :: rest => l ← assertions_list_by_edge (e_id e); ls ← assertions_of_edges rest; mret (l ++ ls)
  end.
Definition list_assertions_for_node (node : hash32) : txg (list Assertion) :=
  touching ← g_storage (edges_list_touching node);
  g_storage (assertions_of_edges touching).

(** ** [sources.rs] *)

Fixpoint evidence_of (assertions : list Assertion) : tx (list Evidence) :=
  match assertions with
  | [] => mret []
  | a :: rest => l ← assertions_list_evidence (a_id a); ls ← evidence_of rest; mret (l ++ ls)
  end.
Fixpoint sources_of (touching : list Edge) : tx (list Evidence) :=
  match touching with
  | [] => mret []
  | e :: rest =>
      assertions ← assertions_list_by_edge (e_id e);
      l ← evidence_of assertions;
      ls ← sources_of rest;
      mret (l ++ ls)
  end.
Definition find_sources (node : hash32) : txg (list Evidence) :=
  touching ← g_storage (edges_list_touching node);
  g_storage (sources_of touching).

(** ** What the queries give *)

Lemma sql_limit_length {A} limit (l : list A) : (0 ≤ limit)%Z → (Z.of_nat (length (sql_limit limit l)) ≤ limit)%Z.
Proof. unfold sql_limit. intros H. destruct (Z.ltb_spec limit 0); [lia|]. rewrite length_take. lia. Qed.
Lemma sql_limit_in {A} limit (l : list A) x : x ∈ sql_limit limit l → x ∈ l.
Proof.
  unfold sql_limit. destruct (Z.ltb _ _); [done|]. intros Hx.
  rewrite <-(take_drop (Z.to_nat limit) l). apply elem_of_app. by left.
Qed.

(** Reading rows one by one. *)
Lemma mapM_elem {A B E} (f : A → result E B) l : ∀ k, mapM (M:=result E) f l = Ok k →
  ∀ y, y ∈ k ↔ ∃ x, x ∈ l ∧ f x = Ok y.
Proof.
  induction l as [|x l IH]; intros k.
  { intros [= <-] y. split; [by intros ?%elem_of_nil|]. by intros (? & ?%elem_of_nil & _). }
  cbn. intros (y & Hy & H)%result_bind_ok. apply result_bind_ok in H as (k' & Hk & [= <-]).
  intros z. rewrite elem_of_cons, (IH _ Hk z). split.
  - intros [-> | (x' & Hx & Hz)]; [exists x; by split; [left|]|]. exists x'. by split; [right|].
  - intros (x' & [-> | Hx]%elem_of_cons & Hz); [left; congruence|right; by exists x'].
Qed.
Lemma mapM_is_ok {A B E} (f : A → result E B) l :
  Forall (λ x, is_ok (f x) = true) l → is_ok (mapM (M:=result E) f l) = true.
Proof.
  induction 1 as [|x l Hx Hl IH]; [done|]. cbn. destruct (f x); [|done]. cbn.
  destruct (mapM _ _) eqn:E1; rewrite ?E1 in *; done.
Qed.
Lemma mapM_length {A B E} (f : A → result E B) l k : mapM (M:=result E) f l = Ok k → length k = length l.
Proof.
  revert k. induction l as [|x l IH]; intros k; [by intros [= <-]|].
  cbn. intros (y & _ & H)%result_bind_ok. apply result_bind_ok in H as (k' & Hk & [= <-]).
  cbn. by rewrite (IH _ Hk).
Qed.
Lemma mapM_fmap {A B E D} (f : A → result E B) (g : B → D) (h : A → D) l : ∀ k,
  mapM (M:=result E) f l = Ok k → (∀ x y, f x = Ok y → g y = h x) → g <$> k = h <$> l.
Proof.
  induction l as [|x l IH]; intros k Hm Hf; [by injection Hm as <-|].
  cbn in Hm. destruct (f x) as [y|] eqn:Hx; [|done]. destruct (mapM f l) as [k'|] eqn:Hk; [|done].
  injection Hm as <-. rewrite !fmap_cons, (IH k') by done. by rewrite (Hf x y).
Qed.

(** The rows a search shows. *)
Definition shown_row (d : db) (kr : hash32 * node_row) : Prop :=
  nodes (proj d) !! kr.1 = Some kr.2 ∧ search_suppressions (ops d) !! kr.1 = None.
Lemma shown_rows_shown d hits kr : kr ∈ shown_rows d hits → shown_row d kr.
Proof.
  destruct kr as [id r]. intros [Hs (i & Hi & Hr)%list_elem_of_omap]%list_elem_of_filter.
  apply fmap_Some in Hr as (r' & Hr & [= -> ->]). by split.
Qed.

Lemma nodes_search_spec query limit d : (0 ≤ limit)%Z →
  match nodes_search query limit d with
  | Ok (ns, d') => d' = d ∧ (Z.of_nat (length ns) ≤ limit)%Z ∧
      ∀ n, n ∈ ns → ∃ id r, shown_row d (id, r) ∧ row_to_node id r = Ok n
  | Err _ => typed (proj d) → is_ok (fts_match query (nodes (proj d))) = false
  end.
Proof.
  intros Hl. unfold nodes_search. cbv [mbind stm_bind get lift].
  destruct (fts_match _ _) as [hits|e]; cbn [map_err]; [|done].
  destruct (mapM _ _) as [ns|e] eqn:Hm.
  - split; [done|]. split; [rewrite (mapM_length _ _ _ Hm); by apply sql_limit_length|].
    intros n Hn. apply (mapM_elem _ _ _ Hm) in Hn as ([id r] & Hin & Hn). exists id, r.
    split; [|done]. by apply (shown_rows_shown d hits), (sql_limit_in limit).
  - intros Ht. exfalso.
    assert (is_ok (mapM (M:=result StorageError) (uncurry row_to_node) (sql_limit limit (shown_rows d hits))) = true) as Hok;
      [|by rewrite Hm in Hok].
    apply mapM_is_ok, Forall_forall. intros [id r] Hin%sql_limit_in.
    destruct (shown_rows_shown _ _ _ Hin) as [Hr _]. cbn in *.
    by destruct (typed_nodes _ Ht _ _ Hr).
Qed.

(** At most one node has a given canonical identifier, under the id made of it. *)
Lemma by_identifier_spec identifier d : typed (proj d) →
  ∃ found, nodes_get_by_canonical_identifier identifier d = Ok (found, d) ∧
    match found with
    | Some n => ∃ r, nodes (proj d) !! NodeId_from_canonical_identifier identifier = Some r ∧
        nr_canonical_identifier r = identifier ∧
        row_to_node (NodeId_from_canonical_identifier identifier) r = Ok n
    | None => ∀ id r, nodes (proj d) !! id = Some r → nr_canonical_identifier r ≠ identifier
    end.
Proof.
  intros Ht. unfold nodes_get_by_canonical_identifier. cbv [mbind stm_bind get lift].
  set (F := filter _ _). destruct F as [|[id r] rest] eqn:HF.
  - exists None. split; [done|]. intros id r Hr Hi.
    assert ((id, r) ∈ F) as Hin; [|by rewrite HF in Hin; apply elem_of_nil in Hin].
    apply list_elem_of_filter. split; [done|]. by apply elem_of_map_to_list.
  - assert ((id, r) ∈ F) as [Hi Hr]%list_elem_of_filter by (rewrite HF; left).
    apply elem_of_map_to_list in Hr. cbn in Hi. destruct (typed_nodes _ Ht _ _ Hr) as [Hid Hok].
    rewrite Hi in Hid. subst id. cbn. destruct (row_to_node _ r) as [n|] eqn:Hn; [|done].
    exists (Some n). split; [done|]. by exists r.
Qed.

(** Every word of a sanitized query stands in quotation marks of its own, and
    is made of letters and digits of the text. *)
Lemma sanitize_words `{!UnicodeLaws P N} query :
  ∃ words, sanitize_fts_query query = join " " (quoted <$> words) ∧
    ((sanitize_fts_query query = "") ↔ (words = [])) ∧
    ∀ w, w ∈ words → w ≠ "" ∧ (quote ∉ chars w) ∧
      ∀ c, c ∈ chars w → c ∈ chars query ∧ is_alphanumeric c = true.
Proof.
  unfold sanitize_fts_query.
  set (f := λ c, if is_alphanumeric c || is_whitespace c then c else " ").
  exists (split_whitespace (String.concat "" (f <$> chars query))). split; [done|].
  assert (Forall a_char (f <$> chars query)) as Hchars.
  { apply Forall_fmap. eapply Forall_impl; [apply (chars_are_chars query)|]. intros c Hc. unfold f. cbn.
    destruct (_ || _); [done|apply space_is_char]. }
  split.
  { split; [|by intros ->]. destruct (split_whitespace _) as [|w [|w' ws]]; [done|done|]. done. }
  intros w Hw.
  assert (∀ c, c ∈ chars w → c ∈ chars query ∧ is_alphanumeric c = true) as Hall.
  { intros c Hc. destruct (words_of _ _ _ Hw Hc) as [Hin Hnw]. rewrite chars_concat in Hin by done.
    apply list_elem_of_fmap in Hin as (c' & -> & Hc'). unfold f in *.
    destruct (is_alphanumeric c') eqn:Ha; [by rewrite ?Ha|]. cbn in *.
    destruct (is_whitespace c') eqn:Hs; cbn in *; [congruence|].
    by rewrite space_is_white in Hnw. }
  split_and!.
  - intros ->. by apply (words_not_empty (String.concat "" (f <$> chars query))).
  - intros Hq. apply Hall in Hq as [_ Hq]. by rewrite quote_not_alphanumeric in Hq.
  - done.
Qed.

Lemma g_storage_run {A} (m : tx A) d :
  g_storage m d = match m d with Ok x => Ok x | Err e => Err (GStorage e) end.
Proof. reflexivity. Qed.
(** *** Sources *)

Definition evidence_for (d : db) (assertion : hash32) (e : Evidence) : Prop :=
  ∃ id r, evidence (proj d) !! id = Some r ∧ ev_assertion_id r = assertion ∧ row_to_evidence id r = Ok e.
Definition asserted_on (d : db) (edge : hash32) (a : Assertion) : Prop :=
  ∃ id r, assertions (proj d) !! id = Some r ∧ as_edge_id r = edge ∧ row_to_assertion id r = Ok a.

(** The rows of a table that satisfy a test, read. *)
Lemma table_elem {K V B} `{Countable K} (f : K → V → result StorageError B) (Q : K * V → Prop)
    `{!∀ kv, Decision (Q kv)} (m : gmap K V) l :
  mapM (M:=result StorageError) (uncurry f) (filter Q (map_to_list m)) = Ok l →
  ∀ y, y ∈ l ↔ ∃ k v, m !! k = Some v ∧ Q (k, v) ∧ f k v = Ok y.
Proof.
  intros Hm y. rewrite (mapM_elem _ _ _ Hm). split.
  - intros ([k v] & [HQ Hin]%list_elem_of_filter & Hf). exists k, v. by apply elem_of_map_to_list in Hin.
  - intros (k & v & Hk & HQ & Hf). exists (k, v). split; [|done].
    apply list_elem_of_filter. by rewrite elem_of_map_to_list.
Qed.
Lemma list_evidence_spec a d es d' : assertions_list_evidence a d = Ok (es, d') →
  d' = d ∧ ∀ e, e ∈ es ↔ evidence_for d a e.
Proof.
  unfold assertions_list_evidence. cbv [mbind stm_bind get lift]. destruct (mapM _ _) as [l|] eqn:Hm; [|done].
  intros [= -> <-]. split; [done|].
  exact (table_elem row_to_evidence _ _ _ Hm).
Qed.
Lemma list_by_edge_spec edge d l d' : assertions_list_by_edge edge d = Ok (l, d') →
  d' = d ∧ ∀ a, a ∈ l ↔ asserted_on d edge a.
Proof.
  unfold assertions_list_by_edge. cbv [mbind stm_bind get lift]. destruct (mapM _ _) as [k|] eqn:Hm; [|done].
  intros [= -> <-]. split; [done|].
  exact (table_elem row_to_assertion _ _ _ Hm).
Qed.
Lemma evidence_of_spec assertions d : ∀ es d', evidence_of assertions d = Ok (es, d') →
  d' = d ∧ ∀ e, e ∈ es ↔ ∃ a, a ∈ assertions ∧ evidence_for d (a_id a) e.
Proof.
  induction assertions as [|a rest IH]; intros es d'.
  { intros [= <- <-]. split; [done|]. intros e. split; [by intros ?%elem_of_nil|].
    by intros (? & ?%elem_of_nil & _). }
  cbn. cbv [mbind stm_bind]. destruct (assertions_list_evidence _ _) as [[l d1]|] eqn:Hl; [|done].
  apply list_evidence_spec in Hl as [-> Hl]. destruct (evidence_of rest d) as [[ls d2]|] eqn:Hls; [|done].
  destruct (IH _ _ eq_refl) as [-> Hin]. intros [= <- <-]. split; [done|]. intros e.
  rewrite elem_of_app, Hl, Hin. setoid_rewrite elem_of_cons. naive_solver.
Qed.
Lemma sources_of_spec touching d : ∀ es d', sources_of touching d = Ok (es, d') →
  d' = d ∧ ∀ e, e ∈ es ↔ ∃ edge a, edge ∈ touching ∧ asserted_on d (e_id edge) a ∧ evidence_for d (a_id a) e.
Proof.
  induction touching as [|edge rest IH]; intros es d'.
  { intros [= <- <-]. split; [done|]. intros e. split; [by intros ?%elem_of_nil|].
    by intros (? & ? & ?%elem_of_nil & _). }
  cbn. cbv [mbind stm_bind]. destruct (assertions_list_by_edge _ _) as [[l d1]|] eqn:Hl; [|done].
  apply list_by_edge_spec in Hl as [-> Hl]. destruct (evidence_of l d) as [[ls d2]|] eqn:Hls; [|done].
  apply evidence_of_spec in Hls as [-> Hls]. destruct (sources_of rest d) as [[ms d3]|] eqn:Hms; [|done].
  destruct (IH _ _ eq_refl) as [-> Hin]. intros [= <- <-]. split; [done|]. intros e.
  rewrite elem_of_app, Hls, Hin. setoid_rewrite elem_of_cons. setoid_rewrite Hl. naive_solver.
Qed.
(** The sources of a node are the evidence of the assertions on its edges. *)
Lemma find_sources_spec node d es d' : find_sources node d = Ok (es, d') →
  d' = d ∧ ∀ e, e ∈ es ↔ ∃ id r a, edges (proj d) !! id = Some r ∧
    (ed_subject r = node ∨ ed_object r = node) ∧ asserted_on d id a ∧ evidence_for d (a_id a) e.
Proof.
  unfold find_sources. cbv [mbind stm_bind]. rewrite g_storage_run. cbn [edges_list_touching gets].
  rewrite g_storage_run. destruct (sources_of _ d) as [[l d1]|] eqn:Hl; [|done]. intros [= <- <-].
  apply sources_of_spec in Hl as [-> Hl]. split; [done|]. intros e. rewrite Hl. split.
  - intros (edge & a & ([id r] & -> & [Ht Hr]%list_elem_of_filter)%list_elem_of_fmap & Ha & He).
    apply elem_of_map_to_list in Hr. by exists id, r, a.
  - intros (id & r & a & Hr & Ht & Ha & He). exists (row_to_edge id r), a. split_and!; [|done..].
    apply list_elem_of_fmap. exists (id, r). split; [done|].
    apply list_elem_of_filter. by rewrite elem_of_map_to_list.
Qed.

Lemma row_to_node_id id r n : row_to_node id r = Ok n → n_id n = id.
Proof. unfold row_to_node. intros (md & _ & [= <-])%result_bind_ok. done. Qed.
End search.

(** ** Properties *)

Section properties.
Context `{P : Platform} `{C : Codec} `{CL : !CodecLaws C} `{U : GraphPlatform}.
Context `{N : Unicode} `{NL : !UnicodeLaws P N} `{T : FullText}.

(** The answer to a search: stored nodes, none of them suppressed. *)
Definition listed (d : db) (n : Node) : Prop :=
  ∃ r, nodes (proj d) !! n_id n = Some r ∧ row_to_node (n_id n) r = Ok n ∧
       search_suppressions (ops d) !! n_id n = None.

(** C20: Whatever the text, the query that reaches the full-text index is a
    sequence of non-empty words in quotation marks, each made of letters and
    digits of the text only; a text without any runs no query.  A search reads
    only, gives at most the asked number of nodes and at most a thousand -
    none for a negative number - and never a suppressed one; it fails only if
    the index refuses the query.  An identifier resolves to the one node that
    is stored under it, and to candidates only when there is none. *)
Theorem search_guarded d (Hd : reachable d) :
  (∀ text, ∃ words, sanitize_fts_query text = join " " (quoted <$> words) ∧
     ((sanitize_fts_query text = "") ↔ (words = [])) ∧
     ∀ w, w ∈ words → w ≠ "" ∧ (quote ∉ chars w) ∧
       ∀ c, c ∈ chars w → c ∈ chars text ∧ is_alphanumeric c = true) ∧
  (∀ text limit,
     match search text limit d with
     | Ok (ns, d') => d' = d ∧ (Z.of_nat (length ns) ≤ Z.min (Z.max limit 0) 1000)%Z ∧
         (∀ n, n ∈ ns → listed d n) ∧ (sanitize_fts_query text = "" → ns = [])
     | Err _ => is_ok (fts_match (sanitize_fts_query text) (nodes (proj d))) = false
     end) ∧
  (∀ value, let id := NodeId_from_canonical_identifier (canonicalize_value value).1 in
     match resolve value d with
     | Ok (Found n, d') => d' = d ∧ n_id n = id ∧ ∃ r, nodes (proj d) !! id = Some r ∧
         nr_canonical_identifier r = (canonicalize_value value).1 ∧ row_to_node id r = Ok n
     | Ok (Candidates ns, d') => d' = d ∧ ns ≠ [] ∧ length ns ≤ 10 ∧ (∀ n, n ∈ ns → listed d n) ∧
         ∀ i r, nodes (proj d) !! i = Some r → nr_canonical_identifier r ≠ (canonicalize_value value).1
     | Ok (NothingFound, d') => d' = d ∧
         ∀ i r, nodes (proj d) !! i = Some r → nr_canonical_identifier r ≠ (canonicalize_value value).1
     | Err _ => is_ok (fts_match (sanitize_fts_query value) (nodes (proj d))) = false
     end).
Proof.
  apply reachable_inv in Hd as [_ Ht%restores_typed].
  assert (∀ id r n, shown_row d (id, r) → row_to_node id r = Ok n → listed d n) as Hlisted.
  { intros id r n [Hr Hs] Hn. exists r. rewrite (row_to_node_id _ _ _ Hn). done. }
  split_and!; [apply sanitize_words| |].
  - intros text limit. unfold search. destruct (bool_decide_reflect (sanitize_fts_query text = "")) as [H0|Hq].
    { cbn. split_and!; [done|lia| |done]. by intros n ?%elem_of_nil. }
    rewrite g_storage_run.
    pose proof (nodes_search_spec (sanitize_fts_query text) (Z.min (Z.max limit 0) MAX_SEARCH_LIMIT) d ltac:(unfold MAX_SEARCH_LIMIT; lia)) as Hs.
    destruct (nodes_search _ _ d) as [[ns d']|e]; [|by apply Hs].
    destruct Hs as (-> & Hl & Hns). split_and!; [done|done| |done].
    intros n (id & r & Hrow & Hn)%Hns. by eapply Hlisted.
  - intros value. cbv zeta. unfold resolve. destruct (canonicalize_value value) as [identifier kind]. cbn [fst].
    destruct (by_identifier_spec identifier d Ht) as (found & Hrun & Hfound).
    cbv [mbind stm_bind]. rewrite g_storage_run, Hrun. destruct found as [n|].
    { destruct Hfound as (r & Hr & Hi & Hn). cbn. split_and!; [done|by apply row_to_node_id in Hn|].
      by exists r. }
    destruct (bool_decide_reflect (sanitize_fts_query value = "")) as [H0|Hq]; [done|].
    rewrite g_storage_run. pose proof (nodes_search_spec (sanitize_fts_query value) 10 d ltac:(lia)) as Hs.
    destruct (nodes_search _ _ d) as [[ns d']|e]; [|by apply Hs].
    destruct Hs as (-> & Hl & Hns). cbn. destruct (bool_decide_reflect (ns = [])) as [->|Hne]; [done|].
    split_and!; [done|done|lia| |done]. intros n (id & r & Hrow & Hn)%Hns. by eapply Hlisted.
Qed.
End properties.


(** ** An example: hostile text *)

(** ASCII, with the white space of the toy platform. *)
Module ToyText.
Fixpoint chars_of (s : string) : list string :=
  match s with "" => [] | String a s => String a "" :: chars_of s end.
Definition one (p : ascii → bool) (c : string) : bool :=
  match c with String a "" => p a | _ => false end.
Definition letter_or_digit (a : ascii) : bool :=
  let n := N_of_ascii a in
  N.leb 48 n && N.leb n 57 || N.leb 65 n && N.leb n 90 || N.leb 97 n && N.leb n 122.
#[export] Instance unicode : Unicode := {|
  chars := chars_of; is_alphanumeric := one letter_or_digit; is_whitespace := one Toy.is_space |}.

Lemma chars_of_app s t : chars_of (s +:+ t) = chars_of s ++ chars_of t.
Proof. induction s as [|a s IH]; [done|]. rewrite string_app_cons. cbn. by rewrite IH. Qed.
Lemma chars_of_concat l : Forall a_char l → chars_of (String.concat "" l) = l.
Proof.
  induction 1 as [|c l Hc Hl IH]; [done|]. destruct l as [|c' l]; [exact Hc|].
  change (String.concat "" (c :: c' :: l)) with (c +:+ ("" +:+ String.concat "" (c' :: l))).
  rewrite !chars_of_app, IH. by rewrite Hc.
Qed.
(** A word under construction holds no white space. *)
Lemma toy_words_of s : ∀ cur w, w ∈ Toy.words cur s →
  w ≠ "" ∧ ((∀ c, c ∈ chars_of cur → one Toy.is_space c = false) →
    ∀ c, c ∈ chars_of w → (c ∈ chars_of cur ∨ c ∈ chars_of s) ∧ one Toy.is_space c = false).
Proof.
  assert (∀ cur w : string, w ∈ (if decide (cur = "") then [] else [cur]) → w = cur ∧ w ≠ "") as Hflush.
  { intros cur w. case_decide; [by intros ?%elem_of_nil|]. by intros ->%list_elem_of_singleton. }
  induction s as [|a s IH]; intros cur w; cbn.
  - intros [-> Hw]%Hflush. split; [done|]. intros Hc c Hin. split; [by left|by apply Hc].
  - destruct (Toy.is_space a) eqn:Ha.
    + intros [[-> Hw]%Hflush | Hw]%elem_of_app.
      * split; [done|]. intros Hc c Hin. split; [by left|by apply Hc].
      * apply IH in Hw as [Hne Hw]. split; [done|]. intros _ c Hin.
        destruct (Hw ltac:(by intros ? ?%elem_of_nil) c Hin) as [[H%elem_of_nil | H] Hs]; [done|].
        split; [right; by right|done].
    + intros [Hne Hw]%IH. split; [done|]. intros Hc c Hin.
      destruct (Hw ltac:(intros c'; rewrite chars_of_app; intros [H | ->%list_elem_of_singleton]%elem_of_app;
        [by apply Hc|exact Ha]) c Hin) as [H Hs]. split; [|done].
      rewrite chars_of_app in H. destruct H as [[H | ->%list_elem_of_singleton]%elem_of_app | H];
        [by left|right; left|right; by right].
Qed.
#[export] Instance unicode_laws : UnicodeLaws Toy.platform unicode.
Proof.
  split; try done.
  - intros s. induction s as [|a s IH]; by constructor.
  - exact chars_of_concat.
  - intros [|a [|b s]]; [done| |done]. by destruct a as [[][][][][][][][]].
  - intros s Hs. by apply toy_words_of in Hs as [? _].
  - intros s w c Hw Hc. apply toy_words_of in Hw as [_ Hw].
    destruct (Hw ltac:(by intros ? ?%elem_of_nil) c Hc) as [[H%elem_of_nil | H] Hs]; done.
Qed.
End ToyText.

Section witnesses.
#[local] Existing Instance Toy.platform.
#[local] Existing Instance demo_codec.
#[local] Existing Instance ToyText.unicode.
#[local] Existing Instance ToyGraph.plain_urls.
(** An index that takes every node for a hit. *)
#[local] Instance every_node : FullText := {| fts_match := λ _ m, Ok (map_to_list m).*1 |}.

Example hostile_text_sanitized :
  sanitize_fts_query ("name:x" +:+ quote +:+ " OR NEAR(a, b)*")
  = join " " (quoted <$> ["name"; "x"; "OR"; "NEAR"; "a"; "b"]).
Proof. vm_compute. reflexivity. Qed.

(** The node that alice wrote about is found by its URL, and a search for
    everything with a negative limit gives nothing. *)
Lemma search_guarded_witness :
  (∃ n, resolve " https://example.org/" asserted_db = Ok (Found n, asserted_db) ∧ n_id n = page) ∧
  search "everything" (-1) asserted_db = Ok ([], asserted_db).
Proof.
  destruct (@search_guarded Toy.platform demo_codec (ToyCodec.codec_laws _) ToyGraph.plain_urls ToyText.unicode
    ToyText.unicode_laws every_node asserted_db asserted_reachable) as (_ & Hsearch & Hres).
  split.
  - specialize (Hres " https://example.org/"). cbv zeta in Hres.
    assert ((canonicalize_value " https://example.org/").1 = "url:https://example.org/") as Hid by (vm_compute; reflexivity).
    rewrite Hid in Hres. fold page in Hres.
    assert (match resolve " https://example.org/" asserted_db with Ok (Found _, _) => true | _ => false end = true)
      as Hfound by (vm_compute; reflexivity).
    destruct (resolve _ _) as [[[n|ns|] d']|e]; try discriminate Hfound.
    destruct Hres as (-> & Hn & _). exists n. split; [reflexivity|exact Hn].
  - specialize (Hsearch "everything" (-1)%Z).
    destruct (search _ _ _) as [[ns d']|e].
    + destruct Hsearch as (-> & Hl & _). destruct ns; [reflexivity|cbn in Hl; lia].
    + cbn in Hsearch. discriminate.
Defined.
End witnesses.
