(* ===== verification/Reads.v ===== *)
(** * Reading the tables never fails

    The repository functions parse what they read: text columns into
    enumerations, JSON columns into values.  On a database the peer can reach
    every one of these reads succeeds, because the rows are what the projector
    once wrote ([Typing.v], [Ledger.v]). *)

From S2P Require Import Prelude Core Envelope Store Projector EventLog Frame Scenario Chain Replay Service Graph Rebuild Typing Ledger Queries Search.

(** What the code relies on: [serde_json] reads back the text it wrote of a
    value that came out of it - here the metadata of an evidence event, which
    nests less deep than the event it was read from. *)
Class MetadataJson `(C : Codec) : Prop :=
  metadata_json t e q text : signed_from_slice t = Ok e → payload (unsigned e) = AddEvidence q →
    json_to_string (build_evidence_metadata (ae_pinned_cid q) (ae_metadata q)) = Ok text →
    is_ok (json_from_str text) = true.

Section reads.
Context `{P : Platform} `{C : Codec} `{CL : !CodecLaws C} `{MJ : !MetadataJson C}.

Definition evidence_reads (p : projection) : Prop :=
  map_Forall (λ id r, is_ok (row_to_evidence id r) = true) (evidence p).

(** What is told by first words was said. *)
Lemma told_once {V} (say : entry → option V) j v : told (once say) j = Some v → ∃ x, x ∈ j ∧ say x = Some v.
Proof.
  unfold told. induction j as [|x j IH] using rev_ind; [done|]. rewrite fold_left_app. cbn.
  destruct (fold_left _ j None) as [w|] eqn:Hw; cbn.
  - intros [= ->]. destruct IH as (y & Hy & ?); [done|]. exists y. rewrite elem_of_app. by split; [left|].
  - intros Hv. exists x. rewrite elem_of_app, list_elem_of_singleton. by split; [right|].
Qed.
Lemma said_evidence_reads k x v row : entry_of row = Some x → evidence_said k x = Some v →
  ∀ id, is_ok (row_to_evidence id v) = true.
Proof.
  unfold entry_of. destruct (signed_from_slice _) as [signed|] eqn:Hs; [|done]. intros [= <-]. cbn [evidence_said].
  destruct (payload (unsigned signed)) as [|q| | | | | | | |] eqn:Hq; try done.
  intros (b & _ & (type & _ & (text & Ht & Hrow)%bind_Some)%bind_Some)%bind_Some id.
  case_decide; [|done]. injection Hrow as <-. destruct (json_to_string _) as [text'|] eqn:Hj; [|done]. injection Ht as ->.
  unfold row_to_evidence, parse_column, of_text. cbn [ev_evidence_type ev_metadata].
  change (EvidenceType_as_str type) with (as_str type). rewrite parse_as_str. cbn.
  pose proof (metadata_json _ _ _ _ Hs Hq Hj) as Hok. by destruct (json_from_str text).
Qed.
Lemma reachable_evidence_reads d : reachable d → evidence_reads (proj d).
Proof.
  intros [_ [Ht _]%restores_tells]%reachable_inv id r Hr. rewrite (tells_evidence _ _ Ht) in Hr.
  apply fmap_Some in Hr as (v & (x & (row & _ & He)%list_elem_of_omap & Hsay)%told_once & ->).
  pose proof (said_evidence_reads _ _ _ _ He Hsay id) as Hok. case_decide; [|done].
  revert Hok. unfold row_to_evidence. cbn. by destruct (parse_column _ _), (of_text _).
Qed.

(** A list of rows of a table whose rows all read. *)
Lemma mapM_ok {A B E} (f : A → result E B) l :
  (∀ a, a ∈ l → is_ok (f a) = true) → is_ok (mapM (M:=result E) f l) = true.
Proof.
  induction l as [|a l IH]; intros H; [done|]. cbn. pose proof (H a ltac:(left)) as Ha.
  destruct (f a); [cbn|done]. specialize (IH (λ x Hx, H x ltac:(by right))). by destruct (mapM f l).
Qed.
Lemma table_reads {K V B} `{Countable K} (f : K → V → result StorageError B) (Q : K * V → Prop)
    `{!∀ kv, Decision (Q kv)} (m : gmap K V) (d : db) :
  map_Forall (λ k v, is_ok (f k v) = true) m →
  is_ok (lift (mapM (M:=result StorageError) (uncurry f) (filter Q (map_to_list m))) d) = true.
Proof.
  intros Hm. rewrite lift_ok. apply mapM_ok. intros [k v] [_ Hkv%elem_of_map_to_list]%list_elem_of_filter.
  by apply Hm.
Qed.
Lemma first_reads {K V B} `{Countable K} (f : K → V → result StorageError B) (Q : K * V → Prop)
    `{!∀ kv, Decision (Q kv)} (m : gmap K V) (d : db) :
  map_Forall (λ k v, is_ok (f k v) = true) m →
  is_ok (lift (transpose (uncurry f <$> head (filter Q (map_to_list m)))) d) = true.
Proof.
  intros Hm. rewrite lift_ok. apply transpose_ok. intros [k v] Hh.
  assert ((k, v) ∈ filter Q (map_to_list m)) as [_ Hkv%elem_of_map_to_list]%list_elem_of_filter
    by (destruct (filter Q _); [done|injection Hh as ->; by left]).
  by apply Hm.
Qed.
End reads.

(** ** Properties *)

Section properties.
Context `{P : Platform} `{C : Codec} `{CL : !CodecLaws C} `{MJ : !MetadataJson C} `{T : FullText}.

(** The reads of the repositories that parse rows. *)
Record readable (d : db) : Prop := {
  reads_node id : is_ok (nodes_get_by_id id d) = true;
  reads_identifier s : is_ok (nodes_get_by_canonical_identifier s d) = true;
  reads_found query limit : is_ok (fts_match query (nodes (proj d))) = true →
    is_ok (nodes_search query limit d) = true;
  reads_aliases id : is_ok (nodes_list_aliases id d) = true;
  reads_actor id : is_ok (actors_get_by_id id d) = true;
  reads_named name type : is_ok (actors_find_by_name_and_type name type d) = true;
  reads_key k : is_ok (actors_find_active_key k d) = true;
  reads_assertion id : is_ok (assertions_get_by_id id d) = true;
  reads_claims edge : is_ok (assertions_list_by_edge edge d) = true;
  reads_evidence id : is_ok (assertions_list_evidence id d) = true }.

(** C14: The tables of every reachable database are well-typed and never fail to
    read.  Each row refers only to rows that exist, nodes and edges are stored
    under the identifiers their content determines, and every row parses back
    into the type it was stored from, the metadata of nodes, actors and
    evidence included.  So no read of nodes (by id, by identifier, by text the
    index can search), aliases, actors (by id, by name), API keys, assertions
    (by id, of an edge) or evidence ever fails with a storage error, redacted
    rows included. *)
Theorem reachable_typed d :
  reachable d → typed (proj d) ∧ evidence_reads (proj d) ∧ readable d.
Proof.
  intros Hd. pose proof (reachable_evidence_reads d Hd) as He.
  pose proof Hd as [_ Ht%restores_typed]%reachable_inv. split_and!; [done|done|].
  assert (map_Forall (λ id r, is_ok (row_to_node id r) = true) (nodes (proj d))) as Hn
    by (eapply map_Forall_impl; [apply (typed_nodes _ Ht)|by intros ? ? []]).
  split; intros.
  - by apply node_read_ok.
  - by apply first_reads.
  - unfold nodes_search. cbv [mbind stm_bind get]. destruct (fts_match _ _) as [hits|]; [|done].
    cbn [lift map_err]. rewrite lift_ok. apply mapM_ok. intros [k r] Hin.
    assert ((k, r) ∈ shown_rows d hits) as [_ Hr]%list_elem_of_filter.
    { unfold sql_limit in Hin. destruct (Z.ltb _ _); [done|]. by eapply elem_of_take in Hin as (i & Hi%list_elem_of_lookup_2 & _). }
    apply list_elem_of_omap in Hr as (k' & _ & Hr). cbv beta in Hr.
    destruct (nodes (proj d) !! k') as [r'|] eqn:Hk; [|done]. injection Hr as <- <-. by apply (Hn k').
  - apply table_reads. eapply map_Forall_impl; [apply (typed_aliases _ Ht)|].
    intros k r [_ [x Hx]]. unfold row_to_alias, parse_column. by rewrite Hx.
  - by apply actor_read_ok.
  - apply first_reads, (typed_actors _ Ht).
  - by apply key_read_ok.
  - by apply assertion_read_ok.
  - apply table_reads. eapply map_Forall_impl; [apply (typed_assertions _ Ht)|by intros ? ? (_ & _ & ?)].
  - by apply table_reads.
Qed.
End properties.

Section witnesses.
#[local] Existing Instance Toy.platform.
#[local] Existing Instance demo_codec.
#[local] Instance demo_metadata : MetadataJson demo_codec.
Proof. intros t e q text _ _ _. cbn. by case_decide. Defined.
#[local] Instance every_row : FullText := {| fts_match := λ _ m, Ok (map_to_list m).*1 |}.

(** Two nodes are found and the evidence of alice's assertion is read, after it
    was redacted too. *)
Lemma reachable_typed_witness :
  (length ∘ fst <$> to_option (nodes_search "" 10 redacted_db)) = Some 2 ∧
  is_ok (nodes_search "" 10 redacted_db) = true ∧
  (length ∘ fst <$> to_option (assertions_list_evidence (id_of e2) redacted_db)) = Some 1 ∧
  is_ok (assertions_list_evidence (id_of e2) redacted_db) = true.
Proof.
  destruct (@reachable_typed Toy.platform demo_codec (ToyCodec.codec_laws _) demo_metadata every_row
    redacted_db redacted_reachable) as (_ & _ & H).
  split; [vm_compute; reflexivity|]. split; [apply (reads_found _ H); reflexivity|].
  split; [vm_compute; reflexivity|]. apply (reads_evidence _ H).
Defined.
End witnesses.
