(* ===== verification/RateLimit.v ===== *)
(** * Rate limits

    [oag-sync/src/rate_limit.rs]: one fixed window for all callers of the sync
    endpoints.  [oag-api/src/rate_limit.rs]: a fixed window per key, in a map
    that is swept of expired windows once it has grown past a threshold.
    Instants are nanoseconds of the monotonic clock. *)

From stdpp Require Import functions.
From S2P Require Import Prelude.

Definition WINDOW : Z := 60 * 10 ^ 9.
Definition SYNC_MAX_REQUESTS_PER_WINDOW : Z := 600.
Definition MAX_REQUESTS_PER_WINDOW : Z := 120.
Definition SWEEP_THRESHOLD : nat := Z.to_nat 10000.

(** A window: when it started and the requests counted in it, a [u32]. *)
Record window := Win { started : Z; count : Z }.

Definition expired (size now : Z) (w : window) : bool := Z.ltb size (now - started w).

(** The body shared by both [check]s: start over if expired, count, decide. *)
Definition tick (size limit now : Z) (w : window) : bool * window :=
  let w := if expired size now w then Win now 0 else w in
  let c := wrap_u32 (count w + 1) in
  (Z.leb c limit, Win (started w) c).

(** ** [SyncRateLimiter] *)

Definition sync_check (now : Z) (w : window) : bool * window :=
  tick WINDOW SYNC_MAX_REQUESTS_PER_WINDOW now w.

(** ** [RateLimiter] *)

Record RateLimiter := Limiter {
  window_size : Z; max_requests : Z; sweep_threshold : nat; windows : gmap string window }.
Definition RateLimiter_default : RateLimiter :=
  Limiter WINDOW MAX_REQUESTS_PER_WINDOW SWEEP_THRESHOLD ∅.

Definition with_windows (l : RateLimiter) (m : gmap string window) : RateLimiter :=
  Limiter (window_size l) (max_requests l) (sweep_threshold l) m.

Definition sweep (now : Z) (l : RateLimiter) : RateLimiter :=
  if sweep_threshold l <? size (windows l)
  then with_windows l (filter (λ kw, expired (window_size l) now kw.2 = false) (windows l))
  else l.

Definition check (now : Z) (key : string) (l : RateLimiter) : bool * RateLimiter :=
  let l := sweep now l in
  let '(allowed, w) := tick (window_size l) (max_requests l) now
                            (default (Win now 0) (windows l !! key)) in
  (allowed, with_windows l (<[key := w]> (windows l))).

(** [rate_limit_middleware]: the key is the Authorization header as it is. *)
Definition rate_limit_middleware (now : Z) (authorization : option string) (l : RateLimiter) :
    bool * RateLimiter :=
  check now (default "anonymous" authorization) l.

(** ** Runs *)

(** The decisions on a sequence of requests, by one window ... *)
Fixpoint run (size limit : Z) (w : window) (ts : list Z) : list bool :=
  match ts with
  | [] => []
  | t :: ts => let '(b, w) := tick size limit t w in b :: run size limit w ts
  end.
(** ... and by a keyed limiter. *)
Fixpoint run_keyed (l : RateLimiter) (rs : list (Z * string)) : list bool :=
  match rs with
  | [] => []
  | (t, k) :: rs => let '(b, l) := check t k l in b :: run_keyed l rs
  end.

(** Instants never decrease, from [t0] on. *)
Fixpoint monotone (t0 : Z) (ts : list Z) : Prop :=
  match ts with [] => True | t :: ts => (t0 ≤ t)%Z ∧ monotone t ts end.

(** The requests of one key, with the decisions made on them. *)
Definition of_key {A} (k : string) (rs : list (Z * string)) (ds : list A) : list (Z * A) :=
  (λ rd : Z * string * A, (rd.1.1, rd.2)) <$> filter (λ rd, rd.1.2 = k) (zip rs ds).

(** How many of the requests at times [ts] within [[a, b]] were allowed. *)
Fixpoint allowed_within (a b : Z) (ts : list Z) (ds : list bool) : Z :=
  match ts, ds with
  | t :: ts, d :: ds =>
      (if d && Z.leb a t && Z.leb t b then 1 else 0) + allowed_within a b ts ds
  | _, _ => 0
  end.

(** ** One window *)

Section one_window.
Context (size limit : Z).

(** A window that has expired decides like one that does not exist. *)
Lemma tick_expired now w : expired size now w = true → tick size limit now w = tick size limit now (Win now 0).
Proof.
  intros H. unfold tick. rewrite H. unfold expired. cbn [started].
  destruct (Z.ltb _ _) eqn:E; [done|]. done.
Qed.
Lemma expired_later w now now' : (now ≤ now')%Z → expired size now w = true → expired size now' w = true.
Proof. unfold expired. rewrite !Z.ltb_lt. lia. Qed.

Lemma tick_live now w : (0 ≤ size)%Z → expired size now (tick size limit now w).2 = false.
Proof.
  intros Hsize. unfold tick. destruct (expired size now w) eqn:E; cbn; [|exact E].
  unfold expired. cbn. apply Z.ltb_ge. lia.
Qed.

(** No request after the interval counts. *)
Lemma allowed_within_after a b t0 ts ds : (b < t0)%Z → monotone t0 ts → allowed_within a b ts ds = 0%Z.
Proof.
  revert t0 ds. induction ts as [|t ts IH]; intros t0 [|d ds] Hb; cbn; try done.
  intros [Ht Hm]. rewrite (IH t ds) by (done || lia).
  destruct (Z.leb t b) eqn:E; [apply Z.leb_le in E; lia|]. by rewrite andb_false_r.
Qed.

Context (Hlimit : (0 ≤ limit)%Z).

(** The interval ends before the current window can expire: what is left of
    its budget bounds what is still allowed. *)
Lemma run_in_window a b t0 w ts :
  (b ≤ started w + size)%Z → monotone t0 ts →
  (0 ≤ count w)%Z → (count w + Z.of_nat (length ts) < 2 ^ 32)%Z →
  (allowed_within a b ts (run size limit w ts) ≤ Z.max 0 (limit - count w))%Z.
Proof.
  revert t0 w. induction ts as [|t ts IH]; intros t0 w Hb Hm Hc Hn; cbn [run allowed_within]; [lia|].
  destruct Hm as [Ht Hm]. cbn [length] in Hn. unfold tick. destruct (expired size t w) eqn:He.
  - unfold expired in He. apply Z.ltb_lt in He. cbn [allowed_within].
    rewrite (allowed_within_after a b t) by (done || lia).
    destruct (Z.leb t b) eqn:E; [apply Z.leb_le in E; lia|]. rewrite andb_false_r. lia.
  - rewrite wrap_u32_small by lia.
    pose proof (IH t (Win (started w) (count w + 1)) Hb Hm ltac:(cbn; lia) ltac:(cbn; lia)) as IH'.
    cbn [count] in IH'. destruct (Z.leb (count w + 1) limit) eqn:El; cbn [andb].
    + apply Z.leb_le in El. destruct (_ && _); lia.
    + apply Z.leb_gt in El. lia.
Qed.

(** From its start on, an interval no longer than a window meets what is left
    of the current window and at most one more. *)
Lemma run_begun a b t0 w ts :
  (b - a ≤ size)%Z → (a ≤ t0)%Z → monotone t0 ts →
  (0 ≤ count w)%Z → (count w + Z.of_nat (length ts) < 2 ^ 32)%Z →
  (allowed_within a b ts (run size limit w ts) ≤ Z.max 0 (limit - count w) + limit)%Z.
Proof.
  revert t0 w. induction ts as [|t ts IH]; intros t0 w Hb Ha Hm Hc Hn; cbn [run allowed_within]; [lia|].
  destruct Hm as [Ht Hm]. cbn [length] in Hn. unfold tick. destruct (expired size t w) eqn:He.
  - rewrite wrap_u32_small by (cbn [count]; lia). cbn [started count]. change (0 + 1)%Z with 1%Z.
    pose proof (run_in_window a b t (Win t 1) ts ltac:(cbn; lia) Hm ltac:(cbn; lia) ltac:(cbn; lia)) as H.
    cbn [count] in H. destruct (Z.leb 1 limit) eqn:El; cbn [andb].
    + apply Z.leb_le in El. destruct (_ && _); lia.
    + apply Z.leb_gt in El. lia.
  - rewrite wrap_u32_small by lia.
    pose proof (IH t (Win (started w) (count w + 1)) Hb ltac:(lia) Hm ltac:(cbn; lia) ltac:(cbn; lia)) as H.
    cbn [count] in H. destruct (Z.leb (count w + 1) limit) eqn:El; cbn [andb].
    + apply Z.leb_le in El. destruct (_ && _); lia.
    + apply Z.leb_gt in El. lia.
Qed.

Lemma tick_window t w :
  (0 ≤ count w)%Z → (count w + 1 < 2 ^ 32)%Z →
  let w' := (tick size limit t w).2 in (0 ≤ count w' ≤ count w + 1)%Z.
Proof.
  intros Hc Hn. unfold tick. destruct (expired size t w); cbn; rewrite wrap_u32_small by (cbn; lia); cbn; lia.
Qed.

Lemma run_burst a b t0 w ts :
  (b - a ≤ size)%Z → monotone t0 ts →
  (0 ≤ count w)%Z → (count w + Z.of_nat (length ts) < 2 ^ 32)%Z →
  (allowed_within a b ts (run size limit w ts) ≤ 2 * limit)%Z.
Proof.
  revert t0 w. induction ts as [|t ts IH]; intros t0 w Hb Hm Hc Hn; [cbn; lia|].
  destruct (Z.leb a t) eqn:Ea.
  - apply Z.leb_le in Ea. destruct Hm as [_ Hm].
    pose proof (run_begun a b t w (t :: ts) Hb Ea (conj (Z.le_refl t) Hm) Hc Hn). lia.
  - destruct Hm as [_ Hm]. cbn [run]. cbn [length] in Hn.
    pose proof (tick_window t w Hc ltac:(lia)) as Hw. destruct (tick size limit t w) as [d w'].
    cbn [allowed_within snd] in *. rewrite Ea, andb_false_r. cbn [andb].
    apply (IH t); [done|done|lia|lia].
Qed.
End one_window.

(** ** Sweeping changes no decision *)

Section keyed.
Context (l0 : RateLimiter).
Abbreviation size0 := (window_size l0).
Abbreviation limit0 := (max_requests l0).

(** The windows of a swept map, against one window per key that is never
    forgotten: the same, or missing because expired by [now]. *)
Definition shadows (now : Z) (m : gmap string window) (full : string → option window) : Prop :=
  ∀ k, m !! k = full k ∨ (m !! k = None ∧ ∃ w, full k = Some w ∧ expired size0 now w = true).

(** The unswept limiter: a window for every key there has been. *)
Definition full_check (now : Z) (key : string) (full : string → option window) :
    bool * (string → option window) :=
  let '(b, w) := tick size0 limit0 now (default (Win now 0) (full key)) in
  (b, <[key := Some w]> full).

Lemma shadows_later now now' m full : (now ≤ now')%Z → shadows now m full → shadows now' m full.
Proof.
  intros Hn Hs k. destruct (Hs k) as [?|(? & w & ? & ?)]; [by left|right].
  split; [done|]. exists w. split; [done|]. by eapply expired_later.
Qed.

Lemma sweep_shadows now l full :
  window_size l = size0 → shadows now (windows l) full → shadows now (windows (sweep now l)) full.
Proof.
  intros Hl Hs k. unfold sweep. destruct (_ <? _); [|apply Hs]. cbn [with_windows windows]. rewrite Hl.
  rewrite map_lookup_filter. destruct (windows l !! k) as [w|] eqn:Hk; cbn.
  - destruct (Hs k) as [He|(Hn & _)]; [|congruence]. rewrite Hk in He.
    case_guard as G; cbn; [by left|]. right. split; [done|]. exists w. split; [done|].
    by destruct (expired size0 now w).
  - specialize (Hs k). rewrite Hk in Hs. done.
Qed.

Lemma sweep_config now l :
  window_size (sweep now l) = window_size l ∧ max_requests (sweep now l) = max_requests l ∧
  sweep_threshold (sweep now l) = sweep_threshold l.
Proof. unfold sweep. by destruct (_ <? _). Qed.

Lemma tick_shadows now k m full :
  shadows now m full →
  tick size0 limit0 now (default (Win now 0) (m !! k)) =
  tick size0 limit0 now (default (Win now 0) (full k)).
Proof.
  intros Hs. destruct (Hs k) as [->|(-> & w & -> & He)]; [done|]. cbn. symmetry. by apply tick_expired.
Qed.

Lemma check_shadows now k l full :
  window_size l = size0 → max_requests l = limit0 → shadows now (windows l) full →
  let '(b, l') := check now k l in
  let '(b', full') := full_check now k full in
  b = b' ∧ window_size l' = size0 ∧ max_requests l' = limit0 ∧ shadows now (windows l') full'.
Proof.
  intros Hw Hm Hs. unfold check, full_check.
  destruct (sweep_config now l) as (Ew & Em & _). rewrite Ew, Em, Hw, Hm.
  assert (shadows now (windows (sweep now l)) full) as Hs' by (by apply sweep_shadows).
  rewrite (tick_shadows now k _ full) by done.
  destruct (tick _ _ _ _) as [b w]. cbn. rewrite Ew, Em. split_and!; try done.
  intros k'. destruct (decide (k' = k)) as [->|Hne].
  - left. by rewrite lookup_insert_eq, fn_lookup_insert.
  - rewrite lookup_insert_ne, fn_lookup_insert_ne by done. apply Hs'.
Qed.

(** The decisions of the unswept limiter on one key are those of the window
    it has, or of a new one. *)
Fixpoint run_full (full : string → option window) (rs : list (Z * string)) : list bool :=
  match rs with
  | [] => []
  | (t, k) :: rs => let '(b, full) := full_check t k full in b :: run_full full rs
  end.

Lemma run_keyed_full t0 l full rs :
  window_size l = size0 → max_requests l = limit0 → shadows t0 (windows l) full →
  monotone t0 rs.*1 → run_keyed l rs = run_full full rs.
Proof.
  revert t0 l full. induction rs as [|[t k] rs IH]; intros t0 l full Hw Hm Hs; [done|].
  cbn [run_keyed run_full monotone fmap list_fmap fst]. intros [Ht Hmono].
  pose proof (check_shadows t k l full Hw Hm (shadows_later _ _ _ _ Ht Hs)) as H.
  destruct (check t k l) as [b l'], (full_check t k full) as [b' full'].
  destruct H as (-> & Hw' & Hm' & Hs'). f_equal. by apply (IH t).
Qed.

Definition times_of (k : string) (rs : list (Z * string)) : list Z :=
  (filter (λ r, r.2 = k) rs).*1.

(** One request: the key's own, or another's. *)
Lemma of_key_same k t rs (d : bool) ds : of_key k ((t, k) :: rs) (d :: ds) = (t, d) :: of_key k rs ds.
Proof. unfold of_key. cbn [zip zip_with]. by rewrite filter_cons_True. Qed.
Lemma of_key_other k k' t rs (d : bool) ds :
  k' ≠ k → of_key k ((t, k') :: rs) (d :: ds) = of_key k rs ds.
Proof. intros. unfold of_key. cbn [zip zip_with]. by rewrite filter_cons_False. Qed.
Lemma times_of_same k t rs : times_of k ((t, k) :: rs) = t :: times_of k rs.
Proof. unfold times_of. by rewrite filter_cons_True. Qed.
Lemma times_of_other k k' t rs : k' ≠ k → times_of k ((t, k') :: rs) = times_of k rs.
Proof. intros. unfold times_of. by rewrite filter_cons_False. Qed.
Lemma run_full_cons full t k rs b w :
  tick size0 limit0 t (default (Win t 0) (full k)) = (b, w) →
  run_full full ((t, k) :: rs) = b :: run_full (<[k := Some w]> full) rs.
Proof. intros H. cbn [run_full]. unfold full_check. by rewrite H. Qed.

Lemma run_full_key k w full rs :
  full k = Some w →
  (of_key k rs (run_full full rs)).*2 = run size0 limit0 w (times_of k rs).
Proof.
  revert w full. induction rs as [|[t k'] rs IH]; intros w full Hk; [done|].
  destruct (tick size0 limit0 t (default (Win t 0) (full k'))) as [b w'] eqn:E.
  rewrite (run_full_cons _ _ _ _ _ _ E). destruct (decide (k' = k)) as [->|Hne].
  - rewrite of_key_same, times_of_same. rewrite Hk in E. cbn in E.
    cbn [fmap list_fmap snd run]. unfold tick in *. injection E as <- <-. f_equal.
    apply IH. apply fn_lookup_insert.
  - rewrite of_key_other, times_of_other by done. apply IH. by rewrite fn_lookup_insert_ne.
Qed.

Lemma run_full_fresh k full rs :
  full k = None →
  (of_key k rs (run_full full rs)).*2 =
  match times_of k rs with [] => [] | t :: ts => run size0 limit0 (Win t 0) (t :: ts) end.
Proof.
  revert full. induction rs as [|[t k'] rs IH]; intros full Hk; [done|].
  destruct (decide (k' = k)) as [->|Hne].
  - rewrite times_of_same.
    pose proof (run_full_key k (Win t 0) (<[k := Some (Win t 0)]> full)
                  ((t, k) :: rs) (fn_lookup_insert _ _ _)) as H.
    rewrite times_of_same in H. rewrite <-H.
    destruct (tick size0 limit0 t (Win t 0)) as [b w'] eqn:E.
    rewrite (run_full_cons full t k rs b w') by (by rewrite Hk).
    rewrite (run_full_cons (<[k := Some (Win t 0)]> full) t k rs b w')
      by (by rewrite fn_lookup_insert).
    rewrite !of_key_same. cbn [fmap list_fmap snd]. f_equal.
    by rewrite !(run_full_key k w') by (by rewrite fn_lookup_insert).
  - destruct (tick size0 limit0 t (default (Win t 0) (full k'))) as [b w'] eqn:E.
    rewrite (run_full_cons _ _ _ _ _ _ E).
    rewrite of_key_other, times_of_other by done. apply IH. by rewrite fn_lookup_insert_ne.
Qed.
End keyed.

(** What sweeping is for: past the threshold only live windows are kept. *)
Lemma check_size now k l :
  (0 ≤ window_size l)%Z →
  let l' := (check now k l).2 in
  size (windows l') ≤ S (sweep_threshold l) ∨
  ∀ k' w, windows l' !! k' = Some w → expired (window_size l) now w = false.
Proof.
  intros Hw. unfold check. destruct (sweep_config now l) as (Ew & Em & _). rewrite Ew, Em.
  destruct (tick _ _ _ _) as [b w] eqn:Et. cbn.
  assert (expired (window_size l) now w = false) as Hlive.
  { change w with (b, w).2. rewrite <-Et. by apply tick_live. }
  unfold sweep. destruct (_ <? _) eqn:El; cbn.
  - right. intros k' w' H. destruct (decide (k' = k)) as [->|Hne].
    + rewrite lookup_insert_eq in H. by injection H as <-.
    + rewrite lookup_insert_ne in H by done. by apply map_lookup_filter_Some in H as [_ H].
  - left. apply Nat.ltb_ge in El. rewrite map_size_insert. destruct (windows l !! k); cbn; lia.
Qed.

(** ** Properties *)

(** C33: The keyed limiter implements one independent window per key.  From an
    empty map, on any sequence of requests in time order, the decisions on the
    requests of a key are exactly those of a window of its own that starts
    with its first request: sweeping forgets nothing that matters and no key
    affects another.  And the map stays small: after every check it is within
    one of the threshold, or all its windows are live. *)
Theorem keyed_limiter_refines l rs k now key :
  (0 ≤ window_size l)%Z → windows l = ∅ → (∀ t0, monotone t0 rs.*1 →
  (of_key k rs (run_keyed l rs)).*2 =
    match times_of k rs with
    | [] => []
    | t :: ts => run (window_size l) (max_requests l) (Win t 0) (t :: ts)
    end) ∧
  (∀ m, let l' := (check now key (with_windows l m)).2 in
   size (windows l') ≤ S (sweep_threshold l) ∨
   ∀ k' w, windows l' !! k' = Some w → expired (window_size l) now w = false).
Proof.
  intros Hw He. split.
  - intros t0 Hm. rewrite (run_keyed_full l t0 l (λ _, None) rs); [by apply run_full_fresh|done..| |done].
    intros k'. left. by rewrite He, lookup_empty.
  - intros m. apply (check_size now key (with_windows l m)). done.
Qed.

(** A fixed window admits at most twice its limit in any interval no longer
    than the window, wherever the interval falls: 1200 requests a minute to
    the sync endpoints, 240 with one key; within the window that is running
    when it begins, what is left of the limit.  After a pause longer than the
    window a request is always admitted.  (The counter is a [u32]: the bound
    holds of fewer than 2^32 requests.) *)
Theorem burst_bounded size limit a b t0 w ts :
  (1 ≤ limit)%Z → monotone t0 ts → (0 ≤ count w)%Z →
  (count w + Z.of_nat (length ts) < 2 ^ 32)%Z →
  ((b - a ≤ size)%Z → (allowed_within a b ts (run size limit w ts) ≤ 2 * limit)%Z) ∧
  ((b ≤ started w + size)%Z →
     (allowed_within a b ts (run size limit w ts) ≤ Z.max 0 (limit - count w))%Z) ∧
  (∀ t, (started w + size < t)%Z → (tick size limit t w).1 = true) ∧
  (∀ t, sync_check t w = tick (60 * 10 ^ 9) 600 t w).
Proof.
  intros Hl Hm Hc Hn. split_and!.
  - intros Hb. by eapply run_burst; [lia|..].
  - intros Hb. by eapply run_in_window; [lia|..].
  - intros t Ht. unfold tick, expired.
    assert ((size <? t - started w) = true)%Z as -> by (apply Z.ltb_lt; lia).
    cbn. by apply Z.leb_le.
  - done.
Qed.

(** ** Witnesses *)

Section witnesses.
Definition demo_limiter : RateLimiter := Limiter 20 2 2 ∅.
Definition demo_requests : list (Z * string) :=
  [(0, "a"); (1, "a"); (2, "b"); (3, "a"); (4, "c"); (30, "d"); (31, "a"); (32, "b")]%Z.

Lemma keyed_limiter_refines_witness :
  (of_key "a" demo_requests (run_keyed demo_limiter demo_requests)).*2 = [true; true; false; true].
Proof.
  destruct (keyed_limiter_refines demo_limiter demo_requests "a" 0 "a") as [H _];
    [cbn; lia|reflexivity|].
  rewrite (H 0%Z); [reflexivity|]. cbn. lia.
Defined.

(** The bound is met: two requests at the end of one window and two at the
    start of the next, all four within 20 instants. *)
Lemma burst_bounded_witness :
  allowed_within 15 25 [16; 17; 18; 22; 23; 24]%Z
    (run 20 2 (Win 0 0) [16; 17; 18; 22; 23; 24]%Z) = (2 * 2)%Z ∧
  (allowed_within 15 25 [16; 17; 18; 22; 23; 24]%Z
    (run 20 2 (Win 0 0) [16; 17; 18; 22; 23; 24]%Z) ≤ 2 * 2)%Z.
Proof.
  split; [reflexivity|].
  destruct (burst_bounded 20 2 15 25 0 (Win 0 0) [16; 17; 18; 22; 23; 24]%Z) as [H _];
    [lia|cbn; lia|cbn; lia|cbn; lia|].
  apply H. lia.
Defined.
End witnesses.
