(* ===== verification/Petname.v ===== *)
(** * Names for peers

    [oag-petname]: [lib.rs]; [oag-cli]: [addressing.rs].  A peer's id seeds a
    generator that draws words from a dictionary; four short ones make a DNS
    label.  The dictionary, the generator and the resolver are third-party
    code, and parameters. *)

From S2P Require Import Prelude Core.

#[local] Open Scope nat_scope.

Definition is_ascii_alphabetic (a : ascii) : bool :=
  let n := Ascii.nat_of_ascii a in
  (Nat.leb 65 n && Nat.leb n 90) || (Nat.leb 97 n && Nat.leb n 122).
Fixpoint all_chars (f : ascii → bool) (s : string) : bool :=
  match s with "" => true | String a s => f a && all_chars f s end.

(** [Vec::dedup]. *)
Fixpoint dedup (l : list string) : list string :=
  match l with
  | x :: ((y :: _) as rest) => if bool_decide (x = y) then dedup rest else x :: dedup rest
  | _ => l
  end.

Definition WORD_COUNT : nat := 128.
Definition ADDRESS_WORD_COUNT : nat := 4.
Definition ADDRESS_WORD_MAX_LEN : nat := 12.

Class Words := {
  (** the keys of the dictionary, in the order of a [HashMap] *)
  corpus : list string;
  Rng : Type;
  rng_from_seed : hash32 → Rng;
  (** [gen_range(0..n)] for [n] other than zero *)
  gen_range : nat → Rng → nat * Rng;
  (** a TXT lookup: the answers, [None] for one of another type *)
  txt_lookup : string → result string (list (option string)) }.
Class WordsLaws (W : Words) : Prop := {
  gen_range_lt n r : n ≠ 0 → (gen_range n r).1 < n }.

Section petname.
Context {W : Words}.

Definition clean (w : string) : bool := negb (bool_decide (w = "")) && all_chars is_ascii_alphabetic w.
Definition wordlist : list string := dedup (merge_sort String.le (List.filter clean corpus)).
Definition address_wordlist : list string :=
  List.filter (λ w, Nat.leb (String.length w) ADDRESS_WORD_MAX_LEN) wordlist.

(** [count] draws; drawing from no words panics. *)
Fixpoint draw (words : list string) (count : nat) (rng : Rng) : option (list string) :=
  match count with
  | 0 => Some []
  | S count =>
      if bool_decide (words = []) then None
      else
        let '(i, rng) := gen_range (length words) rng in
        word ← words !! i;
        rest ← draw words count rng;
        Some (word :: rest)
  end.
Definition address_label (peer_id : hash32) : option string :=
  join "-" <$> draw address_wordlist ADDRESS_WORD_COUNT (rng_from_seed peer_id).
Definition peer_name (peer_id : hash32) : option (list string) :=
  draw wordlist WORD_COUNT (rng_from_seed peer_id).
Definition peer_name_string (peer_id : hash32) : option string := join "-" <$> peer_name peer_id.

(** ** [addressing.rs] *)

Fixpoint trim_end_dots (s : string) : string :=
  match s with
  | String a rest =>
      match trim_end_dots rest with
      | "" => if Ascii.eqb a "." then "" else String a ""
      | rest => String a rest
      end
  | "" => ""
  end.
Definition fqdn_for_peer (peer_id : hash32) (domain : string) : option string :=
  (λ label, label +:+ "." +:+ trim_end_dots domain) <$> address_label peer_id.

Inductive AddressError := NoTxtRecord (fqdn e : string) | NoTxtData (fqdn : string).
(** [None]: a panic of [address_label]. *)
Definition resolve_peer_address (peer_id : hash32) (domain : string) : option (result AddressError (list string)) :=
  fqdn ← fqdn_for_peer peer_id domain;
  Some (answers ← map_err (NoTxtRecord fqdn) (txt_lookup fqdn);
        let values := omap id answers in
        if bool_decide (values = []) then Err (NoTxtData fqdn) else Ok values).
End petname.

(** ** The word lists *)

Lemma dedup_cons y z l : dedup (y :: z :: l) = if bool_decide (y = z) then dedup (z :: l) else y :: dedup (z :: l).
Proof. reflexivity. Qed.
Lemma dedup_in l x : x ∈ dedup l ↔ x ∈ l.
Proof.
  induction l as [|y l IH]; [done|]. destruct l as [|z l]; [done|]. rewrite dedup_cons.
  case_bool_decide as Hyz; [subst z|]; rewrite ?elem_of_cons, IH, ?elem_of_cons; tauto.
Qed.
Lemma dedup_sorted l : StronglySorted String.le l → NoDup (dedup l).
Proof.
  induction 1 as [|y l Hs IH Hy]; [constructor|]. destruct l as [|z l]; [by apply NoDup_singleton|].
  rewrite dedup_cons. case_bool_decide as Hyz; [done|]. constructor; [|done].
  intros Hin. rewrite dedup_in in Hin. apply Hyz. inversion Hs as [|? ? _ Hz]; subst. rewrite Forall_forall in Hy, Hz.
  assert (String.le y z) as H1 by (apply Hy; by left).
  apply elem_of_cons in Hin as [|Hin]; [done|]. assert (String.le z y) as H2 by by apply Hz.
  by apply (anti_symm String.le).
Qed.
Lemma all_chars_app f s t : all_chars f (s +:+ t) = all_chars f s && all_chars f t.
Proof. induction s as [|a s IH]; [done|]. rewrite string_app_cons. cbn. by rewrite IH, andb_assoc. Qed.
Lemma all_chars_impl (f g : ascii → bool) s : (∀ a, f a = true → g a = true) → all_chars f s = true → all_chars g s = true.
Proof.
  intros Hfg. induction s as [|a s IH]; [done|]. cbn. rewrite !andb_true_iff. intros [? ?]. auto.
Qed.
Lemma trim_end_dot s : trim_end_dots (s +:+ ".") = trim_end_dots s.
Proof. induction s as [|a s IH]; [done|]. rewrite string_app_cons. cbn. by rewrite IH. Qed.

Section facts.
Context {W : Words}.

Lemma wordlist_spec : NoDup wordlist ∧ ∀ w, w ∈ wordlist ↔ w ∈ corpus ∧ clean w = true.
Proof.
  split; [apply dedup_sorted, StronglySorted_merge_sort; apply _|]. intros w. unfold wordlist.
  by rewrite dedup_in, merge_sort_Permutation, list_elem_of_In, List.filter_In, <-list_elem_of_In.
Qed.
Lemma address_wordlist_spec w : w ∈ address_wordlist ↔
  w ∈ corpus ∧ clean w = true ∧ String.length w ≤ ADDRESS_WORD_MAX_LEN.
Proof.
  unfold address_wordlist. rewrite list_elem_of_In, List.filter_In, <-list_elem_of_In.
  rewrite (proj2 wordlist_spec), Nat.leb_le. tauto.
Qed.
Lemma draw_ok {WL : WordsLaws W} words count : words ≠ [] → ∀ rng,
  ∃ drawn, draw words count rng = Some drawn ∧ length drawn = count ∧ ∀ w, w ∈ drawn → w ∈ words.
Proof.
  intros Hne. induction count as [|count IH]; intros rng.
  { exists []. split_and!; [done|done|by intros w ?%not_elem_of_nil]. }
  cbn [draw]. rewrite bool_decide_eq_false_2 by done.
  pose proof (gen_range_lt (length words) rng) as Hi. destruct (gen_range (length words) rng) as [i rng'].
  destruct (lookup_lt_is_Some_2 words i) as [w Hw]; [apply Hi; by intros ?%length_zero_iff_nil|]. rewrite Hw. cbn.
  destruct (IH rng') as (drawn & -> & Hlen & Hin). cbn. exists (w :: drawn). split_and!; [done|by rewrite <-Hlen|].
  intros w' [-> |?]%elem_of_cons; [by eapply list_elem_of_lookup_2|by apply Hin].
Qed.

(** What a word of a label is made of, and how long it may be. *)
Definition label_char (a : ascii) : bool := is_ascii_alphabetic a || Ascii.eqb a "-".
Definition short_word (w : string) : Prop :=
  w ≠ "" ∧ all_chars is_ascii_alphabetic w = true ∧ String.length w ≤ ADDRESS_WORD_MAX_LEN.
Lemma join_words words : Forall short_word words →
  all_chars label_char (join "-" words) = true ∧
  String.length (join "-" words) ≤ length words * ADDRESS_WORD_MAX_LEN + (length words - 1) ∧
  (words ≠ [] → ∃ a s b t, join "-" words = String a s ∧ join "-" words = t +:+ String b "" ∧
    is_ascii_alphabetic a = true ∧ is_ascii_alphabetic b = true).
Proof.
  assert (∀ w, w ≠ "" → all_chars is_ascii_alphabetic w = true →
    ∃ t b, w = t +:+ String b "" ∧ is_ascii_alphabetic b = true) as Hlast.
  { intros w. induction w as [|a w IH]; [done|]. intros _. cbn. intros [Ha Hw]%andb_true_iff.
    destruct w as [|a' w]; [by exists "", a|]. destruct (IH ltac:(done) Hw) as (t & b & -> & Hb).
    exists (String a t), b. by rewrite string_app_cons. }
  induction 1 as [|w words (Hne & Hw & Hlen) Hall IH]; [by repeat split; try done; cbn; lia|].
  assert (all_chars label_char w = true) as Hc.
  { revert Hw. apply all_chars_impl. intros a Ha. unfold label_char. by rewrite Ha. }
  destruct (Hlast w Hne Hw) as (t & b & Ht & Hb).
  assert (∃ a s, w = String a s ∧ is_ascii_alphabetic a = true) as (a & s & Hs & Ha).
  { destruct w as [|a s]; [done|]. cbn in Hw. apply andb_true_iff in Hw as [Ha _]. by exists a, s. }
  destruct words as [|w' words].
  - cbn [join length]. split; [done|]. split; [lia|]. intros _. by exists a, s, b, t.
  - destruct IH as (IHc & IHl & IHe). destruct IHe as (_ & _ & b' & t' & _ & Ht' & _ & Hb'); [done|].
    change (join "-" (w :: w' :: words)) with (w +:+ "-" +:+ join "-" (w' :: words)). set (rest := join "-" (w' :: words)) in *.
    split; [by rewrite !all_chars_app, Hc, IHc|]. split.
    { rewrite !string_length_app. cbn [length String.length] in *. lia. }
    intros _. exists a, (s +:+ "-" +:+ rest), b', (w +:+ "-" +:+ t'). split_and!; [|by rewrite Ht', !string_app_assoc|done|done].
    by rewrite Hs, string_app_cons.
Qed.

(** Every peer has a label that DNS takes.  As long as the dictionary has a
    short clean word, deriving a label does not panic: it is four words of at
    most twelve letters from the dictionary, joined by hyphens, so at most 51
    characters - under the 63 of a DNS label - all ASCII letters or hyphens,
    the first and the last a letter.  Under a domain it gives the same name
    with and without a trailing dot. *)
Theorem address_label_fits {WL : WordsLaws W} peer_id domain :
  (∃ w, w ∈ corpus ∧ clean w = true ∧ String.length w ≤ ADDRESS_WORD_MAX_LEN) →
  ∃ label words, address_label peer_id = Some label ∧ label = join "-" words ∧ length words = ADDRESS_WORD_COUNT ∧
    (∀ w, w ∈ words → w ∈ corpus ∧ clean w = true ∧ String.length w ≤ ADDRESS_WORD_MAX_LEN) ∧
    String.length label ≤ 51 ∧ all_chars label_char label = true ∧
    (∃ a s b t, label = String a s ∧ label = t +:+ String b "" ∧
       is_ascii_alphabetic a = true ∧ is_ascii_alphabetic b = true) ∧
    fqdn_for_peer peer_id (domain +:+ ".") = fqdn_for_peer peer_id domain ∧
    fqdn_for_peer peer_id domain = Some (label +:+ "." +:+ trim_end_dots domain).
Proof.
  intros [w0 Hw0%address_wordlist_spec]. assert (address_wordlist ≠ []) as Hne.
  { intros Hnil. rewrite Hnil in Hw0. by apply not_elem_of_nil in Hw0. }
  destruct (draw_ok address_wordlist ADDRESS_WORD_COUNT Hne (rng_from_seed peer_id)) as (words & Hdraw & Hlen & Hin).
  assert (∀ w, w ∈ words → w ∈ corpus ∧ clean w = true ∧ String.length w ≤ ADDRESS_WORD_MAX_LEN) as Hwords.
  { intros w Hw. by apply address_wordlist_spec, Hin. }
  assert (Forall short_word words) as Hshort.
  { apply Forall_forall. intros w (_ & [Hw1 Hw2]%andb_true_iff & Hw3)%Hwords. split_and!; [|done|done].
    by apply negb_true_iff, bool_decide_eq_false in Hw1. }
  destruct (join_words words Hshort) as (Hc & Hl & He). rewrite Hlen in Hl.
  exists (join "-" words), words. unfold fqdn_for_peer, address_label. rewrite Hdraw, trim_end_dot.
  split_and!; [done|done|done|exact Hwords|cbn in Hl; lia|done| |done|done].
  apply He. intros ->. discriminate.
Qed.
End facts.

(** The lists do not depend on the order of the dictionary. *)
Lemma wordlist_order (W1 W2 : Words) : @corpus W1 ≡ₚ @corpus W2 → @wordlist W1 = @wordlist W2.
Proof.
  intros Hp. unfold wordlist. f_equal. apply (StronglySorted_unique String.le).
  - apply StronglySorted_merge_sort; apply _.
  - apply StronglySorted_merge_sort; apply _.
  - rewrite !merge_sort_Permutation. induction Hp as [|x l k _ IH|x y l|]; cbn; [done| |..].
    + by destruct (clean x); rewrite IH.
    + by destruct (clean x), (clean y); try constructor.
    + by etransitivity.
Qed.

Section witnesses.
#[local] Existing Instance Toy.platform.
(** A dictionary of three entries, drawn from in turn. *)
#[local] Instance toy_words : Words := {|
  corpus := ["otter"; "co-op"; "badger"]; Rng := nat; rng_from_seed := λ _, 0;
  gen_range := λ n r, (Nat.modulo r n, S r); txt_lookup := λ _, Err "no network" |}.
Lemma toy_words_laws : WordsLaws toy_words.
Proof. split. intros n r Hn. by apply Nat.mod_upper_bound. Qed.

Lemma address_label_fits_witness : ∃ label,
  address_label (Toy.hash "me") = Some label ∧ label = "badger-otter-badger-otter" ∧ String.length label ≤ 51 ∧
  fqdn_for_peer (Toy.hash "me") "example.org." = Some (label +:+ ".example.org").
Proof.
  destruct (@address_label_fits toy_words toy_words_laws (Toy.hash "me") "example.org")
    as (label & words & Hl & _ & _ & _ & Hlen & _ & _ & Hdot & Hname).
  - exists "otter". split; [by left|]. split; [reflexivity|vm_compute; lia].
  - exists label. split; [exact Hl|]. split; [|split; [exact Hlen|exact (eq_trans Hdot Hname)]].
    assert (address_label (Toy.hash "me") = Some "badger-otter-badger-otter") as Hc by (vm_compute; reflexivity).
    rewrite Hl in Hc. by injection Hc.
Defined.
End witnesses.
