(* ===== verification/Embeddings.v ===== *)
(** * Semantic search

    [oag-embeddings]: [similarity.rs] and [provider.rs]; [oag-storage]:
    [repo/node_embeddings.rs]; [oag-graph]: [semantic_search.rs].  Vectors of
    the nodes' texts are kept in a table of their own, rebuilt as a whole, and
    compared with the vector of a query by cosine similarity.  What a provider
    answers is a function of the text, and so is the answer of the HTTP server
    behind the OpenAI-compatible one. *)

From Stdlib Require Import SpecFloat.
From S2P Require Import Prelude Sorting Core Envelope Store Projector EventLog Frame Scenario Chain Replay Service Graph Rebuild Typing Queries Search Bytes FloatFacts Float32 FloatBits.

#[local] Open Scope Z_scope.

(** ** [similarity.rs] *)

Definition f32_sqrt : f32 → f32 := SFsqrt 24 128.
Definition dot (a b : list f32) : f32 := f32_sum (zip_with f32_mul a b).
Definition norm (a : list f32) : f32 := f32_sqrt (f32_sum ((λ x, f32_mul x x) <$> a)).
Definition cosine_similarity (a b : list f32) : f32 :=
  if negb (Nat.eqb (length a) (length b)) || bool_decide (a = []) then f32_zero
  else if SFeqb (norm a) f32_zero || SFeqb (norm b) f32_zero then f32_zero
  else f32_div (dot a b) (f32_mul (norm a) (norm b)).

(** [b.1.total_cmp(&a.1)] does not put [a] after [b]. *)
Definition scores_first {T} (a b : T * f32) : bool :=
  match total_cmp b.2 a.2 with Gt => false | _ => true end.
Definition rank {T} (query : list f32) (candidates : list (T * list f32)) (limit : nat) : list (T * f32) :=
  take limit (stable_sort scores_first ((λ c, (c.1, cosine_similarity query c.2)) <$> candidates)).

(** ** [provider.rs] *)

Inductive EmbeddingError := EmbeddingDisabled | EmbeddingHttp (e : string) | EmptyResponse.
Class EmbeddingProvider := {
  embed : string → result EmbeddingError (list f32);
  provider_name : string;
  model_name : string }.
Definition DisabledProvider : EmbeddingProvider :=
  {| embed := λ _, Err EmbeddingDisabled; provider_name := "disabled"; model_name := "" |}.

Fixpoint trim_end_slashes (s : string) : string :=
  match s with
  | String a rest =>
      match trim_end_slashes rest with
      | "" => if Ascii.eqb a "/" then "" else String a ""
      | rest => String a rest
      end
  | "" => ""
  end.
(** The server: URL, body and API key of the request; the [embedding]s of the
    answer's [data], or what went wrong. *)
Definition OpenAiCompatibleProvider
    (server : string → json → option string → result string (list (list f32)))
    (base_url : string) (api_key : option string) (model : string) : EmbeddingProvider :=
  {| embed := λ text,
       data ← map_err EmbeddingHttp
         (server (trim_end_slashes base_url +:+ "/embeddings") (Object [("input", Str text); ("model", Str model)]) api_key);
       match data with first :: _ => Ok first | [] => Err EmptyResponse end;
     provider_name := "openai-compatible"; model_name := model |}.

(** ** [repo/node_embeddings.rs] *)

Record embedding_row := EmbeddingRow {
  ne_provider : string; ne_model : string; ne_dim : Z; ne_embedding : string; ne_computed_at : Z }.
Abbreviation node_embeddings := (gmap hash32 embedding_row).

Definition embeddings_upsert `{V : EmbeddingProvider} (node_id : hash32) (embedding : list f32) (computed_at : Z)
    (t : node_embeddings) : node_embeddings :=
  <[node_id := EmbeddingRow provider_name model_name (Z.of_nat (length embedding)) (encode_values embedding) computed_at]> t.
Definition embeddings_clear_all (t : node_embeddings) : node_embeddings := ∅.
Definition embeddings_get (node_id : hash32) (t : node_embeddings) : option (list f32) :=
  (λ r, decode_values (ne_embedding r)) <$> t !! node_id.
Definition embeddings_list_all (t : node_embeddings) : list (hash32 * list f32) :=
  (λ kr, (kr.1, decode_values (ne_embedding kr.2))) <$> map_to_list t.

(** ** [semantic_search.rs] *)

Definition MAX_SEMANTIC_SEARCH_LIMIT : Z := 1000.
Record EmbeddingSummary := { nodes_embedded : nat; nodes_skipped : nat }.
(** [GraphError], of which [Embedding] is the variant only this file raises. *)
Inductive SemanticError := OfGraph (e : GraphError) | Embedding (e : EmbeddingError).

Definition embeddable_text (node : Node) : string :=
  join " " (omap id [Some (n_canonical_identifier node); n_name node; n_description node]).

Section semantic.
Context `{P : Platform} `{C : Codec} `{V : EmbeddingProvider}.

Definition nodes_list_all : tx (list Node) :=
  d ← get;
  lift (mapM (M:=result StorageError) (uncurry row_to_node) (map_to_list (nodes (proj d)))).

(** The loop over the nodes: a failure keeps the rows written before it. *)
Fixpoint embed_all (now : Z) (all_nodes : list Node) (done skipped : nat) :
    ste node_embeddings SemanticError EmbeddingSummary :=
  match all_nodes with
  | [] => mret {| nodes_embedded := done; nodes_skipped := skipped |}
  | node :: rest =>
      let text := embeddable_text node in
      if bool_decide (trim text = "") then embed_all now rest done (S skipped)
      else
        embedding ← of_result (map_err Embedding (embed text));
        _ ← effect (embeddings_upsert (n_id node) embedding now);
        embed_all now rest (S done) skipped
  end.
Definition recompute_embeddings (now : Z) (d : db) : ste node_embeddings SemanticError EmbeddingSummary :=
  '(all_nodes, _) ← of_result (map_err (OfGraph ∘ GStorage) (nodes_list_all d));
  _ ← effect embeddings_clear_all;
  embed_all now all_nodes 0 0.

Fixpoint ranked_nodes (ranked : list (hash32 * f32)) : tx (list (Node * f32)) :=
  match ranked with
  | [] => mret []
  | (node_id, score) :: rest =>
      found ← nodes_get_by_id node_id;
      results ← ranked_nodes rest;
      mret (match found with Some node => (node, score) :: results | None => results end)
  end.
Definition semantic_search (query : string) (limit : Z) (d : db) (t : node_embeddings) :
    result SemanticError (list (Node * f32)) :=
  query_embedding ← map_err Embedding (embed query);
  let candidates := embeddings_list_all t in
  let ranked := rank query_embedding candidates (Z.to_nat (Z.min (Z.max limit 0) MAX_SEMANTIC_SEARCH_LIMIT)) in
  fst <$> map_err (OfGraph ∘ GStorage) (ranked_nodes ranked d).
End semantic.

(** ** Ranking *)

Lemma scores_first_spec {T} (a b : T * f32) : scores_first a b = true ↔ total_key b.2 ≤ total_key a.2.
Proof.
  unfold scores_first, total_cmp. destruct (Z.compare_spec (total_key b.2) (total_key a.2)); (split; intros; first [done|lia]).
Qed.
(** The best [limit] candidates in order, and the rest, none of which scores
    higher than any of them. *)
Lemma rank_spec {T} query (candidates : list (T * list f32)) limit :
  ∃ rest, rank query candidates limit ++ rest ≡ₚ (λ c, (c.1, cosine_similarity query c.2)) <$> candidates ∧
    length (rank query candidates limit) = Nat.min limit (length candidates) ∧
    StronglySorted (λ a b, total_key b.2 ≤ total_key a.2) (rank query candidates limit) ∧
    ∀ a b, a ∈ rank query candidates limit → b ∈ rest → total_key b.2 ≤ total_key a.2.
Proof.
  unfold rank. set (scored := _ <$> candidates). set (sorted := stable_sort scores_first scored).
  assert (sorted ≡ₚ scored) as Hperm by apply stable_sort_perm.
  assert (StronglySorted (λ a b : T * f32, total_key b.2 ≤ total_key a.2) sorted) as Hs.
  { assert (StronglySorted (λ a b, scores_first a b = true) sorted) as Hs.
    { apply (stable_sort_sorted _ (λ _, True)); [| |by apply Forall_true].
      - intros a b _ _. rewrite !scores_first_spec. lia.
      - intros a b c _ _ _. rewrite !scores_first_spec. lia. }
    revert Hs. apply StronglySorted_weaken. intros a b _ _. apply scores_first_spec. }
  exists (drop limit sorted). rewrite <-(take_drop limit sorted) in Hs. apply StronglySorted_app in Hs as (Hlt & Hs & _).
  split_and!.
  - by rewrite take_drop.
  - rewrite length_take, Hperm. unfold scored. by rewrite length_fmap.
  - done.
  - intros a b Ha Hb. by apply Hlt.
Qed.

(** ** Similarity *)

Lemma f32_mul_comm x y : f32_mul x y = f32_mul y x.
Proof.
  unfold f32_mul, SFmul. destruct x as [[]|[]| |[] m1 e1], y as [[]|[]| |[] m2 e2]; try done; cbn [xorb];
    by rewrite (Pos.mul_comm m1 m2), (Z.add_comm e1 e2).
Qed.
Lemma dot_comm a b : dot a b = dot b a.
Proof.
  unfold dot. f_equal. revert b. induction a as [|x a IH]; intros [|y b]; [done..|]. cbn [zip_with].
  by rewrite IH, (f32_mul_comm x).
Qed.
Lemma cosine_comm a b : length a = length b → cosine_similarity a b = cosine_similarity b a.
Proof.
  intros Hl. unfold cosine_similarity. rewrite Hl, Nat.eqb_refl.
  assert (bool_decide (a = []) = bool_decide (b = [])) as -> by (apply bool_decide_ext; destruct a, b; naive_solver).
  by rewrite orb_comm with (b1 := SFeqb (norm a) f32_zero), (dot_comm a b), (f32_mul_comm (norm a)).
Qed.

(** ** Recomputing *)

Section recompute.
Context `{P : Platform} `{C : Codec} `{V : EmbeddingProvider}.

(** The row of a node whose text the provider has embedded now. *)
Definition embedded (now : Z) (n : Node) (row : embedding_row) : Prop :=
  trim (embeddable_text n) ≠ "" ∧ ∃ v, embed (embeddable_text n) = Ok v ∧
    row = EmbeddingRow provider_name model_name (Z.of_nat (length v)) (encode_values v) now.

Lemma embed_all_rows now l : ∀ done skipped t id row,
  (embed_all now l done skipped t).2 !! id = Some row →
  t !! id = Some row ∨ ∃ n, n ∈ l ∧ n_id n = id ∧ embedded now n row.
Proof.
  induction l as [|n l IH]; intros done skipped t id row; [by left|]. cbn [embed_all].
  case_bool_decide as Htext.
  { intros [?|(n' & ? & ?)]%IH; [by left|right; exists n'; split; [by right|done]]. }
  cbv [mbind ste_bind of_result effect]. destruct (embed _) as [v|e] eqn:He; cbn [map_err]; [|by left].
  intros [Hrow|(n' & ? & ?)]%IH; [|right; exists n'; split; [by right|done]].
  destruct (decide (id = n_id n)) as [-> |Hne].
  - unfold embeddings_upsert in Hrow. rewrite lookup_insert_eq in Hrow. injection Hrow as <-.
    right. exists n. split; [by left|]. split; [done|]. split; [done|]. by exists v.
  - left. unfold embeddings_upsert in Hrow. by rewrite lookup_insert_ne in Hrow.
Qed.
Lemma embed_all_outcome now l : ∀ done skipped t, NoDup (n_id <$> l) → (∀ n, n ∈ l → t !! n_id n = None) →
  let '(r, t') := embed_all now l done skipped t in
  match r with
  | Ok s => (nodes_embedded s + nodes_skipped s = done + skipped + length l)%nat ∧
      (nodes_embedded s + size t = done + size t')%nat ∧
      (∀ id, is_Some (t !! id) → is_Some (t' !! id)) ∧
      ∀ n, n ∈ l → trim (embeddable_text n) ≠ "" → is_Some (t' !! n_id n)
  | Err e => ∃ n e', n ∈ l ∧ embed (embeddable_text n) = Err e' ∧ e = Embedding e'
  end.
Proof.
  induction l as [|n l IH]; intros done skipped t Hnd Hnew.
  { cbn. split_and!; [lia|done|done|by intros n ?%not_elem_of_nil]. }
  rewrite fmap_cons in Hnd. apply NoDup_cons in Hnd as [Hn Hnd]. cbn [embed_all]. case_bool_decide as Htext.
  - specialize (IH done (S skipped) t Hnd (λ n' H, Hnew n' (proj2 (elem_of_cons _ _ _) (or_intror H)))).
    destruct (embed_all now l done (S skipped) t) as [[s|e] t'].
    + destruct IH as (H1 & H2 & H3 & H4). split_and!; [cbn; lia|done|done|].
      intros n' [-> |Hin]%elem_of_cons Hne; [done|by apply H4].
    + destruct IH as (n' & e' & Hin & He). exists n', e'. split; [by right|done].
  - cbv [mbind ste_bind of_result effect]. destruct (embed (embeddable_text n)) as [v|e] eqn:He; cbn [map_err].
    + assert (∀ n', n' ∈ l → embeddings_upsert (n_id n) v now t !! n_id n' = None) as Hnew'.
      { intros n' Hin. unfold embeddings_upsert. rewrite lookup_insert_ne; [apply Hnew; by right|].
        intros Heq. apply Hn. rewrite Heq. by apply list_elem_of_fmap_2. }
      specialize (IH (S done) skipped _ Hnd Hnew'). destruct (embed_all _ _ _ _ _) as [[s|e] t'].
      * destruct IH as (H1 & H2 & H3 & H4). unfold embeddings_upsert in H2, H3.
        rewrite map_size_insert_None in H2 by (apply Hnew; by left). split_and!; [cbn; lia|lia| |].
        -- intros id Hid. apply H3. rewrite lookup_insert_is_Some. destruct (decide (n_id n = id)); auto.
        -- intros n' [-> |Hin]%elem_of_cons Hne; [apply H3; by rewrite lookup_insert_eq|by apply H4].
      * destruct IH as (n' & e' & Hin & He'). exists n', e'. split; [by right|done].
    + exists n, e. split; [by left|done].
Qed.

Lemma nodes_list_all_spec d : typed (proj d) → ∃ l, nodes_list_all d = Ok (l, d) ∧
  length l = size (nodes (proj d)) ∧ NoDup (n_id <$> l) ∧ ∀ n, n ∈ l ↔ stored d (n_id n) n.
Proof.
  intros Ht. unfold nodes_list_all. cbv [mbind stm_bind get lift].
  assert (is_ok (mapM (M:=result StorageError) (uncurry row_to_node) (map_to_list (nodes (proj d)))) = true) as Hok.
  { apply mapM_is_ok, Forall_forall. intros [id r] Hin%elem_of_map_to_list. by destruct (typed_nodes _ Ht _ _ Hin). }
  destruct (mapM _ _) as [l|] eqn:Hm; [|done]. exists l. split; [done|].
  split; [by rewrite (mapM_length _ _ _ Hm), length_map_to_list|]. split.
  - rewrite (mapM_fmap _ n_id fst _ _ Hm); [apply NoDup_fst_map_to_list|].
    intros [id r] n Hn. cbn in *. unfold row_to_node in Hn. by apply result_bind_ok in Hn as (md & _ & [= <-]).
  - intros n. rewrite (mapM_elem _ _ _ Hm). split.
    + intros ([id r] & Hin%elem_of_map_to_list & Hn). assert (stored d id n) as Hs by (by exists r).
      by rewrite (stored_id d id n Hs).
    + intros (r & Hr & Hn). exists (n_id n, r). by rewrite elem_of_map_to_list.
Qed.
End recompute.

(** ** Searching *)

Section searching.
Context `{P : Platform} `{C : Codec} `{V : EmbeddingProvider}.

Lemma ranked_nodes_spec d (Ht : typed (proj d)) ranked : ∃ results, ranked_nodes ranked d = Ok (results, d) ∧
  ((λ r, (n_id r.1, r.2)) <$> results) = filter (λ kv : hash32 * f32, is_Some (nodes (proj d) !! kv.1)) ranked ∧
  ∀ n score, (n, score) ∈ results → stored d (n_id n) n.
Proof.
  induction ranked as [|[id score] rest IH].
  { exists []. split_and!; [done|done|by intros n score ?%not_elem_of_nil]. }
  destruct IH as (results & Hres & Hids & Hst). cbn [ranked_nodes]. cbv [mbind stm_bind].
  rewrite filter_cons. cbn [fst].
  destruct (node_get_run d Ht id) as [[Hno ->]|(n & Hn & ->)]; rewrite Hres.
  - exists results. rewrite decide_False by (rewrite Hno; by intros []). done.
  - exists ((n, score) :: results). pose proof (stored_id d id n Hn) as Hid.
    rewrite decide_True by (destruct Hn as (r & -> & _); by eexists).
    split; [done|]. split; [rewrite fmap_cons, Hids; cbn [fst snd]; by rewrite Hid|].
    intros n' score' [[= -> ->]|Hin]%elem_of_cons; [by rewrite Hid|by eapply Hst].
Qed.
Lemma ranked_nodes_proj d d' ranked : proj d' = proj d →
  fst <$> ranked_nodes ranked d' = fst <$> ranked_nodes ranked d.
Proof.
  intros Hp.
  induction ranked as [|[id score] rest IH]; [done|]. cbn [ranked_nodes]. cbv [mbind stm_bind].
  unfold nodes_get_by_id. cbv [mbind stm_bind get lift]. rewrite Hp. destruct (transpose _); [|done].
  destruct (ranked_nodes rest d') as [[x d1]|], (ranked_nodes rest d) as [[x' d2]|]; cbn in *; try congruence.
  by injection IH as ->.
Qed.
End searching.

(** ** Properties *)

Section properties.
Context `{P : Platform} `{C : Codec} `{V : EmbeddingProvider}.

(** Every stored vector with its similarity to a query. *)
Definition similarities (query : list f32) (t : node_embeddings) : list (hash32 * f32) :=
  (λ c, (c.1, cosine_similarity query c.2)) <$> embeddings_list_all t.

(** C21: Semantic search returns the most similar nodes, and only those.  It
    fails exactly when the provider does not embed the query - always if
    embeddings are disabled - and otherwise, on a typed database, returns the
    nodes of the best at most [min limit 1000] stored vectors, none for a
    negative limit, each with its cosine similarity, in descending order; no
    vector left out is more similar than one that counts.  Nothing but the
    provider, the vectors and the graph tables is read: a node that an
    operator has suppressed from search is found like any other. *)
Theorem semantic_search_ranks query limit d t : typed (proj d) →
  (∀ e, embed query = Err e → semantic_search query limit d t = Err (Embedding e)) ∧
  (∀ v, embed query = Ok v → ∃ ranked rest results,
     semantic_search query limit d t = Ok results ∧
     ranked ++ rest ≡ₚ similarities v t ∧
     Z.of_nat (length ranked) = Z.min (Z.max 0 (Z.min limit 1000)) (Z.of_nat (size t)) ∧
     StronglySorted (λ a b, total_key b.2 ≤ total_key a.2) ranked ∧
     (∀ a b, a ∈ ranked → b ∈ rest → total_key b.2 ≤ total_key a.2) ∧
     ((λ r, (n_id r.1, r.2)) <$> results) = filter (λ kv : hash32 * f32, is_Some (nodes (proj d) !! kv.1)) ranked ∧
     ∀ n score, (n, score) ∈ results → stored d (n_id n) n) ∧
  ∀ d', proj d' = proj d → semantic_search query limit d' t = semantic_search query limit d t.
Proof.
  intros Ht. split_and!.
  - intros e He. unfold semantic_search. by rewrite He.
  - intros v Hv. unfold semantic_search. rewrite Hv. cbn [map_err mbind result_bind].
    set (n := Z.to_nat _). destruct (rank_spec v (embeddings_list_all t) n) as (rest & Hperm & Hlen & Hs & Hrest).
    destruct (ranked_nodes_spec d Ht (rank v (embeddings_list_all t) n)) as (results & -> & Hids & Hst).
    exists (rank v (embeddings_list_all t) n), rest, results. split_and!; try done.
    rewrite Hlen. unfold embeddings_list_all. rewrite length_fmap, length_map_to_list.
    unfold n, MAX_SEMANTIC_SEARCH_LIMIT. lia.
  - intros d' Hp. unfold semantic_search. destruct (embed query) as [v|]; [|done]. cbn.
    pose proof (ranked_nodes_proj d d' (rank v (embeddings_list_all t) (Z.to_nat (Z.min (Z.max limit 0) MAX_SEMANTIC_SEARCH_LIMIT))) Hp) as H.
    destruct (ranked_nodes _ d') as [[]|], (ranked_nodes _ d) as [[]|]; cbn in *; congruence.
Qed.

(** Recomputing the embeddings never leaves a stale vector.  Whatever was
    stored before and whether or not the provider fails on the way, every row
    afterwards belongs to a node that is stored, whose text is not blank, and
    holds the vector the provider gave for that text, with its name, model and
    time.  If nothing fails every such node has a row, and the counts returned
    add up; if something does, it is the provider, on the text of a node. *)
Theorem embeddings_never_stale now d t : typed (proj d) →
  let '(r, t') := recompute_embeddings now d t in
  (∀ id row, t' !! id = Some row → ∃ n, stored d id n ∧ embedded now n row) ∧
  match r with
  | Ok s => nodes_embedded s = size t' ∧ (nodes_embedded s + nodes_skipped s = size (nodes (proj d)))%nat ∧
      ∀ id n, stored d id n → trim (embeddable_text n) ≠ "" → is_Some (t' !! id)
  | Err e => ∃ id n e', stored d id n ∧ embed (embeddable_text n) = Err e' ∧ e = Embedding e'
  end.
Proof.
  intros Ht. destruct (nodes_list_all_spec d Ht) as (l & Hl & Hlen & Hnd & Hin).
  unfold recompute_embeddings. rewrite Hl. cbv [mbind ste_bind of_result effect map_err embeddings_clear_all].
  pose proof (embed_all_rows now l 0 0 ∅) as Hrows. pose proof (embed_all_outcome now l 0 0 ∅ Hnd) as Hout.
  destruct (embed_all now l 0 0 ∅) as [r t']. split.
  - intros id row [[=]|(n & Hn & <- & He)]%Hrows. exists n. split; [by apply Hin|done].
  - specialize (Hout ltac:(done)). destruct r as [s|e].
    + destruct Hout as (H1 & H2 & _ & H4). rewrite map_size_empty in H2. split; [lia|]. split; [lia|].
      intros id n Hst Hne. pose proof (stored_id d id n Hst) as Hid. rewrite <-Hid. apply H4; [|done]. apply Hin. by rewrite Hid.
    + destruct Hout as (n & e' & Hn & He). exists (n_id n), n, e'. split; [by apply Hin|done].
Qed.
End properties.

Section witnesses.
#[local] Existing Instance Toy.platform.
#[local] Existing Instance demo_codec.
#[local] Instance demo_laws : CodecLaws demo_codec := ToyCodec.codec_laws _.
(** A provider that embeds a text as its length and one. *)
#[local] Instance length_provider : EmbeddingProvider := {|
  embed := λ text, Ok [f32_of_int (Z.of_nat (String.length text)); f32_one];
  provider_name := "length"; model_name := "none" |}.

Lemma asserted_typed : typed (proj asserted_db).
Proof. destruct (reachable_inv _ asserted_reachable) as [_ Ht]. exact (restores_typed _ Ht). Qed.
Definition embedded_table : node_embeddings := (recompute_embeddings 200 asserted_db ∅).2.
(** The operator has suppressed the concept. *)
Definition suppressed_db : db :=
  match suppress concept 300 asserted_db with Ok (_, d) => d | Err _ => asserted_db end.

(** Both nodes are embedded. *)
Lemma embeddings_never_stale_witness : ∃ s,
  recompute_embeddings 200 asserted_db ∅ = (Ok s, embedded_table) ∧ nodes_embedded s = 2%nat ∧ size embedded_table = 2%nat.
Proof.
  pose proof (@embeddings_never_stale Toy.platform demo_codec length_provider 200 asserted_db ∅ asserted_typed) as H.
  assert (match (recompute_embeddings 200 asserted_db ∅).1 with Ok s => Nat.eqb (nodes_embedded s) 2 | Err _ => false end = true) as Hs
    by (vm_compute; reflexivity).
  unfold embedded_table. destruct (recompute_embeddings 200 asserted_db ∅) as [[s|e] t'] eqn:Hr; [|discriminate Hs].
  apply Nat.eqb_eq in Hs. destruct H as (_ & Hsize & _). exists s. split; [reflexivity|]. split; [exact Hs|].
  cbn [snd]. rewrite <-Hsize. exact Hs.
Defined.
(** The suppressed concept is still the best match. *)
Lemma semantic_search_ranks_witness : ∃ n score,
  search_suppressions (ops suppressed_db) !! concept = Some 300 ∧
  semantic_search "concept:protocol" 1 suppressed_db embedded_table = Ok [(n, score)] ∧ n_id n = concept.
Proof.
  destruct (@semantic_search_ranks Toy.platform demo_codec length_provider "concept:protocol" 1 asserted_db embedded_table
    asserted_typed) as (_ & _ & Hsame).
  assert (match semantic_search "concept:protocol" 1 asserted_db embedded_table with
          | Ok [(n, score)] => bool_decide (n_id n = concept) | _ => false end = true) as Hn by (vm_compute; reflexivity).
  rewrite (Hsame suppressed_db) by (vm_compute; reflexivity).
  destruct (semantic_search "concept:protocol" 1 asserted_db embedded_table) as [[|[n score] [|]]|]; try discriminate Hn.
  exists n, score. split; [vm_compute; reflexivity|]. split; [reflexivity|]. exact (bool_decide_eq_true_1 _ Hn).
Defined.
End witnesses.
