(* ===== verification/Corroboration.v ===== *)
(** * How well corroborated an edge is

    [oag-graph]: [corroboration.rs] and [roadmap.rs].  The signals of one
    edge: who controls the sources behind it, how strong and how recent they
    are, how far they agree, and how sure the identity of the actors is.

    A [HashMap] is iterated in an order the program does not choose, so the
    order is a parameter, any permutation of the entries; so are the [url]
    crate and [powf]. *)

From S2P Require Import Prelude Core Envelope Store Projector EventLog Frame Scenario Chain Replay Service Graph Rebuild Typing Queries Search Bytes FloatFacts Float32 Float64.

#[local] Open Scope Z_scope.

(** ** Who controls a source *)

Definition MULTI_TENANT_HOSTS : list string := [
  "github.com"; "www.github.com"; "gist.github.com"; "raw.githubusercontent.com"; "gitlab.com";
  "bitbucket.org"; "npmjs.com"; "www.npmjs.com"; "pypi.org"; "crates.io"; "huggingface.co";
  "sourceforge.net"].
Definition SECOND_LEVEL_SUFFIXES : list string := [
  "co.uk"; "org.uk"; "gov.uk"; "ac.uk"; "me.uk"; "net.uk"; "co.jp"; "ne.jp"; "or.jp"; "co.in";
  "co.nz"; "org.nz"; "net.nz"; "com.au"; "net.au"; "org.au"; "co.za"; "com.br"; "com.mx";
  "co.kr"; "com.cn"; "co.il"; "co.id"; "com.sg"; "com.tw"; "com.hk"; "co.th"].

Definition registrable_domain (host : string) : string :=
  match rev (split_on "." host "") with
  | last :: second :: rest =>
      match rest with
      | [] => host
      | third :: _ =>
          let last_two := second +:+ "." +:+ last in
          if bool_decide (last_two ∈ SECOND_LEVEL_SUFFIXES) then third +:+ "." +:+ last_two else last_two
      end
  | _ => host
  end.

(** ** Weights *)

Definition evidence_type_weight (t : EvidenceType) : f32 :=
  match t with
  | Specification => f32_one
  | SourceCode | ApiResponse => f32_lit 14260634 (-24)  (* 0.85 *)
  | Repository => f32_lit 13421773 (-24)  (* 0.8 *)
  | Dataset => f32_lit 11744051 (-24)  (* 0.7 *)
  | Documentation => f32_lit 10905190 (-24)  (* 0.65 *)
  | Manual | UserObservation | EvFile => f32_lit 15099494 (-25)  (* 0.45 *)
  | AgentObservation => f32_lit 11744051 (-25)  (* 0.35 *)
  | WebPage => f32_lit 10066330 (-25)  (* 0.3 *)
  | ServiceReceipt => f32_lit 14260634 (-24)  (* 0.85 *)
  | EvOther => f32_lit 10066330 (-26)  (* 0.15 *)
  end.
Definition verify_result_weight (result : string) : f32 :=
  match VerifyResult_parse result with
  | Some Confirmed => f32_one
  | Some Changed => f32_lit 10066330 (-25)  (* 0.3 *)
  | Some Unknown | Some Unreachable => f32_zero
  | Some NotConfirmed => SFopp (f32_lit 1 (-1))  (* -0.5 *)
  | Some Contradicted => SFopp f32_one
  | None => f32_zero
  end.
Definition identity_assurance_score (actor : Actor) : f32 :=
  match t_public_key actor, t_identity_uri actor with
  | Some _, Some _ => f32_one
  | Some _, None => f32_lit 11744051 (-24)  (* 0.7 *)
  | None, Some _ => f32_lit 10066330 (-25)  (* 0.3 *)
  | None, None => f32_zero
  end.
(** [180.0 * 86_400.0]. *)
Definition FRESHNESS_HALF_LIFE_SECONDS : f64 := f64_of_int 15552000.

(** What the code reads of a parsed URL ([host_str], [path_segments]); the
    standard library's [powf]; and the order of a [HashMap]'s values. *)
Class Corroborating `{U : GraphPlatform} := {
  url_host_str : Url → option string;
  url_path_segments : Url → option (list string);
  powf : f64 → f64 → f64;
  hash_order : gmap string f32 → list (string * f32) }.
Class CorroboratingLaws `{U : GraphPlatform} (K : Corroborating) : Prop := {
  (** every entry once *)
  hash_order_perm m : hash_order m ≡ₚ map_to_list m;
  (** a power of two with an exponent that is not positive *)
  powf_unit y : SFleb y (S754_zero false) = true →
    nonneg 53 1024 (powf (f64_of_int 2) y) ∧ SFleb (powf (f64_of_int 2) y) (f64_of_int 1) = true }.

Record EdgeCorroboration := {
  ec_edge_id : hash32;
  total_assertions : nat;
  active_assertions : nat;
  disputed_assertions : nat;
  distinct_actors : nat;
  source_groups : list string;
  agreement : f32;
  evidence_strength : f32;
  source_independence : f32;
  freshness : f32;
  identity_assurance : f32 }.

(** ** The queries *)

Record Observation := {
  o_id : hash32; o_assertion_id : hash32; o_observer : hash32; o_result : string;
  o_observed_at : Z; o_created_at : Z }.
Definition row_to_observation (id : hash32) (r : observation_row) : Observation :=
  {| o_id := id; o_assertion_id := ob_assertion_id r; o_observer := ob_observer r; o_result := ob_result r;
     o_observed_at := ob_observed_at r; o_created_at := ob_created_at r |}.
Definition list_observations (assertion : hash32) : tx (list Observation) :=
  gets (λ d, uncurry row_to_observation <$>
    filter (λ kr : hash32 * observation_row, ob_assertion_id kr.2 = assertion) (map_to_list (observations (proj d)))).

Section corroboration.
Context `{P : Platform} `{C : Codec} `{U : GraphPlatform} {K : Corroborating}.

Definition edges_get_by_id (id : hash32) : tx (option Edge) :=
  gets (λ d, row_to_edge id <$> edges (proj d) !! id).

Definition control_group_for_uri (uri : string) : option string :=
  parsed ← url_parse uri;
  host ← to_ascii_lowercase <$> url_host_str parsed;
  match list_find (.= host) MULTI_TENANT_HOSTS with
  | Some (_, canonical_host) =>
      let owner := match url_path_segments parsed with
                   | Some (s :: _) => if bool_decide (s = "") then None else Some s
                   | _ => None
                   end in
      Some (match owner with
            | Some o => canonical_host +:+ "/" +:+ o
            | None => canonical_host
            end)
  | None => Some (registrable_domain host)
  end.
Definition freshness_from_age (now timestamp : Z) : f32 :=
  let age_seconds := f64_of_int (Z.max (wrap_i64 (now - timestamp)) 0) in
  f64_as_f32 (powf (f64_of_int 2) (f64_div (SFopp age_seconds) FRESHNESS_HALF_LIFE_SECONDS)).

(** ** [get_edge_corroboration] *)

Definition actor_group (actor : hash32) : string := "actor:" +:+ to_hex actor.
(** [entry(group).or_insert(0.0)]. *)
Definition or_insert_zero (group : string) (weights : gmap string f32) : gmap string f32 :=
  match weights !! group with Some _ => weights | None => <[group := f32_zero]> weights end.
Definition group_of (actor : hash32) (item : Evidence) : string :=
  default (actor_group actor) (uri ← v_uri item; control_group_for_uri uri).
Definition weigh (actor : hash32) (weights : gmap string f32) (item : Evidence) : gmap string f32 :=
  let group := group_of actor item in
  let weight := evidence_type_weight (v_type item) in
  let weights := or_insert_zero group weights in
  if SFltb (default f32_zero (weights !! group)) weight then <[group := weight]> weights else weights.
Fixpoint weigh_all (active : list Assertion) (weights : gmap string f32) (scores : list f32) :
    tx (gmap string f32 * list f32) :=
  match active with
  | [] => mret (weights, scores)
  | a :: rest =>
      items ← assertions_list_evidence (a_id a);
      let weights :=
        match items with
        | [] => or_insert_zero (actor_group (a_actor_id a)) weights
        | _ => foldl (weigh (a_actor_id a)) weights items
        end in
      seen ← list_observations (a_id a);
      weigh_all rest weights (scores ++ (verify_result_weight ∘ o_result <$> seen))
  end.
(** A [BTreeSet]: ascending, without repetitions; ids compare by their bytes. *)
Definition by_bytes (a b : hash32) : Prop := String.le (raw a) (raw b).
#[export] Instance by_bytes_dec : RelDecision by_bytes := λ a b, decide (String.le (raw a) (raw b)).
Definition btree_set (l : list hash32) : list hash32 := merge_sort by_bytes (remove_dups l).
Fixpoint assure (actors : list hash32) (total : f32) : tx f32 :=
  match actors with
  | [] => mret total
  | id :: rest =>
      found ← actors_get_by_id id;
      assure rest (f32_add total (default f32_zero (identity_assurance_score <$> found)))
  end.
Definition is_status (s : AssertionStatus) (a : Assertion) : bool := bool_decide (a_status a = s).

Definition independence (distinct_source_groups : nat) : f32 :=
  f32_clamp (f32_div (f32_of_int (Z.of_nat (distinct_source_groups - 1))) (f32_of_int 2)) f32_zero f32_one.
Definition strength (weights : gmap string f32) : f32 :=
  if bool_decide (weights = ∅) then f32_zero
  else f32_div (f32_sum (hash_order weights).*2) (f32_of_int (Z.of_nat (size weights))).
Definition agree (active disputed : nat) (scores : list f32) : f32 :=
  let base_agreement :=
    if bool_decide (active = 0%nat) then f32_zero
    else f32_div (f32_of_int (Z.of_nat active)) (f32_of_int (Z.of_nat (active + disputed))) in
  match scores with
  | [] => base_agreement
  | _ =>
      let mean_obs := f32_div (f32_sum scores) (f32_of_int (Z.of_nat (length scores))) in
      let obs_agreement := f32_clamp (f32_div (f32_add mean_obs f32_one) (f32_of_int 2)) f32_zero f32_one in
      f32_div (f32_add base_agreement obs_agreement) (f32_of_int 2)
  end.
(** [max()] of the timestamps. *)
Definition latest (active : list Assertion) : option Z :=
  foldl (λ m a, let t := default (a_asserted_at a) (a_observed_at a) in
           Some (match m with Some m => Z.max m t | None => t end)) None active.

Definition get_edge_corroboration (now : Z) (edge : hash32) : txg EdgeCorroboration :=
  found ← g_storage (edges_get_by_id edge);
  match found with
  | None => throw (GNotFound ("edge " +:+ to_hex edge))
  | Some _ =>
      all_assertions ← g_storage (assertions_list_by_edge edge);
      let active := List.filter (is_status Active) all_assertions in
      let disputed_count := length (List.filter (is_status Disputed) all_assertions) in
      let actors := btree_set (a_actor_id <$> active) in
      '(weights, scores) ← g_storage (weigh_all active ∅ []);
      let groups := merge_sort String.le (hash_order weights).*1 in
      assurance ← (if bool_decide (actors = []) then mret f32_zero
                   else total ← g_storage (assure actors f32_zero);
                        mret (f32_div total (f32_of_int (Z.of_nat (length actors)))));
      mret {| ec_edge_id := edge;
              total_assertions := length all_assertions;
              active_assertions := length active;
              disputed_assertions := disputed_count;
              distinct_actors := length actors;
              source_groups := groups;
              agreement := agree (length active) disputed_count scores;
              evidence_strength := strength weights;
              source_independence := independence (length groups);
              freshness := from_option (freshness_from_age now) f32_zero (latest active);
              identity_assurance := assurance |}
  end.

(** ** The groups behind an edge *)

(** [g] stands for a source of the active assertion [a]. *)
Definition backs (d : db) (a : Assertion) (g : string) : Prop :=
  (g = actor_group (a_actor_id a) ∧ ∀ e, ¬ evidence_for d (a_id a) e) ∨
  ∃ e, evidence_for d (a_id a) e ∧ g = group_of (a_actor_id a) e.
Definition weights_ok (weights : gmap string f32) : Prop := map_Forall (λ _ w, f32_unit w) weights.

Lemma evidence_weight_unit t : f32_unit (evidence_type_weight t).
Proof. destruct t; (split; [by apply fin_finite || apply fin_zero|by vm_compute]). Qed.
Lemma identity_score_unit a : f32_unit (identity_assurance_score a).
Proof.
  unfold identity_assurance_score. destruct (t_public_key a), (t_identity_uri a);
    (split; [by apply fin_finite || apply fin_zero|by vm_compute]).
Qed.
Lemma result_weight_ok r : f32_weight (verify_result_weight r).
Proof.
  unfold verify_result_weight. destruct (VerifyResult_parse r) as [[]|];
    (split; [done|split; [by vm_compute|]]); vm_compute; eauto.
Qed.

Lemma or_insert_zero_ok g w : weights_ok w →
  weights_ok (or_insert_zero g w) ∧ ∀ g', is_Some (or_insert_zero g w !! g') ↔ g' = g ∨ is_Some (w !! g').
Proof.
  intros Hw. unfold or_insert_zero. destruct (w !! g) eqn:Hg.
  - split; [done|]. intros g'. split; [by right|]. intros [-> |?]; [by rewrite Hg|done].
  - split; [apply map_Forall_insert_2; [apply f32_unit_zero|done]|]. intros g'.
    destruct (decide (g' = g)) as [-> |]; [rewrite lookup_insert_eq|rewrite lookup_insert_ne by done]; naive_solver.
Qed.
Lemma weigh_ok actor w item : weights_ok w →
  weights_ok (weigh actor w item) ∧ ∀ g, is_Some (weigh actor w item !! g) ↔ g = group_of actor item ∨ is_Some (w !! g).
Proof.
  intros Hw. unfold weigh. destruct (or_insert_zero_ok (group_of actor item) w Hw) as [Hw' Hdom].
  destruct (SFltb _ _); [|done]. split; [apply map_Forall_insert_2; [apply evidence_weight_unit|done]|].
  intros g. rewrite lookup_insert_is_Some, Hdom. destruct (decide (g = group_of actor item)); naive_solver.
Qed.
Lemma weigh_items_ok actor items : ∀ w, weights_ok w →
  weights_ok (foldl (weigh actor) w items) ∧
  ∀ g, is_Some (foldl (weigh actor) w items !! g) ↔ (∃ e, e ∈ items ∧ g = group_of actor e) ∨ is_Some (w !! g).
Proof.
  induction items as [|e items IH]; intros w Hw; cbn [foldl].
  { split; [done|]. intros g. split; [by right|]. intros [(e & ?%not_elem_of_nil & _)|?]; done. }
  destruct (weigh_ok actor w e Hw) as [Hw' Hd]. destruct (IH _ Hw') as [Hw'' Hd']. split; [done|].
  intros g. rewrite Hd', Hd. setoid_rewrite elem_of_cons. naive_solver.
Qed.

Lemma weigh_all_ok d active : ∀ w scores w' scores' d', weights_ok w → Forall f32_weight scores →
  weigh_all active w scores d = Ok ((w', scores'), d') →
  d' = d ∧ weights_ok w' ∧ Forall f32_weight scores' ∧
  (length scores' ≤ length scores + length active * size (observations (proj d)))%nat ∧
  ∀ g, is_Some (w' !! g) ↔ (∃ a, a ∈ active ∧ backs d a g) ∨ is_Some (w !! g).
Proof.
  induction active as [|a active IH]; intros w scores w' scores' d' Hw Hs.
  { intros [= <- <- <-]. split_and!; [done|done|done|cbn; lia|]. intros g. split; [by right|].
    intros [(a & ?%not_elem_of_nil & _)|?]; done. }
  cbn [weigh_all]. cbv [mbind stm_bind]. destruct (assertions_list_evidence _ _) as [[items d1]|] eqn:Hl; [|done].
  apply list_evidence_spec in Hl as [-> Hl]. cbn [list_observations gets].
  set (w1 := match items with [] => _ | _ => _ end).
  set (seen := _ <$> filter _ (map_to_list (observations (proj d)))).
  assert (weights_ok w1 ∧ ∀ g, is_Some (w1 !! g) ↔ backs d a g ∨ is_Some (w !! g)) as [Hw1 Hd1].
  { unfold w1, backs. destruct items as [|e items].
    - destruct (or_insert_zero_ok (actor_group (a_actor_id a)) w Hw) as [? Hd]. split; [done|].
      intros g. rewrite Hd. assert (∀ e, ¬ evidence_for d (a_id a) e) as Hno.
      { intros e He%Hl. by apply not_elem_of_nil in He. }
      naive_solver.
    - destruct (weigh_items_ok (a_actor_id a) (e :: items) w Hw) as [? Hd]. split; [done|].
      intros g. rewrite Hd. setoid_rewrite Hl. assert (evidence_for d (a_id a) e) by (apply Hl; by left).
      naive_solver. }
  assert (length seen ≤ size (observations (proj d)))%nat as Hseen.
  { unfold seen. rewrite length_fmap, <-length_map_to_list. apply length_filter. }
  intros Hrun. apply IH in Hrun as (-> & Hw' & Hs' & Hlen & Hd'); [|done|].
  - split_and!; [done..| |].
    { rewrite length_app, length_fmap in Hlen. rewrite length_cons. lia. }
    intros g. rewrite Hd', Hd1. setoid_rewrite elem_of_cons. naive_solver.
  - apply Forall_app. split; [done|]. apply Forall_fmap, Forall_forall. intros o _. apply result_weight_ok.
Qed.

(** ** The signals *)

Context {KL : CorroboratingLaws K}.

Lemma independence_spec n : Z.of_nat n < 2 ^ 64 →
  f32_unit (independence n) ∧
  ((n ≤ 1)%nat → independence n = f32_zero) ∧
  (n = 2%nat → independence n = f32_lit 1 (-1)) ∧
  ((3 ≤ n)%nat → SFleb f32_one (independence n) = true).
Proof.
  intros Hn. destruct (f32_of_int_exact 2) as [H2 H2u]; [done|].
  destruct (f32_of_int_fin (Z.of_nat (n - 1))) as [Hx _]; [lia|].
  assert (0 < f32_units (f32_of_int 2)) as Hpos by (by vm_compute).
  destruct (div_spec 24 128 ltac:(done) ltac:(done) _ _ Hx H2 Hpos) as (Hnn & Hge & _).
  split_and!.
  - by apply f32_clamp_unit.
  - intros Hle. unfold independence. by replace (n - 1)%nat with 0%nat by lia.
  - by intros ->.
  - intros Hle. pose proof (f32_clamp_unit _ Hnn) as [Hf _]. apply f32_leb_units; [done|exact Hf|].
    unfold independence, f32_div. rewrite f32_clamp_full; [done|exact Hnn|].
    apply Hge; [done|]. rewrite f32_one_units, (Z.mul_comm (f32_units (f32_of_int (Z.of_nat (n - 1))))).
    apply Z.mul_le_mono_nonneg_l; [apply Z.lt_le_incl; by apply unit1_pos|]. apply f32_of_int_mono; lia.
Qed.

Lemma strength_unit w : weights_ok w → Z.of_nat (size w) < 2 ^ 24 → f32_unit (strength w).
Proof.
  intros Hw Hs. unfold strength, f32_sum. case_bool_decide as He; [apply f32_unit_zero|].
  assert (length (hash_order w).*2 = size w) as Hlen.
  { by rewrite length_fmap, hash_order_perm, length_map_to_list. }
  rewrite <-Hlen in *. apply f32_mean_unit; [by right| |done|].
  - intros Hnil. apply He, map_size_empty_iff. by rewrite <-Hlen, Hnil.
  - apply Forall_fmap, Forall_forall. intros [g x] Hin. rewrite hash_order_perm in Hin.
    apply elem_of_map_to_list in Hin. by apply (Hw g x).
Qed.

Lemma base_agreement_unit active disputed : active ≠ 0%nat → Z.of_nat (active + disputed) < 2 ^ 24 →
  f32_unit (f32_div (f32_of_int (Z.of_nat active)) (f32_of_int (Z.of_nat (active + disputed)))).
Proof.
  intros Ha Hn. destruct (f32_of_int_exact (Z.of_nat active)) as [Hx Hxu]; [lia|].
  destruct (f32_of_int_exact (Z.of_nat (active + disputed))) as [Hy Hyu]; [lia|].
  assert (0 < f32_units f32_one) by (by vm_compute).
  apply f32_div_unit; [done|done|rewrite Hyu; apply Z.mul_pos_pos; lia|].
  rewrite Hxu, Hyu. apply Z.mul_le_mono_nonneg_r; lia.
Qed.
Lemma obs_agreement_between scores : scores ≠ [] → Z.of_nat (length scores) < 2 ^ 64 → Forall f32_weight scores →
  let x := f32_clamp (f32_div (f32_add (f32_div (f32_sum scores) (f32_of_int (Z.of_nat (length scores)))) f32_one)
    (f32_of_int 2)) f32_zero f32_one in
  x = S754_zero true ∨ f32_unit x.
Proof.
  intros Hne Hlen Hw x. destruct (f32_sum_weights scores (S754_zero true)) as [Hsum _]; [done|done|].
  destruct (f32_of_int_fin (Z.of_nat (length scores))) as [Hn Hnpos]; [lia|].
  assert (0 < f32_units f32_one) by (by vm_compute).
  assert (0 < f32_units (f32_of_int (Z.of_nat (length scores)))) as Hpos.
  { destruct scores; [done|]. cbn [length] in *. lia. }
  assert (f32_div (f32_sum scores) (f32_of_int (Z.of_nat (length scores))) ≠ S754_nan) as Hmean
    by (by apply div_number).
  assert (f32_add (f32_div (f32_sum scores) (f32_of_int (Z.of_nat (length scores)))) f32_one ≠ S754_nan) as Hadd.
  { apply add_number; [done..|]. right. vm_compute. eauto. }
  set (y := f32_div (f32_add _ f32_one) (f32_of_int 2)) in *.
  assert (y ≠ S754_nan) as Hy. { apply div_number; [done..| |by vm_compute]. by apply fin_finite. }
  assert (f32_is_nan x = false) as Hxn.
  { unfold x, f32_clamp. destruct (SFltb y f32_zero); [done|]. destruct (SFltb f32_one y); [done|]. by destruct y. }
  assert (valid 24 128 x) as Hv.
  { unfold x, f32_clamp. destruct (SFltb y f32_zero); [done|]. destruct (SFltb f32_one y); [by vm_compute|].
    by apply div_valid. }
  destruct (f32_clamp_range y f32_zero f32_one) as [Hc|[H0 H1]]; [done..|unfold x in Hxn; congruence|].
  by apply f32_between_cases.
Qed.
Lemma agree_unit active disputed scores : Z.of_nat (active + disputed) < 2 ^ 24 → Z.of_nat (length scores) < 2 ^ 64 →
  Forall f32_weight scores → f32_unit (agree active disputed scores).
Proof.
  intros Hn Hlen Hw. unfold agree.
  assert (f32_unit (if bool_decide (active = 0%nat) then f32_zero
    else f32_div (f32_of_int (Z.of_nat active)) (f32_of_int (Z.of_nat (active + disputed))))) as Hb.
  { case_bool_decide; [apply f32_unit_zero|by apply base_agreement_unit]. }
  set (base := if bool_decide _ then _ else _) in *. clearbody base.
  destruct scores as [|s scores]; [done|].
  destruct (obs_agreement_between (s :: scores)) as [-> | Hx]; [done..| |by apply f32_half_unit].
  rewrite f32_add_neg_zero by done.
  pose proof (f32_half_unit base f32_zero Hb f32_unit_zero) as H.
  replace (f32_add base f32_zero) with base in H; [done|]. by destruct Hb as [[] _].
Qed.

Lemma freshness_unit now t : f32_unit (freshness_from_age now t).
Proof.
  unfold freshness_from_age. pose proof (wrap_i64_range (now - t)) as [? ?].
  set (age := f64_of_int (Z.max (wrap_i64 (now - t)) 0)).
  destruct (powf_unit (f64_div (SFopp age) FRESHNESS_HALF_LIFE_SECONDS)) as [Hnn Hle].
  { apply div_nonpos; [done..| | |by vm_compute].
    - apply normalize_nonneg; [done..|lia].
    - by apply fin_finite. }
  set (x := powf _ _) in *. destruct Hnn as [| |m e Hb]; [apply f32_unit_zero|done|].
  assert (fin 53 1024 (f64_of_int 1)) as H1 by (by apply fin_finite).
  apply (leb_units 53 1024) in Hle; [|first [done|by apply fin_finite]..].
  cbn [units] in Hle. pose proof (bounded_emin 53 1024 m e Hb) as Hmin.
  change (f64_units (f64_of_int 1)) with (2 ^ (0 - -1074)) in Hle. change (emin 53 1024) with (-1074) in *.
  unfold f64_as_f32, convert. apply f32_unit_intro; [by apply normalize_nonneg|].
  apply normalize_le; [done..|]. apply (dle_at (-1074)); [lia|by vm_compute|].
  etransitivity; [exact Hle|]. by vm_compute.
Qed.

Lemma assure_pure d l : ∀ acc t d', assure l acc d = Ok (t, d') → d' = d.
Proof.
  induction l as [|id l IH]; intros acc t d'; [by intros [= _ <-]|].
  cbn [assure]. cbv [mbind stm_bind]. destruct (actors_get_by_id id d) as [[found d1]|] eqn:Hg; [|done].
  assert (d1 = d) as -> by (revert Hg; unfold actors_get_by_id; by intros; minv). apply IH.
Qed.
Lemma assure_unit d l : ∀ acc n t d', 0 ≤ n → n + Z.of_nat (length l) < 2 ^ 24 →
  f32_fin acc → f32_units acc ≤ n * f32_units f32_one → assure l acc d = Ok (t, d') →
  f32_fin t ∧ f32_units t ≤ (n + Z.of_nat (length l)) * f32_units f32_one.
Proof.
  induction l as [|id l IH]; intros acc n t d' Hn Hlen Hf Hle.
  { intros [= <- _]. by rewrite Z.add_0_r. }
  cbn [assure]. cbv [mbind stm_bind]. destruct (actors_get_by_id id d) as [[found d1]|] eqn:Hg; [|done].
  assert (d1 = d) as -> by (revert Hg; unfold actors_get_by_id; by intros; minv).
  intros Hrun. rewrite length_cons, Nat2Z.inj_succ, <-Z.add_1_l, Z.add_assoc in *.
  assert (f32_unit (default f32_zero (identity_assurance_score <$> found))) as Hx.
  { destruct found; [apply identity_score_unit|apply f32_unit_zero]. }
  destruct (f32_sum_units [default f32_zero (identity_assurance_score <$> found)] acc n) as [Hf' Hle'];
    [done|cbn; lia|done|done|by apply Forall_singleton|].
  change (Z.of_nat (length [_])) with 1 in Hle'.
  apply (IH _ (n + 1) _ _) in Hrun; [done|lia|lia|exact Hf'|exact Hle'].
Qed.

(** ** The whole *)

Lemma btree_set_spec l : NoDup (btree_set l) ∧ (∀ x, x ∈ btree_set l ↔ x ∈ l) ∧
  length (btree_set l) = size (list_to_set l : gset hash32) ∧ (length (btree_set l) ≤ length l)%nat.
Proof.
  unfold btree_set. split_and!.
  - rewrite merge_sort_Permutation. apply NoDup_remove_dups.
  - intros x. by rewrite merge_sort_Permutation, elem_of_remove_dups.
  - rewrite merge_sort_Permutation. rewrite <-(size_list_to_set (C:=gset hash32)) by apply NoDup_remove_dups.
    f_equal. apply set_eq. intros x. by rewrite !elem_of_list_to_set, elem_of_remove_dups.
  - rewrite merge_sort_Permutation. induction l as [|x l IH]; [done|]. cbn. case_decide; cbn; lia.
Qed.

(** The groups are listed once each, in order. *)
Lemma groups_spec w : let groups := merge_sort String.le (hash_order w).*1 in
  NoDup groups ∧ StronglySorted String.le groups ∧ length groups = size w ∧
  ∀ g, g ∈ groups ↔ is_Some (w !! g).
Proof.
  intros groups.
  assert (groups ≡ₚ (map_to_list w).*1) as Hperm by (unfold groups; by rewrite merge_sort_Permutation, hash_order_perm).
  split_and!.
  - rewrite Hperm. apply NoDup_fst_map_to_list.
  - apply StronglySorted_merge_sort; apply _.
  - by rewrite Hperm, length_fmap, length_map_to_list.
  - intros g. rewrite Hperm, list_elem_of_fmap. split.
    + intros ([g' x] & -> & Hx). exists x. by apply elem_of_map_to_list.
    + intros [x Hx]. exists (g, x). by rewrite elem_of_map_to_list.
Qed.
Lemma status_spec s a : is_status s a = true ↔ a_status a = s.
Proof. apply bool_decide_eq_true. Qed.
Lemma elem_of_status s all a : a ∈ List.filter (is_status s) all ↔ a ∈ all ∧ a_status a = s.
Proof. by rewrite list_elem_of_In, List.filter_In, <-list_elem_of_In, status_spec. Qed.

Lemma status_lengths all :
  (length (List.filter (is_status Active) all) + length (List.filter (is_status Disputed) all) ≤ length all)%nat.
Proof.
  induction all as [|a all IH]; [done|]. cbn [List.filter length].
  destruct (is_status Active a) eqn:H1, (is_status Disputed a) eqn:H2; cbn [length]; [|lia..].
  apply status_spec in H1, H2. congruence.
Qed.

Lemma get_edge_corroboration_none now edge d : edges (proj d) !! edge = None →
  get_edge_corroboration now edge d = Err (GNotFound ("edge " +:+ to_hex edge)).
Proof.
  intros He. unfold get_edge_corroboration. cbv [mbind stm_bind]. rewrite g_storage_run.
  unfold edges_get_by_id, gets. by rewrite He.
Qed.
(** What a run that ends well computed. *)
Lemma get_edge_corroboration_ok now edge d c d' : get_edge_corroboration now edge d = Ok (c, d') →
  ∃ all w scores assurance,
    let active := List.filter (is_status Active) all in
    let disputed := length (List.filter (is_status Disputed) all) in
    let actors := btree_set (a_actor_id <$> active) in
    d' = d ∧ is_Some (edges (proj d) !! edge) ∧
    assertions_list_by_edge edge d = Ok (all, d) ∧
    weigh_all active ∅ [] d = Ok ((w, scores), d) ∧
    (assurance = f32_zero ∨ actors ≠ [] ∧ ∃ total, assure actors f32_zero d = Ok (total, d) ∧
      assurance = f32_div total (f32_of_int (Z.of_nat (length actors)))) ∧
    c = {| ec_edge_id := edge; total_assertions := length all; active_assertions := length active;
           disputed_assertions := disputed; distinct_actors := length actors;
           source_groups := merge_sort String.le (hash_order w).*1;
           agreement := agree (length active) disputed scores; evidence_strength := strength w;
           source_independence := independence (length (merge_sort String.le (hash_order w).*1));
           freshness := from_option (freshness_from_age now) f32_zero (latest active);
           identity_assurance := assurance |}.
Proof.
  unfold get_edge_corroboration. cbv [mbind stm_bind]. rewrite g_storage_run. cbn [edges_get_by_id gets].
  destruct (edges (proj d) !! edge) as [row|] eqn:He; [|done]. cbn [fmap option_fmap option_map].
  rewrite g_storage_run. destruct (assertions_list_by_edge edge d) as [[all d1]|] eqn:Hall; [|done].
  apply list_by_edge_spec in Hall as Hd. destruct Hd as [-> _].
  rewrite g_storage_run. set (active := List.filter (is_status Active) all).
  destruct (weigh_all active ∅ [] d) as [[[w scores] d1]|] eqn:Hw; [|done].
  apply weigh_all_ok in Hw as Hd; [|apply map_Forall_empty|done]. destruct Hd as [-> _].
  case_bool_decide as Hno.
  - intros [= <- <-]. exists all, w, scores, f32_zero. split_and!; try done. by left.
  - rewrite g_storage_run. destruct (assure _ f32_zero d) as [[total d1]|] eqn:Ha; [|done].
    apply assure_pure in Ha as Hd. subst d1. intros [= <- <-]. exists all, w, scores. eexists.
    split_and!; try reflexivity; try done. right. split; [done|]. by exists total.
Qed.
End corroboration.

(** ** Properties *)

Section properties.
Context `{P : Platform} `{C : Codec} `{U : GraphPlatform} {K : Corroborating} {KL : CorroboratingLaws K}.

(** A signal between zero and one. *)
Definition signal (x : f32) : Prop := SFleb f32_zero x = true ∧ SFleb x f32_one = true.

(** C22: The corroboration of an edge counts independent sources, not voices.
    An edge that does not exist is reported as such; otherwise what is
    returned says this, and nothing is changed.  The assertions are counted
    by status, and the actors of the active ones once each.  The source
    groups are listed in order and without repetition, and are exactly those
    behind some active assertion: the controllers of its evidence, or the
    asserting actor for evidence that names nobody and for a bare claim.
    Independence is zero for one group however many assertions cite it, a
    half for two, and full from three on.  And as long as fewer than [2 ^ 24]
    assertions, groups and observations are involved, all five signals are
    numbers between zero and one, in whatever order the map is summed. *)
Theorem corroboration_counts_groups now edge d :
  (edges (proj d) !! edge = None →
   get_edge_corroboration now edge d = Err (GNotFound ("edge " +:+ to_hex edge))) ∧
  ∀ c d', get_edge_corroboration now edge d = Ok (c, d') →
  ∃ all, d' = d ∧ (∀ a, a ∈ all ↔ asserted_on d edge a) ∧
    let active := List.filter (is_status Active) all in
    total_assertions c = length all ∧ active_assertions c = length active ∧
    disputed_assertions c = length (List.filter (is_status Disputed) all) ∧
    distinct_actors c = size (list_to_set (a_actor_id <$> active) : gset hash32) ∧
    NoDup (source_groups c) ∧ StronglySorted String.le (source_groups c) ∧
    (∀ g, g ∈ source_groups c ↔ ∃ a, asserted_on d edge a ∧ a_status a = Active ∧ backs d a g) ∧
    let groups := length (source_groups c) in
    ((groups ≤ 1)%nat → source_independence c = f32_zero) ∧
    (groups = 2%nat → source_independence c = f32_lit 1 (-1)) ∧
    ((3 ≤ groups)%nat → Z.of_nat groups < 2 ^ 24 → SFleb f32_one (source_independence c) = true) ∧
    (Z.of_nat (length all) < 2 ^ 24 → Z.of_nat groups < 2 ^ 24 →
     Z.of_nat (size (observations (proj d))) * Z.of_nat (length all) < 2 ^ 64 →
     signal (agreement c) ∧ signal (evidence_strength c) ∧ signal (source_independence c) ∧
     signal (freshness c) ∧ signal (identity_assurance c)).
Proof.
  split; [apply get_edge_corroboration_none|]. intros c d' Hrun.
  apply get_edge_corroboration_ok in Hrun as (all & w & scores & assurance & -> & _ & Hall & Hw & Hassure & ->).
  apply list_by_edge_spec in Hall as [_ Hall].
  apply weigh_all_ok in Hw as (_ & Hwok & Hsc & Hlen & Hdom); [|apply map_Forall_empty|done].
  set (active := List.filter (is_status Active) all) in *.
  set (actors := btree_set (a_actor_id <$> active)) in *.
  destruct (btree_set_spec (a_actor_id <$> active)) as (_ & _ & Hsize & Hshort). fold actors in Hsize, Hshort.
  pose proof (status_lengths all) as Hst. fold active in Hst.
  set (groups := merge_sort String.le (hash_order w).*1).
  destruct (groups_spec w) as (Hnd & Hsort & Hgl & Hin). fold groups in Hnd, Hsort, Hgl, Hin.
  exists all. split; [done|]. split; [exact Hall|]. cbn. fold active groups.
  assert (∀ g, g ∈ groups ↔ ∃ a, asserted_on d edge a ∧ a_status a = Active ∧ backs d a g) as Hbacks.
  { intros g. rewrite Hin, Hdom, lookup_empty. split.
    - intros [(a & [Ha Hs]%elem_of_status & Hb)|[? [=]]]. exists a. by rewrite <-Hall.
    - intros (a & Ha%Hall & Hs & Hb). left. exists a. split; [by apply elem_of_status|done]. }
  split; [done|]. split; [done|]. split; [done|]. split; [exact Hsize|]. split; [exact Hnd|].
  split; [exact Hsort|]. split; [exact Hbacks|].
  assert (∀ x, f32_unit x → signal x) as Hsig by (intros x; apply f32_unit_bounds).
  split; [|split; [|split]].
  - intros Hg. unfold independence. by replace (length groups - 1)%nat with 0%nat by lia.
  - by intros ->.
  - intros Hg Hs. by apply independence_spec; [lia|].
  - intros Hn Hg Hobs. split_and!; apply Hsig.
    + apply agree_unit; [lia| |done]. cbn in Hlen. nia.
    + apply strength_unit; [done|by rewrite <-Hgl].
    + apply independence_spec. lia.
    + destruct (latest active); [apply freshness_unit|apply f32_unit_zero].
    + destruct Hassure as [-> |(Hne & total & Ha & ->)]; [apply f32_unit_zero|].
      rewrite length_fmap in Hshort.
      destruct (assure_unit d actors f32_zero 0 total d) as [Hf Hle]; [done|lia|done|done|done|].
      destruct (f32_of_int_exact (Z.of_nat (length actors))) as [Hn' Hnu]; [lia|].
      apply f32_div_unit; [done|done| |by rewrite Hnu].
      rewrite Hnu, f32_one_units. apply Z.mul_pos_pos; [destruct actors; [done|cbn; lia]|by apply unit1_pos].
Qed.
End properties.

(** ** Witnesses *)

Section witnesses.
#[local] Existing Instance Toy.platform.
#[local] Existing Instance demo_codec.

#[local] Existing Instance ToyGraph.plain_urls.

(** URLs that are their own host, a map in the order of its keys, and a power
    that never decays. *)
#[local] Instance plain_corroborating : Corroborating := {|
  url_host_str := Some; url_path_segments := λ _, Some ["example-org"; "repo"];
  powf := λ _ _, f64_of_int 1; hash_order := map_to_list |}.
Lemma plain_corroborating_laws : CorroboratingLaws plain_corroborating.
Proof. split; [done|]. intros y _. split; [by apply nonneg_finite|done]. Qed.

Example control_groups :
  control_group_for_uri "GitHub.com" = Some "github.com/example-org" ∧
  control_group_for_uri "docs.example.com" = Some "example.com" ∧
  control_group_for_uri "www.foo.co.uk" = Some "foo.co.uk" ∧
  control_group_for_uri "localhost" = Some "localhost".
Proof. vm_compute. done. Qed.

Definition alice_edge : hash32 := EdgeId_from_triple page "implements" concept.
(** One voice with one source is no corroboration. *)
Lemma corroboration_counts_groups_witness : ∃ c,
  get_edge_corroboration 200 alice_edge evidenced_db = Ok (c, evidenced_db) ∧
  active_assertions c = 1%nat ∧ source_independence c = f32_zero ∧ signal (evidence_strength c).
Proof.
  assert (match get_edge_corroboration 200 alice_edge evidenced_db with
          | Ok (c, _) => (active_assertions c, length (source_groups c), total_assertions c)
          | Err _ => (0, 0, 0)%nat end = (1, 1, 1)%nat) as Hsum by (vm_compute; reflexivity).
  destruct (get_edge_corroboration 200 alice_edge evidenced_db) as [[c d']|e] eqn:Hrun; [|discriminate Hsum].
  injection Hsum as Ha Hg Ht.
  destruct (@corroboration_counts_groups Toy.platform demo_codec ToyGraph.plain_urls plain_corroborating
    plain_corroborating_laws 200 alice_edge evidenced_db) as [_ H].
  destruct (H c d' Hrun) as (all & -> & _ & Htot & _ & _ & _ & _ & _ & _ & Hone & _ & _ & Hsig).
  exists c. split; [reflexivity|]. split; [exact Ha|]. split; [apply Hone; rewrite Hg; lia|].
  apply Hsig; [rewrite <-Htot, Ht; lia|rewrite Hg; lia|].
  rewrite <-Htot, Ht. vm_compute. reflexivity.
Defined.
End witnesses.
