(* ===== verification/Authority.v ===== *)
(** * The authority of a node

    [oag-graph]: [authority.rs]; [oag-storage]: [repo/node_authority.rs].
    PageRank by power iteration over the edges of the graph, in binary32.
    [scores\[id\]] and [unwrap] may panic: a panic is [None].  The order in
    which a [HashMap] is iterated is a parameter. *)

From S2P Require Import Prelude Core Envelope Store Projector EventLog Frame Scenario Chain Replay Service Graph Rebuild Typing Queries Search Bytes FloatFacts Float32 Float64 Sync SyncFacts Catchup Corroboration.

#[local] Open Scope Z_scope.

Definition DAMPING : f32 := f32_lit 14260634 (-24).  (* 0.85 *)
Definition MAX_ITERATIONS : nat := 50.
Definition CONVERGENCE_EPSILON : f32 := f32_lit 8796093 (-43).  (* 1e-6 *)

Record AuthoritySummary := { nodes_scored : nat; edges_considered : nat; iterations : nat }.

Class EdgeOrder := {
  edge_order : gmap hash32 (list hash32) → list (hash32 * list hash32);
  score_order : gmap hash32 f32 → list (hash32 * f32) }.
Class EdgeOrderLaws (O : EdgeOrder) : Prop := {
  (** every entry once *)
  edge_order_perm m : edge_order m ≡ₚ map_to_list m;
  score_order_perm m : score_order m ≡ₚ map_to_list m }.

(** ** [repo/node_authority.rs] *)

Record authority_row := AuthorityRow { na_score : f64; na_computed_at : Z }.
Abbreviation node_authority := (gmap hash32 authority_row).

Definition authority_upsert (node_id : hash32) (score : f32) (computed_at : Z) (t : node_authority) : node_authority :=
  <[node_id := AuthorityRow (f32_as_f64 score) computed_at]> t.
Definition authority_clear_all (t : node_authority) : node_authority := ∅.
Definition authority_get (node_id : hash32) (t : node_authority) : option f32 :=
  (λ r, f64_as_f32 (na_score r)) <$> t !! node_id.

(** ** [authority.rs] *)

Section authority.
Context {O : EdgeOrder}.

Abbreviation scores := (gmap hash32 f32).

(** [entry(s).or_default().push(o)]. *)
Definition out_edges (edges : list (hash32 * hash32)) : gmap hash32 (list hash32) :=
  foldl (λ m e, <[e.1 := default [] (m !! e.1) ++ [e.2]]> m) ∅ edges.
Definition is_dangling (out : gmap hash32 (list hash32)) (id : hash32) : bool :=
  match out !! id with Some targets => bool_decide (targets = []) | None => true end.

Definition spread_one (share : f32) (new : option scores) (target : hash32) : option scores :=
  new ← new;
  old ← new !! target;
  Some (<[target := f32_add old share]> new).
Definition spread (old : scores) (new : option scores) (entry : hash32 * list hash32) : option scores :=
  let '(source, targets) := entry in
  if bool_decide (targets = []) then new
  else
    score ← old !! source;
    let share := f32_div (f32_mul DAMPING score) (f32_of_int (Z.of_nat (length targets))) in
    foldl (spread_one share) new targets.
Definition base_score (n : nat) (dangling_mass : f32) : f32 :=
  f32_add (f32_div (f32_sub f32_one DAMPING) (f32_of_int (Z.of_nat n)))
    (f32_div (f32_mul DAMPING dangling_mass) (f32_of_int (Z.of_nat n))).
Definition uniform (nodes : list hash32) (x : f32) : scores := list_to_map ((λ id, (id, x)) <$> nodes).
(** One iteration: the new scores and how far they moved. *)
Definition iteration (nodes : list hash32) (out : gmap hash32 (list hash32)) (old : scores) :
    option (scores * f32) :=
  dangling ← mapM (λ id, old !! id) (List.filter (is_dangling out) nodes);
  let base := base_score (length nodes) (f32_sum dangling) in
  new ← foldl (spread old) (Some (uniform nodes base)) (edge_order out);
  moved ← mapM (λ id, x ← new !! id; y ← old !! id; Some (SFabs (f32_sub x y))) nodes;
  Some (new, f32_sum moved).
(** [for iteration in 0..MAX_ITERATIONS], [left] of them to go. *)
Fixpoint power_iteration (nodes : list hash32) (out : gmap hash32 (list hash32)) (rounds : nat)
    (old : scores) (run : nat) : option (scores * nat) :=
  match rounds with
  | 0%nat => Some (old, run)
  | S rounds =>
      '(new, diff) ← iteration nodes out old;
      if SFltb diff CONVERGENCE_EPSILON then Some (new, S run)
      else power_iteration nodes out rounds new (S run)
  end.
Definition pagerank (edges : list (hash32 * hash32)) : option (scores * nat) :=
  let nodes := btree_set (edges ≫= λ e, [e.1; e.2]) in
  if bool_decide (nodes = []) then Some (∅, 0%nat)
  else
    power_iteration nodes (out_edges edges) MAX_ITERATIONS
      (uniform nodes (f32_div f32_one (f32_of_int (Z.of_nat (length nodes))))) 0.

Context `{P : Platform}.
(** [edges_repo::list_all]. *)
Definition edges_list_all (d : db) : list Edge := uncurry row_to_edge <$> map_to_list (edges (proj d)).
Definition recompute_authority (now : Z) (d : db) (t : node_authority) : option (AuthoritySummary * node_authority) :=
  let all_edges := edges_list_all d in
  let edge_pairs := (λ e, (e_subject e, e_object e)) <$> all_edges in
  '(found, run) ← pagerank edge_pairs;
  let t := foldl (λ t kv, authority_upsert kv.1 kv.2 now t) (authority_clear_all t) (score_order found) in
  Some ({| nodes_scored := size found; edges_considered := length all_edges; iterations := run |}, t).
End authority.

(** ** The base score *)

Lemma damping_pos : f32_fin DAMPING ∧ 0 < f32_units DAMPING.
Proof. split; [by apply fin_finite|by vm_compute]. Qed.
Lemma base_score_nonneg n l : (0 < n)%nat → Z.of_nat n < 2 ^ 64 → Forall f32_nonneg l →
  f32_nonneg (base_score n (f32_sum l)) ∧
  SFleb (f32_div (f32_sub f32_one DAMPING) (f32_of_int (Z.of_nat n))) (base_score n (f32_sum l)) = true.
Proof.
  intros Hn Hlt Hl. destruct (count_pos n Hn Hlt) as [Hf Hpos]. destruct damping_pos as [Hd Hdpos].
  unfold base_score. set (jump := f32_div (f32_sub f32_one DAMPING) _).
  assert (f32_nonneg jump) as Hj by (apply nonneg_div; [by apply nonneg_finite|done|done]).
  destruct (nonneg_sum l Hl) as [[_ ->]|Hs].
  - assert (f32_add jump (f32_div (f32_mul DAMPING (S754_zero true)) (f32_of_int (Z.of_nat n))) = jump) as ->.
    { assert (f32_mul DAMPING (S754_zero true) = S754_zero true) as -> by done.
      destruct Hf as [|m e Hb]; [done|]. by destruct Hj. }
    split; [done|by apply nonneg_leb_refl].
  - apply nonneg_add; [done|]. apply nonneg_div; [by apply nonneg_mul|done|done].
Qed.

(** ** One iteration *)

(** Rewrite a [mapM] with an equation about it, up to conversion. *)
Ltac rewrite_mapM H :=
  match type of H with ?m = _ =>
    match goal with |- context [mapM ?f ?l] => change (mapM f l) with m; rewrite H end end.

Section iteration.
Context {O : EdgeOrder} {OL : EdgeOrderLaws O}.
Context (nodes : list hash32) (base : f32) (Hbase : f32_nonneg base).

(** The scores of exactly the nodes; one that was not [touched] has [base]. *)
Definition raised (touched : hash32 → Prop) (m : gmap hash32 f32) : Prop :=
  (∀ id, is_Some (m !! id) ↔ id ∈ nodes) ∧
  ∀ id x, m !! id = Some x → f32_nonneg x ∧ SFleb base x = true ∧ (touched id ∨ x = base).

Lemma uniform_lookup l x id : uniform l x !! id = (if decide (id ∈ l) then Some x else None).
Proof.
  unfold uniform. induction l as [|y l IH]; [done|]. rewrite fmap_cons, list_to_map_cons.
  destruct (decide (id = y)) as [-> |Hne].
  - rewrite lookup_insert_eq. rewrite decide_True by (by left). done.
  - rewrite lookup_insert_ne, IH by done. destruct (decide (id ∈ l)) as [H|H].
    + by rewrite decide_True by (by right).
    + rewrite decide_False; [done|]. by intros [?|?]%elem_of_cons.
Qed.
Lemma raised_uniform : raised (λ _, False) (uniform nodes base).
Proof.
  split.
  - intros id. rewrite uniform_lookup. destruct (decide (id ∈ nodes)); split; done.
  - intros id x. rewrite uniform_lookup. destruct (decide (id ∈ nodes)); [|done]. intros [= <-].
    split_and!; [done|by apply nonneg_leb_refl|by right].
Qed.
Lemma raised_weaken (T T' : hash32 → Prop) m : (∀ id, T id → T' id) → raised T m → raised T' m.
Proof. intros HT [Hd Hr]. split; [done|]. intros id x Hx. destruct (Hr id x Hx) as (? & ? & [?|?]); auto. Qed.

Lemma spread_one_ok T share m target : f32_nonneg share → raised T m → target ∈ nodes →
  ∃ m', spread_one share (Some m) target = Some m' ∧ raised (λ id, T id ∨ id = target) m'.
Proof.
  intros Hs [Hd Hr] Ht. destruct (proj2 (Hd target) Ht) as [old Hold]. cbn. rewrite Hold. cbn.
  eexists. split; [done|]. destruct (Hr target old Hold) as (Hn & Hle & _).
  destruct (nonneg_add old share Hn Hs) as [Hn' Hle']. split.
  - intros id. rewrite lookup_insert_is_Some, Hd. destruct (decide (target = id)) as [<- |]; tauto.
  - intros id x. destruct (decide (id = target)) as [-> |Hne].
    + rewrite lookup_insert_eq. intros [= <-]. split_and!; [done| |by left; right].
      by eapply nonneg_leb_trans; [..|exact Hle|exact Hle'].
    + rewrite lookup_insert_ne by done. intros Hx. destruct (Hr id x Hx) as (? & ? & [?|?]); auto.
Qed.
Lemma spread_all_ok T share targets : f32_nonneg share → (∀ t, t ∈ targets → t ∈ nodes) → ∀ m, raised T m →
  ∃ m', foldl (spread_one share) (Some m) targets = Some m' ∧ raised (λ id, T id ∨ id ∈ targets) m'.
Proof.
  intros Hs. revert T. induction targets as [|t targets IH]; intros T Hin m Hm.
  { exists m. split; [done|]. eapply raised_weaken; [|exact Hm]. by left. }
  destruct (spread_one_ok T share m t Hs Hm) as (m1 & H1 & Hm1); [apply Hin; by left|].
  destruct (IH (λ id, T id ∨ id = t)) with (m := m1) as (m' & H' & Hm'); [intros; apply Hin; by right|done|].
  exists m'. split; [cbn [foldl]; by rewrite H1|]. eapply raised_weaken; [|exact Hm'].
  intros id. cbn. rewrite elem_of_cons. tauto.
Qed.

(** Old scores of the nodes, numbers that are not negative. *)
Definition scored (m : gmap hash32 f32) : Prop :=
  (∀ id, is_Some (m !! id) ↔ id ∈ nodes) ∧ ∀ id x, m !! id = Some x → f32_nonneg x.
Lemma raised_scored T m : raised T m → scored m.
Proof. intros [Hd Hr]. split; [done|]. intros id x Hx. by apply Hr in Hx as (? & _). Qed.

Lemma spread_ok T old m entry : scored old → raised T m → entry.1 ∈ nodes → (∀ t, t ∈ entry.2 → t ∈ nodes) →
  Z.of_nat (length entry.2) < 2 ^ 64 →
  ∃ m', spread old (Some m) entry = Some m' ∧ raised (λ id, T id ∨ id ∈ entry.2) m'.
Proof.
  destruct entry as [source targets]. cbn [fst snd]. intros [Hd Hn] Hm Hs Ht Hlen. unfold spread.
  case_bool_decide as Hnil.
  { exists m. split; [done|]. eapply raised_weaken; [|exact Hm]. by left. }
  destruct (proj2 (Hd source) Hs) as [score Hscore]. rewrite Hscore. cbn [mbind option_bind].
  destruct damping_pos as [Hdf Hdp]. destruct (count_pos (length targets)) as [Hf Hpos]; [by destruct targets; [|cbn; lia]|done|].
  apply spread_all_ok; [|done|done]. apply nonneg_div; [|done|done]. apply nonneg_mul; [done..|]. by eapply Hn.
Qed.
Lemma spread_entries_ok old entries : scored old →
  (∀ e, e ∈ entries → e.1 ∈ nodes ∧ (∀ t, t ∈ e.2 → t ∈ nodes) ∧ Z.of_nat (length e.2) < 2 ^ 64) →
  ∀ T m, raised T m → ∃ m', foldl (spread old) (Some m) entries = Some m' ∧
    raised (λ id, T id ∨ ∃ e, e ∈ entries ∧ id ∈ e.2) m'.
Proof.
  intros Ho. induction entries as [|e entries IH]; intros Hin T m Hm.
  { exists m. split; [done|]. eapply raised_weaken; [|exact Hm]. by left. }
  destruct (Hin e) as (He1 & He2 & Hlen); [by left|].
  destruct (spread_ok T old m e Ho Hm He1 He2 Hlen) as (m1 & H1 & Hm1).
  destruct (IH (λ e' He', Hin e' (proj2 (elem_of_cons _ _ _) (or_intror He'))) _ m1 Hm1) as (m' & H' & Hm').
  exists m'. split; [cbn [foldl]; by rewrite H1|]. eapply raised_weaken; [|exact Hm'].
  intros id [[HT|Hid]|(e' & He' & Hid)]; [by left|right; exists e; split; [by left|done]|].
  right. exists e'. split; [by right|done].
Qed.
End iteration.

(** ** The edges by source *)

Lemma out_edges_spec edges : ∀ s ts, out_edges edges !! s = Some ts →
  (∃ t, (s, t) ∈ edges) ∧ (∀ t, t ∈ ts ↔ (s, t) ∈ edges) ∧ (length ts ≤ length edges)%nat.
Proof.
  assert (∀ s, ∃ ts, default [] (out_edges edges !! s) = ts ∧ (∀ t, t ∈ ts ↔ (s, t) ∈ edges) ∧
    (length ts ≤ length edges)%nat ∧ (is_Some (out_edges edges !! s) → ∃ t, (s, t) ∈ edges)) as Hall.
  { unfold out_edges. induction edges as [|[s0 t0] edges IH] using rev_ind; intros s.
    { exists []. split_and!; [done|set_solver|done|by intros [? [=]]]. }
    rewrite foldl_app. cbn [foldl fst snd]. set (m := foldl _ ∅ edges) in *.
    destruct (IH s) as (ts & Hts & Hin & Hlen & Hsome). destruct (decide (s0 = s)) as [-> |Hne].
    - exists (ts ++ [t0]). rewrite lookup_insert_eq, Hts. split_and!; [done| |rewrite !length_app; cbn; lia|].
      + intros t. rewrite elem_of_app, Hin, elem_of_app, !list_elem_of_singleton. split; [intros [?| ->]; auto|intros [?|[= ->]]; auto].
      + intros _. exists t0. apply elem_of_app. right. by apply list_elem_of_singleton.
    - exists ts. rewrite lookup_insert_ne by done. split_and!; [done| |rewrite length_app; lia|].
      + intros t. rewrite elem_of_app, Hin, list_elem_of_singleton. split; [auto|intros [?|[= ? _]]; [done|congruence]].
      + intros Hs. destruct (Hsome Hs) as [t Ht]. exists t. apply elem_of_app. by left. }
  intros s ts Hs. destruct (Hall s) as (ts' & Hts & Hin & Hlen & Hsome). rewrite Hs in Hts, Hsome.
  cbn in Hts. subst ts'. split; [by apply Hsome|done].
Qed.

(** ** Power iteration *)

Section pagerank.
Context {O : EdgeOrder} {OL : EdgeOrderLaws O}.
Context (edges : list (hash32 * hash32)) (Hedges : 2 * Z.of_nat (length edges) < 2 ^ 64).

Definition node_list : list hash32 := btree_set (edges ≫= λ e, [e.1; e.2]).
Definition pointed_at (id : hash32) : Prop := ∃ s, (s, id) ∈ edges.
(** What a random jump alone gives a node. *)
Definition jump_share : f32 := f32_div (f32_sub f32_one DAMPING) (f32_of_int (Z.of_nat (length node_list))).

Lemma node_list_spec id : id ∈ node_list ↔ ∃ e, e ∈ edges ∧ (id = e.1 ∨ id = e.2).
Proof.
  unfold node_list. rewrite (proj1 (proj2 (btree_set_spec _))), list_elem_of_bind.
  split; intros (e & Hin & He); exists e; revert Hin He; rewrite elem_of_cons, list_elem_of_singleton; auto.
Qed.
Lemma node_list_length : Z.of_nat (length node_list) < 2 ^ 64.
Proof.
  destruct (btree_set_spec (edges ≫= λ e, [e.1; e.2])) as (_ & _ & _ & Hlen). fold node_list in Hlen.
  assert (length (edges ≫= λ e : hash32 * hash32, [e.1; e.2]) = 2 * length edges)%nat as Hb.
  { clear. induction edges as [|e l IH]; [done|]. cbn. cbn in IH. lia. }
  lia.
Qed.

(** Scores of exactly the nodes; those nobody points at have the lowest. *)
Definition ranked (m : gmap hash32 f32) : Prop :=
  ∃ base, f32_nonneg base ∧ SFleb jump_share base = true ∧ raised node_list base pointed_at m.

Lemma lookups_ok old l : scored node_list old → (∀ id, id ∈ l → id ∈ node_list) →
  ∃ xs, mapM (λ id, old !! id) l = Some xs ∧ Forall f32_nonneg xs.
Proof.
  intros [Hd Hn]. induction l as [|id l IH]; intros Hl; [by exists []|].
  destruct (proj2 (Hd id)) as [x Hx]; [apply Hl; by left|].
  destruct IH as (xs & Hxs & Hxn); [intros; apply Hl; by right|].
  exists (x :: xs). split; [|constructor; [by eapply Hn|done]].
  apply mapM_Some. apply mapM_Some in Hxs. by constructor.
Qed.
Lemma moves_ok old new l : scored node_list old → scored node_list new → (∀ id, id ∈ l → id ∈ node_list) →
  is_Some (mapM (λ id, x ← new !! id; y ← old !! id; Some (SFabs (f32_sub x y))) l).
Proof.
  intros [Hd _] [Hd' _] Hl. apply mapM_is_Some, Forall_forall. intros id Hid%Hl. cbn.
  destruct (proj2 (Hd' id) Hid) as [x ->]. destruct (proj2 (Hd id) Hid) as [y ->]. by eexists.
Qed.
Lemma iteration_ok old : node_list ≠ [] → scored node_list old →
  ∃ new diff, iteration node_list (out_edges edges) old = Some (new, diff) ∧ ranked new ∧ scored node_list new.
Proof.
  intros Hne Ho. unfold iteration.
  destruct (lookups_ok old (List.filter (is_dangling (out_edges edges)) node_list) Ho) as (dangling & Hdang & Hdn).
  { intros id. rewrite list_elem_of_In, List.filter_In, <-list_elem_of_In. by intros [? _]. }
  rewrite_mapM Hdang. cbn [mbind option_bind].
  destruct (base_score_nonneg (length node_list) dangling) as [Hb Hj];
    [destruct node_list; [done|cbn; lia]|apply node_list_length|done|].
  set (base := base_score _ _) in *.
  destruct (spread_entries_ok node_list base Hb old (edge_order (out_edges edges)) Ho) with
    (T := λ _ : hash32, False) (m := uniform node_list base) as (new & Hnew & Hr).
  { intros [s ts] Hin. rewrite edge_order_perm in Hin. apply elem_of_map_to_list in Hin.
    apply out_edges_spec in Hin as ([t Ht] & Hts & Hlen). cbn [fst snd].
    split; [apply node_list_spec; exists (s, t); auto|]. split; [|lia].
    intros t' Ht'%Hts. apply node_list_spec. exists (s, t'). auto. }
  { by apply raised_uniform. }
  rewrite Hnew. cbn [mbind option_bind].
  assert (raised node_list base pointed_at new) as Hr'.
  { eapply raised_weaken; [|exact Hr]. intros id [[]|([s ts] & Hin & Hid)].
    rewrite edge_order_perm in Hin. apply elem_of_map_to_list in Hin.
    apply out_edges_spec in Hin as (_ & Hts & _). exists s. by apply Hts. }
  pose proof (raised_scored _ _ _ _ Hr') as Hs.
  destruct (moves_ok old new node_list Ho Hs) as [moved Hmoved]; [done|].
  rewrite_mapM Hmoved. cbn.
  eexists _, _. split; [done|]. split; [by exists base|done].
Qed.
Lemma power_iteration_ok rounds : node_list ≠ [] → ∀ old run, scored node_list old →
  ∃ m n, power_iteration node_list (out_edges edges) (S rounds) old run = Some (m, n) ∧
    (run < n ≤ run + S rounds)%nat ∧ ranked m.
Proof.
  intros Hne. induction rounds as [|rounds IH]; intros old run Ho;
    destruct (iteration_ok old Hne Ho) as (new & diff & Hit & Hrk & Hs).
  - exists new, (S run). cbn [power_iteration]. rewrite Hit. cbn [mbind option_bind].
    split; [by destruct (SFltb _ _)|]. split; [lia|done].
  - destruct (IH new (S run) Hs) as (m & n & Hrun & Hn & Hm).
    remember (S rounds) as k. cbn [power_iteration]. rewrite Hit. cbn [mbind option_bind].
    destruct (SFltb diff CONVERGENCE_EPSILON).
    + exists new, (S run). split; [done|]. split; [lia|done].
    + exists m, n. split; [done|]. split; [lia|done].
Qed.
Lemma uniform_scored x : f32_nonneg x → scored node_list (uniform node_list x).
Proof.
  intros Hx. split.
  - intros id. rewrite uniform_lookup. destruct (decide (id ∈ node_list)); split; done.
  - intros id y. rewrite uniform_lookup. destruct (decide (id ∈ node_list)); [|done]. by intros [= <-].
Qed.
End pagerank.

(** ** Properties *)

Section properties.
Context {O : EdgeOrder} {OL : EdgeOrderLaws O} `{P : Platform}.

Lemma pagerank_ends edges : 2 * Z.of_nat (length edges) < 2 ^ 64 →
  ∃ scores run, pagerank edges = Some (scores, run) ∧
    (edges = [] → run = 0%nat) ∧ (edges ≠ [] → 1 ≤ run ≤ MAX_ITERATIONS)%nat ∧
    (∀ id, is_Some (scores !! id) ↔ ∃ e, e ∈ edges ∧ (id = e.1 ∨ id = e.2)) ∧
    (∀ id x, scores !! id = Some x → f32_nonneg x ∧ SFleb (jump_share edges) x = true) ∧
    (∀ id x id' x', scores !! id = Some x → scores !! id' = Some x' → ¬ pointed_at edges id → SFleb x x' = true).
Proof.
  intros He. unfold pagerank. fold (node_list edges). case_bool_decide as Hnil.
  - exists ∅, 0%nat. assert (edges = []) as ->.
    { destruct edges as [|e edges]; [done|]. exfalso.
      assert (e.1 ∈ node_list (e :: edges)) as Hin by (apply node_list_spec; exists e; split; [by left|by left]).
      rewrite Hnil in Hin. by apply not_elem_of_nil in Hin. }
    split_and!; try done. intros id. split; [by intros [? [=]]|by intros (e & ?%not_elem_of_nil & _)].
  - destruct (count_pos (length (node_list edges))) as [Hf Hpos];
      [destruct (node_list edges); [done|cbn; lia]|by apply node_list_length|].
    destruct (power_iteration_ok edges He 49 Hnil (uniform (node_list edges)
      (f32_div f32_one (f32_of_int (Z.of_nat (length (node_list edges)))))) 0) as (m & n & Hrun & Hn & base & Hb & Hj & Hr).
    { apply uniform_scored, nonneg_div; [by apply nonneg_finite|done|done]. }
    assert (f32_nonneg (jump_share edges)) as Hjn by (apply nonneg_div; [by apply nonneg_finite|done|done]).
    destruct Hr as [Hd Hr].
    exists m, n. split_and!; [exact Hrun| |unfold MAX_ITERATIONS; lia| | |].
    + intros ->. done.
    + intros id. rewrite Hd. apply node_list_spec.
    + intros id x Hx. destruct (Hr id x Hx) as (Hxn & Hbx & _). split; [done|]. by eapply nonneg_leb_trans; [..|exact Hj|exact Hbx].
    + intros id x id' x' Hx Hx' Hno. destruct (Hr id x Hx) as (_ & _ & [Hp| ->]); [done|]. by apply (Hr id' x' Hx').
Qed.

(** A table filled with one [upsert] per entry. *)
Lemma upserts_lookup now l (t : node_authority) id : NoDup l.*1 →
  foldl (λ t kv, authority_upsert kv.1 kv.2 now t) t l !! id =
    match (list_to_map l : gmap hash32 f32) !! id with
    | Some x => Some (AuthorityRow (f32_as_f64 x) now)
    | None => t !! id
    end.
Proof.
  revert t. induction l as [|[k x] l IH]; intros t Hnd; [done|].
  apply NoDup_cons in Hnd as [Hk Hnd]. cbn [foldl fst snd]. rewrite IH by done. cbn [list_to_map foldr fst snd].
  unfold authority_upsert. destruct (decide (id = k)) as [-> |Hne].
  - rewrite !lookup_insert_eq. by rewrite not_elem_of_list_to_map_1.
  - by rewrite !lookup_insert_ne by done.
Qed.
Lemma recomputed_rows now (scores : gmap hash32 f32) (t : node_authority) :
  foldl (λ t kv, authority_upsert kv.1 kv.2 now t) (authority_clear_all t) (score_order scores) =
    (λ x, AuthorityRow (f32_as_f64 x) now) <$> scores.
Proof.
  apply map_eq. intros id. pose proof (score_order_perm scores) as Hp.
  assert (NoDup (score_order scores).*1) as Hnd by (rewrite Hp; apply NoDup_fst_map_to_list).
  rewrite upserts_lookup, lookup_fmap by done.
  rewrite (list_to_map_proper _ _ Hnd Hp), list_to_map_to_list. by destruct (scores !! id).
Qed.

(** C24: Recomputing authority always ends, without a panic, after at most
    fifty rounds of power iteration, and replaces the whole table: whatever
    was stored before is gone, and exactly the nodes at either end of an edge
    have a row, computed now.  Every score is a number that is not negative
    and at least what a random jump gives, and a node that no edge points at
    never outranks another - whatever order the hash maps are iterated in and
    however the sums are rounded. *)
Theorem authority_recomputed now d t :
  let edge_pairs := (λ e, (e_subject e, e_object e)) <$> edges_list_all d in
  2 * Z.of_nat (length edge_pairs) < 2 ^ 64 →
  ∃ summary scores, recompute_authority now d t = Some (summary, (λ x, AuthorityRow (f32_as_f64 x) now) <$> scores) ∧
    edges_considered summary = size (edges (proj d)) ∧ nodes_scored summary = size scores ∧
    (iterations summary ≤ MAX_ITERATIONS)%nat ∧ (iterations summary = 0%nat ↔ edges (proj d) = ∅) ∧
    (∀ id, is_Some (scores !! id) ↔ ∃ k r, edges (proj d) !! k = Some r ∧ (id = ed_subject r ∨ id = ed_object r)) ∧
    (∀ id x, scores !! id = Some x → f32_nonneg x ∧ SFleb (jump_share edge_pairs) x = true) ∧
    (∀ id x id' x', scores !! id = Some x → scores !! id' = Some x' →
       (∀ k r, edges (proj d) !! k = Some r → ed_object r ≠ id) → SFleb x x' = true).
Proof.
  intros edge_pairs Hlen. destruct (pagerank_ends edge_pairs Hlen) as (scores & run & Hrun & Hz & Hpos & Hdom & Hval & Hlow).
  assert (∀ p, p ∈ edge_pairs ↔ ∃ k r, edges (proj d) !! k = Some r ∧ p = (ed_subject r, ed_object r)) as Hin.
  { intros p. unfold edge_pairs, edges_list_all. rewrite <-list_fmap_compose, list_elem_of_fmap. split.
    - intros ([k r] & -> & Hkr%elem_of_map_to_list). by exists k, r.
    - intros (k & r & Hkr & ->). exists (k, r). split; [done|by apply elem_of_map_to_list]. }
  assert (length edge_pairs = size (edges (proj d))) as Hsize.
  { unfold edge_pairs, edges_list_all. by rewrite !length_fmap, length_map_to_list. }
  exists {| nodes_scored := size scores; edges_considered := size (edges (proj d)); iterations := run |}, scores.
  cbn. split_and!; try done.
  - unfold recompute_authority. fold edge_pairs. rewrite Hrun. cbn. rewrite recomputed_rows.
    unfold edges_list_all. by rewrite length_fmap, length_map_to_list.
  - destruct (decide (edge_pairs = [])) as [He|He]; [rewrite Hz by done; lia|by destruct (Hpos He)].
  - rewrite <-map_size_empty_iff, <-Hsize. destruct (decide (edge_pairs = [])) as [He|He].
    + rewrite Hz by done. by rewrite He.
    + split; [destruct (Hpos He); lia|]. by intros ?%length_zero_iff_nil.
  - intros id. rewrite Hdom. split.
    + intros (p & (k & r & Hk & ->)%Hin & Hid). by exists k, r.
    + intros (k & r & Hk & Hid). eexists. split; [apply Hin; by exists k, r|done].
  - intros id x id' x' Hx Hx' Hno. apply (Hlow id x id' x' Hx Hx'). intros [s Hs].
    apply Hin in Hs as (k & r & Hkr & [= _ Ho]). by apply (Hno k r Hkr).
Qed.
End properties.

Section witnesses.
#[local] Existing Instance Toy.platform.
#[local] Existing Instance demo_codec.
#[local] Instance plain_edge_order : EdgeOrder := {| edge_order := map_to_list; score_order := map_to_list |}.
Lemma plain_edge_order_laws : EdgeOrderLaws plain_edge_order.
Proof. done. Qed.

(** One page implements one concept: both are scored, and the page does not
    outrank the concept. *)
Lemma authority_recomputed_witness : ∃ summary scores x y,
  recompute_authority 200 evidenced_db ∅ = Some (summary, (λ x, AuthorityRow (f32_as_f64 x) 200) <$> scores) ∧
  edges_considered summary = 1%nat ∧ scores !! page = Some x ∧ scores !! concept = Some y ∧ SFleb x y = true.
Proof.
  destruct (@authority_recomputed plain_edge_order plain_edge_order_laws Toy.platform 200 evidenced_db ∅)
    as (summary & scores & Hrun & Hn & _ & _ & _ & Hdom & _ & Hlow); [by vm_compute|].
  set (key := EdgeId_from_triple page "implements" concept).
  assert (map_to_list (edges (proj evidenced_db)) = [(key, EdgeRow page "implements" concept 101)]) as Hlist
    by (vm_compute; reflexivity).
  assert (∀ k r, edges (proj evidenced_db) !! k = Some r ↔ (k, r) = (key, EdgeRow page "implements" concept 101)) as Hall.
  { intros k r. by rewrite <-elem_of_map_to_list, Hlist, list_elem_of_singleton. }
  destruct (proj2 (Hdom page)) as [x Hx]; [eexists _, _; split; [by apply Hall|by left]|].
  destruct (proj2 (Hdom concept)) as [y Hy]; [eexists _, _; split; [by apply Hall|by right]|].
  exists summary, scores, x, y. split_and!; [exact Hrun| |exact Hx|exact Hy|].
  - by rewrite Hn, <-length_map_to_list, Hlist.
  - apply (Hlow page x concept y Hx Hy). intros k' r' [= _ ->]%Hall. apply (bool_decide_unpack _). vm_compute. exact I.
Defined.
End witnesses.
