(* ===== verification/Roadmap.v ===== *)
(** * The roadmap

    [oag-graph]: [roadmap.rs].  A proposal is anything asserted to be an
    instance of one hub node; the list ranks the proposals by how well their
    edges are corroborated.  The source reads the clock for each edge; here
    the whole list is made at one time. *)

From S2P Require Import Prelude Sorting Core Envelope Store Projector EventLog Frame Scenario Chain Replay Service Graph Rebuild Typing Queries Search Bytes FloatFacts Float32 Float64 Corroboration.

#[local] Open Scope Z_scope.

Definition ROADMAP_PROPOSAL_HUB : string := "concept:oag-roadmap-proposal".
Definition ROADMAP_PROPOSAL_PREDICATE : string := "instance_of".

Record RoadmapProposal := { rp_node : Node; rp_corroboration : EdgeCorroboration }.

(** [partial_cmp(..).unwrap_or(Equal)]. *)
Definition partial_cmp_or_equal (x y : f32) : comparison := default Eq (SFcompare x y).
(** [Ordering::then]. *)
Definition cmp_then (c c' : comparison) : comparison := match c with Eq => c' | _ => c end.
Definition proposal_cmp (a b : RoadmapProposal) : comparison :=
  let a := rp_corroboration a in
  let b := rp_corroboration b in
  cmp_then (cmp_then (Nat.compare (active_assertions b) (active_assertions a))
                     (partial_cmp_or_equal (source_independence b) (source_independence a)))
           (partial_cmp_or_equal (evidence_strength b) (evidence_strength a)).
(** [a] does not have to come after [b]. *)
Definition ranks_first (a b : RoadmapProposal) : bool :=
  match proposal_cmp a b with Gt => false | _ => true end.

Section roadmap.
Context `{P : Platform} `{C : Codec} `{U : GraphPlatform} {K : Corroborating}.

Definition edges_list_by_predicate_and_object (predicate : string) (object : hash32) : tx (list Edge) :=
  gets (λ d, uncurry row_to_edge <$>
    filter (λ kr : hash32 * edge_row, ed_predicate kr.2 = predicate ∧ ed_object kr.2 = object)
      (map_to_list (edges (proj d)))).

Fixpoint proposals_of (now : Z) (proposal_edges : list Edge) : txg (list RoadmapProposal) :=
  match proposal_edges with
  | [] => mret []
  | edge :: rest =>
      found ← g_storage (nodes_get_by_id (e_subject edge));
      match found with
      | None => proposals_of now rest
      | Some node =>
          corroboration ← get_edge_corroboration now (e_id edge);
          proposals ← proposals_of now rest;
          mret ({| rp_node := node; rp_corroboration := corroboration |} :: proposals)
      end
  end.
Definition list_roadmap_proposals (now : Z) : txg (list RoadmapProposal) :=
  hub ← g_storage (nodes_get_by_canonical_identifier ROADMAP_PROPOSAL_HUB);
  match hub with
  | None => mret []
  | Some hub =>
      proposal_edges ← g_storage (edges_list_by_predicate_and_object ROADMAP_PROPOSAL_PREDICATE (n_id hub));
      proposals ← proposals_of now proposal_edges;
      mret (stable_sort ranks_first proposals)
  end.

(** ** Where the rows can be read, every edge can be judged *)

Context (d : db) (Ht : typed (proj d)).
Context (Hev : map_Forall (λ id r, is_ok (row_to_evidence id r) = true) (evidence (proj d))).

Lemma table_total {V B} (f : hash32 → V → result StorageError B) (Q : hash32 * V → Prop)
    `{!∀ kv, Decision (Q kv)} (m : gmap hash32 V) : map_Forall (λ id r, is_ok (f id r) = true) m →
  ∃ l, mapM (M:=result StorageError) (uncurry f) (filter Q (map_to_list m)) = Ok l.
Proof.
  intros Hm. assert (is_ok (mapM (M:=result StorageError) (uncurry f) (filter Q (map_to_list m))) = true) as Hok.
  { apply mapM_is_ok, Forall_forall. intros [id r] [_ Hin%elem_of_map_to_list]%list_elem_of_filter. by apply Hm. }
  destruct (mapM _ _) as [l|]; [by exists l|done].
Qed.
Lemma list_by_edge_total edge : ∃ l, assertions_list_by_edge edge d = Ok (l, d).
Proof.
  unfold assertions_list_by_edge. cbv [mbind stm_bind get lift].
  edestruct (table_total row_to_assertion) as [l ->]; [|by exists l].
  intros id r Hr. by destruct (typed_assertions _ Ht _ _ Hr) as (_ & _ & ?).
Qed.
Lemma list_evidence_total a : ∃ l, assertions_list_evidence a d = Ok (l, d).
Proof.
  unfold assertions_list_evidence. cbv [mbind stm_bind get lift].
  by edestruct (table_total row_to_evidence) as [l ->]; [exact Hev|exists l].
Qed.
Lemma weigh_all_total active : ∀ w scores, ∃ x, weigh_all active w scores d = Ok (x, d).
Proof.
  induction active as [|a active IH]; intros w scores; [by eexists|].
  cbn [weigh_all]. cbv [mbind stm_bind]. destruct (list_evidence_total (a_id a)) as [items ->].
  cbn [list_observations gets]. apply IH.
Qed.
Lemma assure_total actors : ∀ total, ∃ x, assure actors total d = Ok (x, d).
Proof.
  induction actors as [|id actors IH]; intros total; [by eexists|].
  cbn [assure]. cbv [mbind stm_bind]. pose proof (actor_read_ok d id Ht) as Hok.
  destruct (actors_get_by_id id d) as [[found d']|] eqn:Hg; [|done].
  assert (d' = d) as -> by (revert Hg; unfold actors_get_by_id; by intros; minv). apply IH.
Qed.
Lemma corroboration_total now edge : is_Some (edges (proj d) !! edge) →
  ∃ c, get_edge_corroboration now edge d = Ok (c, d) ∧ ec_edge_id c = edge.
Proof.
  intros [row He]. unfold get_edge_corroboration. cbv [mbind stm_bind]. rewrite g_storage_run. cbn [edges_get_by_id gets].
  rewrite He. cbn [fmap option_fmap option_map]. rewrite g_storage_run.
  destruct (list_by_edge_total edge) as [all ->]. rewrite g_storage_run.
  set (active := List.filter (is_status Active) all). destruct (weigh_all_total active ∅ []) as [[w scores] ->].
  case_bool_decide as Hno; [by eexists|]. rewrite g_storage_run.
  destruct (assure_total (btree_set (a_actor_id <$> active)) f32_zero) as [x ->]. by eexists.
Qed.

(** What the list says about one edge. *)
Definition proposes (now : Z) (edge : Edge) (p : RoadmapProposal) : Prop :=
  stored d (e_subject edge) (rp_node p) ∧
  get_edge_corroboration now (e_id edge) d = Ok (rp_corroboration p, d) ∧
  ec_edge_id (rp_corroboration p) = e_id edge.
Lemma proposals_of_total now es : (∀ e, e ∈ es → ∃ k r, edges (proj d) !! k = Some r ∧ e = row_to_edge k r) →
  ∃ ps, proposals_of now es d = Ok (ps, d) ∧ Forall2 (proposes now) es ps.
Proof.
  induction es as [|e es IH]; intros Hes; [by exists []|]. cbn [proposals_of]. cbv [mbind stm_bind].
  destruct (Hes e) as (k & r & Hk & ->); [by left|]. rewrite g_storage_run. cbn [row_to_edge e_subject e_id].
  destruct (typed_edges _ Ht _ _ Hk) as (_ & Hs & _).
  destruct (node_get_run d Ht (ed_subject r)) as [[Hno _]|(n & Hn & ->)]; [rewrite Hno in Hs; by destruct Hs|].
  destruct (corroboration_total now k) as (c & Hc & Hid); [by exists r|]. rewrite Hc.
  destruct IH as (ps & Hps & Hall); [intros; apply Hes; by right|]. rewrite Hps.
  eexists. split; [reflexivity|]. by constructor.
Qed.
End roadmap.

(** ** The ranking *)

Definition judged (p : RoadmapProposal) : Prop :=
  f32_nonneg (source_independence (rp_corroboration p)) ∧ f32_nonneg (evidence_strength (rp_corroboration p)).
(** More active assertions; then more independent sources; then evidence at
    least as strong. *)
Definition at_least (a b : EdgeCorroboration) : Prop :=
  (active_assertions b < active_assertions a)%nat ∨
  active_assertions b = active_assertions a ∧
    (f32_key (source_independence b) < f32_key (source_independence a) ∨
     f32_key (source_independence b) = f32_key (source_independence a) ∧
       f32_key (evidence_strength b) ≤ f32_key (evidence_strength a)).

Lemma ranks_first_spec a b : judged a → judged b →
  ranks_first a b = true ↔ at_least (rp_corroboration a) (rp_corroboration b).
Proof.
  intros [Hia Hsa] [Hib Hsb]. unfold ranks_first, proposal_cmp, partial_cmp_or_equal, at_least.
  rewrite !f32_compare_key by done. cbn [default].
  destruct (Nat.compare_spec (active_assertions (rp_corroboration b)) (active_assertions (rp_corroboration a)));
    cbn [cmp_then]; [|split; [auto|done]|split; [done|lia]].
  destruct (Z.compare_spec (f32_key (source_independence (rp_corroboration b)))
    (f32_key (source_independence (rp_corroboration a)))); cbn [cmp_then]; [|split; [auto|done]|split; [done|lia]].
  destruct (Z.compare_spec (f32_key (evidence_strength (rp_corroboration b)))
    (f32_key (evidence_strength (rp_corroboration a)))); (split; intros; first [done | lia]).
Qed.
Lemma at_least_total a b : at_least a b ∨ at_least b a.
Proof. unfold at_least. lia. Qed.
Lemma at_least_trans a b c : at_least a b → at_least b c → at_least a c.
Proof. unfold at_least. lia. Qed.

Lemma proposals_sorted ps : Forall judged ps →
  StronglySorted (λ a b, at_least (rp_corroboration a) (rp_corroboration b)) (stable_sort ranks_first ps).
Proof.
  intros Hps. assert (Forall judged (stable_sort ranks_first ps)) as Hj by (by rewrite stable_sort_perm).
  assert (StronglySorted (λ a b, ranks_first a b = true) (stable_sort ranks_first ps)) as Hs.
  { apply (stable_sort_sorted _ judged); [| |done].
    - intros a b Ha Hb. rewrite !ranks_first_spec by done. apply at_least_total.
    - intros a b c Ha Hb Hc. rewrite !ranks_first_spec by done. apply at_least_trans. }
  revert Hs. apply StronglySorted_weaken. rewrite Forall_forall in Hj. intros a b Ha Hb.
  apply ranks_first_spec; by apply Hj.
Qed.

(** Neither has to come before the other. *)
Definition ranked_as (p q : RoadmapProposal) : Prop :=
  at_least (rp_corroboration p) (rp_corroboration q) ∧ at_least (rp_corroboration q) (rp_corroboration p).
#[export] Instance ranked_as_dec p q : Decision (ranked_as p q).
Proof. unfold ranked_as, at_least. solve_decision. Defined.
Lemma tied_ranked p l : judged p → Forall judged l → List.filter (tied ranks_first p) l = filter (ranked_as p) l.
Proof.
  intros Hp. induction 1 as [|q l Hq Hl IH]; [done|]. cbn [List.filter]. rewrite filter_cons, IH.
  assert (tied ranks_first p q = true ↔ ranked_as p q) as Ht
    by (unfold tied, ranked_as; by rewrite andb_true_iff, !ranks_first_spec).
  destruct (tied ranks_first p q).
  - rewrite decide_True; [done|by apply Ht].
  - rewrite decide_False; [done|]. intros H%Ht. discriminate H.
Qed.
(** Ties stay in the order they had. *)
Lemma proposals_stable ps p : Forall judged ps → judged p →
  filter (ranked_as p) (stable_sort ranks_first ps) = filter (ranked_as p) ps.
Proof.
  intros Hps Hp. rewrite <-!tied_ranked; [|done|done|done|by rewrite stable_sort_perm].
  apply (stable_sort_stable _ judged); [|done|done].
  intros a b c Ha Hb Hc. rewrite !ranks_first_spec by done. apply at_least_trans.
Qed.

(** ** Properties *)

Section properties.
Context `{P : Platform} `{C : Codec} `{U : GraphPlatform} {K : Corroborating} {KL : CorroboratingLaws K}.

Lemma corroboration_judged now edge d c d' : get_edge_corroboration now edge d = Ok (c, d') →
  Z.of_nat (length (source_groups c)) < 2 ^ 64 →
  f32_nonneg (source_independence c) ∧ f32_nonneg (evidence_strength c).
Proof.
  intros (all & w & scores & assurance & -> & _ & _ & Hw & _ & ->)%get_edge_corroboration_ok.
  apply weigh_all_ok in Hw as (_ & Hw & _); [|apply map_Forall_empty|done]. cbn.
  destruct (groups_spec w) as (_ & _ & -> & _). intros Hsize. split.
  - unfold independence. apply fin_nonneg, f32_clamp_unit, nonneg_div; [|apply count_pos with (n := 2%nat); lia..].
    apply fin_nonneg. apply f32_of_int_fin. lia.
  - unfold strength. case_bool_decide as Hne; [constructor|].
    destruct (count_pos (size w)) as [Hf Hp]; [by apply Nat.neq_0_lt_0; rewrite map_size_empty_iff|done|].
    apply nonneg_div; [|done|done].
    assert (Forall f32_nonneg (hash_order w).*2) as Hall.
    { rewrite hash_order_perm. apply Forall_fmap, Forall_forall. intros [g x] Hx%elem_of_map_to_list.
      apply fin_nonneg. by apply (Hw g x). }
    destruct (nonneg_sum _ Hall) as [[Hnil _]|]; [|done]. apply (f_equal length) in Hnil.
    rewrite length_fmap, hash_order_perm, length_map_to_list in Hnil. by apply map_size_empty_iff in Hnil.
Qed.

Lemma hub_edges_spec d hub e :
  e ∈ uncurry row_to_edge <$> filter (λ kr : hash32 * edge_row,
    ed_predicate kr.2 = ROADMAP_PROPOSAL_PREDICATE ∧ ed_object kr.2 = hub) (map_to_list (edges (proj d))) ↔
  ∃ k r, edges (proj d) !! k = Some r ∧ ed_predicate r = ROADMAP_PROPOSAL_PREDICATE ∧
    ed_object r = hub ∧ e = row_to_edge k r.
Proof.
  rewrite list_elem_of_fmap. split.
  - intros ([k r] & -> & [[Hp Ho] Hin%elem_of_map_to_list]%list_elem_of_filter). by exists k, r.
  - intros (k & r & Hk & Hp & Ho & ->). exists (k, r). split; [done|].
    apply list_elem_of_filter. by rewrite elem_of_map_to_list.
Qed.
Lemma hub_edges_nodup d (Q : hash32 * edge_row → Prop) `{!∀ kr, Decision (Q kr)} :
  NoDup (e_id <$> (uncurry row_to_edge <$> filter Q (map_to_list (edges (proj d))))).
Proof.
  rewrite <-list_fmap_compose, (list_fmap_ext _ fst); [|by intros ? []].
  eapply sublist_NoDup; [apply (NoDup_fst_map_to_list (edges (proj d)))|].
  apply fmap_sublist, sublist_filter.
Qed.
Lemma proposals_edges now d es ps : Forall2 (proposes d now) es ps →
  (λ p, ec_edge_id (rp_corroboration p)) <$> ps = e_id <$> es.
Proof. induction 1 as [|e p es ps (_ & _ & He) _ IH]; [done|]. by rewrite !fmap_cons, He, IH. Qed.
Lemma proposals_elem now d es ps :
  (∀ e, e ∈ es ↔ ∃ k r, edges (proj d) !! k = Some r ∧ ed_predicate r = ROADMAP_PROPOSAL_PREDICATE ∧
     ed_object r = NodeId_from_canonical_identifier ROADMAP_PROPOSAL_HUB ∧ e = row_to_edge k r) →
  Forall2 (proposes d now) es ps → ∀ p, p ∈ ps ↔
    ∃ k e, edges (proj d) !! k = Some e ∧ ed_predicate e = ROADMAP_PROPOSAL_PREDICATE ∧
      ed_object e = NodeId_from_canonical_identifier ROADMAP_PROPOSAL_HUB ∧
      stored d (ed_subject e) (rp_node p) ∧ get_edge_corroboration now k d = Ok (rp_corroboration p, d).
Proof.
  intros Hes Hall p. split.
  - intros Hp. destruct (Forall2_right _ _ _ _ Hall Hp) as (e & He & Hst & Hc & _).
    apply Hes in He as (k & r & Hk & Hpred & Hobj & ->). by exists k, r.
  - intros (k & r & Hk & Hpred & Hobj & (nr & Hnr & Hn) & Hc).
    destruct (Forall2_left _ _ _ _ Hall (proj2 (Hes _) ltac:(by exists k, r))) as (p' & Hp' & (nr' & Hnr' & Hn') & Hc' & _).
    cbn in Hnr', Hn', Hc'. destruct p as [n c], p' as [n' c']. cbn in *. congruence.
Qed.

(** C23: The roadmap lists every proposal once, the best corroborated first.
    On a database whose rows can be read, listing never fails and changes
    nothing.  Without the hub node nothing is listed.  With it, exactly the
    things asserted to be an instance of the hub are, each with its node and
    with what corroboration says of its edge, no edge twice; and of two
    neighbours or any two others the earlier has more active assertions, or
    as many and more independent sources, or as many of both and evidence at
    least as strong; and proposals that are level in all three keep the order
    in which the query listed their edges. *)
Theorem roadmap_ranked now d :
  typed (proj d) → map_Forall (λ id r, is_ok (row_to_evidence id r) = true) (evidence (proj d)) →
  (∀ edge c, get_edge_corroboration now edge d = Ok (c, d) → Z.of_nat (length (source_groups c)) < 2 ^ 64) →
  let hub := NodeId_from_canonical_identifier ROADMAP_PROPOSAL_HUB in
  ∃ ps, list_roadmap_proposals now d = Ok (ps, d) ∧
    ((∀ id r, nodes (proj d) !! id = Some r → nr_canonical_identifier r ≠ ROADMAP_PROPOSAL_HUB) → ps = []) ∧
    (∀ r, nodes (proj d) !! hub = Some r → nr_canonical_identifier r = ROADMAP_PROPOSAL_HUB →
     (∀ p, p ∈ ps ↔ ∃ k e, edges (proj d) !! k = Some e ∧ ed_predicate e = ROADMAP_PROPOSAL_PREDICATE ∧ ed_object e = hub ∧
       stored d (ed_subject e) (rp_node p) ∧ get_edge_corroboration now k d = Ok (rp_corroboration p, d)) ∧
     ∃ es qs, edges_list_by_predicate_and_object ROADMAP_PROPOSAL_PREDICATE hub d = Ok (es, d) ∧
       Forall2 (proposes d now) es qs ∧ ps ≡ₚ qs ∧
       ∀ p, p ∈ ps → filter (ranked_as p) ps = filter (ranked_as p) qs) ∧
    NoDup ((λ p, ec_edge_id (rp_corroboration p)) <$> ps) ∧
    StronglySorted (λ a b, at_least (rp_corroboration a) (rp_corroboration b)) ps.
Proof.
  intros Ht Hev Hgroups hub.
  destruct (by_identifier_spec ROADMAP_PROPOSAL_HUB d Ht) as (found & Hfound & Hspec).
  unfold list_roadmap_proposals. cbv [mbind stm_bind]. rewrite g_storage_run, Hfound.
  destruct found as [n|].
  - destruct Hspec as (row & Hrow & Hid & Hn). fold hub in Hrow, Hn.
    assert (n_id n = hub) as Hnid.
    { unfold row_to_node in Hn. by apply result_bind_ok in Hn as (md & _ & [= <-]). }
    rewrite g_storage_run. cbn [edges_list_by_predicate_and_object gets]. rewrite Hnid.
    set (es := uncurry row_to_edge <$> _).
    assert (∀ e, e ∈ es ↔ ∃ k r, edges (proj d) !! k = Some r ∧ ed_predicate r = ROADMAP_PROPOSAL_PREDICATE ∧
      ed_object r = hub ∧ e = row_to_edge k r) as Hes by apply hub_edges_spec.
    destruct (proposals_of_total d Ht Hev now es) as (ps & -> & Hall).
    { intros e (k & r & Hk & _ & _ & ->)%Hes. by exists k, r. }
    assert (Forall judged ps) as Hj.
    { apply Forall_forall. intros p (k & e & _ & _ & _ & _ & Hc)%(proposals_elem now d es ps Hes Hall).
      apply (corroboration_judged now k d _ d Hc). by eapply Hgroups. }
    exists (stable_sort ranks_first ps). split; [done|]. split; [intros Hno; by destruct (Hno _ _ Hrow)|].
    split_and!.
    + intros _ _ _. split; [intros p; rewrite stable_sort_perm; by apply (proposals_elem now d es)|].
      exists es, ps. split_and!; [done|done|apply stable_sort_perm|].
      intros p Hp. apply proposals_stable; [done|]. rewrite stable_sort_perm in Hp. rewrite Forall_forall in Hj. by apply Hj.
    + rewrite stable_sort_perm, (proposals_edges now d es ps Hall). apply hub_edges_nodup.
    + by apply proposals_sorted.
  - exists []. split; [done|]. split_and!; [done| |constructor|constructor].
    intros r Hr Hid. by destruct (Hspec _ _ Hr).
Qed.
End properties.

Section witnesses.
#[local] Existing Instance Toy.platform.
#[local] Existing Instance demo_codec.
#[local] Existing Instance ToyGraph.plain_urls.
#[local] Existing Instance plain_corroborating.
#[local] Instance demo_laws : CodecLaws demo_codec := ToyCodec.codec_laws _.

Definition proposal_p : EventPayload :=
  AssertRelation {| ar_subject_identifier := "concept:better-search"; ar_subject_type := "concept";
    ar_predicate := ROADMAP_PROPOSAL_PREDICATE; ar_object_identifier := ROADMAP_PROPOSAL_HUB;
    ar_object_type := "concept"; ar_actor_id := to_hex writer; ar_actor_confidence := None;
    ar_observed_at := None; ar_extraction_method := "direct" |}.
Definition proposed_db : db :=
  match project (id_of e1) 101 proposal_p declared_db with Ok (_, d) => d | Err _ => declared_db end.
Definition proposal : hash32 := NodeId_from_canonical_identifier "concept:better-search".
Definition hub_node : hash32 := NodeId_from_canonical_identifier ROADMAP_PROPOSAL_HUB.
Definition proposal_edge : hash32 := EdgeId_from_triple proposal ROADMAP_PROPOSAL_PREDICATE hub_node.

Lemma proposed_typed : typed (proj proposed_db).
Proof.
  destruct (reachable_inv _ declared_reachable) as [_ Ht%restores_typed]. unfold proposed_db.
  destruct (project (id_of e1) 101 proposal_p declared_db) as [[o d]|e] eqn:Hp; [|exact Ht].
  exact (project_typed (id_of e1) 101 proposal_p declared_db o d Ht Hp).
Qed.
(** One proposal, asserted once by one actor. *)
Lemma roadmap_ranked_witness : ∃ ps p, list_roadmap_proposals 200 proposed_db = Ok (ps, proposed_db) ∧
  p ∈ ps ∧ n_canonical_identifier (rp_node p) = "concept:better-search" ∧
  ec_edge_id (rp_corroboration p) = proposal_edge ∧ NoDup ((λ p, ec_edge_id (rp_corroboration p)) <$> ps).
Proof.
  set (row := EdgeRow proposal ROADMAP_PROPOSAL_PREDICATE hub_node 101).
  assert (map_to_list (edges (proj proposed_db)) = [(proposal_edge, row)]) as Hlist by (vm_compute; reflexivity).
  assert (∀ k r, edges (proj proposed_db) !! k = Some r ↔ (k, r) = (proposal_edge, row)) as Hedges.
  { intros k r. by rewrite <-elem_of_map_to_list, Hlist, list_elem_of_singleton. }
  assert (match get_edge_corroboration 200 proposal_edge proposed_db with
          | Ok (c, d) => bool_decide (length (source_groups c) = 1 ∧ ec_edge_id c = proposal_edge)%nat | Err _ => false end = true) as Hc
    by (vm_compute; reflexivity).
  destruct (@roadmap_ranked Toy.platform demo_codec ToyGraph.plain_urls plain_corroborating plain_corroborating_laws 200 proposed_db)
    as (ps & Hps & _ & Hin & Hnd & _).
  - exact proposed_typed.
  - assert (evidence (proj proposed_db) = ∅) as -> by (vm_compute; reflexivity). apply map_Forall_empty.
  - intros edge c Hrun. destruct (decide (edge = proposal_edge)) as [-> |Hne].
    + rewrite Hrun in Hc. apply bool_decide_eq_true in Hc as [-> _]. done.
    + rewrite get_edge_corroboration_none in Hrun; [discriminate Hrun|].
      destruct (edges (proj proposed_db) !! edge) as [r|] eqn:Hr; [|done]. apply Hedges in Hr. congruence.
  - destruct (get_edge_corroboration 200 proposal_edge proposed_db) as [[c d]|e] eqn:Hrun; [|discriminate Hc].
    apply get_edge_corroboration_ok in Hrun as Hd. destruct Hd as (? & ? & ? & ? & -> & _).
    apply bool_decide_eq_true in Hc as [_ Hid].
    assert (match nodes (proj proposed_db) !! proposal with
            | Some r => match row_to_node proposal r with
                        | Ok n => String.eqb (n_canonical_identifier n) "concept:better-search" | Err _ => false end
            | None => false end = true) as Hn by (vm_compute; reflexivity).
    destruct (nodes (proj proposed_db) !! proposal) as [r|] eqn:Hr; [|discriminate Hn].
    destruct (row_to_node proposal r) as [n|] eqn:Hrow; [|discriminate Hn]. apply String.eqb_eq in Hn.
    exists ps, {| rp_node := n; rp_corroboration := c |}. split; [exact Hps|]. split; [|by split_and!].
    assert (match nodes (proj proposed_db) !! hub_node with
            | Some h => String.eqb (nr_canonical_identifier h) ROADMAP_PROPOSAL_HUB | None => false end = true) as Hhub
      by (vm_compute; reflexivity).
    destruct (nodes (proj proposed_db) !! hub_node) as [h|] eqn:Hh; [|discriminate Hhub].
    apply (Hin h Hh); [by apply String.eqb_eq|].
    exists proposal_edge, row. split; [by apply Hedges|]. split; [reflexivity|]. split; [reflexivity|]. split; [exists r; split; [exact Hr|exact Hrow]|exact Hrun].
Defined.
End witnesses.
