(* ===== verification/Rest.v ===== *)
(** * The REST API

    [oag-api]: [handlers.rs], [redaction.rs], [auth.rs], [error.rs], [dto.rs]
    and [rate_limit_middleware].  One constructor of [Request] per route that
    works on the graph with a bearer key, one definition per handler.  Paths,
    queries and bodies come decoded, as [axum] hands them to a handler; what a
    handler serialises is a [Reply].  The pages for humans, metrics, crawling
    and the routes that carry their own signatures are elsewhere or not
    modelled.  Reading an RFC 3339 time is [chrono]'s, a parameter. *)

From S2P Require Import Prelude Sorting Core Envelope Store Projector EventLog Frame Scenario Chain Replay Service Graph Rebuild Typing Queries GraphFacts Provenance Search RateLimit Bytes FloatFacts Float32 FloatBits Embeddings Corroboration Authority Roadmap.

#[local] Open Scope Z_scope.

(** ** [dto.rs] *)

Record EvidenceRequest := {
  rq_evidence_type : option string; rq_uri : option string; rq_title : option string;
  rq_excerpt : option string; rq_content_hash : option string; rq_observed_at : option string;
  rq_retrieved_at : option string; rq_pinned_cid : option string; rq_metadata : option json }.
Record AssertRequest := {
  rq_subject : string; rq_subject_type : option string; rq_predicate : string; rq_object : string;
  rq_object_type : option string; rq_evidence : list EvidenceRequest;
  rq_actor_confidence : option Z; rq_asserted_at : option string }.

(** ** Requests *)

Inductive Request :=
  | GetSearch (q : string) (limit : option Z) (semantic : option bool)
  | GetActor (id : string)
  | GetNode (id : string)
  | GetNodeEdges (id : string)
  | GetNodeAssertions (id : string)
  | GetNodeSources (id : string)
  | GetAssertion (id : string)
  | GetEdge (id : string)
  | GetEdgeCorroboration (id : string)
  | GetRoadmap
  | PostAssertion (body : AssertRequest)
  | PostEvidence (id : string) (body : EvidenceRequest)
  | PostVerify (id result : string) (observed_at : option string)
  | PostDispute (id : string) (reason : option string)
  | PostRetract (id : string) (reason : option string)
  | PostSupersede (id new_assertion_id : string)
  | PostResolve (value : string)
  | GetSubgraph (node : string) (depth max_nodes : option nat)
  | GetHistory (object_type id : string)
  | GetStatus
  | PostRedactEvidence (id : string) (reason : option string)
  | GetRedactions
  | PostRedactActor (id : string) (reason : option string)
  | PostSuppress (id : string)
  | PostUnsuppress (id : string).

Inductive Reply :=
  | ReNodes (l : list Node) | ReRanked (l : list (Node * f32)) | ReActor (a : Actor)
  | ReNode (n : Node) (aliases : list NodeAliasT) (authority : option f32)
  | ReEdges (l : list Edge) | ReAssertions (l : list Assertion) | ReEvidence (l : list Evidence)
  | ReAssertion (a : Assertion) (evidence : list Evidence) (observations : list Observation)
      (disputes : list (hash32 * dispute_row)) (retractions : list (hash32 * retraction_row))
  | ReEdge (e : Edge) | ReCorroboration (c : EdgeCorroboration) | ReProposals (l : list RoadmapProposal)
  | ReCreated (assertion_id : string) | ReAccepted
  | ReResolved (o : ResolveOutcome) | ReSubgraph (g : Subgraph) | ReHistory (l : list HistoryEntry)
  | ReStatus (peer_id : string)
  | ReRedactions (evidence actors : list (hash32 * (Z * option string))) (nodes : list (hash32 * Z)).

(** [ApiError(GraphError)]. *)
Abbreviation ApiError := SemanticError.
(** What the handlers read besides the database. *)
Record Caches := { ca_authority : node_authority; ca_embeddings : node_embeddings }.

Section rest.
Context `{P : Platform} `{C : Codec} `{U : GraphPlatform} `{N : Unicode} `{T : FullText}.
Context {K : Corroborating} `{V : EmbeddingProvider}.
Context (identity : SigningKey) (clock : nat → Z) (parse_rfc3339 : string → result string Z).

Abbreviation api := (ste service ApiError).
(** [?] on a call of the service. *)
Definition call {A} (m : ste service GraphError A) : api A := λ s,
  let '(r, s') := m s in (map_err OfGraph r, s').
Definition reading {A} (m : txg A) : api A := call (λ s, (fst <$> m (store s), s)).
Definition reading_tx {A} (m : tx A) : api A := reading (g_storage m).
Definition fail {A} (e : GraphError) : api A := raise (OfGraph e).
Definition answer {A} (r : result GraphError A) : api A := of_result (map_err OfGraph r).

(** ** [dto.rs] *)

Definition parse_timestamp (s : string) : result GraphError Z :=
  map_err (λ e, InvalidInput ("invalid RFC3339 timestamp '" +:+ s +:+ "': " +:+ e)) (parse_rfc3339 s).
Definition opt_timestamp (s : option string) : result GraphError (option Z) := transpose (parse_timestamp <$> s).
Definition evidence_into_input (r : EvidenceRequest) : result GraphError EvidenceInput :=
  observed_at ← opt_timestamp (rq_observed_at r);
  retrieved_at ← opt_timestamp (rq_retrieved_at r);
  Ok {| in_evidence_type := rq_evidence_type r; in_uri := rq_uri r; in_title := rq_title r;
        in_excerpt := rq_excerpt r; in_content_hash := rq_content_hash r; in_observed_at := observed_at;
        in_retrieved_at := retrieved_at; in_pinned_cid := rq_pinned_cid r; in_metadata := rq_metadata r |}.
Definition assert_into_input (r : AssertRequest) : result GraphError AssertInput :=
  evidence ← mapM (M:=result GraphError) evidence_into_input (rq_evidence r);
  observed_at ← opt_timestamp (rq_asserted_at r);
  Ok {| in_subject := rq_subject r; in_subject_type := rq_subject_type r; in_predicate := rq_predicate r;
        in_object := rq_object r; in_object_type := rq_object_type r; in_evidence := evidence;
        in_actor_confidence := rq_actor_confidence r; in_asserted_observed_at := observed_at;
        in_extraction_method := None |}.
Definition now_or (observed_at : option string) : ste service GraphError Z :=
  match observed_at with Some s => of_result (parse_timestamp s) | None => now clock end.

(** ** [auth.rs] *)

(** [authorization]: the header, if there is one that is text. *)
Definition authenticate_header (authorization : option string) : ste service GraphError AuthContext :=
  raw ← of_result (ok_or (authorization ≫= strip_prefix "Bearer ") InvalidApiKey);
  authenticate raw.
Definition authenticate_read (authorization : option string) : ste service GraphError AuthContext :=
  auth ← authenticate_header authorization;
  _ ← of_result (require auth GraphRead);
  mret auth.

(** [parse_node_id] and the like. *)
Definition parse_id (what s : string) : result GraphError hash32 :=
  map_err (λ _, InvalidInput ("invalid " +:+ what +:+ " id '" +:+ s +:+ "'")) (Hash32_from_str s).

(** ** Queries of their own *)

Definition list_disputes (assertion : hash32) : tx (list (hash32 * dispute_row)) :=
  gets (λ d, filter (λ kr : hash32 * dispute_row, di_assertion_id kr.2 = assertion) (map_to_list (assertion_disputes (proj d)))).
Definition list_retractions (assertion : hash32) : tx (list (hash32 * retraction_row)) :=
  gets (λ d, filter (λ kr : hash32 * retraction_row, re_assertion_id kr.2 = assertion) (map_to_list (assertion_retractions (proj d)))).
Definition list_redactions (auth : AuthContext) : txg (list (hash32 * (Z * option string))) :=
  _ ← lift (require auth Admin); gets (λ d, map_to_list (redactions (ops d))).
Definition list_suppressed_nodes (auth : AuthContext) : txg (list (hash32 * Z)) :=
  _ ← lift (require auth Admin); gets (λ d, map_to_list (search_suppressions (ops d))).
Definition list_actor_redactions (auth : AuthContext) : txg (list (hash32 * (Z * option string))) :=
  _ ← lift (require auth Admin); gets (λ d, map_to_list (actor_redactions (ops d))).

(** ** [handlers.rs] *)

Definition search_handler (ca : Caches) (h : option string) (q : string) (limit : option Z) (semantic : option bool) : api Reply :=
  _ ← call (authenticate_read h);
  if default false semantic then
    s ← observe id;
    ranked ← of_result (semantic_search q (default 20 limit) (store s) (ca_embeddings ca));
    mret (ReRanked ranked)
  else found ← reading (search q (default 20 limit)); mret (ReNodes found).
Definition get_actor (h : option string) (id : string) : api Reply :=
  _ ← call (authenticate_read h);
  actor_id ← answer (parse_id "actor" id);
  found ← reading_tx (actors_get_by_id actor_id);
  actor ← answer (ok_or found (GNotFound ("actor " +:+ id)));
  mret (ReActor actor).
Definition get_node (ca : Caches) (h : option string) (id : string) : api Reply :=
  _ ← call (authenticate_read h);
  node_id ← answer (parse_id "node" id);
  found ← reading_tx (nodes_get_by_id node_id);
  node ← answer (ok_or found (GNotFound ("node " +:+ id)));
  aliases ← reading_tx (nodes_list_aliases node_id);
  mret (ReNode node aliases (authority_get node_id (ca_authority ca))).
Definition get_node_edges (h : option string) (id : string) : api Reply :=
  _ ← call (authenticate_read h);
  node_id ← answer (parse_id "node" id);
  found ← reading_tx (edges_list_touching node_id);
  mret (ReEdges found).
Definition get_node_assertions (h : option string) (id : string) : api Reply :=
  _ ← call (authenticate_read h);
  node_id ← answer (parse_id "node" id);
  found ← reading (list_assertions_for_node node_id);
  mret (ReAssertions found).
Definition get_node_sources (h : option string) (id : string) : api Reply :=
  _ ← call (authenticate_read h);
  node_id ← answer (parse_id "node" id);
  sources ← reading (find_sources node_id);
  mret (ReEvidence sources).
Definition get_assertion_handler (h : option string) (id : string) : api Reply :=
  _ ← call (authenticate_read h);
  assertion_id ← answer (parse_id "assertion" id);
  found ← call (get_assertion assertion_id);
  assertion ← answer (ok_or found (GNotFound ("assertion " +:+ id)));
  evidence ← reading_tx (assertions_list_evidence assertion_id);
  observations ← reading_tx (list_observations assertion_id);
  disputes ← reading_tx (list_disputes assertion_id);
  retractions ← reading_tx (list_retractions assertion_id);
  mret (ReAssertion assertion evidence observations disputes retractions).
Definition get_edge (h : option string) (id : string) : api Reply :=
  _ ← call (authenticate_read h);
  edge_id ← answer (parse_id "edge" id);
  found ← reading_tx (edges_get_by_id edge_id);
  edge ← answer (ok_or found (GNotFound ("edge " +:+ id)));
  mret (ReEdge edge).
Definition roadmap_handler (h : option string) : api Reply :=
  _ ← call (authenticate_read h);
  t ← call (now clock);
  proposals ← reading (list_roadmap_proposals t);
  mret (ReProposals proposals).
Definition corroboration_handler (h : option string) (id : string) : api Reply :=
  _ ← call (authenticate_read h);
  edge_id ← answer (parse_id "edge" id);
  t ← call (now clock);
  corroboration ← reading (get_edge_corroboration t edge_id);
  mret (ReCorroboration corroboration).

Definition create_assertion (h : option string) (body : AssertRequest) : api Reply :=
  auth ← call (authenticate_header h);
  input ← answer (assert_into_input body);
  assertion_id ← call (assert_ identity clock auth input);
  mret (ReCreated (to_hex assertion_id)).
Definition add_evidence_handler (h : option string) (id : string) (body : EvidenceRequest) : api Reply :=
  auth ← call (authenticate_header h);
  assertion_id ← answer (parse_id "assertion" id);
  input ← answer (evidence_into_input body);
  _ ← call (add_evidence identity clock auth assertion_id input);
  mret ReAccepted.
Definition verify_handler (h : option string) (id result : string) (observed_at : option string) : api Reply :=
  auth ← call (authenticate_header h);
  assertion_id ← answer (parse_id "assertion" id);
  t ← call (now_or observed_at);
  result ← answer (ok_or (VerifyResult_parse result) (InvalidInput ("unknown verify result '" +:+ result +:+
    "', expected one of confirmed/not_confirmed/changed/contradicted/unreachable/unknown")));
  _ ← call (verify_assertion identity clock auth assertion_id result t);
  mret ReAccepted.
Definition dispute_handler (h : option string) (id : string) (reason : option string) : api Reply :=
  auth ← call (authenticate_header h);
  assertion_id ← answer (parse_id "assertion" id);
  _ ← call (dispute_assertion identity clock auth assertion_id reason);
  mret ReAccepted.
Definition retract_handler (h : option string) (id : string) (reason : option string) : api Reply :=
  auth ← call (authenticate_header h);
  assertion_id ← answer (parse_id "assertion" id);
  _ ← call (retract_assertion identity clock auth assertion_id reason);
  mret ReAccepted.
Definition supersede_handler (h : option string) (id new_assertion_id : string) : api Reply :=
  auth ← call (authenticate_header h);
  old ← answer (parse_id "assertion" id);
  new ← answer (parse_id "assertion" new_assertion_id);
  _ ← call (supersede_assertion identity clock auth old new);
  mret ReAccepted.
Definition resolve_handler (h : option string) (value : string) : api Reply :=
  _ ← call (authenticate_read h);
  outcome ← reading (resolve value);
  mret (ReResolved outcome).
Definition subgraph_handler (h : option string) (node : string) (depth max_nodes : option nat) : api Reply :=
  _ ← call (authenticate_read h);
  node_id ← answer (parse_id "node" node);
  sg ← reading (get_subgraph node_id (default 1%nat depth) (default 200%nat max_nodes));
  mret (ReSubgraph sg).
Definition history_handler (h : option string) (object_type id : string) : api Reply :=
  _ ← call (authenticate_read h);
  entries ← reading (get_history object_type id);
  mret (ReHistory entries).
Definition status : Reply := ReStatus (PeerId_to_string (identity_peer_id identity)).

(** ** [redaction.rs] *)

Definition redact_evidence_handler (h : option string) (id : string) (reason : option string) : api Reply :=
  auth ← call (authenticate_header h);
  evidence_id ← answer (parse_id "evidence" id);
  _ ← call (redact_evidence clock auth evidence_id reason);
  mret ReAccepted.
Definition list_redactions_handler (h : option string) : api Reply :=
  auth ← call (authenticate_header h);
  evidence ← reading (list_redactions auth);
  nodes ← reading (list_suppressed_nodes auth);
  actors ← reading (list_actor_redactions auth);
  mret (ReRedactions evidence actors nodes).
Definition redact_actor_handler (h : option string) (id : string) (reason : option string) : api Reply :=
  auth ← call (authenticate_header h);
  actor_id ← answer (parse_id "actor" id);
  _ ← call (redact_actor_identity_uri clock auth actor_id reason);
  mret ReAccepted.
Definition suppress_handler (h : option string) (id : string) : api Reply :=
  auth ← call (authenticate_header h);
  node_id ← answer (parse_id "node" id);
  _ ← call (suppress_node_from_search clock auth node_id);
  mret ReAccepted.
Definition unsuppress_handler (h : option string) (id : string) : api Reply :=
  auth ← call (authenticate_header h);
  node_id ← answer (parse_id "node" id);
  _ ← call (unsuppress_node_from_search auth node_id);
  mret ReAccepted.

(** ** [build_router] *)

Definition handle (ca : Caches) (h : option string) (r : Request) : api Reply :=
  match r with
  | GetSearch q limit semantic => search_handler ca h q limit semantic
  | GetActor id => get_actor h id
  | GetNode id => get_node ca h id
  | GetNodeEdges id => get_node_edges h id
  | GetNodeAssertions id => get_node_assertions h id
  | GetNodeSources id => get_node_sources h id
  | GetAssertion id => get_assertion_handler h id
  | GetEdge id => get_edge h id
  | GetEdgeCorroboration id => corroboration_handler h id
  | GetRoadmap => roadmap_handler h
  | PostAssertion body => create_assertion h body
  | PostEvidence id body => add_evidence_handler h id body
  | PostVerify id result t => verify_handler h id result t
  | PostDispute id reason => dispute_handler h id reason
  | PostRetract id reason => retract_handler h id reason
  | PostSupersede id new => supersede_handler h id new
  | PostResolve value => resolve_handler h value
  | GetSubgraph node depth max_nodes => subgraph_handler h node depth max_nodes
  | GetHistory object_type id => history_handler h object_type id
  | GetStatus => mret status
  | PostRedactEvidence id reason => redact_evidence_handler h id reason
  | GetRedactions => list_redactions_handler h
  | PostRedactActor id reason => redact_actor_handler h id reason
  | PostSuppress id => suppress_handler h id
  | PostUnsuppress id => unsuppress_handler h id
  end.

(** ** [error.rs] *)

Definition into_response (e : ApiError) : Z * string :=
  match e with
  | OfGraph InvalidApiKey => (401, "invalid api key")
  | OfGraph (PermissionDenied p) => (403, "permission denied: requires " +:+ p)
  | OfGraph (GNotFound what) => (404, "not found: " +:+ what)
  | OfGraph (InvalidInput why) => (400, "invalid input: " +:+ why)
  | OfGraph (GEvents (NotFound what)) => (404, "referenced object not found: " +:+ what)
  | OfGraph (GStorage _) | OfGraph (GEvents _) => (500, "internal error")
  | Embedding EmbeddingDisabled => (400, "embeddings are disabled")
  | Embedding _ => (502, "embedding provider error")
  | OfGraph (AlreadyRedacted id) => (409, "evidence " +:+ to_hex id +:+ " has already been redacted")
  | OfGraph (ActorAlreadyRedacted id) => (409, "actor " +:+ to_hex id +:+ "'s identity_uri has already been redacted")
  end.
(** A response: its status, and an error message or the reply. *)
Definition respond (r : result ApiError Reply) : Z * result string Reply :=
  match r with
  | Ok reply => (200, Ok reply)
  | Err e => let '(status, message) := into_response e in (status, Err message)
  end.

(** A request at [instant] of the monotonic clock, through the rate limiter. *)
Definition serve (ca : Caches) (instant : Z) (h : option string) (r : Request)
    (st : RateLimiter * service) : (Z * result string Reply) * (RateLimiter * service) :=
  let '(allowed, limiter) := rate_limit_middleware instant h st.1 in
  if allowed : bool then
    let '(reply, s) := handle ca h r st.2 in (respond reply, (limiter, s))
  else ((429, Err ""), (limiter, st.2)).
End rest.

(** ** What a route requires *)

Definition required (r : Request) : option Permission :=
  match r with
  | GetStatus => None
  | PostAssertion _ | PostEvidence _ _ | PostDispute _ _ | PostSupersede _ _ => Some GraphAssert
  | PostVerify _ _ _ => Some GraphVerify
  | PostRetract _ _ => Some GraphRetractOwn
  | PostRedactEvidence _ _ | GetRedactions | PostRedactActor _ _ | PostSuppress _ | PostUnsuppress _ => Some Admin
  | _ => Some GraphRead
  end.
(** The routes that never write. *)
Definition only_reads (r : Request) : bool :=
  match r with
  | PostAssertion _ | PostEvidence _ _ | PostVerify _ _ _ | PostDispute _ _ | PostRetract _ _ | PostSupersede _ _
  | PostRedactEvidence _ _ | PostRedactActor _ _ | PostSuppress _ | PostUnsuppress _ => false
  | _ => true
  end.

Ltac handler_unfold :=
  unfold handle, search_handler, get_actor, get_node, get_node_edges, get_node_assertions, get_node_sources,
    get_assertion_handler, get_edge, roadmap_handler, corroboration_handler, create_assertion, add_evidence_handler,
    verify_handler, dispute_handler, retract_handler, supersede_handler, resolve_handler, subgraph_handler, history_handler,
    redact_evidence_handler, list_redactions_handler, redact_actor_handler, suppress_handler, unsuppress_handler.

(** ** Calls that leave the database alone, and calls that fail without touching it *)

Definition same_store (s s' : service) : Prop := store s' = store s.
#[export] Instance same_store_preorder : PreOrder same_store.
Proof. split; [done|]. intros s1 s2 s3 H1 H2. unfold same_store in *. by rewrite H2. Qed.

Definition fails_cleanly {E A} (m : ste service E A) : Prop :=
  ∀ s, ∃ e s', m s = (Err e, s') ∧ same_store s s'.
Lemma fails_bind_l {E A B} (m : ste service E A) (f : A → ste service E B) : fails_cleanly m → fails_cleanly (m ≫= f).
Proof. intros Hm s. destruct (Hm s) as (e & s' & Hrun & Hs). exists e, s'. split; [by apply ste_bind_fail|done]. Qed.
Lemma fails_bind_r {E A B} (m : ste service E A) (f : A → ste service E B) :
  steps same_store m → (∀ a, fails_cleanly (f a)) → fails_cleanly (m ≫= f).
Proof.
  intros Hm Hf s. specialize (Hm s). cbv [mbind ste_bind]. destruct (m s) as [[a|e] s'] eqn:Hrun; cbn in Hm.
  - destruct (Hf a s') as (e & s'' & -> & Hs). exists e, s''. split; [done|]. by etransitivity.
  - by exists e, s'.
Qed.

Section facts.
Context `{P : Platform} `{C : Codec} `{U : GraphPlatform} `{N : Unicode} `{T : FullText}.
Context {K : Corroborating} `{V : EmbeddingProvider}.
Context (identity : SigningKey) (clock : nat → Z) (parse_rfc3339 : string → result string Z).

Lemma steps_call {A} (m : ste service GraphError A) : steps same_store m → steps same_store (call m).
Proof. intros Hm s. specialize (Hm s). unfold call. by destruct (m s). Qed.
Lemma steps_reading {A} (m : txg A) : steps same_store (reading m).
Proof. done. Qed.
Lemma steps_reading_tx {A} (m : tx A) : steps same_store (reading_tx m).
Proof. done. Qed.
Lemma steps_answer {A} (r : result GraphError A) : steps same_store (answer r).
Proof. done. Qed.
Lemma steps_now : steps same_store (now clock).
Proof. done. Qed.
Lemma steps_authenticate raw : steps same_store (authenticate raw).
Proof. intros s. unfold authenticate, query. cbv [mbind ste_bind]. by destruct (map_err _ _) as [[k|]|]. Qed.
Lemma steps_authenticate_header h : steps same_store (authenticate_header h).
Proof. apply steps_bind; [apply _|done|]. intros. apply steps_authenticate. Qed.
Lemma steps_authenticate_read h : steps same_store (authenticate_read h).
Proof. apply steps_bind; [apply _|apply steps_authenticate_header|]. intros. apply steps_bind; [apply _|done|done]. Qed.
Lemma steps_now_or t : steps same_store (now_or clock parse_rfc3339 t).
Proof. by destruct t. Qed.
Lemma steps_get_assertion id : steps same_store (get_assertion id).
Proof. done. Qed.
#[local] Hint Resolve steps_call steps_reading steps_reading_tx steps_answer steps_now steps_authenticate_header
  steps_authenticate_read steps_now_or steps_get_assertion : steps.
#[local] Hint Extern 2 (PreOrder _) => apply _ : steps.

Lemma fails_call {A} (m : ste service GraphError A) : fails_cleanly m → fails_cleanly (call m).
Proof.
  intros Hm s. destruct (Hm s) as (e & s' & Hrun & Hs). unfold call. rewrite Hrun. cbn. by exists (OfGraph e), s'.
Qed.
Lemma fails_refused {A} auth p (f : () → ste service GraphError A) :
  p ∉ auth_permissions auth → Admin ∉ auth_permissions auth → fails_cleanly (of_result (require auth p) ≫= f).
Proof. intros Hp Ha s. eexists _, s. split; [by apply refused_bind|done]. Qed.

Lemma reads_same_store ca h r : only_reads r = true → steps same_store (handle identity clock parse_rfc3339 ca h r).
Proof.
  destruct r; try done; intros _; handler_unfold; repeat first [apply steps_bind; [apply _| |intros] | case_match | solve [auto with steps]].
Qed.

Lemma fails_list_redactions auth : Admin ∉ auth_permissions auth → fails_cleanly (reading (list_redactions auth)).
Proof.
  intros Ha s. unfold reading, call, list_redactions. cbv [mbind stm_bind lift].
  rewrite (require_refused auth Admin Ha Ha). cbn. by eexists _, s.
Qed.

(** A bearer key that is active, and what it stands for. *)
Definition active_key (d : db) (h : option string) (auth : AuthContext) : Prop :=
  ∃ raw k d', h = Some ("Bearer " +:+ raw) ∧ actors_find_active_key (blake3 raw) d = Ok (Some k, d') ∧
    auth = {| auth_actor_id := ak_actor_id k; auth_permissions := ak_permissions k |}.
Lemma strip_prefix_some pre t rest : strip_prefix pre t = Some rest → t = pre +:+ rest.
Proof.
  revert t. induction pre as [|a pre IH]; intros t; [by intros [= ->]|]. destruct t as [|b t]; [done|]. cbn.
  destruct (decide (a = b)) as [-> |]; [|done]. intros ->%IH. by rewrite string_app_cons.
Qed.
Lemma authenticate_cases h s :
  (∃ auth, active_key (store s) h auth ∧ authenticate_header h s = (Ok auth, s)) ∨
  (∃ e, authenticate_header h s = (Err e, s)).
Proof.
  unfold authenticate_header. destruct (h ≫= strip_prefix "Bearer ") as [raw|] eqn:Hh; [|right; eexists; reflexivity].
  cbn [ok_or]. cbv [mbind ste_bind of_result].
  destruct h as [t|]; [|done]. apply strip_prefix_some in Hh as ->.
  unfold authenticate, query. cbv [mbind ste_bind].
  destruct (actors_find_active_key (blake3 raw) (store s)) as [[[k|] d]|] eqn:Hk; cbn; [left|right; eexists; reflexivity..].
  eexists. split; [by exists raw, k, d|reflexivity].
Qed.

Lemma call_ok {A} (m : ste service GraphError A) s a s' : m s = (Ok a, s') → call m s = (Ok a, s').
Proof. intros H. unfold call. by rewrite H. Qed.
Lemma call_err {A} (m : ste service GraphError A) s e s' : m s = (Err e, s') → call m s = (Err (OfGraph e), s').
Proof. intros H. unfold call. by rewrite H. Qed.

Lemma handle_unauthenticated ca h r s e : required r ≠ None → authenticate_header h s = (Err e, s) →
  handle identity clock parse_rfc3339 ca h r s = (Err (OfGraph e), s).
Proof.
  intros Hr He. assert (authenticate_read h s = (Err e, s)) as Hread by (by apply ste_bind_fail).
  destruct r; try done; handler_unfold; apply ste_bind_fail; by apply call_err.
Qed.
Lemma handle_unauthorized ca h r p s auth : required r = Some p → authenticate_header h s = (Ok auth, s) →
  p ∉ auth_permissions auth → Admin ∉ auth_permissions auth →
  ∃ e s', handle identity clock parse_rfc3339 ca h r s = (Err e, s') ∧ same_store s s'.
Proof.
  intros Hr Hauth Hp Ha.
  assert (p = GraphRead → authenticate_read h s = (Err (PermissionDenied (as_str GraphRead)), s)) as Hread.
  { intros ->. unfold authenticate_read. rewrite (ste_bind_run _ _ _ _ _ Hauth). by apply refused_bind. }
  destruct r; try done; injection Hr as <-; handler_unfold;
    try (eexists _, s; split; [apply ste_bind_fail, call_err, Hread; reflexivity|done]);
    rewrite (ste_bind_run _ _ _ _ _ (call_ok _ _ _ _ Hauth)).
  all: match goal with |- ∃ e s', ?m ?s0 = _ ∧ _ => enough (fails_cleanly m) as Hf by apply Hf end.
  all: repeat first [apply fails_bind_l, fails_call; solve [by apply fails_refused]
                    | apply fails_bind_l; solve [by apply fails_list_redactions]
                    | apply fails_bind_r; [solve [auto with steps]|intros]].
Qed.
Lemma server_error_hidden (r : result ApiError Reply) : 500 ≤ (respond r).1 →
  (respond r).2 = Err "internal error" ∨ (respond r).2 = Err "embedding provider error".
Proof. destruct r as [|[[| []| | | | | |]|[]]]; cbn; (intros; first [lia|auto]). Qed.
Lemma authenticate_invalid h s : typed (proj (store s)) → (∀ auth, ¬ active_key (store s) h auth) →
  authenticate_header h s = (Err InvalidApiKey, s).
Proof.
  intros Ht Hno. unfold authenticate_header. destruct (h ≫= strip_prefix "Bearer ") as [raw|] eqn:Hh; [|done].
  destruct h as [t|]; [|done]. apply strip_prefix_some in Hh as ->. cbn [ok_or]. cbv [mbind ste_bind of_result].
  unfold authenticate, query. cbv [mbind ste_bind]. pose proof (key_read_ok (store s) (blake3 raw) Ht) as Hok.
  destruct (actors_find_active_key (blake3 raw) (store s)) as [[[k|] d]|] eqn:Hk; [|done..].
  exfalso. eapply Hno. by exists raw, k, d.
Qed.

(** C25: The REST API does nothing for a caller it cannot place.  Whatever the
    request: over the rate limit it is answered 429 and the service is not
    even asked; a route that reads never changes the database; a route other
    than the status succeeds, or leaves a mark on the database, only if the
    bearer key is active and its permissions include the one the route
    requires, or admin; without an active key the answer is 401 and nothing
    changes; and an internal failure is reported by a fixed phrase. *)
Theorem rest_guarded ca instant h r limiter s :
  let '((status, body), (_, s')) := serve identity clock parse_rfc3339 ca instant h r (limiter, s) in
  ((rate_limit_middleware instant h limiter).1 = false → status = 429 ∧ s' = s) ∧
  (only_reads r = true → store s' = store s) ∧
  (∀ p, required r = Some p → status = 200 ∨ store s' ≠ store s →
     ∃ auth, active_key (store s) h auth ∧ (p ∈ auth_permissions auth ∨ Admin ∈ auth_permissions auth)) ∧
  (required r ≠ None → typed (proj (store s)) → (∀ auth, ¬ active_key (store s) h auth) →
     (status = 401 ∨ status = 429) ∧ s' = s) ∧
  (500 ≤ status → body = Err "internal error" ∨ body = Err "embedding provider error").
Proof.
  unfold serve. cbn [fst snd]. destruct (rate_limit_middleware instant h limiter) as [[] limiter'].
  2:{ split_and!; [done|done| |by auto|lia]. intros p _ [[=]|[]]. done. }
  destruct (handle identity clock parse_rfc3339 ca h r s) as [reply s'] eqn:Hrun.
  destruct (respond reply) as [status body] eqn:Hresp. split_and!; [done| | | |].
  - intros Hr. pose proof (reads_same_store ca h r Hr s) as Hs. by rewrite Hrun in Hs.
  - intros p Hp Hmark. assert (∀ e, reply = Err e → status ≠ 200) as Herr.
    { intros e ->. cbn in Hresp. destruct e as [[| []| | | | | |]|[]]; by injection Hresp as <- <-. }
    destruct (authenticate_cases h s) as [(auth & Hkey & Hauth)|[e He]].
    + exists auth. split; [done|]. destruct (decide (p ∈ auth_permissions auth)) as [|Hnp]; [by left|].
      destruct (decide (Admin ∈ auth_permissions auth)) as [|Hna]; [by right|]. exfalso.
      destruct (handle_unauthorized ca h r p s auth Hp Hauth Hnp Hna) as (e & s'' & Hrun' & Hs).
      rewrite Hrun' in Hrun. injection Hrun as <- <-. destruct Hmark as [H|H]; [by eapply Herr|by apply H].
    + exfalso. rewrite (handle_unauthenticated ca h r s e) in Hrun; [|by rewrite Hp|done]. injection Hrun as <- <-.
      destruct Hmark as [H|H]; [by eapply Herr|done].
  - intros Hr Ht Hno. rewrite (handle_unauthenticated ca h r s InvalidApiKey) in Hrun; [|done|by apply authenticate_invalid].
    injection Hrun as <- <-. cbn in Hresp. injection Hresp as <- <-. auto.
  - intros H. pose proof (server_error_hidden reply) as Hh. rewrite Hresp in Hh. by apply Hh.
Qed.
End facts.

Section witnesses.
#[local] Existing Instance Toy.platform.
#[local] Existing Instance demo_codec.
#[local] Existing Instance ToyGraph.plain_urls.
#[local] Existing Instance ToyText.unicode.
#[local] Existing Instance every_node.
#[local] Existing Instance plain_corroborating.
#[local] Existing Instance length_provider.

Definition no_caches : Caches := {| ca_authority := ∅; ca_embeddings := ∅ |}.
Definition no_times (_ : string) : result string Z := Err "not a time".
Definition asked (h : option string) (r : Request) (s : service) := serve alice GraphFacts.tick no_times no_caches 0 h r (RateLimiter_default, s).

(** A writer may read, and so must hold a key that lets it; a dispute
    without a key is refused and leaves the service as it was. *)
Lemma rest_guarded_witness :
  (asked (Some ("Bearer " +:+ made_key)) (GetActor (to_hex writer)) key_made).1.1 = 200 ∧
  (∃ auth, active_key (store key_made) (Some ("Bearer " +:+ made_key)) auth ∧
     (GraphRead ∈ auth_permissions auth ∨ Admin ∈ auth_permissions auth)) ∧
  (asked None (PostDispute (to_hex (id_of e2)) None) (Svc asserted_db 0)).2.2 = Svc asserted_db 0.
Proof.
  assert ((asked (Some ("Bearer " +:+ made_key)) (GetActor (to_hex writer)) key_made).1.1 = 200) as H200 by (vm_compute; reflexivity).
  split; [exact H200|]. split.
  - pose proof (@rest_guarded Toy.platform demo_codec ToyGraph.plain_urls ToyText.unicode every_node plain_corroborating length_provider
      alice GraphFacts.tick no_times no_caches 0 (Some ("Bearer " +:+ made_key)) (GetActor (to_hex writer)) RateLimiter_default key_made) as H.
    unfold asked in H200. destruct (serve _ _ _ _ _ _ _ _) as [[status body] [l s']].
    destruct H as (_ & _ & H & _). apply (H GraphRead eq_refl). left. exact H200.
  - pose proof (@rest_guarded Toy.platform demo_codec ToyGraph.plain_urls ToyText.unicode every_node plain_corroborating length_provider
      alice GraphFacts.tick no_times no_caches 0 None (PostDispute (to_hex (id_of e2)) None) RateLimiter_default (Svc asserted_db 0)) as H.
    unfold asked. destruct (serve _ _ _ _ _ _ _ _) as [[status body] [l s']].
    destruct H as (_ & _ & _ & H & _). apply H; [discriminate|exact asserted_typed|].
    intros auth (raw & k & d' & Hh & _). discriminate Hh.
Defined.
End witnesses.
