(* ===== verification/RestFacts.v ===== *)
(** * What a request can make of the database

    Every write of the REST API is an event in the name of the key's actor, or
    a decision only an operator may take; so a request leads from one
    reachable database to another. *)

From S2P Require Import Prelude Sorting Core Envelope Store Projector EventLog Frame Scenario Chain Replay Service Graph Rebuild Typing Queries GraphFacts Provenance Search RateLimit Bytes FloatFacts Float32 FloatBits Embeddings Corroboration Authority Roadmap Rest.

(** Payloads that name [actor] as their author; evidence names nobody. *)
Inductive speaks_for `{P : Platform} (actor : hash32) : EventPayload → Prop :=
  | speaks_assert p : ar_actor_id p = to_hex actor → speaks_for actor (AssertRelation p)
  | speaks_evidence p : speaks_for actor (AddEvidence p)
  | speaks_verify p : va_observer_actor_id p = to_hex actor → speaks_for actor (VerifyAssertion p)
  | speaks_dispute p : da_disputing_actor_id p = to_hex actor → speaks_for actor (DisputeAssertion p)
  | speaks_retract p : ra_actor_id p = to_hex actor → speaks_for actor (RetractAssertion p)
  | speaks_supersede p : sa_actor_id p = to_hex actor → speaks_for actor (SupersedeAssertion p).
#[export] Hint Constructors speaks_for : steps.

Section operated.
Context `{P : Platform} `{C : Codec} `{U : GraphPlatform}.
Context (identity : SigningKey).

(** What an operator decides: redaction and suppression. *)
Inductive decision (d : db) : db → Prop :=
  | decide_redact_evidence id reason t : decision d (atomically (redact_evidence_tx id reason t) d).2
  | decide_redact_actor id reason t : decision d (atomically (redact_actor_tx id reason t) d).2
  | decide_suppress node t : decision d (atomically (suppress node t) d).2
  | decide_unsuppress node : decision d (atomically (unsuppress node) d).2.

(** The event this peer signs for a payload on top of [d]. *)
Definition event_at (d : db) (t : Z) (p : EventPayload) : list SignedEvent :=
  let own := chain_of (identity_peer_id identity) d in
  match build_and_sign identity (Z.of_nat (length own) + 1) (last own) t p with
  | Ok (signed, _) => [signed]
  | Err _ => []
  end.

(** Writing on behalf of [auth], with the events signed on the way. *)
Inductive operated (auth : AuthContext) : list SignedEvent → db → db → Prop :=
  | operated_done d : operated auth [] d d
  | operated_commit p t d id out d1 es d' :
      speaks_for (auth_actor_id auth) p → committed identity p t d id out d1 →
      operated auth es d1 d' → operated auth (event_at d t p ++ es) d d'
  | operated_decide d d1 es d' :
      Admin ∈ auth_permissions auth → decision d d1 → operated auth es d1 d' → operated auth es d d'.

Lemma operated_trans auth es es' d1 d2 d3 :
  operated auth es d1 d2 → operated auth es' d2 d3 → operated auth (es ++ es') d1 d3.
Proof.
  induction 1 as [|p t d id out d1 es d' Hp Hc _ IH|d d1 es d' Ha Hd _ IH]; intros H; [done|..].
  - rewrite <-app_assoc. eapply operated_commit; [done|done|by apply IH].
  - eapply operated_decide; [done|done|by apply IH].
Qed.

Lemma decision_log d d' : decision d d' → log d' = log d.
Proof.
  destruct 1 as [id reason t|id reason t|node t|node].
  - destruct (atomically _ d) as [[u|e] d'] eqn:Hrun; [|by apply atomically_err in Hrun as ->].
    by apply atomically_ok, redact_evidence_inv in Hrun as (r & _ & _ & _ & ->).
  - destruct (atomically _ d) as [[u|e] d'] eqn:Hrun; [|by apply atomically_err in Hrun as ->].
    by apply atomically_ok, redact_actor_inv in Hrun as (r & _ & ->).
  - unfold suppress, insert_or_ignore, atomically. cbv [mbind stm_bind get mret stm_ret modify].
    by destruct (has _ _).
  - done.
Qed.
(** The log only grows, by a row for each event at least. *)
Lemma operated_grows auth es d d' : operated auth es d d' →
  ∃ rows, events (log d') = events (log d) ++ rows ∧ length es ≤ length rows.
Proof.
  induction 1 as [d|p t d id out d1 es d' Hp Hc _ (rows & Hr & Hl)|d d1 es d' Ha Hd _ (rows & Hr & Hl)].
  - exists []. by rewrite app_nil_r.
  - destruct (committed_appends _ _ _ _ _ _ _ Hc) as [row Hrow]. exists (row :: rows).
    rewrite Hr, Hrow, <-app_assoc, length_app. split; [done|].
    assert (length (event_at d t p) ≤ 1) by (unfold event_at; destruct (build_and_sign _ _ _ _ _) as [[]|]; cbn; lia).
    cbn. lia.
  - exists rows. by rewrite Hr, (decision_log _ _ Hd).
Qed.

Lemma operated_reachable auth es d d' :
  operated auth es d d' → reachable d → small d' → Forall faithful es → reachable d'.
Proof.
  induction 1 as [d|p t d id out d1 es d' Hp Hc Hop IH|d d1 es d' Ha Hd Hop IH]; [done|intros Hr Hs Hf..].
  - apply Forall_app in Hf as [Hf Hfs].
    destruct (operated_grows _ _ _ _ Hop) as (rows & Hrows & _).
    destruct (committed_appends _ _ _ _ _ _ _ Hc) as [row Hrow].
    apply IH; [|done|done]. apply (reachable_step d); [done| |].
    { unfold small in *. rewrite Hrows, Hrow, !length_app in Hs. lia. }
    unfold committed in Hc. replace d1 with (commit_local_event identity p t d).2 by (by rewrite Hc).
    apply step_commit. intros signed i Hb. unfold event_at in Hf. rewrite Hb in Hf. by inversion Hf.
  - destruct (operated_grows _ _ _ _ Hop) as (rows & Hrows & _).
    apply IH; [|done|done]. apply (reachable_step d); [done| |].
    { unfold small in *. rewrite Hrows, (decision_log _ _ Hd), length_app in Hs. lia. }
    destruct Hd; [apply step_redact_evidence|apply step_redact_actor|apply step_suppress|apply step_unsuppress].
Qed.

(** *** As a relation between states of the service *)

Definition operates (auth : AuthContext) (s s' : service) : Prop := ∃ es, operated auth es (store s) (store s').
#[export] Instance operates_preorder auth : PreOrder (operates auth).
Proof.
  split; [intros s; exists []; constructor|]. intros s1 s2 s3 [es H1] [es' H2].
  exists (es ++ es'). by eapply operated_trans.
Qed.
End operated.

(** ** The operations of the graph service *)

Section service.
Context `{P : Platform} `{C : Codec} `{U : GraphPlatform}.
Context (identity : SigningKey) (clock : nat → Z) (auth : AuthContext).
Abbreviation operates := (operates identity auth).

Lemma operates_commit p t : speaks_for (auth_actor_id auth) p → steps operates (commit_event identity p t).
Proof.
  intros Hp s. destruct (commit_event_cases identity p t s) as [[e ->]|(id & out & d' & Hc & ->)]; [reflexivity|].
  exists (event_at identity (store s) t p ++ []). eapply operated_commit; [done|exact Hc|constructor].
Qed.
Lemma operates_decide {E A} (conv : E → GraphError) (f : db → result E A * db) :
  Admin ∈ auth_permissions auth → (∀ d, decision d (f d).2) → steps operates (transact conv f).
Proof.
  intros Ha Hf s. unfold transact. specialize (Hf (store s)). destruct (f (store s)) as [r d]. cbn in *.
  exists []. eapply operated_decide; [done|exact Hf|constructor].
Qed.
Lemma operates_now : steps operates (now clock).
Proof. intros s. exists []. constructor. Qed.
Lemma operates_query {A} (m : tx A) : steps operates (query m).
Proof. intros s. exists []. constructor. Qed.
Lemma require_admin u : require auth Admin = Ok u → Admin ∈ auth_permissions auth.
Proof.
  unfold require. destruct (decide (Admin ∈ auth_permissions auth)) as [|Hn]; [done|].
  by rewrite bool_decide_false by done.
Qed.
#[local] Hint Resolve operates_commit operates_now operates_query : steps.
#[local] Hint Extern 2 (PreOrder _) => apply _ : steps.
Ltac walk := repeat first
  [ apply steps_bind_result; [apply _|intros] | apply steps_bind; [apply _| |intros] | case_match | solve [auto with steps] ].

Lemma operates_commit_now p : speaks_for (auth_actor_id auth) p → steps operates (commit_now identity clock p).
Proof. intros Hp. unfold commit_now. walk. Qed.
Lemma operates_add_evidence_internal id e : steps operates (add_evidence_internal identity clock id e).
Proof. unfold add_evidence_internal. walk. Qed.
Lemma operates_add_all id es : steps operates (add_all identity clock id es).
Proof.
  induction es as [|e es IH]; cbn [add_all]; [auto with steps|].
  apply steps_bind; [apply _|apply operates_add_evidence_internal|done].
Qed.
Lemma speaks_payload i : speaks_for (auth_actor_id auth) (assert_payload auth i).
Proof.
  unfold assert_payload. destruct (canonicalize_value _) as [x y], (canonicalize_value _) as [z w]. by apply speaks_assert.
Qed.
#[local] Hint Resolve operates_commit_now operates_add_evidence_internal operates_add_all speaks_payload : steps.

Lemma operates_assert i : steps operates (assert_ identity clock auth i).
Proof. unfold assert_. walk. Qed.
Lemma operates_add_evidence id e : steps operates (add_evidence identity clock auth id e).
Proof. unfold add_evidence. walk. Qed.
Lemma operates_verify id r t : steps operates (verify_assertion identity clock auth id r t).
Proof. unfold verify_assertion. walk. Qed.
Lemma operates_dispute id reason : steps operates (dispute_assertion identity clock auth id reason).
Proof. unfold dispute_assertion. walk. Qed.
Lemma operates_retract id reason : steps operates (retract_assertion identity clock auth id reason).
Proof. unfold retract_assertion, get_assertion. walk. Qed.
Lemma operates_supersede old new : steps operates (supersede_assertion identity clock auth old new).
Proof. unfold supersede_assertion. walk. Qed.
Lemma operates_redact_evidence id reason : steps operates (redact_evidence clock auth id reason).
Proof. unfold redact_evidence. walk; apply operates_decide; [by eapply require_admin|intros; constructor]. Qed.
Lemma operates_redact_actor id reason : steps operates (redact_actor_identity_uri clock auth id reason).
Proof. unfold redact_actor_identity_uri. walk; apply operates_decide; [by eapply require_admin|intros; constructor]. Qed.
Lemma operates_suppress node : steps operates (suppress_node_from_search clock auth node).
Proof. unfold suppress_node_from_search. walk; apply operates_decide; [by eapply require_admin|intros; constructor]. Qed.
Lemma operates_unsuppress node : steps operates (unsuppress_node_from_search auth node).
Proof. unfold unsuppress_node_from_search. walk; apply operates_decide; [by eapply require_admin|intros; constructor]. Qed.
End service.
#[export] Hint Resolve operates_assert operates_add_evidence operates_verify operates_dispute operates_retract
  operates_supersede operates_redact_evidence operates_redact_actor operates_suppress operates_unsuppress : steps.

(** ** The handlers *)

Section rest.
Context `{P : Platform} `{C : Codec} `{U : GraphPlatform} `{N : Unicode} `{T : FullText}.
Context {K : Corroborating} `{V : EmbeddingProvider}.
Context (identity : SigningKey) (clock : nat → Z) (parse_rfc3339 : string → result string Z).
Abbreviation handle := (handle identity clock parse_rfc3339).

(** What a run did to the database, on behalf of whoever the header stands for. *)
Definition acted (h : option string) (d d' : db) : Prop :=
  d' = d ∨ ∃ auth es, active_key d h auth ∧ operated identity auth es d d'.

Lemma operates_call auth {A} (m : ste service GraphError A) :
  steps (operates identity auth) m → steps (operates identity auth) (call m).
Proof. intros Hm s. specialize (Hm s). unfold call. by destruct (m s). Qed.
Lemma operates_answer auth {A} (r : result GraphError A) : steps (operates identity auth) (answer r).
Proof. intros s. reflexivity. Qed.
Lemma operates_now_or auth t : steps (operates identity auth) (now_or clock parse_rfc3339 t).
Proof. destruct t; [apply steps_of_result; apply _|apply operates_now]. Qed.
#[local] Hint Resolve operates_call operates_answer operates_now_or : steps.
#[local] Hint Extern 2 (PreOrder _) => apply _ : steps.

Lemma acted_authenticated {A} h (f : AuthContext → ste service ApiError A) s :
  (∀ auth, steps (operates identity auth) (f auth)) →
  acted h (store s) (store ((call (authenticate_header h) ≫= f) s).2).
Proof.
  intros Hf. destruct (authenticate_cases h s) as [(auth & Hkey & Hauth)|[e He]].
  - rewrite (ste_bind_run _ _ _ _ _ (call_ok _ _ _ _ Hauth)). right.
    destruct (Hf auth s) as [es Hes]. by exists auth, es.
  - left. by rewrite (ste_bind_fail _ _ _ _ _ (call_err _ _ _ _ He)).
Qed.
Lemma handle_acted ca h r s : acted h (store s) (store (handle ca h r s).2).
Proof.
  destruct (only_reads r) eqn:Hr; [left; by apply reads_same_store|].
  destruct r; try done; handler_unfold; apply acted_authenticated; intros auth;
    repeat first [apply steps_bind; [apply _| |intros] | solve [auto with steps]].
Qed.
End rest.

Section properties.
Context `{P : Platform} `{C : Codec} `{U : GraphPlatform} `{N : Unicode} `{T : FullText}.
Context {K : Corroborating} `{V : EmbeddingProvider}.
Context (identity : SigningKey) (clock : nat → Z) (parse_rfc3339 : string → result string Z).

(** C26: A caller of the REST API speaks for itself only.  Whatever one request
    does to the database is a sequence of commits to this peer's own chain of
    events that name the actor of the bearer key as their author (evidence
    names nobody), and, only if the key has the admin permission, of
    redactions and suppressions; nothing else is touched, and without an
    active key nothing at all.  So a reachable database stays reachable, with
    all that holds of those: its chains linked, its rows well typed,
    redactions permanent, rebuilding the identity - as long as canonical JSON
    represents the events signed. *)
Theorem rest_attributed ca instant h r limiter s :
  let s' := (serve identity clock parse_rfc3339 ca instant h r (limiter, s)).2.2 in
  store s' = store s ∨
  ∃ auth es, active_key (store s) h auth ∧ operated identity auth es (store s) (store s') ∧
    (reachable (store s) → small (store s') → Forall faithful es → reachable (store s')).
Proof.
  unfold serve. cbn [fst snd]. destruct (rate_limit_middleware instant h limiter) as [[] limiter']; [|by left].
  pose proof (handle_acted identity clock parse_rfc3339 ca h r s) as H.
  destruct (handle identity clock parse_rfc3339 ca h r s) as [reply s']. cbn [fst snd] in *.
  destruct H as [H|(auth & es & Hk & Ho)]; [by left|right]. exists auth, es. split_and!; [done..|].
  intros. by eapply operated_reachable.
Qed.
End properties.

Section witnesses.
#[local] Existing Instance Toy.platform.
#[local] Existing Instance ToyGraph.plain_urls.
#[local] Existing Instance ToyText.unicode.
#[local] Existing Instance every_node.
#[local] Existing Instance plain_corroborating.
#[local] Existing Instance length_provider.

(** A peer whose log declares an actor and gives it an operator's key. *)
Definition admin_key_p : EventPayload :=
  ActorKeyAdd {| ka_actor_id := to_hex writer; ka_key_hash := to_hex (blake3 made_key); ka_permissions := [as_str Admin] |}.
Definition k2 := sign_as alice 2 (Some (id_of e1)) 101 admin_key_p.
#[local] Instance operator_codec : Codec := ToyCodec.codec (concat (signed_of <$> [e1; k2])).
Definition operator_db : db :=
  (commit_local_event alice admin_key_p 101 (commit_local_event alice declare_p 100 empty_db).2).2.

Lemma faithful_operator e : signed_from_slice (ToyCodec.signed_text e) = Ok e → faithful e.
Proof. by intros H t [= <-]. Qed.
Lemma operator_reachable : reachable operator_db.
Proof.
  apply (commit_reachable (P:=Toy.platform) alice _ _ _ (event_of k2) (id_of k2));
    [|vm_compute; reflexivity..|apply faithful_operator; vm_compute; reflexivity].
  apply (commit_reachable (P:=Toy.platform) alice _ _ _ (event_of e1) (id_of e1));
    [apply reachable_empty|vm_compute; reflexivity..|apply faithful_operator; vm_compute; reflexivity].
Qed.
Definition operator_request : service :=
  (serve alice GraphFacts.tick no_times no_caches 0 (Some ("Bearer " +:+ made_key)) (PostSuppress (to_hex writer))
     (RateLimiter_default, Svc operator_db 0)).2.2.

(** The operator hides a node, and the database is still reachable. *)
Lemma rest_attributed_witness :
  bool_decide (is_Some (search_suppressions (ops (store operator_request)) !! writer)) = true ∧ reachable (store operator_request).
Proof.
  split; [vm_compute; reflexivity|].
  destruct (@rest_attributed Toy.platform operator_codec ToyGraph.plain_urls ToyText.unicode every_node plain_corroborating length_provider
    alice GraphFacts.tick no_times no_caches 0 (Some ("Bearer " +:+ made_key)) (PostSuppress (to_hex writer)) RateLimiter_default
    (Svc operator_db 0)) as [Hs|(auth & es & _ & Ho & Hr)]; fold operator_request in *.
  - rewrite Hs. exact operator_reachable.
  - destruct (operated_grows _ _ _ _ _ Ho) as (rows & Hrows & Hl). cbn [store] in *.
    apply (f_equal length) in Hrows. rewrite length_app in Hrows.
    assert (length (events (log (store operator_request))) = 2 ∧ length (events (log operator_db)) = 2) as [H1 H2]
      by (split; vm_compute; reflexivity).
    rewrite H1, H2 in Hrows. destruct es as [|e es]; [|cbn in Hl; lia].
    apply Hr; [exact operator_reachable| |constructor]. unfold small. rewrite H1. reflexivity.
Defined.
End witnesses.
