(* ===== verification/Pages.v ===== *)
(** * Pages for humans

    [oag-api]: [human.rs].  Four pages over the same queries as the REST API,
    authenticated by a [?key=] parameter.  A page is modelled as the view its
    template gets; the text around it and how numbers are printed are the
    templates' ([templates/*.html]). *)

From S2P Require Import Prelude Core Envelope Store Projector EventLog Frame Scenario Chain Replay Service Presence Float32 Trust.
From S2P Require Import Sync Graph Rebuild SyncFacts Catchup Typing Queries GraphFacts Ledger Provenance History Search RateLimit.
From S2P Require Import FloatFacts Float64 Embeddings Corroboration Authority Roadmap Rest.

#[local] Open Scope Z_scope.

(** ** Errors *)

(** [s.replace(c, by)]. *)
Fixpoint replace_char (c : ascii) (by_ : string) (s : string) : string :=
  match s with
  | "" => ""
  | String a s => if decide (a = c) then by_ +:+ replace_char c by_ s else String a (replace_char c by_ s)
  end.
Definition escape_html (s : string) : string :=
  replace_char "034" "&quot;" (replace_char ">" "&gt;" (replace_char "<" "&lt;" (replace_char "&" "&amp;" s))).

(** Escaped text cannot open or close a tag or an attribute. *)
Fixpoint has_char (c : ascii) (s : string) : bool :=
  match s with "" => false | String a s => bool_decide (a = c) || has_char c s end.
Lemma has_char_app c s t : has_char c (s +:+ t) = has_char c s || has_char c t.
Proof. induction s as [|a s IH]; [done|]. rewrite string_app_cons. cbn. by rewrite IH, orb_assoc. Qed.
Lemma has_char_replace c c' by_ s : has_char c by_ = false →
  has_char c (replace_char c' by_ s) = has_char c s && negb (bool_decide (c = c')).
Proof.
  intros Hby. induction s as [|a s IH]; [done|]. cbn. destruct (decide (a = c')) as [->|Ha].
  - rewrite has_char_app, Hby, IH. cbn. repeat case_bool_decide; subst; cbn; rewrite ?andb_false_r; done.
  - cbn. rewrite IH. repeat case_bool_decide; subst; cbn; rewrite ?andb_true_r; try done.
Qed.
Lemma escape_html_inert s c : c ∈ ["<"; ">"; "034"]%char → has_char c (escape_html s) = false.
Proof.
  intros Hc. rewrite !elem_of_cons, elem_of_nil in Hc. unfold escape_html.
  destruct Hc as [->|[->|[->|[]]]]; rewrite !has_char_replace by reflexivity; cbn; by rewrite ?andb_true_r, ?andb_false_r.
Qed.

(** What an error page says: a fixed text, or the text of another error. *)
Inductive PageFault := Says (s : string) | SaysOther (e : GraphError).
Definition HumanError : Type := Z * PageFault.
Definition human_of_graph (e : GraphError) : HumanError :=
  match e with
  | InvalidApiKey => (401, Says "invalid API key")
  | PermissionDenied p => (403, Says ("permission denied: requires " +:+ p))
  | GNotFound what => (404, Says ("not found: " +:+ what))
  | other => (500, SaysOther other)
  end.
(** The body of an error page; [text_of] is the [Display] of the error. *)
Definition error_page (text_of : GraphError → string) (e : HumanError) : Z * string :=
  (e.1, "<p>" +:+ escape_html (match e.2 with Says s => s | SaysOther e => text_of e end) +:+ "</p>").

(** ** Views *)

Definition node_link `{Platform} (id : hash32) (key : string) : string := "/ui/nodes/" +:+ to_hex id +:+ "?key=" +:+ key.
Definition assertion_link `{Platform} (id : hash32) (key : string) : string := "/ui/assertions/" +:+ to_hex id +:+ "?key=" +:+ key.

Record NodeView := { nv_id : string; nv_node_type : string; nv_canonical_identifier : string; nv_name : option string }.
Record RelationshipView := {
  lv_predicate : string; lv_other_node_identifier : string; lv_direction : string; lv_link : string }.
Record EvidenceView := {
  xv_evidence_type : string; xv_uri : option string; xv_title : option string; xv_excerpt : option string;
  xv_content_hash : option string }.
Definition evidence_view (e : Evidence) : EvidenceView :=
  {| xv_evidence_type := as_str (v_type e); xv_uri := v_uri e; xv_title := v_title e; xv_excerpt := v_excerpt e;
     xv_content_hash := v_content_hash e |}.
(** Disputes and retractions: the reason and the time. *)
Definition dispute_view (r : hash32 * dispute_row) : option string * Z := (di_reason r.2, di_created_at r.2).
Definition retraction_view (r : hash32 * retraction_row) : option string * Z := (re_reason r.2, re_created_at r.2).
(** Observations: the result and the time. *)
Definition observation_view (o : Observation) : string * Z := (o_result o, o_observed_at o).
Record AssertionSummaryView := {
  sv_link : string; sv_subject_identifier : string; sv_predicate : string; sv_object_identifier : string;
  sv_status : string; sv_actor_confidence : option Z; sv_evidence : list EvidenceView;
  sv_disputes : list (option string * Z); sv_retractions : list (option string * Z);
  sv_last_observation : option (string * Z) }.
Record SearchResultView := { hv_canonical_identifier : string; hv_name : option string; hv_link : string }.
Record SearchTemplate := {
  st_key : string; st_query : string; st_has_searched : bool; st_results : list SearchResultView }.
(** The scores are shown with two decimals. *)
Record RoadmapProposalView := {
  mv_link : string; mv_canonical_identifier : string; mv_name : option string; mv_description : option string;
  mv_corroboration : EdgeCorroboration }.
Record NodeTemplate := {
  nt_key : string; nt_node : NodeView; nt_aliases : list (string * string);
  nt_relationships : list RelationshipView; nt_assertions : list AssertionSummaryView;
  nt_history : list (hash32 * string * Z) }.
Record SupersessionView := { uv_new_assertion_id : string; uv_created_at : Z; uv_link : string }.
Record AssertionTemplate := {
  at_key : string; at_assertion_id : string; at_subject_link : string; at_subject_identifier : string;
  at_predicate : string; at_object_link : string; at_object_identifier : string;
  at_actor_name : option string; at_actor_type_name : string; at_actor_id : string;
  at_provenance : option EventProvenance; at_evidence : list EvidenceView; at_asserted_at : Z;
  at_observed_at : option Z; at_observations : list (string * Z); at_disputes : list (option string * Z);
  at_retractions : list (option string * Z); at_supersession : option SupersessionView; at_status : string }.

(** [Iterator::max_by_key]: the last of the greatest. *)
Fixpoint max_by_key {A} (key : A → Z) (l : list A) : option A :=
  match l with
  | [] => None
  | x :: l => match max_by_key key l with Some y => if key y <? key x then Some x else Some y | None => Some x end
  end.

Inductive Page :=
  | SearchPage (t : SearchTemplate) | RoadmapPage (key : string) (proposals : list RoadmapProposalView)
  | NodePage (t : NodeTemplate) | AssertionPage (t : AssertionTemplate).
Inductive PageRequest :=
  | UiSearch (key q : option string) | UiRoadmap (key : option string)
  | UiNode (id : string) (key : option string) | UiAssertion (id : string) (key : option string).

Section pages.
Context `{P : Platform} `{C : Codec} `{U : GraphPlatform} `{N : Unicode} `{T : FullText} {K : Corroborating}.
Context (identity : SigningKey) (clock : nat → Z).

Abbreviation page := (ste service HumanError).
(** [?] on a call of the service. *)
Definition paging {A} (m : ste service GraphError A) : page A := λ s,
  let '(r, s') := m s in (map_err human_of_graph r, s').
Definition viewing {A} (m : txg A) : page A := paging (λ s, (fst <$> m (store s), s)).
Definition viewing_tx {A} (m : tx A) : page A := viewing (g_storage m).
Definition page_fail {A} (r : result GraphError A) : page A := of_result (map_err human_of_graph r).

Definition authenticate_query (key : option string) : page () :=
  key ← of_result (ok_or key (401, Says "missing ?key=<api-key>"));
  auth ← paging (authenticate key);
  page_fail (require auth GraphRead).

Definition search_page (key q : option string) : page Page :=
  _ ← authenticate_query key;
  let key := default "" key in
  let query := default "" q in
  let has_searched := negb (bool_decide (trim query = "")) in
  found ← (if has_searched then viewing (search query 50) else mret []);
  mret (SearchPage {| st_key := key; st_query := query; st_has_searched := has_searched;
    st_results := (λ n, {| hv_canonical_identifier := n_canonical_identifier n; hv_name := n_name n;
                           hv_link := node_link (n_id n) key |}) <$> found |}).

Definition roadmap_page (key : option string) : page Page :=
  _ ← authenticate_query key;
  let key := default "" key in
  t ← paging (now clock);
  proposals ← viewing (list_roadmap_proposals t);
  mret (RoadmapPage key ((λ p,
    {| mv_link := node_link (n_id (rp_node p)) key;
       mv_canonical_identifier := n_canonical_identifier (rp_node p); mv_name := n_name (rp_node p);
       mv_description := n_description (rp_node p); mv_corroboration := rp_corroboration p |}) <$> proposals)).

(** The identifier of a node, or the id in hexadecimal of one that is missing. *)
Definition identifier_of (node : hash32) : page string :=
  found ← viewing_tx (nodes_get_by_id node);
  mret (match found with Some n => n_canonical_identifier n | None => to_hex node end).

Fixpoint relationship_views (node : hash32) (key : string) (l : list Edge) : page (list RelationshipView) :=
  match l with
  | [] => mret []
  | edge :: rest =>
      let '(direction, other) :=
        if decide (e_subject edge = node) then ("outgoing", e_object edge) else ("incoming", e_subject edge) in
      identifier ← identifier_of other;
      views ← relationship_views node key rest;
      mret ({| lv_predicate := e_predicate edge; lv_other_node_identifier := identifier;
               lv_direction := direction; lv_link := node_link other key |} :: views)
  end.
Fixpoint assertion_views (key : string) (l : list Assertion) : page (list AssertionSummaryView) :=
  match l with
  | [] => mret []
  | a :: rest =>
      found ← viewing_tx (edges_get_by_id (a_edge_id a));
      match found with
      | None => assertion_views key rest
      | Some edge =>
          subject ← identifier_of (e_subject edge);
          object ← identifier_of (e_object edge);
          evidence ← viewing_tx (assertions_list_evidence (a_id a));
          disputes ← viewing_tx (list_disputes (a_id a));
          retractions ← viewing_tx (list_retractions (a_id a));
          observations ← viewing_tx (list_observations (a_id a));
          views ← assertion_views key rest;
          mret ({| sv_link := assertion_link (a_id a) key; sv_subject_identifier := subject;
                   sv_predicate := e_predicate edge; sv_object_identifier := object;
                   sv_status := as_str (a_status a); sv_actor_confidence := a_actor_confidence a;
                   sv_evidence := evidence_view <$> evidence; sv_disputes := dispute_view <$> disputes;
                   sv_retractions := retraction_view <$> retractions;
                   sv_last_observation := observation_view <$> max_by_key o_observed_at observations |} :: views)
      end
  end.

Definition node_page (id : string) (key : option string) : page Page :=
  _ ← authenticate_query key;
  let key := default "" key in
  node_id ← page_fail (parse_id "node" id);
  found ← viewing_tx (nodes_get_by_id node_id);
  node ← page_fail (ok_or found (GNotFound ("node " +:+ id)));
  aliases ← viewing_tx (nodes_list_aliases node_id);
  touching ← viewing_tx (edges_list_touching node_id);
  relationships ← relationship_views node_id key touching;
  listed ← viewing (list_assertions_for_node node_id);
  assertions ← assertion_views key listed;
  history ← viewing (get_history "node" id);
  mret (NodePage {| nt_key := key;
    nt_node := {| nv_id := to_hex (n_id node); nv_node_type := n_type node;
                  nv_canonical_identifier := n_canonical_identifier node; nv_name := n_name node |};
    nt_aliases := (λ a, (na_text a, as_str (na_type a))) <$> aliases;
    nt_relationships := relationships; nt_assertions := assertions;
    nt_history := (λ h, (he_event_id h, he_event_type h, he_created_at h)) <$> history |}).

(** [Value::get] of an object's member, and [Value::as_str]. *)
Definition value_get (member : string) (v : json) : option json :=
  match v with Object l => snd <$> (snd <$> list_find (λ kv : string * json, kv.1 = member) l) | _ => None end.
Definition value_as_str (v : json) : option string := match v with Str s => Some s | _ => None end.

Definition supersession_view (key : string) (h : HistoryEntry) : option SupersessionView :=
  value ← value_get "new_assertion_id" (he_payload h);
  text ← value_as_str value;
  new ← to_option (Hash32_from_str text);
  Some {| uv_new_assertion_id := text; uv_created_at := he_created_at h; uv_link := assertion_link new key |}.
Definition supersession (key : string) (history : list HistoryEntry) : option SupersessionView :=
  '(_, h) ← list_find (λ h, he_event_type h = "SUPERSEDE_ASSERTION") history; supersession_view key h.

Definition assertion_page (id : string) (key : option string) : page Page :=
  _ ← authenticate_query key;
  let key := default "" key in
  assertion_id ← page_fail (parse_id "assertion" id);
  found ← paging (get_assertion assertion_id);
  assertion ← page_fail (ok_or found (GNotFound ("assertion " +:+ id)));
  found_edge ← viewing_tx (edges_get_by_id (a_edge_id assertion));
  edge ← page_fail (ok_or found_edge (GNotFound ("edge for assertion " +:+ id)));
  subject ← identifier_of (e_subject edge);
  object ← identifier_of (e_object edge);
  actor ← viewing_tx (actors_get_by_id (a_actor_id assertion));
  provenance ← viewing (get_event_provenance identity assertion_id);
  evidence ← viewing_tx (assertions_list_evidence assertion_id);
  observations ← viewing_tx (list_observations assertion_id);
  disputes ← viewing_tx (list_disputes assertion_id);
  retractions ← viewing_tx (list_retractions assertion_id);
  history ← viewing (get_history "assertion" id);
  let '(actor_name, actor_type, actor_id) :=
    match actor with
    | Some a => (t_name a, as_str (t_type a), to_hex (t_id a))
    | None => (None, "unknown", to_hex (a_actor_id assertion))
    end in
  mret (AssertionPage {| at_key := key; at_assertion_id := id;
    at_subject_link := node_link (e_subject edge) key; at_subject_identifier := subject;
    at_predicate := e_predicate edge;
    at_object_link := node_link (e_object edge) key; at_object_identifier := object;
    at_actor_name := actor_name; at_actor_type_name := actor_type; at_actor_id := actor_id;
    at_provenance := provenance; at_evidence := evidence_view <$> evidence; at_asserted_at := a_asserted_at assertion;
    at_observed_at := a_observed_at assertion; at_observations := observation_view <$> observations;
    at_disputes := dispute_view <$> disputes; at_retractions := retraction_view <$> retractions;
    at_supersession := supersession key history; at_status := as_str (a_status assertion) |}).

Definition show (r : PageRequest) : page Page :=
  match r with
  | UiSearch key q => search_page key q
  | UiRoadmap key => roadmap_page key
  | UiNode id key => node_page id key
  | UiAssertion id key => assertion_page id key
  end.
End pages.

(** The key a request gives. *)
Definition key_of (r : PageRequest) : option string :=
  match r with UiSearch key _ | UiRoadmap key | UiNode _ key | UiAssertion _ key => key end.

(** ** What a page takes *)

Section facts.
Context `{P : Platform} `{C : Codec} `{U : GraphPlatform} `{N : Unicode} `{T : FullText} {K : Corroborating}.
Context (identity : SigningKey) (clock : nat → Z).

Lemma steps_paging {A} (m : ste service GraphError A) : steps same_store m → steps same_store (paging m).
Proof. intros Hm s. specialize (Hm s). unfold paging. by destruct (m s). Qed.
Lemma steps_viewing {A} (m : txg A) : steps same_store (viewing m).
Proof. done. Qed.
Lemma steps_viewing_tx {A} (m : tx A) : steps same_store (viewing_tx m).
Proof. done. Qed.
Lemma steps_page_fail {A} (r : result GraphError A) : steps same_store (page_fail r).
Proof. done. Qed.
#[local] Hint Resolve steps_paging steps_viewing steps_viewing_tx steps_page_fail steps_authenticate : steps.
#[local] Hint Extern 2 (PreOrder _) => apply _ : steps.
Ltac steps_tac := repeat first [apply steps_bind; [apply _| |intros] | case_match | solve [auto with steps]].

Lemma steps_authenticate_query key : steps same_store (authenticate_query key).
Proof. unfold authenticate_query. steps_tac. Qed.
Lemma steps_identifier_of node : steps same_store (identifier_of node).
Proof. unfold identifier_of. steps_tac. Qed.
#[local] Hint Resolve steps_authenticate_query steps_identifier_of : steps.
Lemma steps_relationship_views node key l : steps same_store (relationship_views node key l).
Proof. induction l; cbn [relationship_views]; steps_tac. Qed.
Lemma steps_assertion_views key l : steps same_store (assertion_views key l).
Proof. induction l; cbn [assertion_views]; steps_tac. Qed.
#[local] Hint Resolve steps_relationship_views steps_assertion_views : steps.
Lemma steps_show r : steps same_store (show identity clock r).
Proof. destruct r; cbn [show]; unfold search_page, roadmap_page, node_page, assertion_page; steps_tac; done. Qed.

(** The key is active and may read. *)
Definition may_read (d : db) (key : option string) : Prop :=
  ∃ raw auth, key = Some raw ∧ active_key d (Some ("Bearer " +:+ raw)) auth ∧
    (GraphRead ∈ auth_permissions auth ∨ Admin ∈ auth_permissions auth).

Lemma authenticate_query_cases key s :
  (may_read (store s) key ∧ authenticate_query key s = (Ok (), s)) ∨
  (¬ may_read (store s) key ∧ ∃ e, authenticate_query key s = (Err e, s) ∧
     (key = None → e = (401, Says "missing ?key=<api-key>")) ∧
     (typed (proj (store s)) → e.1 = 401 ∨ e.1 = 403)).
Proof.
  unfold authenticate_query. destruct key as [raw|]; [|right].
  2: { split; [by intros (? & ? & [=] & _)|]. eexists. split; [reflexivity|by auto]. }
  cbn [ok_or]. cbv [mbind ste_bind of_result]. unfold paging, authenticate, query. cbv [mbind ste_bind].
  pose proof (key_read_ok (store s) (blake3 raw)) as Hok.
  destruct (actors_find_active_key (blake3 raw) (store s)) as [[[k|] d]|e] eqn:Hk; cbn.
  - set (auth := {| auth_actor_id := ak_actor_id k; auth_permissions := ak_permissions k |}).
    assert (active_key (store s) (Some ("Bearer " +:+ raw)) auth) as Hact by (by exists raw, k, d).
    unfold page_fail. destruct (require auth GraphRead) as [[]|e] eqn:Hreq.
    + left. split; [|done]. exists raw, auth. split_and!; [done|done|by apply require_ok].
    + right. unfold require in Hreq. repeat case_bool_decide; try done. injection Hreq as <-.
      split; [|eexists; split; [reflexivity|split; [done|by right]]].
      intros (raw' & auth' & [= <-] & (raw'' & k' & d' & Hh & Hk' & ->) & Hperm).
      apply (inj Some), string_app_inj_r in Hh as <-. rewrite Hk in Hk'. injection Hk' as <- _.
      cbn in Hperm. tauto.
  - right. split; [|eexists; split; [reflexivity|split; [done|by left]]].
    intros (raw' & auth' & [= <-] & (raw'' & k' & d' & Hh & Hk' & _) & _).
    apply (inj Some), string_app_inj_r in Hh as <-. by rewrite Hk in Hk'.
  - right. split; [|eexists; split; [reflexivity|split; [done|intros Ht; by specialize (Hok Ht)]]].
    intros (raw' & auth' & [= <-] & (raw'' & k' & d' & Hh & Hk' & _) & _).
    apply (inj Some), string_app_inj_r in Hh as <-. by rewrite Hk in Hk'.
Qed.

(** The four pages are only for readers, write nothing, and name what is wrong
    with the key; an id that does not parse is answered 500, where the REST
    API answers 400. *)
Lemma pages_guarded r s :
  let '(answer, s') := show identity clock r s in
  store s' = store s ∧
  (may_read (store s) (key_of r) ∨
   s' = s ∧ ∃ e, answer = Err e ∧
     (key_of r = None → e = (401, Says "missing ?key=<api-key>")) ∧
     (typed (proj (store s)) → e.1 = 401 ∨ e.1 = 403)).
Proof.
  pose proof (steps_show r s) as Hs. destruct (show identity clock r s) as [answer s'] eqn:Hrun.
  split; [exact Hs|].
  destruct (authenticate_query_cases (key_of r) s) as [[Hm _]|[_ (e & He & Hnone & Ht)]]; [by left|right].
  assert (show identity clock r s = (Err e, s)) as Herr.
  { destruct r; cbn [show key_of] in *; unfold search_page, roadmap_page, node_page, assertion_page;
      by apply ste_bind_fail. }
  rewrite Hrun in Herr. injection Herr as -> ->. split; [done|]. by exists e.
Qed.
Lemma malformed_id_page id key s : may_read (store s) key → is_ok (Hash32_from_str id) = false →
  (show identity clock (UiNode id key) s).1 =
    Err (500, SaysOther (InvalidInput ("invalid node id '" +:+ id +:+ "'"))).
Proof.
  intros Hm Hid. destruct (authenticate_query_cases key s) as [[_ Ha]|[Hno _]]; [|done].
  cbn [show]. unfold node_page. rewrite (ste_bind_run _ _ _ _ _ Ha). unfold parse_id.
  by destruct (Hash32_from_str id).
Qed.
End facts.

(** ** The supersession notice *)

(** What the code relies on: a text that reads as the event of a supersession
    is an object with the field [new_assertion_id]. *)
Class SupersessionJson `(C : Codec) : Prop :=
  supersession_json t e v q : signed_from_slice t = Ok e → json_from_str t = Ok v →
    payload (unsigned e) = SupersedeAssertion q → value_get "new_assertion_id" v = Some (Str (sa_new_assertion_id q)).

Section notice.
Context `{P : Platform} `{L : !PlatformLaws P} `{C : Codec} `{U : GraphPlatform} `{N : Unicode} `{T : FullText}.
Context {K : Corroborating}.

(** A stored event that replaces [old] by [new]. *)
Definition supersedes (row : event_row) (old new : hash32) (q : SupersedeAssertionPayload) (t : Z) : Prop :=
  ∃ signed, signed_from_slice (er_canonical_payload row) = Ok signed ∧
    payload (unsigned signed) = SupersedeAssertion q ∧ t = created_at (unsigned signed) ∧
    parsed (sa_old_assertion_id q) = Some old ∧ parsed (sa_new_assertion_id q) = Some new.

Lemma replay_projected rows : ∀ d d', replay rows d = Some d' → ∀ row, row ∈ rows →
  ∃ p d1 out d2, entry_of row = Some (er_event_id row, er_created_at row, p) ∧
    project (er_event_id row) (er_created_at row) p d1 = Ok (out, d2).
Proof.
  induction rows as [|e rows IH]; intros d d' H row Hrow; [by apply not_elem_of_nil in Hrow|]. cbn in H.
  destruct (replay_row e _) as [[[] d1]|] eqn:He; [|done]. apply elem_of_cons in Hrow as [->|Hrow].
  - apply replay_row_entry in He as (p & out & He & Hp). by exists p, (append_event e d), out, d1.
  - by eapply IH.
Qed.
Lemma superseding d row signed q : reachable d → row ∈ events (log d) →
  signed_from_slice (er_canonical_payload row) = Ok signed → payload (unsigned signed) = SupersedeAssertion q →
  ∃ old new, supersedes row old new q (created_at (unsigned signed)).
Proof.
  intros (_ & d0 & Hrep & _)%reachable_inv Hrow Hs Hq.
  destruct (replay_projected _ _ _ Hrep row Hrow) as (p & d1 & out & d2 & He & Hp).
  unfold entry_of in He. rewrite Hs, Hq in He. injection He as <-. cbn [project] in Hp.
  apply stm_bind_ok in Hp as (u & d3 & Hp & _). unfold project_supersede_assertion in Hp.
  apply stm_bind_ok in Hp as (old & d4 & Ho & Hp). apply stm_bind_ok in Hp as (new & d5 & Hn & _).
  unfold lift in Ho, Hn. destruct (Projector.parse_id _) as [old'|] eqn:Hold; [|done].
  destruct (Projector.parse_id (sa_new_assertion_id q)) as [new'|] eqn:Hnew; [|done].
  apply parsed_ok in Hold, Hnew. by exists old', new', signed.
Qed.

Lemma supersedes_type row old new q t signed : supersedes row old new q t →
  signed_from_slice (er_canonical_payload row) = Ok signed →
  type_str (payload (unsigned signed)) = "SUPERSEDE_ASSERTION".
Proof. intros (signed' & Hs & Hq & _) Hs'. rewrite Hs in Hs'. injection Hs' as <-. by rewrite Hq. Qed.
Lemma supersedes_concerns row old new q t a : supersedes row old new q t → old = a ∨ new = a →
  History.listed "assertion" a row.
Proof.
  intros (signed & Hs & Hq & _ & Ho & Hn) Ha. exists signed. split; [done|]. rewrite Hq. cbn. rewrite Ho, Hn.
  rewrite elem_of_app, !list_elem_of_singleton. naive_solver.
Qed.
Lemma concerns_supersedes row old new q t a : supersedes row old new q t →
  History.listed "assertion" a row → old = a ∨ new = a.
Proof.
  intros (signed & Hs & Hq & _ & Ho & Hn) (signed' & Hs' & Hin). rewrite Hs in Hs'. injection Hs' as <-.
  rewrite Hq in Hin. cbn in Hin. rewrite Ho, Hn, elem_of_app, !list_elem_of_singleton in Hin. naive_solver.
Qed.
(** What the page makes of the entry of a superseding event. *)
Lemma shown_supersession `{!SupersessionJson C} d row h key : reachable d → row ∈ events (log d) →
  shows row h → he_event_type h = "SUPERSEDE_ASSERTION" →
  ∃ old new q t, supersedes row old new q t ∧ supersession_view key h =
    Some {| uv_new_assertion_id := sa_new_assertion_id q; uv_created_at := t; uv_link := assertion_link new key |}.
Proof.
  intros Hd Hrow (signed & text & Hs & Hcan & _ & Hty & Ht & Hj) Hsup. rewrite Hty in Hsup.
  destruct (payload (unsigned signed)) as [| | | | |q| | | |] eqn:Hq; try discriminate Hsup.
  destruct (superseding d row signed q Hd Hrow Hs Hq) as (old & new & Hrep).
  exists old, new, q, (created_at (unsigned signed)). split; [done|].
  destruct Hrep as (signed' & Hs' & _ & _ & _ & Hn).
  destruct (reachable_verifiable d Hd row Hrow) as (signed2 & key2 & Hs2 & (_ & Hcan2 & _) & _).
  assert (signed2 = signed) as -> by congruence. rewrite Hcan in Hcan2. injection Hcan2 as ->.
  unfold supersession_view. rewrite (supersession_json _ _ _ q Hs Hj Hq). cbn. unfold parsed in Hn.
  rewrite Hn. cbn. by rewrite Ht.
Qed.
End notice.

Lemma sorted_lookup {A} (R : A → A → Prop) l : StronglySorted R l → ∀ i j x y,
  l !! i = Some x → l !! j = Some y → (i < j)%nat → R x y.
Proof.
  induction 1 as [|z l _ IH Hz]; intros i j x y Hi Hj Hij; [done|].
  destruct j as [|j]; [lia|]. destruct i as [|i].
  - injection Hi as ->. eapply Forall_forall in Hz; [done|]. by eapply list_elem_of_lookup_2.
  - eapply IH; [exact Hi|exact Hj|lia].
Qed.

(** ** Properties *)

Section properties.
Context `{P : Platform} `{L : !PlatformLaws P} `{C : Codec} `{U : GraphPlatform} `{N : Unicode} `{T : FullText}.
Context {K : Corroborating} `{!CanonicalJson C} `{!SupersessionJson C}.

(** C28: The notice on an assertion's page: on a reachable database the history
    the page reads is always there; the page shows a notice exactly when some
    stored event replaces the assertion or replaces another by it; and then
    it is the first of these, by author and sequence, and names the assertion
    that took over.  So the page of an assertion whose only such event made it
    the replacement of another says that it was superseded - by itself. *)
Theorem supersession_notice d a key : reachable d →
  ∃ history, get_history "assertion" (to_hex a) d = Ok (history, d) ∧
  match supersession key history with
  | None => ∀ row old new q t, row ∈ events (log d) → supersedes row old new q t → old ≠ a ∧ new ≠ a
  | Some notice => ∃ row old new q t, row ∈ events (log d) ∧ supersedes row old new q t ∧ (old = a ∨ new = a) ∧
      notice = {| uv_new_assertion_id := sa_new_assertion_id q; uv_created_at := t;
                  uv_link := assertion_link new key |} ∧
      ∀ row' old' new' q' t', row' ∈ events (log d) → supersedes row' old' new' q' t' → old' = a ∨ new' = a →
        row' = row ∨ by_origin_sequence row row'
  end.
Proof.
  intros Hd. destruct (history_run d "assertion" a Hd) as (rows & hs & Hget & Hall & Hin & _ & Hsort).
  { apply (bool_decide_unpack _). exact I. }
  exists hs. split; [exact Hget|]. unfold supersession.
  assert (∀ row' old' new' q' t', row' ∈ events (log d) → supersedes row' old' new' q' t' → old' = a ∨ new' = a →
    ∃ j h', rows !! j = Some row' ∧ hs !! j = Some h' ∧ he_event_type h' = "SUPERSEDE_ASSERTION") as Hlisted.
  { intros row' old' new' q' t' Hrow' Hsup' Ha'.
    assert (row' ∈ rows) as [j Hj]%list_elem_of_lookup by (apply Hin; eauto using supersedes_concerns).
    destruct (Forall2_lookup_l _ _ _ _ _ Hall Hj) as (h' & Hh' & Hshow').
    exists j, h'. split_and!; [done|done|]. destruct Hshow' as (signed & text & Hs & _ & _ & Hty & _).
    rewrite Hty. by eapply supersedes_type. }
  destruct (list_find _ hs) as [[i h]|] eqn:Hfind; cbn.
  - apply list_find_Some in Hfind as (Hh & Hty & Hfirst).
    destruct (Forall2_lookup_r _ _ _ _ _ Hall Hh) as (row & Hrow & Hshow).
    assert (row ∈ events (log d) ∧ History.listed "assertion" a row) as [Hev Hcon]
      by (apply Hin; by eapply list_elem_of_lookup_2).
    destruct (shown_supersession d row h key Hd Hev Hshow Hty) as (old & new & q & t & Hsup & ->).
    exists row, old, new, q, t. split_and!; [done|done|by eapply concerns_supersedes|done|].
    intros row' old' new' q' t' Hrow' Hsup' Ha'.
    destruct (Hlisted _ _ _ _ _ Hrow' Hsup' Ha') as (j & h' & Hj & Hh' & Hty').
    destruct (decide (j < i)%nat) as [Hlt|]; [by destruct (Hfirst j h' Hh' Hlt)|].
    destruct (decide (j = i)) as [->|]; [left; congruence|right]. by eapply (sorted_lookup _ _ Hsort i j); [..|lia].
  - apply list_find_None in Hfind. intros row old new q t Hrow Hsup.
    assert (¬ (old = a ∨ new = a)) as Hno; [|tauto]. intros Ha.
    destruct (Hlisted _ _ _ _ _ Hrow Hsup Ha) as (j & h & _ & Hh & Hty).
    eapply Forall_forall in Hfind; [by apply Hfind|by eapply list_elem_of_lookup_2].
Qed.
End properties.

(** ** Witnesses *)

(** The toy codec, but the event of a supersession reads as an object. *)
Definition codec_of (table : list SignedEvent) : Codec :=
  let c := ToyCodec.codec table in
  {| canonical_unsigned := @canonical_unsigned c; canonical_signed := @canonical_signed c;
     signed_from_slice := @signed_from_slice c; signed_to_string := @signed_to_string c;
     json_to_string := @json_to_string c;
     json_from_str t :=
       match @signed_from_slice c t with
       | Ok {| unsigned := {| payload := SupersedeAssertion q |} |} =>
           Ok (Object [("new_assertion_id", Str (sa_new_assertion_id q))])
       | _ => @json_from_str c t
       end;
     strings_to_string := @strings_to_string c; strings_from_str := @strings_from_str c |}.
#[export] Instance codec_of_json table : CanonicalJson (codec_of table).
Proof.
  intros e t _. cbn. destruct (ok_or _ _) as [[[? ? ? ? ? []] ?]|]; try reflexivity; by case_decide.
Qed.
#[export] Instance codec_of_supersession table : SupersessionJson (codec_of table).
Proof.
  intros t [[v o s pr c p] sg] j q Hs Hj Hq. cbn in Hs, Hj, Hq. rewrite Hs in Hj. subst p. by injection Hj as <-.
Qed.

Section witnesses.
#[local] Existing Instance Toy.platform.
#[local] Existing Instance ToyGraph.plain_urls.

(** Alice asserts, asserts again, and replaces the first by the second. *)
Definition second := sign_as alice 3 (Some (id_of e2)) 102 (assert_p writer "contradicts").
Definition replaced_q : SupersedeAssertionPayload :=
  {| sa_old_assertion_id := to_hex (id_of e2); sa_new_assertion_id := to_hex (id_of second); sa_actor_id := to_hex writer |}.
Definition replace_p : EventPayload := SupersedeAssertion replaced_q.
Definition replacing := sign_as alice 4 (Some (id_of second)) 103 replace_p.
Definition table : list SignedEvent := concat (signed_of <$> [e1; e2; second; replacing]).
#[local] Instance page_codec : Codec := codec_of table.
Definition replaced_db : db :=
  (commit_local_event alice replace_p 103
    (commit_local_event alice (assert_p writer "contradicts") 102
      (commit_local_event alice (assert_p writer "implements") 101
        (commit_local_event alice declare_p 100 empty_db).2).2).2).2.

Lemma faithful_page e : signed_from_slice (ToyCodec.signed_text e) = Ok e → faithful e.
Proof. by intros H t [= <-]. Qed.
Ltac one_commit e :=
  apply (commit_reachable (P:=Toy.platform) alice _ _ _ (event_of e) (id_of e));
    [|vm_compute; reflexivity..|apply faithful_page; vm_compute; reflexivity].
Lemma replaced_reachable : reachable replaced_db.
Proof. one_commit replacing. one_commit second. one_commit e2. one_commit e1. apply reachable_empty. Qed.

Lemma replaced_events : (λ row, signed_from_slice (er_canonical_payload row)) <$> events (log replaced_db) =
  Ok ∘ event_of <$> [e1; e2; second; replacing].
Proof. vm_compute. reflexivity. Qed.
(** The one event that replaces anything. *)
Lemma replaced_once row old new q t : row ∈ events (log replaced_db) → supersedes row old new q t →
  q = replaced_q.
Proof.
  intros Hrow (signed & Hs & Hq & _).
  assert (signed_from_slice (er_canonical_payload row) ∈
    (λ row, signed_from_slice (er_canonical_payload row)) <$> events (log replaced_db)) as Hin
    by (by apply (list_elem_of_fmap_2 (λ row, signed_from_slice (er_canonical_payload row)))).
  rewrite replaced_events, Hs in Hin. apply list_elem_of_fmap in Hin as (e & He & Hin).
  apply (inj Ok) in He. subst signed. rewrite !elem_of_cons, elem_of_nil in Hin.
  destruct Hin as [->|[->|[->|[->|[]]]]]; try (vm_compute in Hq; discriminate Hq).
  assert (payload (unsigned (event_of replacing)) = SupersedeAssertion replaced_q) as Hp by (vm_compute; reflexivity).
  rewrite Hp in Hq. by apply (f_equal (λ p, match p with SupersedeAssertion q => q | _ => replaced_q end)) in Hq.
Qed.
Lemma replaced_row : ∃ row t, row ∈ events (log replaced_db) ∧ supersedes row (id_of e2) (id_of second) replaced_q t.
Proof.
  pose proof (f_equal (.!! 3%nat) replaced_events) as H. rewrite list_lookup_fmap in H.
  destruct (events (log replaced_db) !! 3%nat) as [row|] eqn:Hrow; [|discriminate H].
  apply (inj Some) in H. change (signed_from_slice (er_canonical_payload row) = Ok (event_of replacing)) in H.
  exists row, (created_at (unsigned (event_of replacing))). split; [by eapply list_elem_of_lookup_2|].
  exists (event_of replacing). split_and!; [exact H|vm_compute; reflexivity|reflexivity|..];
    unfold parsed, replaced_q; cbn [sa_old_assertion_id sa_new_assertion_id]; by rewrite (@Hash32_from_str_hex Toy.platform Toy.laws).
Qed.

(** The second assertion stands, and its page says that it was superseded by
    itself. *)
Lemma supersession_notice_witness :
  as_status <$> assertions (proj replaced_db) !! id_of second = Some "active" ∧
  ∃ history notice, get_history "assertion" (to_hex (id_of second)) replaced_db = Ok (history, replaced_db) ∧
    supersession "k" history = Some notice ∧ uv_new_assertion_id notice = to_hex (id_of second).
Proof.
  split; [vm_compute; reflexivity|].
  destruct (@supersession_notice Toy.platform Toy.laws page_codec _ (codec_of_json _) (codec_of_supersession _) replaced_db
    (id_of second) "k" replaced_reachable) as (history & Hget & Hnotice).
  exists history. destruct (supersession "k" history) as [notice|] eqn:Hs.
  - destruct Hnotice as (row & old & new & q & t & Hrow & Hsup & _ & -> & _).
    exists {| uv_new_assertion_id := sa_new_assertion_id q; uv_created_at := t; uv_link := assertion_link new "k" |}.
    split_and!; [exact Hget|reflexivity|]. cbn [uv_new_assertion_id].
    by rewrite (replaced_once _ _ _ _ _ Hrow Hsup).
  - exfalso. destruct replaced_row as (row & t & Hrow & Hsup).
    by destruct (Hnotice row (id_of e2) (id_of second) replaced_q t Hrow Hsup) as [_ []].
Defined.
End witnesses.
