(* ===== verification/Mcp.v ===== *)
(** * The MCP server

    [oag-mcp]: [server.rs], [params.rs].  One constructor of [Tool] and one
    definition per tool that needs no more than the graph - all but
    [graph_crawl], which needs the crawler: it is in [CrawlApi], with the
    dispatch of all tools.  A call arrives on a session that [rmcp] has set up,
    with the headers of the HTTP request that carries it.  Every tool is
    compared with the REST route that the documentation calls its
    equivalent. *)

From S2P Require Import Prelude Sorting Core Envelope Store Projector EventLog Frame Scenario Chain Replay Service Graph Rebuild Typing Queries GraphFacts Provenance Search RateLimit Bytes FloatFacts Float32 FloatBits Embeddings Corroboration Authority Roadmap Rest.

#[local] Open Scope Z_scope.

(** ** [params.rs] *)

Record EvidenceParam := {
  mp_evidence_type : option string; mp_uri : option string; mp_title : option string;
  mp_excerpt : option string; mp_content_hash : option string; mp_pinned_cid : option string }.
Record AssertParams := {
  mp_subject : string; mp_subject_type : option string; mp_predicate : string; mp_object : string;
  mp_object_type : option string; mp_evidence : list EvidenceParam; mp_confidence : option Z }.

(** The parameters of the tools over the graph. *)
Inductive Tool :=
  | GraphSearch (query : string) (limit : option Z) (semantic : option bool)
  | GraphResolve (value : string)
  | GraphGetNode (node_id : string)
  | GraphGetActor (actor_id : string)
  | GraphGetEdges (node_id : string)
  | GraphGetEdge (edge_id : string)
  | GraphGetCorroboration (edge_id : string)
  | GraphListRoadmapProposals
  | GraphGetSubgraph (node_id : string) (depth max_nodes : option nat)
  | GraphFindSources (node_id : string)
  | GraphGetAssertion (assertion_id : string)
  | GraphGetNodeAssertions (node_id : string)
  | GraphAssertTool (p : AssertParams)
  | GraphAddEvidence (assertion_id : string) (evidence : EvidenceParam)
  | GraphVerifyAssertion (assertion_id result : string)
  | GraphDisputeAssertion (assertion_id : string) (reason : option string)
  | GraphRetractAssertion (assertion_id : string) (reason : option string)
  | GraphSupersedeAssertion (old_assertion_id new_assertion_id : string)
  | GraphGetHistory (object_type id : string)
  | GraphRedactEvidence (evidence_id : string) (reason : option string)
  | GraphListRedactions
  | GraphRedactActorIdentityUri (actor_id : string) (reason : option string)
  | GraphSuppressNode (node_id : string)
  | GraphUnsuppressNode (node_id : string).

(** What a tool answers.  Most answer what the REST route does; a lookup of a
    node, an actor or an edge may answer null. *)
Inductive McpReply :=
  | McReply (r : Reply)
  | McNode (n : option Node) (aliases : list NodeAliasT) (authority : option f32)
  | McActor (a : option Actor)
  | McEdge (e : option Edge).

(** [ErrorData]; the text of an internal error is that of the error. *)
Inductive McpError :=
  | InvalidParams (message : string)
  | InternalError (e : SemanticError).

Definition mcp_map_err (e : SemanticError) : McpError :=
  match e with
  | OfGraph InvalidApiKey => InvalidParams "invalid API key"
  | OfGraph (PermissionDenied p) => InvalidParams ("permission denied: requires " +:+ p)
  | OfGraph (GNotFound what) => InvalidParams ("not found: " +:+ what)
  | OfGraph (InvalidInput msg) => InvalidParams msg
  | Embedding EmbeddingDisabled => InvalidParams "embeddings are disabled"
  | other => InternalError other
  end.

Definition evidence_param_input (p : EvidenceParam) : EvidenceInput :=
  {| in_evidence_type := mp_evidence_type p; in_uri := mp_uri p; in_title := mp_title p;
     in_excerpt := mp_excerpt p; in_content_hash := mp_content_hash p; in_observed_at := None;
     in_retrieved_at := None; in_pinned_cid := mp_pinned_cid p; in_metadata := None |}.

(** ** [server.rs] *)

Section mcp.
Context `{P : Platform} `{C : Codec} `{U : GraphPlatform} `{N : Unicode} `{T : FullText}.
Context {K : Corroborating} `{V : EmbeddingProvider}.
Context (identity : SigningKey) (clock : nat → Z).

Abbreviation mcp := (ste service McpError).
(** A call of the service, [.map_err(map_err)?]. *)
Definition asking {A} (m : ste service GraphError A) : mcp A := λ s,
  let '(r, s') := m s in (map_err (λ e, mcp_map_err (OfGraph e)) r, s').
Definition looking {A} (m : txg A) : mcp A := asking (λ s, (fst <$> m (store s), s)).
Definition looking_tx {A} (m : tx A) : mcp A := looking (g_storage m).
Definition parsing (what s : string) : mcp hash32 :=
  of_result (map_err (λ _, InvalidParams ("invalid " +:+ what)) (Hash32_from_str s)).

Definition extract_bearer (authorization : option string) : result McpError string :=
  ok_or (authorization ≫= strip_prefix "Bearer ") (InvalidParams "missing 'Authorization: Bearer <key>' header").
Definition mcp_authenticate (h : option string) : mcp AuthContext :=
  raw ← of_result (extract_bearer h);
  asking (authenticate raw).
Definition mcp_authenticate_read (h : option string) : mcp AuthContext :=
  auth ← mcp_authenticate h;
  _ ← asking (of_result (require auth GraphRead));
  mret auth.

Definition graph_search (ca : Caches) (h : option string) (q : string) (limit : option Z) (semantic : option bool) : mcp McpReply :=
  _ ← mcp_authenticate_read h;
  if default false semantic then
    s ← observe id;
    ranked ← of_result (map_err mcp_map_err (semantic_search q (default 20 limit) (store s) (ca_embeddings ca)));
    mret (McReply (ReRanked ranked))
  else found ← looking (search q (default 20 limit)); mret (McReply (ReNodes found)).
Definition graph_resolve (h : option string) (value : string) : mcp McpReply :=
  _ ← mcp_authenticate_read h;
  outcome ← looking (resolve value);
  mret (McReply (ReResolved outcome)).
Definition graph_get_node (ca : Caches) (h : option string) (id : string) : mcp McpReply :=
  _ ← mcp_authenticate_read h;
  node_id ← parsing "node_id" id;
  node ← looking_tx (nodes_get_by_id node_id);
  aliases ← looking_tx (nodes_list_aliases node_id);
  mret (McNode node aliases (authority_get node_id (ca_authority ca))).
Definition graph_get_actor (h : option string) (id : string) : mcp McpReply :=
  _ ← mcp_authenticate_read h;
  actor_id ← parsing "actor_id" id;
  actor ← looking_tx (actors_get_by_id actor_id);
  mret (McActor actor).
Definition graph_get_edges (h : option string) (id : string) : mcp McpReply :=
  _ ← mcp_authenticate_read h;
  node_id ← parsing "node_id" id;
  found ← looking_tx (edges_list_touching node_id);
  mret (McReply (ReEdges found)).
Definition graph_get_edge (h : option string) (id : string) : mcp McpReply :=
  _ ← mcp_authenticate_read h;
  edge_id ← parsing "edge_id" id;
  edge ← looking_tx (edges_get_by_id edge_id);
  mret (McEdge edge).
Definition graph_get_corroboration (h : option string) (id : string) : mcp McpReply :=
  _ ← mcp_authenticate_read h;
  edge_id ← parsing "edge_id" id;
  t ← asking (now clock);
  corroboration ← looking (get_edge_corroboration t edge_id);
  mret (McReply (ReCorroboration corroboration)).
Definition graph_list_roadmap_proposals (h : option string) : mcp McpReply :=
  _ ← mcp_authenticate_read h;
  t ← asking (now clock);
  proposals ← looking (list_roadmap_proposals t);
  mret (McReply (ReProposals proposals)).
Definition graph_get_subgraph (h : option string) (node : string) (depth max_nodes : option nat) : mcp McpReply :=
  _ ← mcp_authenticate_read h;
  node_id ← parsing "node_id" node;
  sg ← looking (get_subgraph node_id (default 1%nat depth) (default 200%nat max_nodes));
  mret (McReply (ReSubgraph sg)).
Definition graph_find_sources (h : option string) (id : string) : mcp McpReply :=
  _ ← mcp_authenticate_read h;
  node_id ← parsing "node_id" id;
  sources ← looking (find_sources node_id);
  mret (McReply (ReEvidence sources)).
Definition graph_get_assertion (h : option string) (id : string) : mcp McpReply :=
  _ ← mcp_authenticate_read h;
  assertion_id ← parsing "assertion_id" id;
  found ← asking (get_assertion assertion_id);
  assertion ← of_result (ok_or found (InvalidParams ("not found: assertion " +:+ id)));
  evidence ← looking_tx (assertions_list_evidence assertion_id);
  observations ← looking_tx (list_observations assertion_id);
  disputes ← looking_tx (list_disputes assertion_id);
  retractions ← looking_tx (list_retractions assertion_id);
  mret (McReply (ReAssertion assertion evidence observations disputes retractions)).
Definition graph_get_node_assertions (h : option string) (id : string) : mcp McpReply :=
  _ ← mcp_authenticate_read h;
  node_id ← parsing "node_id" id;
  found ← looking (list_assertions_for_node node_id);
  mret (McReply (ReAssertions found)).

Definition graph_assert (h : option string) (p : AssertParams) : mcp McpReply :=
  auth ← mcp_authenticate h;
  let input := {|
    in_subject := mp_subject p; in_subject_type := mp_subject_type p; in_predicate := mp_predicate p;
    in_object := mp_object p; in_object_type := mp_object_type p;
    in_evidence := evidence_param_input <$> mp_evidence p; in_actor_confidence := mp_confidence p;
    in_asserted_observed_at := None; in_extraction_method := None |} in
  assertion_id ← asking (assert_ identity clock auth input);
  mret (McReply (ReCreated (to_hex assertion_id))).
Definition graph_add_evidence (h : option string) (id : string) (evidence : EvidenceParam) : mcp McpReply :=
  auth ← mcp_authenticate h;
  assertion_id ← parsing "assertion_id" id;
  _ ← asking (add_evidence identity clock auth assertion_id (evidence_param_input evidence));
  mret (McReply ReAccepted).
Definition graph_verify_assertion (h : option string) (id result : string) : mcp McpReply :=
  auth ← mcp_authenticate h;
  assertion_id ← parsing "assertion_id" id;
  observed_at ← asking (now clock);
  result ← of_result (ok_or (VerifyResult_parse result) (InvalidParams
    "unknown verify result, expected one of confirmed/not_confirmed/changed/contradicted/unreachable/unknown"));
  _ ← asking (verify_assertion identity clock auth assertion_id result observed_at);
  mret (McReply ReAccepted).
Definition graph_dispute_assertion (h : option string) (id : string) (reason : option string) : mcp McpReply :=
  auth ← mcp_authenticate h;
  assertion_id ← parsing "assertion_id" id;
  _ ← asking (dispute_assertion identity clock auth assertion_id reason);
  mret (McReply ReAccepted).
Definition graph_retract_assertion (h : option string) (id : string) (reason : option string) : mcp McpReply :=
  auth ← mcp_authenticate h;
  assertion_id ← parsing "assertion_id" id;
  _ ← asking (retract_assertion identity clock auth assertion_id reason);
  mret (McReply ReAccepted).
Definition graph_supersede_assertion (h : option string) (old new : string) : mcp McpReply :=
  auth ← mcp_authenticate h;
  old_assertion_id ← parsing "old_assertion_id" old;
  new_assertion_id ← parsing "new_assertion_id" new;
  _ ← asking (supersede_assertion identity clock auth old_assertion_id new_assertion_id);
  mret (McReply ReAccepted).
Definition graph_get_history (h : option string) (object_type id : string) : mcp McpReply :=
  _ ← mcp_authenticate_read h;
  entries ← looking (get_history object_type id);
  mret (McReply (ReHistory entries)).
Definition graph_redact_evidence (h : option string) (id : string) (reason : option string) : mcp McpReply :=
  auth ← mcp_authenticate h;
  evidence_id ← parsing "evidence_id" id;
  _ ← asking (redact_evidence clock auth evidence_id reason);
  mret (McReply ReAccepted).
Definition graph_list_redactions (h : option string) : mcp McpReply :=
  auth ← mcp_authenticate h;
  evidence ← looking (list_redactions auth);
  nodes ← looking (list_suppressed_nodes auth);
  actors ← looking (list_actor_redactions auth);
  mret (McReply (ReRedactions evidence actors nodes)).
Definition graph_redact_actor_identity_uri (h : option string) (id : string) (reason : option string) : mcp McpReply :=
  auth ← mcp_authenticate h;
  actor_id ← parsing "actor_id" id;
  _ ← asking (redact_actor_identity_uri clock auth actor_id reason);
  mret (McReply ReAccepted).
Definition graph_suppress_node (h : option string) (id : string) : mcp McpReply :=
  auth ← mcp_authenticate h;
  node_id ← parsing "node_id" id;
  _ ← asking (suppress_node_from_search clock auth node_id);
  mret (McReply ReAccepted).
Definition graph_unsuppress_node (h : option string) (id : string) : mcp McpReply :=
  auth ← mcp_authenticate h;
  node_id ← parsing "node_id" id;
  _ ← asking (unsuppress_node_from_search auth node_id);
  mret (McReply ReAccepted).

Definition call_tool (ca : Caches) (h : option string) (t : Tool) : mcp McpReply :=
  match t with
  | GraphSearch q limit semantic => graph_search ca h q limit semantic
  | GraphResolve value => graph_resolve h value
  | GraphGetNode id => graph_get_node ca h id
  | GraphGetActor id => graph_get_actor h id
  | GraphGetEdges id => graph_get_edges h id
  | GraphGetEdge id => graph_get_edge h id
  | GraphGetCorroboration id => graph_get_corroboration h id
  | GraphListRoadmapProposals => graph_list_roadmap_proposals h
  | GraphGetSubgraph node depth max_nodes => graph_get_subgraph h node depth max_nodes
  | GraphFindSources id => graph_find_sources h id
  | GraphGetAssertion id => graph_get_assertion h id
  | GraphGetNodeAssertions id => graph_get_node_assertions h id
  | GraphAssertTool p => graph_assert h p
  | GraphAddEvidence id e => graph_add_evidence h id e
  | GraphVerifyAssertion id result => graph_verify_assertion h id result
  | GraphDisputeAssertion id reason => graph_dispute_assertion h id reason
  | GraphRetractAssertion id reason => graph_retract_assertion h id reason
  | GraphSupersedeAssertion old new => graph_supersede_assertion h old new
  | GraphGetHistory object_type id => graph_get_history h object_type id
  | GraphRedactEvidence id reason => graph_redact_evidence h id reason
  | GraphListRedactions => graph_list_redactions h
  | GraphRedactActorIdentityUri id reason => graph_redact_actor_identity_uri h id reason
  | GraphSuppressNode id => graph_suppress_node h id
  | GraphUnsuppressNode id => graph_unsuppress_node h id
  end.

End mcp.

(** ** The equivalent routes *)

Definition evidence_request (p : EvidenceParam) : EvidenceRequest :=
  {| rq_evidence_type := mp_evidence_type p; rq_uri := mp_uri p; rq_title := mp_title p;
     rq_excerpt := mp_excerpt p; rq_content_hash := mp_content_hash p; rq_observed_at := None;
     rq_retrieved_at := None; rq_pinned_cid := mp_pinned_cid p; rq_metadata := None |}.
Definition assert_request (p : AssertParams) : AssertRequest :=
  {| rq_subject := mp_subject p; rq_subject_type := mp_subject_type p; rq_predicate := mp_predicate p;
     rq_object := mp_object p; rq_object_type := mp_object_type p; rq_evidence := evidence_request <$> mp_evidence p;
     rq_actor_confidence := mp_confidence p; rq_asserted_at := None |}.
(** The table of [docs/api.md]. *)
Definition equivalent (t : Tool) : Request :=
  match t with
  | GraphSearch q limit semantic => GetSearch q limit semantic
  | GraphResolve value => PostResolve value
  | GraphGetNode id => GetNode id
  | GraphGetActor id => GetActor id
  | GraphGetEdges id => GetNodeEdges id
  | GraphGetEdge id => GetEdge id
  | GraphGetCorroboration id => GetEdgeCorroboration id
  | GraphListRoadmapProposals => GetRoadmap
  | GraphGetSubgraph node depth max_nodes => GetSubgraph node depth max_nodes
  | GraphFindSources id => GetNodeSources id
  | GraphGetAssertion id => GetAssertion id
  | GraphGetNodeAssertions id => GetNodeAssertions id
  | GraphAssertTool p => PostAssertion (assert_request p)
  | GraphAddEvidence id e => PostEvidence id (evidence_request e)
  | GraphVerifyAssertion id result => PostVerify id result None
  | GraphDisputeAssertion id reason => PostDispute id reason
  | GraphRetractAssertion id reason => PostRetract id reason
  | GraphSupersedeAssertion old new => PostSupersede old new
  | GraphGetHistory object_type id => GetHistory object_type id
  | GraphRedactEvidence id reason => PostRedactEvidence id reason
  | GraphListRedactions => GetRedactions
  | GraphRedactActorIdentityUri id reason => PostRedactActor id reason
  | GraphSuppressNode id => PostSuppress id
  | GraphUnsuppressNode id => PostUnsuppress id
  end.

(** What a REST reply shows of an answer; a null shows nothing. *)
Definition shown (x : McpReply) : option Reply :=
  match x with
  | McReply r => Some r
  | McNode (Some n) aliases authority => Some (ReNode n aliases authority)
  | McActor (Some a) => Some (ReActor a)
  | McEdge (Some e) => Some (ReEdge e)
  | McNode None _ _ | McActor None | McEdge None => None
  end.
(** Errors agree if [map_err] takes one to the other, or both blame the key
    or the parameters. *)
Definition same_error (e : McpError) (e' : ApiError) : Prop :=
  e = mcp_map_err e' ∨
  (∃ m, e = InvalidParams m) ∧ (e' = OfGraph InvalidApiKey ∨ ∃ m, e' = OfGraph (InvalidInput m)).
Definition same_answer {A B} (R : A → B → Prop) (x : result McpError A) (y : result ApiError B) : Prop :=
  match x, y with
  | Ok a, Ok b => R a b
  | Err e, Err e' => same_error e e'
  | _, _ => False
  end.

(** *** A simulation between a tool and a handler *)

Section simulation.
Context `{P : Platform} `{C : Codec} `{U : GraphPlatform} `{N : Unicode} `{T : FullText}.
Context {K : Corroborating} `{V : EmbeddingProvider}.
Context (identity : SigningKey) (clock : nat → Z) (parse_rfc3339 : string → result string Z).
Abbreviation mcp := (ste service McpError).
Abbreviation api := (ste service ApiError).

Definition sim {A B} (R : A → B → Prop) (m : mcp A) (n : api B) : Prop := ∀ s,
  (m s).2 = (n s).2 ∧ same_answer R (m s).1 (n s).1.

Lemma sim_bind {A B A' B'} (R : A → B → Prop) (Q : A' → B' → Prop) (m : mcp A) (n : api B) f g :
  sim R m n → (∀ a b, R a b → sim Q (f a) (g b)) → sim Q (m ≫= f) (n ≫= g).
Proof.
  intros Hm Hf s. destruct (Hm s) as [Hs Ha]. cbv [mbind ste_bind].
  destruct (m s) as [[a|e] s1], (n s) as [[b|e'] s2]; cbn in *; try done; subst s2. by apply Hf.
Qed.
Lemma sim_ret {A B} (R : A → B → Prop) a b : R a b → sim R (mret a) (mret b).
Proof. intros H s. by split. Qed.
Lemma sim_result {A B} (R : A → B → Prop) x y : same_answer R x y → sim R (of_result x) (of_result y).
Proof. intros H s. by split. Qed.
Lemma sim_asking {A} (m : ste service GraphError A) : sim eq (asking m) (call m).
Proof.
  intros s. unfold asking, call. destruct (m s) as [[a|e] s']; cbn; [done|]. split; [done|by left].
Qed.
Lemma sim_looking {A} (m : txg A) : sim eq (looking m) (reading m).
Proof. apply sim_asking. Qed.
Lemma sim_looking_tx {A} (m : tx A) : sim eq (looking_tx m) (reading_tx m).
Proof. apply sim_asking. Qed.
Lemma sim_parsing what what' s : sim eq (parsing what s) (answer (parse_id what' s)).
Proof.
  unfold parsing, answer, parse_id. destruct (Hash32_from_str s); apply sim_result; cbn; [done|].
  right. split; [by eexists|right; by eexists].
Qed.
Lemma sim_authenticate h : sim eq (mcp_authenticate h) (call (authenticate_header h)).
Proof.
  unfold mcp_authenticate, authenticate_header, extract_bearer.
  destruct (h ≫= strip_prefix "Bearer ") as [raw|]; [apply sim_asking|].
  intros s. split; [done|]. right. split; [by eexists|by left].
Qed.
Lemma sim_authenticate_read h : sim eq (mcp_authenticate_read h) (call (authenticate_read h)).
Proof.
  assert (∀ s, call (authenticate_read h) s =
    (auth ← call (authenticate_header h); _ ← call (of_result (require auth GraphRead)); mret auth) s) as Heq.
  { intros s. unfold authenticate_read, call. cbv [mbind ste_bind of_result mret ste_ret].
    destruct (authenticate_header h s) as [[auth|e] s']; cbn; [|done]. by destruct (require auth GraphRead). }
  intros s. rewrite Heq. revert s.
  apply (sim_bind eq); [apply sim_authenticate|]. intros auth ? <-.
  apply (sim_bind eq); [apply sim_asking|]. intros ? ? <-. by apply sim_ret.
Qed.

Ltac sim_atom := lazymatch goal with
  | |- sim _ (mcp_authenticate_read _) _ => apply sim_authenticate_read
  | |- sim _ (mcp_authenticate _) _ => apply sim_authenticate
  | |- sim _ (parsing _ _) _ => apply sim_parsing
  | |- sim _ (looking_tx _) _ => apply sim_looking_tx
  | |- sim _ (looking _) _ => apply sim_looking
  | |- sim _ (asking _) _ => apply sim_asking
  end.
Ltac sim_walk := repeat lazymatch goal with
  | |- sim _ (mret _) _ => apply sim_ret; reflexivity
  | |- sim _ (_ ≫= _) _ => apply (sim_bind eq); [sim_atom|intros ? ? <-]
  end.

(** The tool's answer and the route's, but for lookups that find nothing. *)
Definition answers (x : result McpError McpReply) (y : result ApiError Reply) : Prop :=
  match x, y with
  | Ok a, Ok b => shown a = Some b
  | Ok a, Err e' => shown a = None ∧ ∃ what, e' = OfGraph (GNotFound what)
  | Err e, Err e' => same_error e e' ∨ ∃ what, e' = OfGraph (GNotFound what)
  | Err _, Ok _ => False
  end.
Definition agrees (m : mcp McpReply) (n : api Reply) : Prop := ∀ s,
  (m s).2 = (n s).2 ∧ answers (m s).1 (n s).1.
Definition shows (a : McpReply) (b : Reply) : Prop := shown a = Some b.
Lemma sim_agrees m n : sim shows m n → agrees m n.
Proof.
  intros H s. destruct (H s) as [Hs Ha]. split; [done|].
  destruct (m s).1, (n s).1; cbn in *; [done..|by left].
Qed.
Lemma agrees_bind {A B} (R : A → B → Prop) (m : mcp A) (n : api B) f g :
  sim R m n → (∀ a b, R a b → agrees (f a) (g b)) → agrees (m ≫= f) (n ≫= g).
Proof.
  intros Hm Hf s. destruct (Hm s) as [Hs Ha]. cbv [mbind ste_bind].
  destruct (m s) as [[a|e] s1], (n s) as [[b|e'] s2]; cbn in *; try done; subst s2; [by apply Hf|].
  split; [done|by left].
Qed.

(** The route has converted its input and goes on. *)
Lemma sim_answer_ok {A B D} (Q : A → B → Prop) (m : mcp A) (x : D) (g : D → api B) :
  sim Q m (g x) → sim Q m (answer (Ok x) ≫= g).
Proof. done. Qed.
(** The route answers 404; the tool reads on and shows nothing. *)
Lemma agrees_missing {A D} (m : mcp A) (f : A → McpReply) what (g : D → api Reply) :
  (∀ s, (m s).2 = s) → (∀ a, shown (f a) = None) → agrees (a ← m; mret (f a)) (answer (Err (GNotFound what)) ≫= g).
Proof.
  intros Hm Hf s. specialize (Hm s). cbv [mbind ste_bind mret ste_ret answer of_result].
  destruct (m s) as [[a|e] s']; cbn in *; subst s'; (split; [done|]).
  - split; [apply Hf|by eexists].
  - right. by eexists.
Qed.

Lemma evidence_same e : evidence_into_input parse_rfc3339 (evidence_request e) = Ok (evidence_param_input e).
Proof. done. Qed.
Lemma evidence_all_same es :
  mapM (M:=result GraphError) (evidence_into_input parse_rfc3339) (evidence_request <$> es) = Ok (evidence_param_input <$> es).
Proof. induction es as [|e es IH]; [done|]. cbn. by rewrite IH. Qed.
Lemma assert_same p : assert_into_input parse_rfc3339 (assert_request p) = Ok {|
    in_subject := mp_subject p; in_subject_type := mp_subject_type p; in_predicate := mp_predicate p;
    in_object := mp_object p; in_object_type := mp_object_type p;
    in_evidence := evidence_param_input <$> mp_evidence p; in_actor_confidence := mp_confidence p;
    in_asserted_observed_at := None; in_extraction_method := None |}.
Proof. unfold assert_into_input. cbn [rq_evidence assert_request]. by rewrite evidence_all_same. Qed.

Ltac tool_unfold :=
  unfold call_tool, equivalent, graph_search, graph_resolve, graph_get_node, graph_get_actor, graph_get_edges, graph_get_edge,
    graph_get_corroboration, graph_list_roadmap_proposals, graph_get_subgraph, graph_find_sources, graph_get_assertion,
    graph_get_node_assertions, graph_assert, graph_add_evidence, graph_verify_assertion, graph_dispute_assertion,
    graph_retract_assertion, graph_supersede_assertion, graph_get_history, graph_redact_evidence, graph_list_redactions,
    graph_redact_actor_identity_uri, graph_suppress_node, graph_unsuppress_node; handler_unfold.

(** *** The tools that do not follow their route step by step *)

Lemma search_agrees ca h q limit semantic :
  agrees (graph_search ca h q limit semantic) (search_handler ca h q limit semantic).
Proof.
  apply sim_agrees. unfold graph_search, search_handler. sim_walk. destruct (default false semantic); sim_walk.
  intros s. cbv [mbind ste_bind observe mret ste_ret of_result id].
  destruct (semantic_search _ _ _ _) as [ranked|e]; cbn; [done|]. split; [done|by left].
Qed.
Lemma node_agrees ca h id : agrees (graph_get_node ca h id) (get_node ca h id).
Proof.
  unfold graph_get_node, get_node.
  do 3 (apply (agrees_bind eq); [sim_atom|intros ? ? <-]). destruct a1 as [node|].
  - apply sim_agrees, sim_answer_ok. sim_walk.
  - apply (agrees_missing (looking_tx (nodes_list_aliases a0)) (λ aliases, McNode None aliases (authority_get a0 (ca_authority ca)))); done.
Qed.
Lemma actor_agrees h id : agrees (graph_get_actor h id) (get_actor h id).
Proof.
  unfold graph_get_actor, get_actor.
  do 2 (apply (agrees_bind eq); [sim_atom|intros ? ? <-]). apply (agrees_bind eq); [sim_atom|intros [actor|] ? <-].
  - apply sim_agrees, sim_answer_ok. sim_walk.
  - intros s. split; [done|]. split; [done|by eexists].
Qed.
Lemma edge_agrees h id : agrees (graph_get_edge h id) (get_edge h id).
Proof.
  unfold graph_get_edge, get_edge.
  do 2 (apply (agrees_bind eq); [sim_atom|intros ? ? <-]). apply (agrees_bind eq); [sim_atom|intros [edge|] ? <-].
  - apply sim_agrees, sim_answer_ok. sim_walk.
  - intros s. split; [done|]. split; [done|by eexists].
Qed.
Lemma assertion_agrees h id : agrees (graph_get_assertion h id) (get_assertion_handler h id).
Proof.
  apply sim_agrees. unfold graph_get_assertion, get_assertion_handler. sim_walk.
  apply (sim_bind eq); [|intros ? ? <-; sim_walk].
  apply sim_result. destruct a1; [done|by left].
Qed.
Lemma assert_agrees h p : agrees (graph_assert identity clock h p) (create_assertion identity clock parse_rfc3339 h (assert_request p)).
Proof.
  apply sim_agrees. unfold graph_assert, create_assertion. rewrite assert_same. sim_walk. apply sim_answer_ok. sim_walk.
Qed.
Lemma add_evidence_agrees h id e :
  agrees (graph_add_evidence identity clock h id e) (add_evidence_handler identity clock parse_rfc3339 h id (evidence_request e)).
Proof.
  apply sim_agrees. unfold graph_add_evidence, add_evidence_handler. rewrite evidence_same. sim_walk. apply sim_answer_ok. sim_walk.
Qed.
Lemma verify_agrees h id result :
  agrees (graph_verify_assertion identity clock h id result) (verify_handler identity clock parse_rfc3339 h id result None).
Proof.
  apply sim_agrees. unfold graph_verify_assertion, verify_handler. sim_walk.
  apply (sim_bind eq); [|intros ? ? <-; sim_walk].
  apply sim_result. destruct (VerifyResult_parse result); [done|]. right. split; [by eexists|right; by eexists].
Qed.

Lemma tool_agrees ca h t :
  agrees (call_tool identity clock ca h t) (handle identity clock parse_rfc3339 ca h (equivalent t)).
Proof.
  destruct t; try solve [tool_unfold; apply sim_agrees; sim_walk].
  - apply search_agrees.
  - apply node_agrees.
  - apply actor_agrees.
  - apply edge_agrees.
  - apply assertion_agrees.
  - apply assert_agrees.
  - apply add_evidence_agrees.
  - apply verify_agrees.
Qed.

(** Only a lookup of a node, an actor or an edge shows a null. *)
Lemma ste_answers_all {S E A B} (Q : B → Prop) (m : ste S E A) (f : A → ste S E B) :
  (∀ a s b s', f a s = (Ok b, s') → Q b) → ∀ s b s', (m ≫= f) s = (Ok b, s') → Q b.
Proof. intros Hf s b s' (a & s1 & _ & H)%ste_bind_ok. by eapply Hf. Qed.
Lemma shows_null ca h t s a s' : call_tool identity clock ca h t s = (Ok a, s') → shown a = None →
  ∃ id, t = GraphGetNode id ∨ t = GraphGetActor id ∨ t = GraphGetEdge id.
Proof.
  intros Hrun Hn. destruct t; try solve [eexists; eauto]; exfalso; revert Hn; (cut (∃ r, a = McReply r); [by intros [r ->]|]);
    revert Hrun; cbn [call_tool]; revert s a s'; tool_unfold;
    repeat (apply ste_answers_all; intros ?); try (intros ? ? ? [= <- _]; by eexists).
  destruct (default false semantic); repeat (apply ste_answers_all; intros ?); intros ? ? ? [= <- _]; by eexists.
Qed.
End simulation.
