(* ===== verification/Framing.v ===== *)
(** * Message framing over a Reticulum link

    [oag-reticulum/src/framing.rs]: a message is its JSON after a 4-byte
    big-endian length, cut into chunks of 1400 bytes; the other end puts the
    chunks of a link together again.  Byte strings are [string]. *)

From S2P Require Import Prelude Bytes.

Definition CHUNK_SIZE : nat := 1400.
Definition MAX_MESSAGE_BYTES : Z := 8 * 1024 * 1024.
Definition LEN_PREFIX_BYTES : nat := 4.

Inductive FramingError :=
  | MessageTooLarge (n : Z)
  | FJson (e : string).

(** [[u8]::chunks]: pieces of [n] bytes, the last one what is left. *)
Fixpoint chunks_fuel (fuel n : nat) (s : string) : list string :=
  match fuel, s with
  | S fuel, String _ _ => str_take n s :: chunks_fuel fuel n (str_drop n s)
  | _, _ => []
  end.
Definition chunks (n : nat) (s : string) : list string := chunks_fuel (String.length s) n s.

(** ** Sending and receiving *)

(** [usize] lengths: a buffer never holds 2^64 bytes. *)
Definition len (s : string) : Z := Z.of_nat (String.length s).

(** [encode_message] on what [serde_json::to_vec] gives. *)
Definition encode_message (json : result string string) : result FramingError string :=
  json ← map_err FJson json;
  if Z.ltb MAX_MESSAGE_BYTES (len json) then Err (MessageTooLarge (len json))
  else Ok (to_be_bytes (wrap_u32 (len json)) +:+ json).

Definition decode_message {T} (parse : string → result string T) (bytes : string) :
    result FramingError T := map_err FJson (parse bytes).

(** [Reassembler]: its buffer.  On an error the chunk stays in it. *)
Definition Reassembler := string.
Definition push (chunk : string) : ste Reassembler FramingError (option string) := λ buffer,
  let buffer := buffer +:+ chunk in
  if String.length buffer <? LEN_PREFIX_BYTES then (Ok None, buffer) else
  let declared_len := from_be_bytes (str_take LEN_PREFIX_BYTES buffer) in
  if Z.ltb MAX_MESSAGE_BYTES declared_len then (Err (MessageTooLarge declared_len), buffer) else
  let total_len := LEN_PREFIX_BYTES + Z.to_nat declared_len in
  if String.length buffer <? total_len then (Ok None, buffer) else
  (Ok (Some (str_drop LEN_PREFIX_BYTES (str_take total_len buffer))), str_drop total_len buffer).

(** Successive chunks; stops at the first error. *)
Fixpoint push_chunks (cs : list string) : ste Reassembler FramingError (list string) :=
  match cs with
  | [] => mret []
  | c :: cs =>
      m ← push c;
      ms ← push_chunks cs;
      mret (match m with Some m => m :: ms | None => ms end)
  end.

(** ** Lemmas *)

(** The bytes of a list of chunks, in order. *)
Definition flat (cs : list string) : string := foldr String.append "" cs.

Lemma chunks_flat n s : 0 < n → flat (chunks n s) = s.
Proof.
  intros Hn. unfold chunks. assert (String.length s ≤ String.length s) as Hl by done.
  revert Hl. generalize (String.length s) at 2 3 as fuel. intros fuel. revert s.
  induction fuel as [|fuel IH]; intros [|a s] Hl; cbn [chunks_fuel flat foldr]; [done|cbn in Hl; lia|done|].
  pose proof (str_take_drop n (String a s)) as E. unfold flat in IH. rewrite IH; [exact E|].
  rewrite str_drop_length. cbn in *. lia.
Qed.
Lemma chunks_small n s : Forall (λ c, String.length c ≤ n) (chunks n s).
Proof.
  unfold chunks. generalize (String.length s) at 1 as fuel. intros fuel. revert s.
  induction fuel as [|fuel IH]; intros [|a s]; cbn [chunks_fuel]; constructor; [|apply IH].
  rewrite str_take_length. lia.
Qed.
(** ** One push *)

Definition frame (m : string) : string := to_be_bytes (len m) +:+ m.

Lemma frame_length m : String.length (frame m) = 4 + String.length m.
Proof. unfold frame. by rewrite string_length_app. Qed.
Lemma string_length_nil s : String.length s = 0 → s = "".
Proof. by destruct s. Qed.

(** What a push does, by its result. *)
Lemma push_cases c buffer :
  let b := buffer +:+ c in
  match push c buffer with
  | (Ok None, b') => b' = b ∧ (len b' < 4 + MAX_MESSAGE_BYTES)%Z
  | (Ok (Some m), b') => b = frame m +:+ b' ∧ (len m ≤ MAX_MESSAGE_BYTES)%Z
  | (Err (MessageTooLarge n), b') => b' = b ∧ n = from_be_bytes b ∧ (MAX_MESSAGE_BYTES < n)%Z
  | (Err (FJson _), _) => False
  end.
Proof.
  intros b. unfold push. fold b. unfold len, LEN_PREFIX_BYTES, MAX_MESSAGE_BYTES.
  destruct (Nat.ltb_spec (String.length b) 4) as [H4|H4]; [split; [done|]; lia|].
  assert (from_be_bytes (str_take 4 b) = from_be_bytes b) as Ef.
  { by destruct b as [|? [|? [|? [|? ?]]]]. }
  rewrite Ef. pose proof (from_be_bytes_range b) as Hr.
  destruct (Z.ltb_spec (8 * 1024 * 1024) (from_be_bytes b)) as [Hm|Hm]; [done|].
  destruct (Nat.ltb_spec (String.length b) (4 + Z.to_nat (from_be_bytes b))) as [Hl|Hl]; [split; [done|]; lia|].
  set (m := str_drop 4 (str_take (4 + Z.to_nat (from_be_bytes b)) b)).
  assert (String.length m = Z.to_nat (from_be_bytes b)) as Hlm.
  { unfold m. rewrite str_drop_length, str_take_length. lia. }
  split; [|lia]. unfold frame, len. rewrite Hlm, Z2Nat.id by lia. rewrite <-Ef.
  rewrite to_from_be_bytes by (rewrite str_take_length; lia).
  rewrite <-(str_take_drop (4 + Z.to_nat (from_be_bytes b)) b) at 1. f_equal.
  2: by rewrite Ef.
  rewrite <-(str_take_drop 4 (str_take (4 + _) b)). f_equal.
  by destruct b as [|? [|? [|? [|? ?]]]].
Qed.

(** A buffer that begins with a framed message. *)
Lemma push_complete c buffer m rest :
  (len m ≤ MAX_MESSAGE_BYTES)%Z → buffer +:+ c = frame m +:+ rest → push c buffer = (Ok (Some m), rest).
Proof.
  intros Hm E. unfold push. rewrite E. unfold frame. rewrite string_app_assoc.
  rewrite str_take_app by done.
  rewrite from_to_be_bytes_alone by (unfold len, MAX_MESSAGE_BYTES in *; lia).
  rewrite string_length_app, string_length_app. cbn [to_be_bytes String.length].
  assert ((4 + (String.length m + String.length rest) <? LEN_PREFIX_BYTES) = false) as ->.
  { apply Nat.ltb_ge. unfold LEN_PREFIX_BYTES. lia. }
  assert ((MAX_MESSAGE_BYTES <? len m) = false)%Z as -> by (by apply Z.ltb_ge).
  assert (Z.to_nat (len m) = String.length m) as -> by (unfold len; lia).
  assert ((4 + (String.length m + String.length rest) <? LEN_PREFIX_BYTES + String.length m) = false) as ->.
  { apply Nat.ltb_ge. unfold LEN_PREFIX_BYTES. lia. }
  rewrite <-string_app_assoc.
  rewrite str_take_app by (by rewrite string_length_app). rewrite str_drop_app by done.
  by rewrite str_drop_app by (by rewrite string_length_app).
Qed.

(** A buffer that is a proper part of one. *)
Lemma push_partial c buffer m more :
  (len m ≤ MAX_MESSAGE_BYTES)%Z → (buffer +:+ c) +:+ more = frame m →
  String.length (buffer +:+ c) < String.length (frame m) →
  push c buffer = (Ok None, buffer +:+ c).
Proof.
  intros Hm E Hl. unfold push. destruct (Nat.ltb_spec (String.length (buffer +:+ c)) LEN_PREFIX_BYTES) as [|H4];
    [done|].
  assert (from_be_bytes (str_take LEN_PREFIX_BYTES (buffer +:+ c)) = len m) as ->.
  { rewrite <-(str_take_app_le _ _ more) by done. rewrite E. unfold frame.
    rewrite str_take_app by done. apply from_to_be_bytes_alone. unfold len, MAX_MESSAGE_BYTES in *. lia. }
  assert ((MAX_MESSAGE_BYTES <? len m) = false)%Z as -> by (by apply Z.ltb_ge).
  rewrite frame_length in Hl.
  assert (Z.to_nat (len m) = String.length m) as -> by (unfold len; lia).
  by rewrite (proj2 (Nat.ltb_lt _ (LEN_PREFIX_BYTES + String.length m)) Hl).
Qed.

Lemma push_chunks_nothing cs : flat cs = "" → push_chunks cs "" = (Ok [], "").
Proof.
  induction cs as [|c cs IH]; [done|]. unfold flat. cbn [foldr]. intros E.
  assert (c = "" ∧ flat cs = "") as [-> Ecs].
  { destruct c; [done|]. by rewrite string_app_cons in E. }
  cbn [push_chunks]. cbv [mbind ste_bind]. change (push "" "") with (@Ok FramingError _ (@None string), "").
  cbn. by rewrite IH.
Qed.

Lemma push_chunks_one cs buffer m :
  (len m ≤ MAX_MESSAGE_BYTES)%Z → buffer +:+ flat cs = frame m →
  String.length buffer < String.length (frame m) → push_chunks cs buffer = (Ok [m], "").
Proof.
  intros Hm. revert buffer. induction cs as [|c cs IH]; intros buffer E Hl.
  - unfold flat in E. cbn in E. rewrite string_app_nil_r in E. rewrite E in Hl. lia.
  - unfold flat in E. cbn [foldr] in E. fold (flat cs) in E. rewrite <-string_app_assoc in E.
    cbn [push_chunks]. cbv [mbind ste_bind].
    destruct (decide (String.length (buffer +:+ c) < String.length (frame m))) as [Hlt|Hge].
    + rewrite (push_partial _ _ _ _ Hm E Hlt). by rewrite (IH _ E Hlt).
    + assert (flat cs = "") as Ecs.
      { apply string_length_nil. apply (f_equal String.length) in E. rewrite string_length_app in E. lia. }
      rewrite Ecs, string_app_nil_r in E.
      rewrite (push_complete c buffer m "") by (by rewrite ?string_app_nil_r).
      by rewrite push_chunks_nothing.
Qed.

Lemma push_chunks_stream cs buffer ms b' :
  push_chunks cs buffer = (Ok ms, b') →
  buffer +:+ flat cs = flat (frame <$> ms) +:+ b' ∧ Forall (λ m, len m ≤ MAX_MESSAGE_BYTES)%Z ms.
Proof.
  revert buffer ms. induction cs as [|c cs IH]; intros buffer ms H; cbn [push_chunks] in H.
  - injection H as <- <-. split; [|done]. apply string_app_nil_r.
  - apply ste_bind_ok in H as (m & b1 & H1 & H). apply ste_bind_ok in H as (ms' & b2 & H2 & H).
    cbv [mret ste_ret] in H. injection H as H <-. destruct (IH _ _ H2) as [E Hf].
    pose proof (push_cases c buffer) as Hp. rewrite H1 in Hp.
    unfold flat. cbn [foldr]. fold (flat cs). rewrite <-string_app_assoc.
    destruct m as [m|]; subst ms.
    + destruct Hp as [-> Hm]. rewrite string_app_assoc, E. cbn [fmap list_fmap foldr].
      rewrite string_app_assoc. split; [done|]. by constructor.
    + destruct Hp as [-> _]. done.
Qed.

(** ** A flood of empty messages *)

Fixpoint zeros (n : nat) : string := match n with O => "" | S n => String "000" (zeros n) end.
Lemma zeros_app n m : zeros n +:+ zeros m = zeros (n + m).
Proof. induction n as [|n IH]; [done|]. cbn [zeros Nat.add]. by rewrite string_app_cons, IH. Qed.
Lemma zeros_length n : String.length (zeros n) = n.
Proof. induction n as [|n IH]; [done|]. cbn. by rewrite IH. Qed.

(** A chunk of zeros is many messages of length zero; each push takes one. *)
Lemma push_zeros k n : 4 ≤ k + n → push (zeros n) (zeros k) = (Ok (Some ""), zeros (k + n - 4)).
Proof.
  intros Hk. apply push_complete; [done|]. rewrite zeros_app. change (frame "") with (zeros 4).
  rewrite zeros_app. f_equal. lia.
Qed.
Lemma push_flood n k :
  4 ≤ CHUNK_SIZE → ∃ ms, push_chunks (replicate n (zeros CHUNK_SIZE)) (zeros k)
    = (Ok ms, zeros (k + n * (CHUNK_SIZE - 4))) ∧ length ms = n.
Proof.
  intros Hc. revert k. induction n as [|n IH]; intros k; cbn [replicate push_chunks].
  - exists []. by rewrite Nat.add_0_r.
  - cbv [mbind ste_bind]. rewrite push_zeros by lia.
    destruct (IH (k + CHUNK_SIZE - 4)) as (ms & E & Hms). rewrite E.
    exists ("" :: ms). cbn [length]. split; [|by rewrite Hms].
    replace (k + S n * (CHUNK_SIZE - 4)) with (k + CHUNK_SIZE - 4 + n * (CHUNK_SIZE - 4)); [done|].
    rewrite Nat.mul_succ_l. generalize (n * (CHUNK_SIZE - 4)). lia.
Qed.

(** ** Properties *)

(** C34: A message arrives as it was sent.  What [encode_message] produces, cut
    into pieces in any way - into chunks of 1400 bytes as the senders do, or
    a byte at a time - makes a fresh reassembler deliver exactly one message,
    on which [decode_message] gives back what was encoded, and leaves it
    empty for the next one.  Encoding fails exactly on messages over 8 MiB. *)
Theorem framed_message_delivered {T} (to_vec : T → result string string)
    (from_slice : string → result string T) (msg : T) json :
  to_vec msg = Ok json → from_slice json = Ok msg →
  match encode_message (to_vec msg) with
  | Ok framed =>
      (∀ cs, flat cs = framed → push_chunks cs "" = (Ok [json], "")) ∧
      push_chunks (chunks CHUNK_SIZE framed) "" = (Ok [json], "") ∧
      Forall (λ c, String.length c ≤ CHUNK_SIZE) (chunks CHUNK_SIZE framed) ∧
      decode_message from_slice json = Ok msg
  | Err e => e = MessageTooLarge (len json) ∧ (MAX_MESSAGE_BYTES < len json)%Z
  end.
Proof.
  intros Hv Hs. rewrite Hv. unfold encode_message. cbn [map_err mbind result_bind].
  destruct (Z.ltb_spec MAX_MESSAGE_BYTES (len json)) as [Hl|Hl]; [done|].
  rewrite wrap_u32_small by (unfold len, MAX_MESSAGE_BYTES in *; lia). fold (frame json).
  assert (∀ cs, flat cs = frame json → push_chunks cs "" = (Ok [json], "")) as Hp.
  { intros cs E. apply push_chunks_one; [done|exact E|]. rewrite frame_length. cbn. lia. }
  split_and!; [exact Hp| |apply chunks_small|unfold decode_message; by rewrite Hs].
  apply Hp, chunks_flat. unfold CHUNK_SIZE. lia.
Qed.

(** A reassembler neither loses nor invents bytes: what has come in is the
    framed messages delivered, in order, and what is still buffered, and no
    message is longer than the limit.  A push that delivers nothing leaves
    less than one longest message in the buffer.  But every push delivers at
    most one message, however many it completes: [n] chunks of 1400 zeros,
    350 empty messages each, leave [n * 1396] bytes in the buffer, which
    therefore has no bound. *)
Theorem reassembler_stream cs buffer ms b' :
  push_chunks cs buffer = (Ok ms, b') →
  buffer +:+ flat cs = flat (frame <$> ms) +:+ b' ∧
  Forall (λ m, len m ≤ MAX_MESSAGE_BYTES)%Z ms ∧
  (∀ c b'', push c b' = (Ok None, b'') → (len b'' < 4 + MAX_MESSAGE_BYTES)%Z) ∧
  (∀ n, ∃ flood, push_chunks (replicate n (zeros CHUNK_SIZE)) ""
          = (Ok flood, zeros (n * (CHUNK_SIZE - 4))) ∧ length flood = n).
Proof.
  intros H. destruct (push_chunks_stream _ _ _ _ H) as [E Hf]. split_and!; [exact E|exact Hf| |].
  - intros c b'' Hp. pose proof (push_cases c b') as Hc. rewrite Hp in Hc. apply Hc.
  - intros n. apply (push_flood n 0). unfold CHUNK_SIZE. lia.
Qed.

(** ** Witnesses *)

Lemma framed_message_delivered_witness :
  push_chunks [zeros 1; zeros 2 +:+ String (byte_of 2) "h"; ""; "i"] "" = (Ok ["hi"], "") ∧
  chunks 4 (frame "hi") = [zeros 3 +:+ String (byte_of 2) ""; "hi"].
Proof.
  split; [|reflexivity].
  destruct (framed_message_delivered (λ s : string, Ok s) (λ s, Ok s) "hi" "hi" eq_refl eq_refl)
    as [H _].
  apply H. reflexivity.
Defined.

Lemma reassembler_stream_witness :
  push_chunks [frame "a" +:+ frame "b"; ""] "" = (Ok ["a"; "b"], "") ∧
  flat [frame "a" +:+ frame "b"; ""] = flat (frame <$> ["a"; "b"]).
Proof.
  assert (push_chunks [frame "a" +:+ frame "b"; ""] "" = (Ok ["a"; "b"], "")) as H by reflexivity.
  split; [exact H|].
  destruct (reassembler_stream [frame "a" +:+ frame "b"; ""] "" ["a"; "b"] "" H) as [E _].
  rewrite string_app_nil_r in E. exact E.
Defined.
