(* ===== verification/Ntp.v ===== *)
(** * NTP packets

    [oag-api/src/ntp_wire.rs]: the 48-byte packets of NTPv4, as a client of an
    upstream server and as the server of the gateway's front end.  Times are
    milliseconds of the Unix epoch, [i64]; the clock and the UDP socket are
    parameters. *)

From S2P Require Import Prelude Bytes.

Definition NTP_UNIX_EPOCH_DELTA_SECONDS : Z := 2208988800.
Definition NTP_PACKET_LEN : nat := 48.

(** ** Timestamps: seconds since 1900 and a fraction, two [u32]s *)

Definition unix_ms_to_ntp_timestamp (unix_ms : Z) : Z * Z :=
  let unix_ms := Z.max unix_ms 0 in
  let unix_seconds := (unix_ms / 1000)%Z in
  let ms_fraction := (unix_ms `mod` 1000)%Z in
  (wrap_u32 (wrap_u64 (unix_seconds + NTP_UNIX_EPOCH_DELTA_SECONDS)),
   wrap_u32 (ms_fraction * 2 ^ 32 / 1000)).

Definition ntp_timestamp_to_unix_ms (seconds fraction : Z) : Z :=
  let unix_seconds := (seconds - NTP_UNIX_EPOCH_DELTA_SECONDS)%Z in
  let ms_fraction := (fraction * 1000 / 2 ^ 32)%Z in
  (unix_seconds * 1000 + ms_fraction)%Z.

(** [buf[offset..offset + 4].copy_from_slice(..)]. *)
Definition splice (buf : string) (offset : nat) (bytes : string) : string :=
  str_take offset buf +:+ bytes +:+ str_drop (offset + String.length bytes) buf.

Definition write_timestamp (buf : string) (offset : nat) (unix_ms : Z) : string :=
  let '(seconds, fraction) := unix_ms_to_ntp_timestamp unix_ms in
  splice (splice buf offset (to_be_bytes seconds)) (offset + 4) (to_be_bytes fraction).
Definition read_timestamp (buf : string) (offset : nat) : Z :=
  let seconds := from_be_bytes (str_take 4 (str_drop offset buf)) in
  let fraction := from_be_bytes (str_take 4 (str_drop (offset + 4) buf)) in
  ntp_timestamp_to_unix_ms seconds fraction.

(** ** Packets *)

Fixpoint zero_bytes (n : nat) : string := match n with O => "" | S n => String "000" (zero_bytes n) end.

Definition build_client_request (transmit_unix_ms : Z) : string :=
  let buf := zero_bytes NTP_PACKET_LEN in
  let buf := splice buf 0 (String (byte_of 35) "") in
  write_timestamp buf 40 transmit_unix_ms.

(** [buf[0] & 0b0000_0111]. *)
Definition mode (buf : string) : Z :=
  match buf with String b _ => Z.land (of_byte b) 7 | "" => 0 end.

Definition parse_client_request (buf : string) : option Z :=
  if String.length buf <? NTP_PACKET_LEN then None
  else if negb (Z.eqb (mode buf) 3) then None
  else Some (read_timestamp buf 40).

Definition build_server_response (origin_unix_ms verified_unix_ms : Z) : string :=
  let buf := zero_bytes NTP_PACKET_LEN in
  let buf := splice buf 0 (String (byte_of 36) "") in
  let buf := splice buf 1 (String (byte_of 2) "") in
  let buf := splice buf 2 (String (byte_of 4) "") in
  let buf := splice buf 3 (String (byte_of 236) "") in
  let buf := splice buf 12 "OAGG" in
  let buf := write_timestamp buf 16 verified_unix_ms in
  let buf := write_timestamp buf 24 origin_unix_ms in
  let buf := write_timestamp buf 32 verified_unix_ms in
  write_timestamp buf 40 verified_unix_ms.

(** ** Asking an upstream server *)

Inductive NtpUpstreamError :=
  | InvalidAddress (addr e : string)
  | NoAddresses (addr : string)
  | NtpSocket (e : string)
  | NtpTimeout
  | MalformedResponse.

(** [addrs] is what the name resolves to; [exchange] sends the request and
    gives the first datagram that arrives, cut at 48 bytes, with its sender;
    the clock is read at [t1] before and at [t4] after. *)
Definition query_upstream (addr : string) (addrs : result string (list string)) (t1 t4 : Z)
    (exchange : string → string → result NtpUpstreamError (string * string)) :
    result NtpUpstreamError Z :=
  addrs ← map_err (InvalidAddress addr) addrs;
  target ← ok_or (head addrs) (NoAddresses addr);
  '(buf, from) ← exchange (build_client_request t1) target;
  if negb (bool_decide (from = target)) || (String.length buf <? NTP_PACKET_LEN)
     || negb (Z.eqb (mode buf) 4)
  then Err MalformedResponse else
  let t2 := read_timestamp buf 32 in
  let t3 := read_timestamp buf 40 in
  let offset_ms := Z.quot ((t2 - t1) + (t3 - t4)) 2 in
  Ok (t4 + offset_ms)%Z.

(** ** Reading and writing parts of a buffer *)

Lemma splice_length buf off b :
  off + String.length b ≤ String.length buf → String.length (splice buf off b) = String.length buf.
Proof.
  intros H. unfold splice. rewrite !string_length_app, str_take_length, str_drop_length. lia.
Qed.
Lemma str_drop_drop n m s : str_drop n (str_drop m s) = str_drop (m + n) s.
Proof.
  revert s. induction m as [|m IH]; intros s; [done|]. destruct s as [|a s]; cbn; [by destruct n|apply IH].
Qed.
Lemma str_drop_app_ge n s t : String.length s ≤ n → str_drop n (s +:+ t) = str_drop (n - String.length s) t.
Proof.
  revert n. induction s as [|a s IH]; intros n H; [by rewrite Nat.sub_0_r|].
  destruct n as [|n]; [cbn in H; lia|]. rewrite string_app_cons. cbn. apply IH. cbn in H. lia.
Qed.
Lemma str_drop_app_le n s t : n ≤ String.length s → str_drop n (s +:+ t) = str_drop n s +:+ t.
Proof.
  revert s. induction n as [|n IH]; intros [|a s]; cbn; intros; [by destruct t|done|lia|].
  rewrite string_app_cons. cbn. apply IH. lia.
Qed.
Lemma str_take_drop_comm n off s t :
  off + n ≤ String.length s → str_take n (str_drop off (s +:+ t)) = str_take n (str_drop off s).
Proof.
  intros H. rewrite str_drop_app_le by lia. apply str_take_app_le. rewrite str_drop_length. lia.
Qed.

Lemma read_splice_same buf off b n :
  n = String.length b → off ≤ String.length buf → str_take n (str_drop off (splice buf off b)) = b.
Proof.
  intros Hn H. unfold splice. rewrite str_drop_app by (rewrite str_take_length; lia).
  by apply str_take_app.
Qed.
Lemma read_splice_before buf off b n i :
  i + n ≤ off → off ≤ String.length buf →
  str_take n (str_drop i (splice buf off b)) = str_take n (str_drop i buf).
Proof.
  intros H Hl. unfold splice. rewrite <-(str_take_drop off buf) at 3.
  rewrite !str_take_drop_comm by (rewrite str_take_length; lia). done.
Qed.
Lemma read_splice_after buf off b n i :
  off + String.length b ≤ i → off ≤ String.length buf →
  str_take n (str_drop i (splice buf off b)) = str_take n (str_drop i buf).
Proof.
  intros H Hl. unfold splice. rewrite <-string_app_assoc.
  rewrite str_drop_app_ge by (rewrite string_length_app, str_take_length; lia).
  rewrite str_drop_drop. f_equal. f_equal. rewrite string_length_app, str_take_length. lia.
Qed.

Lemma write_timestamp_length buf off t :
  off + 8 ≤ String.length buf → String.length (write_timestamp buf off t) = String.length buf.
Proof.
  intros H. unfold write_timestamp. destruct (unix_ms_to_ntp_timestamp t) as [s f].
  rewrite !splice_length; cbn [to_be_bytes String.length]; rewrite ?splice_length; cbn; lia.
Qed.

Lemma ntp_timestamp_u32 t :
  let '(s, f) := unix_ms_to_ntp_timestamp t in (0 ≤ s < 2 ^ 32)%Z ∧ (0 ≤ f < 2 ^ 32)%Z.
Proof. cbn. unfold wrap_u32. split; apply Z.mod_pos_bound; lia. Qed.

(** What a timestamp written at [off] reads as. *)
Definition rounded (t : Z) : Z :=
  let '(s, f) := unix_ms_to_ntp_timestamp t in ntp_timestamp_to_unix_ms s f.

Lemma read_write_same buf off t :
  off + 8 ≤ String.length buf → read_timestamp (write_timestamp buf off t) off = rounded t.
Proof.
  intros H. unfold read_timestamp, write_timestamp, rounded.
  pose proof (ntp_timestamp_u32 t) as Hr. destruct (unix_ms_to_ntp_timestamp t) as [s f].
  destruct Hr as [Hs Hf].
  rewrite (read_splice_before _ (off + 4) _ 4 off) by (rewrite ?splice_length; cbn; lia).
  rewrite (read_splice_same buf off (to_be_bytes s)) by (done || lia).
  rewrite (read_splice_same _ (off + 4) (to_be_bytes f)) by (done || rewrite splice_length; cbn; lia).
  by rewrite !from_to_be_bytes_alone by done.
Qed.
Lemma read_write_other buf off off' t :
  off + 8 ≤ String.length buf → off + 8 ≤ off' ∨ off' + 8 ≤ off →
  read_timestamp (write_timestamp buf off t) off' = read_timestamp buf off'.
Proof.
  intros H Ho. unfold read_timestamp, write_timestamp. destruct (unix_ms_to_ntp_timestamp t) as [s f].
  assert (String.length (splice buf off (to_be_bytes s)) = String.length buf) as Hl
    by (apply splice_length; cbn; lia).
  assert (∀ i, off + 8 ≤ i ∨ i + 4 ≤ off →
    str_take 4 (str_drop i (splice (splice buf off (to_be_bytes s)) (off + 4) (to_be_bytes f)))
    = str_take 4 (str_drop i buf)) as Hi.
  { intros i [Hi|Hi].
    - by rewrite !read_splice_after by (rewrite ?Hl; cbn; lia).
    - by rewrite !read_splice_before by (rewrite ?Hl; cbn; lia). }
  by rewrite !Hi by lia.
Qed.

(** ** The arithmetic of timestamps *)

(** The last millisecond of the NTP era: 2036-02-07. *)
Definition era_end : Z := (2 ^ 32 - NTP_UNIX_EPOCH_DELTA_SECONDS) * 1000.

Lemma fraction_range j : (0 ≤ j < 1000)%Z → (0 ≤ j * 2 ^ 32 / 1000 < 2 ^ 32)%Z.
Proof. intros Hj. split; [apply Z.div_pos; lia|apply Z.div_lt_upper_bound; lia]. Qed.

(** Writing a millisecond and reading it back loses at most one. *)
Lemma fraction_roundtrip j :
  (0 ≤ j < 1000)%Z → (j - 1 ≤ (j * 2 ^ 32 / 1000) * 1000 / 2 ^ 32 ≤ j)%Z.
Proof.
  intros Hj. pose proof (Z.div_mod (j * 2 ^ 32) 1000 ltac:(lia)) as E.
  pose proof (Z.mod_pos_bound (j * 2 ^ 32) 1000 ltac:(lia)) as Hm.
  set (q := (j * 2 ^ 32 / 1000)%Z) in *. split.
  - apply Z.div_le_lower_bound; lia.
  - apply Z.lt_succ_r. apply Z.div_lt_upper_bound; lia.
Qed.

Lemma rounded_era t n :
  (0 ≤ t)%Z → (era_end + (n - 1) * (2 ^ 32 * 1000) ≤ t < era_end + n * (2 ^ 32 * 1000))%Z →
  (t - n * (2 ^ 32 * 1000) - 1 ≤ rounded t ≤ t - n * (2 ^ 32 * 1000))%Z.
Proof.
  unfold era_end, NTP_UNIX_EPOCH_DELTA_SECONDS. intros H0 Ht.
  unfold rounded, unix_ms_to_ntp_timestamp, ntp_timestamp_to_unix_ms, NTP_UNIX_EPOCH_DELTA_SECONDS.
  rewrite Z.max_l by lia.
  pose proof (Z.div_mod t 1000 ltac:(lia)) as E. pose proof (Z.mod_pos_bound t 1000 ltac:(lia)) as Hm.
  set (q := (t / 1000)%Z) in *. set (j := (t `mod` 1000)%Z) in *.
  pose proof (fraction_roundtrip j Hm) as Hj. pose proof (fraction_range j Hm) as Hf.
  rewrite (wrap_u32_small (j * 2 ^ 32 / 1000)) by done.
  assert (wrap_u32 (wrap_u64 (q + 2208988800)) = q + 2208988800 - n * 2 ^ 32)%Z as ->.
  { unfold wrap_u32, wrap_u64. rewrite Z.mod_mod_divide by (exists (2 ^ 32)%Z; lia).
    symmetry. apply (Z.mod_unique_pos _ _ n); lia. }
  lia.
Qed.

(** A fraction survives being read as milliseconds only at the eighths. *)
Lemma eighth_fraction f :
  (0 ≤ f < 2 ^ 32)%Z →
  (f * 1000 / 2 ^ 32 * 2 ^ 32 / 1000 = f ↔ f `mod` 2 ^ 29 = 0)%Z.
Proof.
  intros Hf. pose proof (Z.div_mod (f * 1000) (2 ^ 32) ltac:(lia)) as E.
  pose proof (Z.mod_pos_bound (f * 1000) (2 ^ 32) ltac:(lia)) as Hm.
  set (j := (f * 1000 / 2 ^ 32)%Z) in *. set (r := ((f * 1000) `mod` 2 ^ 32)%Z) in *.
  pose proof (Z.div_mod (j * 2 ^ 32) 1000 ltac:(lia)) as E'.
  pose proof (Z.mod_pos_bound (j * 2 ^ 32) 1000 ltac:(lia)) as Hm'.
  split.
  - intros Hq. rewrite Hq in E'. assert (f * 1000 = j * 2 ^ 32)%Z as Hfj by lia.
    assert (f * 125 = j * 2 ^ 29)%Z as H125 by lia.
    assert (2 ^ 29 | f)%Z as Hd.
    { apply (Z.gauss _ 125); [exists j; lia|reflexivity]. }
    by apply Z.mod_divide.
  - intros Hq. apply Z.mod_divide in Hq as [k Hk]; [|lia].
    assert (j = 125 * k)%Z as Hj.
    { unfold j. rewrite Hk. replace (k * 2 ^ 29 * 1000)%Z with (125 * k * 2 ^ 32)%Z by lia.
      apply Z.div_mul. lia. }
    rewrite Hj, Hk. replace (125 * k * 2 ^ 32)%Z with (k * 2 ^ 29 * 1000)%Z by lia. by apply Z.div_mul.
Qed.

(** The first byte of a packet is set before its timestamps are. *)
Lemma mode_write buf off t : 1 ≤ off → 1 ≤ String.length buf → mode (write_timestamp buf off t) = mode buf.
Proof.
  intros Ho Hb. destruct buf as [|a buf]; [cbn in Hb; lia|]. destruct off as [|off]; [lia|].
  unfold write_timestamp. destruct (unix_ms_to_ntp_timestamp t). unfold splice. reflexivity.
Qed.

(** A response before its timestamps. *)
Definition response_header : string :=
  Eval cbv in splice (splice (splice (splice (splice (zero_bytes NTP_PACKET_LEN) 0 (String (byte_of 36) ""))
    1 (String (byte_of 2) "")) 2 (String (byte_of 4) "")) 3 (String (byte_of 236) "")) 12 "OAGG".

Lemma build_server_response_header origin t :
  build_server_response origin t =
  write_timestamp (write_timestamp (write_timestamp (write_timestamp response_header 16 t) 24 origin) 32 t) 40 t.
Proof. reflexivity. Qed.

(** Buffers of a packet's length. *)
Definition packet (buf : string) : Prop := String.length buf = NTP_PACKET_LEN.
Lemma packet_write buf off t : packet buf → off ≤ 40 → packet (write_timestamp buf off t).
Proof.
  unfold packet, NTP_PACKET_LEN. intros Hb H. rewrite write_timestamp_length by lia. done.
Qed.
Lemma packet_read_same buf off t : packet buf → off ≤ 40 → read_timestamp (write_timestamp buf off t) off = rounded t.
Proof. unfold packet, NTP_PACKET_LEN. intros Hb H. apply read_write_same. lia. Qed.
Lemma packet_read_other buf off off' t :
  packet buf → off ≤ 40 → off + 8 ≤ off' ∨ off' + 8 ≤ off →
  read_timestamp (write_timestamp buf off t) off' = read_timestamp buf off'.
Proof. unfold packet, NTP_PACKET_LEN. intros Hb H. apply read_write_other. lia. Qed.
Lemma packet_mode buf off t : packet buf → 1 ≤ off → mode (write_timestamp buf off t) = mode buf.
Proof. unfold packet, NTP_PACKET_LEN. intros Hb H. apply mode_write; lia. Qed.
Lemma packet_header : packet response_header.
Proof. reflexivity. Qed.
Create HintDb packet.
#[export] Hint Resolve packet_write packet_header : packet.
Ltac in_packet := solve [lia | auto 10 with packet arith].

Lemma response_length origin t : String.length (build_server_response origin t) = NTP_PACKET_LEN.
Proof. rewrite build_server_response_header. repeat apply packet_write; in_packet. Qed.
Lemma response_mode origin t : mode (build_server_response origin t) = 4%Z.
Proof. rewrite build_server_response_header. rewrite !packet_mode by in_packet. reflexivity. Qed.
Lemma response_reads origin t :
  let reply := build_server_response origin t in
  read_timestamp reply 16 = rounded t ∧ read_timestamp reply 24 = rounded origin ∧
  read_timestamp reply 32 = rounded t ∧ read_timestamp reply 40 = rounded t.
Proof.
  cbv zeta. rewrite build_server_response_header.
  split_and!; repeat rewrite packet_read_other by in_packet; by rewrite packet_read_same by in_packet.
Qed.
Lemma request_length t : String.length (build_client_request t) = NTP_PACKET_LEN.
Proof. by apply packet_write; [|lia]. Qed.
Lemma request_mode t : mode (build_client_request t) = 3%Z.
Proof. unfold build_client_request. by rewrite packet_mode by (done || lia). Qed.

(** *** The eight bytes of a timestamp *)

Definition stamp_bytes (t : Z) : string :=
  let '(s, f) := unix_ms_to_ntp_timestamp t in to_be_bytes s +:+ to_be_bytes f.

Lemma splice_splice buf off a b :
  off + String.length a + String.length b ≤ String.length buf →
  splice (splice buf off a) (off + String.length a) b = splice buf off (a +:+ b).
Proof.
  intros H. assert (String.length (str_take off buf +:+ a) = off + String.length a) as Hl.
  { rewrite string_length_app, str_take_length. lia. }
  unfold splice. rewrite <-!(string_app_assoc (str_take off buf) a).
  rewrite str_take_app by done. rewrite str_drop_app_ge by lia.
  rewrite !string_app_assoc, str_drop_drop, !string_length_app, str_take_length. do 4 f_equal. lia.
Qed.
Lemma write_timestamp_splice buf off t :
  off + 8 ≤ String.length buf → write_timestamp buf off t = splice buf off (stamp_bytes t).
Proof.
  intros H. unfold write_timestamp, stamp_bytes. destruct (unix_ms_to_ntp_timestamp t) as [s f].
  apply (splice_splice buf off (to_be_bytes s) (to_be_bytes f)). cbn. lia.
Qed.
Lemma stamp_bytes_length t : String.length (stamp_bytes t) = 8.
Proof. unfold stamp_bytes. by destruct (unix_ms_to_ntp_timestamp t). Qed.

Definition stamp_at (buf : string) (off : nat) : string := str_take 8 (str_drop off buf).

Lemma packet_stamp_same buf off t : packet buf → off ≤ 40 → stamp_at (write_timestamp buf off t) off = stamp_bytes t.
Proof.
  unfold packet, NTP_PACKET_LEN. intros Hb H. rewrite write_timestamp_splice by lia.
  apply read_splice_same; [by rewrite stamp_bytes_length|lia].
Qed.
Lemma packet_stamp_other buf off off' t :
  packet buf → off ≤ 40 → off + 8 ≤ off' ∨ off' + 8 ≤ off →
  stamp_at (write_timestamp buf off t) off' = stamp_at buf off'.
Proof.
  unfold packet, NTP_PACKET_LEN. intros Hb H Ho. rewrite write_timestamp_splice by lia.
  unfold stamp_at. destruct Ho; [apply read_splice_after|apply read_splice_before];
    rewrite ?stamp_bytes_length; lia.
Qed.
Lemma response_origin_stamp origin t : stamp_at (build_server_response origin t) 24 = stamp_bytes origin.
Proof.
  rewrite build_server_response_header.
  repeat rewrite packet_stamp_other by in_packet. by rewrite packet_stamp_same by in_packet.
Qed.

Lemma stamp_at_read buf off s f :
  (0 ≤ s < 2 ^ 32)%Z → (0 ≤ f < 2 ^ 32)%Z → stamp_at buf off = to_be_bytes s +:+ to_be_bytes f →
  read_timestamp buf off = ntp_timestamp_to_unix_ms s f.
Proof.
  intros Hs Hf E. unfold read_timestamp, stamp_at in *. rewrite <-str_drop_drop.
  rewrite <-(str_take_drop 8 (str_drop off buf)). rewrite E.
  rewrite str_take_app_le by (rewrite string_length_app; cbn; lia). rewrite str_take_app by done.
  rewrite string_app_assoc, str_drop_app by done. rewrite str_take_app by done.
  by rewrite !from_to_be_bytes_alone.
Qed.

(** Reading a timestamp as milliseconds and writing them again. *)
Lemma requantised s f :
  (0 ≤ s < 2 ^ 32)%Z → (0 ≤ f < 2 ^ 32)%Z →
  unix_ms_to_ntp_timestamp (ntp_timestamp_to_unix_ms s f) = (s, f) ↔
  (NTP_UNIX_EPOCH_DELTA_SECONDS ≤ s ∧ f `mod` 2 ^ 29 = 0)%Z.
Proof.
  intros Hs Hf. rewrite <-eighth_fraction by done.
  unfold unix_ms_to_ntp_timestamp, ntp_timestamp_to_unix_ms, NTP_UNIX_EPOCH_DELTA_SECONDS.
  assert (0 ≤ f * 1000 / 2 ^ 32 < 1000)%Z as Hj.
  { split; [apply Z.div_pos; lia|apply Z.div_lt_upper_bound; lia]. }
  pose proof (fraction_range _ Hj) as Hr. set (j := (f * 1000 / 2 ^ 32)%Z) in *.
  destruct (decide (2208988800 ≤ s)%Z) as [Hge|Hlt].
  - rewrite Z.max_l by lia.
    assert (((s - 2208988800) * 1000 + j) / 1000 = s - 2208988800)%Z as ->
      by (symmetry; apply (Z.div_unique_pos _ _ _ j); lia).
    assert (((s - 2208988800) * 1000 + j) `mod` 1000 = j)%Z as ->
      by (symmetry; apply (Z.mod_unique_pos _ _ (s - 2208988800)); lia).
    rewrite (wrap_u32_small (j * 2 ^ 32 / 1000)) by done.
    rewrite wrap_u64_small by (unfold is_u64; lia). rewrite wrap_u32_small by lia.
    rewrite Z.sub_add. split; [intros E; split; [done|congruence]|intros [_ E]; by rewrite E].
  - rewrite Z.max_r by lia. split; [|lia]. intros [= H _]. vm_compute in H. lia.
Qed.

(** ** Properties *)

(** Timestamps keep the time to a millisecond, until the NTP era ends.  In
    every packet the code builds, a time written is read back as itself or one
    millisecond less; from 2036-02-07 on, as 2^32 seconds less, and so on
    each era; times before 1970 as 1970.  The packets have the mode and length
    the parser of the other side expects, and a response is not mistaken for
    a request. *)
Theorem ntp_timestamps_kept t origin n :
  (era_end + (n - 1) * (2 ^ 32 * 1000) ≤ t < era_end + n * (2 ^ 32 * 1000))%Z → (0 ≤ t)%Z →
  let kept := rounded t in
  (t - n * (2 ^ 32 * 1000) - 1 ≤ kept ≤ t - n * (2 ^ 32 * 1000))%Z ∧
  (∀ u, (u ≤ 0)%Z → rounded u = 0%Z) ∧
  parse_client_request (build_client_request t) = Some kept ∧
  let reply := build_server_response origin t in
  parse_client_request reply = None ∧ mode reply = 4%Z ∧ String.length reply = NTP_PACKET_LEN ∧
  read_timestamp reply 16 = kept ∧ read_timestamp reply 24 = rounded origin ∧
  read_timestamp reply 32 = kept ∧ read_timestamp reply 40 = kept.
Proof.
  intros Ht H0 kept. split; [by apply rounded_era|]. cbv zeta.
  destruct (response_reads origin t) as (H16 & H24 & H32 & H40). split_and!.
  - intros u Hu. unfold rounded, unix_ms_to_ntp_timestamp. rewrite Z.max_r by lia. reflexivity.
  - unfold parse_client_request. rewrite request_length, request_mode.
    change (Some (read_timestamp (build_client_request t) 40) = Some kept).
    unfold build_client_request. by rewrite packet_read_same by (done || lia).
  - unfold parse_client_request. by rewrite response_length, response_mode.
  - apply response_mode.
  - apply response_length.
  - exact H16.
  - exact H24.
  - exact H32.
  - exact H40.
Qed.

(** When the server echoes a client's timestamp.  A client recognises the
    response to its request by the origin timestamp, which must be its own
    transmit timestamp bit by bit.  The server reads the timestamp as
    milliseconds and writes those: for a client timestamp [(s, f)] the two
    are equal exactly when it lies in 1970 or later of the first era and its
    fraction is a multiple of 2^29 - eight of the 2^32 fractions there are. *)
Theorem origin_echoed s f t request :
  (0 ≤ s < 2 ^ 32)%Z → (0 ≤ f < 2 ^ 32)%Z →
  String.length request = NTP_PACKET_LEN → mode request = 3%Z →
  stamp_at request 40 = to_be_bytes s +:+ to_be_bytes f →
  ∃ origin, parse_client_request request = Some origin ∧
    (stamp_at (build_server_response origin t) 24 = stamp_at request 40 ↔
     (NTP_UNIX_EPOCH_DELTA_SECONDS ≤ s ∧ f `mod` 2 ^ 29 = 0)%Z).
Proof.
  intros Hs Hf Hl Hm E. exists (ntp_timestamp_to_unix_ms s f). split.
  { unfold parse_client_request. rewrite Hl, Hm. cbn [Nat.ltb Nat.leb NTP_PACKET_LEN].
    by rewrite <-(stamp_at_read request 40 s f). }
  rewrite response_origin_stamp, E, <-requantised by done. unfold stamp_bytes.
  pose proof (ntp_timestamp_u32 (ntp_timestamp_to_unix_ms s f)) as Hu.
  destruct (unix_ms_to_ntp_timestamp _) as [s' f']. destruct Hu as [Hs' Hf']. split.
  - intros Eb. apply string_app_inj in Eb as [E1 E2]; [|done].
    apply (f_equal from_be_bytes) in E1, E2. rewrite !from_to_be_bytes_alone in E1, E2 by done. congruence.
  - by intros [= -> ->].
Qed.

(** The time obtained from an upstream server is off by at most half the
    round trip and two milliseconds.  Let the true time be [theta] ahead of
    the local clock and the request and the reply take [d1] and [d2]
    milliseconds; then [query_upstream] gives the true time at [t4] up to
    [(d1 + d2 + 3) / 2].  A datagram from anyone else, a short one or one of
    another mode is refused; but any response of the server asked is taken,
    whatever request it was sent for. *)
Theorem upstream_error_bound addr target rest t1 t4 theta d1 d2 exchange reply from :
  exchange (build_client_request t1) target = Ok (reply, from) →
  let got := query_upstream addr (Ok (target :: rest)) t1 t4 exchange in
  (from = target → String.length reply = NTP_PACKET_LEN → mode reply = 4%Z →
   (t1 + theta + d1 - 1 ≤ read_timestamp reply 32 ≤ t1 + theta + d1)%Z →
   (t4 + theta - d2 - 1 ≤ read_timestamp reply 40 ≤ t4 + theta - d2)%Z →
   (0 ≤ d1 ∧ 0 ≤ d2)%Z →
   ∃ now, got = Ok now ∧ (2 * Z.abs (now - (t4 + theta)) ≤ d1 + d2 + 3)%Z) ∧
  (from ≠ target ∨ String.length reply < NTP_PACKET_LEN ∨ mode reply ≠ 4%Z → got = Err MalformedResponse) ∧
  (∀ origin, from = target → reply = build_server_response origin t4 → is_ok got = true).
Proof.
  intros Hex got. unfold got, query_upstream. cbn [map_err mbind result_bind head ok_or]. rewrite Hex.
  cbn [mbind result_bind]. split_and!.
  - intros -> Hl Hm H2 H3 Hd. rewrite bool_decide_true, Hl, Hm by done. cbn.
    eexists. split; [done|].
    pose proof (Z.quot_rem (read_timestamp reply 32 - t1 + (read_timestamp reply 40 - t4)) 2 ltac:(lia)) as E.
    pose proof (Z.rem_bound_abs (read_timestamp reply 32 - t1 + (read_timestamp reply 40 - t4)) 2 ltac:(lia)).
    lia.
  - intros [Hf|[Hl|Hm]].
    + by rewrite bool_decide_false.
    + rewrite (proj2 (Nat.ltb_lt _ _) Hl), orb_true_r. done.
    + rewrite (proj2 (Z.eqb_neq _ _) Hm), !orb_true_r. done.
  - intros origin -> ->. rewrite bool_decide_true by done. by rewrite response_length, response_mode.
Qed.

(** ** Witnesses *)

Lemma ntp_timestamps_kept_witness :
  parse_client_request (build_client_request 1700000000123) = Some 1700000000122%Z ∧
  (1700000000123 - 1 ≤ rounded 1700000000123 ≤ 1700000000123)%Z.
Proof.
  destruct (ntp_timestamps_kept 1700000000123 0 0) as (H & _ & Hp & _);
    [vm_compute; split; congruence|lia|].
  split; [rewrite Hp; vm_compute; reflexivity|]. replace (1700000000123 - 0 * (2 ^ 32 * 1000))%Z
    with 1700000000123%Z in H by reflexivity. exact H.
Defined.

(** This program's own request, sent at .123 of a second, is not echoed. *)
Lemma origin_echoed_witness :
  ∃ origin, parse_client_request (build_client_request 1700000000123) = Some origin ∧
    stamp_at (build_server_response origin 1700000000500) 24
      ≠ stamp_at (build_client_request 1700000000123) 40.
Proof.
  destruct (origin_echoed 3908988800 528280977 1700000000500 (build_client_request 1700000000123))
    as (origin & Hp & H); [lia|lia|vm_compute; reflexivity..|].
  exists origin. split; [exact Hp|]. intros E. apply H in E as [_ E]. vm_compute in E. discriminate E.
Defined.

(** A server 700 ms ahead, 10 ms there and 30 ms back. *)
Lemma upstream_error_bound_witness :
  ∃ now, query_upstream "pool" (Ok ["10.0.0.1"]) 1700000000000 1700000000040
           (λ _ a, Ok (build_server_response 0 1700000000710, a)) = Ok now ∧
         (2 * Z.abs (now - 1700000000740) ≤ 43)%Z.
Proof.
  destruct (upstream_error_bound "pool" "10.0.0.1" [] 1700000000000 1700000000040 700 10 30
    (λ _ a, Ok (build_server_response 0 1700000000710, a)) (build_server_response 0 1700000000710)
    "10.0.0.1" eq_refl) as [H _].
  apply H; [reflexivity|vm_compute; reflexivity|vm_compute; reflexivity|..|lia];
    vm_compute; split; congruence.
Defined.
