(* ===== verification/Signed.v ===== *)
(** * Signed statements between peers

    The checks [verify_request], [verify_receipt] ([oag-api/src/transfer.rs]),
    [verify_gateway_request] and [verify_gateway_response]
    ([oag-api/src/gateway.rs]) share: the peer id is the hash of the key, and
    the key signed the canonical bytes under the statement's prefix. *)

From S2P Require Import Prelude Core Envelope Presence.

Section signed.
Context `{P : Platform}.

(** [decode_32], [decode_64]. *)
Definition decode_32 (s : string) : option (bytes 32) := decode_hex 32 s.
Definition decode_64 (s : string) : option (bytes 64) := decode_hex 64 s.

(** What the four functions reject with. *)
Record reject (E : Type) := Reject {
  on_peer_id : PeerIdParseError → E; on_public_key : E; on_mismatch : E;
  on_signature_encoding : E; on_signature : E }.
Arguments on_peer_id {E}.
Arguments on_public_key {E}.
Arguments on_mismatch {E}.
Arguments on_signature_encoding {E}.
Arguments on_signature {E}.

Definition check_signer {E} (rej : reject E) (peer_id public_key : string) :
    result E (hash32 * VerifyingKey) :=
  id ← map_err (on_peer_id rej) (PeerId_from_str peer_id);
  pk_bytes ← ok_or (decode_32 public_key) (on_public_key rej);
  key ← map_err (λ _, on_public_key rej) (vk_from_bytes pk_bytes);
  if negb (bool_decide (id = PeerId_from_public_key key)) then Err (on_mismatch rej)
  else Ok (id, key).

Definition check_signature {E} (rej : reject E) (key : VerifyingKey) (domain canonical signature : string) :
    result E () :=
  sig ← ok_or (decode_64 signature) (on_signature_encoding rej);
  map_err (λ _, on_signature rej) (verify_with_domain key domain canonical sig).

(** [sign_with_domain] and [hex::encode]. *)
Definition sign_hex (identity : SigningKey) (domain canonical : string) : string :=
  hex_encode (raw (sign_with_domain identity domain canonical)).
Definition public_key_hex (identity : SigningKey) : string :=
  hex_encode (raw (vk_bytes (verifying_key identity))).
Definition peer_id_string (identity : SigningKey) : string :=
  PeerId_to_string (identity_peer_id identity).

(** Accepted: the statement speaks for the peer it names. *)
Lemma checks_vouched {E} (rej : reject E) peer_id public_key domain canonical signature id key u :
  check_signer rej peer_id public_key = Ok (id, key) →
  check_signature rej key domain canonical signature = Ok u →
  vouched domain canonical peer_id public_key signature id.
Proof.
  intros H1 H2. unfold check_signer in H1.
  apply result_bind_ok in H1 as (id' & Hid%map_err_ok & H1).
  apply result_bind_ok in H1 as (pk & Hpk%ok_or_ok & H1).
  apply result_bind_ok in H1 as (key' & Hkey%map_err_ok & H1).
  destruct (negb _) eqn:Hn; [done|]. injection H1 as <- <-.
  apply negb_false_iff, bool_decide_eq_true in Hn.
  unfold check_signature in H2. apply result_bind_ok in H2 as (sig & Hsig%ok_or_ok & H2%map_err_ok).
  split; [done|]. exists pk, key', sig. split_and!; [done..|]. destruct u. exact H2.
Qed.

Context `{L : !PlatformLaws P}.

(** What a peer signs passes. *)
Lemma check_signer_own {E} (rej : reject E) sk :
  check_signer rej (peer_id_string sk) (public_key_hex sk) = Ok (identity_peer_id sk, verifying_key sk).
Proof.
  unfold check_signer, peer_id_string, public_key_hex, decode_32.
  rewrite PeerId_from_to_string, decode_hex_encode. cbn [map_err mbind result_bind ok_or].
  rewrite vk_from_to. cbn [map_err mbind result_bind]. by rewrite bool_decide_true.
Qed.
Lemma check_signature_own {E} (rej : reject E) sk domain canonical :
  check_signature rej (verifying_key sk) domain canonical (sign_hex sk domain canonical) = Ok ().
Proof.
  unfold check_signature, sign_hex, decode_64. rewrite decode_hex_encode. cbn [mbind result_bind ok_or].
  unfold verify_with_domain, sign_with_domain. by rewrite verify_sign.
Qed.
End signed.
Arguments on_peer_id {E}.
Arguments on_public_key {E}.
Arguments on_mismatch {E}.
Arguments on_signature_encoding {E}.
Arguments on_signature {E}.
Arguments Reject {E}.
