(* ===== verification/Gateway.v ===== *)
(** * The verified internet gateway

    [oag-api/src/gateway.rs]: a query - the time, or a URL - is answered from
    the cache, by a quorum of other peers, from the real origin, or by a relay,
    in this order.  What the outside world answers (peers over HTTP, upstream
    servers, clocks, random bytes) is a parameter; the field [fetch_http] stands
    for [fetch_upstream_http], which Fetch.v models. *)

From S2P Require Import Prelude Core Envelope Presence RateLimit Bytes Ntp Signed.

(** ** Wire types *)

Inductive GatewayService := GwNtp | GwHttp (url : string).
#[export] Instance GatewayService_eq_dec : EqDecision GatewayService.
Proof. solve_decision. Defined.

Record UnsignedGatewayRequest := {
  gq_service : GatewayService; gq_requester_peer_id : string; gq_requester_public_key : string;
  gq_nonce : string; gq_requested_at : Z;
  gq_hops_remaining : nat;  (** a [u8] *)
  gq_path : list string }.
Record GatewayRequest := { gq_unsigned : UnsignedGatewayRequest; gq_signature : string }.

Inductive GatewayResult :=
  | NtpResult (estimated_unix_time_ms : Z)
  | HttpResult (status : Z) (content_hash body : string) (cache_control : option string).
Inductive ServedFrom := Cache | Quorum | Origin | Relay.

Record UnsignedGatewayResponse := {
  gr_result : GatewayResult; gr_responder_peer_id : string; gr_responder_public_key : string;
  gr_nonce : string; gr_resolved_at : Z; gr_served_from : ServedFrom }.
Record GatewayResponse := { gr_unsigned : UnsignedGatewayResponse; gr_signature : string }.

Inductive GatewayError :=
  | GwPeerId (e : PeerIdParseError)
  | GwInvalidPublicKey
  | GwPeerIdKeyMismatch
  | GwInvalidNonce
  | GwBadSignatureEncoding
  | GwBadSignature
  | GwResponseMismatch
  | GwClockSkew
  | GwRateLimited
  | GwNoQuorum
  | GwUpstreamBlocked (e : string)
  | GwNtpUpstream (e : string)
  | GwCannotResolve
  | GwInternal (e : string)
  | GwPanic.  (** not a value of the program: it panics *)

(** The canonical JSON of the two; both structs always serialize. *)
Class GatewayCodec := {
  canonical_gateway_request : UnsignedGatewayRequest → string;
  canonical_gateway_response : UnsignedGatewayResponse → string }.

(** ** Configuration *)

Record GatewayConfig := {
  hops_remaining : nat; fanout_count : nat; quorum_min_agree : nat;
  ntp_tolerance_ms : Z; ntp_upstream_servers : list string; ntp_cache_ttl_ms : Z;
  http_allow_upstream : bool; http_allow_private_networks : bool; http_max_response_bytes : Z;
  http_default_cache_ttl_ms : Z; http_max_cache_ttl_ms : Z }.
Definition GatewayConfig_default : GatewayConfig := {|
  hops_remaining := 8; fanout_count := 0; quorum_min_agree := 2; ntp_tolerance_ms := 1000;
  ntp_upstream_servers := []; ntp_cache_ttl_ms := 2000; http_allow_upstream := false;
  http_allow_private_networks := false; http_max_response_bytes := 2 * 1024 * 1024;
  http_default_cache_ttl_ms := 5000; http_max_cache_ttl_ms := 60000 |}.

(** ** The cache: durations and instants in milliseconds *)

Record CacheEntry := { ce_result : GatewayResult; ce_computed_at : Z; ce_ttl : Z }.
Abbreviation GatewayCache := (gmap string CacheEntry).

Definition cache_key (service : GatewayService) : string :=
  match service with GwNtp => "ntp" | GwHttp url => "http:" +:+ url end.

Definition adjust_for_elapsed (result : GatewayResult) (elapsed : Z) : GatewayResult :=
  match result with
  | NtpResult t => NtpResult (wrap_i64 (t + elapsed))
  | other => other
  end.
Definition cache_get (now : Z) (service : GatewayService) (cache : GatewayCache) : option GatewayResult :=
  entry ← cache !! cache_key service;
  let elapsed := (now - ce_computed_at entry)%Z in
  if Z.eqb (ce_ttl entry) 0 || Z.leb (ce_ttl entry) elapsed then None
  else Some (adjust_for_elapsed (ce_result entry) elapsed).
Definition cache_put (now : Z) (service : GatewayService) (result : GatewayResult) (ttl : Z)
    (cache : GatewayCache) : GatewayCache :=
  if Z.eqb ttl 0 then cache
  else <[cache_key service := {| ce_result := result; ce_computed_at := now; ce_ttl := ttl |}]> cache.

Section gateway.
Context `{P : Platform} `{GC : GatewayCodec}.

Fixpoint find_max_age (directives : list string) : option Z :=
  match directives with
  | [] => None
  | d :: rest =>
      let d := trim d in
      match (if starts_with "max-age=" d then parse_u64 (str_drop 8 d) else None) with
      | Some n => Some n
      | None => find_max_age rest
      end
  end.
Definition parse_max_age (cache_control_lower : string) : option Z :=
  find_max_age (split_on "," cache_control_lower "").

Definition saturating_mul (a b : Z) : Z := Z.min (a * b) (2 ^ 64 - 1).
Definition compute_cache_ttl (service : GatewayService) (result : GatewayResult) (config : GatewayConfig) : Z :=
  match service, result with
  | GwNtp, _ => Z.max (ntp_cache_ttl_ms config) 0
  | GwHttp _, HttpResult _ _ _ cache_control =>
      let default_ttl := Z.max (http_default_cache_ttl_ms config) 0 in
      match cache_control with
      | Some cc =>
          let lower := to_lowercase cc in
          if contains "no-store" lower || contains "no-cache" lower then 0%Z
          else match parse_max_age lower with
               | Some max_age_secs =>
                   Z.min (saturating_mul max_age_secs 1000) (Z.max (http_max_cache_ttl_ms config) 0)
               | None => default_ttl
               end
      | None => default_ttl
      end
  | _, _ => 0%Z
  end.

(** ** Signing and checking *)

Definition gateway_rejects : reject GatewayError :=
  Reject GwPeerId GwInvalidPublicKey GwPeerIdKeyMismatch GwBadSignatureEncoding GwBadSignature.

Definition build_and_sign_gateway_request (identity : SigningKey) (service : GatewayService)
    (nonce : bytes 32) (requested_at : Z) (hops : nat) (path : list string) : GatewayRequest :=
  let unsigned := {| gq_service := service; gq_requester_peer_id := peer_id_string identity;
    gq_requester_public_key := public_key_hex identity; gq_nonce := hex_encode (raw nonce);
    gq_requested_at := requested_at; gq_hops_remaining := hops; gq_path := path |} in
  {| gq_unsigned := unsigned;
     gq_signature := sign_hex identity GATEWAY_REQUEST_DOMAIN (canonical_gateway_request unsigned) |}.

Definition verify_gateway_request (req : GatewayRequest) (now : Z) : result GatewayError (hash32 * bytes 32) :=
  let u := gq_unsigned req in
  '(peer_id, key) ← check_signer gateway_rejects (gq_requester_peer_id u) (gq_requester_public_key u);
  _ ← check_signature gateway_rejects key GATEWAY_REQUEST_DOMAIN (canonical_gateway_request u) (gq_signature req);
  if skewed (gq_requested_at u) now then Err GwClockSkew else
  nonce ← ok_or (decode_32 (gq_nonce u)) GwInvalidNonce;
  Ok (peer_id, nonce).

Definition build_and_sign_gateway_response (identity : SigningKey) (result : GatewayResult)
    (nonce : bytes 32) (resolved_at : Z) (served_from : ServedFrom) : GatewayResponse :=
  let unsigned := {| gr_result := result; gr_responder_peer_id := peer_id_string identity;
    gr_responder_public_key := public_key_hex identity; gr_nonce := hex_encode (raw nonce);
    gr_resolved_at := resolved_at; gr_served_from := served_from |} in
  {| gr_unsigned := unsigned;
     gr_signature := sign_hex identity GATEWAY_RESPONSE_DOMAIN (canonical_gateway_response unsigned) |}.

Definition verify_gateway_response (resp : GatewayResponse) (expected_nonce : bytes 32) (now : Z) :
    result GatewayError hash32 :=
  let u := gr_unsigned resp in
  if negb (bool_decide (decode_32 (gr_nonce u) = Some expected_nonce)) then Err GwResponseMismatch else
  '(peer_id, key) ← check_signer gateway_rejects (gr_responder_peer_id u) (gr_responder_public_key u);
  _ ← check_signature gateway_rejects key GATEWAY_RESPONSE_DOMAIN (canonical_gateway_response u) (gr_signature resp);
  if skewed (gr_resolved_at u) now then Err GwClockSkew else Ok peer_id.

(** ** The quorum *)

Definition ntp_values (oks : list GatewayResult) : list Z :=
  omap (λ r, match r with NtpResult t => Some t | _ => None end) oks.
(** The values within the tolerance of [v], by the subtraction and [abs] of
    [i64]. *)
Definition cluster (tolerance : Z) (values : list Z) (v : Z) : list Z :=
  filter (λ o, Z.leb (wrapping_abs (wrap_i64 (o - v))) tolerance = true) values.
(** The first longest. *)
Fixpoint best_cluster (tolerance : Z) (values candidates : list Z) (best : list Z) : list Z :=
  match candidates with
  | [] => best
  | v :: candidates =>
      let c := cluster tolerance values v in
      best_cluster tolerance values candidates (if length best <? length c then c else best)
  end.

(** [groups.entry(hash).or_default().push(r)], groups in any order. *)
Fixpoint group_by_hash (oks : list GatewayResult) (groups : gmap string (list GatewayResult)) :
    gmap string (list GatewayResult) :=
  match oks with
  | [] => groups
  | r :: oks =>
      match r with
      | HttpResult _ hash _ _ =>
          group_by_hash oks (<[hash := default [] (groups !! hash) ++ [r]]> groups)
      | _ => group_by_hash oks groups
      end
  end.
(** [max_by_key]: the last longest. *)
Fixpoint last_longest (groups : list (string * list GatewayResult))
    (best : option (list GatewayResult)) : option (list GatewayResult) :=
  match groups with
  | [] => best
  | (_, g) :: groups =>
      last_longest groups (match best with
                           | Some b => if length b <=? length g then Some g else Some b
                           | None => Some g
                           end)
  end.

(** [order]: the iteration order of the [HashMap]. *)
Definition aggregate_quorum (order : list (string * list GatewayResult) → list (string * list GatewayResult))
    (service : GatewayService) (outcomes : list (result GatewayError GatewayResult))
    (tolerance : Z) (min_agree : nat) : result GatewayError GatewayResult :=
  let oks := omap to_option outcomes in
  match service with
  | GwNtp =>
      let values := ntp_values oks in
      let best := best_cluster tolerance values values [] in
      if length best <? min_agree then Err GwNoQuorum else
      match merge_sort Z.le best !! (length best / 2) with
      | Some median => Ok (NtpResult median)
      | None => Err GwPanic
      end
  | GwHttp _ =>
      match last_longest (order (map_to_list (group_by_hash oks ∅))) None with
      | None => Err GwNoQuorum
      | Some group =>
          if length group <? min_agree then Err GwNoQuorum else
          match group with r :: _ => Ok r | [] => Err GwPanic end
      end
  end.

(** ** Resolution *)

Record RelayPeer := { rp_address : string; rp_peer_id : hash32 }.

(** What does not change while a query runs. *)
Record AppState := {
  identity : SigningKey; gateway_config : GatewayConfig;
  gateway_query_peers : list RelayPeer; gateway_relay_peers : list RelayPeer }.

(** What does: the cache, the rate limiter, how often time or randomness was
    drawn, and the requests sent so far, with the peer each went to. *)
Record gateway := Gw {
  gw_cache : GatewayCache; gw_limiter : RateLimiter; gw_ticks : nat;
  gw_sent : list (RelayPeer * GatewayRequest) }.

(** The outside: the wall clock in seconds, the monotonic clock in
    milliseconds, random nonces, the answer of a peer to a request with the
    round-trip time, and the upstream servers. *)
Class Outside := {
  wall_clock : nat → Z;
  monotonic : nat → Z;
  random_nonce : nat → bytes 32;
  post : RelayPeer → GatewayRequest → result string (GatewayResponse * Z);
  query_ntp : string → result NtpUpstreamError Z;
  fetch_http : string → bool → Z → result GatewayError GatewayResult;
  map_order : list (string * list GatewayResult) → list (string * list GatewayResult) }.

Context `{Out : Outside} (state : AppState).
Abbreviation gw := (ste gateway GatewayError).

Definition draw {A} (f : nat → A) : gw A := λ s,
  (Ok (f (gw_ticks s)), Gw (gw_cache s) (gw_limiter s) (S (gw_ticks s)) (gw_sent s)).
Definition send (peer : RelayPeer) (req : GatewayRequest) : gw (GatewayResponse * Z) := λ s,
  (map_err GwInternal (post peer req),
   Gw (gw_cache s) (gw_limiter s) (gw_ticks s) (gw_sent s ++ [(peer, req)])).
(** A call whose error is a value. *)
Definition attempt {A} (m : gw A) : gw (result GatewayError A) := λ s,
  let '(r, s) := m s in (Ok r, s).

Definition query_peer (peer : RelayPeer) (service : GatewayService) (hops : nat) (path : list string) :
    gw GatewayResult :=
  nonce ← draw random_nonce;
  t ← draw wall_clock;
  let request := build_and_sign_gateway_request (identity state) service nonce t hops path in
  '(resp, rtt) ← send peer request;
  now ← draw wall_clock;
  verified ← of_result (verify_gateway_response resp nonce now);
  if negb (bool_decide (verified = rp_peer_id peer)) then raise GwPeerIdKeyMismatch else
  mret (match gr_result (gr_unsigned resp) with
        | NtpResult t => NtpResult (wrap_i64 (t + Z.quot rtt 2))
        | other => other
        end).

(** The tasks of the fan-out run at once; each has its own request. *)
Fixpoint query_all (peers : list RelayPeer) (service : GatewayService) (hops : nat) :
    gw (list (result GatewayError GatewayResult)) :=
  match peers with
  | [] => mret []
  | p :: peers =>
      r ← attempt (query_peer p service hops []);
      rs ← query_all peers service hops;
      mret (r :: rs)
  end.
Definition fanout_and_verify (service : GatewayService) : gw GatewayResult :=
  let peers := gateway_query_peers state in
  let config := gateway_config state in
  let fanout_n := if fanout_count config =? 0 then length peers
                  else Nat.min (fanout_count config) (length peers) in
  outcomes ← query_all (take fanout_n peers) service (hops_remaining config);
  of_result (aggregate_quorum map_order service outcomes (ntp_tolerance_ms config) (quorum_min_agree config)).

Fixpoint try_relays (peers : list RelayPeer) (service : GatewayService) (hops : nat)
    (next_path : list string) : gw (option GatewayResult) :=
  match peers with
  | [] => mret None
  | p :: peers =>
      if bool_decide (PeerId_to_string (rp_peer_id p) ∈ next_path) then try_relays peers service hops next_path
      else
        r ← attempt (query_peer p service hops next_path);
        match r with
        | Ok result => mret (Some result)
        | Err _ => try_relays peers service hops next_path
        end
  end.
Definition relay_gateway_query (service : GatewayService) (hops : nat) (path : list string) :
    gw (option GatewayResult) :=
  match hops, gateway_relay_peers state with
  | O, _ => mret None
  | _, [] => mret None
  | S hops, peers => try_relays peers service hops (path ++ [peer_id_string (identity state)])
  end.

Fixpoint first_ntp (servers : list string) : result GatewayError Z :=
  match servers with
  | [] => Err (GwNtpUpstream "every configured upstream NTP server failed")
  | s :: servers => match query_ntp s with Ok t => Ok t | Err _ => first_ntp servers end
  end.
Definition resolve_directly (service : GatewayService) : result GatewayError (option GatewayResult) :=
  let config := gateway_config state in
  match service with
  | GwNtp =>
      match ntp_upstream_servers config with
      | [] => Ok None
      | servers => Some ∘ NtpResult <$> first_ntp servers
      end
  | GwHttp url =>
      if negb (http_allow_upstream config) then Ok None
      else Some <$> fetch_http url (http_allow_private_networks config) (http_max_response_bytes config)
  end.

Definition relayed (r : option GatewayResult) : gw (GatewayResult * ServedFrom) :=
  match r with Some result => mret (result, Relay) | None => raise GwCannotResolve end.

Definition resolve_gateway_query (service : GatewayService) (hops : nat) (path : list string) :
    gw (GatewayResult * ServedFrom) :=
  t ← draw monotonic;
  cached ← observe (λ s, cache_get t service (gw_cache s));
  match cached with
  | Some result => mret (result, Cache)
  | None =>
      match gateway_query_peers state with
      | _ :: _ =>
          verified ← fanout_and_verify service;
          let ttl := compute_cache_ttl service verified (gateway_config state) in
          t ← draw monotonic;
          _ ← effect (λ s, Gw (cache_put t service verified ttl (gw_cache s)) (gw_limiter s) (gw_ticks s) (gw_sent s));
          mret (verified, Quorum)
      | [] =>
          match resolve_directly service with
          | Ok (Some result) => mret (result, Origin)
          | _ => r ← relay_gateway_query service hops path; relayed r
          end
      end
  end.

Definition resolve_for_front_end (service : GatewayService) : gw GatewayResult :=
  r ← resolve_gateway_query service (hops_remaining (gateway_config state)) []; mret r.1.

Definition require_quorum_capable : bool :=
  negb (length (gateway_query_peers state) <? quorum_min_agree (gateway_config state)).

(** [POST /oag/gateway/v1/query]. *)
Definition query_inner (req : GatewayRequest) : gw GatewayResponse :=
  now ← draw wall_clock;
  '(requester, nonce) ← of_result (verify_gateway_request req now);
  t ← draw monotonic;
  allowed ← (λ s, let '(b, l) := check t (PeerId_to_string requester) (gw_limiter s) in
                  (Ok b, Gw (gw_cache s) l (gw_ticks s) (gw_sent s)));
  if negb allowed then raise GwRateLimited else
  let u := gq_unsigned req in
  '(result, served_from) ← resolve_gateway_query (gq_service u) (gq_hops_remaining u) (gq_path u);
  now ← draw wall_clock;
  mret (build_and_sign_gateway_response (identity state) result nonce now served_from).
End gateway.
