(* ===== verification/Transfer.v ===== *)
(** * Transfers with receipts

    [oag-api/src/transfer.rs]: a peer fetches pinned content from another; the
    request and the receipt are signed and bound together by two nonces, both
    sides record the transfer in their graphs, and a server that does not have
    the content may relay the request.  HTTP, the pinning provider, the clock
    and the random bytes are parameters. *)

From S2P Require Import Prelude Core Envelope Store Projector EventLog Service Presence Graph.
From S2P Require Import RateLimit Bytes Ntp Signed Gateway Scenario.

Definition SENT_TO_PREDICATE : string := "sent_to".

Record UnsignedTransferRequest := {
  tq_cid : string; tq_client_peer_id : string; tq_client_public_key : string;
  tq_client_nonce : string; tq_requested_at : Z;
  tq_relay_hops_remaining : nat;  (** a [u8] *)
  tq_relay_path : list string }.
Record TransferRequest := { tq_unsigned : UnsignedTransferRequest; tq_signature : string }.
Record UnsignedTransferReceipt := {
  tr_cid : string; tr_server_peer_id : string; tr_server_public_key : string;
  tr_client_nonce : string; tr_server_nonce : string; tr_content_hash : string;
  tr_receipt_hash : string; tr_served_at : Z }.
Record TransferReceipt := { tr_unsigned : UnsignedTransferReceipt; tr_server_signature : string }.

(** [oag_ipfs::IpfsError], its other variants as text. *)
Inductive IpfsError := IpfsDisabled | IpfsFailed (e : string).

Inductive TransferError :=
  | TPeerId (e : PeerIdParseError)
  | TInvalidPublicKey
  | TPeerIdKeyMismatch
  | TInvalidNonce
  | TBadSignatureEncoding
  | TBadSignature
  | TReceiptMismatch
  | TClockSkew
  | TProviderDisabled
  | TIpfs (e : IpfsError)
  | TRateLimited
  | TGraph (e : GraphError)
  | TInternal (e : string)
  | TRelayFailed.

(** [IntoResponse]. *)
Definition transfer_status (e : TransferError) : Z :=
  match e with
  | TPeerId _ | TInvalidPublicKey | TPeerIdKeyMismatch | TInvalidNonce | TBadSignatureEncoding
  | TBadSignature | TReceiptMismatch | TClockSkew => 401
  | TProviderDisabled => 503
  | TIpfs _ => 404
  | TRelayFailed => 502
  | TRateLimited => 429
  | TGraph _ | TInternal _ => 500
  end.

(** Canonical JSON of the two (they always serialize), and the receipt in its
    header. *)
Class TransferCodec := {
  canonical_transfer_request : UnsignedTransferRequest → string;
  canonical_transfer_receipt : UnsignedTransferReceipt → string;
  receipt_to_string : TransferReceipt → result string string;
  receipt_from_str : string → result string TransferReceipt }.

Section transfer.
Context `{P : Platform} `{C : Codec} `{GP : GraphPlatform} `{TC : TransferCodec}.

(** ** Requests and receipts *)

Definition transfer_rejects : reject TransferError :=
  Reject TPeerId TInvalidPublicKey TPeerIdKeyMismatch TBadSignatureEncoding TBadSignature.

Definition build_and_sign_request (identity : SigningKey) (cid : string) (client_nonce : bytes 32)
    (requested_at : Z) (hops : nat) (path : list string) : TransferRequest :=
  let unsigned := {| tq_cid := cid; tq_client_peer_id := peer_id_string identity;
    tq_client_public_key := public_key_hex identity; tq_client_nonce := hex_encode (raw client_nonce);
    tq_requested_at := requested_at; tq_relay_hops_remaining := hops; tq_relay_path := path |} in
  {| tq_unsigned := unsigned;
     tq_signature := sign_hex identity TRANSFER_REQUEST_DOMAIN (canonical_transfer_request unsigned) |}.

Definition verify_request (req : TransferRequest) (now : Z) : result TransferError (hash32 * bytes 32) :=
  let u := tq_unsigned req in
  '(peer_id, key) ← check_signer transfer_rejects (tq_client_peer_id u) (tq_client_public_key u);
  _ ← check_signature transfer_rejects key TRANSFER_REQUEST_DOMAIN (canonical_transfer_request u) (tq_signature req);
  if skewed (tq_requested_at u) now then Err TClockSkew else
  client_nonce ← ok_or (decode_32 (tq_client_nonce u)) TInvalidNonce;
  Ok (peer_id, client_nonce).

Definition build_and_sign_receipt (identity : SigningKey) (cid : string)
    (client_nonce server_nonce : bytes 32) (content_hash : string) (served_at : Z) : TransferReceipt :=
  let receipt_hash := mutual_receipt_hash client_nonce server_nonce content_hash in
  let unsigned := {| tr_cid := cid; tr_server_peer_id := peer_id_string identity;
    tr_server_public_key := public_key_hex identity; tr_client_nonce := hex_encode (raw client_nonce);
    tr_server_nonce := hex_encode (raw server_nonce); tr_content_hash := content_hash;
    tr_receipt_hash := receipt_hash; tr_served_at := served_at |} in
  {| tr_unsigned := unsigned;
     tr_server_signature := sign_hex identity TRANSFER_RECEIPT_DOMAIN (canonical_transfer_receipt unsigned) |}.

Definition verify_receipt (receipt : TransferReceipt) (expected_cid : string)
    (expected_client_nonce : bytes 32) (now : Z) : result TransferError hash32 :=
  let u := tr_unsigned receipt in
  if negb (bool_decide (tr_cid u = expected_cid)) then Err TReceiptMismatch else
  if negb (bool_decide (decode_32 (tr_client_nonce u) = Some expected_client_nonce)) then Err TReceiptMismatch else
  '(peer_id, key) ← check_signer transfer_rejects (tr_server_peer_id u) (tr_server_public_key u);
  _ ← check_signature transfer_rejects key TRANSFER_RECEIPT_DOMAIN (canonical_transfer_receipt u) (tr_server_signature receipt);
  if skewed (tr_served_at u) now then Err TClockSkew else
  server_nonce ← ok_or (decode_32 (tr_server_nonce u)) TInvalidNonce;
  if negb (bool_decide (mutual_receipt_hash expected_client_nonce server_nonce (tr_content_hash u) = tr_receipt_hash u))
  then Err TReceiptMismatch else Ok peer_id.

(** ** Recording a transfer in the graph *)

Context (clock : nat → Z).

Definition graph {A} (m : ste service GraphError A) : ste service TransferError A := λ s,
  let '(r, s) := m s in (map_err TGraph r, s).

(** [json!({ .. })], with [relayed_via] when there is one. *)
Definition receipt_metadata (byte_size : Z) (peer_role : string) (counterparty : hash32)
    (client_nonce_hex server_nonce_hex receipt_hash : string) (relayed_via : option hash32) : json :=
  let fields := [("protocol", Str "oag-transfer-v1"); ("byte_size", PosInt byte_size);
    ("peer_role", Str peer_role); ("counterparty_peer_id", Str (PeerId_to_string counterparty));
    ("client_nonce", Str client_nonce_hex); ("server_nonce", Str server_nonce_hex);
    ("receipt_hash", Str receipt_hash)] ++
    match relayed_via with Some via => [("relayed_via", Str (PeerId_to_string via))] | None => [] end in
  Object (foldl (λ m kv, map_insert kv.1 kv.2 m) [] fields).

Definition record_transfer (local_identity : SigningKey) (server_peer_id client_peer_id : hash32)
    (cid : string) (byte_size : Z) (client_nonce_hex server_nonce_hex content_hash receipt_hash : string)
    (peer_role : string) (served_at : Z) (method : ExtractionMethod) (relayed_via : option hash32) :
    ste service TransferError hash32 :=
  proof ← of_result (map_err TGraph (sign_actor_key_proof local_identity PeerActor None None));
  actor_id ← graph (declare_actor local_identity clock PeerActor None None (Some proof));
  let auth := {| auth_actor_id := actor_id; auth_permissions := [GraphAssert] |} in
  let counterparty := if bool_decide (peer_role = "server") then client_peer_id else server_peer_id in
  assertion_id ← graph (assert_ local_identity clock auth {|
    in_subject := "peer:" +:+ PeerId_to_string server_peer_id; in_subject_type := Some "peer";
    in_predicate := SENT_TO_PREDICATE;
    in_object := "peer:" +:+ PeerId_to_string client_peer_id; in_object_type := Some "peer";
    in_evidence := []; in_actor_confidence := None; in_asserted_observed_at := Some served_at;
    in_extraction_method := Some method |});
  _ ← graph (add_evidence local_identity clock auth assertion_id {|
    in_evidence_type := Some "service_receipt"; in_uri := None; in_title := None; in_excerpt := None;
    in_content_hash := Some content_hash; in_observed_at := Some served_at; in_retrieved_at := None;
    in_pinned_cid := Some cid;
    in_metadata := Some (receipt_metadata byte_size peer_role counterparty client_nonce_hex
                           server_nonce_hex receipt_hash relayed_via) |});
  mret assertion_id.

(** ** Fetching from another peer *)

(** A response of [POST /oag/transfer/v1/fetch]: whether its status is a
    success, the receipt header if it is there (or why it is not text), and
    the body (or the transport error). *)
Record http_response := {
  hr_success : bool; hr_receipt : option (result string string); hr_body : result string string }.
Record VerifiedFetch := {
  vf_content : string; vf_content_hash : string; vf_receipt_hash : string; vf_server_peer_id : hash32 }.

(** The outside of one node: HTTP, the pinning provider ([None]: none is
    configured), random bytes and the monotonic clock. *)
Class TransferOutside := {
  post_fetch : string → TransferRequest → result string http_response;
  provider_fetch : option (string → result IpfsError string);
  random_bytes : nat → bytes 32;
  instant : nat → Z }.
Context `{TO : TransferOutside}.

(** [fetch_and_verify] up to its writes: what it checks, and with what.  The
    clock has been read for the request ([t]) and for the receipt ([now]). *)
Definition receive_checked (response : result string http_response) (expected : hash32) (cid : string)
    (client_nonce : bytes 32) (now : Z) : result TransferError (TransferReceipt * string * string) :=
  response ← map_err TInternal response;
  if negb (hr_success response) then Err (TInternal "relay request answered an error") else
  header ← ok_or (hr_receipt response) (TInternal "response missing x-oag-transfer-receipt header");
  text ← map_err TInternal header;
  receipt ← map_err TInternal (receipt_from_str text);
  content ← map_err TInternal (hr_body response);
  let content_hash := blake3_content_hash content in
  if negb (bool_decide (content_hash = tr_content_hash (tr_unsigned receipt))) then Err TReceiptMismatch else
  verified ← verify_receipt receipt cid client_nonce now;
  if negb (bool_decide (verified = expected)) then Err TPeerIdKeyMismatch
  else Ok (receipt, content, content_hash).

Definition fetch_and_verify (local_identity : SigningKey) (address : string) (expected : hash32)
    (cid : string) (hops : nat) (path : list string) : ste service TransferError VerifiedFetch :=
  client_nonce ← observe (λ s, random_bytes (ticks s));
  t ← read_clock clock;
  let request := build_and_sign_request local_identity cid client_nonce t hops path in
  now ← read_clock clock;
  '(receipt, content, content_hash) ←
    of_result (receive_checked (post_fetch address request) expected cid client_nonce now);
  let u := tr_unsigned receipt in
  _ ← record_transfer local_identity expected (identity_peer_id local_identity) cid
        (Z.of_nat (String.length content)) (hex_encode (raw client_nonce)) (tr_server_nonce u)
        content_hash (tr_receipt_hash u) "client" (tr_served_at u) Verification None;
  mret {| vf_content := content; vf_content_hash := content_hash;
          vf_receipt_hash := tr_receipt_hash u; vf_server_peer_id := expected |}.

(** ** Serving *)

Context (local_identity : SigningKey) (relay_peers : list RelayPeer).

Definition attempt_fetch {A} (m : ste service TransferError A) :
    ste service TransferError (result TransferError A) := λ s, let '(r, s) := m s in (Ok r, s).

Fixpoint try_relay_peers (peers : list RelayPeer) (cid : string) (hops : nat) (next_path : list string) :
    ste service TransferError (option VerifiedFetch) :=
  match peers with
  | [] => mret None
  | p :: peers =>
      if bool_decide (PeerId_to_string (rp_peer_id p) ∈ next_path) then try_relay_peers peers cid hops next_path
      else
        r ← attempt_fetch (fetch_and_verify local_identity (rp_address p) (rp_peer_id p) cid hops next_path);
        match r with
        | Ok verified => mret (Some verified)
        | Err _ => try_relay_peers peers cid hops next_path
        end
  end.
Definition relay_fetch (req : TransferRequest) : ste service TransferError (option VerifiedFetch) :=
  let u := tq_unsigned req in
  match tq_relay_hops_remaining u, relay_peers with
  | 0, _ => mret None
  | _, [] => mret None
  | S hops, peers => try_relay_peers peers (tq_cid u) hops (tq_relay_path u ++ [peer_id_string local_identity])
  end.

(** The state of the endpoint: the service and its rate limiter. *)
Definition served := (service * RateLimiter)%type.
Definition on_service {A} (m : ste service TransferError A) : ste served TransferError A := λ s,
  let '(r, s') := m s.1 in (r, (s', s.2)).

(** What is served: the content, and who it was relayed from. *)
Definition obtain (req : TransferRequest) : ste service TransferError (string * option hash32) :=
  let u := tq_unsigned req in
  provider ← of_result (ok_or provider_fetch TProviderDisabled);
  match provider (tq_cid u) with
  | Ok bytes => mret (bytes, None)
  | Err IpfsDisabled => raise TProviderDisabled
  | Err local_err =>
      r ← relay_fetch req;
      match r with
      | Some verified => mret (vf_content verified, Some (vf_server_peer_id verified))
      | None =>
          if bool_decide (relay_peers = []) || (tq_relay_hops_remaining u =? 0)
          then raise (TIpfs local_err) else raise TRelayFailed
      end
  end.

Definition fetch_with_receipt_inner (req : TransferRequest) :
    ste served TransferError (TransferReceipt * string) :=
  let u := tq_unsigned req in
  now ← on_service (read_clock clock);
  '(client_peer_id, client_nonce) ← of_result (verify_request req now);
  allowed ← (λ s : served, let '(b, l) := check (instant (ticks s.1)) (PeerId_to_string client_peer_id) s.2 in
                           (Ok b, (s.1, l)));
  if negb allowed then raise TRateLimited else
  '(content, relayed_via) ← on_service (obtain req);
  let content_hash := blake3_content_hash content in
  server_nonce ← observe (λ s : served, random_bytes (ticks s.1));
  let receipt := build_and_sign_receipt local_identity (tq_cid u) client_nonce server_nonce content_hash now in
  let r := tr_unsigned receipt in
  _ ← on_service (record_transfer local_identity (identity_peer_id local_identity) client_peer_id
        (tq_cid u) (Z.of_nat (String.length content)) (tq_client_nonce u) (hex_encode (raw server_nonce))
        content_hash (tr_receipt_hash r) "server" (tr_served_at r) Direct relayed_via);
  _ ← of_result (map_err TInternal (receipt_to_string receipt));
  mret (receipt, content).
End transfer.

(** ** What checks mean *)

Section facts.
Context `{P : Platform} `{L : !PlatformLaws P} `{C : Codec} `{GP : GraphPlatform} `{TC : TransferCodec}.
Context `{TO : TransferOutside}.

Lemma verify_request_vouched req now client nonce :
  verify_request req now = Ok (client, nonce) →
  let u := tq_unsigned req in
  vouched TRANSFER_REQUEST_DOMAIN (canonical_transfer_request u) (tq_client_peer_id u) (tq_client_public_key u)
    (tq_signature req) client ∧
  decode_32 (tq_client_nonce u) = Some nonce ∧ skewed (tq_requested_at u) now = false.
Proof.
  intros H u. unfold verify_request in H. apply result_bind_ok in H as ([id key] & Hs & H).
  apply result_bind_ok in H as (? & Hg & H). destruct (skewed _ _) eqn:Hsk; [done|].
  apply result_bind_ok in H as (n & Hn%ok_or_ok & [= -> ->]).
  pose proof (checks_vouched _ _ _ _ _ _ _ _ _ Hs Hg). done.
Qed.

Lemma verify_receipt_vouched receipt cid nonce now id :
  let u := tr_unsigned receipt in
  verify_receipt receipt cid nonce now = Ok id →
  vouched TRANSFER_RECEIPT_DOMAIN (canonical_transfer_receipt u) (tr_server_peer_id u) (tr_server_public_key u)
    (tr_server_signature receipt) id ∧ tr_cid u = cid ∧
  decode_32 (tr_client_nonce u) = Some nonce ∧ skewed (tr_served_at u) now = false ∧
  ∃ server_nonce, decode_32 (tr_server_nonce u) = Some server_nonce ∧
    tr_receipt_hash u = mutual_receipt_hash nonce server_nonce (tr_content_hash u).
Proof.
  intros u. unfold verify_receipt. fold u.
  destruct (negb _) eqn:Hc; [done|]. apply negb_false_iff, bool_decide_eq_true in Hc.
  destruct (negb (bool_decide (decode_32 _ = _))) eqn:Hn; [done|].
  apply negb_false_iff, bool_decide_eq_true in Hn. intros H.
  apply result_bind_ok in H as ([id' key] & Hs & H). apply result_bind_ok in H as (? & Hg & H).
  destruct (skewed _ _) eqn:Hsk; [done|]. apply result_bind_ok in H as (snonce & Hsn%ok_or_ok & H).
  destruct (negb _) eqn:Hm; [done|]. injection H as ->.
  apply negb_false_iff, bool_decide_eq_true in Hm.
  pose proof (checks_vouched _ _ _ _ _ _ _ _ _ Hs Hg). split_and!; [done..|]. by exists snonce.
Qed.

(** What the client has checked of what came back. *)
Lemma received_checked response expected cid nonce now receipt content hash :
  receive_checked response expected cid nonce now = Ok (receipt, content, hash) →
  ∃ resp text, response = Ok resp ∧
    (hr_success resp = true ∧ hr_receipt resp = Some (Ok text) ∧ receipt_from_str text = Ok receipt ∧
     hr_body resp = Ok content) ∧
    tr_content_hash (tr_unsigned receipt) = blake3_content_hash content ∧
    (let u := tr_unsigned receipt in
     vouched TRANSFER_RECEIPT_DOMAIN (canonical_transfer_receipt u) (tr_server_peer_id u) (tr_server_public_key u)
       (tr_server_signature receipt) expected ∧ tr_cid u = cid ∧
     decode_32 (tr_client_nonce u) = Some nonce ∧ skewed (tr_served_at u) now = false ∧
     ∃ server_nonce, decode_32 (tr_server_nonce u) = Some server_nonce ∧
       tr_receipt_hash u = mutual_receipt_hash nonce server_nonce (tr_content_hash u)) ∧
    hash = blake3_content_hash content.
Proof.
  intros Hr. unfold receive_checked in Hr.
  apply result_bind_ok in Hr as (resp & Hresp%map_err_ok & Hr). destruct (negb (hr_success _)) eqn:Hs; [done|].
  apply negb_false_iff in Hs.
  apply result_bind_ok in Hr as (header & Hheader%ok_or_ok & Hr). apply result_bind_ok in Hr as (text & Ht%map_err_ok & Hr).
  apply result_bind_ok in Hr as (receipt' & Hp%map_err_ok & Hr). apply result_bind_ok in Hr as (content' & Hb%map_err_ok & Hr).
  destruct (negb _) eqn:Hh; [done|]. apply negb_false_iff, bool_decide_eq_true in Hh.
  apply result_bind_ok in Hr as (id & Hv & Hr). destruct (negb _) eqn:Hid; [done|].
  apply negb_false_iff, bool_decide_eq_true in Hid. injection Hr as -> -> <-. subst id header.
  apply verify_receipt_vouched in Hv. by exists resp, text.
Qed.

Lemma receipt_verifies sk cid nonce server_nonce hash served now :
  skewed served now = false →
  verify_receipt (build_and_sign_receipt sk cid nonce server_nonce hash served) cid nonce now
    = Ok (identity_peer_id sk).
Proof.
  intros Hsk. unfold verify_receipt, build_and_sign_receipt.
  cbn [tr_unsigned tr_server_signature tr_cid tr_client_nonce tr_server_peer_id tr_server_public_key
       tr_served_at tr_server_nonce tr_content_hash tr_receipt_hash].
  rewrite !bool_decide_true by (done || apply decode_hex_encode). cbn [negb].
  rewrite check_signer_own. cbn [mbind result_bind]. rewrite check_signature_own. cbn [mbind result_bind].
  rewrite Hsk. unfold decode_32. rewrite decode_hex_encode. cbn [ok_or mbind result_bind].
  by rewrite bool_decide_true.
Qed.
End facts.

(** ** Properties *)

Section properties.
Context `{P : Platform} `{L : !PlatformLaws P} `{C : Codec} `{GP : GraphPlatform} `{TC : TransferCodec}.
Context `{TO : TransferOutside} (clock : nat → Z).

(** C38: Both ends of a transfer agree and check what they should.  What a server
    hands out answers a request that its client vouched for, that was fresh
    when it arrived and that its rate limiter let through; the receipt is the
    server's, over the content asked for, the client's nonce, its own and the
    hash of the bytes; and within five minutes it passes all the checks of the
    client that sent the request.  A client that has written anything to its
    graph has posted its own request, under its new nonce, and got an answer
    whose receipt the expected server vouched for, fresh, over the content
    asked for, the nonce just sent and the hash of the bytes received, with the
    receipt hash of both nonces; otherwise its database is as before. *)
Theorem transfer_exchange sk relays req s :
  (∀ receipt content s', fetch_with_receipt_inner clock sk relays req s = (Ok (receipt, content), s') →
     let u := tq_unsigned req in
     let now := clock (ticks s.1) in
     ∃ client nonce server_nonce,
       vouched TRANSFER_REQUEST_DOMAIN (canonical_transfer_request u) (tq_client_peer_id u) (tq_client_public_key u)
         (tq_signature req) client ∧
       decode_32 (tq_client_nonce u) = Some nonce ∧ skewed (tq_requested_at u) now = false ∧
       (check (instant (S (ticks s.1))) (PeerId_to_string client) s.2).1 = true ∧
       receipt = build_and_sign_receipt sk (tq_cid u) nonce server_nonce (blake3_content_hash content) now ∧
       ∀ text later, receipt_to_string receipt = Ok text → receipt_from_str text = Ok receipt →
         is_i64 now → (0 ≤ later < 2 ^ 62)%Z → (Z.abs (now - later) ≤ 300)%Z →
         receive_checked (Ok {| hr_success := true; hr_receipt := Some (Ok text); hr_body := Ok content |})
           (identity_peer_id sk) (tq_cid u) nonce later
         = Ok (receipt, content, blake3_content_hash content)) ∧
  (∀ address expected cid hops path s, let '(r, s') := fetch_and_verify clock sk address expected cid hops path s in
     let nonce := random_bytes (ticks s) in
     let request := build_and_sign_request sk cid nonce (clock (ticks s)) hops path in
     (store s' = store s ∧ ∃ e, r = Err e) ∨
     ∃ response text receipt content, let u := tr_unsigned receipt in
       (post_fetch address request = Ok response ∧ hr_success response = true ∧
        hr_receipt response = Some (Ok text) ∧ receipt_from_str text = Ok receipt ∧ hr_body response = Ok content) ∧
       vouched TRANSFER_RECEIPT_DOMAIN (canonical_transfer_receipt u) (tr_server_peer_id u) (tr_server_public_key u)
         (tr_server_signature receipt) expected ∧
       tr_cid u = cid ∧ tr_content_hash u = blake3_content_hash content ∧
       decode_32 (tr_client_nonce u) = Some nonce ∧ skewed (tr_served_at u) (clock (S (ticks s))) = false ∧
       (∃ server_nonce, decode_32 (tr_server_nonce u) = Some server_nonce ∧
          tr_receipt_hash u = mutual_receipt_hash nonce server_nonce (blake3_content_hash content)) ∧
       ∀ v, r = Ok v → v = {| vf_content := content; vf_content_hash := blake3_content_hash content;
         vf_receipt_hash := tr_receipt_hash u; vf_server_peer_id := expected |}).
Proof.
  split.
  - intros receipt content s' H u now. unfold fetch_with_receipt_inner in H.
    apply ste_bind_ok in H as (now' & s1 & [= <- <-] & H). fold now in H.
    apply ste_bind_ok in H as ([client nonce] & s2 & [= Hv <-] & H).
    apply verify_request_vouched in Hv as (Hv & Hn & Hsk).
    apply ste_bind_ok in H as (allowed & s3 & Hcheck & H). cbn [ticks fst snd] in Hcheck.
    destruct (check _ _ _) as [b l] eqn:Hb. injection Hcheck as <- _. destruct b; [|done].
    apply ste_bind_ok in H as ([bytes via] & s4 & _ & H).
    apply ste_bind_ok in H as (server_nonce & s5 & _ & H).
    apply ste_bind_ok in H as (? & s6 & _ & H). apply ste_bind_ok in H as (? & s7 & _ & H).
    injection H as <- <- _. exists client, nonce, server_nonce. split_and!; [done|done|done|by rewrite Hb|done|].
    intros text later _ Hparse Hi Hnow Hd. unfold receive_checked.
    cbn [map_err mbind result_bind hr_success hr_receipt hr_body negb ok_or].
    rewrite Hparse. cbn [map_err mbind result_bind].
    cbn [build_and_sign_receipt tr_unsigned tr_content_hash]. rewrite bool_decide_true by done. cbn [negb].
    rewrite receipt_verifies by (apply skewed_spec; [exact Hi|done|by left]).
    cbn [mbind result_bind]. by rewrite bool_decide_true.
  - clear req s. intros address expected cid hops path s. unfold fetch_and_verify.
    cbv [mbind ste_bind observe read_clock of_result]. cbn [store ticks].
    destruct (receive_checked _ _ _ _ _) as [[[receipt content] hash]|e] eqn:Hr;
      [|left; split; [done|by exists e]].
    apply received_checked in Hr as (response & text & Hpost & Hok & Hh & (Hv & Hcid & Hn & Hsk & (server_nonce & Hsn & Hm)) & ->).
    rewrite Hh in Hm.
    destruct (record_transfer _ _ _ _ _ _ _ _ _ _ _ _ _ _ _) as [[id|e] s']; cbn.
    all: right; exists response, text, receipt, content.
    all: destruct Hok as (? & ? & ? & ?); cbv zeta; split_and!; try done; try (by exists server_nonce).
    by intros v [= <-].
Qed.
End properties.

(** ** Witness: bob fetches ten bytes from alice *)

Section witnesses.
#[local] Existing Instance Toy.platform.
#[local] Existing Instance demo_codec.
#[local] Existing Instance ToyGraph.plain_urls.

Definition bob_nonce : bytes 32 := toy_key "bob's nonce".
Definition alice_receipt `{TransferCodec} : TransferReceipt :=
  build_and_sign_receipt alice "bafy" bob_nonce (toy_key "alice's nonce") (blake3_content_hash "ten bytes!") 100.
#[local] Instance toy_transfer : TransferCodec := {|
  canonical_transfer_request := tq_client_nonce;
  canonical_transfer_receipt := λ u, tr_client_nonce u +:+ tr_server_nonce u +:+ tr_content_hash u;
  receipt_to_string := λ _, Ok "receipt";
  receipt_from_str := λ _, Ok (@alice_receipt {|
    canonical_transfer_request := tq_client_nonce;
    canonical_transfer_receipt := λ u, tr_client_nonce u +:+ tr_server_nonce u +:+ tr_content_hash u;
    receipt_to_string := λ _, Ok ""; receipt_from_str := λ _, Err "" |}) |}.
#[local] Instance toy_outside : TransferOutside := {|
  post_fetch := λ _ _, Err "down"; provider_fetch := Some (λ _, Ok "ten bytes!");
  random_bytes := λ _, toy_key "alice's nonce"; instant := Z.of_nat |}.

Definition bob_request : TransferRequest := build_and_sign_request bob "bafy" bob_nonce 90 0 [].
Definition alice_start : served := (Svc empty_db 0, RateLimiter_default).
Definition seconds (n : nat) : Z := 100 + Z.of_nat n.
Definition alice_served := fetch_with_receipt_inner seconds alice [] bob_request alice_start.
Lemma served_run : alice_served = (Ok (alice_receipt, "ten bytes!"), alice_served.2).
Proof.
  assert (∀ x : result TransferError (TransferReceipt * string) * served,
    x.1 = Ok (alice_receipt, "ten bytes!") → x = (Ok (alice_receipt, "ten bytes!"), x.2)) as H
    by (by intros [r s] [= ->]).
  apply H. vm_compute. reflexivity.
Qed.
(** Alice answers bob's request, which passes his checks; asked again with a
    timestamp of an hour ago she refuses. *)
Definition stale_request : TransferRequest := build_and_sign_request bob "bafy" bob_nonce (-3500) 0 [].
Lemma transfer_exchange_witness :
  (∃ nonce, decode_32 (tq_client_nonce (tq_unsigned bob_request)) = Some nonce ∧
    receive_checked (Ok {| hr_success := true; hr_receipt := Some (Ok "receipt"); hr_body := Ok "ten bytes!" |})
      (identity_peer_id alice) "bafy" nonce 101
    = Ok (alice_receipt, "ten bytes!", blake3_content_hash "ten bytes!")) ∧
  (fetch_with_receipt_inner seconds alice [] stale_request alice_start).1 = Err TClockSkew.
Proof.
  split; [|vm_compute; reflexivity].
  destruct (@transfer_exchange Toy.platform Toy.laws demo_codec ToyGraph.plain_urls toy_transfer toy_outside
    seconds alice [] bob_request alice_start) as [H _].
  destruct (H _ _ _ served_run) as (client & nonce & server_nonce & _ & Hn & _ & _ & _ & Hr). exists nonce. split; [exact Hn|].
  apply (Hr "receipt" 101%Z eq_refl eq_refl); [vm_compute; split; congruence..|vm_compute; congruence].
Defined.
End witnesses.
