(* ===== verification/Ssrf.v ===== *)
(** * Addresses the crawler must not contact

    [oag-crawler/src/ssrf.rs], on addresses as Rust's standard library has
    them: four octets, or eight 16-bit segments. *)

From Stdlib Require Import Btauto.
From S2P Require Import Prelude.
#[local] Open Scope Z_scope.

Record Ipv4Addr := V4 { o0 : Z; o1 : Z; o2 : Z; o3 : Z }.
Record Ipv6Addr := V6 { s0 : Z; s1 : Z; s2 : Z; s3 : Z; s4 : Z; s5 : Z; s6 : Z; s7 : Z }.
Inductive IpAddr := IpV4 (v4 : Ipv4Addr) | IpV6 (v6 : Ipv6Addr).

(** ** The predicates of [std::net] *)

Definition is_loopback (a : Ipv4Addr) : bool := o0 a =? 127.
Definition is_private (a : Ipv4Addr) : bool :=
  (o0 a =? 10) || (o0 a =? 172) && ((16 <=? o1 a) && (o1 a <=? 31)) || (o0 a =? 192) && (o1 a =? 168).
Definition is_link_local (a : Ipv4Addr) : bool := (o0 a =? 169) && (o1 a =? 254).
Definition is_unspecified (a : Ipv4Addr) : bool :=
  (o0 a =? 0) && (o1 a =? 0) && (o2 a =? 0) && (o3 a =? 0).
Definition is_broadcast (a : Ipv4Addr) : bool :=
  (o0 a =? 255) && (o1 a =? 255) && (o2 a =? 255) && (o3 a =? 255).
Definition is_documentation (a : Ipv4Addr) : bool :=
  (o0 a =? 192) && (o1 a =? 0) && (o2 a =? 2) ||
  (o0 a =? 198) && (o1 a =? 51) && (o2 a =? 100) ||
  (o0 a =? 203) && (o1 a =? 0) && (o2 a =? 113).
Definition is_multicast (a : Ipv4Addr) : bool := (224 <=? o0 a) && (o0 a <=? 239).

Definition to_ipv4_mapped (a : Ipv6Addr) : option Ipv4Addr :=
  if (s0 a =? 0) && (s1 a =? 0) && (s2 a =? 0) && (s3 a =? 0) && (s4 a =? 0) && (s5 a =? 0xffff)
  then Some (V4 (Z.shiftr (s6 a) 8) (Z.land (s6 a) 0xff) (Z.shiftr (s7 a) 8) (Z.land (s7 a) 0xff))
  else None.
Definition is_zero_but_last (a : Ipv6Addr) (last : Z) : bool :=
  (s0 a =? 0) && (s1 a =? 0) && (s2 a =? 0) && (s3 a =? 0) && (s4 a =? 0) && (s5 a =? 0) &&
  (s6 a =? 0) && (s7 a =? last).
Definition is_loopback_v6 (a : Ipv6Addr) : bool := is_zero_but_last a 1.
Definition is_unspecified_v6 (a : Ipv6Addr) : bool := is_zero_but_last a 0.
Definition is_multicast_v6 (a : Ipv6Addr) : bool := Z.land (s0 a) 0xff00 =? 0xff00.

(** ** [ssrf.rs] *)

Definition is_unique_local_v6 (a : Ipv6Addr) : bool := Z.land (s0 a) 0xfe00 =? 0xfc00.
Definition is_unicast_link_local_v6 (a : Ipv6Addr) : bool := Z.land (s0 a) 0xffc0 =? 0xfe80.
Definition is_blocked_v4 (a : Ipv4Addr) : bool :=
  is_loopback a || is_private a || is_link_local a || is_unspecified a || is_broadcast a ||
  is_documentation a || is_multicast a || (o0 a =? 0).
Definition is_blocked_v6 (a : Ipv6Addr) : bool :=
  match to_ipv4_mapped a with
  | Some mapped => is_blocked_v4 mapped
  | None => is_loopback_v6 a || is_unspecified_v6 a || is_multicast_v6 a ||
            is_unique_local_v6 a || is_unicast_link_local_v6 a
  end.
Definition is_blocked_ip (ip : IpAddr) : bool :=
  match ip with IpV4 a => is_blocked_v4 a | IpV6 a => is_blocked_v6 a end.

(** ** The same as CIDR blocks *)

Definition value_v4 (a : Ipv4Addr) : Z := ((o0 a * 256 + o1 a) * 256 + o2 a) * 256 + o3 a.
Definition value_v6 (a : Ipv6Addr) : Z :=
  fold_left (λ v s, v * 65536 + s) [s0 a; s1 a; s2 a; s3 a; s4 a; s5 a; s6 a; s7 a] 0.
Definition octet (z : Z) : Prop := 0 ≤ z < 256.
Definition segment (z : Z) : Prop := 0 ≤ z < 65536.
Definition valid_v4 (a : Ipv4Addr) : Prop := octet (o0 a) ∧ octet (o1 a) ∧ octet (o2 a) ∧ octet (o3 a).
Definition valid_v6 (a : Ipv6Addr) : Prop :=
  segment (s0 a) ∧ segment (s1 a) ∧ segment (s2 a) ∧ segment (s3 a) ∧
  segment (s4 a) ∧ segment (s5 a) ∧ segment (s6 a) ∧ segment (s7 a).

(** The addresses of [width] bits whose first [len] bits are those of [base]. *)
Record block := Block { base : Z; prefix_len : Z }.
Definition in_block (width v : Z) (b : block) : bool :=
  Z.shiftr v (width - prefix_len b) =? Z.shiftr (base b) (width - prefix_len b).

(** [0.0.0.0/8], [10/8], [127/8], [169.254/16], [172.16/12], [192.168/16], the three
    documentation blocks, [224/4], and the broadcast address. *)
Definition blocked_v4 : list block :=
  [Block 0x00000000 8; Block 0x0a000000 8; Block 0x7f000000 8; Block 0xa9fe0000 16;
   Block 0xac100000 12; Block 0xc0a80000 16; Block 0xc0000200 24; Block 0xc6336400 24;
   Block 0xcb007100 24; Block 0xe0000000 4; Block 0xffffffff 32].
(** [::/128], [::1/128], [ff00::/8], [fc00::/7], [fe80::/10]. *)
Definition blocked_v6 : list block :=
  [Block 0 128; Block 1 128; Block (Z.shiftl 0xff00 112) 8; Block (Z.shiftl 0xfc00 112) 7;
   Block (Z.shiftl 0xfe80 112) 10].
(** [::ffff:0:0/96]. *)
Definition mapped_v6 : block := Block (Z.shiftl 0xffff 32) 96.

(** Blocks the IANA registries list as not globally reachable that the code
    lets through: shared address space [100.64/10], [192.0.0/24], benchmarking
    [198.18/15]; and IPv6 forms of other IPv4 addresses: NAT64 [64:ff9b::/96],
    6to4 [2002::/16]. *)
Definition unblocked_v4 : list block := [Block 0x64400000 10; Block 0xc0000000 24; Block 0xc6120000 15].
Definition unblocked_v6 : list block := [Block (Z.shiftl 0x0064ff9b 96) 96; Block (Z.shiftl 0x2002 112) 16].

(** ** Prefixes of the value *)

Lemma land_high x k n : 0 ≤ k ≤ n → 0 ≤ x < 2 ^ n → Z.land x (2 ^ n - 2 ^ k) = x / 2 ^ k * 2 ^ k.
Proof.
  intros Hk Hx. apply Z.bits_inj'. intros i Hi.
  rewrite Z.land_spec. replace (2 ^ n - 2 ^ k) with (Z.ones (n - k) * 2 ^ k)
    by (rewrite Z.ones_equiv, Z.mul_pred_l, <-Z.pow_add_r; [f_equal; f_equal; lia|lia|lia]).
  destruct (Z.ltb_spec i k).
  - rewrite !Z.mul_pow2_bits_low by lia. apply andb_false_r.
  - rewrite !Z.mul_pow2_bits by lia. rewrite Z.div_pow2_bits by lia.
    replace (i - k + k) with i by lia. destruct (Z.ltb_spec i n).
    + rewrite Z.ones_spec_low by lia. apply andb_true_r.
    + rewrite Z.ones_spec_high by lia. rewrite andb_false_r. symmetry.
      destruct (decide (x = 0)) as [->|Hne]; [apply Z.bits_0|].
      apply Z.bits_above_log2; [lia|]. assert (Z.log2 x < n) by (apply Z.log2_lt_pow2; lia). lia.
Qed.
Lemma land_eq x m k n c :
  0 ≤ k ≤ n → 0 ≤ x < 2 ^ n → m = 2 ^ n - 2 ^ k → (Z.land x m =? c * 2 ^ k) = (x / 2 ^ k =? c).
Proof.
  intros Hk Hx ->. rewrite land_high by lia. apply eq_true_iff_eq. rewrite !Z.eqb_eq.
  split; [apply Z.mul_cancel_r; lia|by intros ->].
Qed.

Lemma in_block_div width v b len : len ≤ width →
  in_block width v (Block b len) = (v / 2 ^ (width - len) =? b / 2 ^ (width - len)).
Proof. intros. unfold in_block. cbn. by rewrite !Z.shiftr_div_pow2 by lia. Qed.

Lemma value_v4_prefix a : valid_v4 a →
  value_v4 a / 2 ^ 28 = o0 a / 16 ∧ value_v4 a / 2 ^ 24 = o0 a ∧
  value_v4 a / 2 ^ 20 = o0 a * 16 + o1 a / 16 ∧ value_v4 a / 2 ^ 17 = o0 a * 128 + o1 a / 2 ∧
  value_v4 a / 2 ^ 22 = o0 a * 4 + o1 a / 64 ∧
  value_v4 a / 2 ^ 16 = o0 a * 256 + o1 a ∧
  value_v4 a / 2 ^ 8 = (o0 a * 256 + o1 a) * 256 + o2 a ∧ value_v4 a / 2 ^ 0 = value_v4 a.
Proof.
  unfold valid_v4, octet, value_v4. intros (H0 & H1 & H2 & H3).
  pose proof (Z.div_mod (o0 a) 16 ltac:(lia)). pose proof (Z.mod_pos_bound (o0 a) 16 ltac:(lia)).
  pose proof (Z.div_mod (o1 a) 16 ltac:(lia)). pose proof (Z.mod_pos_bound (o1 a) 16 ltac:(lia)).
  pose proof (Z.div_mod (o1 a) 2 ltac:(lia)). pose proof (Z.mod_pos_bound (o1 a) 2 ltac:(lia)).
  pose proof (Z.div_mod (o1 a) 64 ltac:(lia)). pose proof (Z.mod_pos_bound (o1 a) 64 ltac:(lia)).
  split_and!; symmetry; [..|by rewrite Z.div_1_r].
  - apply (Z.div_unique_pos _ _ _ (((o0 a mod 16 * 256 + o1 a) * 256 + o2 a) * 256 + o3 a)); lia.
  - apply (Z.div_unique_pos _ _ _ ((o1 a * 256 + o2 a) * 256 + o3 a)); lia.
  - apply (Z.div_unique_pos _ _ _ ((o1 a mod 16 * 256 + o2 a) * 256 + o3 a)); lia.
  - apply (Z.div_unique_pos _ _ _ ((o1 a mod 2 * 256 + o2 a) * 256 + o3 a)); lia.
  - apply (Z.div_unique_pos _ _ _ ((o1 a mod 64 * 256 + o2 a) * 256 + o3 a)); lia.
  - apply (Z.div_unique_pos _ _ _ (o2 a * 256 + o3 a)); lia.
  - apply (Z.div_unique_pos _ _ _ (o3 a)); lia.
Qed.

(** Evaluate the shift distances and the prefixes of the constant blocks. *)
Ltac constants :=
  repeat match goal with
  | |- context [Z.sub (Zpos ?x) (Zpos ?y)] =>
      let v := eval vm_compute in (Z.sub (Zpos x) (Zpos y)) in change (Z.sub (Zpos x) (Zpos y)) with v
  end;
  repeat match goal with
  | |- context [Z.div (Zpos ?x) (Z.pow 2 ?y)] =>
      let v := eval vm_compute in (Z.div (Zpos x) (Z.pow 2 y)) in
      change (Z.div (Zpos x) (Z.pow 2 y)) with v
  | |- context [Z.div Z0 (Z.pow 2 ?y)] => change (Z.div Z0 (Z.pow 2 y)) with Z0
  end.
(** A two- or three-octet prefix, octet by octet. *)
Lemma prefix2 x y c d : octet y → octet d → (x * 256 + y =? c * 256 + d) = (x =? c) && (y =? d).
Proof. unfold octet. intros. apply eq_true_iff_eq. rewrite andb_true_iff, !Z.eqb_eq. lia. Qed.
Ltac octets := unfold octet; lia.

Lemma blocked_v4_ranges a :
  valid_v4 a → is_blocked_v4 a = existsb (in_block 32 (value_v4 a)) blocked_v4.
Proof.
  intros Ha. destruct (value_v4_prefix a Ha) as (H28 & H24 & H20 & _ & _ & H16 & H8 & H0).
  unfold blocked_v4. cbn [existsb]. rewrite !in_block_div by lia. constants.
  rewrite H28, H24, H20, H16, H8, H0. clear H28 H24 H20 H16 H8 H0.
  destruct Ha as (H0 & H1 & H2 & H3).
  change 43518 with (169 * 256 + 254). change 49320 with (192 * 256 + 168).
  change 12582914 with ((192 * 256 + 0) * 256 + 2). change 12989284 with ((198 * 256 + 51) * 256 + 100).
  change 13303921 with ((203 * 256 + 0) * 256 + 113).
  change 4294967295 with (((255 * 256 + 255) * 256 + 255) * 256 + 255). unfold value_v4.
  rewrite !prefix2 by (done || octets).
  assert ((o0 a * 16 + o1 a / 16 =? 2753) = (o0 a =? 172) && ((16 <=? o1 a) && (o1 a <=? 31))) as ->.
  { unfold octet in *. pose proof (Z.div_mod (o1 a) 16 ltac:(lia)). pose proof (Z.mod_pos_bound (o1 a) 16 ltac:(lia)).
    apply eq_true_iff_eq. rewrite !andb_true_iff, !Z.eqb_eq, !Z.leb_le. lia. }
  assert ((o0 a / 16 =? 14) = (224 <=? o0 a) && (o0 a <=? 239)) as ->.
  { unfold octet in *. pose proof (Z.div_mod (o0 a) 16 ltac:(lia)). pose proof (Z.mod_pos_bound (o0 a) 16 ltac:(lia)).
    apply eq_true_iff_eq. rewrite !andb_true_iff, !Z.eqb_eq, !Z.leb_le. lia. }
  unfold is_blocked_v4, is_loopback, is_private, is_link_local, is_unspecified, is_broadcast,
    is_documentation, is_multicast. btauto.
Qed.

Definition high_v6 (a : Ipv6Addr) : Z := fold_left (λ v s, v * 65536 + s) [s0 a; s1 a; s2 a; s3 a; s4 a; s5 a] 0.
Lemma value_v6_high a : value_v6 a = (high_v6 a * 65536 + s6 a) * 65536 + s7 a.
Proof. reflexivity. Qed.
Lemma segments2 x y c d : segment y → segment d → (x * 65536 + y =? c * 65536 + d) = (x =? c) && (y =? d).
Proof. unfold segment. intros. apply eq_true_iff_eq. rewrite andb_true_iff, !Z.eqb_eq. lia. Qed.

Lemma value_v6_prefix a : valid_v6 a →
  value_v6 a / 2 ^ 112 = s0 a ∧ value_v6 a / 2 ^ 32 = high_v6 a ∧ value_v6 a mod 2 ^ 32 = s6 a * 65536 + s7 a.
Proof.
  unfold valid_v6, segment. intros (H0 & H1 & H2 & H3 & H4 & H5 & H6 & H7). split_and!; symmetry.
  - apply (Z.div_unique_pos _ _ _ (fold_left (λ v s, v * 65536 + s) [s1 a; s2 a; s3 a; s4 a; s5 a; s6 a; s7 a] 0));
      cbn [fold_left]; [lia|]. unfold value_v6. cbn [fold_left]. lia.
  - rewrite value_v6_high. apply (Z.div_unique_pos _ _ _ (s6 a * 65536 + s7 a)); lia.
  - rewrite value_v6_high. apply (Z.mod_unique_pos _ _ (high_v6 a)); lia.
Qed.
Lemma prefix_s0 a k : valid_v6 a → 0 ≤ k → value_v6 a / 2 ^ (112 + k) = s0 a / 2 ^ k.
Proof.
  intros Ha Hk. destruct (value_v6_prefix a Ha) as (<- & _).
  by rewrite Z.div_div, <-Z.pow_add_r by lia.
Qed.

Lemma mapped_block a : valid_v6 a → in_block 128 (value_v6 a) mapped_v6 = bool_decide (is_Some (to_ipv4_mapped a)).
Proof.
  intros Ha. pose proof Ha as (H0 & H1 & H2 & H3 & H4 & H5 & _).
  unfold mapped_v6. rewrite in_block_div by lia. destruct (value_v6_prefix a Ha) as (_ & Hh & _).
  change (128 - 96) with 32. rewrite Hh.
  change (Z.shiftl 0xffff 32 / 2 ^ 32) with (((((0 * 65536 + 0) * 65536 + 0) * 65536 + 0) * 65536 + 0) * 65536 + 0xffff).
  unfold high_v6. cbn [fold_left]. rewrite !segments2 by (done || unfold segment; lia).
  unfold to_ipv4_mapped. change (0 * 65536 + s0 a) with (s0 a).
  destruct (_ && _) eqn:E; symmetry; [apply bool_decide_eq_true_2; by eexists|apply bool_decide_eq_false_2; by intros []].
Qed.
Lemma mapped_value a m : valid_v6 a → to_ipv4_mapped a = Some m →
  valid_v4 m ∧ value_v4 m = value_v6 a mod 2 ^ 32.
Proof.
  intros Ha. destruct (value_v6_prefix a Ha) as (_ & _ & ->).
  destruct Ha as (_ & _ & _ & _ & _ & _ & H6 & H7). unfold to_ipv4_mapped.
  destruct (_ && _); [|done]. intros [= <-]. unfold valid_v4, value_v4, octet, segment in *. cbn.
  change 255 with (Z.ones 8). rewrite !Z.land_ones, !Z.shiftr_div_pow2 by lia. change (2 ^ 8) with 256.
  pose proof (Z.div_mod (s6 a) 256 ltac:(lia)). pose proof (Z.mod_pos_bound (s6 a) 256 ltac:(lia)).
  pose proof (Z.div_mod (s7 a) 256 ltac:(lia)). pose proof (Z.mod_pos_bound (s7 a) 256 ltac:(lia)).
  split_and!; lia.
Qed.
Lemma blocked_v6_ranges a :
  valid_v6 a → to_ipv4_mapped a = None →
  is_blocked_v6 a = existsb (in_block 128 (value_v6 a)) blocked_v6.
Proof.
  intros Ha Hm. unfold is_blocked_v6. rewrite Hm. unfold blocked_v6. cbn [existsb].
  rewrite !in_block_div by lia. 
  change (128 - 128) with 0. change (128 - 8) with (112 + 8). change (128 - 7) with (112 + 9).
  change (128 - 10) with (112 + 6). rewrite !prefix_s0 by (done || lia).
  change (Z.shiftl 0xff00 112 / 2 ^ (112 + 8)) with 0xff. change (Z.shiftl 0xfc00 112 / 2 ^ (112 + 9)) with 0x7e.
  change (Z.shiftl 0xfe80 112 / 2 ^ (112 + 6)) with 0x3fa. change (0 / 2 ^ 0) with 0. change (1 / 2 ^ 0) with 1.
  rewrite !Z.div_1_r. pose proof Ha as (H0 & H1 & H2 & H3 & H4 & H5 & H6 & H7).
  assert (∀ l, segment l → (value_v6 a =? l) = is_zero_but_last a l) as Hl.
  { intros l Hl. rewrite value_v6_high. unfold high_v6. cbn [fold_left].
    replace l with (((((((0 * 65536 + 0) * 65536 + 0) * 65536 + 0) * 65536 + 0) * 65536 + 0) * 65536 + 0) * 65536 + l) at 1 by lia.
    rewrite !segments2 by (done || unfold segment; lia). unfold is_zero_but_last.
    change (0 * 65536 + s0 a) with (s0 a). reflexivity. }
  rewrite !Hl by (unfold segment; lia). unfold segment in *.
  unfold is_loopback_v6, is_unspecified_v6, is_multicast_v6, is_unique_local_v6, is_unicast_link_local_v6.
  change 0xff00 with (0xff * 2 ^ 8) at 2. change 0xfc00 with (0x7e * 2 ^ 9). change 0xfe80 with (0x3fa * 2 ^ 6).
  rewrite (land_eq _ 0xff00 8 16), (land_eq _ 0xfe00 9 16), (land_eq _ 0xffc0 6 16) by (lia || reflexivity).
  btauto.
Qed.

Lemma unblocked_v4_ranges a :
  valid_v4 a → existsb (in_block 32 (value_v4 a)) unblocked_v4 = true → is_blocked_v4 a = false.
Proof.
  intros Ha. destruct (value_v4_prefix a Ha) as (_ & _ & _ & H17 & H22 & _ & H8 & _).
  unfold unblocked_v4. cbn [existsb]. rewrite !in_block_div by lia. constants. rewrite H17, H22, H8.
  destruct a as [a0 a1 a2 a3], Ha as (H0 & H1 & H2 & H3). cbn in *. unfold octet in *.
  pose proof (Z.div_mod a1 64 ltac:(lia)). pose proof (Z.mod_pos_bound a1 64 ltac:(lia)).
  pose proof (Z.div_mod a1 2 ltac:(lia)). pose proof (Z.mod_pos_bound a1 2 ltac:(lia)).
  rewrite !orb_true_iff, !Z.eqb_eq. intros [Hp|[Hp|[Hp|]]]; [..|done].
  - assert (a0 = 100) as -> by lia. reflexivity.
  - assert (a0 = 192 ∧ a1 = 0 ∧ a2 = 0) as (-> & -> & ->) by lia. reflexivity.
  - assert (a0 = 198 ∧ (a1 = 18 ∨ a1 = 19)) as (-> & [-> | ->]) by lia; reflexivity.
Qed.
Lemma unblocked_v6_ranges a :
  valid_v6 a → existsb (in_block 128 (value_v6 a)) unblocked_v6 = true → is_blocked_v6 a = false.
Proof.
  intros Ha. destruct (value_v6_prefix a Ha) as (H112 & H32 & _).
  unfold unblocked_v6. cbn [existsb]. rewrite !in_block_div by lia.
  change (128 - 96) with 32. change (128 - 16) with 112. rewrite H32, H112.
  change (Z.shiftl 0x0064ff9b 96 / 2 ^ 32)
    with (((((0x64 * 65536 + 0xff9b) * 65536 + 0) * 65536 + 0) * 65536 + 0) * 65536 + 0).
  change (Z.shiftl 0x2002 112 / 2 ^ 112) with 0x2002.
  pose proof Ha as (H0 & H1 & H2 & H3 & H4 & H5 & _).
  unfold high_v6. cbn [fold_left]. rewrite !segments2 by (done || unfold segment; lia).
  rewrite !orb_true_iff, !andb_true_iff, !Z.eqb_eq.
  assert (∀ z, s0 a = z → z ≠ 0 → Z.land z 0xff00 ≠ 0xff00 → Z.land z 0xfe00 ≠ 0xfc00 →
    Z.land z 0xffc0 ≠ 0xfe80 → is_blocked_v6 a = false) as Hz.
  { intros z Hs Hz Hm Hu Hl. unfold is_blocked_v6, to_ipv4_mapped, is_loopback_v6, is_unspecified_v6,
      is_zero_but_last, is_multicast_v6, is_unique_local_v6, is_unicast_link_local_v6.
    rewrite Hs. apply Z.eqb_neq in Hz, Hm, Hu, Hl. by rewrite Hz, Hm, Hu, Hl. }
  intros [[[[[[Hs _] _] _] _] _]|[Hs|]]; [| |done]; (eapply Hz; [exact Hs|by vm_compute..]).
Qed.

(** ** The property *)

Definition valid_ip (ip : IpAddr) : Prop :=
  match ip with IpV4 a => valid_v4 a | IpV6 a => valid_v6 a end.
(** Blocked, by CIDR blocks: an IPv4-mapped address as the IPv4 address. *)
Definition in_blocked_ranges (ip : IpAddr) : bool :=
  match ip with
  | IpV4 a => existsb (in_block 32 (value_v4 a)) blocked_v4
  | IpV6 a =>
      let v := value_v6 a in
      if in_block 128 v mapped_v6 then existsb (in_block 32 (v mod 2 ^ 32)) blocked_v4
      else existsb (in_block 128 v) blocked_v6
  end.
Definition in_unblocked_ranges (ip : IpAddr) : bool :=
  match ip with
  | IpV4 a => existsb (in_block 32 (value_v4 a)) unblocked_v4
  | IpV6 a => existsb (in_block 128 (value_v6 a)) unblocked_v6
  end.

(** The address filter is exactly a list of CIDR blocks: the octet tests,
    the 16-bit masks and the unwrapping of IPv4-mapped addresses together
    block the addresses of these blocks and no others.  Not among them are
    blocks that are not globally reachable either: shared address space,
    [192.0.0.0/24], benchmarking, and the NAT64 and 6to4 forms of any IPv4
    address, private ones included. *)
Theorem ssrf_blocks_ranges ip :
  valid_ip ip → is_blocked_ip ip = in_blocked_ranges ip ∧
  (in_unblocked_ranges ip = true → is_blocked_ip ip = false).
Proof.
  destruct ip as [a|a]; cbn [valid_ip is_blocked_ip in_blocked_ranges in_unblocked_ranges]; intros Ha.
  - split; [by apply blocked_v4_ranges|by apply unblocked_v4_ranges].
  - split; [|by apply unblocked_v6_ranges]. rewrite mapped_block by done. unfold is_blocked_v6.
    destruct (to_ipv4_mapped a) as [m|] eqn:Hm.
    + rewrite bool_decide_true by by eexists. destruct (mapped_value a m Ha Hm) as [Hv <-].
      by apply blocked_v4_ranges.
    + rewrite bool_decide_false by by intros []. rewrite <-blocked_v6_ranges by done.
      unfold is_blocked_v6. by rewrite Hm.
Qed.

(** The metadata service of a cloud provider is blocked, also IPv4-mapped; the
    NAT64 form of [127.0.0.1] is not. *)
Lemma ssrf_blocks_ranges_witness :
  is_blocked_ip (IpV4 (V4 169 254 169 254)) = true ∧
  is_blocked_ip (IpV6 (V6 0 0 0 0 0 0xffff 0xa9fe 0xa9fe)) = true ∧
  is_blocked_ip (IpV6 (V6 0x64 0xff9b 0 0 0 0 0x7f00 1)) = false.
Proof.
  assert (valid_ip (IpV4 (V4 169 254 169 254))) as H1 by (cbn; unfold valid_v4, octet; cbn; lia).
  assert (valid_ip (IpV6 (V6 0 0 0 0 0 0xffff 0xa9fe 0xa9fe))) as H2 by (cbn; unfold valid_v6, segment; cbn; lia).
  assert (valid_ip (IpV6 (V6 0x64 0xff9b 0 0 0 0 0x7f00 1))) as H3 by (cbn; unfold valid_v6, segment; cbn; lia).
  split; [|split].
  - rewrite (proj1 (ssrf_blocks_ranges _ H1)). reflexivity.
  - rewrite (proj1 (ssrf_blocks_ranges _ H2)). reflexivity.
  - apply (proj2 (ssrf_blocks_ranges _ H3)). reflexivity.
Defined.
