(* ===== verification/Robots.v ===== *)
(** * robots.txt

    [oag-crawler/src/robots.rs]: groups of user agents with the path prefixes
    they may not fetch.  A line is first read as a directive; the grouping
    then works on directives. *)

From S2P Require Import Prelude Core Bytes Graph.

Section robots.
Context `{P : Platform}.

(** A line that is neither blank nor without a colon: its key, lower-cased,
    and its value. *)
Definition parse_line (raw_line : string) : option (string * string) :=
  let line := trim (default "" (head (split_on "#" raw_line ""))) in
  if bool_decide (line = "") then None else
  '(key, value) ← split_once_colon line;
  Some (to_lowercase (trim key), trim value).

(** The loop's variables. *)
Record parser := Parser {
  groups : list (list string * list string);
  current_agents : list string;
  current_disallows : list string;
  in_group : bool }.

Definition parse_step (s : parser) (kv : string * string) : parser :=
  let '(key, value) := kv in
  if bool_decide (key = "user-agent") then
    let s := if in_group s && negb (bool_decide (current_disallows s = []))
             then Parser (groups s ++ [(current_agents s, current_disallows s)]) [] [] false
             else s in
    Parser (groups s) (current_agents s ++ [to_lowercase value]) (current_disallows s) (in_group s)
  else if bool_decide (key = "disallow") then
    Parser (groups s) (current_agents s)
      (if bool_decide (value = "") then current_disallows s else current_disallows s ++ [value]) true
  else s.
Definition parse_groups (directives : list (string * string)) : list (list string * list string) :=
  let s := fold_left parse_step directives (Parser [] [] [] false) in
  if bool_decide (current_agents s = []) then groups s
  else groups s ++ [(current_agents s, current_disallows s)].

(** [groups.iter().find(..).or_else(..).map(..).unwrap_or_default()]. *)
Definition find_group (agent : string) (gs : list (list string * list string)) :
    option (list string * list string) :=
  head (filter (λ g : list string * list string, agent ∈ g.1) gs).
Definition select (user_agent : string) (gs : list (list string * list string)) : list string :=
  match find_group user_agent gs with
  | Some g => g.2
  | None => match find_group "*" gs with Some g => g.2 | None => [] end
  end.

(** The prefixes of paths that may not be fetched. *)
Record RobotsRules := Rules { disallow : list string }.

Definition allow_all : RobotsRules := Rules [].
Definition parse (body user_agent : string) : RobotsRules :=
  Rules (select (to_lowercase user_agent) (parse_groups (omap parse_line (lines body)))).
Definition is_allowed (path : string) (rules : RobotsRules) : bool :=
  negb (existsb (λ rule, starts_with rule path) (disallow rules)).

(** ** What a file says *)

(** A group as it is written: its agents, then its rules. *)
Definition written (g : list string * list string) : list (string * string) :=
  ((λ a, ("user-agent", a)) <$> g.1) ++ ((λ r, ("disallow", r)) <$> g.2).
Definition lowered (g : list string * list string) : list string * list string :=
  (to_lowercase <$> g.1, g.2).
(** Each group names an agent and a path; an empty path allows everything. *)
Definition proper (g : list string * list string) : Prop :=
  g.1 ≠ [] ∧ g.2 ≠ [] ∧ Forall (λ r, r ≠ "") g.2.

Lemma starts_with_spec p s : starts_with p s = true ↔ ∃ t, s = p +:+ t.
Proof.
  revert s. induction p as [|a p IH]; intros s; cbn; [split; [by exists s|done]|].
  destruct s as [|b s]; [split; [done|by intros [t ?]]|].
  rewrite andb_true_iff, bool_decide_eq_true, IH. split.
  - intros [-> [t ->]]. by exists t.
  - intros [t [= -> ->]]. split; [done|by exists t].
Qed.

Lemma step_agent gs ag a : parse_step (Parser gs ag [] false) ("user-agent", a)
  = Parser gs (ag ++ [to_lowercase a]) [] false.
Proof. reflexivity. Qed.
Lemma step_agent_closes gs ag ds a : ds ≠ [] → parse_step (Parser gs ag ds true) ("user-agent", a)
  = Parser (gs ++ [(ag, ds)]) [to_lowercase a] [] false.
Proof.
  intros Hds. unfold parse_step. rewrite bool_decide_true by done. cbn [in_group current_disallows].
  by rewrite bool_decide_false.
Qed.
Lemma step_rule gs ag ds b r : r ≠ "" → parse_step (Parser gs ag ds b) ("disallow", r)
  = Parser gs ag (ds ++ [r]) true.
Proof.
  intros Hr. unfold parse_step. rewrite bool_decide_false by done. rewrite bool_decide_true by done.
  by rewrite bool_decide_false.
Qed.

Lemma read_agents gs ag l : fold_left parse_step ((λ a, ("user-agent", a)) <$> l) (Parser gs ag [] false)
  = Parser gs (ag ++ (to_lowercase <$> l)) [] false.
Proof.
  revert ag. induction l as [|a l IH]; intros ag; cbn [fmap list_fmap fold_left]; [by rewrite app_nil_r|].
  rewrite step_agent, IH. by rewrite <-app_assoc.
Qed.
Lemma read_rules gs ag ds b l : Forall (λ r, r ≠ "") l → l ≠ [] →
  fold_left parse_step ((λ r, ("disallow", r)) <$> l) (Parser gs ag ds b) = Parser gs ag (ds ++ l) true.
Proof.
  revert ds b. induction l as [|r l IH]; intros ds b Hl Hne; [done|]. apply Forall_cons in Hl as [Hr Hl].
  cbn [fmap list_fmap fold_left]. rewrite step_rule by done. destruct l as [|r' l]; [done|].
  rewrite IH by done. by rewrite <-app_assoc.
Qed.
Lemma written_cons g G : (g :: G) ≫= written =
  ((λ a, ("user-agent", a)) <$> g.1) ++ ((λ r, ("disallow", r)) <$> g.2) ++ (G ≫= written).
Proof. rewrite bind_cons. unfold written at 1. by rewrite <-app_assoc. Qed.
(** The first agent of the next group closes the group before. *)
Lemma read_groups G : ∀ gs ag ds, Forall proper G → ds ≠ [] →
  let s := fold_left parse_step (G ≫= written) (Parser gs ag ds true) in
  groups s ++ [(current_agents s, current_disallows s)] = gs ++ (ag, ds) :: (lowered <$> G) ∧
  (G ≠ [] → current_agents s ≠ []).
Proof.
  induction G as [|[as_ rs] G IH]; intros gs ag ds HG Hds.
  { by split. }
  apply Forall_cons in HG as [(Ha & Hr & Hne) HG]. cbn [fst snd] in *.
  destruct as_ as [|a as_]; [done|].
  rewrite written_cons. cbn [fst snd fmap list_fmap app fold_left]. rewrite !fold_left_app.
  rewrite step_agent_closes by done. rewrite read_agents, read_rules by done. rewrite app_nil_l.
  destruct (IH (gs ++ [(ag, ds)]) ([to_lowercase a] ++ (to_lowercase <$> as_)) rs HG Hr) as [-> Hag].
  split; [by rewrite <-app_assoc|]. intros _. destruct G as [|g G]; [done|by apply Hag].
Qed.
Lemma parse_written G : Forall proper G → parse_groups (G ≫= written) = lowered <$> G.
Proof.
  destruct G as [|[as_ rs] G]; [done|]. intros [(Ha & Hr & Hne) HG]%Forall_cons. cbn [fst snd] in *.
  unfold parse_groups. rewrite written_cons. cbn [fst snd].
  rewrite !fold_left_app, read_agents, read_rules by done. rewrite !app_nil_l.
  destruct (read_groups G [] (to_lowercase <$> as_) rs HG Hr) as [E Hag].
  rewrite bool_decide_false; [exact E|]. destruct G as [|g G]; [by destruct as_|by apply Hag].
Qed.

Lemma is_allowed_spec path rules :
  is_allowed path rules = true ↔ ∀ r t, r ∈ disallow rules → path ≠ r +:+ t.
Proof.
  unfold is_allowed. rewrite negb_true_iff, <-not_true_iff_false, existsb_exists. split.
  - intros H r t Hr ->. apply H. exists r. rewrite <-list_elem_of_In, starts_with_spec. split; [done|by exists t].
  - intros H (r & Hr%list_elem_of_In & [t ->]%starts_with_spec). by eapply H.
Qed.

(** [g] is the first group of [G] in which [agent] is named, lower-cased. *)
Definition first_naming (agent : string) (G : list (list string * list string)) (g : list string * list string) : Prop :=
  ∃ G1 G2, G = G1 ++ g :: G2 ∧ agent ∈ to_lowercase <$> g.1 ∧ Forall (λ g', agent ∉ to_lowercase <$> g'.1) G1.
Definition unnamed (agent : string) (G : list (list string * list string)) : Prop :=
  Forall (λ g, agent ∉ to_lowercase <$> g.1) G.

Lemma find_group_first agent G g : first_naming agent G g → find_group agent (lowered <$> G) = Some (lowered g).
Proof.
  intros (G1 & G2 & -> & Hin & Hno). unfold find_group. rewrite fmap_app, filter_app.
  replace (filter (λ g : list string * list string, agent ∈ g.1) (lowered <$> G1)) with ([] : list (list string * list string)).
  - rewrite fmap_cons, filter_cons_True by done. done.
  - symmetry. induction Hno as [|g' G1 Hg _ IH]; [done|]. rewrite fmap_cons, filter_cons_False by done. exact IH.
Qed.
Lemma find_group_none agent G : unnamed agent G → find_group agent (lowered <$> G) = None.
Proof.
  intros Hno. unfold find_group. induction Hno as [|g' G1 Hg _ IH]; [done|].
  by rewrite fmap_cons, filter_cons_False.
Qed.

(** ** The property *)

(** A robots.txt is obeyed group by group.  Written as groups that each name
    agents and at least one path, a file is read back as these groups, and a
    path may be fetched unless a rule of the group that applies - the first
    to name our agent, else the first for everyone, else none - is a prefix of
    it.  Two ways in which this departs from the standard: a group that names
    the product token ("oag-crawler") but not the whole user-agent string
    never applies; and a group that allows everything by an empty path is
    merged with the one after it. *)
Theorem robots_obeyed user_agent G :
  Forall proper G →
  let gs := parse_groups (G ≫= written) in
  gs = lowered <$> G ∧
  (∀ g, first_naming user_agent G g ∨ unnamed user_agent G ∧ first_naming "*" G g →
     ∀ path, is_allowed path (Rules (select user_agent gs)) = true ↔ ∀ r t, r ∈ g.2 → path ≠ r +:+ t) ∧
  (unnamed user_agent G → unnamed "*" G → ∀ path, is_allowed path (Rules (select user_agent gs)) = true) ∧
  (∀ token rest, user_agent = token +:+ rest → rest ≠ "" → unnamed "*" G →
     Forall (λ g, to_lowercase <$> g.1 = [token]) G → ∀ path, is_allowed path (Rules (select user_agent gs)) = true) ∧
  parse_groups (written (["a"], [""]) ++ written (["b"], ["/"]))
    = [([to_lowercase "a"; to_lowercase "b"], ["/"])].
Proof.
  intros HG gs. assert (gs = lowered <$> G) as -> by by apply parse_written.
  assert (unnamed user_agent G → unnamed "*" G → select user_agent (lowered <$> G) = []) as Hnone.
  { intros Hu Hs. unfold select. by rewrite !find_group_none. }
  split_and!; [done|..].
  - intros g Hg path. rewrite is_allowed_spec. cbn [disallow].
    assert (select user_agent (lowered <$> G) = g.2) as ->; [|done]. unfold select.
    destruct Hg as [Hg|[Hu Hg]].
    + by rewrite (find_group_first _ _ _ Hg).
    + by rewrite find_group_none, (find_group_first _ _ _ Hg).
  - intros Hu Hs path. by rewrite Hnone.
  - intros token rest -> Hr Hs Ht path. rewrite Hnone; [done| |done].
    eapply Forall_impl; [exact Ht|]. intros g -> Hin%list_elem_of_singleton.
    apply (f_equal String.length) in Hin. rewrite string_length_app in Hin.
    destruct rest; [done|]. cbn in Hin. lia.
  - reflexivity.
Qed.
End robots.

Section witnesses.
#[local] Existing Instance Toy.platform.

(** Everyone is kept out of one path, and we of another. *)
Definition demo_robots : list (list string * list string) :=
  [(["*"], ["/private"]); (["oag"], ["/only"; "/this"])].
Lemma robots_obeyed_witness :
  is_allowed "/private" (Rules (select "oag" (parse_groups (demo_robots ≫= written)))) = true ∧
  is_allowed "/only/x" (Rules (select "oag" (parse_groups (demo_robots ≫= written)))) = false.
Proof.
  assert (Forall proper demo_robots) as HG.
  { repeat constructor; cbn; try discriminate; repeat constructor; discriminate. }
  destruct (robots_obeyed "oag" demo_robots HG) as (_ & H & _).
  assert (first_naming "oag" demo_robots (["oag"], ["/only"; "/this"])) as Hg.
  { exists [(["*"], ["/private"])], []. split; [reflexivity|]. split; [left|].
    constructor; [|constructor]. cbn. by intros [=]%list_elem_of_singleton. }
  split.
  - apply (H _ (or_introl Hg)). intros r t [->|[->|[]%not_elem_of_nil]%elem_of_cons]%elem_of_cons; discriminate.
  - apply not_true_iff_false. intros Hall. by eapply (proj1 (H _ (or_introl Hg) _) Hall "/only" "/x"); [left|].
Defined.
End witnesses.
