(* ===== verification/Fetch.v ===== *)
(** * Fetching from the web

    [oag-crawler/src/fetch.rs] and the same loop in [fetch_upstream_http] of
    [oag-api/src/gateway.rs]: each hop resolves the host itself, refuses
    private addresses, and pins the connection to what it checked.  DNS, HTTP
    and the [url] crate are parameters; DNS may answer differently each time. *)

From S2P Require Import Prelude Core Bytes Graph Presence RateLimit Ntp Signed Gateway Ssrf Robots.

Record SocketAddr := { sa_ip : IpAddr; sa_port : Z }.
Definition is_ipv4 (a : SocketAddr) : bool := match sa_ip a with IpV4 _ => true | IpV6 _ => false end.

Inductive CrawlError :=
  | UnsupportedScheme (scheme : string)
  | NoHost
  | DnsResolutionFailed (host e : string)
  | NoAddresses_ (host : string)
  | BlockedAddress (ip : IpAddr)
  | RobotsDisallowed
  | TooManyRedirects (limit : nat)
  | RedirectWithoutLocation
  | ResponseTooLarge (limit : Z)
  | UnsupportedContentType (content_type : string)
  | Http (e : string)
  | ClientBuild (e : string)
  | CrawlGraph (e : GraphError).

Definition MAX_REDIRECTS : nat := 5.
Definition MAX_HTTP_REDIRECTS : nat := 5.
Definition ALLOWED_CONTENT_TYPES : list string :=
  ["text/html"; "application/xhtml+xml"; "application/json"; "application/ld+json"; "text/plain";
   "text/markdown"].

Record CrawlerConfig := {
  allow_private_networks : bool; max_response_bytes : Z; request_timeout : Z; user_agent : string }.

Section fetch.
Context `{P : Platform} `{U : GraphPlatform}.

(** What a server answers: the headers the code reads ([None] when absent or
    not text) and the body as it streams in. *)
Record response := {
  rs_status : Z; rs_location : option string; rs_content_type : option string;
  rs_cache_control : option string; rs_content_length : option Z; rs_url : Url;
  rs_chunks : list (result string string) }.

(** The outside, and how the n-th action on it turns out. *)
Class Web := {
  url_scheme : Url → string;
  url_host : Url → option string;
  url_port : Url → option Z;  (** [port_or_known_default] *)
  url_join : Url → string → option Url;
  lookup_host : nat → string → Z → result string (list SocketAddr);
  client_builds : string → list SocketAddr → result string ();
  http_get : nat → string → list SocketAddr → Url → result string response;
  utf8_lossy : string → string;
  error_text : CrawlError → string }.
Context `{W : Web}.

(** How many actions there have been, and the connections: the addresses each
    was pinned to. *)
Record contact := { ct_host : string; ct_addrs : list SocketAddr; ct_url : Url }.
Record web := WebState { actions : nat; contacts : list contact }.
Abbreviation net := (ste web CrawlError).
Definition act {A} (f : nat → A) : net A := λ s, (Ok (f (actions s)), WebState (S (actions s)) (contacts s)).

Definition resolve_and_validate (host : string) (port : Z) (allow_private : bool) : net (list SocketAddr) :=
  answer ← act (λ n, lookup_host n host port);
  addrs ← of_result (map_err (DnsResolutionFailed host) answer);
  if bool_decide (addrs = []) then raise (NoAddresses_ host) else
  match (if allow_private then None else head (filter (λ a, is_blocked_ip (sa_ip a) = true) addrs)) with
  | Some a => raise (BlockedAddress (sa_ip a))
  | None => mret addrs
  end.

Definition send (host : string) (addrs : list SocketAddr) (url : Url) : net response :=
  _ ← effect (λ s, WebState (actions s) (contacts s ++ [{| ct_host := host; ct_addrs := addrs; ct_url := url |}]));
  answer ← act (λ n, http_get n host addrs url);
  of_result (map_err Http answer).

Definition is_redirection (status : Z) : bool := Z.leb 300 status && Z.ltb status 400.
Definition is_error (status : Z) : bool := Z.leb 400 status && Z.ltb status 600.

(** One pass through the loop, up to the answer. *)
Definition request_hop (pin : list SocketAddr → list SocketAddr) (allow_private : bool) (current : Url) :
    net response :=
  let scheme := url_scheme current in
  if negb (bool_decide (scheme = "http")) && negb (bool_decide (scheme = "https"))
  then raise (UnsupportedScheme scheme) else
  host ← of_result (ok_or (url_host current) NoHost);
  port ← of_result (ok_or (url_port current) NoHost);
  addrs ← resolve_and_validate host port allow_private;
  let addrs := pin addrs in
  _ ← of_result (map_err ClientBuild (client_builds host addrs));
  send host addrs current.
(** [for hop in 0..=limit], up to the first answer that is no redirect;
    [remaining] redirects may still be followed. *)
Fixpoint follow (pin : list SocketAddr → list SocketAddr) (allow_private : bool) (limit remaining : nat)
    (current : Url) : net response :=
  response ← request_hop pin allow_private current;
  if is_redirection (rs_status response) then
    match remaining with
    | 0 => raise (TooManyRedirects limit)
    | S remaining =>
        location ← of_result (ok_or (rs_location response) RedirectWithoutLocation);
        next ← of_result (ok_or (url_join current location) RedirectWithoutLocation);
        follow pin allow_private limit remaining next
    end
  else mret response.

(** [while let Some(chunk) = stream.next().await]. *)
Fixpoint read_body (limit : Z) (chunks : list (result string string)) (body : string) :
    result CrawlError string :=
  match chunks with
  | [] => Ok body
  | chunk :: chunks =>
      chunk ← map_err Http chunk;
      let body := body +:+ chunk in
      if Z.ltb limit (Z.of_nat (String.length body)) then Err (ResponseTooLarge limit)
      else read_body limit chunks body
  end.
Definition check_length (limit : Z) (length : option Z) : result CrawlError () :=
  match length with
  | Some len => if Z.ltb limit len then Err (ResponseTooLarge limit) else Ok ()
  | None => Ok ()
  end.

Record FetchedPage := {
  final_url : Url; content_type : string; body : string; content_hash : string }.

(** The part of [safe_fetch] after the redirects. *)
Definition accept_page (config : CrawlerConfig) (r : response) : result CrawlError FetchedPage :=
  if is_error (rs_status r) then Err (Http "status") else
  let content_type := to_lowercase (trim (default "" (head (split_on ";" (default "" (rs_content_type r)) "")))) in
  if negb (bool_decide (content_type ∈ ALLOWED_CONTENT_TYPES)) then Err (UnsupportedContentType content_type) else
  _ ← check_length (max_response_bytes config) (rs_content_length r);
  body ← read_body (max_response_bytes config) (rs_chunks r) "";
  Ok {| final_url := rs_url r; content_type := content_type; body := body;
        content_hash := blake3_content_hash body |}.
Definition safe_fetch (url : Url) (config : CrawlerConfig) : net FetchedPage :=
  r ← follow id (allow_private_networks config) MAX_REDIRECTS MAX_REDIRECTS url;
  of_result (accept_page config r).

Definition check_robots (url : Url) (config : CrawlerConfig) : net RobotsRules := λ s,
  match url_join url "/robots.txt" with
  | None => (Ok allow_all, s)
  | Some robots_url =>
      match safe_fetch (url_set_query None robots_url) config s with
      | (Ok page, s) => (Ok (parse (utf8_lossy (body page)) (user_agent config)), s)
      | (Err _, s) => (Ok allow_all, s)
      end
  end.
(** The start of [crawl_inner]: the page, if robots.txt allows it. *)
Definition crawl_page (url : Url) (config : CrawlerConfig) : net FetchedPage :=
  robots ← check_robots url config;
  if negb (is_allowed (url_path url) robots) then raise RobotsDisallowed else safe_fetch url config.

(** ** [gateway.rs] *)

Definition prefer_ipv4 (addrs : list SocketAddr) : list SocketAddr :=
  match head (filter (λ a, is_ipv4 a = true) addrs) with Some a => [a] | None => addrs end.
Definition accept_upstream (limit : Z) (r : response) : result CrawlError GatewayResult :=
  _ ← check_length limit (rs_content_length r);
  body ← read_body limit (rs_chunks r) "";
  Ok (HttpResult (rs_status r) (blake3_content_hash body) body (rs_cache_control r)).
Definition fetch_upstream_http (url : string) (allow_private : bool) (limit : Z) :
    ste web GatewayError GatewayResult := λ s,
  match url_parse url with
  | None => (Err (GwUpstreamBlocked "invalid url"), s)
  | Some current =>
      let '(r, s) := follow prefer_ipv4 allow_private MAX_HTTP_REDIRECTS MAX_HTTP_REDIRECTS current s in
      (map_err (GwUpstreamBlocked ∘ error_text) (r ≫= accept_upstream limit), s)
  end.

(** ** What a run contacts *)

(** A connection the guard lets through: to an HTTP URL, pinned to addresses of
    one answer of the resolver for its host, none of which is private. *)
Definition guarded (pin : list SocketAddr → list SocketAddr) (allow_private : bool) (c : contact) : Prop :=
  (url_scheme (ct_url c) = "http" ∨ url_scheme (ct_url c) = "https") ∧
  url_host (ct_url c) = Some (ct_host c) ∧
  ∃ n port answer, url_port (ct_url c) = Some port ∧ lookup_host n (ct_host c) port = Ok answer ∧
    answer ≠ [] ∧ ct_addrs c = pin answer ∧
    (allow_private = false → Forall (λ a, is_blocked_ip (sa_ip a) = false) (ct_addrs c)).
(** A run from [s] to [s'] makes at most [n] connections, all guarded. *)
Definition reaches pin (allow_private : bool) (n : nat) (s s' : web) : Prop :=
  ∃ new, contacts s' = contacts s ++ new ∧ length new ≤ n ∧ Forall (guarded pin allow_private) new.

Lemma reaches_none pin allow n s s' : contacts s' = contacts s → reaches pin allow n s s'.
Proof. intros E. exists []. rewrite E, app_nil_r. split_and!; [done|cbn; lia|constructor]. Qed.
Lemma reaches_trans pin allow n1 n2 s s1 s2 :
  reaches pin allow n1 s s1 → reaches pin allow n2 s1 s2 → reaches pin allow (n1 + n2) s s2.
Proof.
  intros (l1 & E1 & H1 & F1) (l2 & E2 & H2 & F2). exists (l1 ++ l2).
  rewrite E2, E1, app_assoc. split_and!; [done|rewrite length_app; lia|by apply Forall_app].
Qed.

Lemma resolve_spec host port allow s :
  let '(r, s') := resolve_and_validate host port allow s in
  contacts s' = contacts s ∧ ∀ addrs, r = Ok addrs → (∃ n, lookup_host n host port = Ok addrs) ∧ addrs ≠ [] ∧
    (allow = false → Forall (λ a, is_blocked_ip (sa_ip a) = false) addrs).
Proof.
  unfold resolve_and_validate, act. cbv [mbind ste_bind of_result raise mret ste_ret].
  destruct (lookup_host (actions s) host port) as [addrs|e] eqn:Hl; cbn; [|by split].
  case_bool_decide as Hne; [by split|]. destruct allow.
  { split; [done|]. intros ? [= <-]. split_and!; [by eexists|done|done]. }
  destruct (head _) as [a|] eqn:Hh; [by split|]. split; [done|]. intros ? [= <-].
  split_and!; [by eexists|done|]. intros _. apply Forall_forall. intros a Ha. apply not_true_is_false.
  intros Hb. assert (a ∈ filter (λ a, is_blocked_ip (sa_ip a) = true) addrs) as Hin by by apply list_elem_of_filter.
  destruct (filter _ addrs); [by apply elem_of_nil in Hin|done].
Qed.

(** The response is what came back on the last connection of a run from [s]. *)
Definition answers (s s' : web) (x : response) : Prop :=
  ∃ n c before, contacts s' = before ++ [c] ∧ contacts s `prefix_of` before ∧
    http_get n (ct_host c) (ct_addrs c) (ct_url c) = Ok x.
Lemma answers_earlier pin allow n s s1 s' x : reaches pin allow n s s1 → answers s1 s' x → answers s s' x.
Proof.
  intros (new & E & _) (m & c & before & Hc & Hp & Hx). exists m, c, before. split_and!; [done| |done].
  etransitivity; [|exact Hp]. rewrite E. by exists new.
Qed.

Lemma hop_spec pin allow url s : (∀ l a, a ∈ pin l → a ∈ l) → let '(r, s') := request_hop pin allow url s in
  reaches pin allow 1 s s' ∧ ∀ x, r = Ok x → answers s s' x.
Proof.
  assert (∀ r, contacts r = contacts s → ∀ e : CrawlError, reaches pin allow 1 s r ∧ ∀ x, Err e = Ok x → answers s r x) as Hnone
    by (by intros; split; [apply reaches_none|]).
  intros Hpin. unfold request_hop. destruct (_ && _) eqn:Hs; [by apply Hnone|].
  apply andb_false_iff in Hs. rewrite !negb_false_iff, !bool_decide_eq_true in Hs.
  cbv [mbind ste_bind of_result ok_or]. destruct (url_host url) as [host|] eqn:Hh; [|by apply Hnone].
  destruct (url_port url) as [port|] eqn:Hp; [|by apply Hnone].
  pose proof (resolve_spec host port allow s) as Hr.
  destruct (resolve_and_validate host port allow s) as [[addrs|e] s1]; [|apply Hnone, Hr].
  destruct Hr as (Hc & Hr). destruct (Hr addrs eq_refl) as ((n & Hl) & Hne & Hpub).
  destruct (client_builds _ _); cbn; [|by apply Hnone].
  set (c := {| ct_host := host; ct_addrs := pin addrs; ct_url := url |}). split.
  - exists [c]. split_and!; [cbn; by rewrite Hc|done|]. constructor; [|done].
    split_and!; [done|done|]. exists n, port, addrs. repeat (split; [done|]). cbn. intros Ha. apply Forall_forall.
    intros x Hin%Hpin. by eapply Forall_forall in Hin; [|exact (Hpub Ha)].
  - intros x Hx%map_err_ok. eexists _, c, (contacts s). split_and!; [cbn; by rewrite Hc|done|exact Hx].
Qed.

Lemma follow_spec pin allow limit remaining : (∀ l a, a ∈ pin l → a ∈ l) → ∀ url s,
  let '(r, s') := follow pin allow limit remaining url s in
  reaches pin allow (S remaining) s s' ∧ ∀ x, r = Ok x → answers s s' x ∧ is_redirection (rs_status x) = false.
Proof.
  intros Hpin. induction remaining as [|remaining IH]; intros url s; cbn [follow];
    pose proof (hop_spec pin allow url s Hpin) as Hhop; cbv [mbind ste_bind];
    destruct (request_hop pin allow url s) as [[x|e] s1]; destruct Hhop as [Hhop Hans]; try (split; [|done]).
  - destruct (is_redirection _) eqn:Hr; [by split|]. split; [done|]. intros ? [= <-]. auto.
  - done.
  - assert (reaches pin allow (S (S remaining)) s s1) as Hmore.
    { destruct Hhop as (new & E & Hl & Hf). exists new. split_and!; [done|lia|done]. }
    destruct (is_redirection _) eqn:Hr; [|split; [done|intros ? [= <-]; auto]].
    cbv [of_result ok_or]. destruct (rs_location x); [|by split]. destruct (url_join _ _) as [next|]; [|by split].
    specialize (IH next s1). destruct (follow _ _ _ _ _ _) as [r s'].
    destruct IH as [IH Hx]. split; [by apply (reaches_trans _ _ 1 _ _ s1)|].
    intros y Hy. destruct (Hx y Hy). split; [by eapply answers_earlier|done].
  - destruct Hhop as (new & E & Hl & Hf). exists new. split_and!; [done|lia|done].
Qed.

(** The chunks received, in order. *)
Definition received (parts : list string) : string := foldr String.append "" parts.
Lemma read_body_spec limit chunks : ∀ acc b, read_body limit chunks acc = Ok b →
  (∃ parts, chunks = Ok <$> parts ∧ b = acc +:+ received parts) ∧
  ((Z.of_nat (String.length acc) ≤ limit)%Z → (Z.of_nat (String.length b) ≤ limit)%Z).
Proof.
  induction chunks as [|[c|e] chunks IH]; intros acc b; cbn [read_body]; [| |done].
  - intros [= <-]. split; [|done]. exists []. by rewrite string_app_nil_r.
  - cbn [map_err mbind result_bind]. destruct (Z.ltb_spec limit (Z.of_nat (String.length (acc +:+ c)))); [done|].
    intros Hb. destruct (IH _ _ Hb) as ((parts & -> & ->) & Hle). split; [|intros _; apply Hle; lia].
    exists (c :: parts). split; [done|]. by rewrite string_app_assoc.
Qed.

Lemma accept_page_spec config x page : accept_page config x = Ok page →
  is_error (rs_status x) = false ∧ content_type page ∈ ALLOWED_CONTENT_TYPES ∧
  content_hash page = blake3_content_hash (body page) ∧ final_url page = rs_url x ∧
  ((0 ≤ max_response_bytes config)%Z → (Z.of_nat (String.length (body page)) ≤ max_response_bytes config)%Z) ∧
  ∃ parts, rs_chunks x = Ok <$> parts ∧ body page = received parts.
Proof.
  unfold accept_page. intros H. destruct (is_error _); [done|].
  destruct (negb _) eqn:Hct; [done|]. apply negb_false_iff, bool_decide_eq_true in Hct.
  apply result_bind_ok in H as (u & _ & H). apply result_bind_ok in H as (b & Hb & [= <-]).
  apply read_body_spec in Hb as (Hparts & Hle). by split_and!.
Qed.
Lemma accept_upstream_spec limit x res : accept_upstream limit x = Ok res →
  ∃ parts, rs_chunks x = Ok <$> parts ∧
    ((0 ≤ limit)%Z → (Z.of_nat (String.length (received parts)) ≤ limit)%Z) ∧
    res = HttpResult (rs_status x) (blake3_content_hash (received parts)) (received parts) (rs_cache_control x).
Proof.
  unfold accept_upstream. intros H. apply result_bind_ok in H as (u & _ & H).
  apply result_bind_ok in H as (b & Hb & [= <-]).
  apply read_body_spec in Hb as ((parts & Hp & ->) & Hle). by exists parts.
Qed.

Lemma prefer_ipv4_in l a : a ∈ prefer_ipv4 l → a ∈ l.
Proof.
  unfold prefer_ipv4. destruct (head _) as [x|] eqn:Hh; [|done]. intros ->%list_elem_of_singleton.
  assert (x ∈ filter (λ a, is_ipv4 a = true) l) as [_ ?]%list_elem_of_filter; [|done].
  destruct (filter _ l); [done|]. injection Hh as ->. by left.
Qed.

Lemma safe_fetch_reaches url config s :
  reaches id (allow_private_networks config) 6 s (safe_fetch url config s).2.
Proof.
  pose proof (follow_spec id (allow_private_networks config) MAX_REDIRECTS MAX_REDIRECTS (λ _ _ H, H) url s) as Hf.
  unfold safe_fetch. cbv [mbind ste_bind of_result]. destruct (follow _ _ _ _ _ _) as [[x|e] s']; apply Hf.
Qed.

(** A page is exactly what the last server contacted sent, within the limits. *)
Definition page_of (config : CrawlerConfig) (s s' : web) (page : FetchedPage) : Prop :=
  content_type page ∈ ALLOWED_CONTENT_TYPES ∧ content_hash page = blake3_content_hash (body page) ∧
  ((0 ≤ max_response_bytes config)%Z → (Z.of_nat (String.length (body page)) ≤ max_response_bytes config)%Z) ∧
  ∃ x parts, answers s s' x ∧ is_redirection (rs_status x) = false ∧ is_error (rs_status x) = false ∧
    final_url page = rs_url x ∧ rs_chunks x = Ok <$> parts ∧ body page = received parts.
Lemma page_of_earlier config pin allow n s s1 s' page :
  reaches pin allow n s s1 → page_of config s1 s' page → page_of config s s' page.
Proof.
  intros Hr (? & ? & ? & x & parts & Ha & Hrest). split_and!; [done..|]. exists x, parts.
  split; [by eapply answers_earlier|done].
Qed.
Lemma safe_fetch_page url config s : let '(r, s') := safe_fetch url config s in
  ∀ page, r = Ok page → page_of config s s' page.
Proof.
  pose proof (follow_spec id (allow_private_networks config) MAX_REDIRECTS MAX_REDIRECTS (λ _ _ H, H) url s) as Hf.
  unfold safe_fetch. cbv [mbind ste_bind of_result]. destruct (follow _ _ _ _ _ _) as [[x|e] s']; [|done].
  destruct Hf as [_ Hx]. intros page H. destruct (Hx x eq_refl) as [Ha Hr].
  apply accept_page_spec in H as (He & ? & ? & ? & ? & parts & ? & ?). split_and!; [done..|]. by exists x, parts.
Qed.

(** *** robots.txt *)

(** The site's robots.txt was fetched, to this page. *)
Definition served_robots (url : Url) (config : CrawlerConfig) (s : web) (page : FetchedPage) (s1 : web) : Prop :=
  ∃ robots_url, url_join url "/robots.txt" = Some robots_url ∧
    safe_fetch (url_set_query None robots_url) config s = (Ok page, s1).
(** The file consists of these groups, and [g] is the one for this crawler: the
    first that names its whole user-agent string, or else the first for
    everyone. *)
Definition robots_group (config : CrawlerConfig) (page : FetchedPage) (g : list string * list string) : Prop :=
  ∃ G, Forall proper G ∧ omap parse_line (lines (utf8_lossy (body page))) = G ≫= written ∧
    let ua := to_lowercase (user_agent config) in
    (first_naming ua G g ∨ unnamed ua G ∧ first_naming "*" G g).

Lemma robots_group_allows config page g path : robots_group config page g →
  is_allowed path (parse (utf8_lossy (body page)) (user_agent config)) = true ↔ ∀ r t, r ∈ g.2 → path ≠ r +:+ t.
Proof.
  intros (G & HG & Hlines & Hg). unfold parse. rewrite Hlines.
  destruct (robots_obeyed (to_lowercase (user_agent config)) G HG) as (_ & H & _). by apply H.
Qed.
Lemma check_robots_reaches url config s : let '(r, s') := check_robots url config s in
  reaches id (allow_private_networks config) 6 s s' ∧ ∃ rules, r = Ok rules ∧
    ((∃ page, served_robots url config s page s' ∧ rules = parse (utf8_lossy (body page)) (user_agent config)) ∨
     rules = allow_all ∧ ∀ page s1, ¬ served_robots url config s page s1).
Proof.
  unfold check_robots, served_robots. destruct (url_join _ _) as [u|].
  - pose proof (safe_fetch_reaches (url_set_query None u) config s) as Hr.
    destruct (safe_fetch _ _ _) as [[page|e] s'] eqn:Hs; (split; [exact Hr|eexists; split; [done|]]).
    + left. exists page. split; [by exists u|done].
    + right. split; [done|]. intros page s1 (u' & [= <-] & Hs'). congruence.
  - split; [by apply reaches_none|]. eexists. split; [done|]. right. split; [done|]. by intros ? ? (? & [=] & _).
Qed.

(** The page is fetched unless the site's robots.txt forbids it. *)
Definition allowed_by (url : Url) (config : CrawlerConfig) (page : FetchedPage) : bool :=
  is_allowed (url_path url) (parse (utf8_lossy (body page)) (user_agent config)).
Lemma crawl_page_spec url config s : let '(r, s') := crawl_page url config s in
  reaches id (allow_private_networks config) 12 s s' ∧
  (∀ page s1, served_robots url config s page s1 →
     if allowed_by url config page then (r, s') = safe_fetch url config s1
     else r = Err RobotsDisallowed ∧ s' = s1) ∧
  ((∀ page s1, ¬ served_robots url config s page s1) → (r, s') = safe_fetch url config (check_robots url config s).2) ∧
  ∀ page, r = Ok page → page_of config s s' page.
Proof.
  unfold crawl_page, allowed_by. cbv [mbind ste_bind].
  pose proof (check_robots_reaches url config s) as Hrob. destruct (check_robots url config s) as [r0 s1]. cbn [snd].
  destruct Hrob as (Hreach & rules & -> & Hrules).
  assert (∀ page s2, served_robots url config s page s2 →
    parse (utf8_lossy (body page)) (user_agent config) = rules ∧ s2 = s1) as Hserved.
  { intros page s2 (u & Hu & Hs). destruct Hrules as [(page' & (u' & Hu' & Hs') & ->)|[_ Hno]].
    - rewrite Hu in Hu'. injection Hu' as <-. rewrite Hs in Hs'. by injection Hs' as <- <-.
    - destruct (Hno page s2). by exists u. }
  destruct (is_allowed (url_path url) rules) eqn:Ha; cbn [negb].
  - pose proof (safe_fetch_reaches url config s1) as Hr. pose proof (safe_fetch_page url config s1) as Hp.
    destruct (safe_fetch url config s1) as [r s'] eqn:Hs.
    split_and!; [by apply (reaches_trans _ _ 6 6 _ s1)| |done|].
    + intros page s2 [-> ->]%Hserved. by rewrite Ha.
    + intros page Hpage. eapply page_of_earlier; [exact Hreach|by apply Hp].
  - split_and!; [|..|done].
    + destruct Hreach as (new & E & Hl & Hf). exists new. split_and!; [done|lia|done].
    + intros page s2 [-> ->]%Hserved. by rewrite Ha.
    + intros Hno. destruct Hrules as [(page & Hsv & _)|[-> _]]; [by destruct (Hno page s1)|discriminate Ha].
Qed.
End fetch.

(** ** The property *)

Section properties.
Context `{P : Platform} `{U : GraphPlatform} `{W : !Web}.

(** C39: No fetch reaches a private network: with the guard on, whatever DNS and
    the servers answer and wherever they redirect, every connection goes to an
    HTTP URL and is pinned to addresses of one resolver answer none of which is
    blocked - at most six per fetch.  This holds for the pages of the crawler
    and for what the gateway fetches for others; both take no more bytes than
    configured, hand on exactly the bytes the last server sent, and hash them.
    The crawler asks for the site's robots.txt before a page: where it gets one
    that forbids the path, it asks for nothing more; otherwise it goes on to
    the page.  A file in groups forbids what a rule of one group is a prefix
    of: the first that names the whole user-agent string, or else the first
    for everyone.  (So a group for the product token alone is not obeyed, a
    rule is not compared with the query, and where a page redirects to is not
    checked.) *)
Theorem fetch_guarded :
  (∀ url config s, let '(r, s') := safe_fetch url config s in
     reaches id (allow_private_networks config) 6 s s' ∧
     ∀ page, r = Ok page → page_of config s s' page) ∧
  (∀ url allow limit s, let '(r, s') := fetch_upstream_http url allow limit s in
     reaches prefer_ipv4 allow 6 s s' ∧
     ∀ res, r = Ok res → ∃ x parts, answers s s' x ∧ rs_chunks x = Ok <$> parts ∧
       ((0 ≤ limit)%Z → (Z.of_nat (String.length (received parts)) ≤ limit)%Z) ∧ is_redirection (rs_status x) = false ∧
       res = HttpResult (rs_status x) (blake3_content_hash (received parts)) (received parts) (rs_cache_control x)) ∧
  (∀ url config s, let '(r, s') := crawl_page url config s in
     reaches id (allow_private_networks config) 12 s s' ∧
     (∀ page s1, served_robots url config s page s1 →
        if allowed_by url config page then (r, s') = safe_fetch url config s1
        else r = Err RobotsDisallowed ∧ s' = s1) ∧
     ((∀ page s1, ¬ served_robots url config s page s1) → (r, s') = safe_fetch url config (check_robots url config s).2) ∧
     ∀ page, r = Ok page → page_of config s s' page) ∧
  (∀ url config page g, robots_group config page g →
     allowed_by url config page = true ↔ ∀ rule rest, rule ∈ g.2 → url_path url ≠ rule +:+ rest).
Proof.
  split_and!.
  - intros url config s. pose proof (safe_fetch_reaches url config s) as Hr. pose proof (safe_fetch_page url config s) as Hp.
    by destruct (safe_fetch url config s).
  - intros url allow limit s. unfold fetch_upstream_http.
    destruct (url_parse url) as [current|]; [|split; [by apply reaches_none|done]].
    pose proof (follow_spec prefer_ipv4 allow MAX_HTTP_REDIRECTS MAX_HTTP_REDIRECTS prefer_ipv4_in current s) as Hf.
    destruct (follow _ _ _ _ _ _) as [[x|e] s']; (split; [apply Hf|]); [|done].
    destruct Hf as [_ Hx]. destruct (Hx x eq_refl) as [Ha Hr]. intros res H%map_err_ok. cbn in H.
    apply accept_upstream_spec in H as (parts & ? & ? & ->). by exists x, parts.
  - apply crawl_page_spec.
  - intros. by apply robots_group_allows.
Qed.
End properties.

(** ** An example: a public page that redirects to the metadata service *)

Section example.
#[local] Existing Instance Toy.platform.
#[local] Existing Instance ToyGraph.plain_urls.
Definition public_ip : SocketAddr := {| sa_ip := IpV4 (V4 93 184 216 34); sa_port := 80 |}.
Definition metadata_ip : SocketAddr := {| sa_ip := IpV4 (V4 169 254 169 254); sa_port := 80 |}.
#[local] Instance toy_web : Web := {|
  url_scheme := λ _, "http"; url_host := Some; url_port := λ _, Some 80%Z; url_join := λ _ u, Some u;
  lookup_host := λ _ host _, Ok (if bool_decide (host = "inside") then [public_ip; metadata_ip] else [public_ip]);
  client_builds := λ _ _, Ok ();
  http_get := λ _ _ _ u, Ok {| rs_status := 302; rs_location := Some "inside"; rs_content_type := None;
    rs_cache_control := None; rs_content_length := None; rs_url := u; rs_chunks := [] |};
  utf8_lossy := id; error_text := λ _, "" |}.

Example redirect_inside_refused :
  safe_fetch "outside" {| allow_private_networks := false; max_response_bytes := 100; request_timeout := 30;
                          user_agent := "oag" |} (WebState 0 [])
  = (Err (BlockedAddress (IpV4 (V4 169 254 169 254))),
     WebState 3 [{| ct_host := "outside"; ct_addrs := [public_ip]; ct_url := "outside" |}]).
Proof. vm_compute. reflexivity. Qed.
End example.
