(* ===== verification/Extract.v ===== *)
(** * What the crawler reads out of a page

    [oag-crawler/src/extract/*.rs] and [llm_extract.rs].  An extractor turns a
    document into candidate statements and names; it never writes.  The HTML
    parser and the derived deserialisers are parameters, a JSON document is
    the type [json]. *)

From stdpp Require Import pretty.
From S2P Require Import Prelude Core Envelope Store Bytes Graph Presence RateLimit Ntp Signed Gateway Ssrf Robots Fetch.

(** ** [mod.rs] *)

Record ExtractedFact := {
  fact_subject : string; fact_subject_type : option string; fact_predicate : string;
  fact_object : string; fact_object_type : option string }.
Record ExtractedAlias := {
  alias_node_identifier : string; alias_text : string; alias_kind : AliasType }.
Record ExtractedPage := Extracted { facts : list ExtractedFact; aliases : list ExtractedAlias }.
Definition empty_page : ExtractedPage := Extracted [] [].
Definition merge (page other : ExtractedPage) : ExtractedPage :=
  Extracted (facts page ++ facts other) (aliases page ++ aliases other).
Definition push_fact (f : ExtractedFact) (page : ExtractedPage) : ExtractedPage :=
  Extracted (facts page ++ [f]) (aliases page).
Definition push_alias (a : ExtractedAlias) (page : ExtractedPage) : ExtractedPage :=
  Extracted (facts page) (aliases page ++ [a]).
(** Every name an extractor finds is one of type [Name]. *)
Definition name_of (node name : string) : ExtractedAlias :=
  {| alias_node_identifier := node; alias_text := name; alias_kind := AliasName |}.

(** [predicate.rs] of [oag-core]: the vocabulary, which is not enforced. *)
Definition KNOWN_PREDICATES : list string :=
  ["official_source"; "documentation_for"; "authored_by"; "published_by"; "owned_by";
   "operated_by"; "maintained_by"; "implements"; "supports"; "does_not_support"; "requires";
   "depends_on"; "compatible_with"; "exposes"; "references"; "links_to"; "derived_from";
   "source_for"; "cites"; "describes"; "explains"; "example_of"; "instance_of"; "part_of";
   "version_of"; "supersedes"; "deprecated_by"; "replaced_by"; "supports_claim"; "contradicts";
   "disputes"; "alternative_to"; "related_to"; "provides_capability"; "uses_protocol";
   "exposed_via"; "download_at"; "repository_at"; "documented_at"; "homepage"; "sent_to"].

(** ** What [serde] and [scraper] give *)

Record ArdOperator := { op_name : option string; op_url : option string }.
Record ArdResource := {
  rs_name : option string; rs_type : option string; rs_resource_url : option string;
  rs_capabilities : list string; rs_operator : option ArdOperator }.
Record AgentProvider := { pv_organization : option string; pv_url : option string }.
Record AgentSkill := { sk_name : option string; sk_id : option string }.
Record AgentCard := {
  card_name : option string; card_provider : option AgentProvider; card_skills : list AgentSkill }.
Record RawCandidate := {
  rc_subject : string; rc_predicate : string; rc_object : string; rc_confidence : Z }.

Class Documents := {
  (** the text of each element that a CSS selector matches, and an attribute
      of each *)
  select_text : string → string → list string;
  select_attr : string → string → string → list (option string);
  (** the text nodes of the first [body], each with the names of the elements
      around it *)
  body_texts : string → option (list (string * list string));
  (** [serde_json::from_str] *)
  ard_resources : string → option (list ArdResource);
  agent_card : string → option AgentCard;
  llm_candidates : string → option (list RawCandidate) }.

Section extract.
Context `{P : Platform} `{C : Codec} `{U : GraphPlatform} `{W : !Web} `{D : Documents}.

(** [url.port()]: a port written out in the URL, unless the scheme's own. *)
Class UrlPorts := { explicit_port : Url → option Z }.
Context `{O : UrlPorts}.

Definition origin_of (url : Url) : string :=
  let host := default "" (url_host url) in
  match explicit_port url with
  | Some port => url_scheme url +:+ "://" +:+ host +:+ ":" +:+ pretty port
  | None => url_scheme url +:+ "://" +:+ host
  end.

(** The first [n] characters of UTF-8 text. *)
Definition continuation (a : ascii) : bool :=
  let n := N_of_ascii a in N.leb 128 n && N.ltb n 192.
Fixpoint take_chars (n : nat) (s : string) : string :=
  match s with
  | "" => ""
  | String a s' =>
      if continuation a then String a (take_chars n s')
      else match n with 0 => "" | S n => String a (take_chars n s') end
  end.
Definition body_text (html : string) (max_chars : nat) : string :=
  let parts := match body_texts html with
               | Some nodes => (filter (λ t : string * list string, ("script" ∉ t.2) ∧ ("style" ∉ t.2)) nodes).*1
               | None => []
               end in
  take_chars max_chars (join " " (split_whitespace (join " " parts))).

(** ** [html_meta.rs] *)

Definition meta_names (html : string) : list string :=
  let title := match head (select_text html "title") with
               | Some t => let t := trim t in if bool_decide (t = "") then [] else [t]
               | None => []
               end in
  match head (select_attr html "meta[property=og:title]" "content") with
  | Some (Some content) =>
      let content := trim content in
      if bool_decide (content = "") || bool_decide (content ∈ title) then title else title ++ [content]
  | _ => title
  end.
Definition html_meta (html page_url : string) : ExtractedPage :=
  Extracted [] (name_of page_url <$> meta_names html).

(** ** [json_ld.rs] *)

Fixpoint get_key {A} (k : string) (obj : list (string * A)) : option A :=
  match obj with [] => None | (k', v) :: obj => if decide (k = k') then Some v else get_key k obj end.
Definition as_text (v : json) : option string := match v with Str s => Some s | _ => None end.
Definition json_types (obj : list (string * json)) : list string :=
  match get_key "@type" obj with
  | Some (Str s) => [to_lowercase s]
  | Some (Array arr) => to_lowercase <$> omap as_text arr
  | _ => []
  end.
Definition fact (subject : string) (subject_type : option string) (predicate object : string)
    (object_type : option string) : ExtractedFact :=
  {| fact_subject := subject; fact_subject_type := subject_type; fact_predicate := predicate;
     fact_object := object; fact_object_type := object_type |}.
Definition push_same_as (page_url target : string) (page : ExtractedPage) : ExtractedPage :=
  push_fact (fact page_url None "related_to" target None) page.
Definition process_node (obj : list (string * json)) (page_url : string) (page : ExtractedPage) :
    ExtractedPage :=
  let types := json_types obj in
  let page := match get_key "name" obj ≫= as_text with
              | Some name => let name := trim name in
                  if bool_decide (name = "") then page else push_alias (name_of page_url name) page
              | None => page
              end in
  let page :=
    if bool_decide ("softwareapplication" ∈ types) || bool_decide ("softwaresourcecode" ∈ types) then
      let page := push_fact (fact page_url (Some "software") "instance_of" "concept:software" (Some "concept")) page in
      match get_key "codeRepository" obj ≫= as_text with
      | Some repo => push_fact (fact page_url (Some "software") "repository_at" repo (Some "repository")) page
      | None => page
      end
    else page in
  let page :=
    if bool_decide ("organization" ∈ types) then
      match get_key "url" obj ≫= as_text with
      | Some org_url => push_fact (fact page_url None "operated_by" org_url (Some "organization")) page
      | None => page
      end
    else page in
  match get_key "sameAs" obj with
  | Some (Str s) => push_same_as page_url s page
  | Some (Array arr) => foldl (λ page s, push_same_as page_url s page) page (omap as_text arr)
  | _ => page
  end.
(** The object's [@graph] is looked up in place: the recursion is on the
    document. *)
Fixpoint process_document (value : json) (page_url : string) (page : ExtractedPage) : ExtractedPage :=
  let fix process_all (items : list json) (page : ExtractedPage) : ExtractedPage :=
    match items with
    | [] => page
    | item :: items => process_all items (process_document item page_url page)
    end in
  match value with
  | Array items => process_all items page
  | Object obj =>
      (fix graph_of (fields : list (string * json)) : ExtractedPage :=
         match fields with
         | [] => process_node obj page_url page
         | (k, v) :: fields =>
             if decide ("@graph" = k) then
               match v with
               | Array graph => process_all graph page
               | _ => process_node obj page_url page
               end
             else graph_of fields
         end) obj
  | _ => page
  end.
Definition json_ld_from_json (body page_url : string) : ExtractedPage :=
  match json_from_str body with
  | Ok value => process_document value page_url empty_page
  | Err _ => empty_page
  end.
Definition json_ld_from_html (html page_url : string) : ExtractedPage :=
  foldl (λ page text, match json_from_str text with
                      | Ok value => process_document value page_url page
                      | Err _ => page
                      end)
    empty_page (select_text html "script[type=application/ld+json]").

(** ** [markdown.rs] *)

Definition strip_prefix (p s : string) : option string :=
  if starts_with p s then Some (str_drop (String.length p) s) else None.
(** [trim_start] of a line: the platform's tables decide what white space is. *)
Definition markdown_title (trim_start : string → string) (line : string) : option string :=
  rest ← strip_prefix "# " (trim_start line);
  if bool_decide (trim rest = "") then None else Some (trim rest).
Definition markdown (trim_start : string → string) (text page_url : string) : ExtractedPage :=
  match head (omap (markdown_title trim_start) (lines text)) with
  | Some title => push_alias (name_of page_url title) empty_page
  | None => empty_page
  end.

(** ** [llms_txt.rs] *)

(** [s.find(c)], as the text before and after. *)
Fixpoint split_at (c : ascii) (s : string) : option (string * string) :=
  match s with
  | "" => None
  | String a s => if decide (a = c) then Some ("", s)
                  else '(l, r) ← split_at c s; Some (String a l, r)
  end.
Definition parse_markdown_link (s : string) : option (string * string) :=
  '(_, r) ← split_at "[" s;
  '(text, rest) ← split_at "]" r;
  '(_, r) ← split_at "(" rest;
  '(url, _) ← split_at ")" r;
  if bool_decide (url = "") then None else Some (text, url).
Definition links_to (site target : string) : ExtractedFact := fact site None "links_to" target None.
(** One turn of the loop, on the title so far and the page. *)
Definition llms_line (base : Url) (s : option string * ExtractedPage) (raw_line : string) :
    option string * ExtractedPage :=
  let '(title, page) := s in
  let line := trim raw_line in
  match (if bool_decide (title = None) then strip_prefix "# " line else None) with
  | Some rest => (if bool_decide (trim rest = "") then None else Some (trim rest), page)
  | None =>
      match (match strip_prefix "- " line with Some rest => Some rest | None => strip_prefix "* " line end) with
      | None => (title, page)
      | Some rest =>
          match parse_markdown_link rest with
          | Some (_, url) =>
              let resolved := match url_join base url with Some u => url_to_string u | None => url end in
              (title, push_fact (links_to (origin_of base) resolved) page)
          | None => (title, page)
          end
      end
  end.
Definition llms_lines (base : Url) (ls : list string) : ExtractedPage :=
  let '(title, page) := foldl (llms_line base) (None, empty_page) ls in
  match title with
  | Some title => push_alias (name_of (origin_of base) title) page
  | None => page
  end.
Definition llms_txt (body : string) (base : Url) : ExtractedPage := llms_lines base (lines body).

(** ** [ard.rs] and [a2a.rs] *)

(** [name.as_deref().map(str::trim).filter(|s| !s.is_empty())]. *)
Definition push_name (node : string) (name : option string) (page : ExtractedPage) : ExtractedPage :=
  match trim <$> name with
  | Some name => if bool_decide (name = "") then page else push_alias (name_of node name) page
  | None => page
  end.
Definition or_else (a b : option string) : option string := match a with Some _ => a | None => b end.
Definition push_operator (subject type : string) (org : option string) (page : ExtractedPage) : ExtractedPage :=
  match org with
  | Some org => push_fact (fact subject (Some type) "operated_by" org (Some "organization")) page
  | None => page
  end.
Definition push_capability (subject type : string) (page : ExtractedPage) (capability : string) : ExtractedPage :=
  push_fact (fact subject (Some type) "provides_capability" capability (Some "capability")) page.

Definition ard_type (r : ArdResource) : string :=
  match rs_type r with
  | Some t => if eq_ignore_ascii_case t "mcp_server" || eq_ignore_ascii_case t "mcp-server"
              then "mcp_server" else "agent"
  | None => "agent"
  end.
Definition ard_resource (site_origin : string) (page : ExtractedPage) (r : ArdResource) : ExtractedPage :=
  let resource_id := default site_origin (rs_resource_url r) in
  let node_type := ard_type r in
  let page := push_fact (fact resource_id (Some node_type) "instance_of" ("concept:" +:+ node_type) (Some "concept")) page in
  let page := push_name resource_id (rs_name r) page in
  let page := match rs_operator r with
              | Some o => push_operator resource_id node_type (or_else (op_url o) (op_name o)) page
              | None => page
              end in
  foldl (push_capability resource_id node_type) page (rs_capabilities r).
Definition ard (body site_origin : string) : ExtractedPage :=
  match ard_resources body with
  | Some resources => foldl (ard_resource site_origin) empty_page resources
  | None => empty_page
  end.

Definition a2a (body agent_url : string) : ExtractedPage :=
  match agent_card body with
  | None => empty_page
  | Some card =>
      let page := push_fact (fact agent_url (Some "agent") "instance_of" "concept:a2a-agent" (Some "concept")) empty_page in
      let page := push_name agent_url (card_name card) page in
      let page := match card_provider card with
                  | Some p => push_operator agent_url "agent" (or_else (pv_url p) (pv_organization p)) page
                  | None => page
                  end in
      foldl (push_capability agent_url "agent") page
        (omap (λ skill, or_else (sk_name skill) (sk_id skill)) (card_skills card))
  end.

(** ** [llm_extract.rs] *)

Record CandidateAssertion := {
  cd_subject : string; cd_predicate : string; cd_object : string; cd_confidence : Z }.

(** [confidence.clamp(0.0, 1.0)] on the bits of an [f32]: numbers without a
    sign are ordered like their bits, a NaN and a negative zero stay. *)
Definition clamp_confidence (bits : Z) : Z :=
  if f32_is_nan bits then bits
  else if Z.ltb 0x80000000 bits then 0
  else if Z.eqb 0x80000000 bits then bits
  else Z.min bits 0x3F800000.
(** [str::trim_start_matches]: the prefix is removed as often as it occurs. *)
Fixpoint trim_start_matches (fuel : nat) (p s : string) : string :=
  match fuel with
  | 0 => s
  | S fuel => match strip_prefix p s with Some rest => trim_start_matches fuel p rest | None => s end
  end.
Definition trim_end_matches (p s : string) : string :=
  String.rev (trim_start_matches (String.length s) (String.rev p) (String.rev s)).
Definition strip_fences (content : string) : string :=
  let s := trim content in
  let s := trim_start_matches (String.length s) "```json" s in
  let s := trim_start_matches (String.length s) "```" s in
  trim (trim_end_matches "```" s).
Definition usable (c : RawCandidate) : bool :=
  negb (bool_decide (trim (rc_subject c) = "")) && negb (bool_decide (trim (rc_predicate c) = "")) &&
  negb (bool_decide (trim (rc_object c) = "")).
Definition parse_candidates (content : string) : list CandidateAssertion :=
  match llm_candidates (strip_fences content) with
  | None => []
  | Some raw => (λ c, {| cd_subject := rc_subject c; cd_predicate := rc_predicate c;
                         cd_object := rc_object c; cd_confidence := clamp_confidence (rc_confidence c) |})
                <$> filter (λ c, usable c = true) raw
  end.

(** ** What can come out of an extractor *)

(** Facts about the nodes [about] allows, in the known vocabulary; names that
    are not blank. *)
Record scoped (about : string → Prop) (page : ExtractedPage) : Prop := {
  scoped_facts : Forall (λ f, about (fact_subject f) ∧ fact_predicate f ∈ KNOWN_PREDICATES) (facts page);
  scoped_aliases : Forall (λ a, about (alias_node_identifier a) ∧ alias_kind a = AliasName ∧
                              alias_text a ≠ "") (aliases page) }.

Lemma scoped_empty about : scoped about empty_page.
Proof. by split. Qed.
Lemma scoped_push_fact about page f :
  about (fact_subject f) → bool_decide (fact_predicate f ∈ KNOWN_PREDICATES) = true →
  scoped about page → scoped about (push_fact f page).
Proof.
  intros Hs Hp%bool_decide_eq_true [Hf Ha]. split; [|done]. apply Forall_app. split; [done|].
  by apply Forall_singleton.
Qed.
Lemma scoped_push_name about page node name : about node → name ≠ "" →
  scoped about page → scoped about (push_alias (name_of node name) page).
Proof.
  intros Hs Hn [Hf Ha]. split; [done|]. apply Forall_app. split; [done|]. by apply Forall_singleton.
Qed.
Lemma scoped_merge about page other : scoped about page → scoped about other → scoped about (merge page other).
Proof. intros [Hf Ha] [Hf' Ha']. split; by apply Forall_app. Qed.
Lemma scoped_foldl {A} about (f : ExtractedPage → A → ExtractedPage) l :
  (∀ page x, x ∈ l → scoped about page → scoped about (f page x)) →
  ∀ page, scoped about page → scoped about (foldl f page l).
Proof.
  induction l as [|x l IH]; intros Hf page Hp; [done|]. cbn. apply IH; [|by apply Hf; [left|]].
  intros page' x' Hx'. apply Hf. by right.
Qed.
Create HintDb extract.
#[local] Hint Resolve scoped_empty scoped_push_fact scoped_push_name scoped_merge : extract.

Lemma scoped_push_trimmed about page node name : about node → scoped about page → scoped about (push_name node name page).
Proof.
  intros Hs Hp. unfold push_name. destruct (trim <$> name) as [n|]; [|done].
  case_bool_decide; auto with extract.
Qed.
Lemma scoped_operator about page subject type org : about subject → scoped about page →
  scoped about (push_operator subject type org page).
Proof. intros. destruct org; cbn; auto with extract. Qed.
Lemma scoped_capabilities about subject type l page : about subject → scoped about page →
  scoped about (foldl (push_capability subject type) page l).
Proof. intros. apply scoped_foldl; [|done]. intros. apply scoped_push_fact; done. Qed.
#[local] Hint Resolve scoped_push_trimmed scoped_operator scoped_capabilities : extract.

Lemma scoped_process_node obj page_url page :
  scoped (eq page_url) page → scoped (eq page_url) (process_node obj page_url page).
Proof.
  intros Hp. unfold process_node.
  set (p1 := match get_key "name" obj ≫= as_text with Some _ => _ | None => _ end).
  assert (scoped (eq page_url) p1) as Hp1.
  { subst p1. destruct (get_key "name" obj ≫= as_text); [|done]. case_bool_decide; auto with extract. }
  clearbody p1. set (p2 := if _ || _ then _ else p1).
  assert (scoped (eq page_url) p2) as Hp2.
  { subst p2. destruct (_ || _); [|done]. destruct (get_key "codeRepository" obj ≫= as_text); auto with extract. }
  clearbody p2. set (p3 := if bool_decide ("organization" ∈ _) then _ else p2).
  assert (scoped (eq page_url) p3) as Hp3.
  { subst p3. destruct (bool_decide _); [|done]. destruct (get_key "url" obj ≫= as_text); auto with extract. }
  clearbody p3. destruct (get_key "sameAs" obj) as [[]|]; try done; [by apply scoped_push_fact|].
  apply scoped_foldl; [|done]. intros. by apply scoped_push_fact.
Qed.
Lemma scoped_process_document page_url : ∀ value page,
  scoped (eq page_url) page → scoped (eq page_url) (process_document value page_url page).
Proof.
  fix IH 1. intros value page Hp.
  assert (∀ items page, Forall (λ v, ∀ page, scoped (eq page_url) page →
      scoped (eq page_url) (process_document v page_url page)) items → scoped (eq page_url) page →
    scoped (eq page_url) ((fix process_all (items : list json) (page : ExtractedPage) : ExtractedPage :=
      match items with [] => page | item :: items => process_all items (process_document item page_url page) end)
      items page)) as Hall.
  { induction items as [|v items IHi]; intros p Hi Hp0; [done|]. inversion Hi; subst. auto. }
  assert (∀ items, Forall (λ v, ∀ page, scoped (eq page_url) page →
      scoped (eq page_url) (process_document v page_url page)) items) as Hitems.
  { fix IHl 1. intros [|v items]; constructor; [intros p Hp0; by apply IH|apply IHl]. }
  destruct value as [| | | | | |items|obj]; try done; [by apply Hall|].
  cbn [process_document].
  match goal with |- scoped _ (?F obj) => assert (∀ fields, scoped (eq page_url) (F fields)) as H; [|apply H] end.
  fix IHf 1. intros [|[k v] fields]; [by apply scoped_process_node|].
  destruct (decide _); [|apply IHf].
  destruct v; try by apply scoped_process_node. by apply Hall.
Qed.

Lemma scoped_names about node names : about node → "" ∉ names → scoped about (Extracted [] (name_of node <$> names)).
Proof.
  intros Hs Hn. split; [done|]. apply Forall_fmap, Forall_forall. intros n Hin. cbn.
  split_and!; [done|done|]. by intros ->.
Qed.
Lemma meta_names_not_blank html : "" ∉ meta_names html.
Proof.
  assert (∀ t : string, "" ∉ (if bool_decide (t = "") then [] else [t])) as H1.
  { intros t. case_bool_decide; [apply not_elem_of_nil|]. by intros <-%list_elem_of_singleton. }
  unfold meta_names. destruct (head (select_text html "title")) as [t|].
  - destruct (head (select_attr _ _ _)) as [[c|]|]; [|apply H1..].
    case_bool_decide as Hc; cbn; [apply H1|].
    destruct (bool_decide (trim c ∈ _)); [apply H1|].
    rewrite elem_of_app, list_elem_of_singleton. intros [H|H]; [by apply (H1 (trim t))|done].
  - destruct (head (select_attr _ _ _)) as [[c|]|]; [|apply not_elem_of_nil..].
    case_bool_decide as Hc; cbn; [apply not_elem_of_nil|].
    destruct (bool_decide (trim c ∈ [])); [apply not_elem_of_nil|].
    intros H%list_elem_of_singleton. congruence.
Qed.

(** Names of nodes that the same document states something about: the node
    they are attached to will exist. *)
Definition anchored (page : ExtractedPage) : Prop :=
  Forall (λ a, Exists (λ f, fact_subject f = alias_node_identifier a) (facts page)) (aliases page).
Lemma anchored_push_fact page f : anchored page → anchored (push_fact f page).
Proof. intros H. eapply Forall_impl; [exact H|]. intros a Ha. apply Exists_app. by left. Qed.
Lemma anchored_push_name page node name : Exists (λ f, fact_subject f = node) (facts page) →
  anchored page → anchored (push_name node name page).
Proof.
  intros Hf Ha. unfold push_name. destruct (trim <$> name); [|done]. case_bool_decide; [done|].
  apply Forall_app. split; [done|]. by apply Forall_singleton.
Qed.
Lemma push_name_facts node name page : facts (push_name node name page) = facts page.
Proof. unfold push_name. destruct (trim <$> name); [|done]. by case_bool_decide. Qed.
Lemma anchored_operator subject type org page : anchored page → anchored (push_operator subject type org page).
Proof. destruct org; [apply anchored_push_fact|done]. Qed.
Lemma anchored_capabilities subject type l page : anchored page →
  anchored (foldl (push_capability subject type) page l).
Proof. revert page. induction l as [|c l IH]; [done|]. intros page H. by apply IH, anchored_push_fact. Qed.
Lemma last_fact f page : Exists (λ g, fact_subject g = fact_subject f) (facts (push_fact f page)).
Proof. cbn. apply Exists_app. right. by apply Exists_cons_hd. Qed.

Lemma ard_resource_anchored origin page r : anchored page → anchored (ard_resource origin page r).
Proof.
  intros Ha. unfold ard_resource. set (id := default origin _). set (p1 := push_fact _ page).
  assert (anchored p1) as H1 by by apply anchored_push_fact.
  apply anchored_capabilities. destruct (rs_operator r); [apply anchored_operator|];
    (apply anchored_push_name; [|done]); apply (last_fact (fact id (Some (ard_type r)) _ _ _)).
Qed.
Lemma ard_resource_scoped about origin page r : about (default origin (rs_resource_url r)) →
  scoped about page → scoped about (ard_resource origin page r).
Proof.
  intros Hid Hp. unfold ard_resource. set (p1 := push_fact _ page).
  assert (scoped about p1) by by apply scoped_push_fact.
  apply scoped_capabilities; [done|]. destruct (rs_operator r); auto with extract.
Qed.

Lemma capabilities_facts subject type l page :
  facts (foldl (push_capability subject type) page l) =
  facts page ++ ((λ c, fact subject (Some type) "provides_capability" c (Some "capability")) <$> l).
Proof.
  revert page. induction l as [|c l IH]; intros page; cbn; [by rewrite app_nil_r|].
  rewrite IH. cbn. by rewrite <-app_assoc.
Qed.
(** A resource of an ARD document adds facts, the first one about its URL. *)
Lemma ard_resource_facts origin page r : ∃ f rest,
  facts (ard_resource origin page r) = facts page ++ f :: rest ∧ fact_subject f = default origin (rs_resource_url r).
Proof.
  unfold ard_resource. rewrite capabilities_facts. destruct (rs_operator r) as [o|].
  - unfold push_operator. destruct (or_else _ _) as [org|]; cbn [push_fact facts]; rewrite push_name_facts; cbn;
      rewrite <-!app_assoc; cbn; eexists _, _; by split.
  - rewrite push_name_facts. cbn. rewrite <-app_assoc. eexists _, _; by split.
Qed.
Lemma ard_facts origin l : ∀ page,
  (∃ rest, facts (foldl (ard_resource origin) page l) = facts page ++ rest) ∧
  ∀ r, r ∈ l → Exists (λ f, fact_subject f = default origin (rs_resource_url r)) (facts (foldl (ard_resource origin) page l)).
Proof.
  induction l as [|r l IH]; intros page; cbn [foldl].
  { split; [exists []; by rewrite app_nil_r|]. by intros r ?%elem_of_nil. }
  destruct (IH (ard_resource origin page r)) as [[rest Hrest] Hin].
  destruct (ard_resource_facts origin page r) as (f & rest' & Hf & Hs).
  split; [exists (f :: rest' ++ rest); rewrite Hrest, Hf, <-app_assoc; done|].
  intros r' [-> | Hr]%elem_of_cons; [|by apply Hin].
  rewrite Hrest, Hf. apply Exists_app. left. apply Exists_app. right. by apply Exists_cons_hd.
Qed.
Lemma a2a_spec body url : anchored (a2a body url) ∧ scoped (eq url) (a2a body url).
Proof.
  unfold a2a. destruct (agent_card body) as [card|]; [|by split; [constructor|]]. set (p1 := push_fact _ empty_page).
  assert (anchored p1) by (apply anchored_push_fact; constructor).
  assert (scoped (eq url) p1) by by apply scoped_push_fact.
  split.
  - apply anchored_capabilities. destruct (card_provider card); [apply anchored_operator|];
      (apply anchored_push_name; [|done]); apply (last_fact (fact url (Some "agent") _ _ _)).
  - apply scoped_capabilities; [done|]. destruct (card_provider card); auto with extract.
Qed.

Lemma llms_line_scoped base line title page :
  scoped (eq (origin_of base)) page → title ≠ Some "" →
  scoped (eq (origin_of base)) (llms_line base (title, page) line).2 ∧
  (llms_line base (title, page) line).1 ≠ Some "".
Proof.
  intros Hp Ht. cbn. destruct (if bool_decide (title = None) then _ else None) as [rest|].
  { cbn. split; [done|]. case_bool_decide; congruence. }
  destruct (match strip_prefix "- " _ with Some _ => _ | None => _ end) as [rest|]; [|done].
  destruct (parse_markdown_link rest) as [[? url]|]; [|done]. split; [|done].
  by apply scoped_push_fact.
Qed.
Lemma llms_txt_scoped body base : scoped (eq (origin_of base)) (llms_txt body base).
Proof.
  unfold llms_txt, llms_lines.
  assert (∀ ls title page, scoped (eq (origin_of base)) page → title ≠ Some "" →
    scoped (eq (origin_of base)) (foldl (llms_line base) (title, page) ls).2 ∧
    (foldl (llms_line base) (title, page) ls).1 ≠ Some "") as H.
  { induction ls as [|l ls IH]; intros title page Hp Ht; [done|]. cbn [foldl].
    destruct (llms_line_scoped base l title page Hp Ht) as [Hp' Ht'].
    destruct (llms_line base (title, page) l) as [title' page']. by apply IH. }
  destruct (H (lines body) None empty_page (scoped_empty _) ltac:(done)) as [Hp Ht].
  destruct (foldl _ _ _) as [[title|] page]; [|done]. apply scoped_push_name; [done|by intros ->|done].
Qed.

Lemma clamp_confidence_range bits : (0 ≤ bits < 2 ^ 32)%Z →
  f32_is_nan (clamp_confidence bits) = true ∨ clamp_confidence bits = 0x80000000%Z ∨
  (0 ≤ clamp_confidence bits ≤ 0x3F800000)%Z.
Proof.
  intros Hb. unfold clamp_confidence. destruct (f32_is_nan bits) eqn:?; [by left|].
  destruct (Z.ltb_spec 0x80000000 bits); [right; right; lia|].
  destruct (Z.eqb_spec 0x80000000 bits); [by right; left|right; right; lia].
Qed.

Lemma json_ld_json_scoped body url : scoped (eq url) (json_ld_from_json body url).
Proof. unfold json_ld_from_json. destruct (json_from_str body); [apply scoped_process_document|]; apply scoped_empty. Qed.
Lemma json_ld_html_scoped html url : scoped (eq url) (json_ld_from_html html url).
Proof.
  unfold json_ld_from_html. apply scoped_foldl; [|apply scoped_empty].
  intros page text _ Hp. destruct (json_from_str text); [by apply scoped_process_document|done].
Qed.
Lemma markdown_scoped ts text url : scoped (eq url) (markdown ts text url).
Proof.
  unfold markdown. destruct (head _) as [title|] eqn:Hh; [|apply scoped_empty].
  apply scoped_push_name; [done| |apply scoped_empty]. intros ->.
  assert ("" ∈ omap (markdown_title ts) (lines text)) as Hin.
  { destruct (omap _ _); [done|]. injection Hh as ->. left. }
  apply list_elem_of_omap in Hin as (line & _ & Hl). unfold markdown_title in Hl.
  apply bind_Some in Hl as (rest & _ & Hl). case_bool_decide; congruence.
Qed.
Lemma ard_scoped body origin : scoped (λ _, True) (ard body origin).
Proof.
  unfold ard. destruct (ard_resources body); [|apply scoped_empty].
  apply scoped_foldl; [|apply scoped_empty]. intros. by apply ard_resource_scoped.
Qed.

(** *** Reading links back *)

Lemma split_at_first c a b : (∀ x, x ∈ String.list_ascii_of_string a → x ≠ c) →
  split_at c (a +:+ String c b) = Some (a, b).
Proof.
  induction a as [|x a IH]; intros Ha.
  - change ("" +:+ ?s) with s. cbn [split_at]. by rewrite decide_True.
  - rewrite string_app_cons. cbn [split_at]. rewrite decide_False by (apply Ha; left).
    rewrite IH; [done|]. intros y Hy. apply Ha. by right.
Qed.

Definition plain (c : ascii) (s : string) : Prop := ∀ x, x ∈ String.list_ascii_of_string s → x ≠ c.
Definition link_line (l : string * string) : string :=
  "- [" +:+ (l.1 +:+ String "]" (String "(" (l.2 +:+ String ")" ""))).
Lemma parse_link text url : plain "]" text → plain ")" url → url ≠ "" →
  parse_markdown_link ("[" +:+ (text +:+ String "]" (String "(" (url +:+ String ")" "")))) = Some (text, url).
Proof.
  intros Ht Hu Hne. unfold parse_markdown_link.
  change ("[" +:+ ?s) with (String "[" s). cbn [split_at]. rewrite decide_True by done. cbn [mbind option_bind].
  rewrite split_at_first by done. cbn [mbind option_bind split_at]. rewrite decide_True by done. cbn [mbind option_bind].
  rewrite split_at_first by done. cbn. by rewrite bool_decide_false.
Qed.
(** A file of one title and a list of links is read back as such. *)
Lemma links_read_back base title links :
  trim ("# " +:+ title) = "# " +:+ title → trim title = title → title ≠ "" →
  Forall (λ l, trim (link_line l) = link_line l ∧ plain "]" l.1 ∧ plain ")" l.2 ∧ l.2 ≠ "") links →
  llms_lines base (("# " +:+ title) :: (link_line <$> links)) =
  Extracted ((λ l, links_to (origin_of base)
                     match url_join base l.2 with Some u => url_to_string u | None => l.2 end) <$> links)
    [name_of (origin_of base) title].
Proof.
  intros Hline Ht Hne Hl. unfold llms_lines. cbn [foldl llms_line].
  rewrite bool_decide_true by done. rewrite Hline. unfold strip_prefix at 1.
  change ("# " +:+ title) with (String "#" (String " " title)). cbn [starts_with]. rewrite !bool_decide_true by done.
  cbn [andb str_drop String.length]. destruct title as [|a title]; [done|].
  cbn [starts_with]. rewrite Ht, bool_decide_false by done.
  assert (∀ links page, Forall (λ l, trim (link_line l) = link_line l ∧ plain "]" l.1 ∧ plain ")" l.2 ∧ l.2 ≠ "") links →
    foldl (llms_line base) (Some (String a title), page) (link_line <$> links) =
    (Some (String a title), Extracted (facts page ++ ((λ l, links_to (origin_of base)
      match url_join base l.2 with Some u => url_to_string u | None => l.2 end) <$> links)) (aliases page))) as H.
  { clear Hl links. induction links as [|l links IH]; intros page Hl.
    { cbn. rewrite app_nil_r. by destruct page. }
    inversion Hl as [|? ? (Htrim & H1 & H2 & H3) Hrest]; subst. cbn [fmap list_fmap foldl].
    rewrite <-(app_nil_l (_ :: _)). cbn [llms_line]. rewrite bool_decide_false by done. rewrite Htrim.
    unfold strip_prefix at 1. unfold link_line at 1 2.
    change ("- [" +:+ ?s) with (String "-" (String " " ("[" +:+ s))).
    cbn [starts_with]. rewrite !bool_decide_true by done. cbn [andb str_drop String.length].
    rewrite parse_link by done. rewrite IH by done. cbn. by rewrite <-app_assoc. }
  rewrite H by done. reflexivity.
Qed.
End extract.

(** ** The property *)

Section properties.
Context `{P : Platform} `{C : Codec} `{U : GraphPlatform} `{W : !Web} `{D : Documents} `{O : !UrlPorts}.

(** What a document can make the crawler say.  HTML names and JSON-LD and
    Markdown documents speak of the page's own URL only, an llms.txt of its
    site, an agent card of the page it is read for; all in the known
    vocabulary, names never blank.  An ARD document speaks of its site and of
    whatever URLs it lists, on other sites as well.  The names in an ARD
    document or an agent card belong to nodes the same document states
    something about; the title of an llms.txt without links does not.  An LLM's
    candidates have no blank part, and their confidence is at most one. *)
Theorem extraction_scoped :
  (∀ html url, scoped (eq url) (html_meta html url) ∧ facts (html_meta html url) = []) ∧
  (∀ body url, scoped (eq url) (json_ld_from_json body url) ∧ scoped (eq url) (json_ld_from_html body url)) ∧
  (∀ trim_start text url, scoped (eq url) (markdown trim_start text url)) ∧
  (∀ body base, scoped (eq (origin_of base)) (llms_txt body base)) ∧
  (∀ body url, scoped (eq url) (a2a body url) ∧ anchored (a2a body url)) ∧
  (∀ body origin resources, ard_resources body = Some resources →
     anchored (ard body origin) ∧
     scoped (λ s, s = origin ∨ Exists (λ r, rs_resource_url r = Some s) resources) (ard body origin) ∧
     ∀ r, r ∈ resources → Exists (λ f, fact_subject f = default origin (rs_resource_url r)) (facts (ard body origin))) ∧
  (∀ base title, trim ("# " +:+ title) = "# " +:+ title → trim title = title → title ≠ "" →
     llms_lines base ["# " +:+ title] = Extracted [] [name_of (origin_of base) title]) ∧
  (∀ content c, c ∈ parse_candidates content →
     trim (cd_subject c) ≠ "" ∧ trim (cd_predicate c) ≠ "" ∧ trim (cd_object c) ≠ "" ∧
     ∃ bits, cd_confidence c = clamp_confidence bits ∧
       ((0 ≤ bits < 2 ^ 32)%Z → f32_is_nan (cd_confidence c) = true ∨ cd_confidence c = 0x80000000%Z ∨
                              (0 ≤ cd_confidence c ≤ 0x3F800000)%Z)).
Proof.
  split_and!.
  - intros html url. split; [|done]. apply scoped_names; [done|apply meta_names_not_blank].
  - intros body url. split; [apply json_ld_json_scoped|apply json_ld_html_scoped].
  - intros. apply markdown_scoped.
  - apply llms_txt_scoped.
  - intros body url. destruct (a2a_spec body url). by split.
  - intros body origin resources Hr. unfold ard. rewrite Hr.
    assert (∀ l page, anchored page → anchored (foldl (ard_resource origin) page l)) as Hanch.
    { induction l as [|r l IH]; intros page Hp; [done|]. cbn. by apply IH, ard_resource_anchored. }
    split_and!.
    + apply Hanch. constructor.
    + apply scoped_foldl; [|apply scoped_empty]. intros page r Hin Hp. apply ard_resource_scoped; [|done].
      destruct (rs_resource_url r) as [u|] eqn:Hu; [right|by left].
      apply Exists_exists. exists r. split; [done|exact Hu].
    + apply (ard_facts origin resources empty_page).
  - intros base title H1 H2 H3. by apply (links_read_back base title []).
  - intros content c. unfold parse_candidates. destruct (llm_candidates _) as [raw|]; [|by intros ?%elem_of_nil].
    intros (r & -> & [Hu Hr]%list_elem_of_filter)%list_elem_of_fmap. cbn. unfold usable in Hu.
    repeat case_bool_decide; try done. split_and!; try done.
    exists (rc_confidence r). split; [done|apply clamp_confidence_range].
Qed.
End properties.

(** ** Examples *)

Section examples.
#[local] Existing Instance Toy.platform.

(** The objects of a graph, one of them not recognised. *)
Example graph_of_two :
  process_document (Object [("@graph", Array [Object [("@type", Str "Organization"); ("url", Str "https://o")];
    Object [("@type", Str "Recipe"); ("name", Str " Soup ")]])]) "https://p" empty_page =
  Extracted [fact "https://p" None "operated_by" "https://o" (Some "organization")]
    [name_of "https://p" "Soup"].
Proof. reflexivity. Qed.

(** A document found on one site states something about another. *)
Example ard_speaks_of_others :
  facts (ard_resource "https://here" empty_page {| rs_name := None; rs_type := Some "MCP-Server";
    rs_resource_url := Some "https://elsewhere"; rs_capabilities := ["search"]; rs_operator := None |}) =
  [fact "https://elsewhere" (Some "mcp_server") "instance_of" "concept:mcp_server" (Some "concept");
   fact "https://elsewhere" (Some "mcp_server") "provides_capability" "search" (Some "capability")].
Proof. reflexivity. Qed.

Example fences_stripped : strip_fences " ```json[]``` " = "[]".
Proof. reflexivity. Qed.
End examples.
