(* ===== verification/Crawl.v ===== *)
(** * Crawling a page

    [oag-crawler/src/crawler.rs]: the page is fetched if robots.txt allows it,
    read by the extractors, and what they find is asserted through the graph
    service, under the crawler's own actor; then the site's llms.txt, ARD and
    agent card documents.  The pinning provider and the language model are
    records of functions, as the traits they implement. *)

From S2P Require Import Prelude Core Envelope Store Projector EventLog Frame Scenario Chain Replay Service Graph Rebuild Typing Queries Search GraphFacts Bytes Presence RateLimit Ntp Signed Gateway Ssrf Robots Fetch Extract.

Definition CRAWLER_ACTOR_NAME : string := "crawler".
Definition LLM_EXTRACTION_MAX_CHARS : nat := Z.to_nat 8000.

(** The bits of the [f32]s 0.95, 0.7 and 0.5. *)
Definition BASELINE_CONFIDENCE : Z := 0x3F733333.
Definition EXTRACTED_CONFIDENCE : Z := 0x3F333333.
Definition LLMS_TXT_CONFIDENCE : Z := 0x3F000000.

Record CrawlSummary := Summary {
  page_url : string; facts_asserted : nat; facts_skipped : nat; aliases_declared : nat;
  llms_txt_found : bool; ard_found : bool; a2a_found : bool; llm_candidates_asserted : nat }.

(** The traits [PinningProvider] and [LlmExtractor]; the n-th action on the
    outside may turn out differently each time. *)
Record PinningProvider := { pin : nat → string → result string string }.
Record LlmExtractor := {
  model_name : string;
  llm_extract : nat → string → string → result string (list CandidateAssertion) }.
Definition DisabledProvider : PinningProvider := {| pin := λ _ _, Err "disabled" |}.
Definition DisabledExtractor : LlmExtractor := {| model_name := ""; llm_extract := λ _ _ _, Ok [] |}.

Section crawl.
Context `{P : Platform} `{C : Codec} `{U : GraphPlatform} `{N : Unicode} `{T : FullText}.
Context `{W : !Web} `{D : Documents} `{O : !UrlPorts}.
Context (identity : SigningKey) (clock : nat → Z) (config : CrawlerConfig)
        (pinning_provider : PinningProvider) (llm_extractor : LlmExtractor)
        (trim_start : string → string).

(** What the service works on: the graph's process, the outside, and the two
    counters. *)
Record crawler := CrawlerState {
  cr_graph : service; cr_web : web; crawls_total : Z; crawls_failed : Z }.

Abbreviation crawl_m := (ste crawler CrawlError).

Definition on_graph {A} (m : ste service GraphError A) : crawl_m A := λ s,
  let '(r, g) := m (cr_graph s) in
  (map_err CrawlGraph r, CrawlerState g (cr_web s) (crawls_total s) (crawls_failed s)).
Definition on_web {A} (m : ste web CrawlError A) : crawl_m A := λ s,
  let '(r, w) := m (cr_web s) in
  (r, CrawlerState (cr_graph s) w (crawls_total s) (crawls_failed s)).
(** A call whose failure the caller looks at: [match result { .. }]. *)
Definition attempt {A} (m : crawl_m A) : crawl_m (result CrawlError A) := λ s,
  let '(r, s) := m s in (Ok r, s).

Definition now_ts : crawl_m Z := on_graph (read_clock clock).
(** A query of the graph service. *)
Definition ask {A} (m : txg A) : ste service GraphError A := λ s, (fst <$> m (store s), s).

(** *** Who speaks *)

Definition find_or_declare (name : string) (type : ActorType) : ste service GraphError AuthContext :=
  found ← query (actors_find_by_name_and_type name type);
  actor_id ← match found with
             | Some actor => mret (t_id actor)
             | None => declare_actor identity clock type (Some name) None None
             end;
  mret {| auth_actor_id := actor_id; auth_permissions := [GraphAssert] |}.
Definition crawler_auth : crawl_m AuthContext := on_graph (find_or_declare CRAWLER_ACTOR_NAME Crawler).
Definition llm_actor_name : string := "llm-extractor:" +:+ model_name llm_extractor.
Definition llm_extractor_auth : crawl_m AuthContext := on_graph (find_or_declare llm_actor_name Model).

(** *** What is said *)

Definition evidence_input (type uri hash : string) (retrieved : Z) (cid : option string) : EvidenceInput :=
  {| in_evidence_type := Some type; in_uri := Some uri; in_title := None; in_excerpt := None;
     in_content_hash := Some hash; in_observed_at := None; in_retrieved_at := Some retrieved;
     in_pinned_cid := cid; in_metadata := None |}.
Definition fact_input (f : ExtractedFact) (e : EvidenceInput) (confidence : Z) : AssertInput :=
  {| in_subject := fact_subject f; in_subject_type := fact_subject_type f; in_predicate := fact_predicate f;
     in_object := fact_object f; in_object_type := fact_object_type f; in_evidence := [e];
     in_actor_confidence := Some confidence; in_asserted_observed_at := None;
     in_extraction_method := Some StructuredExtraction |}.
Definition baseline_input (final_url : string) (is_html : bool) (e : EvidenceInput) : AssertInput :=
  fact_input (fact final_url (Some (if is_html then "website" else "document")) "instance_of"
                (if is_html then "concept:website" else "concept:document") (Some "concept"))
    e BASELINE_CONFIDENCE.
Definition candidate_input (c : CandidateAssertion) (e : EvidenceInput) : AssertInput :=
  {| in_subject := cd_subject c; in_subject_type := None; in_predicate := cd_predicate c;
     in_object := cd_object c; in_object_type := None;
     in_evidence := [{| in_evidence_type := Some "agent_observation"; in_uri := in_uri e;
       in_title := in_title e; in_excerpt := in_excerpt e; in_content_hash := in_content_hash e;
       in_observed_at := in_observed_at e; in_retrieved_at := in_retrieved_at e;
       in_pinned_cid := in_pinned_cid e; in_metadata := in_metadata e |}];
     in_actor_confidence := Some (cd_confidence c); in_asserted_observed_at := None;
     in_extraction_method := Some LlmExtraction |}.

Definition count_fact (ok : bool) (s : CrawlSummary) : CrawlSummary :=
  Summary (page_url s) (if ok then S (facts_asserted s) else facts_asserted s)
    (if ok then facts_skipped s else S (facts_skipped s)) (aliases_declared s)
    (llms_txt_found s) (ard_found s) (a2a_found s) (llm_candidates_asserted s).
Definition count_candidate (ok : bool) (s : CrawlSummary) : CrawlSummary :=
  Summary (page_url s) (facts_asserted s) (if ok then facts_skipped s else S (facts_skipped s))
    (aliases_declared s) (llms_txt_found s) (ard_found s) (a2a_found s)
    (if ok then S (llm_candidates_asserted s) else llm_candidates_asserted s).
Definition count_alias (s : CrawlSummary) : CrawlSummary :=
  Summary (page_url s) (facts_asserted s) (facts_skipped s) (S (aliases_declared s))
    (llms_txt_found s) (ard_found s) (a2a_found s) (llm_candidates_asserted s).

Definition resolve_node_id (identifier : string) : crawl_m hash32 :=
  outcome ← on_graph (ask (resolve identifier));
  match outcome with
  | Found node => mret (n_id node)
  | _ => raise (CrawlGraph (GNotFound ("node for " +:+ identifier)))
  end.

Fixpoint assert_facts (auth : AuthContext) (fs : list ExtractedFact) (e : EvidenceInput) (confidence : Z)
    (summary : CrawlSummary) : crawl_m CrawlSummary :=
  match fs with
  | [] => mret summary
  | f :: fs =>
      r ← attempt (on_graph (assert_ identity clock auth (fact_input f e confidence)));
      assert_facts auth fs e confidence (count_fact (is_ok r) summary)
  end.
Fixpoint declare_aliases (auth : AuthContext) (als : list ExtractedAlias) (summary : CrawlSummary) :
    crawl_m CrawlSummary :=
  match als with
  | [] => mret summary
  | a :: als =>
      found ← attempt (resolve_node_id (alias_node_identifier a));
      match found with
      | Err _ => declare_aliases auth als summary
      | Ok node_id =>
          r ← attempt (on_graph (declare_alias identity clock auth node_id (alias_text a) (alias_kind a)));
          declare_aliases auth als (if is_ok r then count_alias summary else summary)
      end
  end.
Definition assert_extracted (auth : AuthContext) (page : ExtractedPage) (e : EvidenceInput)
    (confidence : Z) (summary : CrawlSummary) : crawl_m CrawlSummary :=
  summary ← assert_facts auth (facts page) e confidence summary;
  declare_aliases auth (aliases page) summary.

(** *** The passes *)

Fixpoint assert_candidates (auth : AuthContext) (cs : list CandidateAssertion) (e : EvidenceInput)
    (summary : CrawlSummary) : crawl_m CrawlSummary :=
  match cs with
  | [] => mret summary
  | c :: cs =>
      r ← attempt (on_graph (assert_ identity clock auth (candidate_input c e)));
      assert_candidates auth cs e (count_candidate (is_ok r) summary)
  end.
(** The language model reads the text of an HTML page; its failure is ignored,
    that of declaring its actor is not. *)
Definition llm_pass (is_html : bool) (body_str final_url : string) (e : EvidenceInput)
    (summary : CrawlSummary) : crawl_m CrawlSummary :=
  if negb is_html then mret summary else
  let text := body_text body_str LLM_EXTRACTION_MAX_CHARS in
  if bool_decide (trim text = "") then mret summary else
  found ← on_web (act (λ n, llm_extract llm_extractor n text final_url));
  match found with
  | Ok ((_ :: _) as candidates) =>
      llm_auth ← llm_extractor_auth;
      assert_candidates llm_auth candidates e summary
  | _ => mret summary
  end.

Definition page_facts (content_type body_str final_url : string) : ExtractedPage :=
  if bool_decide (content_type = "text/html" ∨ content_type = "application/xhtml+xml") then
    merge (merge empty_page (html_meta body_str final_url)) (json_ld_from_html body_str final_url)
  else if bool_decide (content_type = "application/ld+json") then
    merge empty_page (json_ld_from_json body_str final_url)
  else if bool_decide (content_type = "text/markdown") then
    merge empty_page (markdown trim_start body_str final_url)
  else empty_page.

(** One of the site's own documents, if it can be fetched. *)
Definition side_document (auth : AuthContext) (url : Url) (path evidence_type : string) (confidence : Z)
    (read : string → Url → ExtractedPage) (found : CrawlSummary → CrawlSummary)
    (summary : CrawlSummary) : crawl_m CrawlSummary :=
  match url_join url path with
  | None => mret summary
  | Some doc_url =>
      r ← attempt (on_web (safe_fetch doc_url config));
      match r with
      | Err _ => mret summary
      | Ok page =>
          let extracted := read (utf8_lossy (body page)) doc_url in
          t ← now_ts;
          summary ← assert_extracted auth extracted
                      (evidence_input evidence_type (url_to_string doc_url) (content_hash page) t None)
                      confidence summary;
          mret (found summary)
      end
  end.
Definition found_llms (s : CrawlSummary) : CrawlSummary :=
  Summary (page_url s) (facts_asserted s) (facts_skipped s) (aliases_declared s) true (ard_found s)
    (a2a_found s) (llm_candidates_asserted s).
Definition found_ard (s : CrawlSummary) : CrawlSummary :=
  Summary (page_url s) (facts_asserted s) (facts_skipped s) (aliases_declared s) (llms_txt_found s) true
    (a2a_found s) (llm_candidates_asserted s).
Definition found_a2a (s : CrawlSummary) : CrawlSummary :=
  Summary (page_url s) (facts_asserted s) (facts_skipped s) (aliases_declared s) (llms_txt_found s)
    (ard_found s) true (llm_candidates_asserted s).

(** [crawl_inner] after the baseline statement. *)
Definition enrich (auth : AuthContext) (url : Url) (page : FetchedPage) (e : EvidenceInput)
    (summary : CrawlSummary) : crawl_m CrawlSummary :=
  let final := url_to_string (final_url page) in
  let is_html := bool_decide (content_type page = "text/html" ∨ content_type page = "application/xhtml+xml") in
  let body_str := utf8_lossy (body page) in
  summary ← assert_extracted auth (page_facts (content_type page) body_str final) e EXTRACTED_CONFIDENCE summary;
  summary ← llm_pass is_html body_str final e summary;
  summary ← side_document auth url "/llms.txt" "documentation" LLMS_TXT_CONFIDENCE llms_txt found_llms summary;
  summary ← side_document auth url "/.well-known/ard.json" "api_response" EXTRACTED_CONFIDENCE
              (λ text _, ard text (origin_of url)) found_ard summary;
  side_document auth url "/.well-known/agent-card.json" "api_response" EXTRACTED_CONFIDENCE
    (λ text _, a2a text final) found_a2a summary.
(** [crawl_inner] after the page has been fetched. *)
Definition crawl_fetched (auth : AuthContext) (url : Url) (page : FetchedPage) : crawl_m CrawlSummary :=
  let final := url_to_string (final_url page) in
  let is_html := bool_decide (content_type page = "text/html" ∨ content_type page = "application/xhtml+xml") in
  pinned ← on_web (act (λ n, pin pinning_provider n (body page)));
  t ← now_ts;
  let page_evidence := evidence_input "web_page" final (content_hash page) t (to_option pinned) in
  _ ← on_graph (assert_ identity clock auth (baseline_input final is_html page_evidence));
  let summary := count_fact true (Summary (url_to_string url) 0 0 0 false false false 0) in
  enrich auth url page page_evidence summary.
Definition crawl_inner (url : Url) : crawl_m CrawlSummary :=
  auth ← crawler_auth;
  page ← on_web (crawl_page url config);
  crawl_fetched auth url page.
(** The two counters are [u64]s. *)
Definition crawl (url : Url) : crawl_m CrawlSummary := λ s,
  let '(r, s) := crawl_inner url (CrawlerState (cr_graph s) (cr_web s) (wrap_u64 (crawls_total s + 1)) (crawls_failed s)) in
  (r, CrawlerState (cr_graph s) (cr_web s) (crawls_total s)
        (if is_ok r then crawls_failed s else wrap_u64 (crawls_failed s + 1))).

(** ** What a crawl writes *)

(** A body that came in on a connection after the first [k]. *)
Definition came (k : nat) (w : web) (text : string) : Prop :=
  ∃ c n x parts, c ∈ drop k (contacts w) ∧ http_get n (ct_host c) (ct_addrs c) (ct_url c) = Ok x ∧
    rs_chunks x = Ok <$> parts ∧ text = received parts.

Definition CRAWL_EVIDENCE : list string := ["web_page"; "agent_observation"; "documentation"; "api_response"].
Definition CONFIDENCES : list Z := [BASELINE_CONFIDENCE; EXTRACTED_CONFIDENCE; LLMS_TXT_CONFIDENCE].

Section says.
Context (me : hash32) (k : nat) (got : string → Prop) (model : option hash32).

(** Evidence that names bytes received, by their hash. *)
Definition of_received (e : EvidenceInput) : Prop :=
  (∃ text, got text ∧ in_content_hash e = Some (blake3_content_hash text)) ∧
  default "other" (in_evidence_type e) ∈ CRAWL_EVIDENCE.

(** Everything a crawl can commit: the declaration of one of its two actors, a
    statement of the crawler's actor [me] about a fact found by structured
    extraction, a candidate of the language model as a statement of its actor
    [model], evidence for what was received, a name. *)
Inductive crawler_says : EventPayload → Prop :=
  | says_actor name type :
      (name, type) = (CRAWLER_ACTOR_NAME, Crawler) ∨ (name, type) = (llm_actor_name, Model) →
      crawler_says (ActorDeclare {| ad_actor_type := as_str type; ad_name := Some name;
                                    ad_public_key := None; ad_identity_uri := None |})
  | says_fact auth f e confidence :
      auth_actor_id auth = me → of_received e → confidence ∈ CONFIDENCES →
      crawler_says (assert_payload auth (fact_input f e confidence))
  | says_candidate auth c e :
      model = Some (auth_actor_id auth) → of_received e →
      crawler_says (assert_payload auth (candidate_input c e))
  | says_evidence p text :
      got text → ae_content_hash p = Some (blake3_content_hash text) →
      ae_evidence_type p ∈ CRAWL_EVIDENCE →
      crawler_says (AddEvidence p)
  | says_name p : na_alias_type p = as_str AliasName → crawler_says (NodeAlias p).

Definition wrote (d d' : db) : Prop :=
  ∃ p t id out, crawler_says p ∧ committed identity p t d id out d'.
Definition writes (g g' : service) : Prop := rtc wrote (store g) (store g').
#[export] Instance writes_preorder : PreOrder writes.
Proof. split; [intros g; apply rtc_refl|intros g1 g2 g3; unfold writes; apply transitivity]. Qed.

(** The counters are left alone, connections are only added, and where all
    bodies that come in count as received, only the above is written. *)
Record crawl_writes (s s' : crawler) : Prop := {
  cw_total : crawls_total s' = crawls_total s;
  cw_failed : crawls_failed s' = crawls_failed s;
  cw_contacts : contacts (cr_web s) `prefix_of` contacts (cr_web s');
  cw_writes : k ≤ length (contacts (cr_web s)) → (∀ text, came k (cr_web s') text → got text) →
    writes (cr_graph s) (cr_graph s') }.

Lemma came_later w w' text : contacts w `prefix_of` contacts w' → came k w text → came k w' text.
Proof.
  intros [new E] (c & n & x & parts & Hc & Hrest). exists c, n, x, parts. split; [|done].
  rewrite E, drop_app. apply elem_of_app. by left.
Qed.
#[export] Instance crawl_writes_preorder : PreOrder crawl_writes.
Proof.
  split; [by intros s|]. intros s1 s2 s3 [T1 F1 C1 W1] [T2 F2 C2 W2]. split; [congruence..|by etransitivity|].
  intros Hk Hgot. transitivity (cr_graph s2).
  - apply W1; [done|]. intros text H. by apply Hgot, (came_later (cr_web s2)).
  - apply W2; [|done]. apply prefix_length in C1. lia.
Qed.

Lemma on_graph_steps {A} (m : ste service GraphError A) : steps writes m → steps crawl_writes (on_graph m).
Proof. intros Hm s. specialize (Hm (cr_graph s)). unfold on_graph. destruct (m (cr_graph s)). by split. Qed.
Lemma on_web_steps {A} (m : ste web CrawlError A) :
  (∀ w, contacts w `prefix_of` contacts (m w).2) → steps crawl_writes (on_web m).
Proof. intros Hm s. specialize (Hm (cr_web s)). unfold on_web. destruct (m _). by split. Qed.
Lemma act_steps {A} (f : nat → A) : steps crawl_writes (on_web (act f)).
Proof. by apply on_web_steps. Qed.
Lemma attempt_steps {A} (m : crawl_m A) : steps crawl_writes m → steps crawl_writes (attempt m).
Proof. intros Hm s. specialize (Hm s). unfold attempt. by destruct (m s). Qed.

Lemma read_clock_steps : steps writes (read_clock (E:=GraphError) clock).
Proof. intros g. apply rtc_refl. Qed.
Lemma query_steps {A} (m : tx A) : steps writes (query m).
Proof. intros g. apply rtc_refl. Qed.
Lemma ask_steps {A} (m : txg A) : steps writes (ask m).
Proof. intros g. apply rtc_refl. Qed.
Lemma commit_steps p t : crawler_says p → steps writes (commit_event identity p t).
Proof.
  intros Hp g. unfold writes. destruct (commit_event_cases identity p t g) as [[e ->]|(id & out & d' & Hc & ->)];
    [apply rtc_refl|]. apply rtc_once. by exists p, t, id, out.
Qed.

Lemma find_or_declare_steps name type :
  (name, type) = (CRAWLER_ACTOR_NAME, Crawler) ∨ (name, type) = (llm_actor_name, Model) →
  steps writes (find_or_declare name type).
Proof.
  intros Hn. unfold find_or_declare. apply (steps_bind writes); [apply query_steps|].
  intros found. apply (steps_bind writes); [|intros; apply (steps_ret writes)].
  destruct found as [actor|]; [apply (steps_ret writes)|]. unfold declare_actor.
  apply (steps_bind_result writes). intros _ _. apply (steps_bind_result writes). intros _ _.
  apply (steps_bind_result writes). intros key [= <-]. apply (steps_bind writes); [apply read_clock_steps|].
  intros t. apply (steps_bind writes); [by apply commit_steps, says_actor|].
  intros [id []]; [apply (steps_raise writes)|apply (steps_ret writes)].
Qed.
Lemma add_evidence_steps id e : of_received e → steps writes (add_evidence_internal identity clock id e).
Proof.
  intros [(text & Hg & Hh) Ht]. unfold add_evidence_internal. apply (steps_bind writes); [apply read_clock_steps|]. intros t.
  apply (steps_bind writes); [by eapply commit_steps, says_evidence|intros; apply (steps_ret writes)].
Qed.
Lemma assert_steps auth i e :
  crawler_says (assert_payload auth i) → in_evidence i = [e] → of_received e →
  steps writes (assert_ identity clock auth i).
Proof.
  intros Hs He Hr. unfold assert_. do 2 (apply (steps_bind_result writes); intros _ _).
  apply (steps_bind writes); [apply read_clock_steps|]. intros t.
  apply (steps_bind writes); [by apply commit_steps|]. intros [id out]. rewrite He. cbn [add_all].
  apply (steps_bind writes); [|intros; apply (steps_ret writes)].
  apply (steps_bind writes); [by apply add_evidence_steps|intros; apply (steps_ret writes)].
Qed.
(** When the assertion succeeds, it was committed first. *)
Lemma assert_commits auth i e g id g' : in_evidence i = [e] → of_received e →
  assert_ identity clock auth i g = (Ok id, g') →
  ∃ t out d1, committed identity (assert_payload auth i) t (store g) id out d1 ∧ rtc wrote d1 (store g').
Proof.
  intros He Hr H. unfold assert_ in H.
  apply ste_bind_ok in H as (u1 & g1 & [= _ <-] & H). apply ste_bind_ok in H as (u2 & g2 & [= _ <-] & H).
  apply ste_bind_ok in H as (t & g3 & [= <- <-] & H).
  apply ste_bind_ok in H as ([id' out] & g4 & Hc%commit_event_ok & H). rewrite He in H.
  apply ste_bind_ok in H as (u3 & g5 & H5 & [= <- <-]). eexists _, out, (store g4). split; [exact Hc|].
  assert (steps writes (add_all identity clock id' [e])) as Hs.
  { apply (steps_bind writes); [by apply add_evidence_steps|intros; apply (steps_ret writes)]. }
  specialize (Hs g4). by rewrite H5 in Hs.
Qed.
Lemma declare_alias_steps auth node alias : steps writes (declare_alias identity clock auth node alias AliasName).
Proof.
  unfold declare_alias, commit_now. do 2 (apply (steps_bind_result writes); intros _ _).
  apply (steps_bind writes); [apply read_clock_steps|]. intros t.
  apply (steps_bind writes); [by apply commit_steps, says_name|intros; apply (steps_ret writes)].
Qed.

Lemma fact_steps auth f e confidence : auth_actor_id auth = me → of_received e → confidence ∈ CONFIDENCES →
  steps crawl_writes (on_graph (assert_ identity clock auth (fact_input f e confidence))).
Proof. intros. apply on_graph_steps. eapply assert_steps; [by apply says_fact|done..]. Qed.
Lemma assert_facts_steps auth e confidence fs : auth_actor_id auth = me → of_received e → confidence ∈ CONFIDENCES →
  ∀ summary, steps crawl_writes (assert_facts auth fs e confidence summary).
Proof.
  intros Ha Hr Hc. induction fs as [|f fs IH]; intros summary; cbn; [apply (steps_ret crawl_writes)|].
  apply (steps_bind crawl_writes); [by apply attempt_steps, fact_steps|intros r; apply IH].
Qed.
Lemma resolve_node_id_steps identifier : steps crawl_writes (resolve_node_id identifier).
Proof.
  unfold resolve_node_id. apply (steps_bind crawl_writes); [by apply on_graph_steps, ask_steps|].
  intros []; [apply (steps_ret crawl_writes)|apply (steps_raise crawl_writes)..].
Qed.
Lemma declare_aliases_steps auth als : Forall (λ a, alias_kind a = AliasName) als →
  ∀ summary, steps crawl_writes (declare_aliases auth als summary).
Proof.
  induction 1 as [|a als Ha Hals IH]; intros summary; cbn; [apply (steps_ret crawl_writes)|].
  apply (steps_bind crawl_writes); [by apply attempt_steps, resolve_node_id_steps|].
  intros [node|e]; [|apply IH]. rewrite Ha.
  apply (steps_bind crawl_writes); [by apply attempt_steps, on_graph_steps, declare_alias_steps|intros r; apply IH].
Qed.
Lemma assert_extracted_steps auth page e confidence summary about : auth_actor_id auth = me →
  of_received e → confidence ∈ CONFIDENCES →
  scoped about page → steps crawl_writes (assert_extracted auth page e confidence summary).
Proof.
  intros Ha Hr Hc [_ Hal]. unfold assert_extracted.
  apply (steps_bind crawl_writes); [by apply assert_facts_steps|]. intros s. apply declare_aliases_steps.
  eapply Forall_impl; [exact Hal|]. by intros a (_ & ? & _).
Qed.
Lemma candidates_steps auth e cs : model = Some (auth_actor_id auth) → of_received e →
  ∀ summary, steps crawl_writes (assert_candidates auth cs e summary).
Proof.
  intros Ha He. induction cs as [|c cs IH]; intros summary; cbn; [apply (steps_ret crawl_writes)|].
  apply (steps_bind crawl_writes); [|intros r; apply IH]. apply attempt_steps, on_graph_steps.
  eapply assert_steps; [by apply says_candidate|done|]. split; [apply He|right; left].
Qed.
End says.

(** *** The site's own documents *)

Section documents.
Context (me : hash32) (k : nat).

Lemma reaches_prefix pin allow n w w' : reaches pin allow n w w' → contacts w `prefix_of` contacts w'.
Proof. intros (new & E & _). by exists new. Qed.
Lemma page_came w w' page : k ≤ length (contacts w) → page_of config w w' page → came k w' (body page).
Proof.
  intros Hk (_ & _ & _ & x & parts & (n & c & before & Hc & Hp & Hx) & _ & _ & _ & Hparts & Hb).
  exists c, n, x, parts. split_and!; [|done..]. apply prefix_length in Hp.
  rewrite Hc, drop_app_le by lia. apply elem_of_app. right. by left.
Qed.

Lemma side_document_steps got model auth url path type confidence (rd : string → Url → ExtractedPage) found summary :
  auth_actor_id auth = me → type ∈ CRAWL_EVIDENCE → confidence ∈ CONFIDENCES →
  (∀ text u, ∃ about, scoped about (rd text u)) →
  steps (crawl_writes me k got model) (side_document auth url path type confidence rd found summary).
Proof.
  intros Ha Ht Hc Hs s. unfold side_document. destruct (url_join url path) as [u|]; [|reflexivity].
  pose proof (safe_fetch_reaches u config (cr_web s)) as Hreach. pose proof (safe_fetch_page u config (cr_web s)) as Hpage.
  cbv [mbind ste_bind attempt on_web]. destruct (safe_fetch u config (cr_web s)) as [[page|e] w] eqn:Hf; cbn [snd] in *.
  2: { split; [done|done|by eapply reaches_prefix|reflexivity]. }
  set (s1 := CrawlerState _ _ _ _). specialize (Hpage page eq_refl).
  assert (∀ got, got (body page) → steps (crawl_writes me k got model)
    (t ← now_ts; summary ← assert_extracted auth (rd (utf8_lossy (body page)) u)
       (evidence_input type (url_to_string u) (content_hash page) t None) confidence summary; mret (found summary))) as Hrest.
  { intros got' Hgot. apply (steps_bind (crawl_writes me k got' model)); [apply on_graph_steps, read_clock_steps|]. intros t.
    apply (steps_bind (crawl_writes me k got' model)); [|intros; apply (steps_ret (crawl_writes me k got' model))].
    destruct (Hs (utf8_lossy (body page)) u) as [about Hab]. eapply assert_extracted_steps; [done| |done|exact Hab].
    destruct Hpage as (_ & Hhash & _). split; [exists (body page); cbn; by rewrite Hhash|done]. }
  destruct (Hrest (λ _, True) I s1) as [Ht1 Ht2 Cp _]. apply reaches_prefix in Hreach.
  split; [exact Ht1|exact Ht2|by etransitivity|]. intros Hk Hgot.
  assert (got (body page)) as Hp.
  { apply Hgot. eapply came_later; [exact Cp|]. by eapply page_came. }
  destruct (Hrest got Hp s1) as [_ _ _ Hwr]. apply Hwr; [|exact Hgot]. apply prefix_length in Hreach. cbn in *. lia.
Qed.
End documents.

(** *** The language model's actor *)

Section model.
Context (me : hash32) (k : nat) (got : string → Prop).

(** Statements of the model's actor, if any, are those of the actor that was
    found or declared, in this run, under the name of the model. *)
Definition spoke (model : option hash32) (s s' : crawler) : Prop :=
  ∀ a, model = Some a → ∃ g g' auth, writes me got model (cr_graph s) g ∧
    find_or_declare llm_actor_name Model g = (Ok auth, g') ∧ auth_actor_id auth = a ∧
    writes me got model g' (cr_graph s').
Definition speaks {A} (m : crawl_m A) : Prop := ∀ s, ∃ model, crawl_writes me k got model s (m s).2 ∧
  (k ≤ length (contacts (cr_web s)) → (∀ text, came k (cr_web (m s).2) text → got text) → spoke model s (m s).2).

Lemma speaks_silent {A} (m : crawl_m A) : steps (crawl_writes me k got None) m → speaks m.
Proof. intros Hm s. exists None. split; [apply Hm|]. by intros _ _ a. Qed.
Lemma speaks_before {A B} (m : crawl_m A) (f : A → crawl_m B) :
  (∀ model, steps (crawl_writes me k got model) m) → (∀ a, speaks (f a)) → speaks (m ≫= f).
Proof.
  intros Hm Hf s. pose proof (λ model, Hm model s) as H. cbv [mbind ste_bind]. destruct (m s) as [[a|e] s1]; cbn [snd] in H.
  - destruct (Hf a s1) as (model & Hw & Hs). exists model.
    split; [etransitivity; [apply (H model)|exact Hw]|]. intros Hk Hgot b Hb.
    destruct (H model) as [_ _ Cp Hwr]. destruct Hw as [_ _ Cp' _].
    destruct (Hs ltac:(apply prefix_length in Cp; lia) Hgot b Hb) as (g & g' & auth & H1 & H2 & H3 & H4).
    exists g, g', auth. split_and!; [|done..]. etransitivity; [|exact H1]. apply Hwr; [done|].
    intros text Ht. by apply Hgot, (came_later k (cr_web s1)).
  - exists None. split; [apply H|]. by intros _ _ b.
Qed.
Lemma speaks_after {A B} (m : crawl_m A) (f : A → crawl_m B) :
  speaks m → (∀ model a, steps (crawl_writes me k got model) (f a)) → speaks (m ≫= f).
Proof.
  intros Hm Hf s. destruct (Hm s) as (model & Hw & Hs). cbv [mbind ste_bind]. destruct (m s) as [[a|e] s1]; cbn [snd] in *.
  - exists model. split; [etransitivity; [exact Hw|apply Hf]|]. intros Hk Hgot b Hb.
    destruct (Hf model a s1) as [_ _ Cp' Hwr]. destruct Hw as [_ _ Cp _].
    destruct (Hs Hk ltac:(intros text Ht; by apply Hgot, (came_later k (cr_web s1))) b Hb) as (g & g' & auth & H1 & H2 & H3 & H4).
    exists g, g', auth. split_and!; [done..|]. etransitivity; [exact H4|]. apply Hwr; [|done]. apply prefix_length in Cp. lia.
  - by exists model.
Qed.

Lemma llm_pass_speaks is_html body_str final e summary : of_received got e →
  speaks (llm_pass is_html body_str final e summary).
Proof.
  intros He. unfold llm_pass. destruct (negb is_html); [apply speaks_silent, (steps_ret (crawl_writes me k got None))|].
  case_bool_decide; [apply speaks_silent, (steps_ret (crawl_writes me k got None))|].
  apply speaks_before; [intros; apply act_steps|].
  intros [[|c cs]|err]; [apply speaks_silent, (steps_ret (crawl_writes me k got None))| |apply speaks_silent, (steps_ret (crawl_writes me k got None))].
  intros s. cbv [mbind ste_bind]. unfold llm_extractor_auth, on_graph.
  pose proof (λ model, find_or_declare_steps me got model llm_actor_name Model (or_intror eq_refl) (cr_graph s)) as Hdecl.
  destruct (find_or_declare _ _ _) as [[auth|err] g] eqn:Hauth; cbn [map_err snd] in *.
  - exists (Some (auth_actor_id auth)). set (s1 := CrawlerState _ _ _ _).
    pose proof (candidates_steps me k got (Some (auth_actor_id auth)) auth e (c :: cs) eq_refl He summary s1) as Hc.
    split; [etransitivity; [|exact Hc]; by split|]. intros Hk Hgot a [= <-].
    exists (cr_graph s), g, auth. split_and!; [reflexivity|done|done|]. destruct Hc as [_ _ _ Hwr]. by apply Hwr.
  - exists None. split; [by split|]. by intros _ _ a.
Qed.
Lemma page_facts_scoped content_type body_str final : scoped (eq final) (page_facts content_type body_str final).
Proof.
  unfold page_facts. case_bool_decide.
  { apply scoped_merge; [apply scoped_merge; [apply scoped_empty|]|].
    - apply scoped_names; [done|apply meta_names_not_blank].
    - apply json_ld_html_scoped. }
  case_bool_decide; [apply scoped_merge; [apply scoped_empty|apply json_ld_json_scoped]|].
  case_bool_decide; [apply scoped_merge; [apply scoped_empty|apply markdown_scoped]|apply scoped_empty].
Qed.
Lemma enrich_speaks auth url page e summary : auth_actor_id auth = me → of_received got e →
  speaks (enrich auth url page e summary).
Proof.
  intros Ha He. unfold enrich.
  assert (EXTRACTED_CONFIDENCE ∈ CONFIDENCES) by by right; left.
  assert (LLMS_TXT_CONFIDENCE ∈ CONFIDENCES) by by do 2 right; left.
  assert ("documentation" ∈ CRAWL_EVIDENCE ∧ "api_response" ∈ CRAWL_EVIDENCE) as [? ?].
  { split; by apply (bool_decide_unpack _). }
  apply speaks_before; [intros; by eapply assert_extracted_steps, page_facts_scoped|]. intros s1.
  apply speaks_after; [by apply llm_pass_speaks|]. intros model s2.
  apply (steps_bind (crawl_writes me k got model)).
  { apply side_document_steps; [done..|]. intros text u. eexists. apply llms_txt_scoped. }
  intros s3. apply (steps_bind (crawl_writes me k got model)).
  { apply side_document_steps; [done..|]. intros text u. exists (λ _, True). apply ard_scoped. }
  intros s4. apply side_document_steps; [done..|]. intros text u. eexists. apply a2a_spec.
Qed.
End model.

(** ** What a crawl contacts *)

(** At most [n] connections, all guarded. *)
Definition contacts_at_most (n : nat) {A} (m : crawl_m A) : Prop := ∀ s,
  reaches id (allow_private_networks config) n (cr_web s) (cr_web (m s).2).
Lemma contacts_bind {A B} n1 n2 (m : crawl_m A) (f : A → crawl_m B) :
  contacts_at_most n1 m → (∀ a, contacts_at_most n2 (f a)) → contacts_at_most (n1 + n2) (m ≫= f).
Proof.
  intros Hm Hf s. cbv [mbind ste_bind]. specialize (Hm s). destruct (m s) as [[a|e] s1]; cbn in *.
  - by apply (reaches_trans _ _ _ _ _ (cr_web s1)); [|apply Hf].
  - destruct Hm as (new & E & Hl & Hg). exists new. split_and!; [done|lia|done].
Qed.
Lemma contacts_ret {A} n (a : A) : contacts_at_most n (mret a).
Proof. intros s. by apply reaches_none. Qed.
Lemma contacts_graph {A} (m : ste service GraphError A) : contacts_at_most 0 (on_graph m).
Proof. intros s. apply reaches_none. unfold on_graph. by destruct (m _). Qed.
Lemma contacts_attempt {A} n (m : crawl_m A) : contacts_at_most n m → contacts_at_most n (attempt m).
Proof. intros Hm s. specialize (Hm s). unfold attempt. by destruct (m s). Qed.
Lemma contacts_more {A} n n' (m : crawl_m A) : n ≤ n' → contacts_at_most n m → contacts_at_most n' m.
Proof. intros Hn Hm s. destruct (Hm s) as (new & E & Hl & Hg). exists new. split_and!; [done|lia|done]. Qed.
Lemma contacts_fetch url : contacts_at_most 6 (on_web (safe_fetch url config)).
Proof.
  intros s. pose proof (safe_fetch_reaches url config (cr_web s)) as H. unfold on_web.
  by destruct (safe_fetch _ _ _).
Qed.
Lemma contacts_act {A} (f : nat → A) : contacts_at_most 0 (on_web (act f)).
Proof. intros s. by apply reaches_none. Qed.
Create HintDb contacts.
#[local] Hint Resolve contacts_ret contacts_graph contacts_attempt contacts_fetch contacts_act : contacts.

Lemma contacts_facts auth e confidence fs : ∀ summary, contacts_at_most 0 (assert_facts auth fs e confidence summary).
Proof.
  induction fs as [|f fs IH]; intros summary; cbn; [apply contacts_ret|].
  apply (contacts_bind 0 0); auto with contacts.
Qed.
Lemma contacts_resolve identifier : contacts_at_most 0 (resolve_node_id identifier).
Proof.
  unfold resolve_node_id. apply (contacts_bind 0 0); [apply contacts_graph|].
  intros [n|ns|]; [apply contacts_ret|intros s; by apply reaches_none..].
Qed.
Lemma contacts_aliases auth als : ∀ summary, contacts_at_most 0 (declare_aliases auth als summary).
Proof.
  induction als as [|a als IH]; intros summary; cbn; [apply contacts_ret|].
  apply (contacts_bind 0 0); [apply contacts_attempt, contacts_resolve|].
  intros [node|e]; [|apply IH]. apply (contacts_bind 0 0); auto with contacts.
Qed.
Lemma contacts_extracted auth page e confidence summary : contacts_at_most 0 (assert_extracted auth page e confidence summary).
Proof. apply (contacts_bind 0 0); [apply contacts_facts|intros; apply contacts_aliases]. Qed.
Lemma contacts_candidates auth cs e : ∀ summary, contacts_at_most 0 (assert_candidates auth cs e summary).
Proof.
  induction cs as [|c cs IH]; intros summary; cbn; [apply contacts_ret|].
  apply (contacts_bind 0 0); auto with contacts.
Qed.
Lemma contacts_llm is_html body_str final e summary : contacts_at_most 0 (llm_pass is_html body_str final e summary).
Proof.
  unfold llm_pass. destruct (negb _); [apply contacts_ret|]. case_bool_decide; [apply contacts_ret|].
  apply (contacts_bind 0 0); [apply contacts_act|]. intros [[|c cs]|err]; try apply contacts_ret.
  apply (contacts_bind 0 0); [apply contacts_graph|intros; apply contacts_candidates].
Qed.
Lemma contacts_side auth url path type confidence rd found summary :
  contacts_at_most 6 (side_document auth url path type confidence rd found summary).
Proof.
  unfold side_document. destruct (url_join url path); [|apply contacts_ret].
  apply (contacts_bind 6 0); [apply contacts_attempt, contacts_fetch|]. intros [page|e]; [|apply contacts_ret].
  apply (contacts_bind 0 0); [apply contacts_graph|]. intros t.
  apply (contacts_bind 0 0); [apply contacts_extracted|intros; apply contacts_ret].
Qed.
Lemma contacts_enrich auth url page e summary : contacts_at_most 18 (enrich auth url page e summary).
Proof.
  unfold enrich. apply (contacts_bind 0 18); [apply contacts_extracted|]. intros.
  apply (contacts_bind 0 18); [apply contacts_llm|]. intros.
  apply (contacts_bind 6 12); [apply contacts_side|]. intros.
  apply (contacts_bind 6 6); [apply contacts_side|intros; apply contacts_side].
Qed.

Lemma contacts_fetched auth url page : contacts_at_most 18 (crawl_fetched auth url page).
Proof.
  unfold crawl_fetched. apply (contacts_bind 0 18); [apply contacts_act|]. intros pinned.
  apply (contacts_bind 0 18); [apply contacts_graph|]. intros t.
  apply (contacts_bind 0 18); [apply contacts_graph|intros; apply contacts_enrich].
Qed.
Lemma contacts_page url : contacts_at_most 12 (on_web (crawl_page url config)).
Proof.
  intros s. unfold on_web. pose proof (crawl_page_spec url config (cr_web s)) as H.
  destruct (crawl_page url config (cr_web s)). apply H.
Qed.

(** The committed baseline statement, with the hash of the page's bytes. *)
Definition baseline_said (me : AuthContext) (page : FetchedPage) (d d1 : db) : Prop :=
  ∃ is_html e t id out, in_content_hash e = Some (blake3_content_hash (body page)) ∧
    committed identity (assert_payload me (baseline_input (url_to_string (final_url page)) is_html e)) t d id out d1.

Lemma crawl_fetched_spec me k got url page s :
  content_hash page = blake3_content_hash (body page) → got (body page) → k ≤ length (contacts (cr_web s)) →
  let '(r, s') := crawl_fetched me url page s in
  (∀ text, came k (cr_web s') text → got text) →
  crawls_total s' = crawls_total s ∧ crawls_failed s' = crawls_failed s ∧
  ∃ model, writes (auth_actor_id me) got model (cr_graph s) (cr_graph s') ∧
    spoke (auth_actor_id me) got model s s' ∧
    (∀ summary, r = Ok summary → ∃ d1, baseline_said me page (store (cr_graph s)) d1 ∧
       rtc (wrote (auth_actor_id me) got model) d1 (store (cr_graph s'))).
Proof.
  intros Hhash Hbody Hk. unfold crawl_fetched. cbv [mbind ste_bind on_web act now_ts on_graph read_clock map_err].
  cbv zeta. cbn [cr_graph cr_web crawls_total crawls_failed store tick fst snd].
  set (t := clock _). set (pinned := pin _ _ _).
  set (e := evidence_input _ _ _ _ _). set (html := bool_decide _). set (g1 := {| store := _ |}) in *.
  assert (of_received got e) as He by (split; [exists (body page); cbn; by rewrite Hhash|left]).
  pose proof (λ model, assert_steps (auth_actor_id me) got model me (baseline_input (url_to_string (final_url page)) html e) e
    (says_fact _ _ _ me _ e _ eq_refl He ltac:(left)) eq_refl He g1) as Hsteps.
  pose proof (λ model, assert_commits (auth_actor_id me) got model me
    (baseline_input (url_to_string (final_url page)) html e) e g1) as Hdone.
  destruct (assert_ _ _ _ _ g1) as [[id|err] g3]; cbn [snd] in *.
  2: { intros _. split_and!; [done..|]. exists None. split_and!; [apply Hsteps|by intros ? [=]|done]. }
  match goal with |- context [enrich ?a ?u ?p ?e ?sum ?s3] =>
    pose proof (enrich_speaks (auth_actor_id me) k got a u p e sum eq_refl He s3) as Hen;
    destruct (enrich a u p e sum s3) as [r s'] end.
  cbn [snd cr_graph cr_web contacts] in Hen. destruct Hen as (model & [Ht Hf _ Hw] & Hspoke). intros Hgot.
  specialize (Hw Hk Hgot). split_and!; [done..|]. exists model. split_and!.
  - etransitivity; [apply Hsteps|exact Hw].
  - intros a Ha. destruct (Hspoke Hk Hgot a Ha) as (g & g' & auth & H1 & H). exists g, g', auth.
    split; [|exact H]. etransitivity; [apply Hsteps|exact H1].
  - intros summary _. destruct (Hdone model id g3 eq_refl He eq_refl) as (t' & out & d1 & Hc & Hd1).
    exists d1. split; [|etransitivity; [exact Hd1|exact Hw]].
    exists html, e, t', id, out. split; [cbn; by rewrite Hhash|exact Hc].
Qed.

(** What is left of a crawl, where [d] is the database and [g] the process once
    the crawler's actor [me] is found or declared. *)
Definition crawl_left (me : AuthContext) (g : service) (url : Url) (s : crawler)
    (r : result CrawlError CrawlSummary) (s' : crawler) : Prop :=
  let d' := store (cr_graph s') in
  let got := came (length (contacts (cr_web s))) (cr_web s') in
  (∀ page w, served_robots url config (cr_web s) page w → allowed_by url config page = false →
     r = Err RobotsDisallowed ∧ d' = store g) ∧
  (∀ e w, crawl_page url config (cr_web s) = (Err e, w) → r = Err e ∧ d' = store g) ∧
  (∀ page w, crawl_page url config (cr_web s) = (Ok page, w) → got (body page) ∧
     ∃ model, rtc (wrote (auth_actor_id me) got model) (store (cr_graph s)) d' ∧
       spoke (auth_actor_id me) got model s s' ∧
       ∀ summary, r = Ok summary → ∃ d1, baseline_said me page (store g) d1 ∧
         rtc (wrote (auth_actor_id me) got model) d1 d').

Lemma crawl_inner_spec url s :
  let '(r, s') := crawl_inner url s in
  crawls_total s' = crawls_total s ∧ crawls_failed s' = crawls_failed s ∧
  reaches id (allow_private_networks config) 30 (cr_web s) (cr_web s') ∧
  match find_or_declare CRAWLER_ACTOR_NAME Crawler (cr_graph s) with
  | (Err e, g) => r = Err (CrawlGraph e) ∧ store (cr_graph s') = store g ∧ cr_web s' = cr_web s
  | (Ok me, g) => crawl_left me g url s r s'
  end.
Proof.
  unfold crawl_inner, crawler_auth. cbv [mbind ste_bind on_graph].
  destruct (find_or_declare _ _ _) as [[me|e] g] eqn:Hme; cbn [map_err].
  2: { split_and!; try done. by apply reaches_none. }
  set (k := length (contacts (cr_web s))).
  assert (∀ got model, writes (auth_actor_id me) got model (cr_graph s) g) as Hdecl.
  { intros got model.
    pose proof (find_or_declare_steps (auth_actor_id me) got model CRAWLER_ACTOR_NAME Crawler (or_introl eq_refl) (cr_graph s)) as H.
    by rewrite Hme in H. }
  pose proof (crawl_page_spec url config (cr_web s)) as Hspec. unfold on_web. cbn [cr_web].
  destruct (crawl_page url config (cr_web s)) as [[page|e] w] eqn:Hp; destruct Hspec as (Hreach & Hrob & _ & Hpage).
  2: { split_and!; [done|done| |split_and!; cbn [cr_graph cr_web]].
       - destruct Hreach as (new & E & Hl & Hg). exists new. split_and!; [done|cbn in *; lia|done].
       - intros page w' Hs Ha. specialize (Hrob page w' Hs). rewrite Ha in Hrob. destruct Hrob as [[= ->] _]. done.
       - intros e' w'. rewrite Hp. by intros [= <- <-].
       - intros page w'. by rewrite Hp. }
  specialize (Hpage page eq_refl). pose proof (reaches_prefix _ _ _ _ _ Hreach) as Hpre.
  set (s2 := CrawlerState _ _ _ _).
  pose proof (contacts_fetched me url page s2) as Hc.
  assert (came k w (body page)) as Hcame by (by apply (page_came k (cr_web s))).
  assert (content_hash page = blake3_content_hash (body page)) as Hhash by apply Hpage.
  pose proof (λ got Hgot, crawl_fetched_spec me k got url page s2 Hhash Hgot (prefix_length _ _ Hpre)) as Hf.
  destruct (crawl_fetched me url page s2) as [r s']. cbn in Hc. pose proof (reaches_prefix _ _ _ _ _ Hc) as Hpre'.
  assert (came k (cr_web s') (body page)) as Hbody by (by eapply came_later).
  destruct (Hf (came k (cr_web s')) Hbody (λ _ H, H)) as (Ht & Hfl & model & Hw & Hspoke & Hok).
  split_and!; [done|done|by apply (reaches_trans _ _ 12 18 _ w)|]. split_and!.
  - intros page' w' Hs Ha. specialize (Hrob page' w' Hs). rewrite Ha in Hrob. by destruct Hrob as [? _].
  - intros e' w'. by rewrite Hp.
  - intros page' w'. rewrite Hp. intros [= <- <-]. split; [done|]. exists model. split; [etransitivity; [apply Hdecl|exact Hw]|]. split; [|exact Hok].
    intros a Ha. destruct (Hspoke a Ha) as (g1 & g2 & auth & H1 & H). exists g1, g2, auth.
    split; [|exact H]. etransitivity; [apply Hdecl|exact H1].
Qed.
End crawl.

(** ** The property *)

Section properties.
Context `{P : Platform} `{C : Codec} `{U : GraphPlatform} `{N : Unicode} `{T : FullText}.
Context `{W : !Web} `{D : Documents} `{O : !UrlPorts}.
Context (identity : SigningKey) (clock : nat → Z) (config : CrawlerConfig)
        (pinning_provider : PinningProvider) (llm_extractor : LlmExtractor)
        (trim_start : string → string).

(** C40: A crawl, whatever the site, the page, its documents and the language
    model answer: it makes at most thirty connections, all guarded; its two
    counters count it.  A page that its site's robots.txt forbids, or that
    cannot be fetched, leaves no more than the crawler's actor behind.  For a
    page that was fetched nothing is written but local events of five kinds:
    declarations of the two actors, statements of the crawler's actor by
    structured extraction at one of three confidences, candidates of the
    language model as statements of the one actor that was found or declared
    for it in this run, evidence, and names; all evidence is the hash of bytes
    that came in on a connection of this crawl.  The crawl succeeds only if the
    page's baseline statement, its evidence the page's bytes, was committed
    before everything else. *)
Theorem crawl_attributed url s :
  let '(r, s') := crawl identity clock config pinning_provider llm_extractor trim_start url s in
  crawls_total s' = wrap_u64 (crawls_total s + 1) ∧
  crawls_failed s' = (if is_ok r then crawls_failed s else wrap_u64 (crawls_failed s + 1)) ∧
  reaches id (allow_private_networks config) 30 (cr_web s) (cr_web s') ∧
  match find_or_declare identity clock CRAWLER_ACTOR_NAME Crawler (cr_graph s) with
  | (Err e, g) => r = Err (CrawlGraph e) ∧ store (cr_graph s') = store g ∧ cr_web s' = cr_web s
  | (Ok me, g) => crawl_left identity clock config llm_extractor me g url s r s'
  end.
Proof.
  unfold crawl. set (s0 := CrawlerState _ _ _ _).
  pose proof (crawl_inner_spec identity clock config pinning_provider llm_extractor trim_start url s0) as H.
  destruct (crawl_inner _ _ _ _ _ _ _ s0) as [r s']. destruct H as (Ht & Hf & Hc & Hrun).
  cbn in *. rewrite Ht, Hf. by destruct r.
Qed.
End properties.

(** ** An example: a page with a title, on a site with an agent card *)

Section example.
#[local] Existing Instance Toy.platform.
#[local] Existing Instance demo_codec.
#[local] Existing Instance ToyText.unicode.
#[local] Existing Instance ToyGraph.plain_urls.
#[local] Instance no_index : FullText := {| fts_match := λ _ _, Ok [] |}.
Definition host_ip : SocketAddr := {| sa_ip := IpV4 (V4 93 184 216 34); sa_port := 80 |}.
Definition answer (status : Z) (type text : string) (u : string) : response := {|
  rs_status := status; rs_location := None; rs_content_type := Some type; rs_cache_control := None;
  rs_content_length := None; rs_url := u; rs_chunks := [Ok text] |}.
(** robots.txt, llms.txt and the ARD document are missing. *)
#[local] Instance small_site : Web := {|
  url_scheme := λ _, "https"; url_host := λ _, Some "site"; url_port := λ _, Some 443%Z;
  url_join := λ _ path, Some ("https://site" +:+ path);
  lookup_host := λ _ _ _, Ok [host_ip]; client_builds := λ _ _, Ok ();
  http_get := λ _ _ _ u, Ok (
    if bool_decide (u = "https://site/page") then answer 200 "text/html; charset=utf-8" "<title>" u
    else if bool_decide (u = "https://site/.well-known/agent-card.json")
    then answer 200 "application/json" "{}" u else answer 404 "text/plain" "" u);
  utf8_lossy := id; error_text := λ _, "" |}.
#[local] Instance small_documents : Documents := {|
  select_text := λ _ sel, if bool_decide (sel = "title") then ["A page"] else [];
  select_attr := λ _ _ _, []; body_texts := λ _, None; ard_resources := λ _, None;
  agent_card := λ _, Some {| card_name := Some "Helper"; card_provider := None;
    card_skills := [{| sk_name := Some "search"; sk_id := None |}] |};
  llm_candidates := λ _, None |}.
#[local] Instance no_ports : UrlPorts := {| explicit_port := λ _, None |}.
Definition crawl_config : CrawlerConfig := {| allow_private_networks := false; max_response_bytes := 1000;
  request_timeout := 30; user_agent := "oag-crawler" |}.
Definition crawl_start : crawler := CrawlerState (Svc empty_db 0) (WebState 0 []) 0 0.

(** Three facts - the page, the agent, its skill - and two names; five
    connections: robots.txt, the page and the three documents. *)
Example small_site_crawled :
  let '(r, s) := crawl alice (λ n, Z.of_nat n) crawl_config DisabledProvider DisabledExtractor id
                   "https://site/page" crawl_start in
  (r, length (contacts (cr_web s)), length (events (log (store (cr_graph s)))), crawls_total s, crawls_failed s) =
  (Ok (Summary "https://site/page" 3 0 2 false false true 0), 5, 9, 1%Z, 0%Z).
Proof. vm_compute. reflexivity. Qed.
End example.
