(* ===== verification/CrawlApi.v ===== *)
(** * Crawling on request, and all tools and routes together

    [oag-api]: [crawl.rs]; the tool [graph_crawl] of [oag-mcp]: [server.rs].
    Both let the holder of a key make this peer fetch a page.  The crawler
    runs with its own configuration and speaks as its own actor, whoever
    asks.  With it the tools of [Mcp] and the routes of [Rest] are complete:
    the second half is the application ([build_app] in [oag-cli]: [serve.rs])
    with every tool and its equivalent route. *)

From S2P Require Import Prelude Sorting Core Envelope Store Projector EventLog Frame Scenario Chain Replay Service Graph Rebuild Typing Queries GraphFacts Provenance Search RateLimit Bytes FloatFacts Float32 FloatBits Embeddings Corroboration Authority Roadmap Rest RestFacts Mcp Presence Ntp Signed Gateway Ssrf Robots Fetch Extract Crawl.

#[local] Open Scope Z_scope.

(** A status and what the body says: the text of an error, that a URL is
    invalid, or ["internal error"]. *)
Inductive CrawlFault := SaysGraph (e : GraphError) | SaysCrawl (e : CrawlError) | SaysBadUrl (url : string) | SaysInternal.
Definition CrawlApiError : Type := Z * CrawlFault.

Definition crawl_error_of_graph (e : GraphError) : CrawlApiError :=
  match e with
  | InvalidApiKey => (401, SaysGraph e)
  | PermissionDenied _ => (403, SaysGraph e)
  | other => (500, SaysGraph other)
  end.
Definition crawl_error_of_crawl (e : CrawlError) : CrawlApiError :=
  match e with
  | UnsupportedScheme _ | NoHost => (400, SaysCrawl e)
  | BlockedAddress _ | RobotsDisallowed => (403, SaysCrawl e)
  | DnsResolutionFailed _ _ | NoAddresses_ _ | TooManyRedirects _ | RedirectWithoutLocation
  | ResponseTooLarge _ | UnsupportedContentType _ | Http _ => (502, SaysCrawl e)
  | ClientBuild _ | CrawlGraph _ => (500, SaysInternal)
  end.

(** What the MCP tool says, besides [McpError]s. *)
Inductive McpCrawlError :=
  | McpOther (e : McpError)
  | InvalidCrawl (e : CrawlError)
  | InternalCrawl (e : CrawlError).
Definition map_crawl_err (e : CrawlError) : McpCrawlError :=
  match e with
  | UnsupportedScheme _ | NoHost | BlockedAddress _ | RobotsDisallowed => InvalidCrawl e
  | CrawlGraph inner => McpOther (mcp_map_err (OfGraph inner))
  | other => InternalCrawl other
  end.

Section crawl_api.
Context `{P : Platform} `{C : Codec} `{U : GraphPlatform} `{N : Unicode} `{T : FullText}.
Context `{W : !Web} `{D : Documents} `{O : !UrlPorts}.
Context (identity : SigningKey) (clock : nat → Z) (config : CrawlerConfig)
        (pinning_provider : PinningProvider) (llm_extractor : LlmExtractor)
        (trim_start : string → string).

(** A call of the graph service, or of the crawler, with its error converted. *)
Definition at_graph {E F A} (conv : E → F) (m : ste service E A) : ste crawler F A := λ s,
  let '(r, g) := m (cr_graph s) in (map_err conv r, CrawlerState g (cr_web s) (crawls_total s) (crawls_failed s)).
Definition at_crawler {F A} (conv : CrawlError → F) (m : ste crawler CrawlError A) : ste crawler F A := λ s,
  let '(r, s') := m s in (map_err conv r, s').
Abbreviation crawl := (crawl identity clock config pinning_provider llm_extractor trim_start).

(** [POST /api/v1/crawl]. *)
Definition crawl_endpoint (h : option string) (url : string) : ste crawler CrawlApiError CrawlSummary :=
  auth ← at_graph crawl_error_of_graph (authenticate_header h);
  _ ← of_result (map_err crawl_error_of_graph (require auth GraphCrawl));
  url ← of_result (ok_or (url_parse url) (400, SaysBadUrl url));
  at_crawler crawl_error_of_crawl (crawl url).

(** The tool [graph_crawl]. *)
Definition graph_crawl (h : option string) (url : string) : ste crawler McpCrawlError CrawlSummary :=
  auth ← at_graph McpOther (mcp_authenticate h);
  _ ← of_result (map_err (λ e, McpOther (mcp_map_err (OfGraph e))) (require auth GraphCrawl));
  url ← of_result (ok_or (url_parse url) (McpOther (InvalidParams ("invalid url '" +:+ url +:+ "'"))));
  at_crawler map_crawl_err (crawl url).

(** ** Who may crawl *)

(** The caller's key is active and may crawl. *)
Definition may_crawl (d : db) (h : option string) : Prop :=
  ∃ auth, active_key d h auth ∧ (GraphCrawl ∈ auth_permissions auth ∨ Admin ∈ auth_permissions auth).

Lemma require_cases auth p :
  (require auth p = Ok () ∧ (p ∈ auth_permissions auth ∨ Admin ∈ auth_permissions auth)) ∨
  (∃ e, require auth p = Err (PermissionDenied e)).
Proof.
  unfold require. destruct (decide (p ∈ auth_permissions auth)); [left; rewrite bool_decide_true by done; auto|].
  destruct (decide (Admin ∈ auth_permissions auth)) as [Ha|]; [left|right].
  - rewrite (bool_decide_true _ Ha), orb_true_r. auto.
  - rewrite !bool_decide_false by done. by eexists.
Qed.
Lemma at_graph_same {E F A} (conv : E → F) (m : ste service E A) s r :
  m (cr_graph s) = (r, cr_graph s) → at_graph conv m s = (map_err conv r, s).
Proof. intros H. unfold at_graph. rewrite H. by destruct s. Qed.
Lemma mcp_authenticate_same h s :
  (∃ auth, active_key (store s) h auth ∧ authenticate_header h s = (Ok auth, s) ∧ mcp_authenticate h s = (Ok auth, s)) ∨
  (∃ e e', authenticate_header h s = (Err e, s) ∧ mcp_authenticate h s = (Err e', s)).
Proof.
  destruct (sim_authenticate h s) as [Hs Ha]. destruct (authenticate_cases h s) as [(auth & Hk & Hr)|[e Hr]]; [left|right].
  - exists auth. split_and!; [done..|]. unfold call in *. rewrite Hr in Hs, Ha.
    destruct (mcp_authenticate h s) as [[a|e] s']; cbn in *; [by subst|done].
  - exists e. unfold call in *. rewrite Hr in Hs, Ha.
    destruct (mcp_authenticate h s) as [[a|e'] s']; cbn in *; [done|]. exists e'. by subst.
Qed.

Lemma active_key_authenticates h s auth : active_key (store s) h auth → authenticate_header h s = (Ok auth, s).
Proof.
  intros (raw & k & d' & -> & Hk & ->). unfold authenticate_header. cbn [mbind option_bind].
  rewrite strip_prefix_app. cbn [ok_or]. cbv [mbind ste_bind of_result].
  unfold authenticate, query. cbv [mbind ste_bind]. by rewrite Hk.
Qed.
Lemma bind_ran {S E A B} (m : ste S E A) (f : A → ste S E B) s a : m s = (Ok a, s) → (m ≫= f) s = f a s.
Proof. intros H. by erewrite ste_bind_run by exact H. Qed.

(** What is shown of a pair of runs. *)
Definition gated (h : option string) (text : string) (s : crawler)
    (p : result CrawlApiError CrawlSummary * crawler) (q : result McpCrawlError CrawlSummary * crawler) : Prop :=
  let '(x, s1) := p in
  let '(y, s2) := q in
  s1 = s2 ∧
  ((¬ may_crawl (store (cr_graph s)) h ∨ url_parse text = None) →
     s1 = s ∧ is_ok y = false ∧ ∃ status f, x = Err (status, f) ∧ status ∈ [400; 401; 403; 500]) ∧
  (∀ url, may_crawl (store (cr_graph s)) h → url_parse text = Some url →
     s1 = (crawl url s).2 ∧
     match (crawl url s).1 with
     | Ok summary => x = Ok summary ∧ y = Ok summary
     | Err e => y = Err (map_crawl_err e) ∧ ∃ status f, x = Err (status, f) ∧ (500 = status → f = SaysInternal)
     end).
Lemma refused h text s x y : ¬ may_crawl (store (cr_graph s)) h ∨ url_parse text = None →
  x.1 ∈ [400; 401; 403; 500] → gated h text s (Err x, s) (Err y, s).
Proof.
  intros Hr Hs. split; [done|]. split.
  - intros _. split_and!; [done..|]. destruct x as [status f]. by exists status, f.
  - intros url Hm Hu. destruct Hr as [Hr|Hr]; [by destruct Hr|congruence].
Qed.
Lemma graph_status e : (crawl_error_of_graph e).1 ∈ [400; 401; 403; 500].
Proof. destruct e; cbn; set_solver. Qed.
Lemma crawl_status e status f : crawl_error_of_crawl e = (status, f) → 500 = status → f = SaysInternal.
Proof. by destruct e; intros [= <- <-]. Qed.
Lemma granted h text s : may_crawl (store (cr_graph s)) h →
  gated h text s
    ((url ← of_result (ok_or (url_parse text) (400, SaysBadUrl text)); at_crawler crawl_error_of_crawl (crawl url)) s)
    ((url ← of_result (ok_or (url_parse text) (McpOther (InvalidParams ("invalid url '" +:+ text +:+ "'"))));
      at_crawler map_crawl_err (crawl url)) s).
Proof.
  intros Hm. destruct (url_parse text) as [url|] eqn:Hu; cbn [ok_or]; cbv [mbind ste_bind of_result].
  2:{ apply refused; [by right|]. cbn. set_solver. }
  unfold at_crawler. destruct (crawl url s) as [r s'] eqn:Hrun. split; [done|]. split.
  - intros [Hn|Hn]; [done|congruence].
  - intros url' _ Hu'. rewrite Hu in Hu'. injection Hu' as <-. rewrite Hrun. destruct r as [summary|e]; cbn; [done|]. split_and!; [done..|].
    destruct (crawl_error_of_crawl e) as [status f] eqn:He. exists status, f. split; [done|]. by apply (crawl_status e).
Qed.

(** The tool fails as the route does: with the crawl's or the service's error,
    or both blame the key or the URL. *)
Definition same_crawl_error (e : McpCrawlError) (x : CrawlApiError) : Prop :=
  (∃ c, e = map_crawl_err c ∧ x = crawl_error_of_crawl c) ∨
  (∃ c, e = McpOther (mcp_map_err (OfGraph c)) ∧ x = crawl_error_of_graph c) ∨
  (∃ m, e = McpOther (InvalidParams m)) ∧
    (x = crawl_error_of_graph InvalidApiKey ∨ ∃ url, x = (400, SaysBadUrl url)).
Definition same_crawl (x : result McpCrawlError CrawlSummary) (y : result CrawlApiError CrawlSummary) : Prop :=
  match x, y with
  | Ok a, Ok b => a = b
  | Err e, Err e' => same_crawl_error e e'
  | _, _ => False
  end.
Lemma crawl_agrees h text s :
  (graph_crawl h text s).2 = (crawl_endpoint h text s).2 ∧
  same_crawl (graph_crawl h text s).1 (crawl_endpoint h text s).1.
Proof.
  unfold graph_crawl, crawl_endpoint, mcp_authenticate, authenticate_header, at_graph, asking, extract_bearer.
  cbv [mbind ste_bind of_result ok_or]. destruct (option_bind _ _ _ h) as [raw|]; cbn [map_err].
  2: { split; [done|]. right. right. split; [by eexists|by left]. }
  destruct (authenticate raw (cr_graph s)) as [[auth|e] g]; cbn [map_err].
  2: { split; [done|]. right. left. by exists e. }
  destruct (require auth GraphCrawl) as [u|e]; cbn [map_err].
  2: { split; [done|]. right. left. by exists e. }
  destruct (url_parse text) as [url|].
  2: { split; [done|]. right. right. split; [by eexists|right; by eexists]. }
  unfold at_crawler. destruct (crawl url _) as [[summary|e] s']; (split; [done|]); [done|]. left. by exists e.
Qed.

(** A page is crawled on request only for a key that may.  Through the
    REST endpoint and through the MCP tool alike, unless the key is active
    and holds the crawl or the admin permission, and the text parses as a
    URL, nothing at all happens: no connection is made, nothing is stored, no
    counter moves, and the answer is an error that blames the caller, or 500
    for a database that cannot be read.  Otherwise exactly one crawl runs,
    under the operator's configuration; both ways leave the same state behind
    and give its summary if it succeeds.  An internal failure of the crawl is
    not shown by the endpoint. *)
Theorem crawl_gated h text s :
  let '(x, s1) := crawl_endpoint h text s in
  let '(y, s2) := graph_crawl h text s in
  s1 = s2 ∧
  ((¬ may_crawl (store (cr_graph s)) h ∨ url_parse text = None) →
     s1 = s ∧ is_ok y = false ∧ ∃ status f, x = Err (status, f) ∧ status ∈ [400; 401; 403; 500]) ∧
  (∀ url, may_crawl (store (cr_graph s)) h → url_parse text = Some url →
     s1 = (crawl url s).2 ∧
     match (crawl url s).1 with
     | Ok summary => x = Ok summary ∧ y = Ok summary
     | Err e => y = Err (map_crawl_err e) ∧ ∃ status f, x = Err (status, f) ∧
                (500 = status → f = SaysInternal)
     end).
Proof.
  change (gated h text s (crawl_endpoint h text s) (graph_crawl h text s)). unfold crawl_endpoint, graph_crawl.
  destruct (mcp_authenticate_same h (cr_graph s)) as [(auth & Hk & Ha & Hm)|(e & e' & Ha & Hm)].
  - rewrite (bind_ran _ _ _ auth (at_graph_same _ _ _ _ Ha)), (bind_ran _ _ _ auth (at_graph_same _ _ _ _ Hm)).
    destruct (require_cases auth GraphCrawl) as [[-> Hp]|[e Hr]].
    + apply granted. by exists auth.
    + rewrite Hr. apply refused; [left|cbn; set_solver]. intros (auth' & Hk' & Hp').
      apply active_key_authenticates in Hk'. rewrite Ha in Hk'. injection Hk' as <-.
      unfold require in Hr. by destruct Hp' as [H|H]; rewrite (bool_decide_true _ H), ?orb_true_r in Hr.
  - rewrite (ste_bind_fail _ _ _ _ _ (at_graph_same _ _ _ _ Ha)), (ste_bind_fail _ _ _ _ _ (at_graph_same _ _ _ _ Hm)).
    apply refused; [left|apply graph_status]. intros (auth & Hk%active_key_authenticates & _). congruence.
Qed.
End crawl_api.

(** ** The application *)

(** Every tool of the MCP server, and every route of the API that takes a
    bearer key. *)
Inductive AnyTool := OnGraph (t : Tool) | GraphCrawlTool (url : string).
Inductive AnyRequest := OnRoute (r : Request) | PostCrawl (url : string).
(** The whole table of [docs/api.md]. *)
Definition equivalent_route (t : AnyTool) : AnyRequest :=
  match t with OnGraph t => OnRoute (equivalent t) | GraphCrawlTool url => PostCrawl url end.

Definition AnyError : Type := ApiError + CrawlApiError.

Section app.
Context `{P : Platform} `{C : Codec} `{U : GraphPlatform} `{N : Unicode} `{T : FullText}.
Context `{W : !Web} `{D : Documents} `{O : !UrlPorts} {K : Corroborating} `{V : EmbeddingProvider}.
Context (identity : SigningKey) (clock : nat → Z) (config : CrawlerConfig)
        (pinning_provider : PinningProvider) (llm_extractor : LlmExtractor)
        (trim_start : string → string) (parse_rfc3339 : string → result string Z).

Definition respond_any {A} (r : result AnyError A) : Z * result (string + CrawlFault) A :=
  match r with
  | Ok reply => (200, Ok reply)
  | Err (inl e) => let '(status, message) := into_response e in (status, Err (inl message))
  | Err (inr (status, fault)) => (status, Err (inr fault))
  end.

Definition call_any (ca : Caches) (h : option string) (t : AnyTool) : ste crawler McpCrawlError (McpReply + CrawlSummary) :=
  match t with
  | OnGraph t => r ← at_graph McpOther (call_tool identity clock ca h t); mret (inl r)
  | GraphCrawlTool url =>
      r ← graph_crawl identity clock config pinning_provider llm_extractor trim_start h url; mret (inr r)
  end.
Definition handle_any (ca : Caches) (h : option string) (r : AnyRequest) : ste crawler AnyError (Reply + CrawlSummary) := λ s,
  match r with
  | OnRoute r =>
      let '(x, g) := handle identity clock parse_rfc3339 ca h r (cr_graph s) in
      (inl <$> map_err inl x, CrawlerState g (cr_web s) (crawls_total s) (crawls_failed s))
  | PostCrawl url =>
      let '(x, s) := crawl_endpoint identity clock config pinning_provider llm_extractor trim_start h url s in
      (inr <$> map_err inr x, s)
  end.

(** Both are behind the same rate limiter; for the tools, [None] is its 429. *)
Definition mcp_serve (ca : Caches) (instant : Z) (h : option string) (t : AnyTool) (st : RateLimiter * crawler) :
    option (result McpCrawlError (McpReply + CrawlSummary)) * (RateLimiter * crawler) :=
  let '(allowed, limiter) := rate_limit_middleware instant h st.1 in
  if allowed : bool then let '(answer, s) := call_any ca h t st.2 in (Some answer, (limiter, s))
  else (None, (limiter, st.2)).
Definition api_serve (ca : Caches) (instant : Z) (h : option string) (r : AnyRequest) (st : RateLimiter * crawler) :
    (Z * result (string + CrawlFault) (Reply + CrawlSummary)) * (RateLimiter * crawler) :=
  let '(allowed, limiter) := rate_limit_middleware instant h st.1 in
  if allowed : bool then let '(reply, s) := handle_any ca h r st.2 in (respond_any reply, (limiter, s))
  else ((429, Err (inl "")), (limiter, st.2)).

(** A tool's answer and its route's. *)
Definition answers_any (x : result McpCrawlError (McpReply + CrawlSummary)) (y : result AnyError (Reply + CrawlSummary)) : Prop :=
  (∃ a b, x = inl <$> map_err McpOther a ∧ y = inl <$> map_err inl b ∧ Mcp.answers a b) ∨
  (∃ a b, x = inr <$> a ∧ y = inr <$> map_err inr b ∧ same_crawl a b).

(** C27: Each of the 25 MCP tools is equivalent to its REST route, as the
    documentation says: called by the same caller at the same time it leaves
    the same database, clock, connections, counters and rate limiter behind,
    is refused when the route would be refused with 429, and answers with the
    same data.  Errors agree through [map_err] and [map_crawl_err], up to the
    wording of what is wrong with a key or a parameter.  The one divergence:
    where the route answers 404 for a node, an actor or an edge that is not
    there, the tool succeeds and shows null. *)
Theorem mcp_matches_rest ca instant h t limiter s :
  let '(answer, st) := mcp_serve ca instant h t (limiter, s) in
  let '(response, st') := api_serve ca instant h (equivalent_route t) (limiter, s) in
  st = st' ∧
  match answer with
  | None => response = (429, Err (inl ""))
  | Some x => ∃ y, response = respond_any y ∧ answers_any x y ∧
      (∀ a, x = Ok (inl a) → shown a = None →
         (∃ id, t = OnGraph (GraphGetNode id) ∨ t = OnGraph (GraphGetActor id) ∨ t = OnGraph (GraphGetEdge id)) ∧
         (respond_any y).1 = 404)
  end.
Proof.
  unfold mcp_serve, api_serve. cbn [fst snd]. destruct (rate_limit_middleware instant h limiter) as [[] limiter']; [|done].
  destruct t as [t|url]; cbn [call_any handle_any equivalent_route]; cbv [mbind ste_bind mret ste_ret].
  - destruct (tool_agrees identity clock parse_rfc3339 ca h t (cr_graph s)) as [Hs Ha]. unfold at_graph.
    destruct (call_tool identity clock ca h t (cr_graph s)) as [x s1] eqn:Hx,
      (handle identity clock parse_rfc3339 ca h (equivalent t) (cr_graph s)) as [y s2]. cbn [fst snd] in *. subst s2.
    assert (∀ a, x = Ok a → shown a = None → (∃ id, OnGraph t = OnGraph (GraphGetNode id) ∨
      OnGraph t = OnGraph (GraphGetActor id) ∨ OnGraph t = OnGraph (GraphGetEdge id)) ∧
      (respond_any (A:=Reply + CrawlSummary) (inl <$> map_err inl y)).1 = 404) as Hnull.
    { intros a -> Hn. destruct y as [b|e']; [cbn in Ha; congruence|]. destruct Ha as [_ [what ->]]. split; [|done].
      destruct (shows_null identity clock ca h t _ a s1 Hx Hn) as (id & [->|[->| ->]]); exists id; auto. }
    destruct x as [a|e]; cbn [map_err]; (split; [done|]); eexists; (split; [reflexivity|]); (split; [left|]).
    + by exists (Ok a), y.
    + intros a' [= <-]. by apply Hnull.
    + by exists (Err e), y.
    + by intros a [=].
  - destruct (crawl_agrees identity clock config pinning_provider llm_extractor trim_start h url s) as [Hs Ha].
    destruct (graph_crawl _ _ _ _ _ _ h url s) as [x s1], (crawl_endpoint _ _ _ _ _ _ h url s) as [y s2].
    cbn [fst snd] in *. subst s2.
    destruct x as [a|e]; (split; [done|]); eexists; (split; [reflexivity|]); (split; [right|by intros ? [=]]).
    + by exists (Ok a), y.
    + by exists (Err e), y.
Qed.
End app.

Section witnesses.
#[local] Existing Instance Toy.platform.
#[local] Existing Instance operator_codec.
#[local] Existing Instance ToyGraph.plain_urls.
#[local] Existing Instance ToyText.unicode.
#[local] Existing Instance no_index.
#[local] Existing Instance small_site.
#[local] Existing Instance small_documents.
#[local] Existing Instance no_ports.

Definition asked_crawl (h : option string) (text : string) : crawler → result CrawlApiError CrawlSummary * crawler :=
  crawl_endpoint alice GraphFacts.tick crawl_config DisabledProvider DisabledExtractor id h text.
Definition operator_crawler : crawler := CrawlerState (Svc operator_db 0) (WebState 0 []) 0 0.
Definition made_header : option string := Some ("Bearer " +:+ made_key).

Lemma operator_may_crawl : may_crawl operator_db made_header.
Proof.
  assert (match actors_find_active_key (blake3 made_key) operator_db with
          | Ok (Some k, _) => bool_decide (Admin ∈ ak_permissions k) | _ => false end = true) as H by (vm_compute; reflexivity).
  destruct (actors_find_active_key _ _) as [[[k|] d]|] eqn:Hk; try discriminate H.
  apply bool_decide_eq_true in H. eexists. split; [exists made_key, k, d; split_and!; [reflexivity|exact Hk|reflexivity]|].
  right. exact H.
Qed.
(** The operator has a page fetched that robots.txt does not forbid; without a
    key nothing moves. *)
Lemma crawl_gated_witness :
  crawls_total (asked_crawl made_header "https://site/page" operator_crawler).2 = 1 ∧
  (asked_crawl None "https://site/page" operator_crawler).2 = operator_crawler.
Proof.
  split.
  - pose proof (@crawl_gated Toy.platform operator_codec ToyGraph.plain_urls ToyText.unicode no_index small_site small_documents no_ports
      alice GraphFacts.tick crawl_config DisabledProvider DisabledExtractor id made_header "https://site/page" operator_crawler) as H.
    unfold asked_crawl. destruct (crawl_endpoint _ _ _ _ _ _ _ _ _) as [x s1], (graph_crawl _ _ _ _ _ _ _ _ _) as [y s2].
    destruct H as (_ & _ & H). destruct (H "https://site/page" operator_may_crawl eq_refl) as [-> _].
    vm_compute. reflexivity.
  - pose proof (@crawl_gated Toy.platform operator_codec ToyGraph.plain_urls ToyText.unicode no_index small_site small_documents no_ports
      alice GraphFacts.tick crawl_config DisabledProvider DisabledExtractor id None "https://site/page" operator_crawler) as H.
    unfold asked_crawl. destruct (crawl_endpoint _ _ _ _ _ _ _ _ _) as [x s1], (graph_crawl _ _ _ _ _ _ _ _ _) as [y s2].
    destruct H as (_ & H & _). apply H. left. intros (auth & (raw & k & d' & Hh & _) & _). discriminate Hh.
Defined.
End witnesses.
