(* ===== verification/Reticulum.v ===== *)
(** * Replication over Reticulum

    [oag-reticulum]: [wire.rs], [handlers.rs], [listener.rs], [client.rs].  The
    three calls of a pull, framed over an encrypted link instead of HTTP; the
    crate repeats the code of [oag-sync] on purpose, with differences this
    file keeps.  The links themselves (the [reticulum] crate) are parameters:
    an event arrives, or it does not. *)

From S2P Require Import Prelude Core Envelope Store Projector EventLog Frame Scenario Chain.
From S2P Require Import Service Presence Float32 Trust Sync SyncFacts RateLimit Bytes Framing.

(** ** [wire.rs] *)

Inductive RnRequest :=
  | RqHello
  | RqEvents (origin_hex : string) (from to : Z)
  | RqPeers.
Inductive RnResponse :=
  | RsHello (hello : HelloResponse)
  | RsEvents (events : list SignedEvent)
  | RsPeers (peers : list PeerRecord)
  | RsError (message : string).

(** The JSON of the two ([serde_json]), and the text of a storage error. *)
Class RnCodec := {
  request_to_vec : RnRequest → result string string;
  request_from_slice : string → result string RnRequest;
  response_to_vec : RnResponse → result string string;
  response_from_slice : string → result string RnResponse;
  storage_to_string : StorageError → string }.
Class RnCodecLaws (RC : RnCodec) : Prop := {
  request_text q t : request_to_vec q = Ok t → request_from_slice t = Ok q;
  response_text r t : response_to_vec r = Ok t → response_from_slice t = Ok r }.

Section reticulum.
Context `{P : Platform} `{C : Codec} `{RC : RnCodec}.

(** ** [handlers.rs] *)

Definition rn_local_heads : tx (gmap string Z) :=
  rows ← list_all_origins;
  mret (list_to_map ((λ r : hash32 * origin_row,
                        (to_hex r.1, wrap_u64 (or_highest_contiguous r.2))) <$> rows)).

Definition handle_events (origin_hex : string) (from to : Z) (d : db) :
    result StorageError (list SignedEvent) :=
  origin ← ok_or (decode_hex 32 origin_hex) (BadIdLength (String.length origin_hex));
  let from := wrap_i64 from in
  let to := Z.min (wrap_i64 to) (wrap_i64 (from + MAX_EVENTS_PER_FETCH - 1)) in
  rows ← fst <$> list_range origin from to d;
  map_err BadMetadata (read_events rows).

Definition handle_peers (d : db) : result StorageError (list PeerRecord) :=
  infos ← fst <$> list_peers d;
  foldr (λ (i : hash32 * peer_row) rest,
    addresses ← fst <$> list_addresses i.1 d;
    records ← rest;
    Ok ({| pc_peer_id := PeerId_to_string i.1; pc_public_key := hex_encode (raw (pe_public_key i.2));
           pc_addresses := addresses; pc_last_seen := pe_last_seen i.2 |} :: records)) (Ok []) infos.

Definition handle_request (self_id : hash32) (self_key : bytes 32) (d : db) (q : RnRequest) : RnResponse :=
  match q with
  | RqHello =>
      match rn_local_heads d with
      | Ok (heads, _) => RsHello {| he_protocol := SYNC_PROTOCOL; he_version := SYNC_VERSION;
          he_peer_id := PeerId_to_string self_id; he_public_key := hex_encode (raw self_key);
          he_heads := map_to_list heads |}
      | Err e => RsError (storage_to_string e)
      end
  | RqEvents origin_hex from to =>
      match handle_events origin_hex from to d with
      | Ok events => RsEvents events
      | Err e => RsError (storage_to_string e)
      end
  | RqPeers =>
      match handle_peers d with
      | Ok peers => RsPeers peers
      | Err e => RsError (storage_to_string e)
      end
  end.

(** ** [listener.rs] *)

Definition RATE_LIMITED : string := "rate limit exceeded".

Definition rate_limited_handle_request (self_id : hash32) (self_key : bytes 32) (now : Z) (d : db)
    (q : RnRequest) (limiter : window) : RnResponse * window :=
  let '(allowed, limiter) := sync_check now limiter in
  (if allowed then handle_request self_id self_key d q else RsError RATE_LIMITED, limiter).

Inductive LinkEvent := LinkActivated | LinkClosed | LinkData (payload : string).

(** Links by address. *)
Record listener := Listener { buffers : gmap string string; limiter : window }.

(** One turn of the loop of [run_listener]: the new state and the packets
    sent.  [linked] is [find_in_link], [packet] is [data_packet], both of the
    transport; a packet is shown as the plaintext it carries. *)
Fixpoint send_chunks (packet : string → bool) (cs : list string) : list string :=
  match cs with
  | [] => []
  | c :: cs => if packet c then c :: send_chunks packet cs else []
  end.
Definition listener_step (self_id : hash32) (self_key : bytes 32)
    (linked : string → bool) (packet : string → bool) (now : Z) (d : db)
    (link : string) (ev : LinkEvent) (s : listener) : listener * list string :=
  match ev with
  | LinkActivated => (Listener (<[link := ""]> (buffers s)) (limiter s), [])
  | LinkClosed => (Listener (delete link (buffers s)) (limiter s), [])
  | LinkData payload =>
      match push payload (default "" (buffers s !! link)) with
      | (Err _, _) => (Listener (delete link (buffers s)) (limiter s), [])
      | (Ok None, b) => (Listener (<[link := b]> (buffers s)) (limiter s), [])
      | (Ok (Some message), b) =>
          let s := Listener (<[link := b]> (buffers s)) (limiter s) in
          match request_from_slice message with
          | Err _ => (s, [])
          | Ok request =>
              let '(response, w) :=
                rate_limited_handle_request self_id self_key now d request (limiter s) in
              let s := Listener (buffers s) w in
              if negb (linked link) then (s, []) else
              match encode_message (response_to_vec response) with
              | Err _ => (s, [])
              | Ok framed => (s, send_chunks packet (chunks CHUNK_SIZE framed))
              end
          end
      end
  end.

(** A run over events, each with the time it is handled: the packets sent,
    with the link each goes to. *)
Fixpoint listen (self_id : hash32) (self_key : bytes 32) (linked packet : string → bool) (d : db)
    (evs : list (Z * string * LinkEvent)) (s : listener) : listener * list (string * string) :=
  match evs with
  | [] => (s, [])
  | (now, link, ev) :: evs =>
      let '(s, out) := listener_step self_id self_key linked packet now d link ev s in
      let '(s, outs) := listen self_id self_key linked packet d evs s in
      (s, ((λ c, (link, c)) <$> out) ++ outs)
  end.

(** ** [client.rs] *)

Inductive ReticulumError :=
  | RnStorage (e : StorageError)
  | RnEvents (e : EventsError)
  | RnFraming (e : FramingError)
  | RnNoAnnounce
  | RnLinkNotActivated
  | RnResponseTimeout
  | RnRemoteError (message : string)
  | RnUnexpectedResponse
  | RnInvalidPublicKey.

(** The receiving half of [send_request]: events of all links arrive until the
    wait times out or the channel closes.  A framing error is ignored. *)
Fixpoint receive (link : string) (evs : list (string * LinkEvent)) (buffer : Reassembler) : option string :=
  match evs with
  | [] => None
  | (l, ev) :: evs =>
      match ev with
      | LinkData payload =>
          if bool_decide (l = link) then
            match push payload buffer with
            | (Ok (Some message), _) => Some message
            | (_, b) => receive link evs b
            end
          else receive link evs buffer
      | _ => receive link evs buffer
      end
  end.
(** [packet] says which chunks the link can encrypt; an error there is
    reported as a timeout. *)
Definition request_chunks (q : RnRequest) : result ReticulumError (list string) :=
  framed ← map_err RnFraming (encode_message (request_to_vec q));
  Ok (chunks CHUNK_SIZE framed).
Definition send_request (packet : string → bool) (link : string) (q : RnRequest)
    (arriving : list (string * LinkEvent)) : result ReticulumError RnResponse :=
  sent ← request_chunks q;
  if negb (forallb packet sent) then Err RnResponseTimeout else
  bytes ← ok_or (receive link arriving "") RnResponseTimeout;
  map_err RnFraming (decode_message response_from_slice bytes).

(** *** [sync_with_peer] *)

(** An entry of the summary's errors, and the summary. *)
Inductive RnFailure :=
  | RnAnswered (origin_hex message : string)
  | RnUnexpected (origin_hex : string)
  | RnFetchFailed (origin_hex : string) (e : ReticulumError)
  | RnIngestFailed (origin_hex : string) (seq : Z) (e : EventsError).
Record RnSummary := { rs_applied : Z; rs_already_known : Z; rs_forks : Z; rs_errors : list RnFailure }.
Definition rn_failed (f : RnFailure) (s : RnSummary) : RnSummary :=
  {| rs_applied := rs_applied s; rs_already_known := rs_already_known s; rs_forks := rs_forks s;
     rs_errors := rs_errors s ++ [f] |}.

(** [ask] is [send_request] over the established link. *)
Section pulling.
Context (clock : nat → Z) (ask : RnRequest → result ReticulumError RnResponse).
Abbreviation rn := (ste service ReticulumError).

Definition rn_conn {A} (m : tx A) : rn A := statement RnStorage m.

Fixpoint rn_record_addresses (peer : hash32) (addresses : list string) : rn () :=
  match addresses with
  | [] => mret ()
  | a :: rest => _ ← tried (add_address peer a); rn_record_addresses peer rest
  end.
Definition rn_learn_peer (now : Z) (p : PeerRecord) : rn () :=
  match PeerId_from_str (pc_peer_id p), decode_hex 32 (pc_public_key p) with
  | Ok pid, Some pk =>
      done ← tried (upsert_peer pid pk None now);
      match done with
      | None => mret ()
      | Some _ => rn_record_addresses pid (take MAX_ADDRESSES_PER_PEER (pc_addresses p))
      end
  | _, _ => mret ()
  end.
Fixpoint rn_learn_peers (now : Z) (ps : list PeerRecord) : rn () :=
  match ps with [] => mret () | p :: ps => _ ← rn_learn_peer now p; rn_learn_peers now ps end.
Definition rn_discover_peers : rn () :=
  match ask RqPeers with
  | Ok (RsPeers peers) => t ← read_clock clock; rn_learn_peers t (take MAX_PEERS_PER_RESPONSE peers)
  | _ => mret ()
  end.

Fixpoint rn_ingest_all (origin_hex : string) (key : VerifyingKey) (evs : list SignedEvent)
    (s : RnSummary) : rn RnSummary :=
  match evs with
  | [] => mret s
  | signed :: rest =>
      t ← read_clock clock;
      outcome ← ingest key signed t;
      match outcome with
      | Ok (Applied _ _) => rn_ingest_all origin_hex key rest
          {| rs_applied := rs_applied s + 1; rs_already_known := rs_already_known s;
             rs_forks := rs_forks s; rs_errors := rs_errors s |}
      | Ok (AlreadyKnown _) => rn_ingest_all origin_hex key rest
          {| rs_applied := rs_applied s; rs_already_known := rs_already_known s + 1;
             rs_forks := rs_forks s; rs_errors := rs_errors s |}
      | Ok (Forked _ _) => mret
          {| rs_applied := rs_applied s; rs_already_known := rs_already_known s;
             rs_forks := rs_forks s + 1; rs_errors := rs_errors s |}
      | Err e => mret (rn_failed (RnIngestFailed origin_hex (sequence (unsigned signed)) e) s)
      end
  end.

Definition rn_key_of (remote_id : hash32) (remote_key : VerifyingKey) (origin : hash32) :
    rn (option VerifyingKey) :=
  if bool_decide (origin = remote_id) then mret (Some remote_key)
  else
    info ← rn_conn (get_peer origin);
    mret (info ≫= λ i, to_option (vk_from_bytes (pe_public_key i))).

Definition rn_pull_origin (remote_id : hash32) (remote_key : VerifyingKey) (heads : gmap string Z)
    (head : string * Z) (s : RnSummary) : rn RnSummary :=
  match decode_hex 32 head.1 with
  | None => mret s
  | Some origin =>
      let local_seq := default 0%Z (heads !! head.1) in
      if Z.leb head.2 local_seq then mret s else
      known ← rn_key_of remote_id remote_key origin;
      match known with
      | None => mret s
      | Some key =>
          match ask (RqEvents head.1 (local_seq + 1) head.2) with
          | Ok (RsEvents evs) => rn_ingest_all head.1 key evs s
          | Ok (RsError e) => mret (rn_failed (RnAnswered head.1 e) s)
          | Ok _ => mret (rn_failed (RnUnexpected head.1) s)
          | Err e => mret (rn_failed (RnFetchFailed head.1 e) s)
          end
      end
  end.
Fixpoint rn_pull_all (remote_id : hash32) (remote_key : VerifyingKey) (heads : gmap string Z)
    (hs : list (string * Z)) (s : RnSummary) : rn RnSummary :=
  match hs with
  | [] => mret s
  | h :: hs => s ← rn_pull_origin remote_id remote_key heads h s;
               rn_pull_all remote_id remote_key heads hs s
  end.

Fixpoint rn_record_known_heads (remote_id : hash32) (now : Z) (hs : list (string * Z)) : rn () :=
  match hs with
  | [] => mret ()
  | h :: hs =>
      _ ← match decode_hex 32 h.1 with
          | Some origin => rn_conn (upsert_known_head remote_id origin (wrap_i64 h.2) now)
          | None => mret ()
          end;
      rn_record_known_heads remote_id now hs
  end.

Definition rn_hello : result ReticulumError HelloResponse :=
  match ask RqHello with
  | Ok (RsHello hello) => Ok hello
  | Ok (RsError e) => Err (RnRemoteError e)
  | Ok _ => Err RnUnexpectedResponse
  | Err e => Err e
  end.
Definition rn_sync_with_peer (target_hex : string) : rn RnSummary :=
  hello ← of_result rn_hello;
  remote_id ← of_result (map_err (λ _, RnInvalidPublicKey) (PeerId_from_str (he_peer_id hello)));
  key_bytes ← of_result (ok_or (decode_hex 32 (he_public_key hello)) RnInvalidPublicKey);
  key ← of_result (map_err (λ _, RnInvalidPublicKey) (vk_from_bytes key_bytes));
  if negb (bool_decide (remote_id = PeerId_from_public_key key)) then raise RnInvalidPublicKey else
  t ← read_clock clock;
  _ ← rn_conn (upsert_peer remote_id key_bytes None t);
  _ ← rn_conn (add_address remote_id ("reticulum:" +:+ target_hex));
  _ ← rn_record_known_heads remote_id t (he_heads hello);
  _ ← rn_discover_peers;
  heads ← rn_conn rn_local_heads;
  rn_pull_all remote_id key heads (he_heads hello)
    {| rs_applied := 0; rs_already_known := 0; rs_forks := 0; rs_errors := [] |}.
End pulling.

(** ** A request and its answer *)

(** What arrives on a link, and what is sent to it. *)
Definition data_of (link : string) (evs : list (Z * string * LinkEvent)) : list string :=
  omap (λ e : Z * string * LinkEvent,
    if decide (e.1.2 = link) then match e.2 with LinkData p => Some p | _ => None end else None) evs.
Definition to_link (link : string) (outs : list (string * string)) : list string :=
  (filter (λ o : string * string, o.1 = link) outs).*2.
(** The link is neither opened nor closed meanwhile. *)
Definition steady (link : string) (evs : list (Z * string * LinkEvent)) : Prop :=
  ∀ e, e ∈ evs → e.1.2 = link → ∃ p, e.2 = LinkData p.
Definition answer_chunks (r : RnResponse) : list string :=
  match encode_message (response_to_vec r) with
  | Ok framed => chunks CHUNK_SIZE framed
  | Err _ => []
  end.

Lemma data_of_same link now p evs : data_of link ((now, link, LinkData p) :: evs) = p :: data_of link evs.
Proof. unfold data_of. cbn. by rewrite decide_True. Qed.
Lemma data_of_other link link' now ev evs :
  link' ≠ link → data_of link ((now, link', ev) :: evs) = data_of link evs.
Proof. intros. unfold data_of. cbn. by rewrite decide_False. Qed.
Lemma flat_cons c cs : flat (c :: cs) = c +:+ flat cs.
Proof. reflexivity. Qed.
Lemma steady_cons link now ev evs :
  steady link ((now, link, ev) :: evs) → ∃ p, ev = LinkData p.
Proof. intros Hs. destruct (Hs (now, link, ev) ltac:(by left) eq_refl) as [p ?]. by exists p. Qed.
Lemma steady_tail link e evs : steady link (e :: evs) → steady link evs.
Proof. intros Hs e' ?. apply Hs. by right. Qed.

Lemma send_chunks_all packet cs : (∀ c, packet c = true) → send_chunks packet cs = cs.
Proof. intros H. induction cs as [|c cs IH]; cbn; [done|]. by rewrite H, IH. Qed.

Section listening.
Context (self_id : hash32) (self_key : bytes 32) (linked packet : string → bool) (d : db).
Abbreviation step := (listener_step self_id self_key linked packet).
Abbreviation run := (listen self_id self_key linked packet d).

(** No step counts more than one request. *)
Lemma step_limiter now link ev s :
  (0 ≤ count (limiter s))%Z → (count (limiter s) + 1 < 2 ^ 32)%Z →
  (0 ≤ count (limiter (step now d link ev s).1) ≤ count (limiter s) + 1)%Z.
Proof.
  intros H0 Hn. destruct ev as [| |payload]; cbn [listener_step fst limiter]; [lia..|].
  destruct (push payload _) as [[[message|]|e] b]; cbn [fst limiter]; [|lia..].
  destruct (request_from_slice message) as [q|e]; cbn [fst limiter]; [|lia].
  unfold rate_limited_handle_request, sync_check.
  pose proof (tick_window WINDOW SYNC_MAX_REQUESTS_PER_WINDOW now (limiter s) H0 Hn) as Hw.
  destruct (tick _ _ _ _) as [allowed w]. cbn [snd] in Hw.
  destruct (negb _); [exact Hw|]. by destruct (encode_message _).
Qed.

(** Events of other links leave this one alone. *)
Lemma step_other now link link' ev s :
  link' ≠ link → buffers (step now d link' ev s).1 !! link = buffers s !! link.
Proof.
  intros Hne. destruct ev as [| |payload]; cbn [listener_step fst buffers].
  - by rewrite lookup_insert_ne.
  - by rewrite lookup_delete_ne.
  - destruct (push payload _) as [[[message|]|e] b]; cbn [fst buffers].
    + destruct (request_from_slice message) as [q|e]; cbn [fst buffers]; [|by rewrite lookup_insert_ne].
      destruct (rate_limited_handle_request _ _ _ _ _ _) as [r w].
      destruct (negb _); [by cbn; rewrite lookup_insert_ne|].
      destruct (encode_message _); cbn; by rewrite lookup_insert_ne.
    + by rewrite lookup_insert_ne.
    + by rewrite lookup_delete_ne.
Qed.

Lemma run_cons now link' ev evs s :
  run ((now, link', ev) :: evs) s =
  let '(s', out) := step now d link' ev s in
  let '(s'', outs) := run evs s' in (s'', ((λ c, (link', c)) <$> out) ++ outs).
Proof. reflexivity. Qed.

Lemma to_link_app link o1 o2 : to_link link (o1 ++ o2) = to_link link o1 ++ to_link link o2.
Proof. unfold to_link. by rewrite filter_app, fmap_app. Qed.
Lemma to_link_same link cs : to_link link ((λ c, (link, c)) <$> cs) = cs.
Proof.
  unfold to_link. induction cs as [|c cs IH]; [done|]. cbn [fmap list_fmap].
  rewrite filter_cons_True by done. cbn. by f_equal.
Qed.
Lemma to_link_other link link' cs : link' ≠ link → to_link link ((λ c, (link', c)) <$> cs) = [].
Proof.
  intros Hne. unfold to_link. induction cs as [|c cs IH]; [done|]. cbn [fmap list_fmap].
  by rewrite filter_cons_False.
Qed.

(** A link nothing more arrives on gets nothing. *)
Lemma run_silent link evs : ∀ s,
  default "" (buffers s !! link) = "" → flat (data_of link evs) = "" → steady link evs →
  to_link link (run evs s).2 = [].
Proof.
  induction evs as [|[[now link'] ev] evs IH]; intros s Hb Hd Hq; [done|]. rewrite run_cons.
  pose proof (steady_tail _ _ _ Hq) as Hq'. destruct (decide (link' = link)) as [->|Hne].
  - apply steady_cons in Hq as [p ->]. rewrite data_of_same, flat_cons in Hd.
    assert (p = "" ∧ flat (data_of link evs) = "") as [-> Hd'].
    { destruct p; [done|]. by rewrite string_app_cons in Hd. }
    cbn [listener_step]. rewrite Hb. change (push "" "") with (@Ok FramingError _ (@None string), "").
    cbn iota beta. specialize (IH (Listener (<[link := ""]> (buffers s)) (limiter s))).
    cbn [buffers] in IH. rewrite lookup_insert_eq in IH. specialize (IH eq_refl Hd' Hq').
    by destruct (run evs _).
  - rewrite data_of_other in Hd by done.
    specialize (IH (step now d link' ev s).1). rewrite (step_other now link link' ev s Hne) in IH.
    specialize (IH Hb Hd Hq'). destruct (step now d link' ev s) as [s' out]. cbn [fst] in IH.
    destruct (run evs s') as [s'' outs]. cbn [snd] in *. by rewrite to_link_app, to_link_other.
Qed.

(** One request, however its bytes are cut and interleaved with other links. *)
Lemma run_request link q json evs : ∀ s b,
  default "" (buffers s !! link) = b → b +:+ flat (data_of link evs) = frame json →
  String.length b < String.length (frame json) → (len json ≤ MAX_MESSAGE_BYTES)%Z →
  request_from_slice json = Ok q → linked link = true → (∀ c, packet c = true) → steady link evs →
  (0 ≤ count (limiter s))%Z → (count (limiter s) + Z.of_nat (length evs) < 2 ^ 32)%Z →
  ∃ now w, (0 ≤ count w < count (limiter s) + Z.of_nat (length evs))%Z ∧
    to_link link (run evs s).2 =
      answer_chunks (rate_limited_handle_request self_id self_key now d q w).1.
Proof.
  induction evs as [|[[now link'] ev] evs IH];
    intros s b Hb Hd Hl Hm Hq Hlink Hpacket Hs H0 Hn.
  { unfold flat in Hd. cbn in Hd. rewrite string_app_nil_r in Hd. rewrite Hd in Hl. lia. }
  rewrite run_cons. cbn [length] in Hn |- *.
  pose proof (steady_tail _ _ _ Hs) as Hs'.
  pose proof (step_limiter now link' ev s H0 ltac:(lia)) as Hlim.
  destruct (decide (link' = link)) as [->|Hne].
  - apply steady_cons in Hs as [p ->]. rewrite data_of_same, flat_cons, <-string_app_assoc in Hd.
    cbn [listener_step] in Hlim |- *. rewrite Hb in Hlim |- *.
    destruct (decide (String.length (b +:+ p) < String.length (frame json))) as [Hlt|Hge].
    + rewrite (push_partial _ _ _ _ Hm Hd Hlt).
      destruct (IH (Listener (<[link := b +:+ p]> (buffers s)) (limiter s)) (b +:+ p))
        as (t & w & Hw & Hout); try done; [|cbn; lia|].
      { cbn. by rewrite lookup_insert_eq. }
      exists t, w. cbn in Hw. split; [lia|].
      destruct (run evs _) as [s'' outs]. exact Hout.
    + assert (flat (data_of link evs) = "") as Ed.
      { apply string_length_nil. apply (f_equal String.length) in Hd.
        rewrite string_length_app in Hd. lia. }
      rewrite Ed, string_app_nil_r in Hd.
      rewrite (push_complete p b json "") in Hlim |- * by (by rewrite ?string_app_nil_r).
      rewrite Hq in Hlim |- *. exists now, (limiter s). split; [lia|]. cbn [limiter] in Hlim |- *.
      destruct (rate_limited_handle_request _ _ _ _ _ _) as [r w]. rewrite Hlink. cbn [negb fst].
      unfold answer_chunks. destruct (encode_message (response_to_vec r)) as [framed|e].
      * pose proof (run_silent link evs (Listener (<[link := ""]> (buffers s)) w)) as Hsil.
        cbn [buffers] in Hsil |- *. rewrite lookup_insert_eq in Hsil. specialize (Hsil eq_refl Ed Hs').
        destruct (run evs _) as [s'' outs]. cbn [snd] in *.
        by rewrite to_link_app, to_link_same, Hsil, app_nil_r, send_chunks_all.
      * pose proof (run_silent link evs (Listener (<[link := ""]> (buffers s)) w)) as Hsil.
        cbn [buffers] in Hsil |- *. rewrite lookup_insert_eq in Hsil. specialize (Hsil eq_refl Ed Hs').
        destruct (run evs _) as [s'' outs]. exact Hsil.
  - rewrite data_of_other in Hd by done. pose proof (step_other now link link' ev s Hne) as Hbuf.
    destruct (step now d link' ev s) as [s' out] eqn:Hstep. cbn [fst] in *.
    destruct (IH s' b) as (t & w & Hw & Hout); try done; [by rewrite Hbuf|lia|lia|].
    exists t, w. split; [lia|]. destruct (run evs s') as [s'' outs]. cbn [snd] in *.
    by rewrite to_link_app, to_link_other.
Qed.
End listening.

(** The client's side: the chunks of one message arrive, between other events. *)
Definition arrived (link : string) (evs : list (string * LinkEvent)) : list string :=
  data_of link ((λ e : string * LinkEvent, (0%Z, e.1, e.2)) <$> evs).

Lemma receive_message link json evs : ∀ b,
  b +:+ flat (arrived link evs) = frame json → String.length b < String.length (frame json) →
  (len json ≤ MAX_MESSAGE_BYTES)%Z → receive link evs b = Some json.
Proof.
  induction evs as [|[l ev] evs IH]; intros b Hd Hl Hm; unfold arrived in *; cbn [fmap list_fmap fst snd] in Hd.
  { unfold flat in Hd. cbn in Hd. rewrite string_app_nil_r in Hd. rewrite Hd in Hl. lia. }
  cbn [receive]. destruct (decide (l = link)) as [->|Hne].
  - destruct ev as [| |p].
    1, 2: apply IH; [|done..]; unfold data_of in Hd; cbn in Hd; by rewrite decide_True in Hd.
    rewrite data_of_same, flat_cons, <-string_app_assoc in Hd. rewrite bool_decide_true by done.
    destruct (decide (String.length (b +:+ p) < String.length (frame json))) as [Hlt|Hge].
    + rewrite (push_partial _ _ _ _ Hm Hd Hlt). by apply IH.
    + pose proof (f_equal String.length Hd) as Hlen. rewrite (string_length_app (b +:+ p)) in Hlen.
      rewrite (string_length_nil (flat _)) in Hd by lia. rewrite string_app_nil_r in Hd.
      by rewrite (push_complete p b json "") by (by rewrite ?string_app_nil_r).
  - rewrite data_of_other in Hd by done. destruct ev; [by apply IH..|].
    rewrite bool_decide_false by done. by apply IH.
Qed.

Lemma encode_small json framed :
  encode_message (Ok json) = Ok framed → framed = frame json ∧ (len json ≤ MAX_MESSAGE_BYTES)%Z.
Proof.
  unfold encode_message. cbn [map_err mbind result_bind].
  destruct (Z.ltb_spec MAX_MESSAGE_BYTES (len json)) as [|Hl]; [done|]. intros [= <-].
  rewrite wrap_u32_small by (unfold len, MAX_MESSAGE_BYTES in *; lia). done.
Qed.
Lemma receive_nothing link evs b : arrived link evs = [] → receive link evs b = None.
Proof.
  induction evs as [|[l ev] evs IH]; [done|]. unfold arrived in *. cbn [fmap list_fmap fst snd receive].
  destruct (decide (l = link)) as [->|Hne].
  - destruct ev as [| |p]; [| |by rewrite data_of_same].
    all: unfold data_of in *; cbn; rewrite decide_True by done; exact IH.
  - rewrite data_of_other by done. destruct ev; [exact IH..|]. by rewrite bool_decide_false.
Qed.
End reticulum.

(** ** What a pull over Reticulum does to the database *)

Section pulled.
Context `{P : Platform} `{L : !PlatformLaws P} `{C : Codec} `{RC : RnCodec}.
Context (clock : nat → Z) (ask : RnRequest → result ReticulumError RnResponse).

(** Local decisions and known keys stay; the log grows by authentic events. *)
Record pulled_db (d d' : db) : Prop := {
  pulled_ops : ops d' = ops d;
  pulled_keys o row : peers (net d) !! o = Some row →
    ∃ row', peers (net d') !! o = Some row' ∧ pe_public_key row' = pe_public_key row;
  pulled_log : ∃ rows, events (log d') = events (log d) ++ rows ∧
    ∀ e, e ∈ rows → ∃ key signed, row_of key signed e ∧ er_origin_peer_id e = PeerId_from_public_key key }.
Definition pulled (s s' : service) : Prop := pulled_db (store s) (store s').

Lemma pulled_refl d : pulled_db d d.
Proof.
  split; [done|by intros o row ?; exists row|]. exists []. rewrite app_nil_r.
  by split; [|intros ? []%not_elem_of_nil].
Qed.
#[export] Instance pulled_preorder : PreOrder pulled.
Proof.
  split.
  - intros s. apply pulled_refl.
  - intros s1 s2 s3 [O1 K1 (r1 & E1 & A1)] [O2 K2 (r2 & E2 & A2)]. split; [congruence| |].
    + intros o row (row' & Hr' & ?)%K1. destruct (K2 _ _ Hr') as (row'' & ? & ?).
      exists row''. split; congruence.
    + exists (r1 ++ r2). rewrite E2, E1, app_assoc. split; [done|].
      intros e [?|?]%elem_of_app; auto.
Qed.

(** A statement on the peer tables that keeps known keys. *)
Definition keeps_keys {A} (m : tx A) : Prop := ∀ d a d', m d = Ok (a, d') →
  ops d' = ops d ∧ log d' = log d ∧
  ∀ o row, peers (net d) !! o = Some row →
    ∃ row', peers (net d') !! o = Some row' ∧ pe_public_key row' = pe_public_key row.

Lemma keeps_keys_pulled {A} (m : tx A) d a d' : keeps_keys m → m d = Ok (a, d') → pulled_db d d'.
Proof.
  intros Hm Hr. destruct (Hm _ _ _ Hr) as (Ho & Hl & Hk). split; [done|done|].
  exists []. rewrite Hl, app_nil_r. by split; [|intros ? []%not_elem_of_nil].
Qed.
Lemma pulled_tried {E A} (m : tx A) : keeps_keys m → steps (E:=E) pulled (tried m).
Proof.
  intros Hm s. unfold tried, atomically, pulled. destruct (m (store s)) as [[a d]|e] eqn:Hr; [|apply pulled_refl].
  by eapply keeps_keys_pulled.
Qed.
Lemma pulled_conn {A} (m : tx A) : keeps_keys m → steps pulled (rn_conn m).
Proof.
  intros Hm s. unfold rn_conn, statement, transact, atomically, pulled.
  destruct (m (store s)) as [[a d]|e] eqn:Hr; [|apply pulled_refl].
  by eapply keeps_keys_pulled.
Qed.
Lemma pulled_now {E} : steps (E:=E) pulled (read_clock clock).
Proof. intros s. apply pulled_refl. Qed.

Lemma keeps_keys_read {A} (f : db → A) : keeps_keys (gets f).
Proof. intros d a d' [= _ <-]. split_and!; [done..|]. by intros o row ?; exists row. Qed.
Lemma keeps_keys_head o o' n t : keeps_keys (upsert_known_head o o' n t).
Proof. intros d a d' [= _ <-]. split_and!; [done..|]. by intros ? row ?; exists row. Qed.
(** Whose pad is spared does not matter here. *)
Definition some_config (o : hash32) : SyncConfig := {|
  self_peer_id := o; self_public_key := o; federation := Open; minimum_trust := f32_zero;
  trust_config := TrustConfig_default; own_cluster := None |}.
Lemma keeps_keys_address o a : keeps_keys (add_address o a).
Proof.
  intros d x d' H. destruct (net_op_address (some_config o) o a d x d' H) as (n & -> & Hn).
  split_and!; [done..|apply Hn].
Qed.
Lemma keeps_keys_upsert o key name t : keeps_keys (upsert_peer o key name t).
Proof.
  intros d a d' [= _ <-]. split_and!; [done..|]. intros o' row Hr. cbn.
  destruct (decide (o = o')) as [<-|Hne].
  - rewrite lookup_insert_eq, Hr. by eexists.
  - rewrite lookup_insert_ne by done. by exists row.
Qed.
Lemma keeps_keys_heads : keeps_keys rn_local_heads.
Proof. intros d a d' [= _ <-]. split_and!; [done..|]. by intros o row ?; exists row. Qed.

Lemma pulled_ingest {E} key e t : steps (E:=E) pulled (ingest key e t).
Proof.
  intros s. unfold ingest, pulled. pose proof (ingest_events key e t (store s)) as [Ho He].
  pose proof (ingest_net_ok (some_config (PeerId_from_public_key key)) key e t (store s)) as [_ Hk _ _ _ _].
  destruct (ingest_remote_event key e t (store s)) as [r d]. cbn [fst snd store] in *.
  split; [done|exact Hk|]. destruct He as [[He _]|[(row & Hrow & He & _)|(o & a & b & x & _ & _ & He & _ & _)]].
  - exists []. rewrite He, app_nil_r. by split; [|intros ? []%not_elem_of_nil].
  - exists [row]. split; [done|]. intros x ->%list_elem_of_singleton. exists key, e. split; [done|].
    destruct Hrow as [(_ & _ & Hor & _)%check_envelope_inv _]. done.
  - exists []. rewrite He, app_nil_r. by split; [|intros ? []%not_elem_of_nil].
Qed.

Create HintDb pulled.
Hint Resolve steps_ret steps_raise steps_of_result pulled_tried pulled_conn pulled_now pulled_ingest
  keeps_keys_read keeps_keys_head keeps_keys_address keeps_keys_upsert keeps_keys_heads pulled_preorder : pulled.
Ltac pull := repeat first
  [ progress eauto with pulled
  | apply steps_bind; [apply _| |intros]
  | case_match ].

Lemma pulled_ingest_all hex key evs : ∀ sm, steps pulled (rn_ingest_all clock hex key evs sm).
Proof. induction evs as [|e evs IH]; intros sm; cbn [rn_ingest_all]; pull. Qed.
Lemma pulled_all id key heads hs : ∀ sm, steps pulled (rn_pull_all clock ask id key heads hs sm).
Proof.
  pose proof pulled_ingest_all.
  induction hs as [|h hs IH]; intros sm; cbn [rn_pull_all]; unfold rn_pull_origin, rn_key_of; pull.
Qed.
Lemma pulled_addresses o l : steps pulled (rn_record_addresses o l).
Proof. induction l as [|a l IH]; cbn [rn_record_addresses]; pull. Qed.
Lemma pulled_learn t ps : steps pulled (rn_learn_peers t ps).
Proof.
  pose proof pulled_addresses. induction ps as [|p ps IH]; cbn [rn_learn_peers]; unfold rn_learn_peer; pull.
Qed.
Lemma pulled_known o t hs : steps pulled (rn_record_known_heads o t hs).
Proof. induction hs as [|h hs IH]; cbn [rn_record_known_heads]; pull. Qed.

Lemma pulled_sync target : steps pulled (rn_sync_with_peer clock ask target).
Proof.
  pose proof pulled_all. pose proof pulled_learn. pose proof pulled_known.
  unfold rn_sync_with_peer, rn_discover_peers. pull.
Qed.
End pulled.

(** ** Properties *)

Section properties.
Context `{P : Platform} `{C : Codec} `{RC : RnCodec} `{RL : !RnCodecLaws RC}.

(** A request over a link is answered.  Let a client send a request that can
    be encoded, and let its chunks arrive at the listener on a freshly
    activated link in order, however re-cut and interleaved with the traffic of
    other links; let what the listener sends back arrive the same way.  Then
    the client obtains exactly the handler's answer - or the rate-limit error,
    which cannot happen while fewer than 600 events have been counted - or,
    if that answer is over 8 MiB, a timeout: the listener drops it. *)
Theorem reticulum_request_answered self_id self_key linked packet d link q sent evs s arriving :
  default "" (buffers s !! link) = "" → request_chunks q = Ok sent →
  flat (data_of link evs) = flat sent → steady link evs →
  linked link = true → (∀ c, packet c = true) →
  (0 ≤ count (limiter s))%Z → (count (limiter s) + Z.of_nat (length evs) < 2 ^ 32)%Z →
  (∀ now w, is_ok (response_to_vec (rate_limited_handle_request self_id self_key now d q w).1) = true) →
  let outs := (listen self_id self_key linked packet d evs s).2 in
  flat (arrived link arriving) = flat (to_link link outs) →
  (to_link link outs = [] → arrived link arriving = []) →
  ∃ now w, let r := (rate_limited_handle_request self_id self_key now d q w).1 in
    (send_request packet link q arriving = Ok r ∨
     send_request packet link q arriving = Err RnResponseTimeout ∧
       ∃ json, response_to_vec r = Ok json ∧ (MAX_MESSAGE_BYTES < len json)%Z) ∧
    ((count (limiter s) + Z.of_nat (length evs) ≤ SYNC_MAX_REQUESTS_PER_WINDOW)%Z →
     r = handle_request self_id self_key d q).
Proof.
  intros Hb Hsent Hdata Hsteady Hlinked Hpacket H0 Hn Hresp outs Harr Hnone.
  pose proof Hsent as Hreq. unfold request_chunks in Hreq.
  apply result_bind_ok in Hreq as (framed & Hf%map_err_ok & [= <-]).
  rewrite chunks_flat in Hdata by (unfold CHUNK_SIZE; lia).
  unfold encode_message in Hf. destruct (request_to_vec q) as [json|] eqn:Hjson; [|done].
  fold (encode_message (Ok json)) in Hf. apply encode_small in Hf as [-> Hm].
  destruct (run_request self_id self_key linked packet d link q json evs s "" Hb Hdata)
    as (now & w & Hw & Hout); [rewrite frame_length; cbn; lia|done|by apply request_text|done..|].
  exists now, w. fold outs in Hout.
  split.
  - unfold send_request. rewrite Hsent. cbn [mbind result_bind].
    assert (forallb packet (chunks CHUNK_SIZE (frame json)) = true) as ->
      by (apply forallb_forall; auto).
    cbn [negb]. specialize (Hresp now w).
    destruct (response_to_vec _) as [jr|] eqn:Hjr; [|done]. clear Hresp.
    unfold answer_chunks in Hout. rewrite Hjr in Hout.
    destruct (encode_message (Ok jr)) as [framed|e] eqn:He.
    + apply encode_small in He as [-> Hmr]. left.
      rewrite Hout, chunks_flat in Harr by (unfold CHUNK_SIZE; lia).
      rewrite (receive_message link jr arriving "") by (done || rewrite ?frame_length; cbn; lia || done).
      cbn. unfold decode_message. by rewrite (response_text _ _ Hjr).
    + right. rewrite (receive_nothing link arriving "" (Hnone Hout)). split; [done|].
      exists jr. split; [done|]. unfold encode_message in He. cbn [map_err mbind result_bind] in He.
      by destruct (Z.ltb_spec MAX_MESSAGE_BYTES (len jr)).
  - intros Hle. unfold rate_limited_handle_request, sync_check, tick.
    assert ((wrap_u32 (count (if expired WINDOW now w then Win now 0 else w) + 1)
              <=? SYNC_MAX_REQUESTS_PER_WINDOW)%Z = true) as ->.
    { apply Z.leb_le. unfold SYNC_MAX_REQUESTS_PER_WINDOW in *.
      destruct (expired _ _ _); cbn [count]; [rewrite wrap_u32_small; lia|].
      rewrite wrap_u32_small; lia. }
    done.
Qed.
End properties.

Section pull_properties.
Context `{P : Platform} `{L : !PlatformLaws P} `{C : Codec}.
Context (clock : nat → Z) (ask : RnRequest → result ReticulumError RnResponse).

(** A pull over Reticulum, whatever the remote answers, leaves the
    operator's decisions and the keys of known peers as they are, and appends
    to the log only events signed by the origin they are filed under - of any
    origin: there is no federation policy here.  But a peer it lists is
    believed: an id this peer has not seen is stored with whatever key is
    listed for it.  With a key the id is not the hash of, every event of that
    origin is then refused. *)
Theorem reticulum_pull_guards target s :
  let s' := (rn_sync_with_peer clock ask target s).2 in
  (ops (store s') = ops (store s) ∧
   (∀ o row, peers (net (store s)) !! o = Some row →
      ∃ row', peers (net (store s')) !! o = Some row' ∧ pe_public_key row' = pe_public_key row) ∧
   ∃ rows, events (log (store s')) = events (log (store s)) ++ rows ∧
     ∀ e, e ∈ rows → ∃ key signed, row_of key signed e ∧
       er_origin_peer_id e = PeerId_from_public_key key) ∧
  (∀ p pid pk, ask RqPeers = Ok (RsPeers [p]) →
     PeerId_from_str (pc_peer_id p) = Ok pid → decode_hex 32 (pc_public_key p) = Some pk →
     peers (net (store s)) !! pid = None →
     ∃ row, peers (net (store (rn_discover_peers clock ask s).2)) !! pid = Some row ∧
       pe_public_key row = pk) ∧
  (∀ pid key signed t d, PeerId_from_public_key key ≠ pid →
     PeerId_from_str (origin_peer (unsigned signed)) = Ok pid →
     ∃ e, ingest_remote_event key signed t d = (Err e, d)).
Proof.
  split_and!.
  - apply (pulled_sync clock ask target s).
  - apply (pulled_sync clock ask target s).
  - apply (pulled_sync clock ask target s).
  - intros p pid pk Ha Hid Hpk Hnew. unfold rn_discover_peers. rewrite Ha.
    cbv [mbind ste_bind read_clock]. cbn [take MAX_PEERS_PER_RESPONSE rn_learn_peers].
    unfold rn_learn_peer. rewrite Hid, Hpk.
    cbv [mbind ste_bind tried atomically upsert_peer modify]. cbn [store ticks].
    set (d := on_net _ (store s)). cbn [to_option].
    pose proof (pulled_addresses pid (take MAX_ADDRESSES_PER_PEER (pc_addresses p))
                  (Svc d (S (ticks s)))) as [_ Hk _].
    destruct (rn_record_addresses _ _ _) as [[u|e] s1]; cbn [snd] in *.
    all: apply (Hk pid (PeerRow pk None (clock (ticks s)) (Some (clock (ticks s))) false)).
    all: cbn; rewrite Hnew; apply lookup_insert_eq.
  - intros pid key signed t d Hne Hid. unfold ingest_remote_event, check_envelope.
    destruct (verify_and_derive_id signed key) as [id|e]; cbn; [|by exists e].
    rewrite Hid. cbn. rewrite bool_decide_false by done. by eexists.
Qed.
End pull_properties.

(** ** Witnesses *)

Section witnesses.
#[local] Existing Instance Toy.platform.
#[local] Existing Instance demo_codec.

(** Enough of the JSON for a peers call on an empty database. *)
#[local] Instance demo_rn : RnCodec := {|
  request_to_vec := λ q, match q with RqPeers => Ok "P" | _ => Err "" end;
  request_from_slice := λ t, if bool_decide (t = "P") then Ok RqPeers else Err "";
  response_to_vec := λ r, match r with RsPeers [] => Ok "[]" | RsError m => Ok (String "X" m) | _ => Err "" end;
  response_from_slice := λ t,
    if bool_decide (t = "[]") then Ok (RsPeers [])
    else match t with String _ m => Ok (RsError m) | _ => Err "" end;
  storage_to_string := λ _, "" |}.
#[local] Instance demo_rn_laws : RnCodecLaws demo_rn.
Proof.
  split.
  - by intros [| |] t [= <-].
  - intros [|es|[|? ?]|m] t; intros [= <-]; done.
Qed.

(** Two links talk at once; the request arrives a few bytes at a time. *)
Definition demo_events : list (Z * string * LinkEvent) :=
  [(1, "l1", LinkData (zeros 2)); (2, "l2", LinkActivated);
   (3, "l1", LinkData (zeros 1 +:+ String (byte_of 1) ""));
   (4, "l2", LinkData "?"); (5, "l1", LinkData "P")]%Z.
Definition demo_listener : listener := Listener {["l1" := ""]} (Win 0 0).
Definition demo_packets : list string :=
  to_link "l1" (listen bob bob (λ _, true) (λ _, true) empty_db demo_events demo_listener).2.

Lemma reticulum_request_answered_witness :
  send_request (λ _, true) "l1" RqPeers [("l2", LinkClosed); ("l1", LinkData (flat demo_packets))]
    = Ok (RsPeers []).
Proof.
  assert (demo_packets = [frame "[]"]) as Hp by (vm_compute; reflexivity).
  destruct (@reticulum_request_answered Toy.platform demo_codec demo_rn demo_rn_laws bob bob (λ _, true) (λ _, true) empty_db
    "l1" RqPeers [frame "P"] demo_events demo_listener
    [("l2", LinkClosed); ("l1", LinkData (flat demo_packets))])
    as (now & w & [H|(_ & json & Hj & Hl)] & Hr).
  - reflexivity.
  - reflexivity.
  - reflexivity.
  - intros e He Hl. unfold demo_events in He.
    repeat (apply elem_of_cons in He as [->|He]; [try discriminate Hl; by eexists|]).
    by apply elem_of_nil in He.
  - reflexivity.
  - reflexivity.
  - cbn. lia.
  - cbn. lia.
  - intros now w. unfold rate_limited_handle_request. by destruct (sync_check now w) as [[] ?].
  - match goal with |- _ = flat ?outs => change outs with demo_packets end. rewrite Hp. reflexivity.
  - match goal with |- ?outs = [] → _ => change outs with demo_packets end. rewrite Hp. discriminate 1.
  - rewrite H, (Hr ltac:(vm_compute; discriminate)). reflexivity.
  - exfalso. rewrite (Hr ltac:(vm_compute; discriminate)) in Hj. injection Hj as <-. vm_compute in Hl. discriminate Hl.
Defined.

(** A remote that lists bob under its own key. *)
Definition lying_remote (q : RnRequest) : result ReticulumError RnResponse :=
  match q with
  | RqPeers => Ok (RsPeers [{| pc_peer_id := PeerId_to_string (identity_peer_id bob);
      pc_public_key := hex_encode (raw alice); pc_addresses := []; pc_last_seen := None |}])
  | _ => Err RnUnexpectedResponse
  end.

Lemma reticulum_pull_guards_witness :
  ∃ row, peers (net (store (rn_discover_peers Demo.seconds lying_remote (Svc empty_db 0)).2))
           !! identity_peer_id bob = Some row ∧ pe_public_key row = alice.
Proof.
  destruct (@reticulum_pull_guards Toy.platform demo_codec Demo.seconds lying_remote "00" (Svc empty_db 0))
    as (_ & H & _).
  eapply H; [reflexivity| | |reflexivity].
  - cbn [pc_peer_id]. apply (@PeerId_from_to_string _ Toy.laws).
  - cbn [pc_public_key]. apply (@decode_hex_encode _ Toy.laws).
Defined.
End witnesses.
