(* ===== verification/GatewayFacts.v ===== *)
(** * What the gateway guarantees

    What a quorum of answers means, where an answer may come from and what is
    cached, and that relaying ends. *)

From S2P Require Import Prelude Core Envelope Presence RateLimit Bytes Ntp Signed Gateway.

(** ** The time quorum *)

Section ntp_quorum.
Context (tol : Z) (Htol : (0 ≤ tol < 2 ^ 62)%Z).

(** Values that are times, not the ends of the [i64] range. *)
Definition plausible (v : Z) : Prop := (Z.abs v < 2 ^ 62)%Z.

Lemma cluster_spec values v o :
  plausible v → Forall plausible values →
  o ∈ cluster tol values v ↔ o ∈ values ∧ (Z.abs (o - v) ≤ tol)%Z.
Proof.
  intros Hv Hvs. unfold cluster. rewrite list_elem_of_filter.
  assert (o ∈ values → plausible o) as Ho by (intros H; by eapply Forall_forall in Hvs).
  unfold plausible in *. split.
  - intros [H Hin]. split; [done|]. specialize (Ho Hin). apply Z.leb_le in H.
    unfold wrapping_abs in H. rewrite (wrap_i64_small (o - v)) in H by (unfold is_i64; lia).
    rewrite wrap_i64_small in H by (unfold is_i64; lia). done.
  - intros [Hin H]. split; [|done]. specialize (Ho Hin). apply Z.leb_le.
    unfold wrapping_abs. rewrite (wrap_i64_small (o - v)) by (unfold is_i64; lia).
    rewrite wrap_i64_small by (unfold is_i64; lia). done.
Qed.

(** The best cluster is that of one of the values, or empty, and no shorter
    than any other's. *)
Lemma best_cluster_spec values cs : ∀ best,
  let b := best_cluster tol values cs best in
  (b = best ∨ ∃ v, v ∈ cs ∧ b = cluster tol values v) ∧
  length best ≤ length b ∧ ∀ v, v ∈ cs → length (cluster tol values v) ≤ length b.
Proof.
  induction cs as [|c cs IH]; intros best; cbn [best_cluster].
  - split_and!; [by left|done|]. by intros v ?%elem_of_nil.
  - set (best' := if length best <? length (cluster tol values c) then _ else _).
    destruct (IH best') as (Hb & Hl & Hm).
    assert (length best ≤ length best' ∧ length (cluster tol values c) ≤ length best') as [H1 H2].
    { unfold best'. destruct (Nat.ltb_spec (length best) (length (cluster tol values c))); lia. }
    split_and!.
    + destruct Hb as [->|(v & Hv & ->)]; [|right; exists v; split; [by right|done]].
      unfold best'. destruct (_ <? _); [right; exists c; split; [by left|done]|by left].
    + lia.
    + intros v [->|Hv]%elem_of_cons; [lia|]. specialize (Hm v Hv). lia.
Qed.

Lemma median_elem (best : list Z) m : merge_sort Z.le best !! (length best / 2) = Some m → m ∈ best.
Proof.
  intros H. apply list_elem_of_lookup_2 in H.
  by rewrite (merge_sort_Permutation Z.le best) in H.
Qed.
Lemma median_exists (best : list Z) : best ≠ [] → is_Some (merge_sort Z.le best !! (length best / 2)).
Proof.
  intros Hb. apply lookup_lt_is_Some_2. rewrite (Permutation_length (merge_sort_Permutation Z.le best)).
  destruct best; [done|]. apply Nat.div_lt; cbn; lia.
Qed.

(** How many of a list satisfy a predicate. *)
Definition tally (Q : Z → Prop) `{∀ x, Decision (Q x)} (l : list Z) : nat := length (filter Q l).
Lemma tally_sublist (Q : Z → Prop) `{∀ x, Decision (Q x)} (l' l : list Z) :
  sublist l' l → tally Q l' ≤ tally Q l.
Proof.
  unfold tally. induction 1 as [|x l' l _ IH|x l' l _ IH]; [done| |].
  - rewrite !filter_cons. case_decide; cbn; lia.
  - rewrite filter_cons. case_decide; cbn; lia.
Qed.
Lemma tally_all (Q : Z → Prop) `{∀ x, Decision (Q x)} (l : list Z) : Forall Q l → tally Q l = length l.
Proof.
  unfold tally. induction 1 as [|x l Hx _ IH]; [done|]. rewrite filter_cons_True by done. cbn. by rewrite IH.
Qed.
Lemma tally_exists (Q : Z → Prop) `{∀ x, Decision (Q x)} (l' l : list Z) :
  sublist l' l → tally Q l < length l' → ∃ x, x ∈ l' ∧ ¬ Q x.
Proof.
  intros Hs Hl. destruct (decide (Forall Q l')) as [Hf|Hn].
  - pose proof (tally_sublist Q _ _ Hs) as H'. rewrite tally_all in H' by done. lia.
  - apply not_Forall_Exists, Exists_exists in Hn; [done|apply _].
Qed.

(** As long as all values are times, a cluster is what it is meant to be. *)
Lemma cluster_filter values v :
  plausible v → Forall plausible values →
  cluster tol values v = filter (λ o, (Z.abs (o - v) ≤ tol)%Z) values.
Proof.
  intros Hv Hvs. assert (∀ o, o ∈ values →
    (Z.leb (wrapping_abs (wrap_i64 (o - v))) tol = true ↔ (Z.abs (o - v) ≤ tol)%Z)) as Hiff.
  { intros o Ho. pose proof (cluster_spec values v o Hv Hvs) as Hs.
    unfold cluster in Hs. rewrite list_elem_of_filter in Hs. tauto. }
  clear Hvs. unfold cluster. induction values as [|x values IH]; [done|].
  rewrite !filter_cons. rewrite IH by (intros o ?; apply Hiff; by right).
  specialize (Hiff x ltac:(by left)). repeat case_decide; tauto.
Qed.
End ntp_quorum.

(** The values of the answers that are times. *)
Definition times (outcomes : list (result GatewayError GatewayResult)) : list Z :=
  ntp_values (omap to_option outcomes).

Section aggregate.
Context (order : list (string * list GatewayResult) → list (string * list GatewayResult)).
Context (tol : Z) (Htol : (0 ≤ tol < 2 ^ 62)%Z).

(** A time that comes out is backed by a cluster of the values. *)
Lemma aggregate_ntp_cases outcomes min_agree :
  let values := times outcomes in
  let b := best_cluster tol values values [] in
  match aggregate_quorum order GwNtp outcomes tol min_agree with
  | Ok (NtpResult m) => m ∈ b ∧ min_agree ≤ length b ∧ ∃ v, v ∈ values ∧ b = cluster tol values v
  | Ok _ => False
  | Err e => e = GwNoQuorum ∧ length b < min_agree ∨ e = GwPanic ∧ min_agree = 0 ∧ b = []
  end.
Proof.
  intros values b. unfold aggregate_quorum. fold (times outcomes). fold values. fold b.
  destruct (Nat.ltb_spec (length b) min_agree) as [Hl|Hl]; [by left|].
  destruct (merge_sort Z.le b !! (length b / 2)) as [m|] eqn:Hm.
  - apply median_elem in Hm. split; [done|]. split; [done|].
    destruct (best_cluster_spec tol values values []) as [[Hb|Hb] _]; [|exact Hb].
    fold b in Hb. rewrite Hb in Hm. by apply elem_of_nil in Hm.
  - right. destruct b as [|x b'] eqn:Eb; [cbn in Hl; split_and!; [done|lia|done]|].
    destruct (median_exists (x :: b') ltac:(done)) as [m Hm']. congruence.
Qed.
End aggregate.

(** ** Properties of the quorum *)

(** C35: The time quorum.  Suppose fewer than [quorum_min_agree] of the answers are
    more than [eps] from the true time.  Then a time that comes out is within
    twice the tolerance and [eps] of it, and is backed by at least
    [quorum_min_agree] answers within the tolerance of one of them; and if
    that many answers lie within the tolerance of one of them, a time does
    come out.  With a quorum of zero and no answers the code panics.  (The
    values must be times: the difference of two arbitrary [i64]s may wrap, and
    an answer 2^63 ms away counts as within every tolerance, so that two such
    answers out of three decide a quorum of three.) *)
Theorem ntp_quorum_sound order outcomes tol min_agree truth eps :
  (0 ≤ tol < 2 ^ 62)%Z → Forall plausible (times outcomes) →
  (tally (λ v, (eps < Z.abs (v - truth))%Z) (times outcomes) < min_agree →
   ∀ r, aggregate_quorum order GwNtp outcomes tol min_agree = Ok r →
   ∃ m v, r = NtpResult m ∧ (Z.abs (m - truth) ≤ 2 * tol + eps)%Z ∧
     v ∈ times outcomes ∧ min_agree ≤ tally (λ o, (Z.abs (o - v) ≤ tol)%Z) (times outcomes)) ∧
  (∀ v, v ∈ times outcomes → min_agree ≤ tally (λ o, (Z.abs (o - v) ≤ tol)%Z) (times outcomes) →
   ∃ m, aggregate_quorum order GwNtp outcomes tol min_agree = Ok (NtpResult m)) ∧
  aggregate_quorum order GwNtp [] tol 0 = Err GwPanic ∧
  aggregate_quorum order GwNtp
    (Ok ∘ NtpResult <$> [1700000000000; 1700000000000 - 2 ^ 63; 1700000000000 - 2 ^ 63]%Z) 1000 3
    = Ok (NtpResult (1700000000000 - 2 ^ 63)).
Proof.
  intros Htol Hp.
  assert (∀ v, v ∈ times outcomes →
    cluster tol (times outcomes) v = filter (λ o, (Z.abs (o - v) ≤ tol)%Z) (times outcomes)) as Hc.
  { intros v Hv. apply cluster_filter; [done| |done]. by eapply Forall_forall in Hv. }
  pose proof (aggregate_ntp_cases order tol outcomes min_agree) as Hcases.
  cbv zeta in Hcases. set (b := best_cluster tol (times outcomes) (times outcomes) []) in *. split_and!.
  - intros Hliars r Hr. rewrite Hr in Hcases. destruct r as [m|]; [|done].
    destruct Hcases as (Hm & Hlen & v & Hv & Hb). rewrite (Hc v Hv) in Hb. exists m, v.
    destruct (tally_exists (λ v, (eps < Z.abs (v - truth))%Z) b (times outcomes) ltac:(rewrite Hb; apply sublist_filter) ltac:(lia))
      as (h & Hh & Hhonest).
    rewrite Hb in Hm, Hh. apply list_elem_of_filter in Hm as [Hm _], Hh as [Hh _].
    split_and!; [done|lia|done|]. unfold tally. by rewrite <-Hb.
  - intros v Hv Hk. unfold tally in Hk. rewrite <-(Hc v Hv) in Hk.
    destruct (best_cluster_spec tol (times outcomes) (times outcomes) []) as (_ & _ & Hmax).
    specialize (Hmax v Hv). fold b in Hmax.
    destruct (aggregate_quorum _ _ _ _ _) as [[m|]|e]; [by exists m|done|].
    destruct Hcases as [[_ H]|(_ & H0 & Hb)]; [lia|]. exfalso. rewrite Hb in Hmax. cbn in Hmax.
    assert (v ∈ cluster tol (times outcomes) v) as Hin.
    { rewrite (Hc v Hv). apply list_elem_of_filter. split; [lia|done]. }
    destruct (cluster tol (times outcomes) v); [by apply elem_of_nil in Hin|cbn in Hmax; lia].
  - reflexivity.
  - vm_compute. reflexivity.
Qed.

(** ** The content quorum *)

Definition hash_of (r : GatewayResult) : option string :=
  match r with HttpResult _ h _ _ => Some h | _ => None end.
(** The answers with one content hash, in order. *)
Definition of_hash (h : string) (oks : list GatewayResult) : list GatewayResult :=
  filter (λ r, hash_of r = Some h) oks.
Definition votes (h : string) (outcomes : list (result GatewayError GatewayResult)) : nat :=
  length (of_hash h (omap to_option outcomes)).

Lemma group_by_hash_lookup oks h : ∀ groups,
  group_by_hash oks groups !! h =
  match of_hash h oks with [] => groups !! h | l => Some (default [] (groups !! h) ++ l) end.
Proof.
  induction oks as [|r oks IH]; intros groups; [done|]. cbn [group_by_hash]. unfold of_hash in *.
  destruct r as [t|status hash body cc].
  - rewrite IH, filter_cons_False by done. done.
  - rewrite IH. destruct (decide (hash = h)) as [->|Hne].
    + rewrite lookup_insert_eq, filter_cons_True by done. cbn [default from_option id].
      destruct (filter _ oks); [done|]. by rewrite <-app_assoc.
    + rewrite lookup_insert_ne by done. rewrite filter_cons_False by (cbn; congruence). done.
Qed.
Lemma groups_lookup oks h :
  group_by_hash oks ∅ !! h = match of_hash h oks with [] => None | l => Some l end.
Proof. rewrite group_by_hash_lookup, lookup_empty. done. Qed.

Lemma last_longest_spec groups : ∀ best,
  match last_longest groups best with
  | Some g => (best = Some g ∨ ∃ h, (h, g) ∈ groups) ∧
      (∀ b, best = Some b → length b ≤ length g) ∧ ∀ h g', (h, g') ∈ groups → length g' ≤ length g
  | None => best = None ∧ groups = []
  end.
Proof.
  induction groups as [|[h g] groups IH]; intros best; cbn [last_longest].
  - destruct best as [b|]; [|done]. split_and!; [by left|by intros ? [= <-]|].
    by intros ?? ?%elem_of_nil.
  - set (best' := match best with Some b => _ | None => _ end). specialize (IH best').
    assert (∃ b', best' = Some b' ∧ (best = Some b' ∨ b' = g) ∧ length g ≤ length b' ∧
      ∀ b, best = Some b → length b ≤ length b') as (b' & Hb' & Hor & Hg & Hle).
    { unfold best'. destruct best as [b|]; [|exists g; split_and!; [done|by right|done|done]].
      destruct (Nat.leb_spec (length b) (length g)); eexists; split_and!;
        [done|by right|done|by intros ? [= <-]|done|by left|lia|by intros ? [= <-]]. }
    rewrite Hb' in IH |- *. destruct (last_longest groups (Some b')) as [r|]; [|by destruct IH].
    destruct IH as (Hin & Hmax & Hall). specialize (Hmax b' eq_refl). split_and!.
    + destruct Hin as [H|[h' Hin]]; [injection H as ->|right; exists h'; by right].
      destruct Hor as [H' | ->]; [by left|right; exists h; by left].
    + intros b Hb. specialize (Hle b Hb). lia.
    + intros h' g' [H|Hin']%elem_of_cons; [injection H as -> ->; lia|by eapply Hall].
Qed.

Section http_quorum.
Context (order : list (string * list GatewayResult) → list (string * list GatewayResult)).
Context (Horder : ∀ l, order l ≡ₚ l).

Lemma ordered_groups oks h g :
  (h, g) ∈ order (map_to_list (group_by_hash oks ∅)) ↔ g = of_hash h oks ∧ g ≠ [].
Proof.
  rewrite (Horder _), elem_of_map_to_list, groups_lookup.
  destruct (of_hash h oks); naive_solver.
Qed.

(** The content quorum.  Content that comes out is one of the answers, its
    hash is given by at least [quorum_min_agree] of them, and no other by
    more; if a hash has that many answers, content comes out - unless it is
    zero answers.  But it is only the hash that is compared: the body, the
    status and the caching of the result are those of the first answer with
    the hash, and nothing checks that the body has it.  One peer that answers
    first, with the hash the others compute, decides the content. *)
Theorem http_quorum_agrees url outcomes tol min_agree :
  (∀ r, aggregate_quorum order (GwHttp url) outcomes tol min_agree = Ok r →
     Ok r ∈ outcomes ∧ ∃ h, hash_of r = Some h ∧ min_agree ≤ votes h outcomes ∧
       ∀ h', votes h' outcomes ≤ votes h outcomes) ∧
  (∀ h, 1 ≤ votes h outcomes → min_agree ≤ votes h outcomes →
     ∃ r, aggregate_quorum order (GwHttp url) outcomes tol min_agree = Ok r) ∧
  (∀ h status body cc status' body' cc' n, min_agree ≤ S n →
     aggregate_quorum order (GwHttp url)
       (Ok (HttpResult status' h body' cc') :: replicate n (Ok (HttpResult status h body cc))) tol min_agree
       = Ok (HttpResult status' h body' cc')).
Proof.
  assert (∀ outs, match aggregate_quorum order (GwHttp url) outs tol min_agree with
    | Ok r => Ok r ∈ outs ∧ ∃ h rest, hash_of r = Some h ∧ of_hash h (omap to_option outs) = r :: rest ∧
        min_agree ≤ votes h outs ∧ ∀ h', votes h' outs ≤ votes h outs
    | Err e => ∀ h, 1 ≤ votes h outs → votes h outs < min_agree
    end) as Hcases.
  { intros outs. unfold aggregate_quorum.
    pose proof (last_longest_spec (order (map_to_list (group_by_hash (omap to_option outs) ∅))) None) as Hs.
    destruct (last_longest _ _) as [g|].
    - destruct Hs as ([?|[h Hin]] & _ & Hmax); [done|].
      apply ordered_groups in Hin as [Hg Hne].
      assert (∀ h', votes h' outs ≤ votes h outs) as Hall.
      { intros h'. unfold votes at 2. rewrite <-Hg.
        destruct (decide (of_hash h' (omap to_option outs) = [])) as [E|E];
          [unfold votes; rewrite E; cbn; lia|]. eapply Hmax. apply ordered_groups. by split. }
      destruct (Nat.ltb_spec (length g) min_agree) as [Hl|Hl].
      + intros h' _. specialize (Hall h'). unfold votes in Hall at 2. rewrite <-Hg in Hall. lia.
      + destruct g as [|r rest]; [done|]. split.
        * assert (r ∈ of_hash h (omap to_option outs)) as Hr by (rewrite <-Hg; by left).
          apply list_elem_of_filter in Hr as [_ Hr]. apply list_elem_of_omap in Hr as (o & Ho & Hto).
          destruct o; [by injection Hto as ->|done].
        * assert (r ∈ of_hash h (omap to_option outs)) as Hr by (rewrite <-Hg; by left).
          apply list_elem_of_filter in Hr as [Hr _]. exists h, rest. split_and!; [done|done| |done].
          unfold votes. by rewrite <-Hg.
    - destruct Hs as [_ Hempty]. intros h Hv. exfalso.
      destruct (of_hash h (omap to_option outs)) as [|r l] eqn:E; [unfold votes in Hv; rewrite E in Hv; cbn in Hv; lia|].
      assert ((h, r :: l) ∈ order (map_to_list (group_by_hash (omap to_option outs) ∅))) as Hin
        by (by apply ordered_groups).
      rewrite Hempty in Hin. by apply elem_of_nil in Hin. }
  split_and!.
  - intros r Hr. specialize (Hcases outcomes). rewrite Hr in Hcases.
    destruct Hcases as (Hin & h & rest & Hh & _ & Hm & Hmax). split; [done|]. by exists h.
  - intros h H1 Hm. specialize (Hcases outcomes).
    destruct (aggregate_quorum _ _ _ _ _) as [r|e]; [by exists r|]. specialize (Hcases h H1). lia.
  - intros h status body cc status' body' cc' n Hn.
    specialize (Hcases (Ok (HttpResult status' h body' cc') :: replicate n (Ok (HttpResult status h body cc)))).
    assert (of_hash h (omap to_option (replicate n (Ok (E:=GatewayError) (HttpResult status h body cc))))
            = replicate n (HttpResult status h body cc)) as Ehon.
    { clear. induction n as [|n IH]; [done|]. cbn [replicate omap list_omap to_option].
      unfold of_hash in *. rewrite filter_cons_True by done. by f_equal. }
    assert (of_hash h (omap to_option (Ok (E:=GatewayError) (HttpResult status' h body' cc') ::
              replicate n (Ok (HttpResult status h body cc))))
            = HttpResult status' h body' cc' :: replicate n (HttpResult status h body cc)) as Eall.
    { cbn [omap list_omap to_option]. unfold of_hash in *. rewrite filter_cons_True by done.
      by rewrite Ehon. }
    destruct (aggregate_quorum _ _ _ _ _) as [r|e].
    + destruct Hcases as (Hin & h' & rest & Hh' & Hg & _). f_equal.
      assert (h' = h) as ->.
      { apply elem_of_cons in Hin as [H|Hin]; [injection H as ->; by injection Hh'|].
        apply elem_of_replicate in Hin as [H _]. injection H as ->. by injection Hh'. }
      rewrite Eall in Hg. by injection Hg as <- _.
    + exfalso. unfold votes in Hcases. specialize (Hcases h). rewrite Eall in Hcases.
      cbn [length] in Hcases. rewrite length_replicate in Hcases. lia.
Qed.
End http_quorum.

(** ** Asking peers *)

Section resolution.
Context `{P : Platform} `{GC : GatewayCodec} `{Out : Outside}.

(** The request is one this node signs, for this query. *)
Definition request_for (st : AppState) (service : GatewayService) (hops : nat) (path : list string)
    (req : GatewayRequest) : Prop :=
  ∃ nonce t, req = build_and_sign_gateway_request (identity st) service nonce t hops path.

(** The answer is what the peer sent back to a request of this node for this
    query: a fresh response to that request's nonce, which the peer asked
    vouched for. *)
Definition answered_by (st : AppState) (service : GatewayService) (hops : nat) (path : list string)
    (peer : RelayPeer) (r : GatewayResult) : Prop :=
  ∃ nonce t now resp rtt,
    post peer (build_and_sign_gateway_request (identity st) service nonce t hops path) = Ok (resp, rtt) ∧
    let u := gr_unsigned resp in
    vouched GATEWAY_RESPONSE_DOMAIN (canonical_gateway_response u) (gr_responder_peer_id u) (gr_responder_public_key u)
      (gr_signature resp) (rp_peer_id peer) ∧
    decode_32 (gr_nonce u) = Some nonce ∧ skewed (gr_resolved_at u) now = false ∧
    r = match gr_result u with
        | NtpResult t => NtpResult (wrap_i64 (t + Z.quot rtt 2))
        | other => other
        end.

Lemma verify_gateway_response_vouched resp nonce now id :
  verify_gateway_response resp nonce now = Ok id →
  let u := gr_unsigned resp in
  vouched GATEWAY_RESPONSE_DOMAIN (canonical_gateway_response u) (gr_responder_peer_id u) (gr_responder_public_key u)
    (gr_signature resp) id ∧
  decode_32 (gr_nonce u) = Some nonce ∧ skewed (gr_resolved_at u) now = false.
Proof.
  intros H u. unfold verify_gateway_response in H. fold u in H. destruct (negb _) eqn:Hn; [done|].
  apply negb_false_iff, bool_decide_eq_true in Hn.
  apply result_bind_ok in H as ([id' key] & Hs & H). apply result_bind_ok in H as (? & Hg & H).
  destruct (skewed _ _); [done|]. injection H as ->.
  pose proof (checks_vouched _ _ _ _ _ _ _ _ _ Hs Hg). done.
Qed.

Lemma query_peer_spec st peer service hops path s :
  let '(r, s') := query_peer st peer service hops path s in
  gw_cache s' = gw_cache s ∧ gw_limiter s' = gw_limiter s ∧
  (∃ req, gw_sent s' = gw_sent s ++ [(peer, req)] ∧ request_for st service hops path req) ∧
  (∀ res, r = Ok res → answered_by st service hops path peer res).
Proof.
  unfold query_peer. cbv [mbind ste_bind draw send of_result raise mret ste_ret].
  cbn [gw_cache gw_limiter gw_ticks gw_sent].
  set (req := build_and_sign_gateway_request _ _ _ _ _ _).
  assert (request_for st service hops path req) as Hreq by (by eexists _, _).
  destruct (post peer req) as [[resp rtt]|e] eqn:Hpost; cbn [map_err].
  - destruct (verify_gateway_response resp _ _) as [id|e] eqn:Hv.
    + destruct (negb _) eqn:Hn; cbn [gw_cache gw_limiter gw_sent]; split_and!; try done; try (by exists req).
      intros res [= <-]. apply negb_false_iff, bool_decide_eq_true in Hn.
      apply verify_gateway_response_vouched in Hv as (Hv & Hnonce & Hsk). rewrite Hn in Hv.
      by eexists _, _, _, resp, rtt.
    + cbn. split_and!; try done. by exists req.
  - cbn. split_and!; try done. by exists req.
Qed.

(** A run that only asks peers: each request sent is as [Q] says. *)
Definition asks (Q : RelayPeer * GatewayRequest → Prop) (s s' : gateway) : Prop :=
  gw_cache s' = gw_cache s ∧ gw_limiter s' = gw_limiter s ∧
  ∃ new, gw_sent s' = gw_sent s ++ new ∧ Forall Q new.
#[export] Instance asks_preorder Q : PreOrder (asks Q).
Proof.
  split.
  - intros s. split_and!; [done..|]. exists []. by rewrite app_nil_r.
  - intros s1 s2 s3 (C1 & L1 & n1 & E1 & F1) (C2 & L2 & n2 & E2 & F2). split_and!; [congruence..|].
    exists (n1 ++ n2). rewrite E2, E1, app_assoc. split; [done|]. by apply Forall_app.
Qed.

Lemma attempt_asks st peer service hops path s (Q : RelayPeer * GatewayRequest → Prop) :
  (∀ req, request_for st service hops path req → Q (peer, req)) →
  ∃ r s', attempt (query_peer st peer service hops path) s = (Ok r, s') ∧ asks Q s s' ∧
    ∀ res, r = Ok res → answered_by st service hops path peer res.
Proof.
  intros HQ. unfold attempt. pose proof (query_peer_spec st peer service hops path s) as H.
  destruct (query_peer _ _ _ _ _ s) as [r s']. destruct H as (Hc & Hl & (req & Hs & Hreq) & Hr).
  exists r, s'. split; [done|]. split.
  - split_and!; [done..|]. exists [(peer, req)]. split; [done|]. constructor; [by apply HQ|done].
  - exact Hr.
Qed.

Lemma query_all_spec st peers service hops : ∀ s,
  ∃ rs s', query_all st peers service hops s = (Ok rs, s') ∧ length rs = length peers ∧
    asks (λ pr, pr.1 ∈ peers ∧ request_for st service hops [] pr.2) s s' ∧
    Forall2 (λ p r, ∀ res, r = Ok res → answered_by st service hops [] p res) peers rs.
Proof.
  induction peers as [|p peers IH]; intros s; cbn [query_all].
  - exists [], s. split_and!; [done..|reflexivity|constructor].
  - destruct (attempt_asks st p service hops [] s
      (λ pr, pr.1 ∈ p :: peers ∧ request_for st service hops [] pr.2)) as (r & s1 & E1 & A1 & R1).
    { intros req Hreq. split; [by left|done]. }
    destruct (IH s1) as (rs & s2 & E2 & Hl & (C2 & L2 & new & N2 & F2) & R2).
    exists (r :: rs), s2. split_and!; [|cbn; lia| |by constructor].
    + erewrite ste_bind_run by exact E1. erewrite ste_bind_run by exact E2. done.
    + etransitivity; [exact A1|]. split_and!; [done..|]. exists new. split; [done|].
      eapply Forall_impl; [exact F2|]. intros [q r'] [Hq Hr]. split; [by right|done].
Qed.

Lemma try_relays_spec st peers service hops path : ∀ s,
  ∃ r s', try_relays st peers service hops path s = (Ok r, s') ∧
    asks (λ pr, pr.1 ∈ peers ∧ (PeerId_to_string (rp_peer_id pr.1) ∉ path) ∧
            request_for st service hops path pr.2) s s' ∧
    ∀ res, r = Some res → ∃ p, p ∈ peers ∧ answered_by st service hops path p res.
Proof.
  induction peers as [|p peers IH]; intros s; cbn [try_relays].
  - exists None, s. split_and!; [done|reflexivity|done].
  - assert (∀ s, ∃ r s', try_relays st peers service hops path s = (Ok r, s') ∧
      asks (λ pr, pr.1 ∈ p :: peers ∧ (PeerId_to_string (rp_peer_id pr.1) ∉ path) ∧
              request_for st service hops path pr.2) s s' ∧
      ∀ res, r = Some res → ∃ q, q ∈ p :: peers ∧ answered_by st service hops path q res) as IH'.
    { intros s0. destruct (IH s0) as (r & s' & E & (Hc & Hl & new & Hs & Hf) & Hr). exists r, s'.
      split_and!; [done| |].
      - split_and!; [done..|]. exists new. split; [done|]. eapply Forall_impl; [exact Hf|].
        intros [q rq] (Hq & ? & ?). split_and!; [by right|done..].
      - intros res Hres. destruct (Hr res Hres) as (q & Hq & ?). exists q. by split; [right|]. }
    clear IH. case_bool_decide as Hin; [apply IH'|].
    destruct (attempt_asks st p service hops path s
      (λ pr, pr.1 ∈ p :: peers ∧ (PeerId_to_string (rp_peer_id pr.1) ∉ path) ∧
             request_for st service hops path pr.2)) as (r & s1 & E1 & A1 & R1).
    { intros req Hreq. split_and!; [by left|done..]. }
    destruct r as [res|e].
    + exists (Some res), s1. erewrite ste_bind_run by exact E1. split_and!; [done..|].
      intros res' [= <-]. exists p. split; [by left|]. by apply R1.
    + destruct (IH' s1) as (r & s2 & E2 & A2 & R2). exists r, s2.
      erewrite ste_bind_run by exact E1. split_and!; [done| |done]. by etransitivity.
Qed.

(** Where an answer came from, and what the run did to the node. *)
Definition resolved (st : AppState) (service : GatewayService) (hops : nat) (path : list string)
    (s : gateway) (r : result GatewayError (GatewayResult * ServedFrom)) (s' : gateway) : Prop :=
  let peers := gateway_query_peers st in
  let config := gateway_config st in
  let own := path ++ [peer_id_string (identity st)] in
  match r with
  | Ok (res, Cache) =>
      cache_get (monotonic (gw_ticks s)) service (gw_cache s) = Some res ∧ asks (λ _, False) s s'
  | Ok (res, Quorum) =>
      peers ≠ [] ∧ (∃ asked outcomes,
        asked = take (if fanout_count config =? 0 then length peers
                      else Nat.min (fanout_count config) (length peers)) peers ∧
        Forall2 (λ p r, ∀ res, r = Ok res → answered_by st service (hops_remaining config) [] p res) asked outcomes ∧
        aggregate_quorum map_order service outcomes (ntp_tolerance_ms config) (quorum_min_agree config) = Ok res) ∧
      ∃ now, gw_cache s' = cache_put now service res (compute_cache_ttl service res config) (gw_cache s)
  | Ok (res, Origin) => peers = [] ∧ resolve_directly st service = Ok (Some res) ∧ asks (λ _, False) s s'
  | Ok (res, Relay) =>
      peers = [] ∧ hops ≠ 0 ∧ (∃ p, p ∈ gateway_relay_peers st ∧ answered_by st service (hops - 1) own p res) ∧
      gw_cache s' = gw_cache s
  | Err _ => gw_cache s' = gw_cache s
  end ∧
  gw_limiter s' = gw_limiter s ∧
  (peers = [] → ∃ new, gw_sent s' = gw_sent s ++ new ∧
     Forall (λ pr, hops ≠ 0 ∧ (PeerId_to_string (rp_peer_id pr.1) ∉ own) ∧
               request_for st service (hops - 1) own pr.2) new).

Lemma draw_run {A} (f : nat → A) s :
  draw f s = (Ok (f (gw_ticks s)), Gw (gw_cache s) (gw_limiter s) (S (gw_ticks s)) (gw_sent s)).
Proof. reflexivity. Qed.

Lemma relay_resolved st service hops path s s0 :
  gateway_query_peers st = [] → asks (λ _, False) s s0 →
  let '(r, s') := (relay_gateway_query st service hops path ≫= relayed) s0 in
  resolved st service hops path s r s'.
Proof.
  intros Hq (Hc & Hl & new0 & Hs & Hf). assert (new0 = []) as ->.
  { destruct new0 as [|x l]; [done|]. inversion Hf; done. }
  rewrite app_nil_r in Hs.
  assert (∀ e, resolved st service hops path s (Err e) s0) as Herr.
  { intros e. unfold resolved. cbv zeta. split_and!; [congruence..|]. intros _. exists [].
    rewrite app_nil_r. by split. }
  unfold relay_gateway_query. destruct hops as [|hops]; [apply Herr|].
  destruct (gateway_relay_peers st) as [|p peers] eqn:Hp; [apply Herr|].
  destruct (try_relays_spec st (p :: peers) service hops (path ++ [peer_id_string (identity st)]) s0)
    as (r & s' & E & (Hc' & Hl' & new & Hs' & Hf') & Hr).
  erewrite ste_bind_run by exact E.
  assert (∃ new, gw_sent s' = gw_sent s ++ new ∧
    Forall (λ pr : RelayPeer * GatewayRequest, S hops ≠ 0 ∧
       (PeerId_to_string (rp_peer_id pr.1) ∉ path ++ [peer_id_string (identity st)]) ∧
       request_for st service (S hops - 1) (path ++ [peer_id_string (identity st)]) pr.2) new) as Hnew.
  { exists new. split; [congruence|]. eapply Forall_impl; [exact Hf'|]. intros pr (_ & Hn & Hrq).
    cbn [Nat.sub]. rewrite Nat.sub_0_r. done. }
  destruct r as [res|]; cbn [relayed]; cbv [mret ste_ret raise]; unfold resolved; cbv zeta.
  - destruct (Hr res eq_refl) as (q & Hin & Ha). rewrite Hp.
    split_and!; [done|done|exists q; cbn [Nat.sub]; by rewrite Nat.sub_0_r|congruence|congruence|done].
  - split_and!; [congruence|congruence|done].
Qed.

Lemma resolve_resolved st service hops path s :
  let '(r, s') := resolve_gateway_query st service hops path s in resolved st service hops path s r s'.
Proof.
  unfold resolve_gateway_query. cbv [mbind ste_bind draw observe]. cbn [gw_cache gw_limiter gw_ticks gw_sent].
  set (s0 := Gw (gw_cache s) (gw_limiter s) (S (gw_ticks s)) (gw_sent s)).
  assert (∀ Q, asks Q s s0) as Ha.
  { intros Q. split_and!; [done..|]. exists []. by rewrite app_nil_r. }
  destruct (cache_get _ _ _) as [res|] eqn:Hget.
  { unfold resolved. cbv zeta. split_and!; [done|apply Ha|done|]. intros _. exists []. by rewrite app_nil_r. }
  destruct (gateway_query_peers st) as [|p peers] eqn:Hp.
  - pose proof (relay_resolved st service hops path s s0 Hp (Ha _)) as Hrelay.
    destruct (resolve_directly st service) as [[res|]|e] eqn:Hd; [|exact Hrelay..].
    unfold resolved. cbv zeta. split_and!; [done..|apply Ha|done|]. intros _. exists []. by rewrite app_nil_r.
  - unfold fanout_and_verify. rewrite Hp.
    destruct (query_all_spec st (take (if fanout_count (gateway_config st) =? 0 then length (p :: peers)
        else Nat.min (fanout_count (gateway_config st)) (length (p :: peers))) (p :: peers))
      service (hops_remaining (gateway_config st)) s0) as (rs & s1 & E & _ & (Hc & Hl & new & Hs & _) & Hr).
    cbv [mbind ste_bind of_result]. rewrite E.
    destruct (aggregate_quorum _ _ _ _ _) as [res|e] eqn:Hagg; unfold resolved; cbv zeta; rewrite ?Hp.
    + cbn. split_and!; [done| |eexists; by rewrite Hc|done|done]. by eexists _, rs.
    + by split_and!.
Qed.

(** ** Properties *)

(** C36: Where answers come from.  A query is answered from the cache, by a
    quorum, by the origin or by a relay, and each means what it says: a quorum
    answer is the aggregate of answers vouched for by the configured peers, a
    relayed one is vouched for by a configured relay; only quorum answers are
    ever put into the cache, and errors leave it as it is.  A node with
    query peers gives no others than these two.  So a front end that passed
    its start-up check gives outside clients only checked answers - provided
    the configured quorum is not zero: the check passes without any query
    peer then, and a node with an upstream server answers unchecked. *)
Theorem gateway_answers_checked st service hops path s :
  (let '(r, s') := resolve_gateway_query st service hops path s in resolved st service hops path s r s') ∧
  (1 ≤ quorum_min_agree (gateway_config st) → require_quorum_capable st = true →
   ∀ res from s', resolve_gateway_query st service hops path s = (Ok (res, from), s') →
     from = Cache ∨ from = Quorum) ∧
  (quorum_min_agree (gateway_config st) = 0 → require_quorum_capable st = true) ∧
  (gateway_query_peers st = [] → ∀ res, resolve_directly st service = Ok (Some res) →
   cache_get (monotonic (gw_ticks s)) service (gw_cache s) = None →
   (resolve_for_front_end st service s).1 = Ok res).
Proof.
  split_and!.
  - apply resolve_resolved.
  - intros Hm Hcap res from s' Hr. pose proof (resolve_resolved st service hops path s) as H.
    rewrite Hr in H. unfold require_quorum_capable in Hcap. apply negb_true_iff, Nat.ltb_ge in Hcap.
    assert (gateway_query_peers st ≠ []) as Hne by (intros E; rewrite E in Hcap; cbn in Hcap; lia).
    destruct from; [by left|by right|..]; exfalso; by destruct H as [(Hq & _) _].
  - intros Hm. unfold require_quorum_capable. rewrite Hm. done.
  - intros Hq res Hd Hget. unfold resolve_for_front_end, resolve_gateway_query.
    cbv [mbind ste_bind draw observe]. cbn [gw_cache gw_ticks]. by rewrite Hget, Hq, Hd.
Qed.

(** A chain of relays: each node relays, in some run on the request it got, to
    the next. *)
Inductive relay_chain (service : GatewayService) : AppState → nat → list string → list AppState → Prop :=
  | chain_end st hops path : relay_chain service st hops path []
  | chain_relay st hops path s new peer req st' rest :
      gateway_query_peers st = [] →
      gw_sent (resolve_gateway_query st service hops path s).2 = gw_sent s ++ new →
      (peer, req) ∈ new → identity_peer_id (identity st') = rp_peer_id peer →
      relay_chain service st' (gq_hops_remaining (gq_unsigned req)) (gq_path (gq_unsigned req)) rest →
      relay_chain service st hops path (st' :: rest).

(** C37: Relaying ends.  A request that arrives with [hops] hops left passes
    through at most that many further nodes, all different, and never through
    one that the request says it has already been at.  (Of nodes that relay:
    the fan-out of a node with query peers starts over with a full budget and
    an empty path.) *)
Theorem relay_chain_bounded service st hops path rest :
  relay_chain service st hops path rest →
  length rest ≤ hops ∧ NoDup ((λ st, peer_id_string (identity st)) <$> rest) ∧
  ∀ st', st' ∈ rest → (peer_id_string (identity st') ∉ path) ∧ (peer_id_string (identity st') ≠ peer_id_string (identity st)).
Proof.
  induction 1 as [st hops path|st hops path s new peer req st' rest Hq Hs Hin Hid _ (IHl & IHn & IHp)].
  { split_and!; [cbn; lia|constructor|]. by intros ? ?%elem_of_nil. }
  pose proof (resolve_resolved st service hops path s) as H.
  destruct (resolve_gateway_query st service hops path s) as [r s'] eqn:Er. cbn [snd] in Hs.
  destruct H as (_ & _ & Hnew). destruct (Hnew Hq) as (new' & Hs' & Hf).
  assert (new' = new) as -> by (apply (app_inv_head (gw_sent s)); rewrite <-Hs, <-Hs'; done).
  eapply Forall_forall in Hf; [|exact Hin]. cbn [fst snd] in Hf.
  destruct Hf as (Hh & Hn & (nonce & t & ->)).
  cbn [gq_unsigned build_and_sign_gateway_request gq_hops_remaining gq_path] in *.
  assert (peer_id_string (identity st') = PeerId_to_string (rp_peer_id peer)) as Est
    by (unfold peer_id_string; by rewrite Hid).
  rewrite <-Est in Hn. split_and!.
  - cbn. lia.
  - cbn. constructor; [|done]. intros (x & Hx & Hxin)%list_elem_of_fmap.
    destruct (IHp x Hxin) as [_ Hne]. by apply Hne.
  - intros x [->|Hx]%elem_of_cons.
    + split; intros Hc; apply Hn, elem_of_app; [by left|right]. rewrite Hc. by left.
    + destruct (IHp x Hx) as [Hnp _].
      split; intros Hc; apply Hnp, elem_of_app; [by left|right]. rewrite Hc. by left.
Qed.
End resolution.

(** ** Witnesses *)

(** Three honest clocks and one that lies. *)
Lemma ntp_quorum_sound_witness :
  ∃ m, aggregate_quorum id GwNtp
    (Ok ∘ NtpResult <$> [1000000; 9999999; 1000200; 1000100]%Z) 1000 2 = Ok (NtpResult m) ∧
    (Z.abs (m - 1000100) ≤ 2 * 1000 + 100)%Z.
Proof.
  destruct (ntp_quorum_sound id (Ok ∘ NtpResult <$> [1000000; 9999999; 1000200; 1000100]%Z) 1000 2
    1000100 100) as [H _]; [lia|repeat constructor; unfold plausible; lia|].
  assert (aggregate_quorum id GwNtp
    (Ok ∘ NtpResult <$> [1000000; 9999999; 1000200; 1000100]%Z) 1000 2 = Ok (NtpResult 1000100)) as E
    by (vm_compute; reflexivity).
  destruct (H ltac:(vm_compute; lia) _ E) as (m & v & Hm & Hb & _). exists m. split; [|exact Hb].
  rewrite E, Hm. reflexivity.
Defined.

Lemma http_quorum_agrees_witness :
  aggregate_quorum id (GwHttp "http://example.org/")
    [Ok (HttpResult 200 "blake3:aa" "forged" None); Ok (HttpResult 200 "blake3:aa" "hello" None);
     Ok (HttpResult 200 "blake3:aa" "hello" None)] 0 2
  = Ok (HttpResult 200 "blake3:aa" "forged" None).
Proof.
  destruct (http_quorum_agrees id (λ l, Permutation_refl l) "http://example.org/" [] 0 2) as (_ & _ & H).
  apply (H "blake3:aa" 200%Z "hello" None 200%Z "forged" None 2). lia.
Defined.

Section witnesses.
#[local] Existing Instance Toy.platform.
#[local] Instance demo_gateway_codec : GatewayCodec := {|
  canonical_gateway_request := λ u, gq_requester_peer_id u;
  canonical_gateway_response := λ u, gr_responder_peer_id u |}.
(** No peer answers. *)
#[local] Instance demo_outside : Outside := {|
  wall_clock := λ n, (1700000000 + Z.of_nat n)%Z; monotonic := λ n, Z.of_nat n;
  random_nonce := λ _, Toy.hash "nonce"; post := λ _ _, Err "down";
  query_ntp := λ _, Err NtpTimeout; fetch_http := λ _ _ _, Err GwCannotResolve; map_order := id |}.

Definition demo_node (name : string) (relays : list RelayPeer) : AppState := {|
  identity := Toy.hash name; gateway_config := GatewayConfig_default;
  gateway_query_peers := []; gateway_relay_peers := relays |}.
Definition demo_b : AppState := demo_node "b" [].
Definition demo_peer_b : RelayPeer := {| rp_address := "http://b"; rp_peer_id := identity_peer_id (identity demo_b) |}.
Definition demo_a : AppState := demo_node "a" [demo_peer_b].
Definition demo_gateway : gateway := Gw ∅ RateLimiter_default 0 [].

Lemma relay_chain_bounded_witness :
  peer_id_string (identity demo_b) ∉ ["p"] ∧ (length [demo_b] ≤ 1).
Proof.
  assert (relay_chain GwNtp demo_a 1 ["p"] [demo_b]) as H.
  { eapply (chain_relay GwNtp demo_a 1 ["p"] demo_gateway); [reflexivity|reflexivity|left|reflexivity|].
    apply chain_end. }
  destruct (@relay_chain_bounded Toy.platform demo_gateway_codec demo_outside GwNtp demo_a 1 ["p"] [demo_b] H)
    as (Hl & _ & Hp).
  split; [apply (Hp demo_b); left|exact Hl].
Defined.
End witnesses.
